(* ===== verification/_CoqProject ===== *)
-Q . S2P
Prelude.v
Json.v
Text.v
HeldInput.v
Cover.v
FileTail.v
NodeStore.v
NodeFence.v
Correlator.v
PtyQueue.v
PtySettle.v
AltScreen.v
BinaryFrame.v
Projection.v
Journal.v
JournalLog.v
JournalRecover.v
JournalRead.v
JournalSpec.v
JournalCrash.v
JournalWitness.v
RootTurn.v
WorktreePool.v
PoolSafety.v
GateLog.v
GateQueue.v
GateSafety.v
GateSchedule.v
GateExamples.v
HubCommands.v
HubEdit.v
HubLedger.v
HubQueue.v
HubHeld.v
HubExamples.v
FenceHub.v
FenceSteps.v
FenceLedger.v
FenceAuth.v
FenceSafety.v
FenceRecords.v
FenceDelivery.v
FenceWorld.v
FenceNode.v
FenceLive.v
FencePause.v
FenceExamples.v
PathGuard.v
