(* ===== verification/Prelude.v ===== *)
(** * Remuda, verified

    Remuda runs coding agents on many hosts.  A Hub accepts commands from
    people, bots and other agents and forwards them to Nodes; a Node keeps a
    ledger of instances and commands, delivers prompts to the native agent
    process (most often through a pseudo-terminal), tails the agent's JSONL
    transcript, joins what it sees back to the command that caused it, and
    cancels the work of a lineage when the Hub fences it.  This development
    models the parts of the Node, of the Hub, of the journal crate and of the
    protocol crate that carry those guarantees, and proves them.

    ** Files and the code they model (paths under [src/crates/])

    - [Prelude]: the result and state-and-error monads, [Knowledge], machine
      integers, slices and iterators, [preserves] (an invariant kept on every
      path, errors included), tactics and the hint database [remuda].
    - [Json]: the class of JSON values the code inspects, with a concrete
      instance.  [Text]: strings as lists of scalar values, white space.
    - [HeldInput]: [remuda-node/src/held_input.rs], the registry where a
      withdrawal or an edit of a waiting prompt meets its delivery claim.
    - [Cover]: [remuda-journal/src/cover.rs], the byte ranges of a transcript
      a failure has already accounted for.
    - [FileTail]: [remuda-journal/src/source.rs], tailing a JSONL file through
      appends, torn lines, truncation and rotation, and the peek that arms
      covers.
    - [NodeStore]: [remuda-node/src/store.rs] (the in-memory ledger every read
      of the Node goes to) and the settlement helpers of
      [remuda-node/src/runtime.rs], over the entities and enums of
      [remuda-protocol].
    - [NodeFence]: [remuda-node/src/fence.rs], lineage fences: the table and
      its SQLite rows, the dispatch claim, the application of a fence to
      commands and direct operations, restarts.
    - [Correlator]: [remuda-node/src/prompt_correlation.rs], the join of hook
      and transcript evidence to the command that delivered a prompt.
    - [PtyQueue]: [remuda-node/src/runtime/pty_queue.rs] and [execute_queued]
      of [runtime.rs], the worker that delivers prompts to a terminal.
    - [PtySettle]: the settlement half of the queue's contract.
    - [AltScreen]: [remuda-herdr/src/alt_screen.rs], the streaming scanner for
      the alternate screen.
    - [BinaryFrame]: [remuda-protocol/src/binary.rs], the 32-byte frame header.
    - [Projection]: [remuda-journal/src/projection.rs] over the observation
      types of [remuda-protocol], the folds a journal is read through.
    - [Journal]: [remuda-journal/src/store.rs], [envelope.rs] and [blob.rs], the
      durable journal: JSONL files, their SQLite index, blobs, followers,
      recovery, the writer thread.
    - [JournalLog], [JournalRecover], [JournalRead]: its invariant and the
      proofs that appending, recovering and reading keep or use it.
      [JournalSpec]: the abstract log and the refinement.  [JournalCrash]:
      histories with crashes.  [JournalWitness]: a concrete codec and runs.
    - [RootTurn]: [remuda-hub/src/root_turn.rs], which input started the turn an
      instance is in, and the gate that drops a supplied [requestedBy].
    - [WorktreePool]: [remuda-node/src/worktree_pool.rs] and the catalog half of
      [worktree.rs], the leases of git worktrees, with git and the file system
      as an environment that answers anything.  [PoolSafety]: what the pool may
      do to a directory, its invariant, and concrete runs.
    - [PathGuard]: [remuda-protocol/src/path_guard.rs], the containment of paths
      a caller supplies, over a file system with symbolic links and the kernel's
      walk, and its callers in [worktree.rs].
    - [GateLog], [GateQueue]: [remuda-hub/src/gatequeue.rs] over the types of
      [remuda-protocol/src/gate.rs], the queue of jobs that verify a branch on a
      lane and land it: bounding what a verdict stores, and every writer of a
      row (enqueue, claim, cancel, land grant, verdicts, probes, home pushes,
      restarts, ended sessions, resolutions) with the scheduling passes.
      [GateSafety]: what one job may go through.  [GateSchedule]: lanes, land
      slots and carrier sessions.  [GateExamples]: concrete runs.
    - [HubCommands]: [remuda-hub/src/cmd_queue.rs], the command writers of
      [store.rs] and [forward_if_online] of [http.rs], the Hub's command ledger:
      queueing, forwarding, settling, editing and withdrawing.  [HubEdit]: what
      the Node reads of an edited payload.  [HubLedger]: the steps of one
      command and their invariant.  [HubQueue]: what a caller can rely on.
      [HubHeld]: edits and withdrawals of a prompt the Node holds, over
      [HeldInput].  [HubExamples]: concrete runs.
    - [FenceHub]: [remuda-hub/src/fence.rs] and the authority check and the
      successor's transaction of [store.rs], the tables of the Hub's fences and
      the transactions on them, over the ledger of [HubCommands] and the job
      documents of [GateQueue].  [FenceSteps]: what runs between two fences
      (forwards with their gates, the direct operations of [node_ops.rs], gate
      jobs, deliveries, restarts), as steps on those tables and the volatile
      state.  [FenceLedger]: the Hub with fences refines [HubCommands].
      [FenceAuth]: who may act.  [FenceSafety]: what can leave after a fence.
      [FenceRecords]: what a fence cancels and records.  [FenceDelivery]:
      generations, deliveries, the in-memory map.  [FenceLive]: a delivery that
      goes through.  [FencePause]: the close that becomes a pause.
    - [FenceWorld]: the interface [FencingNode] the Hub's fences rely on, and
      the Hub run together with its Nodes.  [FenceNode]: the Node of [NodeFence]
      as an instance of it.  [FenceExamples]: concrete runs.

    ** How the parts interact

    [PtyQueue] calls [HeldInput] (hold, change, claim, unclaim, release),
    [NodeFence] (the dispatch claim), [NodeStore] (reads, settlements,
    observations, instance state) and [Correlator] (register, retext, cancel).
    [NodeFence] works on the ledger of [NodeStore].  [FileTail] revalidates the
    covers of [Cover] at every open; its cursors are what [Journal] stores for
    a source.  [Journal] folds every observation through [Projection].  The
    command queue of the Hub calls [HeldInput] on the Node through a call whose
    frame or answer may be lost.  The gate queue is the Hub's too; it calls
    nothing of the other components.  The fences of the Hub write to the command
    ledger and to gate jobs, gate every forward and every direct operation, and
    reach the fence table of a Node through frames that may be lost or repeated;
    the client side is proved against [FencingNode], which [FenceNode]
    discharges.  A stateful method is a function in the state-and-error monad
    over the record that its Rust type keeps; a method that takes a mutex for
    its whole body is one atomic step.

    Concurrency.  [HeldInput] and [NodeFence] quantify over arbitrary sequences
    of atomic steps.  [PtyQueue] goes further: the worker is written access by
    access, and before each access to shared state an arbitrary batch of other
    tasks' steps runs (withdrawals, edits, fences, submissions, signals,
    evidence), so its theorems hold for every interleaving.  [GateQueue] splits
    each handler into what it read and its database writer, a step on the live
    row, and its theorems quantify over arbitrary sequences of writers; its
    scheduling passes advance one job at a time between them.  [FenceSteps] does
    the same for the Hub's writer jobs: a forward, a call or a delivery is cut at
    every await, and the theorems quantify over all sequences of such steps,
    restarts included.  What the driver,
    the attachment loader, the interaction broker and the clock answer is part
    of each event and is arbitrary too.

    ** What the theorems show

    - Prompts: a withdrawn prompt is never written; what is written is the last
      accepted text; each prompt is written at most once, steers ahead of
      ordinary prompts and each class in arrival order; no prompt is lost (it
      waits or is settled); the registry gives a withdrawal and a delivery one
      winner and makes an edit a compare-and-swap.
    - Fences: a claimed command is reported cancelled only after it was given
      back (claimed again and refused, accepted anew, settled as fenced), and a
      cancelled one is delivered only after another settlement was written over
      the fence's; a fence settles exactly the undelivered commands of
      the fenced generation; a fence survives later operations, database
      failures and restarts.
    - Ledger: every sequence of operations keeps journals consecutively
      numbered and commands owned once; revisions never move backwards;
      insertion is idempotent.
    - Transcript: arbitrary polls of a growing file fold each line exactly
      once; a rotated file is reread from the start and no old cover survives;
      a peek's covers settle exactly the starts on disk; evidence is only
      attributed to a live command of the same text, in order, and never to a
      cancelled one.
    - Journal: while the storage does not fail and event ids are new, the store
      implements an append-only log (its answers are those of the log, up to and
      including the first repeated event id), a follower's history and stream
      have no hole, and pages are bounded and tile the range.  An acknowledged
      observation survives every history of failures, crashes and restarts of a
      journal that syncs its files, if no event id is repeated and the store is
      started again after an append that left bytes it did not index.
      Projections: the ordered fold applies the contiguous prefix whatever
      the order of arrival; backfilling agrees with folding; the transcript and
      the interactions are determined by the journal.
    - Root turns: a turn reads as the owner's only for an owner-stamped input
      delivered to that instance whose process is still alive and whose turn, on
      a carrier with turn boundaries, is still open; stripping an interaction
      event removes exactly what is below a [requestedBy].
    - Worktrees: for every sequence of requests and every answer of git and the
      file system, a request switches or evicts only a slot of the pool whose row
      has no holder and that was found clean, cleans only the slot it returns for
      its one holder, and removes by force only the row it names when nobody holds
      it; no pool
      outgrows its size; a granted lease is on disk; returning a directory the
      pool did not make leaves it alone.
    - Paths: a path the guard accepts extends the real path of a root and opens
      as itself or not at all; what is then created is what was checked, unless
      a link that led nowhere is among its names; the working directory of an
      instance is an existing directory inside the workspace or its worktrees.
    - Gate jobs: for every sequence of writers, a finished job keeps its
      document but for its post-land output and its dropped ref; a report of another attempt changes nothing; an accepted cancel
      bars every later land grant of its attempt; a granted land is settled only
      by its own session and merge, a matching probe or an exact resolution; a
      job is landed only when someone reported it; a verdict ends a job only
      with its own stored log, and a job parked without it waits; one job to a
      lane and one land to a project while passes do not overlap; carrier
      sessions never repeat across boots; a stored run log fits its cap.
    - Hub commands: for every interleaving of callers, forwards, Nodes, fences and
      restarts, a caller's command is sent at most once; one withdrawn at the
      Hub is never sent; after an edit only the edited payload leaves, and the
      Node reads the new text from it; a settlement is final; a replayed request
      finds its command.  For a prompt the Node holds, an answered edit keeps
      both sides at one revision, and a lost answer of a withdrawal still ends
      withdrawn.
    - Hub fences: at most one chapter of a lineage passes the authority check;
      after F nothing new of the fenced generations is admitted, no held command
      of theirs ever leaves, and of their direct operations at most those past
      their send intent; F cancels or records everything of theirs; a record is
      unique to one fence and final once definite; of two racing F one wins; the
      fences of a lineage number its generations; no frame of a chapter precedes
      the acknowledgements it depends on; a delivery that goes through opens the
      host and forwards what waited; a close answers what holds and gives up
      only after four other fences won.  With the Nodes: where a successor has
      acted, the Node refuses every older generation.
    - Streams: the alternate-screen scanner refines a byte automaton, hence is
      independent of chunking; binary frames round-trip and are canonical.
    - Divergences between code and documentation are stated as theorems too:
      [settled_create_prompt_passes_a_raised_fence],
      [stale_settlement_overwrites_a_cancellation],
      [retried_direct_op_reads_refused_after_restart],
      [edit_makes_the_joined_revision_stale], [resync_swallows_the_escape],
      [duplicate_event_id_loses_the_acknowledged_observation],
      [partial_write_poisons_the_file], [failed_checkpoint_leaves_a_hole],
      [range_past_i64_is_empty],
      [session_exit_never_folds_to_exited],
      [adopted_slot_is_evicted_under_its_holder], [eviction_can_still_defer],
      [create_answers_with_a_missing_worktree], [overlapping_passes_share_a_lane],
      [verdict_after_a_restart_is_taken_for_a_copy],
      [landed_answer_is_dropped_after_a_session_end],
      [withdrawing_two_configures_leaves_the_first],
      [withdrawing_one_of_two_equal_configures_drops_both],
      [lost_edit_answer_blocks_every_edit], [untyped_block_keeps_the_old_text],
      [listed_commands_are_hidden_by_notices], [busy_create_is_left_in_flight],
      [a_failed_delivery_drops_the_close], [a_restart_drops_the_close],
      [an_operation_that_ran_reads_cancelled],
      [an_operation_that_never_left_stays_unknown],
      [a_late_note_is_not_forwarded], [one_record_for_two_hosts].

    ** Bounds and fuel

    Loops are structural on the list they consume, except the chunk loop of
    [AltScreen.feed] (fuel: twice the bytes plus one, since at most every other
    iteration does not advance) and the line loop of [FileTail.poll] and
    [read_pairs] (fuel: the bytes left plus one), the drain of
    [Projection.fold_push] (fuel: the size of the buffer), the suffix
    trimming of [Journal.trim_jsonl] (fuel: the length of the name) and the
    halving loops of [GateLog] (fuel: the lines they halve); each file
    proves that its fuel is enough, so the results are total.  [u64] arithmetic
    saturates or wraps exactly where the code does.  Generations of a lineage
    are [i64] in the Hub and grow by one with a fence; they are unbounded here,
    and the Node's clamp at [i64::MAX] is written out and excluded where a
    theorem depends on it.

    ** Parameters

    Code outside the repository is a parameter: SHA-256, the JSON decoders of
    serde_json (with the shape [Json] needs) and the serialisation of an
    initiator; the class [Codec] collects those of the journal and [CodecLaws]
    what it relies on, and [EncoderLaws] what bounding a run log relies on.  Theorems that need a property of one state it as a hypothesis
    and have a witness with a concrete instance.

    ** What is not modelled

    Timestamps are arguments or left out.  The SQLite write-through of the
    ledger with the journal it appends driver observations to, the readers that
    turn transcript lines into envelopes, instance materialisation, the drivers, the Node's gate runner, workspace files and
    all network and process I/O are left out; fields of entities that no
    modelled function reads are left out of the records.  Of the Hub:
    - the gate queue's HTTP routes, the abort and probe calls and the calls that
      drop pinned refs on a lane (the rows they then write are modelled);
    - the command queue's HTTP routes, the fields added to a frame, the
      workspace commands and the merge of two hosts;
    - around the fences: the deletion of instances, lineages, hosts and commands
      (so rows only grow here), the schema backfills, restart decisions and
      their notices, usage-limit waits, the inbox, pushes, audit rows,
      settlement events, egress revocation and the checks of claimed panes;
    - placement, worker watching, usage accounting, rate limits, providers,
      projects and the HTTP and WebSocket surface.

    Components in the rest of the repository are mostly I/O around third-party
    processes and crates (terminals, git, HTTP, regular expressions); what they
    answer is an argument of the definitions that use it. *)
From stdpp Require Import base list gmap strings numbers sorting.

(** ** Notations and scopes *)

Declare Scope remuda_scope.
Delimit Scope remuda_scope with remuda.

(** ** Fallible code

    A Rust [Result<A, E>] keeps its two constructors; [?] is [let?]. *)

Inductive result (A E : Type) : Type :=
| Ok (a : A)
| Err (e : E).
Arguments Ok {A E} _.
Arguments Err {A E} _.

Definition result_bind {A B E} (r : result A E) (k : A → result B E) : result B E :=
  match r with
  | Ok a => k a
  | Err e => Err e
  end.

Definition is_ok {A E} (r : result A E) : bool :=
  match r with Ok _ => true | Err _ => false end.

Definition ok_or {A E} (o : option A) (e : E) : result A E :=
  match o with Some a => Ok a | None => Err e end.

Notation "'let?' x ':=' r 'in' k" := (result_bind r (λ x, k))
  (at level 10, x pattern, r at level 100, k at level 200) : remuda_scope.

(** ** Stateful fallible code

    [st S E A] is a computation over a mutable state [S] that returns a Rust
    [Result<A, E>].  As in Rust, an [Err] leaves the mutations made so far in
    place.  The monad is an instance of stdpp's [MRet]/[MBind], so code is
    written with [x ← c; k]. *)

Definition st (S E A : Type) : Type := S → S * result A E.

#[export] Instance st_ret {S E} : MRet (st S E) := λ A a s, (s, Ok a).
#[export] Instance st_bind {S E} : MBind (st S E) := λ A B k c s,
  match c s with
  | (s', Ok a) => k a s'
  | (s', Err e) => (s', Err e)
  end.

Definition st_fail {S E A} (e : E) : st S E A := λ s, (s, Err e).
Definition st_get {S E} : st S E S := λ s, (s, Ok s).
Definition st_put {S E} (s : S) : st S E unit := λ _, (s, Ok tt).
Definition st_modify {S E} (f : S → S) : st S E unit := λ s, (f s, Ok tt).
Definition st_lift {S E A} (r : result A E) : st S E A := λ s, (s, r).
Arguments st_fail {S E A} e s /.
Arguments st_get {S E} s /.
Arguments st_put {S E} s s' /.
Arguments st_modify {S E} f s /.
Arguments st_lift {S E A} r s /.

(** Run a computation on a component of a larger state. *)
Definition st_zoom {S T E A} (get : T → S) (set : S → T → T) (c : st S E A) : st T E A :=
  λ t, let '(s', r) := c (get t) in (set s' t, r).

(** [for x in l { f(x)?; }] *)
Fixpoint st_for {S E A} (l : list A) (f : A → st S E unit) : st S E unit :=
  match l with
  | [] => mret tt
  | x :: r => _ ← f x; st_for r f
  end.

(** ** What the runtime knows: [Knowledge<T>] of the protocol *)

Inductive Knowledge (T : Type) : Type :=
| Known (value : T)
| Unknown (reason : string)
| NotApplicable.
Arguments Known {T} _.
Arguments Unknown {T} _.
Arguments NotApplicable {T}.

#[export] Instance Knowledge_eq_dec {T} `{EqDecision T} : EqDecision (Knowledge T).
Proof. solve_decision. Defined.

(** ** Machine integers

    A [w]-bit unsigned integer is a [Z]; the operations write out what Rust
    does at the ends of the range. *)

Definition u64_max : Z := (2 ^ 64 - 1)%Z.
Definition i64_max : Z := (2 ^ 63 - 1)%Z.
Definition u32_max : Z := (2 ^ 32 - 1)%Z.
Definition is_u64 (z : Z) : Prop := (0 ≤ z ≤ u64_max)%Z.
Definition wrap64 (z : Z) : Z := (z `mod` 2 ^ 64)%Z.
Definition saturating_add64 (a b : Z) : Z := Z.min (a + b) u64_max.
Definition checked_add64 (a b : Z) : option Z :=
  if (a + b <=? u64_max)%Z then Some (a + b)%Z else None.
Definition checked_sub (a b : Z) : option Z :=
  if (b <=? a)%Z then Some (a - b)%Z else None.

(** ** Slices, [Vec] and iterator adaptors *)

(** [slice.get(i..j)]: [None] unless [i <= j <= len]. *)
Definition get_range {A} (i j : nat) (l : list A) : option (list A) :=
  if decide (i ≤ j ∧ j ≤ length l) then Some (take (j - i) (drop i l)) else None.

(** [slice.get(i..)]: [None] unless [i <= len]. *)
Definition get_from {A} (i : nat) (l : list A) : option (list A) :=
  if decide (i ≤ length l) then Some (drop i l) else None.

(** [iter().position(p)]: index of the first element satisfying [p]. *)
Fixpoint position {A} (p : A → bool) (l : list A) : option nat :=
  match l with
  | [] => None
  | x :: r => if p x then Some 0 else S <$> position p r
  end.

(** [iter().rposition(p)]: index of the last element satisfying [p]. *)
Fixpoint rposition {A} (p : A → bool) (l : list A) : option nat :=
  match l with
  | [] => None
  | x :: r => match rposition p r with
              | Some i => Some (S i)
              | None => if p x then Some 0 else None
              end
  end.

(** [iter().find(p)]. *)
Fixpoint find_first {A} (p : A → bool) (l : list A) : option A :=
  match l with
  | [] => None
  | x :: r => if p x then Some x else find_first p r
  end.

(** [retain(p)]; [List.filter] on a boolean predicate. *)
Definition retain {A} (p : A → bool) (l : list A) : list A := List.filter p l.

(** [VecDeque::insert(i, x)] for [i <= len] and [VecDeque::remove(i)]. *)
Definition insert_at {A} (i : nat) (x : A) (l : list A) : list A :=
  take i l ++ x :: drop i l.
Definition remove_at {A} (i : nat) (l : list A) : list A :=
  take i l ++ drop (S i) l.

(** [slice.starts_with], [strip_prefix], [strip_suffix] and [split(p)]. *)
Fixpoint starts_with {A} `{EqDecision A} (p l : list A) : bool :=
  match p, l with
  | [], _ => true
  | x :: p', y :: l' => bool_decide (x = y) && starts_with p' l'
  | _ :: _, [] => false
  end.
Fixpoint strip_prefix {A} `{EqDecision A} (p l : list A) : option (list A) :=
  match p, l with
  | [], _ => Some l
  | x :: p', y :: l' => if bool_decide (x = y) then strip_prefix p' l' else None
  | _ :: _, [] => None
  end.
Definition strip_suffix {A} `{EqDecision A} (p l : list A) : option (list A) :=
  reverse <$> strip_prefix (reverse p) (reverse l).
Definition ends_with {A} `{EqDecision A} (p l : list A) : bool :=
  starts_with (reverse p) (reverse l).
Fixpoint split_on {A} (p : A → bool) (l : list A) : list (list A) :=
  match l with
  | [] => [[]]
  | x :: r => if p x then [] :: split_on p r
              else match split_on p r with
                   | [] => [[x]]
                   | c :: cs => (x :: c) :: cs
                   end
  end.

(** [Vec<String>::sort] and the iteration order of a [BTreeMap<String, _>]:
    byte-wise lexicographic order of the keys. *)
Definition sort_strings : list string → list string := merge_sort String.le.

Definition key_le {A} (p q : string * A) : Prop := String.le p.1 q.1.
#[export] Instance key_le_dec {A} : RelDecision (@key_le A).
Proof. intros p q. unfold key_le. apply _. Defined.
Definition btree_to_list {A} (m : gmap string A) : list (string * A) :=
  merge_sort key_le (map_to_list m).

(** ** Development tactics *)

(** Split every [match]/[if] the goal or a hypothesis is stuck on. *)
Ltac split_match :=
  repeat (case_match; simplify_eq/=; try done).

(** Turn the boolean integer tests of the hypotheses into propositions. *)
Ltac zhyps :=
  repeat match goal with
  | H : (_ <=? _)%Z = true |- _ => apply Z.leb_le in H
  | H : (_ <=? _)%Z = false |- _ => apply Z.leb_gt in H
  | H : (_ <? _)%Z = true |- _ => apply Z.ltb_lt in H
  | H : (_ <? _)%Z = false |- _ => apply Z.ltb_ge in H
  | H : (_ =? _)%Z = true |- _ => apply Z.eqb_eq in H
  | H : (_ =? _)%Z = false |- _ => apply Z.eqb_neq in H
  end.

(** The same, and case-split the tests of the goal. *)
Ltac zbool :=
  zhyps;
  repeat match goal with
  | |- context [(?a <=? ?b)%Z] => destruct (Z.leb_spec a b)
  | |- context [(?a <? ?b)%Z] => destruct (Z.ltb_spec a b)
  | |- context [(?a =? ?b)%Z] => destruct (Z.eqb_spec a b)
  end.

Create HintDb remuda.

(** ** Shared lemmas *)

(** Stepping through the state monad. *)
Lemma st_bind_eq {S E A B} (c : st S E A) (k : A → st S E B) s :
  (c ≫= k) s = match c s with (s', Ok a) => k a s' | (s', Err e) => (s', Err e) end.
Proof. done. Qed.

(** Invert one successful bind. *)
Lemma st_bind_ok {S E A B} (c : st S E A) (k : A → st S E B) s s' b :
  (c ≫= k) s = (s', Ok b) → ∃ s1 a, c s = (s1, Ok a) ∧ k a s1 = (s', Ok b).
Proof. rewrite st_bind_eq. destruct (c s) as [s1 [a|e]]; naive_solver. Qed.

Lemma st_ret_eq {S E A} (a : A) s : @mret (st S E) _ A a s = (s, Ok a).
Proof. done. Qed.

(** Run the binds of a hypothesis whose first computation is evaluated. *)
Ltac st_steps H := repeat (rewrite st_bind_eq in H; simpl in H); rewrite ?st_ret_eq in H.
(** The same in the goal. *)
Ltac st_run := repeat (rewrite st_bind_eq; simpl); rewrite ?st_ret_eq.

(** [preserves P c Q]: [c] keeps the invariant [P] on every path, errors
    included, and what it returns satisfies [Q]. *)
Definition preserves {S E A} (P : S → Prop) (c : st S E A) (Q : A → Prop) : Prop :=
  ∀ s, P s → P (c s).1 ∧ ∀ a, (c s).2 = Ok a → Q a.

Lemma preserves_ret {S E A} (P : S → Prop) (Q : A → Prop) a :
  Q a → preserves P (mret a : st S E A) Q.
Proof. intros HQ s HP. split; [done|]. by intros ? [= <-]. Qed.
Lemma preserves_fail {S E A} (P : S → Prop) (Q : A → Prop) (e : E) :
  preserves P (st_fail e : st S E A) Q.
Proof. intros s HP. by split. Qed.
Lemma preserves_bind {S E A B} (P : S → Prop) (c : st S E A) (k : A → st S E B) Q R :
  preserves P c Q → (∀ a, Q a → preserves P (k a) R) → preserves P (c ≫= k) R.
Proof.
  intros Hc Hk s HP. rewrite st_bind_eq. destruct (Hc s HP) as [H1 H2].
  destruct (c s) as [s1 [a|e]]; simpl in *; [by apply (Hk a); [apply H2|]|by split].
Qed.
Lemma preserves_weaken {S E A} (P : S → Prop) (c : st S E A) (Q R : A → Prop) :
  preserves P c Q → (∀ a, Q a → R a) → preserves P c R.
Proof. intros Hc HQR s HP. destruct (Hc s HP). split; [done|]. eauto. Qed.
#[export] Hint Resolve preserves_ret preserves_fail : remuda.

Lemma position_Some {A} (p : A → bool) l i :
  position p l = Some i →
  ∃ x, l !! i = Some x ∧ p x = true ∧ ∀ j y, j < i → l !! j = Some y → p y = false.
Proof.
  revert i. induction l as [|x l IH]; intros i H; simpl in *; [done|].
  destruct (p x) eqn:Hp; simplify_eq.
  - exists x. split_and!; [done..|]. intros; lia.
  - destruct (position p l) as [k|] eqn:Hk; simplify_eq/=.
    destruct (IH k eq_refl) as (y & Hy & Hpy & Hmin).
    exists y. split_and!; [done..|]. intros [|j] z Hj Hz; simplify_eq/=; [done|].
    apply (Hmin j); [lia|done].
Qed.

Lemma position_None {A} (p : A → bool) l :
  position p l = None ↔ ∀ x, x ∈ l → p x = false.
Proof.
  induction l as [|x l IH]; simpl.
  - split; [intros _ y Hy; by apply not_elem_of_nil in Hy|done].
  - destruct (p x) eqn:Hp.
    + split; [done|]. intros H. specialize (H x (list_elem_of_here _ _)). congruence.
    + rewrite fmap_None, IH. split.
      * intros H y [->|Hy]%elem_of_cons; [done|]. by apply H.
      * intros H y Hy. apply H. by apply list_elem_of_further.
Qed.

Lemma position_lt {A} (p : A → bool) l i : position p l = Some i → i < length l.
Proof.
  intros (x & Hx & _)%position_Some. by apply lookup_lt_Some in Hx.
Qed.

Lemma rposition_Some {A} (p : A → bool) l i :
  rposition p l = Some i →
  ∃ x, l !! i = Some x ∧ p x = true ∧ ∀ j y, i < j → l !! j = Some y → p y = false.
Proof.
  revert i. induction l as [|x l IH]; intros i H; simpl in *; [done|].
  destruct (rposition p l) as [k|] eqn:Hk; simplify_eq.
  - destruct (IH k eq_refl) as (y & Hy & Hpy & Hmax).
    exists y. split_and!; [done..|]. intros [|j] z Hj Hz; [lia|].
    apply (Hmax j); [lia|done].
  - destruct (p x) eqn:Hp; simplify_eq. exists x. split_and!; [done..|].
    assert (∀ y, y ∈ l → p y = false) as Hall.
    { clear IH Hp. induction l as [|z l IHl]; simpl in *; [by intros ? ?%not_elem_of_nil|].
      destruct (rposition p l) eqn:?; [done|]. destruct (p z) eqn:?; [done|].
      intros y [->|Hy]%elem_of_cons; [done|]. by apply IHl. }
    intros [|j] y Hj Hy; [lia|]. apply Hall. by eapply list_elem_of_lookup_2.
Qed.

Lemma rposition_None {A} (p : A → bool) l :
  rposition p l = None ↔ ∀ x, x ∈ l → p x = false.
Proof.
  induction l as [|x l IH]; simpl.
  - split; [intros _ y Hy; by apply not_elem_of_nil in Hy|done].
  - destruct (rposition p l) as [k|] eqn:Hk.
    + split; [done|]. intros H.
      apply rposition_Some in Hk as (y & Hy & Hp & _).
      rewrite (H y) in Hp; [done|]. apply list_elem_of_further.
      by eapply list_elem_of_lookup_2.
    + destruct IH as [IH _]. specialize (IH eq_refl).
      destruct (p x) eqn:Hp.
      * split; [done|]. intros H. specialize (H x (list_elem_of_here _ _)). congruence.
      * split; [|done]. intros _ y [->|Hy]%elem_of_cons; [done|]. by apply IH.
Qed.

Lemma starts_with_spec {A} `{EqDecision A} (p l : list A) :
  starts_with p l = true ↔ p `prefix_of` l.
Proof.
  revert l. induction p as [|x p IH]; intros l; simpl.
  - split; [intros _; by exists l|done].
  - destruct l as [|y l]; simpl.
    + split; [done|]. intros [k Hk]. done.
    + rewrite andb_true_iff, bool_decide_eq_true, IH. split.
      * intros [-> [k ->]]. by exists k.
      * intros [k Hk]. simplify_eq/=. split; [done|]. by exists k.
Qed.

Lemma strip_prefix_spec {A} `{EqDecision A} (p l r : list A) :
  strip_prefix p l = Some r ↔ l = p ++ r.
Proof.
  revert l. induction p as [|x p IH]; intros l; simpl.
  - split; congruence.
  - destruct l as [|y l]; simpl; [done|].
    case_bool_decide as Hd; subst.
    + rewrite IH. split; [by intros ->|]. intros ?; by simplify_eq.
    + split; [done|]. intros ?; by simplify_eq.
Qed.

Lemma strip_suffix_spec {A} `{EqDecision A} (p l r : list A) :
  strip_suffix p l = Some r ↔ l = r ++ p.
Proof.
  unfold strip_suffix. rewrite fmap_Some. split.
  - intros (q & Hq%strip_prefix_spec & ->).
    apply (f_equal reverse) in Hq. rewrite reverse_involutive in Hq.
    by rewrite Hq, reverse_app, reverse_involutive.
  - intros ->. exists (reverse r). rewrite reverse_involutive. split; [|done].
    apply strip_prefix_spec. by rewrite reverse_app.
Qed.

Lemma get_range_Some {A} i j (l s : list A) :
  get_range i j l = Some s ↔ i ≤ j ∧ j ≤ length l ∧ s = take (j - i) (drop i l).
Proof. unfold get_range. case_decide; naive_solver. Qed.

Lemma get_from_Some {A} i (l s : list A) :
  get_from i l = Some s ↔ i ≤ length l ∧ s = drop i l.
Proof. unfold get_from. case_decide; naive_solver. Qed.

Lemma elem_of_retain {A} (p : A → bool) (l : list A) x :
  x ∈ retain p l ↔ x ∈ l ∧ p x = true.
Proof. unfold retain. rewrite !list_elem_of_In. apply filter_In. Qed.

Lemma retain_app {A} (p : A → bool) (l k : list A) :
  retain p (l ++ k) = retain p l ++ retain p k.
Proof. apply List.filter_app. Qed.

(** [split] always yields at least one piece. *)
Lemma split_on_nonempty {A} (p : A → bool) (l : list A) : split_on p l ≠ [].
Proof.
  induction l as [|x l IH]; simpl; [done|]. destruct (p x); [done|]. by destruct (split_on p l).
Qed.

Lemma elem_of_sort_strings x l : x ∈ sort_strings l ↔ x ∈ l.
Proof. unfold sort_strings. by rewrite merge_sort_Permutation. Qed.

Lemma elem_of_btree {A} (m : gmap string A) k x : (k, x) ∈ btree_to_list m ↔ m !! k = Some x.
Proof. unfold btree_to_list. rewrite merge_sort_Permutation. apply elem_of_map_to_list. Qed.

Lemma NoDup_btree_keys {A} (m : gmap string A) : NoDup (btree_to_list m).*1.
Proof. unfold btree_to_list. rewrite merge_sort_Permutation. apply NoDup_fst_map_to_list. Qed.

(** Saturating increments stay in range and never go down. *)
Lemma saturating_succ_ge z : is_u64 z → (z ≤ saturating_add64 z 1)%Z.
Proof. unfold is_u64, saturating_add64. lia. Qed.
Lemma saturating_succ_u64 z : is_u64 z → is_u64 (saturating_add64 z 1).
Proof. unfold is_u64, saturating_add64. lia. Qed.
#[export] Hint Resolve saturating_succ_ge saturating_succ_u64 : remuda.
