(* ===== verification/Json.v ===== *)
(** * JSON values as the Node reads them

    [serde_json::Value] is a third-party type: the code only reads it through
    a few accessors.  [Json] is that interface; everything that reads a wire
    value is parametric in it.  [Value] is one concrete instance, used by the
    witnesses. *)
From stdpp Require Import base list strings numbers.
From S2P Require Import Prelude.

(** The accessors the modelled code calls: [Value::get], [Value::as_str],
    [Value::as_u64], [Value::is_object] and the constant [Value::Null]. *)
Class Json (V : Type) : Type := {
  json_get : V → string → option V;
  json_str : V → option string;
  json_u64 : V → option Z;
  json_is_object : V → bool;
  json_null : V;
}.

(** [serde_json]'s values, restricted to integers. *)
Inductive Value : Type :=
| VNull
| VBool (b : bool)
| VNumber (n : Z)
| VString (s : string)
| VArray (l : list Value)
| VObject (fields : list (string * Value)).

Fixpoint assoc {A} (k : string) (l : list (string * A)) : option A :=
  match l with
  | [] => None
  | (k', v) :: l' => if decide (k' = k) then Some v else assoc k l'
  end.

#[export] Instance Value_json : Json Value := {
  json_get v k := match v with VObject l => assoc k l | _ => None end;
  json_str v := match v with VString s => Some s | _ => None end;
  json_u64 v := match v with
                | VNumber n => if (0 <=? n)%Z && (n <=? u64_max)%Z then Some n else None
                | _ => None
                end;
  json_is_object v := match v with VObject _ => true | _ => false end;
  json_null := VNull;
}.

#[export] Instance Value_eq_dec : EqDecision Value.
Proof.
  refine (fix go (a b : Value) : Decision (a = b) :=
    match a, b with
    | VNull, VNull => left eq_refl
    | VBool x, VBool y => cast_if (decide (x = y))
    | VNumber x, VNumber y => cast_if (decide (x = y))
    | VString x, VString y => cast_if (decide (x = y))
    | VArray x, VArray y => cast_if (@list_eq_dec Value go x y)
    | VObject x, VObject y => cast_if (@list_eq_dec (string * Value) (@prod_eq_dec string _ Value go) x y)
    | _, _ => right _
    end); abstract congruence.
Defined.
