(* ===== verification/Text.v ===== *)
(** * Text

    A Rust [String] whose characters the code inspects is a list of Unicode
    scalar values.  This file has the [str] methods the modelled code uses. *)
From stdpp Require Import base list strings numbers.
From S2P Require Import Prelude.
Local Open Scope Z_scope.

Abbreviation text := (list Z) (only parsing).

(** An ASCII literal. *)
Fixpoint lit (s : string) : text :=
  match s with
  | EmptyString => []
  | String c r => Z.of_nat (Ascii.nat_of_ascii c) :: lit r
  end.

(** [char::is_whitespace]: the Unicode property White_Space. *)
Definition is_whitespace (c : Z) : bool :=
  ((9 <=? c) && (c <=? 13)) || (c =? 32) || (c =? 133) || (c =? 160) || (c =? 5760) ||
  ((8192 <=? c) && (c <=? 8202)) || (c =? 8232) || (c =? 8233) || (c =? 8239) || (c =? 8287) ||
  (c =? 12288).

(** [str::trim_start], [str::trim]. *)
Fixpoint trim_start (t : text) : text :=
  match t with
  | [] => []
  | c :: r => if is_whitespace c then trim_start r else t
  end.
Definition trim_end (t : text) : text := reverse (trim_start (reverse t)).
Definition trim (t : text) : text := trim_end (trim_start t).

(** [str::split_whitespace]. *)
Definition split_whitespace (t : text) : list text :=
  List.filter (λ w, negb (bool_decide (w = []))) (split_on is_whitespace t).

(** [slice::join]. *)
Fixpoint join (sep : text) (l : list text) : text :=
  match l with
  | [] => []
  | [w] => w
  | w :: r => w ++ sep ++ join sep r
  end.

(** [str::find]: the index of the first occurrence of [p]. *)
Fixpoint find_sub (p t : text) : option nat :=
  if starts_with p t then Some 0%nat
  else match t with
       | [] => None
       | _ :: r => S <$> find_sub p r
       end.

(** ** Whitespace normalisation *)

(** The words of a text have no whitespace and are not empty. *)
Definition is_word (w : text) : Prop := w ≠ [] ∧ Forall (λ c, is_whitespace c = false) w.

Lemma split_on_pieces {A} (p : A → bool) (l : list A) :
  Forall (Forall (λ c, p c = false)) (split_on p l).
Proof.
  induction l as [|x l IH]; simpl; [by repeat constructor|]. destruct (p x) eqn:Hp.
  - by constructor.
  - destruct (split_on p l) as [|c cs]; [by repeat constructor|].
    apply Forall_cons_1 in IH as [Hc Hcs]. by repeat constructor.
Qed.

Lemma split_whitespace_words t : Forall is_word (split_whitespace t).
Proof.
  unfold split_whitespace. apply list.Forall_forall. intros w Hw%list_elem_of_In.
  apply filter_In in Hw as [Hin Hne]. apply list_elem_of_In in Hin.
  pose proof (split_on_pieces is_whitespace t) as Hp. rewrite list.Forall_forall in Hp.
  split; [|by apply Hp]. by apply negb_true_iff, bool_decide_eq_false in Hne.
Qed.

Lemma split_on_word_app {A} (p : A → bool) (w l : list A) x :
  Forall (λ c, p c = false) w → p x = true → split_on p (w ++ x :: l) = w :: split_on p l.
Proof.
  intros Hw Hx. induction Hw as [|c w Hc _ IH]; simpl; [by rewrite Hx|]. by rewrite Hc, IH.
Qed.
Lemma split_on_word {A} (p : A → bool) (w : list A) :
  Forall (λ c, p c = false) w → split_on p w = [w].
Proof. induction 1 as [|c w Hc _ IH]; simpl; [done|]. by rewrite Hc, IH. Qed.

Lemma split_whitespace_cons_space c t :
  is_whitespace c = true → split_whitespace (c :: t) = split_whitespace t.
Proof. intros Hc. unfold split_whitespace. simpl. by rewrite Hc. Qed.

Lemma split_whitespace_join ws :
  Forall is_word ws → split_whitespace (join [32] ws) = ws.
Proof.
  unfold split_whitespace. induction 1 as [|w ws [Hne Hw] Hws IH]; [done|].
  destruct ws as [|w' ws].
  - simpl. rewrite split_on_word by done. simpl. by rewrite bool_decide_false.
  - change (join [32] (w :: w' :: ws)) with (w ++ 32 :: join [32] (w' :: ws)).
    rewrite split_on_word_app by done. cbn [List.filter]. rewrite bool_decide_false by done.
    cbn [negb]. by rewrite IH.
Qed.

Lemma split_whitespace_snoc_space c t :
  is_whitespace c = true → split_whitespace (t ++ [c]) = split_whitespace t.
Proof.
  intros Hc. unfold split_whitespace.
  assert (split_on is_whitespace (t ++ [c]) = split_on is_whitespace t ++ [[]]) as ->.
  { induction t as [|x t IH]; simpl; [by rewrite Hc|]. rewrite IH.
    destruct (is_whitespace x); [done|].
    pose proof (split_on_nonempty is_whitespace t). by destruct (split_on is_whitespace t). }
  rewrite List.filter_app. simpl. by rewrite app_nil_r.
Qed.

(** ** Byte strings

    A [String] the code only compares, lower-cases or searches is a [string],
    the list of its UTF-8 bytes. *)

Definition ascii_lower (c : Ascii.ascii) : Ascii.ascii :=
  let n := Ascii.nat_of_ascii c in
  if (65 <=? n)%nat && (n <=? 90)%nat then Ascii.ascii_of_nat (n + 32) else c.

(** [str::to_ascii_lowercase]. *)
Fixpoint to_ascii_lowercase (s : string) : string :=
  match s with
  | EmptyString => EmptyString
  | String c r => String (ascii_lower c) (to_ascii_lowercase r)
  end.

(** [str::contains]. *)
Fixpoint str_contains (p s : string) : bool :=
  String.prefix p s ||
  match s with
  | EmptyString => false
  | String _ r => str_contains p r
  end.
