(* ===== verification/HeldInput.v ===== *)
(** * Held prompts of the Node: [remuda-node/src/held_input.rs]

    A PTY carrier keeps an accepted [instance.send] in its queue while the
    instance is busy.  The registry modelled here is the single point where
    the Hub's [command.withdraw] and [command.edit] meet the queue's delivery
    claim.  Every method of [HeldInputs] takes the registry mutex for its whole
    body, so one method is one atomic step and an execution is a list of steps
    ([run]).  The theorems say that a withdrawal and a delivery have exactly
    one winner under every interleaving, that an edit is a compare-and-swap on
    the revision, and that an accepted edit is what the queue is handed. *)
From stdpp Require Import base list gmap strings numbers.
From S2P Require Import Prelude Json Text.
Local Open Scope remuda_scope.

Abbreviation CommandId := string (only parsing).

(** [enum State]. *)
Inductive HeldState : Type :=
| Waiting
| Withdrawn
| Delivering.

#[export] Instance HeldState_eq_dec : EqDecision HeldState.
Proof. solve_decision. Defined.

(** [struct Held]. *)
Record Held : Type := mkHeld {
  held_state : HeldState;
  held_revision : option Z;
  held_text : option text;
}.

#[export] Instance Held_eq_dec : EqDecision Held.
Proof. solve_decision. Defined.

(** [enum Claim]. *)
Inductive HeldClaim : Type :=
| ClaimDeliver (t : option text)
| ClaimWithdrawn.

(** [enum Change]. *)
Inductive HeldChange : Type :=
| ChangeWithdrawn
| ChangeEdited (t : text).

(** [struct HeldInputs]: the map behind the mutex. *)
Abbreviation HeldInputs := (gmap CommandId Held) (only parsing).

(** [HeldInputs::hold]. *)
Definition hold (c : CommandId) (m : HeldInputs) : HeldInputs :=
  <[c := mkHeld Waiting None None]> m.

(** [HeldInputs::claim]: the delivery claim, right before the driver write. *)
Definition claim (c : CommandId) (m : HeldInputs) : HeldInputs * HeldClaim :=
  match m !! c with
  | Some e =>
      if decide (held_state e = Withdrawn) then (delete c m, ClaimWithdrawn)
      else (<[c := mkHeld Delivering (held_revision e) None]> m,
            ClaimDeliver (held_text e))
  | None => (m, ClaimDeliver None)
  end.

(** [HeldInputs::unclaim]: the claimed write did not happen. *)
Definition unclaim (c : CommandId) (m : HeldInputs) : HeldInputs :=
  match m !! c with
  | Some e =>
      if decide (held_state e = Delivering)
      then <[c := mkHeld Waiting (held_revision e) (held_text e)]> m else m
  | None => m
  end.

(** [HeldInputs::release]. *)
Definition release (c : CommandId) (m : HeldInputs) : HeldInputs := delete c m.

(** [HeldInputs::change]: what the queue's tick applies to a waiting prompt. *)
Definition change (c : CommandId) (m : HeldInputs) : HeldInputs * option HeldChange :=
  match m !! c with
  | None => (m, None)
  | Some e =>
      match held_state e with
      | Withdrawn => (delete c m, Some ChangeWithdrawn)
      | Waiting =>
          (<[c := mkHeld Waiting (held_revision e) None]> m,
           ChangeEdited <$> held_text e)
      | Delivering => (m, None)
      end
  end.

(** [HeldInputs::withdraw]: [command.withdraw]. *)
Definition withdraw (c : CommandId) (m : HeldInputs) : HeldInputs * string :=
  match m !! c with
  | Some e =>
      if decide (held_state e = Waiting)
      then (<[c := mkHeld Withdrawn (held_revision e) (held_text e)]> m, "withdrawn"%string)
      else if decide (held_state e = Withdrawn) then (m, "withdrawn"%string)
      else (m, "already-delivered"%string)
  | None => (m, "already-delivered"%string)
  end.

(** [HeldInputs::edit]: [command.edit].  [expected + 1] is a [u64] addition,
    which wraps in a release build. *)
Definition edit (c : CommandId) (expected : Z) (t : text) (m : HeldInputs)
    : HeldInputs * (string * Z) :=
  match m !! c with
  | None => (m, ("already-delivered"%string, expected))
  | Some e =>
      if decide (held_state e = Waiting) then
        let current := default expected (held_revision e) in
        if (current =? expected)%Z then
          (<[c := mkHeld Waiting (Some (wrap64 (expected + 1))) (Some t)]> m,
           ("edited"%string, wrap64 (expected + 1)))
        else (m, ("revision-conflict"%string, current))
      else (m, ("already-delivered"%string, default expected (held_revision e)))
  end.

(** ** Executions *)

Inductive op : Type :=
| OpHold (c : CommandId)
| OpClaim (c : CommandId)
| OpUnclaim (c : CommandId)
| OpRelease (c : CommandId)
| OpChange (c : CommandId)
| OpWithdraw (c : CommandId)
| OpEdit (c : CommandId) (expected : Z) (t : text).

Inductive reply : Type :=
| RUnit
| RClaim (r : HeldClaim)
| RChange (r : option HeldChange)
| RWithdraw (r : string)
| REdit (r : string * Z).

Definition step (o : op) (m : HeldInputs) : HeldInputs * reply :=
  match o with
  | OpHold c => (hold c m, RUnit)
  | OpClaim c => let '(m', r) := claim c m in (m', RClaim r)
  | OpUnclaim c => (unclaim c m, RUnit)
  | OpRelease c => (release c m, RUnit)
  | OpChange c => let '(m', r) := change c m in (m', RChange r)
  | OpWithdraw c => let '(m', r) := withdraw c m in (m', RWithdraw r)
  | OpEdit c e t => let '(m', r) := edit c e t m in (m', REdit r)
  end.

Definition run (os : list op) (m : HeldInputs) : HeldInputs :=
  foldl (λ m o, (step o m).1) m os.

(** The command an operation is about. *)
Definition op_target (o : op) : CommandId :=
  match o with
  | OpHold c | OpClaim c | OpUnclaim c | OpRelease c | OpChange c
  | OpWithdraw c | OpEdit c _ _ => c
  end.

(** Operations the Hub issues: withdrawals and edits. *)
Definition is_hub_op (o : op) : bool :=
  match o with OpWithdraw _ | OpEdit _ _ _ => true | _ => false end.

(** [o] leaves [c] to the Hub: it is about another command, or it is a
    withdrawal or an edit. *)
Definition hub_only (c : CommandId) (o : op) : Prop :=
  op_target o ≠ c ∨ is_hub_op o = true.

(** Replies to the withdrawals of [c] in an execution, in order. *)
Fixpoint withdraw_replies (c : CommandId) (os : list op) (m : HeldInputs) : list string :=
  match os with
  | [] => []
  | o :: os' =>
      (match o with
       | OpWithdraw c' => if decide (c' = c) then [(withdraw c m).2] else []
       | _ => []
       end) ++ withdraw_replies c os' (step o m).1
  end.

(** Text of the last accepted edit of [c] in an execution, if there was one. *)
Fixpoint last_edit (c : CommandId) (os : list op) (m : HeldInputs) (acc : option text)
    : option text :=
  match os with
  | [] => acc
  | o :: os' =>
      last_edit c os' (step o m).1
        (match o with
         | OpEdit c' x t =>
             if decide (c' = c ∧ (edit c x t m).2.1 = "edited"%string) then Some t else acc
         | _ => acc
         end)
  end.

(** Number of accepted edits of [c] in an execution. *)
Fixpoint accepted_edits (c : CommandId) (os : list op) (m : HeldInputs) : nat :=
  match os with
  | [] => 0
  | o :: os' =>
      (match o with
       | OpEdit c' x t =>
           if decide (c' = c ∧ (edit c x t m).2.1 = "edited"%string) then 1 else 0
       | _ => 0
       end) + accepted_edits c os' (step o m).1
  end.

(** ** Lemmas *)

(** Frame: a step of one command leaves every other entry alone. *)
Lemma step_other o m c : op_target o ≠ c → (step o m).1 !! c = m !! c.
Proof.
  intros Hne. destruct o; simpl in *;
    unfold hold, claim, unclaim, release, change, withdraw, edit;
    repeat case_match; simplify_eq/=;
    rewrite ?lookup_insert_ne, ?lookup_delete_ne by done; done.
Qed.

(** A Hub-only execution leaves a withdrawn entry exactly as it is, and
    accepts no edit of it. *)
Lemma run_hub_only_withdrawn c os m e acc :
  Forall (hub_only c) os → m !! c = Some e → held_state e = Withdrawn →
  run os m !! c = Some e ∧ last_edit c os m acc = acc.
Proof.
  revert m e. induction os as [|o os IH]; intros m e Hall Hm Hs; simpl; [done|].
  apply Forall_cons_1 in Hall as [Ho Hall].
  assert ((step o m).1 !! c = Some e) as Hm'.
  { destruct (decide (op_target o = c)) as [<-|?]; [|by rewrite step_other].
    destruct Ho as [?|Ho]; [done|].
    destruct o; simpl in *; try done; unfold withdraw, edit; by rewrite Hm, Hs. }
  destruct (IH _ _ Hall Hm' Hs) as [Hr Hl]. split; [done|].
  destruct o; try done. rewrite decide_False; [done|].
  intros [-> Hed]. revert Hed. unfold edit. by rewrite Hm, Hs.
Qed.

(** A Hub-only execution keeps a claimed entry claimed, with nothing pending. *)
Lemma run_hub_only_delivering c os m e :
  Forall (hub_only c) os → m !! c = Some e → held_state e = Delivering →
  run os m !! c = Some e.
Proof.
  revert m. induction os as [|o os IH]; intros m Hall Hm Hs; simpl; [done|].
  apply Forall_cons_1 in Hall as [Ho Hall].
  apply IH; [done| |done].
  destruct (decide (op_target o = c)) as [<-|Hne]; [|by rewrite step_other].
  destruct Ho as [?|Ho]; [done|].
  destruct o; simpl in *; try done; unfold withdraw, edit; rewrite Hm, Hs; done.
Qed.

(** The withdrawal and edit steps of a waiting entry, as equations. *)
Lemma withdraw_waiting c m e :
  m !! c = Some e → held_state e = Waiting →
  withdraw c m = (<[c := mkHeld Withdrawn (held_revision e) (held_text e)]> m, "withdrawn"%string).
Proof. intros Hm Hs. unfold withdraw. rewrite Hm. by case_decide. Qed.

Lemma withdraw_settled c m :
  (m !! c = None ∨ ∃ e, m !! c = Some e ∧ held_state e = Delivering) →
  withdraw c m = (m, "already-delivered"%string).
Proof.
  intros [Hm|(e & Hm & Hs)]; unfold withdraw; rewrite Hm; [done|]. by rewrite Hs.
Qed.

Lemma edit_accepted_iff c x t m e :
  m !! c = Some e → held_state e = Waiting →
  (edit c x t m).2.1 = "edited"%string ↔ default x (held_revision e) = x.
Proof.
  intros Hm Hs. unfold edit. rewrite Hm. case_decide; [|done].
  destruct (Z.eqb_spec (default x (held_revision e)) x); simpl; naive_solver.
Qed.

Lemma edit_accepted c x t m e :
  m !! c = Some e → held_state e = Waiting → default x (held_revision e) = x →
  edit c x t m =
    (<[c := mkHeld Waiting (Some (wrap64 (x + 1))) (Some t)]> m,
     ("edited"%string, wrap64 (x + 1))).
Proof.
  intros Hm Hs Hx. unfold edit. rewrite Hm. case_decide; [|done]. by rewrite Hx, Z.eqb_refl.
Qed.

Lemma edit_refused c x t m :
  (edit c x t m).2.1 ≠ "edited"%string → (edit c x t m).1 = m.
Proof. unfold edit. repeat case_match; naive_solver. Qed.

(** Once delivered or gone, no withdrawal succeeds. *)
Lemma withdraw_replies_settled c os m :
  Forall (hub_only c) os →
  (m !! c = None ∨ ∃ e, m !! c = Some e ∧ held_state e = Delivering) →
  "withdrawn"%string ∉ withdraw_replies c os m.
Proof.
  revert m. induction os as [|o os IH]; intros m Hall Hm; simpl; [by apply not_elem_of_nil|].
  apply Forall_cons_1 in Hall as [Ho Hall].
  assert ((step o m).1 !! c = None ∨
          ∃ e, (step o m).1 !! c = Some e ∧ held_state e = Delivering) as Hm'.
  { destruct (decide (op_target o = c)) as [<-|Hne]; [|by rewrite step_other].
    destruct Ho as [?|Ho]; [done|]. destruct o; simpl in *; try done.
    - by rewrite withdraw_settled.
    - unfold edit. destruct Hm as [Hm|(e & Hm & Hs)]; rewrite Hm; [by left|].
      right. rewrite Hs. eauto. }
  apply not_elem_of_app; split; [|by apply IH].
  destruct o; try by apply not_elem_of_nil.
  case_decide; subst; [|by apply not_elem_of_nil].
  rewrite withdraw_settled by done. set_solver.
Qed.

(** Before delivery, the entry ends up withdrawn exactly when a withdrawal was
    answered [withdrawn]. *)
Lemma withdraw_replies_waiting c os m e :
  Forall (hub_only c) os → m !! c = Some e → held_state e = Waiting →
  ∃ e', run os m !! c = Some e' ∧ held_state e' ≠ Delivering ∧
    (held_state e' = Withdrawn ↔ "withdrawn"%string ∈ withdraw_replies c os m).
Proof.
  revert m e. induction os as [|o os IH]; intros m e Hall Hm Hs; simpl.
  { exists e. rewrite Hs. set_solver. }
  apply Forall_cons_1 in Hall as [Ho Hall].
  destruct (decide (op_target o = c)) as [<-|Hne]; last first.
  { destruct (IH (step o m).1 e) as (e' & ? & ? & Hiff); [done|by rewrite step_other|done|].
    exists e'. split_and!; [done..|]. rewrite Hiff.
    destruct o; simpl in *; rewrite ?decide_False by done; set_solver. }
  destruct Ho as [?|Ho]; [done|]. destruct o as [| | | | |c|c x t]; simpl in *; try done.
  - rewrite decide_True by done. erewrite withdraw_waiting by done. simpl.
    destruct (run_hub_only_withdrawn c os
      (<[c:=mkHeld Withdrawn (held_revision e) (held_text e)]> m)
      (mkHeld Withdrawn (held_revision e) (held_text e)) None) as [He' _];
      [done|by rewrite lookup_insert_eq|done|].
    eexists. split; [exact He'|]. set_solver.
  - destruct (decide ((edit c x t m).2.1 = "edited"%string)) as [Hacc|Hacc].
    + pose proof Hacc as Hx. apply (edit_accepted_iff _ _ _ _ _ Hm Hs) in Hx.
      rewrite (edit_accepted c x t m e) by done. simpl.
      eapply IH; [done|by rewrite lookup_insert_eq|done].
    + apply edit_refused in Hacc. destruct (edit c x t m) as [m' r]; simpl in *. subst m'.
      by eapply IH.
Qed.

(** An accepted edit survives, as the pending text, every later Hub step that
    is not itself an accepted edit. *)
Lemma run_hub_only_text c os m e :
  Forall (hub_only c) os → m !! c = Some e → held_state e = Waiting →
  ∃ e', run os m !! c = Some e' ∧ held_text e' = last_edit c os m (held_text e).
Proof.
  revert m e. induction os as [|o os IH]; intros m e Hall Hm Hs; simpl; [eauto|].
  apply Forall_cons_1 in Hall as [Ho Hall].
  destruct (decide (op_target o = c)) as [<-|Hne]; last first.
  { destruct (IH (step o m).1 e) as (e' & ? & Ht); [done|by rewrite step_other|done|].
    exists e'. split; [done|]. rewrite Ht.
    destruct o; simpl in *; try done. rewrite decide_False by naive_solver. done. }
  destruct Ho as [?|Ho]; [done|]. destruct o as [| | | | |c|c x t]; simpl in *; try done.
  - (* a withdrawal: no later edit is accepted *)
    erewrite withdraw_waiting by done. simpl.
    set (m' := <[c:=mkHeld Withdrawn (held_revision e) (held_text e)]> m).
    destruct (run_hub_only_withdrawn c os m'
      (mkHeld Withdrawn (held_revision e) (held_text e)) (held_text e)) as [Hr Hl]; [done|by apply lookup_insert_eq|done|].
    eexists. split; [exact Hr|]. by rewrite Hl.
  - destruct (decide ((edit c x t m).2.1 = "edited"%string)) as [Hacc|Hacc].
    + rewrite decide_True by done.
      pose proof Hacc as Hx. apply (edit_accepted_iff _ _ _ _ _ Hm Hs) in Hx.
      rewrite (edit_accepted c x t m e) by done. simpl.
      eapply (IH _ (mkHeld Waiting (Some (wrap64 (x + 1))) (Some t)));
        [done|by rewrite lookup_insert_eq|done].
    + rewrite decide_False by naive_solver. apply edit_refused in Hacc.
      destruct (edit c x t m) as [m' r]; simpl in *. subst m'. by eapply IH.
Qed.

(** Number of accepted edits and the revision: without wrap-around the
    revision of a waiting entry counts them. *)
Lemma run_hub_only_revision c os m e r :
  Forall (hub_only c) os → m !! c = Some e → held_state e ≠ Delivering →
  held_revision e = Some r → (0 ≤ r)%Z → (r + Z.of_nat (length os) ≤ u64_max)%Z →
  ∃ e', run os m !! c = Some e' ∧ held_state e' ≠ Delivering ∧
    held_revision e' = Some (r + Z.of_nat (accepted_edits c os m))%Z.
Proof.
  revert m e r. induction os as [|o os IH]; intros m e r Hall Hm Hs Hr H0 Hmax; simpl.
  { exists e. by rewrite Z.add_0_r. }
  apply Forall_cons_1 in Hall as [Ho Hall]. simpl in Hmax.
  destruct (decide (op_target o = c)) as [<-|Hne]; last first.
  { destruct (IH (step o m).1 e r) as (e' & ? & ? & Hr');
      [done|by rewrite step_other|done|done|done|lia|].
    exists e'. split_and!; [done..|]. rewrite Hr'. f_equal.
    destruct o; simpl in *; try lia. rewrite decide_False by naive_solver. lia. }
  destruct Ho as [?|Ho]; [done|]. destruct o as [| | | | |c|c x t]; simpl in *; try done.
  - destruct (decide (held_state e = Waiting)) as [Hw|Hw].
    + erewrite withdraw_waiting by done. simpl.
      eapply (IH _ (mkHeld Withdrawn (held_revision e) (held_text e)));
        [done|by rewrite lookup_insert_eq|done|done|done|lia].
    + assert ((withdraw c m).1 = m) as Heq.
      { unfold withdraw. rewrite Hm. rewrite decide_False by done. by case_decide. }
      destruct (withdraw c m); simpl in *; subst. by eapply (IH _ e); [..|lia].
  - destruct (decide ((edit c x t m).2.1 = "edited"%string)) as [Hacc|Hacc].
    + assert (held_state e = Waiting) as Hw.
      { revert Hacc. unfold edit. rewrite Hm. by case_decide. }
      rewrite decide_True by done.
      pose proof Hacc as Hx. apply (edit_accepted_iff _ _ _ _ _ Hm Hw) in Hx.
      rewrite (edit_accepted c x t m e) by done. simpl.
      rewrite Hr in Hx. simpl in Hx. subst x.
      assert (wrap64 (r + 1) = r + 1)%Z as Hwrap.
      { unfold wrap64, u64_max in *. rewrite Z.mod_small; lia. }
      destruct (IH (<[c := mkHeld Waiting (Some (wrap64 (r + 1))) (Some t)]> m)
        (mkHeld Waiting (Some (wrap64 (r + 1))) (Some t)) (r + 1)%Z)
        as (e' & ? & ? & Hr'); [done|by rewrite lookup_insert_eq|done| |lia|lia|].
      { simpl. by rewrite Hwrap. }
      exists e'. split_and!; [done..|]. rewrite Hr'. f_equal. lia.
    + rewrite decide_False by naive_solver. apply edit_refused in Hacc.
      destruct (edit c x t m) as [m' q]; simpl in *. subst m'.
      by eapply (IH _ e); [..|lia].
Qed.

(** The claim of an entry that is not withdrawn hands over its pending text. *)
Lemma claim_present c m e :
  m !! c = Some e →
  (claim c m).2 = (if decide (held_state e = Withdrawn) then ClaimWithdrawn
                   else ClaimDeliver (held_text e)).
Proof. intros Hm. unfold claim. rewrite Hm. by case_decide. Qed.

(** After a claim the entry is gone or past editing. *)
Lemma claim_settles c m :
  is_Some (m !! c) →
  (claim c m).1 !! c = None ∨
  ∃ e, (claim c m).1 !! c = Some e ∧ held_state e = Delivering.
Proof.
  intros [e Hm]. unfold claim. rewrite Hm. case_decide; simpl.
  - left. apply lookup_delete_eq.
  - right. eexists. split; [apply lookup_insert_eq|done].
Qed.

(** ** Properties *)

(**  First-wins: take a held prompt that is still waiting and any
    execution in which its delivery claim happens once, with any number of
    withdrawals and edits of it (and anything about other prompts) before and
    after.  The claim hands the prompt to the driver write if and only if no
    withdrawal in the whole execution was answered [withdrawn]. *)
Theorem withdraw_and_claim_have_one_winner c m e os1 os2 :
  m !! c = Some e → held_state e = Waiting →
  Forall (hub_only c) os1 → Forall (hub_only c) os2 →
  (∃ text, (claim c (run os1 m)).2 = ClaimDeliver text) ↔
  "withdrawn"%string ∉ withdraw_replies c (os1 ++ OpClaim c :: os2) m.
Proof.
  intros Hm Hs H1 H2.
  destruct (withdraw_replies_waiting c os1 m e H1 Hm Hs) as (e' & He' & _ & Hiff).
  assert (withdraw_replies c (os1 ++ OpClaim c :: os2) m =
          withdraw_replies c os1 m ++ withdraw_replies c os2 (claim c (run os1 m)).1) as ->.
  { clear. revert m. induction os1 as [|o os IH]; intros m; simpl.
    - by destruct (claim c m).
    - by rewrite IH, app_assoc. }
  rewrite not_elem_of_app, (claim_present _ _ _ He').
  assert ("withdrawn"%string ∉ withdraw_replies c os2 (claim c (run os1 m)).1) as Hlate.
  { apply withdraw_replies_settled; [done|]. apply claim_settles. by rewrite He'. }
  destruct (decide (held_state e' = Withdrawn)); naive_solver.
Qed.

(** No lost update: after an edit at revision [x] was accepted, no
    second edit at the same expected revision is accepted, whatever Hub steps
    lie between them (the revision cannot wrap within the [u64] range). *)
Theorem edit_is_compare_and_swap c m e x t t' os :
  m !! c = Some e → (0 ≤ x)%Z → (x + 1 + Z.of_nat (length os) ≤ u64_max)%Z →
  (edit c x t m).2.1 = "edited"%string → Forall (hub_only c) os →
  (edit c x t' (run os (edit c x t m).1)).2.1 ≠ "edited"%string.
Proof.
  intros Hm H0 Hmax Hed Hall Hed'.
  assert (held_state e = Waiting) as Hw.
  { revert Hed. unfold edit. rewrite Hm. by case_decide. }
  pose proof Hed as Hx. apply (edit_accepted_iff _ _ _ _ _ Hm Hw) in Hx.
  rewrite (edit_accepted c x t m e) in Hed' by done. simpl in Hed'.
  assert (wrap64 (x + 1) = x + 1)%Z as Hwrap.
  { unfold wrap64, u64_max in *. rewrite Z.mod_small; lia. }
  rewrite Hwrap in Hed'.
  set (m' := <[c := mkHeld Waiting (Some (x + 1)%Z) (Some t)]> m) in *.
  destruct (run_hub_only_revision c os m' (mkHeld Waiting (Some (x + 1)%Z) (Some t)) (x + 1))
    as (e' & He' & _ & Hr); [done|by apply lookup_insert_eq|done|done|lia|lia|].
  assert (held_state e' = Waiting) as Hw'.
  { revert Hed'. unfold edit. rewrite He'. by case_decide. }
  apply (edit_accepted_iff _ _ _ _ _ He' Hw') in Hed'. rewrite Hr in Hed'. simpl in Hed'. lia.
Qed.

(**  An accepted edit is what is delivered: when the claim of a waiting
    prompt wins, it hands over the text of the last accepted edit (or, with
    none, the text that was already pending). *)
Theorem claim_hands_over_last_edit c m e os text :
  m !! c = Some e → held_state e = Waiting → Forall (hub_only c) os →
  (claim c (run os m)).2 = ClaimDeliver text →
  text = last_edit c os m (held_text e).
Proof.
  intros Hm Hs Hall Hc.
  destruct (run_hub_only_text c os m e Hall Hm Hs) as (e' & He' & Ht).
  rewrite (claim_present _ _ _ He') in Hc. case_decide; [done|]. naive_solver.
Qed.

(**  A delivery that did not happen gives the prompt back: after a claim
    and its [unclaim], the prompt is withdrawable and editable again at the
    revision it had. *)
Theorem unclaim_restores_waiting c m e text :
  m !! c = Some e → (claim c m).2 = ClaimDeliver text →
  let m' := unclaim c (claim c m).1 in
  (withdraw c m').2 = "withdrawn"%string ∧
  ∀ x t, (edit c x t m').2.1 = "edited"%string ↔ default x (held_revision e) = x.
Proof.
  intros Hm Hc m'.
  assert (m' !! c = Some (mkHeld Waiting (held_revision e) None)) as Hm'.
  { rewrite (claim_present _ _ _ Hm) in Hc. case_decide; [done|].
    unfold m', unclaim, claim. rewrite Hm, decide_False by done. simpl.
    rewrite lookup_insert_eq. simpl. by rewrite lookup_insert_eq. }
  split; [by erewrite withdraw_waiting|].
  intros x t. by apply (edit_accepted_iff _ _ _ _ _ Hm').
Qed.

(** ** Witnesses *)

(** One prompt held, one edit before the claim, one withdrawal after it. *)
Definition demo_held : HeldInputs := hold "cmd_1" ∅.

Lemma one_winner_witness :
  (∃ text, (claim "cmd_1" (run [OpEdit "cmd_1" 4 (lit "b")] demo_held)).2 = ClaimDeliver text) ↔
  "withdrawn"%string ∉
    withdraw_replies "cmd_1" ([OpEdit "cmd_1" 4 (lit "b")] ++ OpClaim "cmd_1" :: [OpWithdraw "cmd_1"])
      demo_held.
Proof.
  apply (withdraw_and_claim_have_one_winner "cmd_1" demo_held (mkHeld Waiting None None)).
  - reflexivity.
  - reflexivity.
  - constructor; [right; reflexivity|constructor].
  - constructor; [right; reflexivity|constructor].
Defined.

Lemma edit_cas_witness :
  (edit "cmd_1" 4 (lit "c") (run [OpEdit "cmd_1" 5 (lit "d")] (edit "cmd_1" 4 (lit "b") demo_held).1)).2.1
    ≠ "edited"%string.
Proof.
  apply (edit_is_compare_and_swap "cmd_1" demo_held (mkHeld Waiting None None) 4 (lit "b") (lit "c")
           [OpEdit "cmd_1" 5 (lit "d")]).
  - reflexivity.
  - done.
  - vm_compute; discriminate.
  - reflexivity.
  - constructor; [right; reflexivity|constructor].
Defined.

Lemma claim_last_edit_witness :
  Some (lit "d") =
  last_edit "cmd_1" [OpEdit "cmd_1" 4 (lit "b"); OpEdit "cmd_1" 5 (lit "d")] demo_held None.
Proof.
  apply (claim_hands_over_last_edit "cmd_1" demo_held (mkHeld Waiting None None)).
  - reflexivity.
  - reflexivity.
  - constructor; [right; reflexivity|constructor; [right; reflexivity|constructor]].
  - reflexivity.
Defined.

Lemma unclaim_witness :
  (withdraw "cmd_1" (unclaim "cmd_1" (claim "cmd_1" demo_held).1)).2 = "withdrawn"%string ∧
  ∀ x t, (edit "cmd_1" x t (unclaim "cmd_1" (claim "cmd_1" demo_held).1)).2.1 = "edited"%string
         ↔ default x None = x.
Proof.
  apply (unclaim_restores_waiting "cmd_1" demo_held (mkHeld Waiting None None) None); reflexivity.
Defined.
