(* ===== verification/Cover.v ===== *)
(** * Failure-settlement covers: [remuda-journal/src/cover.rs]

    A live [StopFailure] arms a set of independent covers over the unread
    records of one JSONL journal.  Each cover binds the kernel identity and the
    generation of the file, a byte range and the exact bytes of that range; it
    is revalidated on every open of the file and suppresses the later fold of
    exactly the record it covers.  The theorems say that a surviving cover
    always describes the bytes that are on disk, that covers live and die
    independently, and that a cover over a torn trailing record settles the
    completed record whatever the observations in between were.

    SHA-256 is a parameter ([sha256]); nothing is assumed about it. *)
From stdpp Require Import base list gmap strings numbers.
From S2P Require Import Prelude.
Local Open Scope Z_scope.

Abbreviation bytes := (list Z) (only parsing).

Definition byte_nl : Z := 10.
Definition byte_cr : Z := 13.

(** [struct FileId]. *)
Record FileId : Type := mkFileId { dev : Z; ino : Z }.
#[export] Instance FileId_eq_dec : EqDecision FileId.
Proof. solve_decision. Defined.

(** [enum CoverKind]. *)
Inductive CoverKind : Type := CompleteRecord | PendingTail.
#[export] Instance CoverKind_eq_dec : EqDecision CoverKind.
Proof. solve_decision. Defined.

(** [struct Cover]. *)
Record Cover : Type := mkCover {
  agent : string;
  kind : CoverKind;
  file_id : FileId;
  generation : Z;
  offset : Z;
  extent : Z;
  cbytes : bytes;
  digest : string;
}.

(** [struct ObservedFile]: [rest] is the file from [rest_base] to [len]. *)
Record ObservedFile : Type := mkObserved {
  obs_file_id : FileId;
  obs_generation : Z;
  obs_len : Z;
  obs_rest_base : Z;
  obs_rest : bytes;
}.

(** [enum CoverVerdict]. *)
Inductive CoverVerdict : Type :=
| Keep
| Grow (b : bytes)
| Invalidate.

Definition byte_len (b : bytes) : Z := Z.of_nat (length b).

(** [util::hex_lower] and [util::digest_of] over the parameter [sha256]. *)
Definition hex_digit (d : Z) : string :=
  match String.get (Z.to_nat d) "0123456789abcdef" with
  | Some a => String a EmptyString
  | None => EmptyString
  end.

Fixpoint hex_lower (b : bytes) : string :=
  match b with
  | [] => EmptyString
  | x :: r => String.append (hex_digit (Z.shiftr x 4))
                (String.append (hex_digit (Z.land x 15)) (hex_lower r))
  end.

Section Cover.
Context (sha256 : bytes → bytes).

Definition digest_of (b : bytes) : string := String.append "sha256:" (hex_lower (sha256 b)).

(** [Cover::new]. *)
Definition cover_new (a : string) (k : CoverKind) (f : FileId) (g off ext : Z) (b : bytes)
    : Cover :=
  mkCover a k f g off ext b (digest_of b).

(** [Cover::complete]. *)
Definition cover_complete (a : string) (f : FileId) (g off : Z) (line : bytes) : Cover :=
  cover_new a CompleteRecord f g off (wrap64 (off + byte_len line)) line.

(** [Cover::pending]. *)
Definition cover_pending (a : string) (f : FileId) (g off ext : Z) (prefix : bytes) : Cover :=
  cover_new a PendingTail f g off ext prefix.

(** The continuation of a torn record: up to the first newline, exclusive. *)
Definition before_newline (tail : bytes) : bytes :=
  take (default (length tail) (position (Z.eqb byte_nl) tail)) tail.

(** [Cover::revalidate]. *)
Definition revalidate (c : Cover) (obs : ObservedFile) : CoverVerdict :=
  if negb (bool_decide (file_id c = obs_file_id obs))
     || negb (generation c =? obs_generation obs) then Invalidate
  else if obs_len obs <? extent c then Invalidate
  else
    match checked_sub (offset c) (obs_rest_base obs) with
    | None => Invalidate
    | Some relative =>
        let rel := Z.to_nat relative in
        match get_range rel (rel + length (cbytes c)) (obs_rest obs) with
        | None => Invalidate
        | Some slice =>
            if negb (bool_decide (slice = cbytes c)) then Invalidate
            else if bool_decide (kind c = PendingTail) && (extent c <? obs_len obs) then
              match get_from (rel + length (cbytes c)) (obs_rest obs) with
              | None => Invalidate
              | Some tail => Grow (cbytes c ++ before_newline tail)
              end
            else Keep
        end
    end.

(** The [Grow] arm of [CoverSet::observe]. *)
Definition grown (c : Cover) (b : bytes) : Cover :=
  mkCover (agent c) (kind c) (file_id c) (generation c) (offset c)
    (wrap64 (offset c + byte_len b)) b (digest_of b).

(** One cover's fate in [CoverSet::observe]. *)
Definition observe_one (obs : ObservedFile) (c : Cover) : option Cover :=
  match revalidate c obs with
  | Keep => Some c
  | Grow b => Some (grown c b)
  | Invalidate => None
  end.

(** [CoverSet::observe]: the covers are drained and the survivors pushed back
    in order. *)
Definition observe (obs : ObservedFile) (covers : list Cover) : list Cover :=
  omap (observe_one obs) covers.

(** [CoverSet::arm]. *)
Definition arm (a : string) (fresh covers : list Cover) : list Cover :=
  retain (λ c, negb (bool_decide (agent c = a))) covers ++ fresh.

(** [CoverSet::for_agent]. *)
Definition for_agent (a : string) (covers : list Cover) : list Cover :=
  retain (λ c, bool_decide (agent c = a)) covers.

(** [CoverSet::note_consumed]. *)
Definition note_consumed (g off : Z) (covers : list Cover) : list Cover :=
  retain (λ c, (generation c =? g) && (off <? offset c)) covers.

(** A folded line has its terminating CR stripped. *)
Definition strip_cr (b : bytes) : bytes := default b (strip_suffix [byte_cr] b).

(** [CoverSet::settles], one cover. *)
Definition settles_one (a : string) (g off : Z) (d : string) (line : bytes) (c : Cover) : bool :=
  bool_decide (agent c = a) && (generation c =? g) && (offset c =? off) &&
  match kind c with
  | CompleteRecord => bool_decide (digest c = d)
  | PendingTail => starts_with (strip_cr (cbytes c)) line
  end.

(** [CoverSet::settles]. *)
Definition settles (a : string) (g off : Z) (d : string) (line : bytes) (covers : list Cover)
    : bool :=
  existsb (settles_one a g off d line) covers.

(** ** What a cover and an observation mean *)

(** The bytes of [c]'s range in [file]. *)
Definition covers_bytes_of (c : Cover) (file : bytes) : Prop :=
  0 ≤ offset c ∧ take (length (cbytes c)) (drop (Z.to_nat (offset c)) file) = cbytes c ∧
  offset c + byte_len (cbytes c) ≤ byte_len file.

(** [obs] is an open of a file whose content is [file], read from the tail's
    cursor. *)
Definition observes (obs : ObservedFile) (file : bytes) : Prop :=
  0 ≤ obs_rest_base obs ≤ byte_len file ∧ obs_len obs = byte_len file ∧
  obs_rest obs = drop (Z.to_nat (obs_rest_base obs)) file ∧
  is_u64 (byte_len file).

(** The cover's own bookkeeping: its digest is the digest of its bytes and its
    extent is where they end. *)
Definition cover_wf (c : Cover) : Prop :=
  digest c = digest_of (cbytes c) ∧ extent c = offset c + byte_len (cbytes c).

(** ** Lemmas *)

Lemma byte_len_app b b' : byte_len (b ++ b') = byte_len b + byte_len b'.
Proof. unfold byte_len. rewrite length_app. lia. Qed.

Lemma before_newline_split tail :
  ∃ rest, tail = before_newline tail ++ rest ∧ (byte_nl ∉ before_newline tail) ∧
    (rest = [] ∨ ∃ r, rest = byte_nl :: r).
Proof.
  unfold before_newline. destruct (position (Z.eqb byte_nl) tail) as [i|] eqn:Hp; simpl.
  - apply position_Some in Hp as (x & Hx & Hpx & Hmin). apply Z.eqb_eq in Hpx. subst x.
    exists (drop i tail). split; [by rewrite take_drop|]. split.
    + intros Hin. apply list_elem_of_lookup in Hin as [j Hj].
      apply lookup_take_Some in Hj as [Hj Hlt]. specialize (Hmin _ _ Hlt Hj).
      by rewrite Z.eqb_refl in Hmin.
    + right. exists (drop (S i) tail). by apply drop_S.
  - exists []. rewrite firstn_all, app_nil_r. split; [done|]. split; [|by left].
    intros Hin. pose proof (proj1 (position_None _ _) Hp _ Hin) as Hb.
    by rewrite Z.eqb_refl in Hb.
Qed.

(** What an un-invalidated revalidation established. *)
Lemma revalidate_sound c obs file :
  observes obs file → revalidate c obs ≠ Invalidate →
  file_id c = obs_file_id obs ∧ generation c = obs_generation obs ∧
  extent c ≤ obs_len obs ∧ obs_rest_base obs ≤ offset c ∧ covers_bytes_of c file ∧
  revalidate c obs =
    (if bool_decide (kind c = PendingTail) && (extent c <? obs_len obs)
     then Grow (cbytes c ++ before_newline
            (drop (Z.to_nat (offset c) + length (cbytes c)) file))
     else Keep).
Proof.
  intros ((Hb0 & Hb1) & Hlen & Hrest & Hu) Hv. unfold revalidate in *.
  destruct (bool_decide (file_id c = obs_file_id obs)) eqn:Hf; [|done].
  apply bool_decide_eq_true in Hf.
  destruct (generation c =? obs_generation obs) eqn:Hg; [|done]. simpl in *.
  destruct (obs_len obs <? extent c) eqn:He; [done|].
  unfold checked_sub in *. destruct (obs_rest_base obs <=? offset c) eqn:Hbase; [|done].
  simpl in *. zhyps.
  set (rel := Z.to_nat (offset c - obs_rest_base obs)) in *.
  destruct (get_range rel (rel + length (cbytes c)) (obs_rest obs)) as [slice|] eqn:Hr; [|done].
  apply get_range_Some in Hr as (_ & Hle & Hsl).
  destruct (bool_decide (slice = cbytes c)) eqn:Hsb; [|done].
  apply bool_decide_eq_true in Hsb. simpl in *.
  replace (rel + length (cbytes c) - rel)%nat with (length (cbytes c)) in Hsl by lia.
  rewrite Hrest, drop_drop in Hsl.
  replace (Z.to_nat (obs_rest_base obs) + rel)%nat with (Z.to_nat (offset c)) in Hsl
    by (unfold rel; lia).
  rewrite Hrest, length_drop in Hle.
  assert (get_from (rel + length (cbytes c)) (obs_rest obs)
          = Some (drop (Z.to_nat (offset c) + length (cbytes c)) file)) as Hgf.
  { apply get_from_Some. rewrite Hrest, length_drop. split; [done|].
    rewrite drop_drop. f_equal. unfold rel. lia. }
  rewrite Hgf. do 4 (split; [first [done|lia]|]). split; [|by case_match].
  split_and!; [lia|congruence|]. unfold byte_len in *. unfold rel in Hle. lia.
Qed.

(** Growing a cover over the file keeps it a true description of the file. *)
Lemma grown_covers c file :
  covers_bytes_of c file → is_u64 (byte_len file) →
  let b := cbytes c ++ before_newline (drop (Z.to_nat (offset c) + length (cbytes c)) file) in
  covers_bytes_of (grown c b) file ∧ cover_wf (grown c b).
Proof.
  intros (H0 & Htk & Hle) Hu b.
  set (t := drop (Z.to_nat (offset c) + length (cbytes c)) file) in *.
  destruct (before_newline_split t) as (rest & Ht & _).
  set (bn := before_newline t) in *.
  assert (drop (Z.to_nat (offset c)) file = b ++ rest) as Hsplit.
  { rewrite <- (take_drop (length (cbytes c)) (drop (Z.to_nat (offset c)) file)).
    rewrite Htk, drop_drop. fold t. unfold b. by rewrite <- app_assoc, <- Ht. }
  assert (offset c + byte_len b ≤ byte_len file) as Hle'.
  { apply (f_equal length) in Hsplit. rewrite length_drop, length_app in Hsplit.
    unfold byte_len in *. lia. }
  assert (wrap64 (offset c + byte_len b) = offset c + byte_len b) as Hw.
  { unfold wrap64, is_u64, u64_max in *. rewrite Z.mod_small; unfold byte_len in *; lia. }
  split; [split_and!; simpl; [done| |done]|split; simpl; [done|by rewrite Hw]].
  rewrite Hsplit. apply take_app_length.
Qed.

(** A survivor of [observe] comes from one armed cover. *)
Lemma observe_elem obs covers c' :
  c' ∈ observe obs covers ↔ ∃ c, c ∈ covers ∧ observe_one obs c = Some c'.
Proof. unfold observe. apply list_elem_of_omap. Qed.

(** The shape of a survivor. *)
Lemma observe_one_sound obs file c c' :
  observes obs file → cover_wf c → observe_one obs c = Some c' →
  covers_bytes_of c' file ∧ cover_wf c' ∧
  file_id c' = obs_file_id obs ∧ generation c' = obs_generation obs ∧
  agent c' = agent c ∧ kind c' = kind c ∧ offset c' = offset c ∧
  cbytes c `prefix_of` cbytes c'.
Proof.
  intros Hobs Hwf Hone.
  assert (revalidate c obs ≠ Invalidate) as Hv.
  { intros Hv. unfold observe_one in Hone. by rewrite Hv in Hone. }
  destruct (revalidate_sound c obs file Hobs Hv) as (Hf & Hg & Hext & Hb & Hcov & Hres).
  unfold observe_one in Hone. rewrite Hres in Hone.
  destruct (_ && _); simplify_eq/=.
  - destruct (grown_covers c file Hcov) as [? ?]; [by destruct Hobs as (_ & _ & _ & ?)|].
    split_and!; try done. by eexists.
  - by split_and!.
Qed.

(** A cover whose identity, generation and bytes still hold survives. *)
Lemma observe_one_complete obs file c :
  observes obs file → cover_wf c →
  file_id c = obs_file_id obs → generation c = obs_generation obs →
  obs_rest_base obs ≤ offset c → covers_bytes_of c file →
  is_Some (observe_one obs c).
Proof.
  intros ((Hb0 & Hb1) & Hlen & Hrest & Hu) [_ Hext] Hf Hg Hb (H0 & Htk & Hle).
  unfold observe_one, revalidate, checked_sub.
  rewrite bool_decide_true by done. rewrite Hg, Z.eqb_refl. simpl.
  replace (obs_len obs <? extent c) with false by (symmetry; apply Z.ltb_ge; lia).
  replace (obs_rest_base obs <=? offset c) with true by (symmetry; apply Z.leb_le; lia).
  set (rel := Z.to_nat (offset c - obs_rest_base obs)).
  assert (rel + length (cbytes c) ≤ length (obs_rest obs))%nat as Hin.
  { rewrite Hrest, length_drop. unfold byte_len in *. unfold rel. lia. }
  assert (get_range rel (rel + length (cbytes c)) (obs_rest obs) = Some (cbytes c)) as ->.
  { apply get_range_Some. split_and!; [lia|done|].
    rewrite Hrest, drop_drop. rewrite <- Htk at 1. f_equal; [lia|]. f_equal. unfold rel. lia. }
  rewrite bool_decide_true by done. simpl.
  assert (get_from (rel + length (cbytes c)) (obs_rest obs)
    = Some (drop (rel + length (cbytes c)) (obs_rest obs))) as -> by by apply get_from_Some.
  destruct (_ && _); by eexists.
Qed.

(** A growing torn record: a pending cover over [file], all of whose bytes are
    before the record's newline. *)
Definition pending_over (a : string) (f : FileId) (g off : Z) (file : bytes) (c : Cover) : Prop :=
  agent c = a ∧ kind c = PendingTail ∧ file_id c = f ∧ generation c = g ∧ offset c = off ∧
  cover_wf c ∧ covers_bytes_of c file ∧ byte_nl ∉ cbytes c.

(** Opens of a file that only grows, each of the same file and generation and
    reading from a cursor at or before [off]. *)
Fixpoint observed_growth (f : FileId) (g off : Z) (file : bytes)
    (opens : list (ObservedFile * bytes)) : Prop :=
  match opens with
  | [] => True
  | (obs, file') :: r =>
      file `prefix_of` file' ∧ observes obs file' ∧ obs_file_id obs = f ∧
      obs_generation obs = g ∧ obs_rest_base obs ≤ off ∧ observed_growth f g off file' r
  end.

(** The content the last open saw. *)
Fixpoint last_content (file : bytes) (opens : list (ObservedFile * bytes)) : bytes :=
  match opens with
  | [] => file
  | (_, file') :: r => last_content file' r
  end.

(** One open of the grown file keeps (and possibly extends) the pending cover. *)
Lemma pending_over_observe a f g off file file' obs c :
  pending_over a f g off file c → file `prefix_of` file' → observes obs file' →
  obs_file_id obs = f → obs_generation obs = g → obs_rest_base obs ≤ off →
  ∃ c', observe_one obs c = Some c' ∧ pending_over a f g off file' c'.
Proof.
  intros (Ha & Hk & Hf & Hg & Ho & Hwf & (H0 & Htk & Hle) & Hnl) [ext ->] Hobs Hof Hog Hb.
  assert (covers_bytes_of c (file ++ ext)) as Hcov'.
  { split_and!; [done| |rewrite byte_len_app; unfold byte_len in *; lia].
    unfold byte_len in *. rewrite drop_app_le by lia.
    rewrite take_app_le; [done|]. rewrite length_drop. lia. }
  destruct (observe_one_complete obs (file ++ ext) c) as [c' Hc']; [done|done|congruence..|lia|done|].
  exists c'. split; [done|].
  destruct (observe_one_sound obs (file ++ ext) c c' Hobs Hwf Hc')
    as (Hcov & Hwf' & ? & ? & ? & ? & ? & _).
  do 5 (split; [congruence|]). split; [done|]. split; [done|].
  assert (revalidate c obs ≠ Invalidate) as Hv.
  { intros Hv. unfold observe_one in Hc'. by rewrite Hv in Hc'. }
  destruct (revalidate_sound c obs (file ++ ext) Hobs Hv) as (_ & _ & _ & _ & _ & Hres).
  unfold observe_one in Hc'. rewrite Hres in Hc'.
  destruct (_ && _); simplify_eq/=; [|done].
  apply not_elem_of_app. split; [done|].
  by destruct (before_newline_split
    (drop (Z.to_nat (offset c) + length (cbytes c)) (file ++ ext))) as (? & _ & ? & _).
Qed.

(** A newline-free prefix of the bytes from a record's start is a prefix of the
    record. *)
Lemma newline_free_prefix (b record rest : bytes) :
  byte_nl ∉ b → b `prefix_of` (record ++ byte_nl :: rest) → b `prefix_of` record.
Proof.
  revert record. induction b as [|x b IH]; intros record Hnl [k Hk]; [apply prefix_nil|].
  destruct record as [|y record]; simplify_eq/=.
  - exfalso. apply Hnl. by apply list_elem_of_here.
  - apply prefix_cons. apply IH; [|by exists k].
    intros H. apply Hnl. by apply list_elem_of_further.
Qed.

Lemma strip_cr_spec b : (∃ r, b = r ++ [byte_cr] ∧ strip_cr b = r) ∨ strip_cr b = b.
Proof.
  unfold strip_cr. destruct (strip_suffix [byte_cr] b) as [r|] eqn:Hs; simpl; [|by right].
  apply strip_suffix_spec in Hs. left. eauto.
Qed.

Lemma strip_cr_prefix b : strip_cr b `prefix_of` b.
Proof. destruct (strip_cr_spec b) as [(r & -> & ->)| ->]; [by apply prefix_app_r|done]. Qed.

(** Stripping the CR of a line and of a captured prefix of it agree. *)
Lemma strip_cr_mono b record : b `prefix_of` record → strip_cr b `prefix_of` strip_cr record.
Proof.
  intros [k ->]. destruct k as [|x k].
  { by rewrite app_nil_r. }
  destruct (strip_cr_spec (b ++ x :: k)) as [(r & Hr & ->)| ->].
  - transitivity b; [apply strip_cr_prefix|].
    destruct (exists_last (l := x :: k)) as (k' & y & Hk); [done|].
    rewrite Hk, app_assoc in Hr. apply app_inj_tail in Hr as [<- _]. by apply prefix_app_r.
  - transitivity b; [apply strip_cr_prefix|]. by apply prefix_app_r.
Qed.

(** ** Properties *)

(** Survival: an armed cover survives an open of the file, possibly
    grown, exactly when the open is of the same file and generation, the
    cover's range is at or past the cursor, and every byte of the range is
    still on disk unchanged.  The condition mentions no other cover, so no
    cover's fate depends on another's; and a survivor describes the bytes on
    disk, with a consistent digest and extent. *)
Theorem cover_survives_iff_bytes_intact obs file c :
  observes obs file → cover_wf c →
  (observe obs [c] ≠ [] ↔
     file_id c = obs_file_id obs ∧ generation c = obs_generation obs ∧
     obs_rest_base obs ≤ offset c ∧ covers_bytes_of c file) ∧
  ∀ covers c', Forall cover_wf covers → c' ∈ observe obs covers →
     covers_bytes_of c' file ∧ cover_wf c'.
Proof.
  intros Hobs Hwf. split; [split|].
  - simpl. destruct (observe_one obs c) as [c'|] eqn:Hone; [|done]. intros _.
    assert (revalidate c obs ≠ Invalidate) as Hv.
    { intros Hv. unfold observe_one in Hone. by rewrite Hv in Hone. }
    by destruct (revalidate_sound c obs file Hobs Hv) as (? & ? & _ & ? & ? & _).
  - intros (Hf & Hg & Hb & Hc).
    destruct (observe_one_complete obs file c Hobs Hwf Hf Hg Hb Hc) as [c' Hc'].
    simpl. by rewrite Hc'.
  - intros covers c' Hall (c0 & Hin & Hone)%observe_elem.
    rewrite List.Forall_forall in Hall. apply list_elem_of_In, Hall in Hin.
    by destruct (observe_one_sound obs file c0 c' Hobs Hin Hone) as (? & ? & _).
Qed.

(**  A torn record stays settled until it completes: arm a pending cover
    over the torn tail of a file that then only grows.  After any sequence of
    opens of its successive contents the cover set still settles the record
    that the bytes complete to, with its terminating CR stripped, whatever the
    digest the fold computed. *)
Theorem pending_cover_settles_completed_record a f g off file opens covers c record rest d :
  pending_over a f g off file c → c ∈ covers →
  observed_growth f g off file opens →
  drop (Z.to_nat off) (last_content file opens) = record ++ byte_nl :: rest →
  settles a g off d (strip_cr record) (foldl (λ s obs, observe obs s) covers opens.*1) = true.
Proof.
  revert file covers c. induction opens as [|[obs file'] opens IH];
    intros file covers c Hp Hin Hg Hrec; simpl in *.
  - destruct Hp as (Ha & Hk & _ & Hgen & Ho & _ & (_ & Htk & _) & Hnl).
    apply existsb_exists. exists c. split; [by apply list_elem_of_In|].
    unfold settles_one. rewrite bool_decide_true by done. rewrite Hgen, Ho, !Z.eqb_refl, Hk. simpl.
    apply starts_with_spec, strip_cr_mono. eapply newline_free_prefix; [done|].
    rewrite <- Hrec, <- Ho. exists (drop (length (cbytes c)) (drop (Z.to_nat (offset c)) file)).
    rewrite <- Htk at 1. by rewrite take_drop.
  - destruct Hg as (Hpre & Hobs & Hf & Hgen & Hb & Hg).
    destruct (pending_over_observe a f g off file file' obs c) as (c' & Hc' & Hp'); [done..|].
    eapply (IH file' _ c'); [done| |done|done]. apply observe_elem. eauto.
Qed.

(**  Consumption retires: once the fold consumed the record at [off],
    nothing at or before that position is settled again in this generation,
    whichever member or record type consumed it; covers further on stay. *)
Theorem consumed_positions_never_settle_again a g off off' d line covers :
  (off' ≤ off → settles a g off' d line (note_consumed g off covers) = false) ∧
  (off < off' → settles a g off' d line (note_consumed g off covers)
                = settles a g off' d line covers).
Proof.
  unfold settles, note_consumed, retain, settles_one. split; intros Hle;
    induction covers as [|c covers IH]; simpl; try done.
  - destruct ((generation c =? g) && (off <? offset c)) eqn:Hr; simpl; [|done].
    rewrite IH. apply andb_true_iff in Hr as [_ Hr]. zhyps.
    replace (offset c =? off') with false by (symmetry; apply Z.eqb_neq; lia).
    by rewrite andb_false_r.
  - destruct (generation c =? g) eqn:Hg; simpl.
    + destruct (off <? offset c) eqn:Ho; simpl; [by rewrite ?Hg, IH|]. zhyps.
      rewrite IH.
      replace (offset c =? off') with false by (symmetry; apply Z.eqb_neq; lia).
      by rewrite andb_false_r.
    + rewrite IH. by rewrite andb_false_r.
Qed.

End Cover.

(** ** Witnesses *)

Definition demo_file_id : FileId := mkFileId 7 99.
(** ["{"] torn at offset 2, completed to ["{}"] with a CRLF. *)
Definition demo_torn : bytes := [120; 10; 123].
Definition demo_done : bytes := [120; 10; 123; 125; 13; 10].
Definition demo_pending : Cover := cover_pending (λ b, b) "a1" demo_file_id 1 2 3 [123].
Definition demo_obs : ObservedFile := mkObserved demo_file_id 1 6 0 demo_done.

Lemma cover_survives_witness :
  observe (λ b, b) demo_obs [demo_pending] ≠ [] ↔
  file_id demo_pending = obs_file_id demo_obs ∧ generation demo_pending = obs_generation demo_obs ∧
  obs_rest_base demo_obs ≤ offset demo_pending ∧ covers_bytes_of demo_pending demo_done.
Proof.
  apply (cover_survives_iff_bytes_intact (λ b, b) demo_obs demo_done demo_pending).
  - split; [split; [done|vm_compute; discriminate]|]. split; [done|]. split; [done|].
    split; vm_compute; discriminate.
  - split; reflexivity.
Defined.

Lemma pending_settles_witness :
  settles "a1" 1 2 "sha256:00" (strip_cr [123; 125; 13])
    (foldl (λ s obs, observe (λ b, b) obs s) [demo_pending] [(demo_obs, demo_done)].*1) = true.
Proof.
  apply (pending_cover_settles_completed_record (λ b, b) "a1" demo_file_id 1 2 demo_torn
           [(demo_obs, demo_done)] [demo_pending] demo_pending [123; 125; 13] []).
  - do 5 (split; [reflexivity|]). split; [split; reflexivity|]. split.
    + split; [done|]. split; [reflexivity|vm_compute; discriminate].
    + intros H. apply list_elem_of_singleton in H. done.
  - by apply list_elem_of_singleton.
  - split; [by exists [125; 13; 10]|].
    split; [split; [split; [done|vm_compute; discriminate]|split; [done|split; [done|
      split; vm_compute; discriminate]]]|].
    split; [done|]. split; [done|]. split; [done|exact I].
  - reflexivity.
Defined.
