(* ===== verification/FileTail.v ===== *)
(** * The JSONL tail: [remuda-journal/src/source.rs]

    A [FileTail] follows one append-mostly JSONL file by byte offset.  Every
    open normalises the cursor first (a replaced, truncated or rewritten file
    starts a new generation at offset 0), reads the unread bytes, revalidates
    the armed covers against them ([Cover]) and then either folds the complete
    lines ([poll]) or arms covers for a failing agent ([unread_start]).

    The file system is the environment: an [Opening] gives what one open saw,
    with a separate snapshot for the stat and prefix check, for the read of the
    unread bytes and for the prefix refresh, because the writer may append in
    between.  [serde_json]'s parsers are parameters. *)
From stdpp Require Import base list gmap strings numbers.
From S2P Require Import Prelude Json Cover.
Local Open Scope Z_scope.

(** [struct FileCursor]. *)
Record FileCursor : Type := mkCursor {
  cur_identity : string;
  cur_generation : Z;
  cur_offset : Z;
  cur_length : Z;
  cur_digest : string;
}.

(** [struct SourceResume]. *)
Record SourceResume : Type := mkResume {
  source_key : string;
  res_identity : string;
  res_generation : Z;
  res_offset : Z;
  res_prefix : option string;
}.

(** [struct FileTail]. *)
Record FileTail : Type := mkTail {
  path : string;
  identity : string;
  t_generation : Z;
  t_offset : Z;
  prefix_digest : option string;
  last_len : option Z;
  t_file_id : option FileId;
  t_covers : list Cover;
}.

(** What one open of the path saw. *)
Record Opening : Type := mkOpening {
  o_id : FileId;
  o_stat : list Z;
  o_read : list Z;
  o_refresh : list Z;
}.

(** [enum Error]: a short read of [read_exact]. *)
Inductive TailError : Type := UnexpectedEof.

Abbreviation tail A := (st FileTail TailError A) (only parsing).

(** [FileTail::new], [at_end] and [from_resume]; [Id::new("obj")] is an argument. *)
Definition tail_new (p id : string) : FileTail := mkTail p id 1 0 None None None [].
Definition at_end (p id : string) (file : option (list Z)) : FileTail :=
  mkTail p id 1 (match file with Some c => byte_len c | None => 0 end) None None None [].
Definition from_resume (p : string) (r : SourceResume) : FileTail :=
  mkTail p (res_identity r) (Z.max (res_generation r) 1) (res_offset r) (res_prefix r) None None [].

(** [FileTail::resume]. *)
Definition resume (t : FileTail) : SourceResume :=
  mkResume (path t) (identity t) (t_generation t) (t_offset t) (prefix_digest t).

Definition PREFIX_LIMIT : Z := 4096.

(** [seek(0)] and [read_exact] of [n] bytes. *)
Definition read_exact (n : Z) (content : list Z) : result (list Z) TailError :=
  if n <=? byte_len content then Ok (take (Z.to_nat n) content) else Err UnexpectedEof.

(** [is_ascii_whitespace]: space, tab, line feed, form feed, carriage return. *)
Definition is_ascii_whitespace (b : Z) : bool :=
  (b =? 32) || (b =? 9) || (b =? 10) || (b =? 12) || (b =? 13).
Fixpoint skip_ws (l : list Z) : list Z :=
  match l with
  | [] => []
  | b :: r => if is_ascii_whitespace b then skip_ws r else l
  end.

(** The terminated lines of [rest] with the index each starts at, and the
    index after the last newline.  [cur] is [rest[start..i]]. *)
Fixpoint split_lines (start : nat) (cur : list Z) (todo : list Z) : list (nat * list Z) * nat :=
  match todo with
  | [] => ([], start)
  | b :: r =>
      if b =? byte_nl then
        let '(ls, e) := split_lines (start + length cur + 1) [] r in ((start, cur) :: ls, e)
      else split_lines start (cur ++ [b]) r
  end.

Section Tail.
Context (sha256 : list Z → list Z).
Context {V : Type} `{Json V}.
(** [serde_json::from_slice::<Value>] and [serde_json::from_slice::<String>]. *)
Variable json_value : list Z → option V.
Variable json_string : list Z → option string.

(** [FileTail::rotate]. *)
Definition rotate (t : FileTail) : FileTail :=
  mkTail (path t) (identity t) (saturating_add64 (t_generation t) 1) 0 None
    (last_len t) (t_file_id t) (t_covers t).

(** [FileTail::detect_rotation]. *)
Definition detect_rotation (stat : list Z) (replaced : bool) : tail unit :=
  t ← st_get;
  if (replaced : bool) then st_put (rotate t)
  else if byte_len stat <? t_offset t then st_put (rotate t)
  else
    buf ← st_lift (read_exact (Z.min (t_offset t) PREFIX_LIMIT) stat);
    let d := digest_of sha256 buf in
    match prefix_digest t with
    | Some old => if bool_decide (old = d) then mret tt else st_put (rotate t)
    | None => mret tt
    end.

(** [FileTail::open_normalised]: the unread bytes. *)
Definition open_normalised (o : option Opening) : tail (option (list Z)) :=
  match o with
  | None => mret None
  | Some f =>
      t ← st_get;
      let replaced := match t_file_id t with
                      | Some id => negb (bool_decide (id = o_id f))
                      | None => false
                      end in
      _ ← detect_rotation (o_stat f) replaced;
      t ← st_get;
      let rest_base := t_offset t in
      let rest := drop (Z.to_nat rest_base) (o_read f) in
      let len := wrap64 (rest_base + byte_len rest) in
      let obs := mkObserved (o_id f) (t_generation t) len rest_base rest in
      _ ← st_put (mkTail (path t) (identity t) (t_generation t) (t_offset t) (prefix_digest t)
                    (Some len) (Some (o_id f)) (observe sha256 obs (t_covers t)));
      mret (Some rest)
  end.

(** [FileTail::refresh_prefix]. *)
Definition refresh_prefix (content : list Z) : tail unit :=
  t ← st_get;
  let set p := mkTail (path t) (identity t) (t_generation t) (t_offset t) p
                 (last_len t) (t_file_id t) (t_covers t) in
  if t_offset t =? 0 then st_put (set None)
  else
    buf ← st_lift (read_exact (Z.min (t_offset t) PREFIX_LIMIT) content);
    st_put (set (Some (digest_of sha256 buf))).

(** One terminated line of [poll]: empty lines are skipped. *)
Definition cursor_of (t : FileTail) (p : nat * list Z) : option (list Z * FileCursor) :=
  let line := strip_cr p.2 in
  if decide (line = []) then None
  else Some (line, mkCursor (identity t) (t_generation t) (wrap64 (t_offset t + Z.of_nat p.1))
                     (byte_len line) (digest_of sha256 line)).

(** [FileTail::poll]. *)
Definition poll (o : option Opening) : tail (list (list Z * FileCursor)) :=
  opened ← open_normalised o;
  match opened, o with
  | Some rest, Some f =>
      t ← st_get;
      let '(ls, start) := split_lines 0 [] rest in
      let lines := omap (cursor_of t) ls in
      _ ← st_put (mkTail (path t) (identity t) (t_generation t)
                    (wrap64 (t_offset t + Z.of_nat start)) (prefix_digest t)
                    (last_len t) (t_file_id t) (t_covers t));
      _ ← refresh_prefix (o_refresh f);
      mret lines
  | _, _ => mret []
  end.

(** [read_json_string]: the index after the closing quote, then the decoding. *)
Fixpoint closing_quote (escaped : bool) (index : nat) (l : list Z) : option nat :=
  match l with
  | [] => None
  | b :: r =>
      if escaped then closing_quote false (S index) r
      else if b =? 92 then closing_quote true (S index) r
      else if b =? 34 then Some (S index)
      else closing_quote false (S index) r
  end.
Definition read_json_string (input : list Z) : option (string * nat) :=
  e ← closing_quote false 1 (drop 1 input);
  v ← json_string (take e input);
  Some (v, e).

(** The loop of [partial_started_prefix] on the rest of the line: the last
    [type] and [agentId] values read whole. *)
Fixpoint read_pairs (fuel : nat) (l : list Z) (ty ag : option string)
    : option (option string * option string) :=
  match fuel with
  | O => None
  | S fuel' =>
      let stop := Some (ty, ag) in
      let l := skip_ws l in
      match l with
      | 34 :: _ =>
          match read_json_string l with
          | None => stop
          | Some (key, next) =>
              match skip_ws (drop next l) with
              | 58 :: l1 =>
                  let l2 := skip_ws l1 in
                  match l2 with
                  | 34 :: _ =>
                      match read_json_string l2 with
                      | None => stop
                      | Some (value, next') =>
                          let ty' := if decide (key = "type"%string) then Some value else ty in
                          let ag' := if decide (key = "agentId"%string) then Some value else ag in
                          match skip_ws (drop next' l2) with
                          | 44 :: l3 => read_pairs fuel' l3 ty' ag'
                          | _ => Some (ty', ag')
                          end
                      end
                  | _ => stop
                  end
              | _ => stop
              end
          end
      | _ => stop
      end
  end.

(** [partial_started_prefix]; each pair consumes bytes, so the length of the
    line is fuel enough. *)
Definition partial_started_prefix (line : list Z) (agent_id : string) : option bool :=
  match skip_ws line with
  | 123 :: l =>
      p ← read_pairs (S (length line)) l None None;
      Some (match p.1 with
            | Some ty => if decide (ty = "started"%string)
                         then match p.2 with Some v => bool_decide (v = agent_id) | None => true end
                         else false
            | None => match p.2 with Some v => bool_decide (v = agent_id) | None => true end
            end)
  | _ => Some false
  end.

(** Whether a complete line is a [started] record of the agent. *)
Definition started_by (agent_id : string) (line : list Z) : bool :=
  match line with
  | [] => false
  | _ =>
      match json_value line with
      | None => false
      | Some v =>
          bool_decide ((json_get v "type" ≫= json_str) = Some "started"%string) &&
          match (match json_get v "agentId" ≫= json_str with
                 | Some id => Some id
                 | None => json_get v "key" ≫= json_str
                 end) with
          | Some id => bool_decide (id = agent_id)
          | None => false
          end
      end
  end.

(** The closure [complete_at]. *)
Definition complete_at (agent_id : string) (f : FileId) (t : FileTail) (line : list Z) (at_ : nat)
    : list Cover :=
  if started_by agent_id line
  then [cover_complete sha256 agent_id f (t_generation t) (wrap64 (t_offset t + Z.of_nat at_)) line]
  else [].

(** The covers [unread_start] arms from the unread bytes. *)
Definition fresh_covers (agent_id : string) (f : FileId) (t : FileTail) (rest : list Z)
    : list Cover :=
  let '(ls, start) := split_lines 0 [] rest in
  (ls ≫= λ p, complete_at agent_id f t (strip_cr p.2) p.1) ++
  (if decide (start < length rest)%nat then
     let raw := drop start rest in
     let line := strip_cr raw in
     match json_value line with
     | Some _ => complete_at agent_id f t line start
     | None =>
         if default false (partial_started_prefix line agent_id)
         then [cover_pending sha256 agent_id f (t_generation t)
                 (wrap64 (t_offset t + Z.of_nat start))
                 (wrap64 (t_offset t + byte_len rest)) raw]
         else []
     end
   else []).

(** [FileTail::unread_start]. *)
Definition unread_start (agent_id : string) (o : option Opening) : tail (list Cover) :=
  opened ← open_normalised o;
  match opened, o with
  | Some rest, Some f =>
      t ← st_get;
      let fresh := fresh_covers agent_id (o_id f) t rest in
      _ ← st_put (mkTail (path t) (identity t) (t_generation t) (t_offset t) (prefix_digest t)
                    (last_len t) (t_file_id t) (arm agent_id fresh (t_covers t)));
      mret fresh
  | _, _ => mret []
  end.

(** [FileTail::note_consumed]. *)
Definition tail_note_consumed (g off : Z) : tail unit :=
  st_modify (λ t, mkTail (path t) (identity t) (t_generation t) (t_offset t) (prefix_digest t)
    (last_len t) (t_file_id t) (note_consumed g off (t_covers t))).

End Tail.

(** ** Splitting a growing file into lines *)

(** The index after the last newline. *)
Definition consumed (c : list Z) : nat := (split_lines 0 [] c).2.

Lemma split_lines_shift k start cur todo :
  split_lines (k + start) cur todo =
    (prod_map (Nat.add k) id <$> (split_lines start cur todo).1,
     (k + (split_lines start cur todo).2)%nat).
Proof.
  revert start cur. induction todo as [|b todo IH]; intros start cur; simpl; [done|].
  destruct (b =? byte_nl); [|apply IH].
  replace (k + start + length cur + 1)%nat with (k + (start + length cur + 1))%nat by lia.
  rewrite IH. by destruct (split_lines (start + length cur + 1) [] todo).
Qed.

(** Where the scan ends. *)
Lemma split_lines_bounds start cur todo :
  (split_lines start cur todo).2 = start ∨
  (start + length cur < (split_lines start cur todo).2 ≤ start + length cur + length todo)%nat.
Proof.
  revert start cur. induction todo as [|b todo IH]; intros start cur; simpl; [by left|].
  destruct (b =? byte_nl).
  - destruct (split_lines _ [] todo) as [ls e] eqn:Hs. simpl.
    pose proof (IH (start + length cur + 1)%nat []) as Hb. rewrite Hs in Hb. simpl in Hb. lia.
  - destruct (IH start (cur ++ [b])) as [->|Hb]; [by left|].
    rewrite length_app in Hb. simpl in Hb. lia.
Qed.

(** Cutting the input at the end of the last line changes nothing. *)
Lemma split_lines_take start cur todo :
  let e := (split_lines start cur todo).2 in
  split_lines start cur (take (e - (start + length cur)) todo) = split_lines start cur todo.
Proof.
  revert start cur. induction todo as [|b todo IH]; intros start cur; simpl.
  { by rewrite take_nil. }
  destruct (b =? byte_nl) eqn:Hb.
  - destruct (split_lines (start + length cur + 1) [] todo) as [ls e] eqn:Hs. simpl.
    pose proof (split_lines_bounds (start + length cur + 1) [] todo) as Hbd.
    pose proof (IH (start + length cur + 1)%nat []) as Htk. rewrite Hs in Hbd, Htk. simpl in *.
    replace (e - (start + length cur))%nat with (S (e - (start + length cur + 1 + 0)))%nat by lia.
    simpl. rewrite Hb, Htk. done.
  - pose proof (split_lines_bounds start (cur ++ [b]) todo) as Hbd.
    pose proof (IH start (cur ++ [b])) as Htk. rewrite length_app in *. simpl in *.
    set (e := (split_lines start (cur ++ [b]) todo).2) in *.
    destruct Hbd as [He|He].
    + rewrite He in *. replace (start - (start + length cur))%nat with 0%nat by lia.
      replace (start - (start + (length cur + 1)))%nat with 0%nat in Htk by lia. simpl in *.
      exact Htk.
    + replace (e - (start + length cur))%nat with (S (e - (start + (length cur + 1))))%nat by lia.
      simpl. by rewrite Hb.
Qed.

(** Continuing after input that was consumed whole. *)
Lemma split_lines_app start cur l1 l2 :
  l1 ≠ [] → (split_lines start cur l1).2 = (start + length cur + length l1)%nat →
  split_lines start cur (l1 ++ l2) =
    let e := (split_lines start cur l1).2 in
    ((split_lines start cur l1).1 ++ (split_lines e [] l2).1, (split_lines e [] l2).2).
Proof.
  revert start cur. induction l1 as [|b l1 IH]; intros start cur Hne He; [done|]. simpl in *.
  destruct (b =? byte_nl) eqn:Hb.
  - destruct l1 as [|b' l1].
    + simpl in *. by destruct (split_lines (start + length cur + 1) [] l2).
    + specialize (IH (start + length cur + 1)%nat [] ltac:(done)).
      destruct (split_lines (start + length cur + 1) [] (b' :: l1)) as [ls e] eqn:Hs. simpl in *.
      rewrite IH by lia. done.
  - destruct l1 as [|b' l1].
    + simpl in *. lia.
    + rewrite IH; [done|done|]. rewrite He, length_app. simpl. lia.
Qed.

(** The lines of a file that grew: those consumed, then those of the rest. *)
Lemma split_lines_grow c x :
  let e := consumed c in
  split_lines 0 [] (c ++ x) =
    ((split_lines 0 [] c).1 ++ (prod_map (Nat.add e) id <$> (split_lines 0 [] (drop e (c ++ x))).1),
     (e + consumed (drop e (c ++ x)))%nat).
Proof.
  intros e. pose proof (split_lines_take 0 [] c) as Htk. simpl in Htk. rewrite Nat.sub_0_r in Htk.
  pose proof (split_lines_bounds 0 [] c) as Hbd. simpl in Hbd. fold (consumed c) in Htk, Hbd.
  fold e in Htk, Hbd. destruct (decide (e = 0%nat)) as [He|He].
  - assert (split_lines 0 [] c = ([], 0%nat)) as Hz by (rewrite <-Htk, He; done).
    rewrite He, Hz, drop_0. simpl. unfold consumed.
    destruct (split_lines 0 [] (c ++ x)) as [ls e'] eqn:Hs. simpl. f_equal.
    symmetry. rewrite (list_fmap_ext _ id) by (by intros ? [? ?] ?). by rewrite list_fmap_id.
  - assert (e ≤ length c)%nat as Hle by lia.
    assert (length (take e c) = e) as Hlt by (rewrite length_take; lia).
    rewrite <-(take_drop e c) at 1. rewrite <-app_assoc.
    rewrite split_lines_app.
    + rewrite Htk. fold (consumed c). fold e. simpl.
      rewrite drop_app_le by done.
      pose proof (split_lines_shift e 0 [] (drop e c ++ x)) as Hsh. rewrite Nat.add_0_r in Hsh.
      by rewrite Hsh.
    + intros Hnil. rewrite Hnil in Hlt. simpl in Hlt. lia.
    + rewrite Htk. fold (consumed c). fold e. simpl. lia.
Qed.

(** The scan computes the terminated segments of [split(b'\n')]. *)
Definition is_nl (b : Z) : bool := b =? byte_nl.
Lemma split_on_newline_free (cur l : list Z) :
  Forall (λ b, is_nl b = false) cur →
  split_on is_nl (cur ++ l) = match split_on is_nl l with [] => [cur] | c :: cs => (cur ++ c) :: cs end.
Proof.
  induction 1 as [|b cur Hb _ IH]; simpl.
  - pose proof (split_on_nonempty is_nl l). by destruct (split_on is_nl l).
  - rewrite Hb, IH. pose proof (split_on_nonempty is_nl l). by destruct (split_on is_nl l).
Qed.

Lemma split_lines_segments start cur todo :
  Forall (λ b, is_nl b = false) cur →
  (split_lines start cur todo).1.*2 = removelast (split_on is_nl (cur ++ todo)).
Proof.
  revert start cur. induction todo as [|b todo IH]; intros start cur Hcur; simpl.
  - by rewrite split_on_newline_free.
  - destruct (b =? byte_nl) eqn:Hb.
    + destruct (split_lines _ [] todo) as [ls e] eqn:Hs. cbn [fst]. rewrite fmap_cons.
      rewrite split_on_newline_free by done. simpl. unfold is_nl at 1. rewrite Hb. rewrite app_nil_r.
      pose proof (IH (start + length cur + 1)%nat [] (List.Forall_nil _)) as H1.
      rewrite Hs in H1. cbn [fst] in H1. rewrite H1. simpl.
      pose proof (split_on_nonempty is_nl todo). by destruct (split_on is_nl todo).
    + rewrite IH by (apply Forall_app; split; [done|by repeat constructor]).
      by rewrite <-app_assoc.
Qed.

(** Each terminated line lies in the file where its index says. *)
Lemma split_lines_elem start cur todo i l :
  (i, l) ∈ (split_lines start cur todo).1 →
  (start ≤ i)%nat ∧ ∃ r, drop (i - start) (cur ++ todo) = l ++ byte_nl :: r.
Proof.
  revert start cur. induction todo as [|b todo IH]; intros start cur; simpl; [by intros ?%not_elem_of_nil|].
  destruct (b =? byte_nl) eqn:Hb.
  - destruct (split_lines _ [] todo) as [ls e] eqn:Hs. simpl.
    intros [Heq|Hin]%elem_of_cons.
    + simplify_eq. split; [lia|]. rewrite Nat.sub_diag, drop_0. zhyps. subst. by exists todo.
    + pose proof (IH (start + length cur + 1)%nat []) as H1. rewrite Hs in H1.
      destruct (H1 Hin) as (Hle & r & Hr). split; [lia|]. exists r. rewrite <-Hr. simpl.
      rewrite drop_app_ge by lia.
      by replace (i - start - length cur)%nat with (S (i - (start + length cur + 1))) by lia.
  - intros Hin. destruct (IH _ _ Hin) as (Hle & r & Hr). split; [done|]. exists r.
    by rewrite <-app_assoc in Hr.
Qed.

(** ** Following a file that only grows *)

Section Polling.
Context (sha256 : list Z → list Z).

(** Each open sees the same file, and never less than an earlier one. *)
Fixpoint appended (id : FileId) (c : list Z) (os : list Opening) : Prop :=
  match os with
  | [] => True
  | o :: os' =>
      o_id o = id ∧ c `prefix_of` o_stat o ∧ o_stat o `prefix_of` o_read o ∧
      o_read o `prefix_of` o_refresh o ∧ is_u64 (byte_len (o_refresh o)) ∧
      appended id (o_refresh o) os'
  end.
(** What the last open read. *)
Fixpoint last_read (c : list Z) (os : list Opening) : list Z :=
  match os with [] => c | o :: os' => last_read (o_read o) os' end.

(** A sequence of polls, collecting the lines. *)
Fixpoint polls (os : list Opening) : st FileTail TailError (list (list Z * FileCursor)) :=
  match os with
  | [] => mret []
  | o :: os' =>
      ls ← poll sha256 (Some o);
      rest ← polls os';
      mret (ls ++ rest)
  end.

(** The cursor of a line of the whole file. *)
Definition line_at (ident : string) (g : Z) (p : nat * list Z) : option (list Z * FileCursor) :=
  let line := strip_cr p.2 in
  if decide (line = []) then None
  else Some (line, mkCursor ident g (Z.of_nat p.1) (byte_len line) (digest_of sha256 line)).
Definition file_lines (ident : string) (g : Z) (c : list Z) : list (list Z * FileCursor) :=
  omap (line_at ident g) (split_lines 0 [] c).1.

(** The tail has folded exactly the terminated lines of [c]. *)
Record caught_up (id : FileId) (t : FileTail) (c : list Z) : Prop := {
  cu_offset : t_offset t = Z.of_nat (consumed c);
  cu_prefix : prefix_digest t = if decide (consumed c = 0%nat) then None
    else Some (digest_of sha256 (take (Nat.min (consumed c) 4096) c));
  cu_file : t_file_id t = None ∨ t_file_id t = Some id;
}.

Lemma consumed_le c : (consumed c ≤ length c)%nat.
Proof. unfold consumed. pose proof (split_lines_bounds 0 [] c). simpl in *. lia. Qed.

Lemma wrap64_small z : is_u64 z → wrap64 z = z.
Proof. unfold is_u64, u64_max, wrap64. intros. rewrite Z.mod_small; lia. Qed.

Lemma take_prefix_of (n : nat) (c c' : list Z) :
  c `prefix_of` c' → (n ≤ length c)%nat → take n c' = take n c.
Proof. intros [x ->] Hn. by rewrite take_app_le. Qed.

Lemma read_exact_prefix (e : nat) (c c' : list Z) :
  c `prefix_of` c' → (e ≤ length c)%nat →
  read_exact (Z.min (Z.of_nat e) PREFIX_LIMIT) c' = Ok (take (Nat.min e 4096) c).
Proof.
  intros Hp He. pose proof (prefix_length _ _ Hp). unfold read_exact, byte_len, PREFIX_LIMIT.
  replace (Z.min (Z.of_nat e) 4096 <=? Z.of_nat (length c')) with true by lia.
  f_equal. replace (Z.to_nat (Z.min (Z.of_nat e) 4096)) with (Nat.min e 4096) by lia.
  apply take_prefix_of; [done|lia].
Qed.

(** No rotation is seen in a grown file. *)
Lemma detect_rotation_grown id t c stat :
  caught_up id t c → c `prefix_of` stat →
  detect_rotation sha256 stat false t = (t, Ok tt).
Proof.
  intros [Ho Hp _] Hc. pose proof (consumed_le c) as Hle. pose proof (prefix_length _ _ Hc).
  unfold detect_rotation. rewrite st_bind_eq. simpl. rewrite Ho. unfold byte_len.
  replace (Z.of_nat (length stat) <? Z.of_nat (consumed c)) with false by lia.
  rewrite st_bind_eq. simpl. rewrite (read_exact_prefix _ c) by done. simpl. rewrite Hp.
  case_decide; [done|]. by rewrite bool_decide_true.
Qed.

(** A line of the unread part, with the cursor it has in the whole file. *)
Lemma cursor_of_shift t e p :
  t_offset t = Z.of_nat e → is_u64 (Z.of_nat (e + p.1)) →
  cursor_of sha256 t p = line_at (identity t) (t_generation t) (prod_map (Nat.add e) id p).
Proof.
  intros He Hu. unfold cursor_of, line_at. simpl. unfold id. case_decide; [done|].
  rewrite He, wrap64_small by (unfold is_u64 in *; lia). do 2 f_equal. f_equal. lia.
Qed.

Lemma omap_cursor_shift t e (ls : list (nat * list Z)) :
  t_offset t = Z.of_nat e → (∀ p, p ∈ ls → is_u64 (Z.of_nat (e + p.1))) →
  omap (cursor_of sha256 t) ls
  = omap (line_at (identity t) (t_generation t)) (prod_map (Nat.add e) id <$> ls).
Proof.
  intros He. induction ls as [|p ls IH]; intros Hu; [done|]. csimpl.
  rewrite (cursor_of_shift t e) by (done || apply Hu; set_solver). rewrite IH by set_solver. done.
Qed.

(** The open of a grown file reads what is after the cursor. *)
Lemma open_grown fid t c o :
  caught_up fid t c → o_id o = fid → c `prefix_of` o_stat o → o_stat o `prefix_of` o_read o →
  ∃ t1, open_normalised sha256 (Some o) t
        = (t1, Ok (Some (drop (consumed c) (o_read o)))) ∧
    path t1 = path t ∧ identity t1 = identity t ∧ t_generation t1 = t_generation t ∧
    t_offset t1 = t_offset t ∧ prefix_digest t1 = prefix_digest t ∧ t_file_id t1 = Some fid ∧
    t_covers t1 = observe sha256 (mkObserved fid (t_generation t)
      (wrap64 (t_offset t + byte_len (drop (consumed c) (o_read o)))) (t_offset t)
      (drop (consumed c) (o_read o))) (t_covers t).
Proof.
  intros Hcu Hid Hst Hrd. unfold open_normalised. rewrite st_bind_eq. simpl.
  replace (match t_file_id t with Some id => negb (bool_decide (id = o_id o)) | None => false end)
    with false.
  2: { destruct (cu_file _ _ _ Hcu) as [->| ->]; [done|]. by rewrite bool_decide_true. }
  rewrite st_bind_eq, (detect_rotation_grown fid t c) by done. rewrite st_bind_eq. simpl.
  rewrite st_bind_eq. simpl. rewrite st_ret_eq.
  rewrite (cu_offset _ _ _ Hcu), Nat2Z.id. eexists. split; [done|]. simpl. rewrite Hid. done.
Qed.

(** One poll folds the new terminated lines and catches up. *)
Lemma poll_grown fid t c o :
  caught_up fid t c → o_id o = fid → c `prefix_of` o_stat o → o_stat o `prefix_of` o_read o →
  o_read o `prefix_of` o_refresh o → is_u64 (byte_len (o_refresh o)) →
  ∃ t1 ls, poll sha256 (Some o) t = (t1, Ok ls) ∧ caught_up fid t1 (o_read o) ∧
    identity t1 = identity t ∧ t_generation t1 = t_generation t ∧
    file_lines (identity t) (t_generation t) (o_read o)
      = file_lines (identity t) (t_generation t) c ++ ls.
Proof.
  intros Hcu Hid Hst Hrd Hrf Hu.
  destruct (open_grown fid t c o Hcu Hid Hst Hrd)
    as (t1 & Hopen & _ & Hi & Hg & Ho & _ & Hf & _).
  assert (c `prefix_of` o_read o) as [x Hx] by (by etrans).
  pose proof (split_lines_grow c x) as Hgrow. cbv zeta in Hgrow. rewrite <-Hx in Hgrow.
  pose proof (cu_offset _ _ _ Hcu) as Hoff. rewrite Hoff in Ho.
  pose proof (consumed_le (o_read o)) as Hle. pose proof (prefix_length _ _ Hrf) as Hlrf.
  assert (consumed (o_read o) = consumed c + consumed (drop (consumed c) (o_read o)))%nat as Hcons
    by (unfold consumed at 1; by rewrite Hgrow).
  assert (wrap64 (t_offset t1 + Z.of_nat (consumed (drop (consumed c) (o_read o))))
          = Z.of_nat (consumed (o_read o))) as Hnew.
  { rewrite Ho, wrap64_small by (unfold is_u64, byte_len in *; lia). lia. }
  unfold poll. rewrite st_bind_eq, Hopen. rewrite st_bind_eq. simpl.
  destruct (split_lines 0 [] (drop (consumed c) (o_read o))) as [ls e] eqn:Hls.
  change e with (ls, e).2. rewrite <-Hls. fold (consumed (drop (consumed c) (o_read o))).
  rewrite st_bind_eq. cbn -[consumed refresh_prefix]. rewrite Hnew.
  rewrite st_bind_eq. unfold refresh_prefix. rewrite st_bind_eq. cbn -[consumed].
  assert (omap (cursor_of sha256 t1) ls = omap (line_at (identity t) (t_generation t))
    (prod_map (Nat.add (consumed c)) id <$> ls)) as Hlines.
  { rewrite (omap_cursor_shift t1 (consumed c)); [by rewrite Hi, Hg|done|].
    intros [i l] Hin. assert ((i, l) ∈ (split_lines 0 [] (drop (consumed c) (o_read o))).1) as Hin'
      by (by rewrite Hls). destruct (split_lines_elem 0 [] _ i l Hin') as (_ & r & Hr).
    apply (f_equal length) in Hr. rewrite !length_drop, !length_app, !length_drop in Hr.
    cbn [length] in Hr. unfold is_u64, byte_len in *. simpl. lia. }
  assert (file_lines (identity t) (t_generation t) (o_read o)
    = file_lines (identity t) (t_generation t) c ++ omap (cursor_of sha256 t1) ls) as Hres.
  { unfold file_lines. rewrite Hgrow, Hlines. cbn [fst]. by rewrite omap_app. }
  destruct (Z.of_nat (consumed (o_read o)) =? 0) eqn:Hz.
  - simpl. eexists _, _. split; [done|]. split_and!; [|done..].
    split; simpl; [done| |by right]. rewrite decide_True by lia. done.
  - rewrite st_bind_eq. cbn -[consumed].
    rewrite (read_exact_prefix _ (o_read o)) by done. simpl. eexists _, _. split; [done|].
    split_and!; [|done..]. split; simpl; [done| |by right]. by rewrite decide_False by lia.
Qed.

Lemma polls_grown fid os t c :
  caught_up fid t c → appended fid c os →
  ∃ t' ls, polls os t = (t', Ok ls) ∧ caught_up fid t' (last_read c os) ∧
    t_generation t' = t_generation t ∧
    file_lines (identity t) (t_generation t) (last_read c os)
      = file_lines (identity t) (t_generation t) c ++ ls.
Proof.
  revert t c. induction os as [|o os IH]; intros t c Hcu Hap; simpl.
  { exists t, []. rewrite app_nil_r. done. }
  destruct Hap as (Hid & H1 & H2 & H3 & H4 & H5).
  destruct (poll_grown fid t c o Hcu Hid H1 H2 H3 H4) as (t1 & ls & Hp & Hcu1 & Hi & Hg & Hl).
  assert (appended fid (o_read o) os) as H5'.
  { destruct os as [|o' os]; [done|]. destruct H5 as (? & ? & ? & ? & ? & ?).
    split_and!; try done. by etrans. }
  destruct (IH t1 (o_read o) Hcu1 H5') as (t2 & ls2 & Hp2 & Hcu2 & Hg2 & Hl2).
  exists t2, (ls ++ ls2). rewrite st_bind_eq, Hp, st_bind_eq, Hp2, st_ret_eq.
  rewrite Hi, Hg in Hl2. split_and!; [done|done|congruence|]. by rewrite Hl2, Hl, app_assoc.
Qed.

(** The content and position of a folded line. *)
Lemma file_lines_sound ident g c line cur :
  (line, cur) ∈ file_lines ident g c →
  line ≠ [] ∧ cur_identity cur = ident ∧ cur_generation cur = g ∧
  cur_length cur = byte_len line ∧ cur_digest cur = digest_of sha256 line ∧ 0 ≤ cur_offset cur ∧
  ∃ raw r, line = strip_cr raw ∧ drop (Z.to_nat (cur_offset cur)) c = raw ++ byte_nl :: r.
Proof.
  unfold file_lines. intros ([i l] & Hin & Hl)%list_elem_of_omap. unfold line_at in Hl. simpl in Hl.
  case_decide as Hne; [done|]. simplify_eq/=.
  destruct (split_lines_elem 0 [] c i l Hin) as (_ & r & Hr). simpl in Hr. rewrite Nat.sub_0_r in Hr.
  split_and!; try done; [lia|]. exists l, r. by rewrite Nat2Z.id.
Qed.

Lemma file_lines_texts ident g c :
  (file_lines ident g c).*1
  = List.filter (λ l, negb (bool_decide (l = []))) (strip_cr <$> removelast (split_on is_nl c)).
Proof.
  change c with ([] ++ c) at 2. unfold file_lines.
  rewrite <-(split_lines_segments 0 [] c) by constructor.
  induction (split_lines 0 [] c).1 as [|[i l] ls IH]; [done|]. csimpl. unfold line_at at 1. simpl.
  case_decide as Hd.
  - rewrite bool_decide_true by done. simpl. exact IH.
  - rewrite bool_decide_false by done. csimpl. f_equal. exact IH.
Qed.

(** C13. Exactly-once folding: whatever the moments at which a growing file is
    polled (also while a record is half written, also with bytes arriving
    between the stat and the read), the polls never rotate and together return
    exactly the non-empty terminated lines of what was last read, each once and
    in order, and each cursor names the bytes of its line. *)
Theorem polls_fold_every_line_exactly_once p ident fid os :
  appended fid [] os →
  ∃ t ls, polls os (tail_new p ident) = (t, Ok ls) ∧ t_generation t = 1 ∧
    ls.*1 = List.filter (λ l, negb (bool_decide (l = [])))
              (strip_cr <$> removelast (split_on is_nl (last_read [] os))) ∧
    ∀ line cur, (line, cur) ∈ ls →
      cur_identity cur = ident ∧ cur_generation cur = 1 ∧ cur_length cur = byte_len line ∧
      cur_digest cur = digest_of sha256 line ∧
      ∃ raw r, line = strip_cr raw ∧
        drop (Z.to_nat (cur_offset cur)) (last_read [] os) = raw ++ byte_nl :: r.
Proof.
  intros Hap. destruct (polls_grown fid os (tail_new p ident) []) as (t & ls & Hp & _ & Hg & Hl);
    [by split; [..|left]|done|].
  change (file_lines (identity (tail_new p ident)) (t_generation (tail_new p ident)) [])
    with (@nil (list Z * FileCursor)) in Hl. simpl in Hl, Hg.
  exists t, ls. split_and!; [done|done|by rewrite <-Hl, file_lines_texts|].
  intros line cur Hin. rewrite <-Hl in Hin.
  destruct (file_lines_sound _ _ _ _ _ Hin) as (_ & ? & ? & ? & ? & _ & ?). by split_and!.
Qed.

(** ** Rotation *)

(** The three signs of another file: another inode, a length below the cursor,
    or another digest of the consumed prefix. *)
Definition rotated (t : FileTail) (o : Opening) : bool :=
  match t_file_id t with Some id => negb (bool_decide (id = o_id o)) | None => false end ||
  (byte_len (o_stat o) <? t_offset t) ||
  match prefix_digest t with
  | Some old => negb (bool_decide
      (old = digest_of sha256 (take (Z.to_nat (Z.min (t_offset t) PREFIX_LIMIT)) (o_stat o))))
  | None => false
  end.

Lemma detect_rotation_rotated t o :
  rotated t o = true →
  detect_rotation sha256 (o_stat o)
    (match t_file_id t with Some id => negb (bool_decide (id = o_id o)) | None => false end) t
  = (rotate t, Ok tt).
Proof.
  unfold rotated, detect_rotation. rewrite st_bind_eq. simpl.
  destruct (match t_file_id t with Some _ => _ | None => _ end); [done|]. simpl.
  destruct (byte_len (o_stat o) <? t_offset t) eqn:Hlt; [done|]. simpl.
  destruct (prefix_digest t) as [old|]; [|done]. intros Hd.
  rewrite st_bind_eq. simpl. unfold read_exact.
  replace (Z.min (t_offset t) PREFIX_LIMIT <=? byte_len (o_stat o)) with true by lia. simpl.
  apply negb_true_iff in Hd. by rewrite Hd.
Qed.

(** A cover of another generation does not survive an open. *)
Lemma observe_other_generation obs covers :
  Forall (λ c, generation c ≠ obs_generation obs) covers → observe sha256 obs covers = [].
Proof.
  unfold observe. induction 1 as [|c covers Hc _ IH]; [done|]. csimpl.
  unfold observe_one, revalidate. replace (generation c =? obs_generation obs) with false by lia.
  by rewrite orb_true_r.
Qed.

(** A replaced, truncated or rewritten file is read again from its first
    byte: the generation goes up by one, the poll returns every terminated line
    of the new content with cursors of the new generation, and no cover armed
    on the old generation survives. *)
Theorem rotation_rereads_the_new_file t o :
  rotated t o = true → is_u64 (t_generation t) → t_generation t < u64_max →
  o_read o `prefix_of` o_refresh o → is_u64 (byte_len (o_refresh o)) →
  Forall (λ c, generation c ≤ t_generation t) (t_covers t) →
  ∃ t' , poll sha256 (Some o) t
         = (t', Ok (file_lines (identity t) (t_generation t + 1) (o_read o))) ∧
    t_generation t' = t_generation t + 1 ∧ t_offset t' = Z.of_nat (consumed (o_read o)) ∧
    t_file_id t' = Some (o_id o) ∧ t_covers t' = [].
Proof.
  intros Hrot Hg Hgm Hrf Hu Hcov. pose proof (consumed_le (o_read o)) as Hle.
  pose proof (prefix_length _ _ Hrf) as Hlrf.
  assert (saturating_add64 (t_generation t) 1 = t_generation t + 1) as Hsat
    by (unfold saturating_add64; lia).
  unfold poll, open_normalised. rewrite st_bind_eq. rewrite st_bind_eq. simpl.
  rewrite st_bind_eq, detect_rotation_rotated by done.
  rewrite st_bind_eq. simpl. rewrite st_bind_eq. simpl. rewrite drop_0, Hsat.
  rewrite observe_other_generation.
  2: { simpl. eapply list.Forall_impl; [done|]. simpl. lia. }
  destruct (split_lines 0 [] (o_read o)) as [ls e] eqn:Hls.
  assert (e = consumed (o_read o)) as -> by (unfold consumed; by rewrite Hls).
  rewrite st_bind_eq. cbn -[consumed refresh_prefix wrap64 omap].
  rewrite (wrap64_small (0 + Z.of_nat (consumed (o_read o))))
    by (unfold is_u64, byte_len in *; lia).
  rewrite (Z.add_0_l (Z.of_nat (consumed (o_read o)))). set (t1 := mkTail (path t) (identity t) (t_generation t + 1) 0 None _ _ _).
  assert (omap (cursor_of sha256 t1) ls = file_lines (identity t) (t_generation t + 1) (o_read o))
    as Hlines.
  { rewrite (omap_cursor_shift t1 0); [|done|].
    - unfold file_lines. rewrite Hls. cbn [fst]. f_equal.
      rewrite (list_fmap_ext _ id) by (by intros ? [? ?] ?). by rewrite list_fmap_id.
    - intros [i l] Hin. assert ((i, l) ∈ (split_lines 0 [] (o_read o)).1) as Hin' by (by rewrite Hls).
      destruct (split_lines_elem 0 [] _ i l Hin') as (_ & r & Hr).
      apply (f_equal length) in Hr. rewrite !length_drop, !length_app in Hr. cbn [length] in Hr.
      unfold is_u64, byte_len in *. simpl. lia. }
  rewrite Hlines, st_bind_eq. unfold refresh_prefix. rewrite st_bind_eq. cbn -[consumed].
  destruct (Z.of_nat (consumed (o_read o)) =? 0); [simpl; eexists; split; [done|]; by split_and!|].
  rewrite st_bind_eq. cbn -[consumed]. rewrite (read_exact_prefix _ (o_read o)) by done.
  simpl. eexists; split; [done|]; by split_and!.
Qed.
End Polling.

(** ** The failure peek and the fold that follows *)

Section Peek.
Context (sha256 : list Z → list Z).
Context {V : Type} `{Json V}.
Variable json_value : list Z → option V.
Variable json_string : list Z → option string.

Lemma skip_ws_length l : (length (skip_ws l) ≤ length l)%nat.
Proof. induction l as [|b l IH]; simpl; [done|]. destruct (is_ascii_whitespace b); simpl; lia. Qed.

(** Reading pairs ends: every pair consumes bytes. *)
Lemma read_pairs_total fuel l ty ag :
  (length l < fuel)%nat → is_Some (read_pairs json_string fuel l ty ag).
Proof.
  revert l ty ag. induction fuel as [|fuel IH]; intros l ty ag Hl; [lia|]. simpl.
  pose proof (skip_ws_length l) as H1.
  destruct (skip_ws l) as [|b l0] eqn:Hl0; [by eexists|]. simpl in H1.
  destruct (decide (b = 34)) as [->|Hb]; [|by repeat case_match; simplify_eq; eexists].
  destruct (read_json_string json_string (34 :: l0)) as [[key next]|]; [|by eexists].
  pose proof (skip_ws_length (drop next (34 :: l0))) as H2. rewrite length_drop in H2. simpl in H2.
  destruct (skip_ws (drop next (34 :: l0))) as [|b1 l1] eqn:Hl1; [by eexists|]. simpl in H2.
  destruct (decide (b1 = 58)) as [->|Hb1]; [|by repeat case_match; simplify_eq; eexists].
  pose proof (skip_ws_length l1) as H3.
  destruct (skip_ws l1) as [|b2 l2] eqn:Hl2; [by eexists|].
  destruct (decide (b2 = 34)) as [->|Hb2]; [|by repeat case_match; simplify_eq; eexists].
  destruct (read_json_string json_string (34 :: l2)) as [[value next']|]; [|by eexists].
  pose proof (skip_ws_length (drop next' (34 :: l2))) as H4. rewrite length_drop in H4.
  destruct (skip_ws (drop next' (34 :: l2))) as [|b3 l3] eqn:Hl3; [by eexists|].
  simpl in H3, H4.
  destruct (decide (b3 = 44)) as [->|Hb3]; [apply IH; lia|by repeat case_match; simplify_eq; eexists].
Qed.

Lemma partial_started_prefix_total line agent_id :
  is_Some (partial_started_prefix json_string line agent_id).
Proof.
  unfold partial_started_prefix. pose proof (skip_ws_length line) as H1.
  destruct (skip_ws line) as [|b l]; [by eexists|]. simpl in H1.
  destruct (decide (b = 123)) as [->|Hb]; [|by repeat case_match; simplify_eq; eexists].
  destruct (read_pairs_total (S (length line)) l None None) as [p ->]; [lia|]. by eexists.
Qed.

(** Every fresh cover lies in what the peek read. *)
Lemma fresh_covers_before agent_id f t rest c :
  c ∈ fresh_covers sha256 json_value json_string agent_id f t rest →
  is_u64 (t_offset t + byte_len rest) → 0 ≤ t_offset t →
  agent c = agent_id ∧ offset c < t_offset t + byte_len rest.
Proof.
  unfold fresh_covers. destruct (split_lines 0 [] rest) as [ls start] eqn:Hs. intros Hin Hu H0.
  assert (∀ line at_, c ∈ complete_at sha256 json_value agent_id f t line at_ →
    (at_ < length rest)%nat → agent c = agent_id ∧ offset c < t_offset t + byte_len rest) as Hcomp.
  { unfold complete_at. intros line at_. destruct (started_by _ _ _); [|by intros ?%not_elem_of_nil].
    intros ->%list_elem_of_singleton Hlt. simpl. unfold byte_len in *.
    rewrite wrap64_small by (unfold is_u64 in *; lia). split; [done|lia]. }
  apply elem_of_app in Hin as [Hin|Hin].
  - apply list_elem_of_bind in Hin as ([i l] & Hc & Hin). apply (Hcomp _ _ Hc).
    assert ((i, l) ∈ (split_lines 0 [] rest).1) as Hin' by (by rewrite Hs).
    destruct (split_lines_elem 0 [] rest i l Hin') as (_ & r & Hr).
    apply (f_equal length) in Hr. rewrite length_drop, !length_app in Hr. cbn [length] in Hr. simpl. lia.
  - case_decide as Hlt; [|by apply not_elem_of_nil in Hin].
    destruct (json_value _); [by apply (Hcomp _ _ Hin)|].
    destruct (default false _); [|by apply not_elem_of_nil in Hin].
    apply list_elem_of_singleton in Hin as ->. simpl. unfold byte_len in *.
    rewrite wrap64_small by (unfold is_u64 in *; lia). split; [done|lia].
Qed.

(** The cover of a terminated [started] record of the agent. *)
Lemma fresh_covers_complete agent_id f t rest i raw :
  (i, raw) ∈ (split_lines 0 [] rest).1 → started_by json_value agent_id (strip_cr raw) = true →
  cover_complete sha256 agent_id f (t_generation t) (wrap64 (t_offset t + Z.of_nat i)) (strip_cr raw)
    ∈ fresh_covers sha256 json_value json_string agent_id f t rest.
Proof.
  intros Hin Hst. unfold fresh_covers. destruct (split_lines 0 [] rest) as [ls start] eqn:Hs.
  apply elem_of_app. left. apply list_elem_of_bind. exists (i, raw). split; [|done].
  unfold complete_at. simpl. rewrite Hst. by apply list_elem_of_singleton.
Qed.

(** A complete cover over bytes that are still there is kept as it is. *)
Lemma complete_cover_kept obs file c :
  observes obs file → cover_wf sha256 c → kind c = CompleteRecord →
  file_id c = obs_file_id obs → generation c = obs_generation obs →
  obs_rest_base obs ≤ offset c → covers_bytes_of c file → observe_one sha256 obs c = Some c.
Proof.
  intros Hobs Hwf Hk Hf Hg Hb Hc.
  destruct (observe_one_complete sha256 obs file c Hobs Hwf Hf Hg Hb Hc) as [c' Hc'].
  assert (revalidate c obs ≠ Invalidate) as Hv.
  { intros Hv. unfold observe_one in Hc'. by rewrite Hv in Hc'. }
  destruct (revalidate_sound c obs file Hobs Hv) as (_ & _ & _ & _ & _ & Hres).
  unfold observe_one. rewrite Hres, Hk. done.
Qed.

Lemma refresh_prefix_covers content t : t_covers (refresh_prefix sha256 content t).1 = t_covers t.
Proof.
  unfold refresh_prefix. rewrite st_bind_eq. simpl. destruct (t_offset t =? 0); [done|].
  rewrite st_bind_eq. simpl. by destruct (read_exact _ _).
Qed.

(** After its open, a poll does not touch the covers. *)
Lemma poll_covers o t t1 rest :
  open_normalised sha256 (Some o) t = (t1, Ok (Some rest)) →
  t_covers (poll sha256 (Some o) t).1 = t_covers t1.
Proof.
  intros Ho. unfold poll. rewrite st_bind_eq, Ho, st_bind_eq. simpl.
  destruct (split_lines 0 [] rest) as [ls e]. rewrite st_bind_eq. simpl. rewrite st_bind_eq.
  set (t2 := mkTail _ _ _ _ _ _ _ _). pose proof (refresh_prefix_covers (o_refresh o) t2) as Hr.
  destruct (refresh_prefix sha256 (o_refresh o) t2) as [t3 [u|e']]; simpl in *; exact Hr.
Qed.

(** What the poll after a peek sees: the peek's tail [ta] is at the end of [c],
    and the covers it armed meet one observation [obs] of the grown file. *)
Record peeked (agent_id : string) (fid : FileId) (c : list Z) (o1 o2 : Opening) (ta t2 : FileTail)
    (fresh : list Cover) (obs : ObservedFile) : Prop := {
  pk_fresh : fresh = fresh_covers sha256 json_value json_string agent_id fid ta
    (drop (consumed c) (o_read o1));
  pk_covers : t_covers t2 = observe sha256 obs (arm agent_id fresh (t_covers ta));
  pk_observes : observes obs (o_read o2);
  pk_file : obs_file_id obs = fid;
  pk_generation : t_generation ta = obs_generation obs;
  pk_base : obs_rest_base obs = Z.of_nat (consumed c);
  pk_offset : t_offset ta = Z.of_nat (consumed c);
  pk_inside : (consumed c ≤ length (o_read o1))%nat;
  pk_grown : o_read o1 `prefix_of` o_read o2;
  pk_bound : is_u64 (byte_len (o_read o1));
}.

Lemma peek_then_poll agent_id fid t c o1 o2 t1 fresh t2 ls2 :
  caught_up sha256 fid t c → appended fid c [o1; o2] →
  unread_start sha256 json_value json_string agent_id (Some o1) t = (t1, Ok fresh) →
  poll sha256 (Some o2) t1 = (t2, Ok ls2) →
  ∃ ta obs, open_normalised sha256 (Some o1) t = (ta, Ok (Some (drop (consumed c) (o_read o1)))) ∧
    peeked agent_id fid c o1 o2 ta t2 fresh obs.
Proof.
  intros Hcu (Hid1 & A1 & A2 & A3 & U1 & Hid2 & B1 & B2 & B3 & U2 & _) Hpeek Hp2.
  destruct (open_grown sha256 fid t c o1 Hcu Hid1 A1 A2)
    as (ta & Ha & _ & Hai & Hag & Hao & Hap & Haf & Hac).
  pose proof (cu_offset _ _ _ _ Hcu) as Hoff. pose proof (consumed_le c) as Hcl.
  pose proof (prefix_length _ _ A1). pose proof (prefix_length _ _ A2).
  pose proof (prefix_length _ _ A3). pose proof (prefix_length _ _ B1).
  pose proof (prefix_length _ _ B2). pose proof (prefix_length _ _ B3).
  unfold unread_start in Hpeek. rewrite st_bind_eq, Ha, st_bind_eq in Hpeek. simpl in Hpeek.
  rewrite st_bind_eq in Hpeek. simpl in Hpeek. rewrite st_ret_eq, Hid1 in Hpeek.
  injection Hpeek as Ht1 Hfresh.
  assert (caught_up sha256 fid t1 c) as Hcu1.
  { subst t1. destruct Hcu as [Q1 Q2 Q3]. split; simpl; [congruence|congruence|by right]. }
  assert (c `prefix_of` o_stat o2) as B0 by (do 3 (etrans; [done|]); done).
  destruct (open_grown sha256 fid t1 c o2 Hcu1 Hid2 B0 B2) as (tb & Hb & _ & _ & _ & _ & _ & _ & Hbc).
  assert (t_generation t1 = t_generation t ∧ t_offset t1 = t_offset t ∧
    t_covers t1 = arm agent_id fresh (t_covers ta)) as (Hg1 & Ho1 & Hc1) by (subst t1 fresh; done).
  set (obs := mkObserved fid (t_generation t1) _ _ _) in Hbc.
  exists ta, obs. split; [exact Ha|]. split; [done| | |done|simpl; congruence| | |lia| |].
  - pose proof (poll_covers o2 t1 _ _ Hb) as Hc. rewrite Hp2 in Hc. cbn [fst] in Hc.
    by rewrite Hc, Hbc, Hc1.
  - unfold observes. simpl. rewrite Ho1, Hoff, Nat2Z.id. unfold byte_len in *.
    rewrite length_drop, wrap64_small by (unfold is_u64 in *; lia).
    split_and!; try done; try lia. unfold is_u64 in *. lia.
  - simpl. congruence.
  - congruence.
  - do 2 (etrans; [done|]); done.
  - unfold is_u64, byte_len in *. lia.
Qed.

(** A record that begins after the bytes the peek saw is not settled. *)
Lemma peeked_late agent_id fid c o1 o2 ta t2 fresh obs g off d line :
  peeked agent_id fid c o1 o2 ta t2 fresh obs → byte_len (o_read o1) ≤ off →
  settles agent_id g off d line (t_covers t2) = false.
Proof.
  intros [Hfresh Hcov _ _ _ _ Hao Hin1 _ Hu] Hlate. rewrite Hcov. unfold settles.
  apply not_true_is_false. rewrite existsb_exists.
  intros (cv & Hin%list_elem_of_In & Hset). apply observe_elem in Hin as (c0 & Hin & Hone).
  unfold settles_one in Hset. rewrite !andb_true_iff, bool_decide_eq_true in Hset.
  destruct Hset as [[[Hag0 _] Hoff0] _]. apply Z.eqb_eq in Hoff0.
  assert (agent cv = agent c0 ∧ offset cv = offset c0) as [Hagc Hoffc].
  { unfold observe_one in Hone. by destruct (revalidate c0 obs); simplify_eq/=. }
  apply elem_of_app in Hin as [Hin|Hin].
  - apply elem_of_retain in Hin as [_ Hne]. rewrite bool_decide_true in Hne by congruence. done.
  - rewrite Hfresh in Hin. pose proof (length_drop (o_read o1) (consumed c)) as Hrl.
    unfold is_u64, byte_len in *.
    apply fresh_covers_before in Hin as [_ Hlt]; unfold is_u64, byte_len in *; lia.
Qed.

(** A terminated line of the bytes the peek saw, and the cover armed for it. *)
Lemma peeked_line_bytes agent_id fid c o1 o2 ta t2 fresh obs i raw :
  peeked agent_id fid c o1 o2 ta t2 fresh obs →
  (i, raw) ∈ (split_lines 0 [] (drop (consumed c) (o_read o1))).1 →
  wrap64 (t_offset ta + Z.of_nat i) = Z.of_nat (consumed c + i) ∧
  (consumed c + i + length raw < length (o_read o1))%nat ∧
  ∃ r, drop (consumed c + i) (o_read o2) = raw ++ byte_nl :: r.
Proof.
  intros [_ _ _ _ _ _ Hao Hin1 [y Hy] Hu] Hin.
  destruct (split_lines_elem 0 [] _ i raw Hin) as (_ & r & Hr). simpl in Hr.
  rewrite Nat.sub_0_r, drop_drop in Hr. pose proof (f_equal length Hr) as Hlen.
  rewrite length_drop, length_app in Hlen. cbn [length] in Hlen.
  split_and!; [|lia|exists (r ++ y)].
  - rewrite Hao, wrap64_small by (unfold is_u64, byte_len in *; lia). lia.
  - rewrite Hy, drop_app_le, Hr, <-app_assoc by lia. done.
Qed.

Lemma peeked_settles_line agent_id fid c o1 o2 ta t2 fresh obs i raw :
  peeked agent_id fid c o1 o2 ta t2 fresh obs →
  (i, raw) ∈ (split_lines 0 [] (drop (consumed c) (o_read o1))).1 →
  started_by json_value agent_id (strip_cr raw) = true →
  settles agent_id (t_generation ta) (wrap64 (t_offset ta + Z.of_nat i))
    (digest_of sha256 (strip_cr raw)) (strip_cr raw) (t_covers t2) = true.
Proof.
  intros Hpk Hin Hst. destruct (peeked_line_bytes _ _ _ _ _ _ _ _ _ _ _ Hpk Hin) as (Hw & Hlt & r & Hr).
  destruct Hpk as [Hfresh Hcov Hobs Hf Hg Hb Hao Hin1 Hgr Hu].
  pose proof (prefix_length _ _ Hgr). pose proof (prefix_length _ _ (strip_cr_prefix raw)).
  rewrite Hcov. unfold settles. apply existsb_exists.
  set (cv := cover_complete sha256 agent_id fid (t_generation ta)
    (wrap64 (t_offset ta + Z.of_nat i)) (strip_cr raw)).
  exists cv. split.
  - apply list_elem_of_In, observe_elem. exists cv. split.
    + apply elem_of_app. right. rewrite Hfresh. by apply fresh_covers_complete.
    + apply (complete_cover_kept obs (o_read o2)); try done.
      * unfold cover_wf, cv. simpl. rewrite Hw, wrap64_small; [done|].
        unfold is_u64, byte_len in *. lia.
      * simpl. rewrite Hw, Hb. lia.
      * unfold covers_bytes_of, cv. simpl. rewrite Hw, Nat2Z.id. unfold byte_len.
        split_and!; [lia| |lia]. rewrite Hr. destruct (strip_cr_prefix raw) as [k Hk].
        rewrite Hk at 2. rewrite <-app_assoc. apply take_app_length.
  - unfold settles_one, cv. simpl. rewrite bool_decide_true by done. rewrite !Z.eqb_refl. simpl.
    by rewrite bool_decide_true.
Qed.

(** A live failure settles exactly the starts that were on disk: the
    failure peek arms covers for an agent, and when the grown file is opened by
    the next poll, every [started] record of the agent that a poll at the
    moment of the failure would have folded is settled by those covers, and no
    record that begins after the bytes the peek saw is. *)
Theorem peek_settles_exactly_the_starts_on_disk agent_id fid t c o1 o2 t1 fresh t1' ls1 t2 ls2 :
  caught_up sha256 fid t c → appended fid c [o1; o2] →
  unread_start sha256 json_value json_string agent_id (Some o1) t = (t1, Ok fresh) →
  poll sha256 (Some o1) t = (t1', Ok ls1) → poll sha256 (Some o2) t1 = (t2, Ok ls2) →
  (∀ line cur, (line, cur) ∈ ls1 → started_by json_value agent_id line = true →
     settles agent_id (cur_generation cur) (cur_offset cur) (cur_digest cur) line (t_covers t2) = true)
  ∧ (∀ g off d line, byte_len (o_read o1) ≤ off → settles agent_id g off d line (t_covers t2) = false).
Proof.
  intros Hcu Happ Hpeek Hp1 Hp2.
  destruct (peek_then_poll _ _ _ _ _ _ _ _ _ _ Hcu Happ Hpeek Hp2) as (ta & obs & Ha & Hpk).
  split; [|by intros; eapply peeked_late]. intros line cur Hin Hst.
  unfold poll in Hp1. rewrite st_bind_eq, Ha, st_bind_eq in Hp1. simpl in Hp1.
  destruct (split_lines 0 [] (drop (consumed c) (o_read o1))) as [ls e] eqn:Hls.
  assert (ls1 = omap (cursor_of sha256 ta) ls) as ->.
  { rewrite st_bind_eq in Hp1. simpl in Hp1. rewrite st_bind_eq in Hp1.
    destruct (refresh_prefix _ _ _) as [? [?|?]]; [rewrite st_ret_eq in Hp1|]; by simplify_eq. }
  apply list_elem_of_omap in Hin as ([i raw] & Hin & Hcur).
  unfold cursor_of in Hcur. simpl in Hcur. case_decide; [done|]. injection Hcur as <- <-.
  eapply peeked_settles_line; [exact Hpk|by rewrite Hls|done].
Qed.
End Peek.

(** ** Witnesses *)

(** A digest that is the identity, and a parser that knows one record. *)
Definition w_sha (b : list Z) : list Z := b.
Definition w_fid : FileId := mkFileId 1 2.
Definition w_line : list Z := [123; 115; 125].
Definition w_json (b : list Z) : option Value :=
  if decide (b = w_line)
  then Some (VObject [("type"%string, VString "started"); ("agentId"%string, VString "a1")])
  else None.

(** A record, then half of a second one; later its end and a third. *)
Definition w_content1 : list Z := w_line ++ [13; 10] ++ [123; 120].
Definition w_content2 : list Z := w_content1 ++ [125; 10] ++ w_line ++ [10].
Definition w_open1 : Opening := mkOpening w_fid (take 4 w_content1) w_content1 w_content1.
Definition w_open2 : Opening := mkOpening w_fid w_content1 w_content2 w_content2.

Lemma w_appended : appended w_fid [] [w_open1; w_open2].
Proof.
  cbn. split_and!; try done; try (split; vm_compute; congruence);
    try apply prefix_nil; by eexists.
Qed.

Lemma polls_witness :
  ∃ t ls, polls w_sha [w_open1; w_open2] (tail_new "p" "obj_1") = (t, Ok ls) ∧ t_generation t = 1 ∧
    ls.*1 = [w_line; [123; 120; 125]; w_line].
Proof.
  destruct (polls_fold_every_line_exactly_once w_sha "p" "obj_1" w_fid [w_open1; w_open2] w_appended)
    as (t & ls & H1 & H2 & H3 & _). exists t, ls. split; [exact H1|]. split; [exact H2|].
  rewrite H3. vm_compute. reflexivity.
Defined.

(** The tail after one poll, then another inode at the path. *)
Definition w_tail : FileTail := (poll w_sha (Some w_open1) (tail_new "p" "obj_1")).1.
Definition w_replaced : Opening := mkOpening (mkFileId 1 3) w_content1 w_content1 w_content1.

Lemma rotation_witness :
  ∃ t', poll w_sha (Some w_replaced) w_tail
        = (t', Ok (file_lines w_sha (identity w_tail) (t_generation w_tail + 1) w_content1)) ∧
    t_generation t' = t_generation w_tail + 1 ∧ t_offset t' = Z.of_nat (consumed w_content1) ∧
    t_file_id t' = Some (mkFileId 1 3) ∧ t_covers t' = [].
Proof.
  apply (rotation_rereads_the_new_file w_sha w_tail w_replaced).
  - vm_compute. reflexivity.
  - split; vm_compute; congruence.
  - vm_compute. reflexivity.
  - by eexists [].
  - split; vm_compute; congruence.
  - vm_compute. constructor.
Defined.

Definition w_peeked : FileTail :=
  (unread_start w_sha w_json (λ _, None) "a1" (Some w_open1) (tail_new "p" "obj_1")).1.

Lemma peek_witness :
  settles "a1" 1 0 (digest_of w_sha w_line) w_line
    (t_covers (poll w_sha (Some w_open2) w_peeked).1) = true ∧
  settles "a1" 1 9 (digest_of w_sha w_line) w_line
    (t_covers (poll w_sha (Some w_open2) w_peeked).1) = false.
Proof.
  destruct (peek_settles_exactly_the_starts_on_disk w_sha w_json (λ _, None) "a1" w_fid
    (tail_new "p" "obj_1") [] w_open1 w_open2 w_peeked
    [cover_complete w_sha "a1" w_fid 1 0 w_line; cover_pending w_sha "a1" w_fid 1 5 7 [123; 120]]
    w_tail [(w_line, mkCursor "obj_1" 1 0 3 (digest_of w_sha w_line))]
    (poll w_sha (Some w_open2) w_peeked).1
    [(w_line, mkCursor "obj_1" 1 0 3 (digest_of w_sha w_line));
     ([123; 120; 125], mkCursor "obj_1" 1 5 3 (digest_of w_sha [123; 120; 125]));
     (w_line, mkCursor "obj_1" 1 9 3 (digest_of w_sha w_line))]) as [H1 H2].
  - by split; [..|left].
  - apply w_appended.
  - vm_compute. reflexivity.
  - vm_compute. reflexivity.
  - vm_compute. reflexivity.
  - split.
    + apply (H1 w_line (mkCursor "obj_1" 1 0 3 (digest_of w_sha w_line)));
        [apply list_elem_of_here|vm_compute; reflexivity].
    + apply H2. vm_compute. discriminate.
Defined.
