(* ===== verification/NodeStore.v ===== *)
(** * The Node's command ledger: [remuda-node/src/store.rs] and the settlement
    helpers of [remuda-node/src/runtime.rs]

    The in-memory [MemoryStore] is the authority every read of the Node goes
    to; it is modelled as one state ([MemoryState]) threaded through the
    methods of [LocalStore] that concern instances, commands and the
    observation ledger.  [timestamp_now] is an argument [now].  The optional
    write-through SQLite adapter ([entities]) and the durable journal
    ([durable]) are not part of this model; the durable journal has its own
    component.  Entity fields that no modelled function reads or writes are
    left out of the records. *)
From stdpp Require Import base list gmap strings numbers.
From S2P Require Import Prelude Text.
Local Open Scope Z_scope.

Abbreviation InstanceId := string (only parsing).
Abbreviation CommandId := string (only parsing).

(** ** Protocol enums ([remuda-protocol/src/enums.rs]) *)

Inductive InstanceLifecycle : Type :=
| Requested | Preparing | Starting | Ready | Closing | Exited | Failed | LifecycleUnknown
| Reconciling.

Inductive Activity : Type := Idle | Working | WaitingInteraction | Draining.

Inductive CommandOrigin : Type := OriginUi | OriginBot | OriginMcp | OriginCli | OriginSystem.

Inductive CommandOperation : Type :=
| InstanceCreate | InstanceAttach | InstanceOpenTerminal | InstanceResume | InstanceSend
| InstanceCancel | InstanceClose | InstanceFork | InstanceConfigure | InteractionRespond
| TtyWrite | WorkspaceRegister | WorktreeCreate | WorktreeRemove.

Inductive CommandState : Type := Queued | Accepted | Settled.

Inductive DispatchState : Type :=
| NotDispatched | IntentDurable | TransportWritten | NativeAcknowledged.

Inductive ResolutionState : Type := ResClear | ResUnknown | ResReconciling.

Inductive AcceptanceScope : Type := NativeInput | NativeControl | RuntimeResource | TtyBytes.

Inductive SettlementOutcome : Type :=
| Completed | Rejected | Cancelled | Expired | Withheld | WithdrawnOutcome.

Inductive ExecutionState : Type :=
| ExecNotDispatched | PossiblyDispatched | ExecAccepted | ExecSettled | ExecNotApplicable.

Inductive PromptMode : Type := NewTurn | Steer | Queue.

Inductive InputOrigin : Type := InHuman | InBot | InAgent | InHub.

Inductive MessageOrigin : Type :=
| MsgHuman | MsgInjectedSkill | MsgInjectedCommandOutput | MsgHookContext | MsgToolResult
| MsgCompaction | MsgHub | MsgUnknown.

Inductive MessageRole : Type := RoleUser | RoleAssistant | RoleSystem.

Inductive SourceChannel : Type :=
| ChStdout | ChStderr | ChTranscript | ChWorkflowJournal | ChHook | ChRpc | ChPty | ChHerdr
| ChRuntime | ChFile | ChOsc | ChScreen.

Inductive ContentStatus : Type :=
| StatusQueued | StatusStreaming | StatusComplete | StatusInterrupted | StatusUnknown.

Inductive Severity : Type := SevInfo | SevWarning | SevError.

Inductive RootTurnContinuation : Type :=
| ContinuationFresh | ContinuationNative | ContinuationHub | ContinuationUnknown.

#[export] Instance InstanceLifecycle_eq_dec : EqDecision InstanceLifecycle.
Proof. solve_decision. Defined.
#[export] Instance Activity_eq_dec : EqDecision Activity.
Proof. solve_decision. Defined.
#[export] Instance CommandOrigin_eq_dec : EqDecision CommandOrigin.
Proof. solve_decision. Defined.
#[export] Instance CommandOperation_eq_dec : EqDecision CommandOperation.
Proof. solve_decision. Defined.
#[export] Instance CommandState_eq_dec : EqDecision CommandState.
Proof. solve_decision. Defined.
#[export] Instance DispatchState_eq_dec : EqDecision DispatchState.
Proof. solve_decision. Defined.
#[export] Instance SettlementOutcome_eq_dec : EqDecision SettlementOutcome.
Proof. solve_decision. Defined.
#[export] Instance ExecutionState_eq_dec : EqDecision ExecutionState.
Proof. solve_decision. Defined.
#[export] Instance PromptMode_eq_dec : EqDecision PromptMode.
Proof. solve_decision. Defined.
#[export] Instance InputOrigin_eq_dec : EqDecision InputOrigin.
Proof. solve_decision. Defined.
#[export] Instance MessageOrigin_eq_dec : EqDecision MessageOrigin.
Proof. solve_decision. Defined.
#[export] Instance MessageRole_eq_dec : EqDecision MessageRole.
Proof. solve_decision. Defined.
#[export] Instance SourceChannel_eq_dec : EqDecision SourceChannel.
Proof. solve_decision. Defined.
#[export] Instance ContentStatus_eq_dec : EqDecision ContentStatus.
Proof. solve_decision. Defined.
#[export] Instance Severity_eq_dec : EqDecision Severity.
Proof. solve_decision. Defined.
#[export] Instance RootTurnContinuation_eq_dec : EqDecision RootTurnContinuation.
Proof. solve_decision. Defined.

(** ** Entities *)

(** [struct RootTurn] and [struct Initiator] ([remuda-protocol/src/initiator.rs]);
    the generation is an [i64]. *)
Record RootTurn : Type := mkRootTurn {
  rt_command_id : string;
  rt_origin : InputOrigin;
  rt_continuation : RootTurnContinuation;
}.

Record Initiator : Type := mkInitiator {
  ini_instance_id : string;
  ini_lineage_id : string;
  ini_generation : Z;
  ini_root_turn : option RootTurn;
}.

(** [struct RuntimeError]: the two fields that vary (the code, the retry action
    and the details are constants of [runtime_error]). *)
Record RuntimeError : Type := mkRuntimeError {
  err_message : string;
  err_execution : ExecutionState;
}.

(** [struct Settlement]. *)
Record Settlement : Type := mkSettlement {
  outcome : SettlementOutcome;
  result_ref : option string;
  error : option RuntimeError;
}.

(** [struct Command]. *)
Record Command : Type := mkCommand {
  command_id : CommandId;
  cmd_origin : CommandOrigin;
  initiator : option Initiator;
  operation : CommandOperation;
  target_instance : option InstanceId;
  payload_digest : string;
  cmd_state : CommandState;
  dispatch : DispatchState;
  resolution : ResolutionState;
  acceptance : Knowledge AcceptanceScope;
  settlement : Knowledge Settlement;
  accepted_at : Knowledge string;
  settled_at : Knowledge string;
  cmd_revision : Z;
  cmd_updated_at : string;
}.

(** [struct NodeMutation] and [struct MessagePayload]. *)
Inductive MutationOperation : Type := MutOpen | MutAppend | MutReplace | MutClose.

Record NodeMutation : Type := mkMutation {
  node_id : string;
  mut_revision : Z;
  mut_operation : MutationOperation;
  base_revision : option Z;
}.

Inductive ContentBlock : Type :=
| TextBlock (t : text)
| OtherBlock (uri : string).

Record MessagePayload : Type := mkMessage {
  mutation : NodeMutation;
  message_id : string;
  role : MessageRole;
  blocks : list ContentBlock;
  msg_origin : option MessageOrigin;
  msg_command_id : option CommandId;
  prompt_mode : option PromptMode;
  status : ContentStatus;
}.

(** [struct NativeLifecycle] as [DriverEmission::into_payload] builds it
    (topic [diagnostic], no native id). *)
Record NativeLifecycle : Type := mkNative {
  native_name : string;
  native_status : string;
  related_ids : gmap string text;
  severity : Severity;
}.

(** The observation payloads the modelled code appends. *)
Inductive ObservationPayload : Type :=
| OMessage (m : MessagePayload)
| OCommandLifecycle (c : Command) (entity_state : string)
| OInstanceLifecycle (i : string) (previous_state : option string) (entity_state reason : string)
| ONative (n : NativeLifecycle)
| OOther (payload_kind : string).

(** [struct Observation]: the journal-assigned sequence number and the body. *)
Record Observation : Type := mkObservation {
  seq : Z;
  observed_at : string;
  body : ObservationPayload;
}.

(** [struct Instance]. *)
Record Instance : Type := mkInstance {
  inst_id : InstanceId;
  journal_id : string;
  host_id : string;
  lifecycle : InstanceLifecycle;
  activity : Knowledge Activity;
  active_run_ids : list string;
  durable_seq : Z;
  exit : Knowledge string;
  inst_revision : Z;
  inst_updated_at : string;
}.

(** [struct InstanceRecord] (the broadcast sender is left out). *)
Record InstanceRecord : Type := mkRecord {
  instance : Instance;
  command_ids : list CommandId;
  events : list Observation;
}.

(** [struct MemoryState]. *)
Record MemoryState : Type := mkState {
  instances : gmap InstanceId InstanceRecord;
  commands : gmap CommandId Command;
  journal_instances : gmap string InstanceId;
}.

(** [enum NodeError]: the variants the modelled code returns. *)
Inductive NodeError : Type :=
| NotFound (entity id : string)
| Conflict (msg : string)
| InvalidRequest (msg : string)
| DriverUnavailable
| Fenced
| Sqlite
| Wire (msg : string).

Abbreviation node A := (st MemoryState NodeError A) (only parsing).

(** ** Field updates *)

Definition set_record (i : InstanceId) (r : InstanceRecord) (s : MemoryState) : MemoryState :=
  mkState (<[i := r]> (instances s)) (commands s) (journal_instances s).
Definition set_command (c : Command) (s : MemoryState) : MemoryState :=
  mkState (instances s) (<[command_id c := c]> (commands s)) (journal_instances s).

(** ** [LocalStore for MemoryStore] *)

(** [insert_instance]. *)
Definition insert_instance (x : Instance) : node unit :=
  s ← st_get;
  if decide (is_Some (instances s !! inst_id x)) then st_fail (Conflict "instance already exists")
  else if decide (is_Some (journal_instances s !! journal_id x))
  then st_fail (Conflict "journal already has an owner")
  else st_put (mkState (<[inst_id x := mkRecord x [] []]> (instances s)) (commands s)
                 (<[journal_id x := inst_id x]> (journal_instances s))).

(** [list_instances]: the [BTreeMap]'s values in key order. *)
Definition list_instances : node (list Instance) :=
  s ← st_get; mret ((λ p, instance p.2) <$> btree_to_list (instances s)).

(** [get_instance]. *)
Definition get_record (i : InstanceId) : node InstanceRecord :=
  s ← st_get; st_lift (ok_or (instances s !! i) (NotFound "instance" i)).
Definition get_instance (i : InstanceId) : node Instance :=
  r ← get_record i; mret (instance r).

(** [remove_instance]. *)
Definition remove_instance (i : InstanceId) : node bool :=
  s ← st_get;
  match instances s !! i with
  | None => mret false
  | Some r =>
      _ ← st_put (mkState (delete i (instances s))
             (foldr delete (commands s) (command_ids r))
             (delete (journal_id (instance r)) (journal_instances s)));
      mret true
  end.

(** [set_instance_state]. *)
Definition set_instance_state (now : string) (i : InstanceId)
    (lc : option InstanceLifecycle) (act : option (Knowledge Activity)) : node Instance :=
  r ← get_record i;
  let x := instance r in
  let lc' := default (lifecycle x) lc in
  let exit' :=
    match lc, exit x with
    | Some Exited, Known _ => exit x
    | Some Exited, _ => Known now
    | _, _ => exit x
    end in
  let x' := mkInstance (inst_id x) (journal_id x) (host_id x) lc' (default (activity x) act)
    (match lc' with Exited | Failed => [] | _ => active_run_ids x end)
    (durable_seq x) exit' (saturating_add64 (inst_revision x) 1) now in
  _ ← st_modify (set_record i (mkRecord x' (command_ids r) (events r)));
  mret x'.

(** [set_instance_failure] (the connectivity and the [last_error] text, which no
    modelled function reads, are left out). *)
Definition set_instance_failure (now : string) (i : InstanceId) (last_error : string)
    : node Instance :=
  r ← get_record i;
  let x := instance r in
  let x' := mkInstance (inst_id x) (journal_id x) (host_id x) Failed (Unknown last_error) []
    (durable_seq x) (exit x) (saturating_add64 (inst_revision x) 1) now in
  _ ← st_modify (set_record i (mkRecord x' (command_ids r) (events r)));
  mret x'.

(** [insert_command]: idempotent by command id and content. *)
Definition insert_command (i : InstanceId) (c : Command) : node bool :=
  s ← st_get;
  match commands s !! command_id c with
  | Some existing =>
      if decide (payload_digest existing = payload_digest c ∧ operation existing = operation c ∧
                 target_instance existing = Some i)
      then mret false
      else st_fail (Conflict "command was reused with different content")
  | None =>
      r ← get_record i;
      _ ← st_modify (set_record i
            (mkRecord (instance r) (command_ids r ++ [command_id c]) (events r)));
      _ ← st_modify (set_command c);
      mret true
  end.

(** [get_command]. *)
Definition get_command (c : CommandId) : node Command :=
  s ← st_get; st_lift (ok_or (commands s !! c) (NotFound "command" c)).

(** [save_command]: a revision never moves backwards. *)
Definition save_command (c : Command) : node unit :=
  existing ← get_command (command_id c);
  if (cmd_revision c <? cmd_revision existing)
  then st_fail (Conflict "command revision moved backwards")
  else st_modify (set_command c).

(** [close_requested], the in-memory arm. *)
Definition pending_close (c : Command) : bool :=
  bool_decide (operation c = InstanceClose) &&
  match cmd_state c with Queued | Accepted => true | Settled => false end.
Definition close_requested (i : InstanceId) : node bool :=
  s ← st_get;
  mret (existsb (λ p, pending_close p.2 && bool_decide (target_instance p.2 = Some i))
          (map_to_list (commands s))).

(** [mark_unsettled_unknown]. *)
Definition mark_unknown (now : string) (c : Command) : Command :=
  if decide (cmd_state c = Settled) then c else
  mkCommand (command_id c) (cmd_origin c) (initiator c) (operation c) (target_instance c)
    (payload_digest c) (cmd_state c) (dispatch c) ResUnknown (acceptance c) (settlement c)
    (accepted_at c) (settled_at c) (saturating_add64 (cmd_revision c) 1) now.
Definition mark_unsettled_unknown (now : string) (i : InstanceId) : node unit :=
  r ← get_record i;
  st_modify (λ s, mkState (instances s)
    (foldl (λ m c, alter (mark_unknown now) c m) (commands s) (command_ids r))
    (journal_instances s)).

(** [append_observation] with [in_memory_observation] (no durable journal). *)
Definition append_observation (now : string) (i : InstanceId) (b : ObservationPayload)
    : node Observation :=
  r ← get_record i;
  let x := instance r in
  let event := mkObservation (saturating_add64 (durable_seq x) 1) now b in
  let x' := mkInstance (inst_id x) (journal_id x) (host_id x) (lifecycle x) (activity x)
    (active_run_ids x) (seq event) (exit x) (inst_revision x) now in
  _ ← st_modify (set_record i (mkRecord x' (command_ids r) (events r ++ [event])));
  mret event.

(** [snapshot]: the commands of an instance, in insertion order. *)
Definition snapshot_commands (i : InstanceId) : node (list Command) :=
  r ← get_record i;
  s ← st_get;
  mret (omap (λ c, commands s !! c) (command_ids r)).

(** ** Settlement helpers of [runtime.rs] *)

(** [acceptance_scope]. *)
Definition acceptance_scope (o : CommandOperation) : AcceptanceScope :=
  match o with
  | InstanceCreate => RuntimeResource
  | InstanceSend => NativeInput
  | InstanceCancel | InstanceClose | InteractionRespond => NativeControl
  | _ => RuntimeResource
  end.

(** [accept_command]. *)
Definition accept_command (now : string) (c : Command) : Command :=
  mkCommand (command_id c) (cmd_origin c) (initiator c) (operation c) (target_instance c)
    (payload_digest c) Accepted IntentDurable (resolution c)
    (Known (acceptance_scope (operation c))) (settlement c) (Known now) (settled_at c)
    (saturating_add64 (cmd_revision c) 1) now.

(** [settle_command] and [runtime_error]. *)
Definition settle_command (now : string) (o : SettlementOutcome) (message : option string)
    (execution : ExecutionState) (c : Command) : Command :=
  mkCommand (command_id c) (cmd_origin c) (initiator c) (operation c) (target_instance c)
    (payload_digest c) Settled (dispatch c) ResClear (acceptance c)
    (Known (mkSettlement o None ((λ m, mkRuntimeError m execution) <$> message)))
    (accepted_at c) (Known now) (saturating_add64 (cmd_revision c) 1) now.

(** [append_command_lifecycle]. *)
Definition append_command_lifecycle (now : string) (i : InstanceId) (c : Command)
    (entity_state : string) : node unit :=
  _ ← append_observation now i (OCommandLifecycle c entity_state); mret tt.

(** [settle_without_driver]. *)
Definition settle_without_driver (now : string) (i : InstanceId) (c : Command) : node Command :=
  let c' := settle_command now Completed None ExecNotDispatched c in
  _ ← save_command c';
  _ ← append_command_lifecycle now i c' "settled";
  mret c'.

(** [reject_before_dispatch]. *)
Definition reject_before_dispatch (now : string) (i : InstanceId) (c : Command) (reason : string)
    : node Command :=
  let c' := settle_command now Rejected (Some reason) ExecNotDispatched c in
  _ ← save_command c';
  _ ← append_command_lifecycle now i c' "settled";
  mret c'.

(** ** Executions of the ledger

    Every method takes the store's lock for its whole body, so an execution is
    a sequence of operations. *)

Inductive store_op : Type :=
| SInsertInstance (x : Instance)
| SRemoveInstance (i : InstanceId)
| SSetState (now : string) (i : InstanceId) (lc : option InstanceLifecycle)
    (act : option (Knowledge Activity))
| SSetFailure (now : string) (i : InstanceId) (last_error : string)
| SInsertCommand (i : InstanceId) (c : Command)
| SSaveCommand (c : Command)
| SMarkUnknown (now : string) (i : InstanceId)
| SAppend (now : string) (i : InstanceId) (b : ObservationPayload).

Definition store_step (o : store_op) (s : MemoryState) : MemoryState :=
  match o with
  | SInsertInstance x => (insert_instance x s).1
  | SRemoveInstance i => (remove_instance i s).1
  | SSetState now i lc act => (set_instance_state now i lc act s).1
  | SSetFailure now i e => (set_instance_failure now i e s).1
  | SInsertCommand i c => (insert_command i c s).1
  | SSaveCommand c => (save_command c s).1
  | SMarkUnknown now i => (mark_unsettled_unknown now i s).1
  | SAppend now i b => (append_observation now i b s).1
  end.

Definition store_run (os : list store_op) (s : MemoryState) : MemoryState :=
  foldl (λ s o, store_step o s) s os.

Definition empty_store : MemoryState := mkState ∅ ∅ ∅.

(** The machine-width facts the Rust types give for free. *)
Definition op_in_range (o : store_op) : Prop :=
  match o with
  | SInsertInstance x => is_u64 (durable_seq x)
  | SInsertCommand _ c | SSaveCommand c => is_u64 (cmd_revision c)
  | _ => True
  end.

(** ** The ledger invariant *)

(** The events of an instance are numbered consecutively from the sequence the
    instance was inserted with, and [durable_seq] is the last number used
    (both saturate at [u64::MAX]). *)
Definition events_contiguous (r : InstanceRecord) : Prop :=
  ∃ base, is_u64 base ∧
    (∀ k e, events r !! k = Some e → seq e = Z.min (base + Z.of_nat k + 1) u64_max) ∧
    durable_seq (instance r) = Z.min (base + Z.of_nat (length (events r))) u64_max.

(** Instance [i] lists command [c]. *)
Definition owns (s : MemoryState) (i : InstanceId) (c : CommandId) : Prop :=
  ∃ r, instances s !! i = Some r ∧ c ∈ command_ids r.

Record store_wf (s : MemoryState) : Prop := {
  wf_events : ∀ i r, instances s !! i = Some r → events_contiguous r;
  wf_inst : ∀ i r, instances s !! i = Some r → inst_id (instance r) = i;
  wf_nodup : ∀ i r, instances s !! i = Some r → NoDup (command_ids r);
  wf_journal : ∀ i r, instances s !! i = Some r →
    journal_instances s !! journal_id (instance r) = Some i;
  wf_owned : ∀ c, is_Some (commands s !! c) ↔ ∃ i, owns s i c;
  wf_unique : ∀ i j c, owns s i c → owns s j c → i = j;
  wf_key : ∀ c x, commands s !! c = Some x → command_id x = c ∧ is_u64 (cmd_revision x);
}.

(** *** How each write changes ownership *)

(** Replacing a record by one with the same command list keeps ownership. *)
Lemma owns_set_record s i r r' j c :
  instances s !! i = Some r → command_ids r' = command_ids r →
  owns (set_record i r' s) j c ↔ owns s j c.
Proof.
  intros Hr Hc. unfold owns; simpl. destruct (decide (i = j)) as [<-|Hne].
  - rewrite lookup_insert_eq. split.
    + intros (? & [= <-] & ?). exists r. by rewrite <-Hc.
    + intros (? & H1 & H2). simplify_eq. exists r'. by rewrite Hc.
  - by rewrite lookup_insert_ne.
Qed.

(** Such a replacement keeps the invariant when it keeps the journal id and the
    numbering. *)
Lemma wf_set_record s i r r' :
  store_wf s → instances s !! i = Some r → command_ids r' = command_ids r →
  inst_id (instance r') = inst_id (instance r) → journal_id (instance r') = journal_id (instance r) → events_contiguous r' →
  store_wf (set_record i r' s).
Proof.
  intros [We Wi Wn Wj Wo Wu Wk] Hr Hc Hid Hj He.
  assert (∀ j r0, instances (set_record i r' s) !! j = Some r0 →
    (j = i ∧ r0 = r') ∨ instances s !! j = Some r0) as Hlk.
  { simpl. intros j r0 [[<- <-]|[_ ?]]%lookup_insert_Some; eauto. }
  split; simpl in *.
  - intros j r0 [[-> ->]|?]%Hlk; eauto.
  - intros j r0 [[-> ->]|?]%Hlk; [rewrite Hid|]; eauto.
  - intros j r0 [[-> ->]|?]%Hlk; [rewrite Hc|]; eauto.
  - intros j r0 [[-> ->]|?]%Hlk; [rewrite Hj|]; eauto.
  - intros c. rewrite Wo. by setoid_rewrite (owns_set_record s i r r' _ c Hr Hc).
  - intros j k c. rewrite !(owns_set_record s i r r' _ c Hr Hc). apply Wu.
  - done.
Qed.

(** Rewriting commands in place keeps the invariant. *)
Lemma wf_set_commands s m :
  store_wf s → (∀ c, is_Some (m !! c) ↔ is_Some (commands s !! c)) →
  (∀ c x, m !! c = Some x → command_id x = c ∧ is_u64 (cmd_revision x)) →
  store_wf (mkState (instances s) m (journal_instances s)).
Proof.
  intros [We Wi Wn Wj Wo Wu Wk] Hdom Hk. split; simpl; [done..| |done|done].
  intros c. rewrite Hdom. apply Wo.
Qed.

(** *** Each operation preserves the invariant *)

Lemma get_record_eq i s :
  get_record i s = (s, ok_or (instances s !! i) (NotFound "instance" i)).
Proof. done. Qed.

Lemma insert_instance_wf x s :
  is_u64 (durable_seq x) → store_wf s → store_wf (insert_instance x s).1.
Proof.
  intros Hx W. unfold insert_instance. rewrite st_bind_eq; simpl.
  case_decide as Hi; [done|]. case_decide as Hj; [done|]. simpl.
  rewrite <-!eq_None_not_Some in *. destruct W as [We Wi Wn Wj Wo Wu Wk].
  assert (∀ j c, owns (mkState (<[inst_id x := mkRecord x [] []]> (instances s)) (commands s)
    (<[journal_id x := inst_id x]> (journal_instances s))) j c ↔ owns s j c) as Hown.
  { intros j c. unfold owns; simpl. destruct (decide (inst_id x = j)) as [<-|Hne].
    - rewrite lookup_insert_eq, Hi. split; [intros (? & [= <-] & []%not_elem_of_nil)|naive_solver].
    - by rewrite lookup_insert_ne. }
  split; simpl.
  - intros i r [[<- <-]|[_ ?]]%lookup_insert_Some; [|eauto].
    exists (durable_seq x). split_and!; [done| |]; simpl; [done|]. unfold is_u64 in Hx. lia.
  - intros i r [[<- <-]|[_ ?]]%lookup_insert_Some; [done|eauto].
  - intros i r [[<- <-]|[_ ?]]%lookup_insert_Some; [constructor|eauto].
  - intros i r [[<- <-]|[? Hr]]%lookup_insert_Some; simpl; [apply lookup_insert_eq|].
    rewrite lookup_insert_ne; [eauto|]. intros Heq. apply Wj in Hr. congruence.
  - intros c. rewrite Wo. by setoid_rewrite Hown.
  - intros i j c. rewrite !Hown. apply Wu.
  - done.
Qed.

Lemma lookup_foldr_delete (ks : list CommandId) (m : gmap CommandId Command) c x :
  foldr delete m ks !! c = Some x ↔ m !! c = Some x ∧ c ∉ ks.
Proof.
  induction ks as [|k ks IH]; simpl.
  - set_solver.
  - rewrite lookup_delete_Some, IH, not_elem_of_cons. naive_solver.
Qed.

Lemma remove_instance_wf i s : store_wf s → store_wf (remove_instance i s).1.
Proof.
  intros W. unfold remove_instance. rewrite st_bind_eq; simpl.
  destruct (instances s !! i) as [r|] eqn:Hr; [|done]. simpl.
  destruct W as [We Wi Wn Wj Wo Wu Wk].
  assert (∀ j c, owns (mkState (delete i (instances s)) (foldr delete (commands s) (command_ids r))
    (delete (journal_id (instance r)) (journal_instances s))) j c ↔ j ≠ i ∧ owns s j c) as Hown.
  { intros j c. unfold owns; simpl. setoid_rewrite lookup_delete_Some. naive_solver. }
  split; simpl.
  - intros j r0 [_ ?]%lookup_delete_Some; eauto.
  - intros j r0 [_ ?]%lookup_delete_Some; eauto.
  - intros j r0 [_ ?]%lookup_delete_Some; eauto.
  - intros j r0 [Hne Hj]%lookup_delete_Some. rewrite lookup_delete_ne; [eauto|].
    intros Heq. apply Wj in Hj. apply Wj in Hr. congruence.
  - intros c. split.
    + intros [x [Hx Hn]%lookup_foldr_delete]. destruct (proj1 (Wo c)) as [j Hj]; [eauto|].
      exists j. rewrite Hown. split; [|done]. intros ->. destruct Hj as (? & ? & ?). naive_solver.
    + intros [j [Hne Hj]%Hown]. destruct (proj2 (Wo c)) as [x Hx]; [eauto|]. exists x.
      apply lookup_foldr_delete. split; [done|]. intros Hin. apply Hne, (Wu _ _ c); [done|by exists r].
  - intros j k c [_ ?]%Hown [_ ?]%Hown. eauto.
  - intros c x [? _]%lookup_foldr_delete. eauto.
Qed.

Lemma set_instance_state_wf now i lc act s :
  store_wf s → store_wf (set_instance_state now i lc act s).1.
Proof.
  intros W. unfold set_instance_state. rewrite st_bind_eq, get_record_eq.
  destruct (instances s !! i) as [r|] eqn:Hr; [|done]. simpl.
  apply wf_set_record with r; [done..|]. by apply (wf_events s W i r).
Qed.

Lemma set_instance_failure_wf now i e s :
  store_wf s → store_wf (set_instance_failure now i e s).1.
Proof.
  intros W. unfold set_instance_failure. rewrite st_bind_eq, get_record_eq.
  destruct (instances s !! i) as [r|] eqn:Hr; [|done]. simpl.
  apply wf_set_record with r; [done..|]. by apply (wf_events s W i r).
Qed.

Lemma append_observation_wf now i b s :
  store_wf s → store_wf (append_observation now i b s).1.
Proof.
  intros W. unfold append_observation. rewrite st_bind_eq, get_record_eq.
  destruct (instances s !! i) as [r|] eqn:Hr; [|done]. simpl.
  apply wf_set_record with r; [done..|].
  destruct (wf_events s W i r Hr) as (base & Hb & Hn & Hd). exists base.
  unfold is_u64, saturating_add64 in *. split_and!; simpl; [lia|lia| |].
  - intros k e [Hk|[Hk He]]%lookup_app_Some; [by apply Hn|].
    apply list_lookup_singleton_Some in He as [Hk0 <-]. simpl. rewrite Hd. lia.
  - rewrite Hd, length_app. simpl. lia.
Qed.

Lemma insert_command_wf i c s :
  is_u64 (cmd_revision c) → store_wf s → store_wf (insert_command i c s).1.
Proof.
  intros Hc W. unfold insert_command. rewrite st_bind_eq; simpl.
  destruct (commands s !! command_id c) as [x|] eqn:Hx; [by case_decide|].
  rewrite st_bind_eq, get_record_eq. destruct (instances s !! i) as [r|] eqn:Hr; [|done]. simpl.
  destruct W as [We Wi Wn Wj Wo Wu Wk].
  assert (¬ ∃ j, owns s j (command_id c)) as Hfree by (rewrite <-Wo, Hx; by intros []).
  set (s' := set_command c (set_record i _ s)).
  assert (∀ j d, owns s' j d ↔ owns s j d ∨ (j = i ∧ d = command_id c)) as Hown.
  { intros j d. unfold owns; simpl. destruct (decide (i = j)) as [<-|Hne].
    - rewrite lookup_insert_eq. split.
      + intros (? & [= <-] & [?|?]%elem_of_app); [eauto|].
        right. split; [done|]. by apply list_elem_of_singleton.
      + intros [(? & ? & ?)|[_ ->]]; simplify_eq; eexists; (split; [done|]); set_solver.
    - rewrite lookup_insert_ne by done. naive_solver. }
  unfold set_command, set_record in s'. split; subst s'; simpl.
  - intros j r0 [[<- <-]|[_ ?]]%lookup_insert_Some; [|eauto]. exact (We i r Hr).
  - intros j r0 [[<- <-]|[_ ?]]%lookup_insert_Some; [|eauto]. exact (Wi i r Hr).
  - intros j r0 [[<- <-]|[_ ?]]%lookup_insert_Some; [|eauto]. simpl.
    apply list.NoDup_app. split_and!; [eauto| |apply NoDup_singleton].
    intros d Hd Hd'%list_elem_of_singleton. subst d. apply Hfree. by exists i, r.
  - intros j r0 [[<- <-]|[_ ?]]%lookup_insert_Some; simpl; eauto.
  - intros d. setoid_rewrite Hown. simpl. destruct (decide (command_id c = d)) as [<-|Hne].
    + rewrite lookup_insert_eq. naive_solver.
    + rewrite lookup_insert_ne, Wo by done. naive_solver.
  - intros j k d [Hj|[-> ->]]%Hown [Hk|[-> Hk]]%Hown; subst; [eauto| | |done];
      exfalso; apply Hfree; eauto.
  - intros d x [[<- <-]|[_ ?]]%lookup_insert_Some; eauto.
Qed.

Lemma save_command_wf c s :
  is_u64 (cmd_revision c) → store_wf s → store_wf (save_command c s).1.
Proof.
  intros Hc W. unfold save_command, get_command. rewrite !st_bind_eq; simpl.
  destruct (commands s !! command_id c) as [x|] eqn:Hx; [|done]. simpl.
  case_match; [done|]. simpl. apply wf_set_commands; [done|..].
  - intros d. destruct (decide (command_id c = d)) as [<-|]; [|by rewrite lookup_insert_ne].
    rewrite lookup_insert_eq, Hx. by split.
  - intros d y [[<- <-]|[_ ?]]%lookup_insert_Some; [done|]. by apply (wf_key s W).
Qed.

(** What [mark_unsettled_unknown] leaves at each key: repeated marking of a key
    is at least possible for any list, and once for a duplicate-free one. *)
Lemma lookup_mark_all now cs (m : gmap CommandId Command) d :
  foldl (λ m c, alter (mark_unknown now) c m) m cs !! d
  = Nat.iter (length (List.filter (λ c, bool_decide (c = d)) cs)) (mark_unknown now) <$> m !! d.
Proof.
  revert m. induction cs as [|c cs IH]; intros m; simpl.
  - by rewrite option_fmap_id.
  - rewrite IH. case_bool_decide as Hcd; simpl.
    + subst. rewrite lookup_alter_eq, <-option_fmap_compose. destruct (m !! d); [|done]. simpl.
      by rewrite <-Nat.iter_succ_r.
    + by rewrite lookup_alter_ne.
Qed.

Lemma mark_unknown_wf now c : is_u64 (cmd_revision c) →
  command_id (mark_unknown now c) = command_id c ∧ is_u64 (cmd_revision (mark_unknown now c))
  ∧ (cmd_revision c ≤ cmd_revision (mark_unknown now c))%Z.
Proof. intros H. unfold mark_unknown. case_decide; simpl; split_and!; auto with remuda; lia. Qed.

Lemma iter_mark_unknown_wf now k c : is_u64 (cmd_revision c) →
  command_id (Nat.iter k (mark_unknown now) c) = command_id c ∧
  is_u64 (cmd_revision (Nat.iter k (mark_unknown now) c)) ∧
  (cmd_revision c ≤ cmd_revision (Nat.iter k (mark_unknown now) c))%Z.
Proof.
  intros H. induction k as [|k (IH1 & IH2 & IH3)]; simpl; [split_and!; [done|done|lia]|].
  destruct (mark_unknown_wf now _ IH2) as (-> & ? & ?). split_and!; [done|done|lia].
Qed.

Lemma mark_unsettled_unknown_wf now i s :
  store_wf s → store_wf (mark_unsettled_unknown now i s).1.
Proof.
  intros W. unfold mark_unsettled_unknown. rewrite st_bind_eq, get_record_eq.
  destruct (instances s !! i) as [r|] eqn:Hr; [|done]. simpl. apply wf_set_commands; [done|..].
  - intros c. by rewrite lookup_mark_all, fmap_is_Some.
  - intros c x. rewrite lookup_mark_all. intros (y & Hy & ->)%fmap_Some_1.
    destruct (wf_key s W c y Hy) as [<- Hu]. by destruct (iter_mark_unknown_wf now
      (length (List.filter (λ c0, bool_decide (c0 = command_id y)) (command_ids r))) y Hu)
      as (-> & ? & _).
Qed.

Lemma store_step_wf o s : op_in_range o → store_wf s → store_wf (store_step o s).
Proof.
  destruct o; simpl; intros Ho W;
    auto using insert_instance_wf, remove_instance_wf, set_instance_state_wf,
      set_instance_failure_wf, insert_command_wf, save_command_wf, mark_unsettled_unknown_wf, append_observation_wf.
Qed.

Lemma empty_store_wf : store_wf empty_store.
Proof.
  assert (∀ i c, ¬ owns empty_store i c) as Hno.
  { intros i c (r & Hr & _). cbn in Hr. by rewrite lookup_empty in Hr. }
  split; try (intros *; cbn; rewrite lookup_empty; done).
  - intros c. cbn. rewrite lookup_empty. split; [by intros []|]. intros [i []%Hno].
  - intros i j c []%Hno.
Qed.

(** ** What the ledger promises *)

Lemma store_run_wf os s : Forall op_in_range os → store_wf s → store_wf (store_run os s).
Proof.
  revert s. induction os as [|o os IH]; intros s Ho W; simpl; [done|].
  apply Forall_cons_1 in Ho as [Ho Hos]. apply IH; [done|]. by apply store_step_wf.
Qed.

(** C40. Every sequence of ledger operations from the empty store keeps the
    ledger well formed: each instance's journal is numbered consecutively and
    [durable_seq] names its last event, journals and commands have exactly one
    owner, and the command table and the per-instance lists name the same
    commands. *)
Theorem ledger_stays_well_formed (os : list store_op) :
  Forall op_in_range os → store_wf (store_run os empty_store).
Proof. intros Ho. apply store_run_wf; [done|apply empty_store_wf]. Qed.

(** One step never lowers the revision of a command it does not remove. *)
Lemma store_step_revision o s c x :
  store_wf s → op_in_range o → (∀ i, o ≠ SRemoveInstance i) → commands s !! c = Some x →
  ∃ y, commands (store_step o s) !! c = Some y ∧ (cmd_revision x ≤ cmd_revision y)%Z.
Proof.
  intros W Ho Hno Hx. destruct (wf_key s W c x Hx) as [Hid Hu].
  destruct o as [x0|i|now i lc act|now i e|i d|d|now i|now i b]; simpl.
  - exists x. split; [|lia]. unfold insert_instance. rewrite st_bind_eq; simpl.
    by repeat case_decide.
  - by destruct (Hno i).
  - exists x. split; [|lia]. unfold set_instance_state. rewrite st_bind_eq, get_record_eq.
    by destruct (instances s !! i).
  - exists x. split; [|lia]. unfold set_instance_failure. rewrite st_bind_eq, get_record_eq.
    by destruct (instances s !! i).
  - exists x. split; [|lia]. unfold insert_command. rewrite st_bind_eq; simpl.
    destruct (commands s !! command_id d) as [e|] eqn:He; [by case_decide|].
    rewrite st_bind_eq, get_record_eq. destruct (instances s !! i); [|done]. simpl.
    rewrite lookup_insert_ne; [done|]. intros Heq. congruence.
  - unfold save_command, get_command. rewrite !st_bind_eq; simpl.
    destruct (commands s !! command_id d) as [e|] eqn:He; [|exists x; split; [done|lia]]. simpl.
    destruct (Z.ltb_spec (cmd_revision d) (cmd_revision e)) as [Hlt|Hge];
      [exists x; split; [done|lia]|]. simpl.
    destruct (decide (command_id d = c)) as [Heq|Hne].
    + exists d. rewrite Heq, lookup_insert_eq. split; [done|]. congruence.
    + exists x. rewrite lookup_insert_ne by done. split; [done|lia].
  - unfold mark_unsettled_unknown. rewrite st_bind_eq, get_record_eq.
    destruct (instances s !! i) as [r|]; [|exists x; split; [done|lia]]. simpl.
    rewrite lookup_mark_all, Hx. simpl. eexists. split; [done|].
    by apply iter_mark_unknown_wf.
  - exists x. split; [|lia]. unfold append_observation. rewrite st_bind_eq, get_record_eq.
    by destruct (instances s !! i).
Qed.

(** A command's revision never moves backwards: whatever operations run
    (short of removing an instance), a recorded command stays recorded and its
    revision does not decrease. *)
Theorem command_revision_never_moves_backwards (os : list store_op) s c x :
  store_wf s → Forall op_in_range os → (∀ i, SRemoveInstance i ∉ os) →
  commands s !! c = Some x →
  ∃ y, commands (store_run os s) !! c = Some y ∧ (cmd_revision x ≤ cmd_revision y)%Z.
Proof.
  revert s x. induction os as [|o os IH]; intros s x W Ho Hno Hx; simpl.
  - exists x. split; [done|lia].
  - apply Forall_cons_1 in Ho as [Ho Hos].
    destruct (store_step_revision o s c x) as (y & Hy & Hle); [done|done| |done|].
    { intros i ->. apply (Hno i). by left. }
    destruct (IH (store_step o s) y) as (z & Hz & Hle'); [by apply store_step_wf|done| |done|].
    { intros i Hi. apply (Hno i). by right. }
    exists z. split; [done|lia].
Qed.

(** [insert_command] is idempotent by command id and content: after a
    first insertion was accepted, the same command submitted again changes
    nothing and reports [false], and another content under the same id is
    refused and changes nothing. *)
Theorem insert_command_is_idempotent i c d s s' :
  insert_command i c s = (s', Ok true) → target_instance c = Some i →
  command_id d = command_id c →
  insert_command i d s' =
    (s', if decide (payload_digest c = payload_digest d ∧ operation c = operation d)
         then Ok false else Err (Conflict "command was reused with different content")).
Proof.
  unfold insert_command at 1. rewrite st_bind_eq; simpl. intros Hins Ht Hid.
  destruct (commands s !! command_id c) as [x|] eqn:Hx; [by case_decide|].
  rewrite st_bind_eq, get_record_eq in Hins.
  destruct (instances s !! i) as [r|] eqn:Hr; [|done]. simpl in Hins.
  st_steps Hins. simplify_eq/=.
  unfold insert_command. rewrite st_bind_eq; simpl. rewrite Hid, lookup_insert_eq.
  repeat case_decide; naive_solver.
Qed.

(** [reject_before_dispatch] on a recorded command of a known instance settles
    it and journals the settlement. *)
Lemma save_command_ok c e s :
  commands s !! command_id c = Some e → (cmd_revision e ≤ cmd_revision c)%Z →
  save_command c s = (set_command c s, Ok tt).
Proof.
  intros He Hr. unfold save_command, get_command. rewrite !st_bind_eq; simpl.
  rewrite He; simpl. by replace (cmd_revision c <? cmd_revision e)%Z with false by lia.
Qed.

(** Appending an observation does not touch the command table. *)
Lemma append_observation_commands now i b s :
  commands (append_observation now i b s).1 = commands s ∧
  (is_Some (instances s !! i) → is_ok (append_observation now i b s).2 = true).
Proof.
  unfold append_observation. rewrite st_bind_eq, get_record_eq.
  destruct (instances s !! i) as [r|]; simpl; [done|]. split; [done|]. by intros [].
Qed.

Lemma reject_before_dispatch_commands now i c reason s e :
  commands s !! command_id c = Some e → is_u64 (cmd_revision c) →
  (cmd_revision e ≤ cmd_revision c)%Z →
  commands (reject_before_dispatch now i c reason s).1
  = <[command_id c := settle_command now Rejected (Some reason) ExecNotDispatched c]> (commands s).
Proof.
  intros He Hu Hle. unfold reject_before_dispatch. rewrite st_bind_eq.
  rewrite (save_command_ok _ e) by (simpl; pose proof (saturating_succ_ge _ Hu); (done || lia)).
  rewrite st_bind_eq. unfold append_command_lifecycle. rewrite st_bind_eq.
  destruct (append_observation now i _ _) as [s1 [o|er]] eqn:Ha; simpl;
    pose proof (append_observation_commands now i
      (OCommandLifecycle (settle_command now Rejected (Some reason) ExecNotDispatched c) "settled")
      (set_command (settle_command now Rejected (Some reason) ExecNotDispatched c) s)) as [Hc _];
    rewrite Ha in Hc; simpl in Hc; by rewrite Hc.
Qed.

(** *** The monadic helpers keep the invariant *)

Definition in_u64 (c : Command) : Prop := is_u64 (cmd_revision c).

Lemma get_command_wf cid : preserves store_wf (get_command cid) (λ c, command_id c = cid ∧ in_u64 c).
Proof.
  intros s W. unfold get_command. rewrite st_bind_eq. simpl. split; [done|].
  intros c. destruct (commands s !! cid) as [x|] eqn:Hx; simpl; [|done].
  intros [= <-]. by apply (wf_key s W).
Qed.
Lemma save_command_keeps c : in_u64 c → preserves store_wf (save_command c) (λ _, True).
Proof. intros Hc s W. split; [by apply save_command_wf|done]. Qed.
Lemma append_lifecycle_keeps now i c st :
  preserves store_wf (append_command_lifecycle now i c st) (λ _, True).
Proof.
  apply preserves_bind with (λ _, True); [|auto with remuda].
  intros s W. split; [by apply append_observation_wf|done].
Qed.
Lemma settle_command_u64 now o m ex c : in_u64 c → in_u64 (settle_command now o m ex c).
Proof. apply saturating_succ_u64. Qed.
Lemma reject_keeps now i c reason :
  in_u64 c → preserves store_wf (reject_before_dispatch now i c reason) (λ _, True).
Proof.
  intros Hc. eapply preserves_bind; [by apply save_command_keeps, settle_command_u64|].
  intros _ _. eapply preserves_bind; [apply append_lifecycle_keeps|]. auto with remuda.
Qed.
Lemma snapshot_keeps i : preserves store_wf (snapshot_commands i) (λ cs, Forall in_u64 cs).
Proof.
  intros s W. unfold snapshot_commands. rewrite st_bind_eq, get_record_eq.
  destruct (instances s !! i) as [r|]; [|done]. simpl. rewrite ?st_bind_eq. simpl.
  split; [done|]. intros cs [= <-]. apply list.Forall_forall. intros c (d & _ & Hd)%list_elem_of_omap.
  by apply (wf_key s W) in Hd as [_ ?].
Qed.

(** *** Which commands a write can touch *)

Lemma save_command_cases c s :
  commands (save_command c s).1 = commands s ∨
  commands (save_command c s).1 = <[command_id c := c]> (commands s).
Proof.
  unfold save_command, get_command. rewrite !st_bind_eq. simpl.
  destruct (commands s !! command_id c) as [e|]; simpl; [|by left].
  destruct (_ <? _); [by left|by right].
Qed.
Lemma save_journal_cases now i c label s :
  let m := commands ((_ ← save_command c; append_command_lifecycle now i c label) s).1 in
  m = commands s ∨ m = <[command_id c := c]> (commands s).
Proof.
  simpl. rewrite st_bind_eq. pose proof (save_command_cases c s) as Hs.
  destruct (save_command c s) as [s1 [[]|e]]; [|done]. simpl in Hs.
  unfold append_command_lifecycle. rewrite st_bind_eq.
  pose proof (append_observation_commands now i (OCommandLifecycle c label) s1) as [Ha _].
  destruct (append_observation now i _ s1) as [s2 [o|e]]; simpl in *; by rewrite Ha.
Qed.
Lemma save_journal_keeps now i c label :
  in_u64 c →
  preserves store_wf (_ ← save_command c; append_command_lifecycle now i c label) (λ _, True).
Proof.
  intros Hc. eapply preserves_bind; [by apply save_command_keeps|].
  intros _ _. apply append_lifecycle_keeps.
Qed.
Lemma reject_cases now i c reason s :
  commands (reject_before_dispatch now i c reason s).1 = commands s ∨
  commands (reject_before_dispatch now i c reason s).1
    = <[command_id c := settle_command now Rejected (Some reason) ExecNotDispatched c]> (commands s).
Proof.
  unfold reject_before_dispatch. rewrite st_bind_eq.
  pose proof (save_command_cases (settle_command now Rejected (Some reason) ExecNotDispatched c) s)
    as Hs.
  destruct (save_command _ s) as [s1 [[]|e]]; [|done]. simpl in Hs.
  rewrite st_bind_eq. unfold append_command_lifecycle. rewrite st_bind_eq.
  pose proof (append_observation_commands now i
    (OCommandLifecycle (settle_command now Rejected (Some reason) ExecNotDispatched c) "settled") s1)
    as [Ha _].
  destruct (append_observation now i _ s1) as [s2 [o|e]]; simpl in *; by rewrite Ha.
Qed.

(** ** Witnesses *)

Definition w_instance : Instance :=
  mkInstance "inst_1" "jrn_1" "host_1" Ready (Known Idle) [] 0 (Unknown "running") 1 "t0".
Definition w_initiator : Initiator := mkInitiator "inst_0" "lin_1" 3 None.
Definition w_command : Command :=
  mkCommand "cmd_1" OriginMcp (Some w_initiator) InstanceSend (Some "inst_1"%string) "sha256:aa"
    Queued NotDispatched ResClear (Unknown "not-accepted") (Unknown "not-settled")
    (Unknown "not-accepted") (Unknown "not-settled") 1 "t0".
Definition w_ops : list store_op :=
  [SInsertInstance w_instance; SInsertCommand "inst_1" w_command;
   SAppend "t1" "inst_1" (OOther "x"); SAppend "t2" "inst_1" (OOther "y");
   SMarkUnknown "t3" "inst_1"].
Definition w_store : MemoryState := store_run w_ops empty_store.

Lemma w_ops_in_range : Forall op_in_range w_ops.
Proof. repeat constructor; vm_compute; congruence. Qed.

Lemma ledger_witness :
  store_wf w_store ∧
  (seq <$> (default (mkRecord w_instance [] []) (instances w_store !! "inst_1"%string)).(events))
  = [1%Z; 2%Z].
Proof. split; [apply (ledger_stays_well_formed w_ops w_ops_in_range)|vm_compute; reflexivity]. Defined.

Lemma revision_witness :
  ∃ y, commands (store_run [SMarkUnknown "t4" "inst_1"] w_store) !! "cmd_1"%string = Some y ∧
    (2 ≤ cmd_revision y)%Z.
Proof.
  apply (command_revision_never_moves_backwards [SMarkUnknown "t4" "inst_1"] w_store "cmd_1"
    (mark_unknown "t3" w_command)).
  - apply store_run_wf; [apply w_ops_in_range|apply empty_store_wf].
  - by repeat constructor.
  - intros i. rewrite list_elem_of_singleton. discriminate.
  - vm_compute. reflexivity.
Defined.

Lemma idempotent_witness :
  insert_command "inst_1" w_command (store_run (take 2 w_ops) empty_store)
  = (store_run (take 2 w_ops) empty_store, Ok false).
Proof.
  apply (insert_command_is_idempotent "inst_1" w_command w_command
    (store_run (take 1 w_ops) empty_store)); reflexivity.
Defined.
