(* ===== verification/NodeFence.v ===== *)
(** * The Node's execution boundary: [remuda-node/src/fence.rs]

    A [lineage.fence] frame raises the live generation of a lineage; work
    initiated by an older generation is cancelled if it has not been handed to
    its executor and refused from then on.  This file models the in-memory
    fence table, its SQLite mirror (three tables, with the conflict clauses of
    the statements written out), reopening the database, the direct-operation
    log, the dispatch claim and the part of [apply_lineage_fence] that runs
    under the fence lock.  The table lock is held by [claim] and by the fence
    application for their whole bodies, so each is one atomic step. *)
From stdpp Require Import base list gmap strings numbers.
From S2P Require Import Prelude Json HeldInput NodeStore.
Local Open Scope Z_scope.

Definition FENCED_REASON : string := "fenced".

(** ** Data *)

(** [enum DirectOutcome] and [DirectOutcome::parse]. *)
Inductive DirectOutcome : Type := DirRan | DirRefused.
#[export] Instance DirectOutcome_eq_dec : EqDecision DirectOutcome.
Proof. solve_decision. Defined.

Definition parse_outcome (text : string) : option DirectOutcome :=
  if decide (text = "ran"%string) then Some DirRan
  else if decide (text = "refused"%string) then Some DirRefused else None.

(** [struct DirectOp]. *)
Record DirectOp : Type := mkDirectOp {
  op_initiator : Initiator;
  op_outcome : option DirectOutcome;
}.

(** [struct FenceTable]. *)
Record FenceTable : Type := mkTable {
  live : gmap string Z;
  lineages : gmap string (string * Z);
  direct_ops : gmap string DirectOp;
}.
Definition empty_table : FenceTable := mkTable ∅ ∅ ∅.

(** [lineage-fences.sqlite]: the rows of its three tables by primary key, and
    whether statements succeed at the moment. *)
Record FenceDb : Type := mkDb {
  db_fences : gmap string (string * Z);
  db_lineages : gmap string (string * Z);
  db_ops : gmap string (string * string * option string);
  db_ok : bool;
}.

(** [struct NodeFences]. *)
Record NodeFences : Type := mkFences {
  table : FenceTable;
  fence_db : option FenceDb;
  held : gmap string Held;
}.

(** [enum FenceOutcome], [struct FenceOpOutcome], [struct LineageRef] and
    [struct LineageFenceParams]. *)
Inductive FenceOutcome : Type := FenceCancelled | FenceRan | FenceRefused | FenceUnknown.
#[export] Instance FenceOutcome_eq_dec : EqDecision FenceOutcome.
Proof. solve_decision. Defined.
Record FenceOpOutcome : Type := mkOpOutcome { fo_op_id : string; fo_outcome : FenceOutcome }.
#[export] Instance FenceOpOutcome_eq_dec : EqDecision FenceOpOutcome.
Proof. solve_decision. Defined.
Record LineageRef : Type := mkLineage { lineage_id : string; lineage_generation : Z }.
Record LineageFenceParams : Type := mkFenceParams {
  fence_id : string;
  fence_lineage : string;
  live_generation : Z;
}.

(** [u64::try_from(i64).unwrap_or(0)] and [i64::try_from(u64).unwrap_or(i64::MAX)]. *)
Definition u64_of_i64 (g : Z) : Z := if (0 <=? g) then g else 0.
Definition i64_of_u64 (g : Z) : Z := if (g <=? i64_max) then g else i64_max.

(** [FenceTable::is_fenced]. *)
Definition table_is_fenced (t : FenceTable) (ini : Initiator) : bool :=
  match live t !! ini_lineage_id ini with
  | Some l => (u64_of_i64 (ini_generation ini) <? l)
  | None => false
  end.

(** [NodeFences::in_memory]. *)
Definition in_memory : NodeFences := mkFences empty_table None ∅.

Abbreviation fences A := (st NodeFences NodeError A) (only parsing).

(** [db_exec]: nothing without a database, an error when the statement fails. *)
Definition db_exec (sql : FenceDb → FenceDb) : fences unit :=
  f ← st_get;
  match fence_db f with
  | None => mret tt
  | Some d => if db_ok d then st_put (mkFences (table f) (Some (sql d)) (held f))
              else st_fail Sqlite
  end.

Definition set_table (t : FenceTable) : fences unit :=
  st_modify (λ f, mkFences t (fence_db f) (held f)).

(** [entry(k).or_insert(v)], then the maximum of the entry and [v]. *)
Definition raise (k : string) (v : Z) (m : gmap string Z) : gmap string Z :=
  <[k := Z.max (default v (m !! k)) v]> m.

Section Fences.
Context {V : Type} `{Json V}.
(** [serde_json::to_string] / [from_str] on an [Initiator], and [from_value] on
    an [Initiator] or a [LineageRef]. *)
Variable initiator_to_json : Initiator → string.
Variable initiator_from_json : string → option Initiator.
Variable decode_initiator : V → option Initiator.
Variable decode_lineage : V → option LineageRef.
(** [Value::pointer("/spec/instanceId")]. *)
Variable spec_instance_id : V → option V.

(** [NodeFences::open]: load everything the database holds. *)
Definition load_live (d : FenceDb) : gmap string Z :=
  foldr (λ row m, raise row.1 (u64_of_i64 row.2) m) ∅ (map_to_list (db_fences d)).*2.
Definition load_op (row : string * string * option string) : option DirectOp :=
  ini ← initiator_from_json row.1.2;
  Some (mkDirectOp ini (row.2 ≫= parse_outcome)).
Definition open (d : FenceDb) : result NodeFences NodeError :=
  if db_ok d then
    Ok (mkFences (mkTable (load_live d) (prod_map id u64_of_i64 <$> db_lineages d)
                    (omap load_op (db_ops d))) (Some d) ∅)
  else Err Sqlite.

(** [NodeFences::is_fenced] and [NodeFences::refuse_fenced]. *)
Definition is_fenced (ini : option Initiator) : fences bool :=
  match ini with
  | None => mret false
  | Some i => f ← st_get; mret (table_is_fenced (table f) i)
  end.
Definition refuse_fenced (ini : option Initiator) : fences unit :=
  b ← is_fenced ini; if (b : bool) then st_fail Fenced else mret tt.

(** [NodeFences::persist]: [INSERT OR IGNORE], then raise the live generation. *)
Definition insert_fence_row (fid lin : string) (g : Z) (d : FenceDb) : FenceDb :=
  match db_fences d !! fid with
  | Some _ => d
  | None => mkDb (<[fid := (lin, i64_of_u64 g)]> (db_fences d)) (db_lineages d) (db_ops d) (db_ok d)
  end.
Definition persist (fid lin : string) (g : Z) : fences unit :=
  _ ← db_exec (insert_fence_row fid lin g);
  f ← st_get;
  let t := table f in
  set_table (mkTable (raise lin g (live t)) (lineages t) (direct_ops t)).

(** [NodeFences::record_lineage]: [INSERT OR REPLACE]. *)
Definition record_lineage (iid : string) (l : LineageRef) : fences unit :=
  _ ← db_exec (λ d, mkDb (db_fences d)
        (<[iid := (lineage_id l, i64_of_u64 (lineage_generation l))]> (db_lineages d))
        (db_ops d) (db_ok d));
  f ← st_get;
  let t := table f in
  set_table (mkTable (live t) (<[iid := (lineage_id l, lineage_generation l)]> (lineages t))
               (direct_ops t)).

(** [origin::wire_initiator]. *)
Definition wire_initiator (params : V) : option Initiator :=
  v ← json_get params "initiator";
  if json_is_object v then decode_initiator v else None.

(** The row [direct_entry] writes for a refused operation:
    [ON CONFLICT DO UPDATE SET outcome = COALESCE(outcome, 'refused')]. *)
Definition insert_refused_row (op method ini : string) (d : FenceDb) : FenceDb :=
  let row := match db_ops d !! op with
             | Some (m, j, o) => (m, j, Some (default "refused"%string o))
             | None => (method, ini, Some "refused"%string)
             end in
  mkDb (db_fences d) (db_lineages d) (<[op := row]> (db_ops d)) (db_ok d).
Definition insert_entry_row (op method ini : string) (d : FenceDb) : FenceDb :=
  match db_ops d !! op with
  | Some _ => d
  | None => mkDb (db_fences d) (db_lineages d) (<[op := (method, ini, None)]> (db_ops d)) (db_ok d)
  end.

(** [table.direct_ops.entry(op).or_insert(e)]. *)
Definition or_insert_op (op : string) (e : DirectOp) : fences unit :=
  f ← st_get;
  let t := table f in
  match direct_ops t !! op with
  | Some _ => mret tt
  | None => set_table (mkTable (live t) (lineages t) (<[op := e]> (direct_ops t)))
  end.

(** [params.get("opId").or_else(|| params.get("jobId")).and_then(as_str)]. *)
Definition direct_op_id (params : V) : option string :=
  v ← match json_get params "opId" with Some v => Some v | None => json_get params "jobId" end;
  json_str v.

(** [NodeFences::direct_entry]. *)
Definition direct_entry (method : string) (params : V) : fences (option string) :=
  match wire_initiator params with
  | None => mret None
  | Some ini =>
      op ← st_lift (ok_or (direct_op_id params)
             (InvalidRequest (method +:+ " with an initiator requires opId")));
      f ← st_get;
      if table_is_fenced (table f) ini then
        _ ← db_exec (insert_refused_row op method (initiator_to_json ini));
        _ ← or_insert_op op (mkDirectOp ini (Some DirRefused));
        st_fail Fenced
      else
        _ ← db_exec (insert_entry_row op method (initiator_to_json ini));
        _ ← or_insert_op op (mkDirectOp ini None);
        mret (Some op)
  end.

(** [NodeFences::direct_outcome]: [UPDATE ... WHERE outcome IS NULL]. *)
Definition mark_ran_row (op : string) (d : FenceDb) : FenceDb :=
  match db_ops d !! op with
  | Some (m, j, None) =>
      mkDb (db_fences d) (db_lineages d) (<[op := (m, j, Some "ran"%string)]> (db_ops d)) (db_ok d)
  | _ => d
  end.
Definition direct_outcome (op : string) : fences unit :=
  _ ← db_exec (mark_ran_row op);
  f ← st_get;
  let t := table f in
  match direct_ops t !! op with
  | Some (mkDirectOp ini None) =>
      set_table (mkTable (live t) (lineages t)
                   (<[op := mkDirectOp ini (Some DirRan)]> (direct_ops t)))
  | _ => mret tt
  end.

(** [NodeFences::direct_outcomes]. *)
Definition fenced_by (lin : string) (g : Z) (ini : Initiator) : bool :=
  bool_decide (ini_lineage_id ini = lin) && (u64_of_i64 (ini_generation ini) <? g).
Definition report_op (p : string * DirectOp) : FenceOpOutcome :=
  mkOpOutcome p.1 (match op_outcome p.2 with
                   | Some DirRan => FenceRan
                   | Some DirRefused => FenceRefused
                   | None => FenceUnknown
                   end).
Definition direct_outcomes (t : FenceTable) (lin : string) (g : Z) : list FenceOpOutcome :=
  report_op <$> retain (λ p, fenced_by lin g (op_initiator p.2)) (btree_to_list (direct_ops t)).

(** [NodeFences::instances_below]. *)
Definition instances_below (t : FenceTable) (lin : string) (g : Z) : list string :=
  sort_strings (fst <$> retain (λ p, bool_decide (p.2.1 = lin) && (p.2.2 <? g))
                  (map_to_list (lineages t))).

(** [settled_fenced]. *)
Definition settled_fenced (c : Command) : bool :=
  match settlement c with
  | Known x =>
      bool_decide (outcome x = Rejected) &&
      match error x with
      | Some e => bool_decide (err_message e = FENCED_REASON)
      | None => false
      end
  | _ => false
  end.

(** ** The Node: the ledger and the fences *)

Record NodeState : Type := mkNode {
  n_store : MemoryState;
  n_fences : NodeFences;
}.
Abbreviation dev A := (st NodeState NodeError A) (only parsing).

Definition on_store {A} (c : st MemoryState NodeError A) : dev A :=
  st_zoom n_store (λ s n, mkNode s (n_fences n)) c.
Definition on_fences {A} (c : fences A) : dev A :=
  st_zoom n_fences (λ f n, mkNode (n_store n) f) c.

(** [enum Claim]. *)
Inductive Claim : Type := Deliver | ClaimFenced.
#[export] Instance Claim_eq_dec : EqDecision Claim.
Proof. solve_decision. Defined.

Definition with_dispatch (d : DispatchState) (c : Command) : Command :=
  mkCommand (command_id c) (cmd_origin c) (initiator c) (operation c) (target_instance c)
    (payload_digest c) (cmd_state c) d (resolution c) (acceptance c) (settlement c)
    (accepted_at c) (settled_at c) (cmd_revision c) (cmd_updated_at c).

(** [claim]: the dispatch claim. *)
Definition claim (now : string) (cid : string) : dev Claim :=
  c0 ← on_store (get_command cid);
  match initiator c0 with
  | None => mret Deliver
  | Some ini =>
      n ← st_get;
      c ← on_store (get_command cid);
      if decide (cmd_state c = Settled) then
        mret (if settled_fenced c then ClaimFenced else Deliver)
      else if table_is_fenced (table (n_fences n)) ini then
        match target_instance c with
        | None => mret ClaimFenced
        | Some iid =>
            _ ← on_store (reject_before_dispatch now iid c FENCED_REASON);
            mret ClaimFenced
        end
      else
        _ ← on_store (save_command (with_dispatch TransportWritten c));
        mret Deliver
  end.

(** [DevNode::persist_fence_frame], on decoded params. *)
Definition persist_fence_frame (p : LineageFenceParams) : dev unit :=
  on_fences (persist (fence_id p) (fence_lineage p) (live_generation p)).

(** [DevNode::admit_create]. *)
Definition admit_create (params : V) : dev unit :=
  _ ← on_fences (refuse_fenced (wire_initiator params));
  let lineage := v ← json_get params "lineage"; decode_lineage v in
  let iid := v ← match json_get params "instanceId" with
                 | Some v => Some v
                 | None => spec_instance_id params
                 end; json_str v in
  match lineage, iid with
  | Some l, Some i =>
      n ← st_get;
      if match live (table (n_fences n)) !! lineage_id l with
         | Some g => (lineage_generation l <? g)
         | None => false
         end
      then st_fail Fenced
      else on_fences (record_lineage i l)
  | _, _ => mret tt
  end.

(** The body of [apply_lineage_fence]'s inner loop for one command. *)
Definition dispatched (c : Command) : bool :=
  match dispatch c with TransportWritten | NativeAcknowledged => true | _ => false end.
Definition fence_command (now : string) (lin : string) (g : Z) (c : Command)
    : dev (list FenceOpOutcome) :=
  match initiator c with
  | None => mret []
  | Some ini =>
      if fenced_by lin g ini then
        let report o := [mkOpOutcome (command_id c) o] in
        if decide (cmd_state c = Settled) then
          match settlement c with
          | Known x =>
              if decide (outcome x = Completed) then mret (report FenceRan)
              else if settled_fenced c then mret (report FenceCancelled) else mret []
          | _ => if settled_fenced c then mret (report FenceCancelled) else mret []
          end
        else if dispatched c then mret (report FenceUnknown)
        else match target_instance c with
             | Some iid =>
                 _ ← on_store (reject_before_dispatch now iid c FENCED_REASON);
                 mret (report FenceCancelled)
             | None => mret (report FenceUnknown)
             end
      else mret []
  end.

Fixpoint fence_commands (now lin : string) (g : Z) (cs : list Command)
    : dev (list FenceOpOutcome) :=
  match cs with
  | [] => mret []
  | c :: cs' =>
      o ← fence_command now lin g c;
      os ← fence_commands now lin g cs';
      mret (o ++ os)
  end.

Fixpoint fence_instances (now lin : string) (g : Z) (xs : list Instance)
    : dev (list FenceOpOutcome) :=
  match xs with
  | [] => mret []
  | x :: xs' =>
      cs ← on_store (snapshot_commands (inst_id x));
      o ← fence_commands now lin g cs;
      os ← fence_instances now lin g xs';
      mret (o ++ os)
  end.

(** The part of [apply_lineage_fence] under the fence lock: the operation
    outcomes and the instances to close. *)
Definition apply_fence_locked (now : string) (p : LineageFenceParams)
    : dev (list FenceOpOutcome * list string) :=
  let lin := fence_lineage p in
  let g := live_generation p in
  _ ← on_fences (persist (fence_id p) lin g);
  xs ← on_store list_instances;
  os ← fence_instances now lin g xs;
  n ← st_get;
  let t := table (n_fences n) in
  mret (os ++ direct_outcomes t lin g, instances_below t lin g).

(** [DevNode::direct_op], with the operation itself as an argument. *)
Definition direct_op {A} (method : string) (params : V) (run : dev A) : dev A := λ n0,
  match on_fences (direct_entry method params) n0 with
  | (n1, Err e) => (n1, Err e)
  | (n1, Ok op) =>
      let '(n2, r) := run n1 in
      match r, op with
      | Ok a, Some o =>
          match on_fences (direct_outcome o) n2 with
          | (n3, Ok _) => (n3, Ok a)
          | (n3, Err e) => (n3, Err e)
          end
      | _, _ => (n2, r)
      end
  end.

End Fences.

(** ** The fence table under restarts *)

Section Restarts.
Context {V : Type} `{Json V}.
Variable initiator_to_json : Initiator → string.
Variable initiator_from_json : string → option Initiator.
Variable decode_initiator : V → option Initiator.

(** What happens to the table: the Node's own operations, a restart of the
    daemon (the database is reopened; a failing open leaves the process down)
    and the database becoming unavailable or available. *)
Inductive fence_op : Type :=
| FPersist (fid lin : string) (g : Z)
| FRecord (iid : string) (l : LineageRef)
| FEntry (method : string) (params : V)
| FOutcome (op : string)
| FRestart
| FDatabase (ok : bool).

Definition restart (f : NodeFences) : NodeFences :=
  match fence_db f with
  | None => in_memory
  | Some d => match open initiator_from_json d with Ok f' => f' | Err _ => f end
  end.

Definition fence_step (o : fence_op) (f : NodeFences) : NodeFences :=
  match o with
  | FPersist fid lin g => (persist fid lin g f).1
  | FRecord iid l => (record_lineage iid l f).1
  | FEntry m p => (direct_entry initiator_to_json decode_initiator m p f).1
  | FOutcome op => (direct_outcome op f).1
  | FRestart => restart f
  | FDatabase ok =>
      mkFences (table f) ((λ d, mkDb (db_fences d) (db_lineages d) (db_ops d) ok) <$> fence_db f)
        (held f)
  end.
Definition fence_run (os : list fence_op) (f : NodeFences) : NodeFences :=
  foldl (λ f o, fence_step o f) f os.

(** Every fence id carries one lineage and one generation, a [u64]. *)
Definition consistent (names : string → string * Z) (o : fence_op) : Prop :=
  match o with FPersist fid lin g => names fid = (lin, g) ∧ 0 ≤ g | _ => True end.

(** Every live generation is backed by a row of the database, and rows are
    what the fence ids name. *)
Definition backed (names : string → string * Z) (f : NodeFences) : Prop :=
  ∃ d, fence_db f = Some d ∧
    (∀ fid row, db_fences d !! fid = Some row → row.1 = (names fid).1 ∧
       row.2 = i64_of_u64 (names fid).2 ∧ 0 ≤ row.2) ∧
    (∀ l g, live (table f) !! l = Some g → 0 ≤ g ∧
       ∃ fid, db_fences d !! fid = Some (l, i64_of_u64 g)).

(** Whatever was fenced stays fenced. *)
Definition fences_kept (f f' : NodeFences) : Prop :=
  ∀ ini, ini_generation ini < i64_max →
    table_is_fenced (table f) ini = true → table_is_fenced (table f') ini = true.

Lemma raise_lookup k v m l :
  raise k v m !! l = if decide (k = l) then Some (Z.max (default v (m !! k)) v) else m !! l.
Proof. unfold raise. case_decide; subst; [apply lookup_insert_eq|by apply lookup_insert_ne]. Qed.

(** Loading takes the maximum over the rows of a lineage. *)
Lemma load_live_ge rows l v :
  (l, v) ∈ rows → ∃ g, foldr (λ row m, raise row.1 (u64_of_i64 row.2) m) ∅ rows !! l = Some g ∧
    u64_of_i64 v ≤ g.
Proof.
  induction rows as [|[l' v'] rows IH]; [by intros ?%not_elem_of_nil|].
  intros [Heq|Hin]%elem_of_cons; simpl; rewrite raise_lookup.
  - simplify_eq. rewrite decide_True by done. eexists; split; [done|lia].
  - destruct (IH Hin) as (g & Hg & Hle). case_decide as Hd; [|by eauto].
    subst. rewrite Hg. simpl. eexists; split; [done|]. lia.
Qed.

Lemma load_live_from rows l g :
  foldr (λ row m, raise row.1 (u64_of_i64 row.2) m) ∅ rows !! l = Some g →
  ∃ v, (l, v) ∈ rows ∧ g = u64_of_i64 v.
Proof.
  revert g. induction rows as [|[l' v'] rows IH]; intros g; simpl.
  - by rewrite lookup_empty.
  - rewrite raise_lookup. case_decide as Hd; [subst|].
    + intros [= <-]. destruct (foldr _ _ rows !! l) as [g0|] eqn:Hg0; simpl.
      * destruct (IH g0 eq_refl) as (v & Hv & ->).
        destruct (Z.max_spec (u64_of_i64 v) (u64_of_i64 v')) as [[_ ->]|[_ ->]]; eexists;
          (split; [|done]); set_solver.
      * rewrite Z.max_id. eexists; split; [|done]. set_solver.
    + intros Hg. destruct (IH g Hg) as (v & Hv & ->). eexists; split; [|done]. set_solver.
Qed.

Lemma elem_of_rows (d : FenceDb) (row : string * Z) :
  row ∈ (map_to_list (db_fences d)).*2 ↔ ∃ fid, db_fences d !! fid = Some row.
Proof.
  rewrite list_elem_of_fmap. split.
  - intros ([fid r] & -> & Hin%elem_of_map_to_list). eauto.
  - intros [fid Hin%elem_of_map_to_list]. by exists (fid, row).
Qed.

Lemma i64_clamp g : 0 ≤ g → u64_of_i64 (i64_of_u64 g) = i64_of_u64 g ∧ 0 ≤ i64_of_u64 g.
Proof. unfold u64_of_i64, i64_of_u64. intros. pose proof (eq_refl i64_max). zbool; unfold i64_max in *; lia. Qed.

(** A restart keeps every fence. *)
Lemma restart_backed names f :
  backed names f → backed names (restart f) ∧ fences_kept f (restart f).
Proof.
  intros (d & Hd & Hrow & Hlive). unfold restart. rewrite Hd. unfold open.
  destruct (db_ok d); [|by split; [exists d|intros ? ?]]. split.
  - exists d. split_and!; [done|done|]. simpl. intros l g Hg.
    destruct (load_live_from _ _ _ Hg) as (v & [fid Hv]%elem_of_rows & ->).
    destruct (Hrow _ _ Hv) as (_ & Hv2 & Hpos). simpl in *. unfold u64_of_i64.
    zbool; [|lia]. split; [done|]. exists fid. rewrite Hv. f_equal. f_equal.
    rewrite Hv2. unfold i64_of_u64. zbool; unfold i64_max in *; lia.
  - intros ini Hgen. unfold table_is_fenced. destruct (live (table f) !! _) as [g|] eqn:Hg; [|done].
    intros Hlt. destruct (Hlive _ _ Hg) as (Hpos & fid & Hfid).
    destruct (load_live_ge (map_to_list (db_fences d)).*2 (ini_lineage_id ini) (i64_of_u64 g))
      as (g' & Hg' & Hle); [apply elem_of_rows; eauto|].
    cbn. unfold load_live. rewrite Hg'. rewrite (proj1 (i64_clamp g Hpos)) in Hle. zhyps.
    apply Z.ltb_lt. unfold i64_of_u64, u64_of_i64 in *.
    destruct (Z.leb_spec g i64_max), (Z.leb_spec 0 (ini_generation ini)); unfold i64_max in *; lia.
Qed.

(** Statements that do not touch the fence rows keep the table backed. *)
Lemma backed_other names f f' :
  backed names f → live (table f') = live (table f) →
  (∀ d, fence_db f = Some d → ∃ d', fence_db f' = Some d' ∧ db_fences d' = db_fences d) →
  backed names f' ∧ fences_kept f f'.
Proof.
  intros (d & Hd & Hrow & Hlive) Hl Hdb. destruct (Hdb d Hd) as (d' & Hd' & Hf). split.
  - exists d'. rewrite Hf, Hl. done.
  - intros ini _. unfold table_is_fenced. by rewrite Hl.
Qed.

Lemma persist_backed names fid lin g f :
  names fid = (lin, g) → 0 ≤ g → backed names f →
  backed names (persist fid lin g f).1 ∧ fences_kept f (persist fid lin g f).1.
Proof.
  intros Hn Hg (d & Hd & Hrow & Hlive). unfold persist, db_exec. st_run. rewrite Hd.
  destruct (db_ok d); simpl; [|by split; [exists d|intros ? ?]].
  assert (db_fences (insert_fence_row fid lin g d) !! fid = Some (lin, i64_of_u64 g) ∧
    (∀ k row, db_fences d !! k = Some row → db_fences (insert_fence_row fid lin g d) !! k = Some row)
    ∧ ∀ k row, db_fences (insert_fence_row fid lin g d) !! k = Some row →
       db_fences d !! k = Some row ∨ (k = fid ∧ row = (lin, i64_of_u64 g))) as (H1 & H2 & H3).
  { unfold insert_fence_row. destruct (db_fences d !! fid) as [[l v]|] eqn:Hf.
    - destruct (Hrow _ _ Hf) as (Ha & Hb & _). rewrite Hn in Ha, Hb. simpl in *. subst. eauto.
    - simpl. rewrite lookup_insert_eq. split_and!; [done| |].
      + intros k row Hk. rewrite lookup_insert_ne; [done|]. intros ->. congruence.
      + intros k row [[<- <-]|[_ ?]]%lookup_insert_Some; eauto. }
  split.
  - eexists. split; [done|]. split.
    + intros k row [Hk|[-> ->]]%H3; [by apply Hrow|]. rewrite Hn. simpl.
      split_and!; [done..|]. by apply i64_clamp.
    + intros l g'. simpl. rewrite raise_lookup. case_decide as Hl; [subst|].
      * intros [= <-]. destruct (live (table f) !! l) as [g0|] eqn:Hg0; simpl.
        -- destruct (Hlive _ _ Hg0) as (? & k & Hk). split; [lia|].
           destruct (Z.max_spec g0 g) as [[_ ->]|[_ ->]]; eauto.
        -- rewrite Z.max_id. eauto.
      * intros Hl'. destruct (Hlive _ _ Hl') as (? & k & Hk). eauto.
  - intros ini _. unfold table_is_fenced. simpl. rewrite raise_lookup. case_decide as Hl; [subst|done].
    destruct (live (table f) !! ini_lineage_id ini) as [g0|] eqn:Hg0; [|done]. simpl. intros. zbool; lia.
Qed.

(** Every other operation leaves the fence rows and the live generations
    alone. *)
Lemma db_exec_live sql f :
  (∀ d, db_fences (sql d) = db_fences d) →
  let f' := (db_exec sql f).1 in
  table f' = table f ∧
  (∀ d, fence_db f = Some d → ∃ d', fence_db f' = Some d' ∧ db_fences d' = db_fences d).
Proof.
  intros Hs. unfold db_exec. st_run. destruct (fence_db f) as [d|] eqn:Hd; simpl; [|by rewrite Hd].
  destruct (db_ok d); simpl; [|by rewrite Hd; eauto]. split; [done|]. intros ? [= <-]. eauto.
Qed.

Lemma or_insert_op_live op e f :
  let f' := (or_insert_op op e f).1 in
  live (table f') = live (table f) ∧ fence_db f' = fence_db f.
Proof. unfold or_insert_op. st_run. by destruct (direct_ops (table f) !! op). Qed.

Lemma insert_refused_fences op m j d : db_fences (insert_refused_row op m j d) = db_fences d.
Proof. unfold insert_refused_row. by repeat case_match. Qed.
Lemma insert_entry_fences op m j d : db_fences (insert_entry_row op m j d) = db_fences d.
Proof. unfold insert_entry_row. by repeat case_match. Qed.
Lemma mark_ran_fences op d : db_fences (mark_ran_row op d) = db_fences d.
Proof. unfold mark_ran_row. by repeat case_match. Qed.

(** Running [db_exec] and then a step that keeps the database and the live
    generations. *)
Lemma backed_db_exec {A} names sql (k : unit → st NodeFences NodeError A) f :
  backed names f → (∀ d, db_fences (sql d) = db_fences d) →
  (∀ f1, live (table (k tt f1).1) = live (table f1) ∧ fence_db (k tt f1).1 = fence_db f1) →
  backed names ((db_exec sql ≫= k) f).1 ∧ fences_kept f ((db_exec sql ≫= k) f).1.
Proof.
  intros Hb Hs Hk. rewrite st_bind_eq. pose proof (db_exec_live sql f Hs) as [Ht Hdb].
  destruct (db_exec sql f) as [f1 [[]|e]]; simpl in *; (eapply backed_other; [done| |]).
  - destruct (Hk f1) as [-> _]. by rewrite Ht.
  - intros d Hd. destruct (Hk f1) as [_ ->]. by apply Hdb.
  - by rewrite Ht.
  - done.
Qed.

Lemma fence_step_backed names o f :
  consistent names o → backed names f →
  backed names (fence_step o f) ∧ fences_kept f (fence_step o f).
Proof.
  intros Hc Hb. destruct o as [fid lin g|iid l|m p|op| |ok]; simpl.
  - destruct Hc. by apply persist_backed.
  - by apply backed_db_exec.
  - unfold direct_entry. destruct (wire_initiator decode_initiator p) as [ini|];
      [|by eapply backed_other; eauto].
    rewrite st_bind_eq. destruct (direct_op_id p) as [op|]; simpl; [|by eapply backed_other; eauto].
    rewrite st_bind_eq. simpl. destruct (table_is_fenced (table f) ini).
    + apply backed_db_exec; [done| |].
      * intros d. apply insert_refused_fences.
      * intros f1. rewrite st_bind_eq.
        pose proof (or_insert_op_live op (mkDirectOp ini (Some DirRefused)) f1).
        by destruct (or_insert_op op (mkDirectOp ini (Some DirRefused)) f1) as [? []].
    + apply backed_db_exec; [done| |].
      * intros d. apply insert_entry_fences.
      * intros f1. rewrite st_bind_eq.
        pose proof (or_insert_op_live op (mkDirectOp ini None) f1).
        by destruct (or_insert_op op (mkDirectOp ini None) f1) as [? []].
  - apply backed_db_exec; [done| |].
    + intros d. apply mark_ran_fences.
    + intros f1. st_run. by destruct (direct_ops (table f1) !! op) as [[? []]|].
  - by apply restart_backed.
  - eapply backed_other; [done|done|]. intros d Hd. simpl. rewrite Hd. simpl. eauto.
Qed.

Lemma fence_run_backed names os f :
  Forall (consistent names) os → backed names f →
  backed names (fence_run os f) ∧ fences_kept f (fence_run os f).
Proof.
  revert f. induction os as [|o os IH]; intros f Ho Hb; simpl; [by split; [|intros ? ?]|].
  apply Forall_cons_1 in Ho as [Ho Hos]. destruct (fence_step_backed names o f Ho Hb) as [Hb' Hk].
  destruct (IH _ Hos Hb') as [Hb'' Hk']. split; [done|]. intros ini Hg Hf. by apply Hk', Hk.
Qed.

(** A Node whose data directory holds an empty fence database. *)
Definition fresh_fences : NodeFences := mkFences empty_table (Some (mkDb ∅ ∅ ∅ true)) ∅.

(** A fence is forever: once a lineage's generation is fenced, it stays
    fenced through every later fence, lineage record, direct operation,
    database failure and restart of the daemon, as long as a fence id is not
    reused for another lineage or generation.  (Generations are [i64]; the one
    at [i64::MAX] itself is excluded because the database clamps to it.) *)
Theorem fence_survives_everything names os1 os2 ini :
  Forall (consistent names) (os1 ++ os2) → ini_generation ini < i64_max →
  table_is_fenced (table (fence_run os1 fresh_fences)) ini = true →
  table_is_fenced (table (fence_run (os1 ++ os2) fresh_fences)) ini = true.
Proof.
  intros [Ho1 Ho2]%Forall_app Hg Hf. unfold fence_run in *. rewrite foldl_app.
  assert (backed names fresh_fences) as Hb.
  { eexists. split; [done|]. by split; intros ??; cbn; rewrite lookup_empty. }
  destruct (fence_run_backed names os1 fresh_fences Ho1 Hb) as [Hb1 _].
  destruct (fence_run_backed names os2 _ Ho2 Hb1) as [_ Hk]. by apply Hk.
Qed.
(** Each operation on a healthy database, as one assignment. *)
Definition keep_op (op : string) (e : DirectOp) (m : gmap string DirectOp) : gmap string DirectOp :=
  match m !! op with Some _ => m | None => <[op := e]> m end.

Lemma direct_entry_eq m params op ini d f :
  wire_initiator decode_initiator params = Some ini → direct_op_id params = Some op →
  fence_db f = Some d → db_ok d = true →
  let json := initiator_to_json ini in
  let t := table f in
  direct_entry initiator_to_json decode_initiator m params f =
    if table_is_fenced t ini then
      (mkFences (mkTable (live t) (lineages t)
                   (keep_op op (mkDirectOp ini (Some DirRefused)) (direct_ops t)))
         (Some (insert_refused_row op m json d)) (held f), Err Fenced)
    else
      (mkFences (mkTable (live t) (lineages t) (keep_op op (mkDirectOp ini None) (direct_ops t)))
         (Some (insert_entry_row op m json d)) (held f), Ok (Some op)).
Proof.
  intros Hi Ho Hd Hok. destruct f as [[lv ln ops] fdb h]. simpl in *. subst fdb.
  unfold direct_entry, db_exec, or_insert_op, keep_op, set_table. rewrite Hi, Ho.
  rewrite st_bind_eq. simpl. rewrite st_bind_eq. simpl.
  destruct (table_is_fenced _ ini); repeat (rewrite st_bind_eq; simpl); rewrite Hok; simpl;
    rewrite st_bind_eq; simpl; rewrite st_bind_eq; simpl; by destruct (ops !! op).
Qed.

Lemma persist_eq fid lin g d f :
  fence_db f = Some d → db_ok d = true →
  persist fid lin g f =
    (mkFences (mkTable (raise lin g (live (table f))) (lineages (table f)) (direct_ops (table f)))
       (Some (insert_fence_row fid lin g d)) (held f), Ok tt).
Proof. intros Hd Hok. unfold persist, db_exec. st_run. rewrite Hd, Hok. by st_run. Qed.

Lemma direct_outcome_eq op ini d f :
  fence_db f = Some d → db_ok d = true → direct_ops (table f) !! op = Some (mkDirectOp ini None) →
  direct_outcome op f =
    (mkFences (mkTable (live (table f)) (lineages (table f))
                 (<[op := mkDirectOp ini (Some DirRan)]> (direct_ops (table f))))
       (Some (mark_ran_row op d)) (held f), Ok tt).
Proof.
  intros Hd Hok Hop. destruct f as [[lv ln ops] fdb h]. simpl in *. subst fdb.
  unfold direct_outcome, db_exec. repeat (rewrite st_bind_eq; simpl). rewrite Hok.
  repeat (simpl; rewrite ?st_bind_eq, ?Hop). done.
Qed.

Lemma insert_fence_row_keeps fid lin g d :
  db_ops (insert_fence_row fid lin g d) = db_ops d ∧ db_ok (insert_fence_row fid lin g d) = db_ok d.
Proof. unfold insert_fence_row. by destruct (db_fences d !! fid). Qed.

(** The outcome of a direct operation that ran can be forgotten: an
    operation enters unfenced, its lineage is fenced while it runs, and the Hub
    retries the same operation id.  The retry is refused and turns the row's
    outcome into [refused]; the completion of the first run then updates the
    table but not the row, so a restarted Node reports an operation that ran as
    refused. *)
Theorem retried_direct_op_reads_refused_after_restart m params op ini d f fid g :
  wire_initiator decode_initiator params = Some ini → direct_op_id params = Some op →
  initiator_from_json (initiator_to_json ini) = Some ini →
  fence_db f = Some d → db_ok d = true → db_ops d !! op = None →
  direct_ops (table f) !! op = None → table_is_fenced (table f) ini = false →
  u64_of_i64 (ini_generation ini) < g →
  let f1 := fence_run [FEntry m params; FPersist fid (ini_lineage_id ini) g;
                       FEntry m params; FOutcome op] f in
  direct_ops (table f1) !! op = Some (mkDirectOp ini (Some DirRan)) ∧
  direct_ops (table (restart f1)) !! op = Some (mkDirectOp ini (Some DirRefused)).
Proof.
  intros Hini Hop Hrt Hd Hok Hrow Hmem Hunf Hg. unfold fence_run. simpl.
  rewrite (direct_entry_eq m params op ini d f) by done. rewrite Hunf. simpl.
  unfold keep_op, insert_entry_row. rewrite Hmem, Hrow.
  set (d1 := mkDb _ _ _ _). rewrite (persist_eq fid _ g d1) by done. simpl.
  destruct (insert_fence_row_keeps fid (ini_lineage_id ini) g d1) as [Hops Hdbok].
  change (db_ok d1) with (db_ok d) in Hdbok. rewrite Hok in Hdbok.
  set (d2 := insert_fence_row _ _ _ _) in *.
  rewrite (direct_entry_eq m params op ini d2) by (done || congruence).
  assert (table_is_fenced (mkTable (raise (ini_lineage_id ini) g (live (table f)))
    (lineages (table f)) (<[op := mkDirectOp ini None]> (direct_ops (table f)))) ini = true) as Hf.
  { unfold table_is_fenced. simpl. rewrite raise_lookup, decide_True by done. zbool; lia. }
  simpl. rewrite Hf. simpl. unfold keep_op, insert_refused_row. rewrite lookup_insert_eq, Hops.
  replace (db_ops d1 !! op) with (Some (m, initiator_to_json ini, None : option string))
    by (symmetry; apply lookup_insert_eq).
  set (d3 := mkDb _ _ _ _).
  rewrite (direct_outcome_eq op ini d3) by
    (done || apply lookup_insert_eq).
  split; [apply lookup_insert_eq|]. unfold restart. simpl. unfold mark_ran_row.
  replace (db_ops d3 !! op) with (Some (m, initiator_to_json ini, Some "refused"%string))
    by (symmetry; apply lookup_insert_eq).
  unfold open. replace (db_ok d3) with true by (symmetry; exact Hdbok). simpl.
  rewrite lookup_omap, lookup_insert_eq. cbn. unfold load_op. cbn. by rewrite Hrt.
Qed.
End Restarts.

(** ** What a fence does to the ledger *)

(** The work a fence cancels: initiated by the fenced generation, not settled
    and not handed to its executor. *)
Definition cancellable (lin : string) (g : Z) (c : Command) : bool :=
  match initiator c with
  | Some ini => fenced_by lin g ini && bool_decide (cmd_state c ≠ Settled) && negb (dispatched c)
                && bool_decide (is_Some (target_instance c))
  | None => false
  end.
Definition fence_effect (now lin : string) (g : Z) (c : Command) : Command :=
  if cancellable lin g c
  then settle_command now Rejected (Some FENCED_REASON) ExecNotDispatched c else c.

(** What the acknowledgement says about a command. *)
Definition fence_report (lin : string) (g : Z) (c : Command) : list FenceOpOutcome :=
  match initiator c with
  | Some ini =>
      if fenced_by lin g ini then
        if decide (cmd_state c = Settled) then
          match settlement c with
          | Known x =>
              if decide (outcome x = Completed) then [mkOpOutcome (command_id c) FenceRan]
              else if settled_fenced c then [mkOpOutcome (command_id c) FenceCancelled] else []
          | _ => []
          end
        else if dispatched c then [mkOpOutcome (command_id c) FenceUnknown]
        else [mkOpOutcome (command_id c)
                (if decide (is_Some (target_instance c)) then FenceCancelled else FenceUnknown)]
      else []
  | None => []
  end.

Lemma settled_fenced_reject now c :
  settled_fenced (settle_command now Rejected (Some FENCED_REASON) ExecNotDispatched c) = true.
Proof. done. Qed.

Lemma cancellable_spec lin g c :
  cancellable lin g c = true ↔
  ∃ ini iid, initiator c = Some ini ∧ fenced_by lin g ini = true ∧ cmd_state c ≠ Settled ∧
    dispatched c = false ∧ target_instance c = Some iid.
Proof.
  unfold cancellable. destruct (initiator c) as [ini|]; [|naive_solver].
  rewrite !andb_true_iff, !bool_decide_eq_true, negb_true_iff. unfold is_Some. naive_solver.
Qed.

(** Applying a fence twice is applying it once, and the acknowledgement of the
    second application repeats the first. *)
Lemma fence_effect_idemp now now' lin g c :
  fence_effect now' lin g (fence_effect now lin g c) = fence_effect now lin g c.
Proof.
  unfold fence_effect at 2 3. destruct (cancellable lin g c) eqn:Hc; [|unfold fence_effect; by rewrite Hc].
  unfold fence_effect. destruct (cancellable lin g (settle_command _ _ _ _ _)) eqn:Hc'; [|done].
  apply cancellable_spec in Hc' as (? & ? & _ & _ & Hn & _). by destruct Hn.
Qed.

Lemma fence_report_effect now lin g c :
  fence_report lin g (fence_effect now lin g c) = fence_report lin g c.
Proof.
  unfold fence_effect. destruct (cancellable lin g c) eqn:Hc; [|done].
  apply cancellable_spec in Hc as (ini & iid & Hi & Hf & Hn & Hd & Ht).
  unfold fence_report. simpl. rewrite Hi, Hf, Hd, Ht.
  rewrite (decide_False (P := cmd_state c = Settled)) by done. done.
Qed.

Lemma fence_effect_id now lin g c : command_id (fence_effect now lin g c) = command_id c.
Proof. unfold fence_effect. by destruct (cancellable lin g c). Qed.

(** [s] keeps the command lists of [s0]. *)
Definition same_lists (s0 s : MemoryState) : Prop :=
  ∀ i, command_ids <$> instances s !! i = command_ids <$> instances s0 !! i.

Lemma append_observation_lists now i b s : same_lists s (append_observation now i b s).1.
Proof.
  intros j. unfold append_observation. rewrite st_bind_eq, get_record_eq.
  destruct (instances s !! i) as [r|] eqn:Hr; [|done]. simpl.
  destruct (decide (i = j)) as [<-|]; [by rewrite lookup_insert_eq, Hr|by rewrite lookup_insert_ne].
Qed.

Lemma reject_before_dispatch_lists now i c reason s :
  same_lists s (reject_before_dispatch now i c reason s).1.
Proof.
  unfold reject_before_dispatch, save_command, get_command. rewrite !st_bind_eq. simpl.
  destruct (commands s !! command_id c) as [e|]; [|done]. simpl.
  destruct (_ <? _); [done|]. simpl. rewrite !st_bind_eq. unfold append_command_lifecycle.
  rewrite st_bind_eq. destruct (append_observation _ _ _ _) as [s1 [o|er]] eqn:Ha; simpl;
    (eapply (f_equal fst) in Ha; simpl in Ha; subst s1; intros j;
     rewrite append_observation_lists; done).
Qed.

(** One command of the loop. *)
Lemma fence_command_spec now lin g c n n' r :
  commands (n_store n) !! command_id c = Some c → is_u64 (cmd_revision c) →
  fence_command now lin g c n = (n', r) →
  (∀ os, r = Ok os → os = fence_report lin g c) ∧
  commands (n_store n') = <[command_id c := fence_effect now lin g c]> (commands (n_store n)) ∧
  same_lists (n_store n) (n_store n') ∧ n_fences n' = n_fences n.
Proof.
  intros Hc Hu Hrun.
  assert (<[command_id c := c]> (commands (n_store n)) = commands (n_store n)) as Hsame
    by (by apply insert_id).
  unfold fence_command, fence_report, fence_effect, cancellable in *.
  destruct (initiator c) as [ini|]; [|by rewrite st_ret_eq in Hrun; simplify_eq/=; rewrite Hsame; split; [intros ? [= <-]|]].
  destruct (fenced_by lin g ini); [|by rewrite st_ret_eq in Hrun; simplify_eq/=; rewrite Hsame; split; [intros ? [= <-]|]]. simpl.
  destruct (decide (cmd_state c = Settled)) as [Hst|Hst].
  { rewrite bool_decide_false by (intros H; by apply H). simpl. rewrite Hsame.
    assert (n' = n ∧ r = Ok match settlement c with Known x =>
      if decide (outcome x = Completed) then [mkOpOutcome (command_id c) FenceRan]
      else if settled_fenced c then [mkOpOutcome (command_id c) FenceCancelled] else []
      | _ => [] end) as [-> ->]; [|by split_and!; [intros ? [= <-]|..]].
    unfold settled_fenced in *. destruct (settlement c) as [x| |];
      repeat case_match; rewrite st_ret_eq in Hrun; by simplify_eq/=. }
  rewrite bool_decide_true by done. simpl.
  destruct (dispatched c); [by rewrite st_ret_eq in Hrun; simplify_eq/=; rewrite Hsame; split; [intros ? [= <-]|]|]. simpl.
  destruct (target_instance c) as [iid|].
  - rewrite bool_decide_true by eauto. rewrite decide_True by eauto.
    rewrite st_bind_eq in Hrun. unfold on_store, st_zoom in Hrun.
    pose proof (reject_before_dispatch_commands now iid c FENCED_REASON (n_store n) c Hc Hu
      ltac:(lia)) as Hcmds.
    pose proof (reject_before_dispatch_lists now iid c FENCED_REASON (n_store n)) as Hlists.
    destruct (reject_before_dispatch now iid c FENCED_REASON (n_store n)) as [s1 [x|e]];
      [rewrite st_ret_eq in Hrun|]; simplify_eq/=; (split; [by intros ? [=]|done]).
  - rewrite bool_decide_false by (by intros []). rewrite decide_False by (by intros []).
    by rewrite st_ret_eq in Hrun; simplify_eq/=; rewrite Hsame; split; [intros ? [= <-]|].
Qed.

(** The loop over one instance's snapshot; an error stops it after a prefix. *)
Lemma fence_commands_spec now lin g cs n n' r :
  NoDup (command_id <$> cs) →
  (∀ c, c ∈ cs → commands (n_store n) !! command_id c = Some c ∧ is_u64 (cmd_revision c)) →
  fence_commands now lin g cs n = (n', r) →
  (∃ ids, (ids ⊆ command_id <$> cs) ∧ (is_ok r = true → ids = command_id <$> cs) ∧
     ∀ cid, commands (n_store n') !! cid =
       (if decide (cid ∈ ids) then fence_effect now lin g else id) <$> commands (n_store n) !! cid) ∧
  (∀ os, r = Ok os → os = cs ≫= fence_report lin g) ∧
  same_lists (n_store n) (n_store n') ∧ n_fences n' = n_fences n.
Proof.
  revert n n' r. induction cs as [|c cs IH]; intros n n' r Hnd Hcs Hrun; simpl in *.
  { rewrite st_ret_eq in Hrun. simplify_eq. split_and!; [|naive_solver|done|done].
    exists []. split_and!; [done..|]. intros cid.
    rewrite (decide_False (P := cid ∈ [])) by apply not_elem_of_nil. by rewrite option_fmap_id. }
  apply list.NoDup_cons in Hnd as [Hfresh Hnd]. rewrite st_bind_eq in Hrun.
  destruct (fence_command now lin g c n) as [n1 r1] eqn:H1.
  destruct (Hcs c) as [Hc Hu]; [set_solver|].
  destruct (fence_command_spec now lin g c n n1 r1 Hc Hu H1) as (Hr1 & Hc1 & Hl1 & Hf1).
  assert (∀ cid, commands (n_store n1) !! cid =
    (if decide (cid ∈ [command_id c]) then fence_effect now lin g else id)
      <$> commands (n_store n) !! cid) as Hone.
  { intros cid. rewrite Hc1. destruct (decide (command_id c = cid)) as [<-|Hne].
    - rewrite lookup_insert_eq, Hc, decide_True by set_solver. done.
    - rewrite lookup_insert_ne, decide_False by set_solver. by rewrite option_fmap_id. }
  destruct r1 as [o1|e].
  2: { simplify_eq. split_and!; [|done|done|done].
       exists [command_id c]. split_and!; [set_solver|done|done]. }
  specialize (Hr1 _ eq_refl). subst o1. rewrite st_bind_eq in Hrun.
  destruct (fence_commands now lin g cs n1) as [n2 r2] eqn:H2.
  destruct (IH n1 n2 r2) as ((ids & Hsub & Hall & Hc2) & Ho2 & Hl2 & Hf2); [done| |done|].
  { intros d Hd. rewrite Hc1, lookup_insert_ne; [apply Hcs; set_solver|].
    intros Heq. apply Hfresh. rewrite Heq. by apply list_elem_of_fmap_2. }
  assert (n2 = n' ∧ (∀ os, r = Ok os → ∃ o2, r2 = Ok o2 ∧ os = fence_report lin g c ++ o2) ∧
    is_ok r = is_ok r2) as (<- & Hr & Hok).
  { destruct r2; [rewrite st_ret_eq in Hrun|]; simplify_eq; naive_solver. }
  split_and!; [| |by intros i; rewrite Hl2|congruence].
  - exists (command_id c :: ids). split_and!; [set_solver| |].
    + rewrite Hok. intros Hr2. by rewrite Hall.
    + intros cid. rewrite Hc2, Hone. destruct (commands (n_store n) !! cid); [|done]. simpl. f_equal.
      destruct (decide (cid ∈ ids)), (decide (cid ∈ [command_id c])), (decide (cid ∈ _ :: ids));
        simpl; rewrite ?fence_effect_idemp; set_solver.
  - intros os Hos. destruct (Hr os Hos) as (o2 & -> & ->). by rewrite (Ho2 o2).
Qed.

(** [n] is [n0] with the fence applied to the commands of [done]. *)
Record fenced_upto (now lin : string) (g : Z) (n0 n : NodeState) (done : list string) : Prop := {
  fu_commands : ∀ cid, commands (n_store n) !! cid =
    (if decide (cid ∈ done) then fence_effect now lin g else id) <$> commands (n_store n0) !! cid;
  fu_lists : same_lists (n_store n0) (n_store n);
  fu_fences : n_fences n = n_fences n0;
}.

Lemma fence_effect_u64 now lin g c : is_u64 (cmd_revision c) →
  is_u64 (cmd_revision (fence_effect now lin g c)).
Proof. intros. unfold fence_effect. destruct (cancellable _ _ _); simpl; auto with remuda. Qed.

(** What a snapshot taken in the middle of the loop holds. *)
Lemma snapshot_commands_spec i s s' cs :
  snapshot_commands i s = (s', Ok cs) →
  ∃ r, instances s !! i = Some r ∧ s' = s ∧ cs = omap (λ c, commands s !! c) (command_ids r).
Proof.
  unfold snapshot_commands. rewrite st_bind_eq, get_record_eq.
  destruct (instances s !! i) as [r|]; [|done]. simpl. rewrite st_bind_eq. simpl.
  rewrite st_ret_eq. intros. simplify_eq. eauto.
Qed.

Lemma snapshot_ids s (ids : list string) :
  (∀ c x, commands s !! c = Some x → command_id x = c) → NoDup ids →
  NoDup (command_id <$> omap (λ c, commands s !! c) ids) ∧
  ∀ cid, cid ∈ command_id <$> omap (λ c, commands s !! c) ids ↔
    cid ∈ ids ∧ is_Some (commands s !! cid).
Proof.
  intros Hk Hnd.
  assert (∀ (ids : list string) cid, cid ∈ command_id <$> omap (λ c, commands s !! c) ids ↔
    cid ∈ ids ∧ is_Some (commands s !! cid)) as Hin.
  { clear ids Hnd. intros ids cid. rewrite list_elem_of_fmap. setoid_rewrite list_elem_of_omap. split.
    - intros (x & -> & c & Hc & Hx). rewrite (Hk _ _ Hx). eauto.
    - intros (Hc & x & Hx). exists x. rewrite (Hk _ _ Hx). eauto. }
  split; [|apply Hin]. induction Hnd as [|c ids Hc Hnd IH]; simpl; [constructor|].
  destruct (commands s !! c) as [x|] eqn:Hx; [|done]. simpl. constructor; [|done].
  rewrite (Hk _ _ Hx). intros [? _]%Hin. done.
Qed.

(** One instance of the outer loop. *)
Lemma fence_instance_spec now lin g n0 n dn i n1 cs n2 r :
  store_wf (n_store n0) → fenced_upto now lin g n0 n dn →
  on_store (snapshot_commands i) n = (n1, Ok cs) → fence_commands now lin g cs n1 = (n2, r) →
  ∃ rec ids, instances (n_store n0) !! i = Some rec ∧ fenced_upto now lin g n0 n2 (dn ++ ids) ∧
    (is_ok r = true → command_ids rec ⊆ ids) ∧
    ∀ os, r = Ok os → ∀ o, o ∈ os ↔ ∃ cid c, cid ∈ command_ids rec ∧
      commands (n_store n0) !! cid = Some c ∧ o ∈ fence_report lin g c.
Proof.
  intros W [Fc Fl Ff] Hs Hrun. unfold on_store, st_zoom in Hs.
  destruct (snapshot_commands i (n_store n)) as [s1 rs] eqn:Hsn; simplify_eq/=.
  destruct (snapshot_commands_spec _ _ _ _ Hsn) as (r1 & Hr1 & -> & ->).
  pose proof (Fl i) as Hl. rewrite Hr1 in Hl. simpl in Hl.
  destruct (instances (n_store n0) !! i) as [rec|] eqn:Hr; simplify_eq/=.
  assert (∀ c x, commands (n_store n) !! c = Some x →
    command_id x = c ∧ is_u64 (cmd_revision x)) as Hk.
  { intros c x. rewrite Fc. intros (y & Hy & ->)%fmap_Some_1.
    destruct (wf_key _ W _ _ Hy). case_decide; simpl; [|done].
    rewrite fence_effect_id. by auto using fence_effect_u64. }
  pose proof (wf_nodup _ W _ _ Hr) as Hnd. rewrite <-Hl in Hnd.
  destruct (snapshot_ids (n_store n) (command_ids r1)) as [Hnd' Hin]; [naive_solver|done|].
  eapply fence_commands_spec in Hrun as ((ids & Hsub & Hall & Hc2) & Ho & Hl2 & Hf2); [|done|].
  2: { intros c (cid & _ & Hc)%list_elem_of_omap. simpl. destruct (Hk _ _ Hc) as [-> ?]. done. }
  simpl in *. exists rec, (if is_ok r then command_ids r1 else ids). split; [done|].
  rewrite <-Hl.
  split_and!.
  - split; [|by intros j; rewrite Hl2|congruence]. intros cid. rewrite Hc2, Fc.
    destruct (commands (n_store n0) !! cid) as [x|] eqn:Hx; [|done]. simpl. f_equal.
    assert (is_Some (commands (n_store n) !! cid)) as Hsome by (rewrite Fc, Hx; by eexists).
    assert (cid ∈ ids ↔ cid ∈ (if is_ok r then command_ids r1 else ids)) as Hiff.
    { destruct (is_ok r); [|done]. rewrite Hall by done. rewrite Hin. naive_solver. }
    destruct (decide (cid ∈ dn)), (decide (cid ∈ ids)), (decide (cid ∈ dn ++ _));
      simpl; rewrite ?fence_effect_idemp; set_solver.
  - by intros ->.
  - intros os Hos o. rewrite (Ho os Hos), list_elem_of_bind. setoid_rewrite list_elem_of_omap. split.
    + intros (x & Hx & cid & Hcid & Hc). rewrite Fc in Hc. apply fmap_Some_1 in Hc as (y & Hy & ->).
      exists cid, y. split_and!; [done..|]. revert Hx.
      by case_decide; simpl; rewrite ?fence_report_effect.
    + intros (cid & c & Hcid & Hc & Hoc).
      exists ((if decide (cid ∈ dn) then fence_effect now lin g else id) c).
      split; [by case_decide; simpl; rewrite ?fence_report_effect|].
      exists cid. split; [done|]. by rewrite Fc, Hc.
Qed.

Lemma fence_instances_spec now lin g n0 xs n dn n' r :
  store_wf (n_store n0) → fenced_upto now lin g n0 n dn →
  fence_instances now lin g xs n = (n', r) →
  ∃ dn', fenced_upto now lin g n0 n' dn' ∧ (dn ⊆ dn') ∧
    (is_ok r = true → ∀ x cid, x ∈ xs → owns (n_store n0) (inst_id x) cid → cid ∈ dn') ∧
    ∀ os, r = Ok os → ∀ o, o ∈ os ↔ ∃ x cid c, x ∈ xs ∧ owns (n_store n0) (inst_id x) cid ∧
      commands (n_store n0) !! cid = Some c ∧ o ∈ fence_report lin g c.
Proof.
  intros W. revert n dn n' r. induction xs as [|x xs IH]; intros n dn n' r F Hrun; simpl in Hrun.
  { rewrite st_ret_eq in Hrun. simplify_eq. exists dn. split_and!; [done|done|set_solver|].
    intros os [= <-] o. split; [by intros ?%not_elem_of_nil|set_solver]. }
  rewrite st_bind_eq in Hrun. destruct (on_store _ n) as [n1 [cs|e]] eqn:Hs.
  2: { simplify_eq. exists dn. assert (n' = n) as ->; [|by split_and!].
       unfold on_store, st_zoom, snapshot_commands in Hs. rewrite st_bind_eq, get_record_eq in Hs.
       destruct n as [s f]. simpl in *. by destruct (instances s !! inst_id x); simplify_eq/=. }
  rewrite st_bind_eq in Hrun. destruct (fence_commands now lin g cs n1) as [n2 r1] eqn:H1.
  destruct (fence_instance_spec now lin g n0 n dn (inst_id x) n1 cs n2 r1 W F Hs H1)
    as (rec & ids & Hr & F2 & Hids & Ho1).
  destruct r1 as [o1|e].
  2: { simplify_eq. eexists. split; [done|]. split_and!; [set_solver|done|done]. }
  rewrite st_bind_eq in Hrun. destruct (fence_instances now lin g xs n2) as [n3 r2] eqn:H2.
  destruct (IH n2 _ n3 r2 F2 H2) as (dn' & F3 & Hsub & Hown & Ho2). exists dn'.
  assert (∀ cid, owns (n_store n0) (inst_id x) cid ↔ cid ∈ command_ids rec) as Hx.
  { intros cid. unfold owns. rewrite Hr. naive_solver. }
  assert (n3 = n' ∧ (∀ os, r = Ok os → ∃ o2, r2 = Ok o2 ∧ os = o1 ++ o2) ∧ is_ok r = is_ok r2)
    as (<- & Hrr & Hok).
  { destruct r2; [rewrite st_ret_eq in Hrun|]; simplify_eq; naive_solver. }
  specialize (Hids eq_refl). split_and!; [done|set_solver| |].
  - rewrite Hok. intros Hr2 y cid [->|Hy]%elem_of_cons; [rewrite Hx; set_solver|eauto].
  - intros os Hos o. destruct (Hrr os Hos) as (o2 & -> & ->).
    rewrite elem_of_app, (Ho1 _ eq_refl), (Ho2 _ eq_refl). setoid_rewrite elem_of_cons. split.
    + intros [(cid & c & ? & ? & ?)|(y & cid & c & ? & ? & ? & ?)]; [|by eauto 10].
      exists x, cid, c. rewrite Hx. eauto.
    + intros (y & cid & c & [->|Hy] & Hc & ? & ?); [left|right; by eauto 10].
      rewrite Hx in Hc. eauto.
Qed.

Lemma db_exec_table sql f : table (db_exec sql f).1 = table f.
Proof.
  unfold db_exec. rewrite st_bind_eq. simpl. destruct (fence_db f) as [d|]; [|done].
  by destruct (db_ok d).
Qed.

(** A fence that was persisted covers its lineage below the generation. *)
Lemma persist_raises fid lin g f f' r :
  persist fid lin g f = (f', Ok r) →
  live (table f') = raise lin g (live (table f)) ∧ direct_ops (table f') = direct_ops (table f).
Proof.
  intros (f1 & [] & H1 & Hrun)%st_bind_ok. pose proof (db_exec_table
    (insert_fence_row fid lin g) f) as Ht. rewrite H1 in Ht. simpl in Ht.
  rewrite st_bind_eq in Hrun. unfold set_table in Hrun. simplify_eq/=. by rewrite Ht.
Qed.

Lemma raise_fences lin g f f' ini :
  live (table f') = raise lin g (live (table f)) → fenced_by lin g ini = true →
  table_is_fenced (table f') ini = true.
Proof.
  unfold fenced_by, table_is_fenced. intros ->.
  rewrite andb_true_iff, bool_decide_eq_true. intros [-> Hg].
  rewrite raise_lookup, decide_True by done. zbool; lia.
Qed.

(** The parts of an applied fence; an error leaves a part of them. *)
Lemma apply_fence_locked_inv now p n n' r :
  store_wf (n_store n) → apply_fence_locked now p n = (n', r) →
  let lin := fence_lineage p in let g := live_generation p in
  (live (table (n_fences n')) = live (table (n_fences n)) ∨
   live (table (n_fences n')) = raise lin g (live (table (n_fences n)))) ∧
  (∃ ids : list string, ∀ cid, commands (n_store n') !! cid =
     (if decide (cid ∈ ids) then fence_effect now lin g else id) <$> commands (n_store n) !! cid) ∧
  same_lists (n_store n) (n_store n') ∧
  ∀ os close, r = Ok (os, close) →
    live (table (n_fences n')) = raise lin g (live (table (n_fences n))) ∧
    (∀ cid, commands (n_store n') !! cid = fence_effect now lin g <$> commands (n_store n) !! cid) ∧
    (∀ o, o ∈ os ↔ (∃ cid c, commands (n_store n) !! cid = Some c ∧ o ∈ fence_report lin g c) ∨
                   o ∈ direct_outcomes (table (n_fences n')) lin g).
Proof.
  intros W Hrun lin g. unfold apply_fence_locked in Hrun. rewrite st_bind_eq in Hrun.
  unfold on_fences, st_zoom in Hrun. fold lin g in Hrun.
  pose proof (db_exec_table (insert_fence_row (fence_id p) lin g) (n_fences n)) as Htab.
  destruct (persist _ _ _ (n_fences n)) as [f1 [[]|e]] eqn:Hp.
  2: { simplify_eq. split; [|split; [exists []|done]].
       - left. revert Hp. unfold persist. rewrite st_bind_eq.
         destruct (db_exec _ (n_fences n)) as [f2 [[]|e2]]; [rewrite st_bind_eq; done|].
         intros [= <- _]. simpl in *. by rewrite Htab.
       - intros cid. rewrite (decide_False (P := cid ∈ [])) by apply not_elem_of_nil.
         by rewrite option_fmap_id. }
  destruct (persist_raises _ _ _ _ _ _ Hp) as [Hl _]. rewrite st_bind_eq in Hrun.
  unfold on_store, st_zoom, list_instances in Hrun. rewrite st_bind_eq in Hrun. simpl in Hrun.
  rewrite st_bind_eq in Hrun.
  destruct (fence_instances now lin g _ _) as [n3 r3] eqn:H3.
  eapply (fence_instances_spec now lin g (mkNode (n_store n) f1)) in H3
    as (dn & [Fc Fl Ff] & _ & Hown & Ho); [|done|].
  2: { split; [|by intros ?|done]. intros cid. cbn.
       rewrite (decide_False (P := cid ∈ [])) by apply not_elem_of_nil. by rewrite option_fmap_id. }
  simpl in *.
  assert (n3 = n' ∧ (∀ os close, r = Ok (os, close) → ∃ o3, r3 = Ok o3 ∧
    os = o3 ++ direct_outcomes (table (n_fences n')) lin g)) as (<- & Hr).
  { destruct r3; [rewrite st_bind_eq in Hrun; simpl in Hrun; rewrite st_ret_eq in Hrun|];
      simplify_eq; naive_solver. }
  rewrite Ff. split_and!; [by right|by exists dn|done|].
  intros os close Hos. destruct (Hr _ _ Hos) as (o3 & -> & ->). specialize (Ho _ eq_refl).
  assert (∀ cid c, commands (n_store n) !! cid = Some c → ∃ x,
    x ∈ ((λ p, instance p.2) <$> btree_to_list (instances (n_store n))) ∧
    owns (n_store n) (inst_id x) cid) as Hall.
  { intros cid c Hc. destruct (proj1 (wf_owned _ W cid)) as (i & ri & Hri & Hi); [by rewrite Hc|].
    exists (instance ri). rewrite (wf_inst _ W _ _ Hri). split; [|by exists ri].
    apply list_elem_of_fmap. exists (i, ri). split; [done|]. by apply elem_of_btree. }
  split_and!; [done| |].
  - intros cid. rewrite Fc. destruct (commands (n_store n) !! cid) as [c|] eqn:Hc; [|done]. simpl.
    destruct (Hall _ _ Hc) as (x & Hx & Hox). rewrite decide_True by eauto. done.
  - intros o. rewrite elem_of_app, Ho, Ff. split; (intros [Hl'|Hr']; [left|by right]).
    + destruct Hl' as (x & cid & c & _ & _ & ? & ?). eauto.
    + destruct Hl' as (cid & c & Hc & Hrep). destruct (Hall _ _ Hc) as (x & Hx & Hox). eauto 10.
Qed.

(** C14. Applying a fence cancels exactly the undelivered work of the fenced
    generation: a command initiated below the live generation that is neither
    settled nor handed to its executor is settled [rejected(fenced)] and
    acknowledged as cancelled, every other command keeps its record, a
    delivered one is acknowledged as unknown, and from then on the initiator is
    refused. *)
Theorem fence_cancels_exactly_the_undelivered now p n n' os close :
  store_wf (n_store n) → apply_fence_locked now p n = (n', Ok (os, close)) →
  ∀ cid c, commands (n_store n) !! cid = Some c →
    commands (n_store n') !! cid =
      Some (if cancellable (fence_lineage p) (live_generation p) c
            then settle_command now Rejected (Some FENCED_REASON) ExecNotDispatched c else c) ∧
    (cancellable (fence_lineage p) (live_generation p) c = true →
       mkOpOutcome (command_id c) FenceCancelled ∈ os) ∧
    (∀ ini, initiator c = Some ini → fenced_by (fence_lineage p) (live_generation p) ini = true →
       table_is_fenced (table (n_fences n')) ini = true ∧
       (cmd_state c ≠ Settled → dispatched c = true →
          mkOpOutcome (command_id c) FenceUnknown ∈ os)).
Proof.
  intros W Hrun cid c Hc.
  destruct (apply_fence_locked_inv now p n n' _ W Hrun) as (_ & _ & _ & Hok).
  destruct (Hok os close eq_refl) as (Hl & Hcmd & Hos).
  split_and!.
  - by rewrite Hcmd, Hc.
  - intros (ini & iid & Hi & Hf & Hn & Hd & Ht)%cancellable_spec. apply Hos. left.
    exists cid, c. split; [done|]. unfold fence_report.
    rewrite Hi, Hf, Hd, (decide_False (P := cmd_state c = Settled)), Ht by done.
    rewrite decide_True by eauto. by apply list_elem_of_singleton.
  - intros ini Hi Hf. split; [by eapply raise_fences|]. intros Hn Hd. apply Hos. left.
    exists cid, c. split; [done|]. unfold fence_report.
    rewrite Hi, Hf, Hd, (decide_False (P := cmd_state c = Settled)) by done.
    by apply list_elem_of_singleton.
Qed.

(** ** Delivery and cancellation: one winner *)

(** The atomic steps of the Node that concern a command: submission (the fence
    check and the insertion of [submit_command]), acceptance
    ([enqueue_existing]), the dispatch claim, a fence, the settlement a worker
    writes for a command it executed, one written over a copy of the command
    read earlier ([settle_without_driver] in [runtime.rs]), and the marking of
    unsettled commands after a lost carrier. *)
Inductive node_op : Type :=
| NSubmit (i : InstanceId) (c : Command)
| NAccept (now : string) (i : InstanceId) (cid : string)
| NClaim (now cid : string)
| NFence (now : string) (p : LineageFenceParams)
| NSettle (now : string) (i : InstanceId) (cid : string) (o : SettlementOutcome) (m : option string) (ex : ExecutionState)
| NStale (now : string) (i : InstanceId) (copy : Command) (o : SettlementOutcome) (m : option string) (ex : ExecutionState)
| NMark (now : string) (i : InstanceId).

Definition submit (i : InstanceId) (c : Command) : st NodeState NodeError bool :=
  _ ← on_fences (refuse_fenced (initiator c));
  on_store (insert_command i c).
Definition save_journal (now : string) (i : InstanceId) (c : Command) (label : string)
    : st NodeState NodeError unit :=
  on_store (_ ← save_command c; append_command_lifecycle now i c label).
Definition accept (now : string) (i : InstanceId) (cid : string) : st NodeState NodeError unit :=
  c ← on_store (get_command cid);
  save_journal now i (accept_command now c) "accepted".
Definition settle (now : string) (i : InstanceId) (cid : string) (o : SettlementOutcome)
    (m : option string) (ex : ExecutionState) : st NodeState NodeError unit :=
  c ← on_store (get_command cid);
  save_journal now i (settle_command now o m ex c) "settled".

Definition node_step (o : node_op) (n : NodeState) : NodeState :=
  match o with
  | NSubmit i c => (submit i c n).1
  | NAccept now i cid => (accept now i cid n).1
  | NClaim now cid => (claim now cid n).1
  | NFence now p => (apply_fence_locked now p n).1
  | NSettle now i cid oc m ex => (settle now i cid oc m ex n).1
  | NStale now i copy oc m ex => (save_journal now i (settle_command now oc m ex copy) "settled" n).1
  | NMark now i => (on_store (mark_unsettled_unknown now i) n).1
  end.
Definition node_run (os : list node_op) (n : NodeState) : NodeState :=
  foldl (λ n o, node_step o n) n os.

Definition node_op_in_range (o : node_op) : Prop :=
  match o with NSubmit _ c | NStale _ _ c _ _ _ => is_u64 (cmd_revision c) | _ => True end.

(** A settlement that is not the fence's own. *)
Definition not_fence_settlement (o : SettlementOutcome) (m : option string) : Prop :=
  o ≠ Rejected ∨ m ≠ Some FENCED_REASON.

(** *** The ledger stays well formed *)

Definition node_wf (n : NodeState) : Prop := store_wf (n_store n).

Lemma on_store_keeps {A} (c : st MemoryState NodeError A) Q :
  preserves store_wf c Q → preserves node_wf (on_store c) Q.
Proof.
  intros Hc n W. unfold on_store, st_zoom. destruct (Hc (n_store n) W) as [H1 H2].
  destruct (c (n_store n)) as [s r]. by split.
Qed.
Lemma on_fences_keeps {A} (c : st NodeFences NodeError A) :
  preserves node_wf (on_fences c) (λ _, True).
Proof. intros n W. unfold on_fences, st_zoom. by destruct (c (n_fences n)). Qed.
Lemma get_node_keeps : preserves node_wf (st_get : st NodeState NodeError NodeState) (λ _, True).
Proof. by intros n W. Qed.
#[local] Hint Resolve on_store_keeps on_fences_keeps get_node_keeps get_command_wf
  save_command_keeps reject_keeps snapshot_keeps settle_command_u64 : remuda.

Lemma claim_keeps now cid : preserves node_wf (claim now cid) (λ _, True).
Proof.
  eapply preserves_bind; [eauto with remuda|]. intros c0 _. destruct (initiator c0) as [ini|];
    [|auto with remuda].
  eapply preserves_bind; [auto with remuda|]. intros n _.
  eapply preserves_bind; [eauto with remuda|]. intros c [_ Hc].
  case_decide; [auto with remuda|]. destruct (table_is_fenced _ _).
  - destruct (target_instance c) as [iid|]; [|auto with remuda].
    eapply preserves_bind; [eauto with remuda|]. auto with remuda.
  - eapply preserves_bind; [apply on_store_keeps, save_command_keeps; exact Hc|]. auto with remuda.
Qed.

Lemma fence_command_keeps now lin g c :
  in_u64 c → preserves node_wf (fence_command now lin g c) (λ _, True).
Proof.
  intros Hc. unfold fence_command.
  repeat (case_match; auto with remuda). eapply preserves_bind; [eauto with remuda|]. auto with remuda.
Qed.
Lemma fence_commands_keeps now lin g cs :
  Forall in_u64 cs → preserves node_wf (fence_commands now lin g cs) (λ _, True).
Proof.
  induction 1 as [|c cs Hc _ IH]; simpl; [auto with remuda|].
  eapply preserves_bind; [by apply fence_command_keeps|]. intros ? _.
  eapply preserves_bind; [done|]. auto with remuda.
Qed.
Lemma fence_instances_keeps now lin g xs :
  preserves node_wf (fence_instances now lin g xs) (λ _, True).
Proof.
  induction xs as [|x xs IH]; simpl; [auto with remuda|].
  eapply preserves_bind; [eauto with remuda|]. intros cs Hcs. cbv beta in Hcs.
  eapply preserves_bind; [by apply fence_commands_keeps|]. intros ? _.
  eapply preserves_bind; [done|]. auto with remuda.
Qed.
Lemma apply_fence_keeps now p : preserves node_wf (apply_fence_locked now p) (λ _, True).
Proof.
  eapply preserves_bind; [auto with remuda|]. intros _ _.
  eapply preserves_bind; [apply (on_store_keeps _ (λ _, True)); by intros s W|]. intros xs _.
  eapply preserves_bind; [apply fence_instances_keeps|]. intros os _.
  eapply preserves_bind; [auto with remuda|]. auto with remuda.
Qed.

Lemma node_step_wf o n : node_op_in_range o → node_wf n → node_wf (node_step o n).
Proof.
  intros Ho W. destruct o as [i c|now j cid|now cid|now p|now j cid oc m ex|now j c oc m ex|now i]; simpl in *.
  - refine (proj1 (preserves_bind node_wf _ _ (λ _, True) (λ _, True) _ _ n W));
      [auto with remuda|]. intros _ _. apply on_store_keeps. intros s Ws.
    split; [by apply insert_command_wf|done].
  - refine (proj1 (preserves_bind node_wf _ _ _ (λ _, True) (on_store_keeps _ _ (get_command_wf cid))
      _ n W)). intros c [_ Hc]. apply on_store_keeps, save_journal_keeps. by apply saturating_succ_u64.
  - by apply claim_keeps.
  - by apply apply_fence_keeps.
  - refine (proj1 (preserves_bind node_wf _ _ _ (λ _, True) (on_store_keeps _ _ (get_command_wf cid))
      _ n W)). intros c [_ Hc]. by apply on_store_keeps, save_journal_keeps, settle_command_u64.
  - refine (proj1 (on_store_keeps _ (λ _, True) _ n W)). by apply save_journal_keeps, settle_command_u64.
  - apply (on_store_keeps (mark_unsettled_unknown now i) (λ _, True)); [|done].
    intros s Ws. split; [by apply mark_unsettled_unknown_wf|done].
Qed.

(** *** What a step can do to one command *)

Inductive cmd_step (cid : string) : node_op → Command → Command → Prop :=
| CsSame o x : cmd_step cid o x x
| CsAccept now i x : cmd_step cid (NAccept now i cid) x (accept_command now x)
| CsClaim now x : cmd_state x ≠ Settled →
    cmd_step cid (NClaim now cid) x (with_dispatch TransportWritten x)
| CsRefuse now x : cmd_state x ≠ Settled →
    cmd_step cid (NClaim now cid) x
      (settle_command now Rejected (Some FENCED_REASON) ExecNotDispatched x)
| CsFence now p x :
    cmd_step cid (NFence now p) x (fence_effect now (fence_lineage p) (live_generation p) x)
| CsSettle now i oc m ex x : cmd_step cid (NSettle now i cid oc m ex) x (settle_command now oc m ex x)
| CsStale now i c oc m ex x : command_id c = cid →
    cmd_step cid (NStale now i c oc m ex) x (settle_command now oc m ex c)
| CsMark now i k x : cmd_step cid (NMark now i) x (Nat.iter k (mark_unknown now) x).

Lemma on_store_commands {A} (c : st MemoryState NodeError A) n :
  n_store (on_store c n).1 = (c (n_store n)).1 ∧ (on_store c n).2 = (c (n_store n)).2 ∧
  n_fences (on_store c n).1 = n_fences n.
Proof. unfold on_store, st_zoom. by destruct (c (n_store n)). Qed.
Lemma on_fences_commands {A} (c : st NodeFences NodeError A) n :
  n_store (on_fences c n).1 = n_store n.
Proof. unfold on_fences, st_zoom. by destruct (c (n_fences n)). Qed.

Lemma get_command_eq cid n :
  on_store (get_command cid) n
  = (n, ok_or (commands (n_store n) !! cid) (NotFound "command" cid)).
Proof. unfold on_store, st_zoom, get_command. rewrite st_bind_eq. simpl. by destruct n. Qed.

(** Writing one command leaves the others alone. *)
Lemma write_cases cid d x y (m m' : gmap string Command) :
  m !! cid = Some x → (m' = m ∨ m' = <[d := y]> m) →
  m' !! cid = Some x ∨ (d = cid ∧ m' !! cid = Some y).
Proof.
  intros Hx [->| ->]; [by left|]. destruct (decide (d = cid)) as [->|Hne].
  - right. by rewrite lookup_insert_eq.
  - left. by rewrite lookup_insert_ne.
Qed.

(** The verdict of a claim, and what it writes. *)
Lemma claim_spec now cid n x ini :
  node_wf n → commands (n_store n) !! cid = Some x → initiator x = Some ini →
  let n' := (claim now cid n).1 in
  n_fences n' = n_fences n ∧
  (∀ v, (claim now cid n).2 = Ok v → v =
     if decide (cmd_state x = Settled) then (if settled_fenced x then ClaimFenced else Deliver)
     else if table_is_fenced (table (n_fences n)) ini then ClaimFenced else Deliver) ∧
  (commands (n_store n') = commands (n_store n) ∨
   ∃ y, cmd_step cid (NClaim now cid) x y ∧ cmd_state x ≠ Settled ∧
     commands (n_store n') = <[cid := y]> (commands (n_store n)) ∧
     (table_is_fenced (table (n_fences n)) ini = true → settled_fenced y = true) ∧
     (table_is_fenced (table (n_fences n)) ini = false → y = with_dispatch TransportWritten x)) ∧
  (cmd_state x ≠ Settled → table_is_fenced (table (n_fences n)) ini = false →
     commands (n_store n') = <[cid := with_dispatch TransportWritten x]> (commands (n_store n))).
Proof.
  intros W Hx Hini. destruct (wf_key _ W _ _ Hx) as [Hid Hu]. unfold claim.
  rewrite st_bind_eq, get_command_eq, Hx. simpl. rewrite Hini.
  rewrite st_bind_eq. simpl. rewrite st_bind_eq, get_command_eq, Hx. simpl.
  destruct (decide (cmd_state x = Settled)) as [Hs|Hs].
  { simpl. split_and!; [done|by intros ? [= <-]|by left|done]. }
  destruct (table_is_fenced (table (n_fences n)) ini) eqn:Hf.
  - destruct (target_instance x) as [iid|];
      [|simpl; split_and!; [done|by intros ? [= <-]|by left|done]].
    rewrite st_bind_eq.
    destruct (on_store_commands (reject_before_dispatch now iid x FENCED_REASON) n) as (H1 & _ & H3).
    destruct (on_store _ n) as [n1 [r|e]]; simpl in *;
      (split_and!; [done|by intros ? [=]| |done]);
      rewrite H1; destruct (reject_cases now iid x FENCED_REASON (n_store n)) as [Hc|Hc];
        rewrite Hc; [by left|right|by left|right]; rewrite Hid; eexists;
        (split; [by apply CsRefuse|by split_and!]).
  - rewrite st_bind_eq. unfold on_store, st_zoom.
    rewrite (save_command_ok (with_dispatch TransportWritten x) x) by (simpl; rewrite ?Hid; done || lia).
    simpl. split_and!; [done|by intros ? [=]| |by rewrite Hid].
    right. rewrite Hid. eexists. split; [by apply CsClaim|by split_and!].
Qed.

Lemma submit_keeps_cmd i c cid n x :
  commands (n_store n) !! cid = Some x → commands (n_store (submit i c n).1) !! cid = Some x.
Proof.
  intros Hx. unfold submit. rewrite st_bind_eq.
  pose proof (on_fences_commands (refuse_fenced (initiator c)) n) as Hs.
  destruct (on_fences _ n) as [n1 [[]|e]]; simpl in *; [|by rewrite Hs].
  destruct (on_store_commands (insert_command i c) n1) as (-> & _). rewrite Hs.
  unfold insert_command. rewrite st_bind_eq. simpl.
  destruct (commands (n_store n) !! command_id c) as [e|] eqn:He; [by case_decide|].
  rewrite st_bind_eq, get_record_eq. destruct (instances (n_store n) !! i); [|done]. simpl.
  rewrite lookup_insert_ne; [done|congruence].
Qed.
(** A save of one command with its journal entry. *)
Lemma save_journal_cmd now j z z' what cid d n x :
  node_wf n → commands (n_store n) !! cid = Some x → commands (n_store n) !! d = Some z → command_id z' = command_id z →
  let m := commands (n_store (save_journal now j z' what n).1) in
  m !! cid = Some x ∨ (d = cid ∧ m !! cid = Some z').
Proof.
  intros W Hx Hz Hid'. unfold save_journal. rewrite (proj1 (on_store_commands _ n)).
  destruct (wf_key _ W _ _ Hz) as [Hid _].
  destruct (write_cases cid _ x _ _ _ Hx (save_journal_cases now j z' what (n_store n))) as [Hc|[Hd Hc]];
    cbn zeta; rewrite Hc; [by left|]. right. split; [congruence|done].
Qed.
Lemma claim_cmd now d cid n x :
  node_wf n → commands (n_store n) !! cid = Some x →
  ∃ y, commands (n_store (claim now d n).1) !! cid = Some y ∧ cmd_step cid (NClaim now d) x y.
Proof.
  intros W Hx. destruct (commands (n_store n) !! d) as [z|] eqn:Hz; cycle 1.
  { exists x. split; [|constructor]. unfold claim. by rewrite st_bind_eq, get_command_eq, Hz. }
  destruct (initiator z) as [ini|] eqn:Hi; cycle 1.
  { exists x. split; [|constructor]. unfold claim. rewrite st_bind_eq, get_command_eq, Hz. simpl. by rewrite Hi. }
  destruct (claim_spec now d n z ini W Hz Hi) as (_ & _ & [Hc|(y & Hy & _ & Hc & _)] & _); rewrite Hc;
    [exists x; split; [done|constructor]|].
  destruct (decide (d = cid)) as [->|Hne].
  - rewrite Hx in Hz. injection Hz as <-. exists y. by rewrite lookup_insert_eq.
  - exists x. rewrite lookup_insert_ne by done. split; [done|constructor].
Qed.
Lemma node_step_cmd cid o n x :
  node_wf n → commands (n_store n) !! cid = Some x →
  ∃ y, commands (n_store (node_step o n)) !! cid = Some y ∧ cmd_step cid o x y.
Proof.
  intros W Hx. destruct o as [i c|now j d|now d|now p|now j d oc m ex|now j c oc m ex|now i]; simpl.
  - exists x. split; [by apply submit_keeps_cmd|constructor].
  - unfold accept. rewrite st_bind_eq, get_command_eq.
    destruct (commands (n_store n) !! d) as [z|] eqn:Hz; simpl; [|exists x; split; [done|constructor]].
    destruct (save_journal_cmd now j z (accept_command now z) "accepted" cid d n x W Hx Hz eq_refl) as [Hc|[-> Hc]];
      eexists; (split; [exact Hc|]); simplify_eq; constructor.
  - by apply claim_cmd.
  - destruct (apply_fence_locked now p n) as [n' r] eqn:Hp.
    destruct (apply_fence_locked_inv now p n n' r W Hp) as (_ & (ids & Hc) & _). simpl.
    rewrite Hc, Hx. simpl. eexists; split; [done|]. case_decide; constructor.
  - unfold settle. rewrite st_bind_eq, get_command_eq.
    destruct (commands (n_store n) !! d) as [z|] eqn:Hz; simpl; [|exists x; split; [done|constructor]].
    destruct (save_journal_cmd now j z (settle_command now oc m ex z) "settled" cid d n x W Hx Hz eq_refl) as [Hc|[-> Hc]];
      eexists; (split; [exact Hc|]); simplify_eq; constructor.
  - unfold save_journal. rewrite (proj1 (on_store_commands _ n)).
    destruct (write_cases cid _ x _ _ _ Hx (save_journal_cases now j (settle_command now oc m ex c) "settled" (n_store n)))
      as [Hc|[Hd Hc]]; rewrite Hc; eexists; (split; [done|]); by constructor.
  - destruct (on_store_commands (mark_unsettled_unknown now i) n) as (-> & _).
    unfold mark_unsettled_unknown. rewrite st_bind_eq, get_record_eq.
    destruct (instances (n_store n) !! i) as [r|]; [|exists x; split; [done|constructor]]. simpl.
    rewrite lookup_mark_all, Hx. simpl. eexists; split; [done|constructor].
Qed.

(** *** Handed over: never cancelled *)

(** Handed to its executor, or settled by something else than a fence. *)
Definition sent (x : Command) : Prop :=
  if decide (cmd_state x = Settled) then settled_fenced x = false else dispatched x = true.

(** A copy of [cid] has its initiator. *)
Definition copies (cid : string) (ini : option Initiator) (o : node_op) : Prop :=
  match o with NStale _ _ c _ _ _ => command_id c = cid → initiator c = ini | _ => True end.
(** [cid] is given back: it is accepted anew, a claim of it is refused or fails,
    or it is settled the way a fence settles. *)
Definition is_fence_settlement (o : SettlementOutcome) (m : option string) : bool :=
  bool_decide (o = Rejected) && bool_decide (m = Some FENCED_REASON).
Definition gives_back (cid : string) (o : node_op) (n : NodeState) : bool :=
  match o with
  | NAccept _ _ d => bool_decide (d = cid)
  | NClaim now d =>
      bool_decide (d = cid) && match (claim now d n).2 with Ok Deliver => false | _ => true end
  | NSettle _ _ d oc m _ => bool_decide (d = cid) && is_fence_settlement oc m
  | NStale _ _ c oc m _ => bool_decide (command_id c = cid) && is_fence_settlement oc m
  | _ => false
  end.
Fixpoint given_back (cid : string) (os : list node_op) (n : NodeState) : bool :=
  match os with [] => false | o :: os => gives_back cid o n || given_back cid os (node_step o n) end.
Lemma not_fence_settlement_iff oc m : is_fence_settlement oc m = false ↔ not_fence_settlement oc m.
Proof.
  unfold is_fence_settlement, not_fence_settlement. rewrite andb_false_iff, !bool_decide_eq_false. done.
Qed.

Lemma iter_mark_unknown_fields now k x :
  let y := Nat.iter k (mark_unknown now) x in
  cmd_state y = cmd_state x ∧ dispatch y = dispatch x ∧ settlement y = settlement x ∧
  initiator y = initiator x.
Proof.
  assert (∀ c, cmd_state (mark_unknown now c) = cmd_state c ∧ dispatch (mark_unknown now c) = dispatch c
    ∧ settlement (mark_unknown now c) = settlement c ∧ initiator (mark_unknown now c) = initiator c)
    as Hone by (intros c; unfold mark_unknown; by case_decide).
  induction k as [|k IH]; simpl in *; [done|].
  destruct (Hone (Nat.iter k (mark_unknown now) x)) as (-> & -> & -> & ->). done.
Qed.

Lemma settled_fenced_settle now oc m ex x :
  not_fence_settlement oc m → settled_fenced (settle_command now oc m ex x) = false.
Proof.
  unfold not_fence_settlement, settled_fenced. simpl. intros H. apply andb_false_iff.
  destruct (decide (oc = Rejected)); [right|left; by apply bool_decide_eq_false].
  destruct m as [m|]; [|done]. simpl. apply bool_decide_eq_false. naive_solver.
Qed.

Lemma cmd_step_initiator cid o x y : cmd_step cid o x y → copies cid (initiator x) o → initiator y = initiator x.
Proof.
  destruct 1; try done.
  - unfold fence_effect. by destruct (cancellable _ _ _).
  - simpl. auto.
  - by destruct (iter_mark_unknown_fields now k x) as (_ & _ & _ & ?).
Qed.

(** A claim that said "deliver" leaves the command handed over. *)
Lemma claim_sent now cid n x ini :
  node_wf n → commands (n_store n) !! cid = Some x → initiator x = Some ini → (claim now cid n).2 = Ok Deliver →
  ∃ y, commands (n_store (claim now cid n).1) !! cid = Some y ∧ initiator y = Some ini ∧ sent y.
Proof.
  intros W Hx Hi Hd. destruct (claim_spec now cid n x ini W Hx Hi) as (_ & Hv & Hc & Hc').
  specialize (Hv _ Hd). unfold sent. destruct (decide (cmd_state x = Settled)) as [Hs|Hs].
  - exists x. rewrite decide_True by done. destruct Hc as [->|(? & _ & ? & _)]; [|done].
    split_and!; [done..|]. by destruct (settled_fenced x).
  - destruct (table_is_fenced _ _); [done|]. exists (with_dispatch TransportWritten x).
    rewrite Hc', lookup_insert_eq by done. simpl. by rewrite decide_False.
Qed.

Lemma cmd_step_sent cid o n x y :
  cmd_step cid o x y → gives_back cid o n = false → match o with NClaim _ d => d ≠ cid | _ => True end →
  sent x → sent y.
Proof.
  unfold sent. destruct 1 as [| | | |now p x|now j oc m ex x|now j c oc m ex x|now i k x]; simpl; intros Hg Hn Hs;
    rewrite ?bool_decide_true in Hg by done; try done.
  - unfold fence_effect. destruct (cancellable _ _ _) eqn:Hc; [|done].
    apply cancellable_spec in Hc as (? & ? & _ & _ & Hu & Hd & _).
    rewrite decide_False in Hs by done. congruence.
  - by apply (settled_fenced_settle now oc m ex x), not_fence_settlement_iff.
  - by apply (settled_fenced_settle now oc m ex c), not_fence_settlement_iff.
  - destruct (iter_mark_unknown_fields now k x) as (H1 & H2 & H3 & _).
    unfold settled_fenced, dispatched in *. by rewrite H1, H2, H3.
Qed.

Lemma node_step_sent cid o n x ini :
  node_wf n → copies cid (Some ini) o → gives_back cid o n = false →
  commands (n_store n) !! cid = Some x → initiator x = Some ini → sent x →
  ∃ y, commands (n_store (node_step o n)) !! cid = Some y ∧ initiator y = Some ini ∧ sent y.
Proof.
  intros W Hcp Hg Hx Hi Hs.
  assert ((∃ now, o = NClaim now cid) ∨ match o with NClaim _ d => d ≠ cid | _ => True end) as [[now ->]|Hn].
  { destruct o as [| |now d| | | |]; try by right. destruct (decide (d = cid)) as [->|]; [left; eauto|by right]. }
  - apply (claim_sent now cid n x ini W Hx Hi). cbn [gives_back] in Hg. rewrite bool_decide_true in Hg by done.
    by destruct ((claim now cid n).2) as [[]|].
  - destruct (node_step_cmd cid o n x W Hx) as (y & Hy & Hstep). exists y. split_and!; [done| |].
    + rewrite <- Hi. apply (cmd_step_initiator _ _ _ _ Hstep). by rewrite Hi.
    + by eapply cmd_step_sent.
Qed.
Lemma node_run_sent cid os n x ini :
  node_wf n → Forall node_op_in_range os → Forall (copies cid (Some ini)) os → given_back cid os n = false →
  commands (n_store n) !! cid = Some x → initiator x = Some ini → sent x →
  node_wf (node_run os n) ∧
  ∃ y, commands (n_store (node_run os n)) !! cid = Some y ∧ sent y.
Proof.
  revert n x. induction os as [|o os IH]; intros n x W Ho Hc Hg Hx Hi Hs; simpl; [by eauto|].
  apply Forall_cons_1 in Ho as [Ho Hos]. apply Forall_cons_1 in Hc as [Hc Hcs].
  cbn [given_back] in Hg. apply orb_false_iff in Hg as [Hg Hgs].
  destruct (node_step_sent cid o n x ini W Hc Hg Hx Hi Hs) as (y & Hy & Hyi & Hys).
  eapply IH; [by apply node_step_wf|done..].
Qed.

Lemma direct_outcomes_not_cancelled t lin g cid :
  mkOpOutcome cid FenceCancelled ∉ direct_outcomes t lin g.
Proof.
  unfold direct_outcomes. intros ([op e] & Heq & _)%list_elem_of_fmap.
  unfold report_op in Heq. simpl in Heq. by destruct (op_outcome e) as [[]|].
Qed.

Lemma fence_report_cancelled lin g c cid :
  mkOpOutcome cid FenceCancelled ∈ fence_report lin g c →
  command_id c = cid ∧ ¬ sent c ∧
  ∃ ini, initiator c = Some ini ∧ fenced_by lin g ini = true ∧
    (cmd_state c = Settled → settled_fenced c = true).
Proof.
  unfold fence_report, sent. destruct (initiator c) as [ini|]; [|by intros ?%not_elem_of_nil].
  destruct (fenced_by lin g ini) eqn:Hf; [|by intros ?%not_elem_of_nil].
  destruct (decide (cmd_state c = Settled)).
  - destruct (settlement c) as [x| |]; try by intros ?%not_elem_of_nil.
    case_decide; [by intros ?%list_elem_of_singleton|].
    destruct (settled_fenced c) eqn:Hsf; [|by intros ?%not_elem_of_nil].
    intros [= ->]%list_elem_of_singleton. naive_solver.
  - destruct (dispatched c); [by intros ?%list_elem_of_singleton|].
    intros Heq%list_elem_of_singleton. simplify_eq. naive_solver.
Qed.

(** C11. A command claimed for delivery is not reported cancelled while the claim
    stands: when a fence acknowledges as cancelled a command whose dispatch claim
    had said "deliver", then in between, whatever the Node did, the command was
    given back, that is, a later claim of it was refused or failed, it was
    accepted anew, or it was settled [rejected(fenced)].  (A PTY worker claims a
    prompt again after a write that put nothing on the terminal.)  Copies of the
    command that are written back carry its initiator. *)
Theorem claimed_command_is_cancelled_only_when_given_back now cid n x ini os :
  node_wf n → commands (n_store n) !! cid = Some x → initiator x = Some ini →
  (claim now cid n).2 = Ok Deliver →
  Forall node_op_in_range os → Forall (copies cid (Some ini)) os →
  ∀ now' p n2 acks close,
    apply_fence_locked now' p (node_run os (claim now cid n).1) = (n2, Ok (acks, close)) →
    mkOpOutcome cid FenceCancelled ∈ acks → given_back cid os (claim now cid n).1 = true.
Proof.
  intros W Hx Hi Hd Ho Ha now' p n2 acks close Hf Hin. apply not_false_iff_true. intros Hg.
  destruct (claim_sent now cid n x ini W Hx Hi Hd) as (y & Hy & Hyi & Hys).
  destruct (node_run_sent cid os _ y ini (proj1 (claim_keeps now cid n W)) Ho Ha Hg Hy Hyi Hys)
    as (W2 & z & Hz & Hzs).
  destruct (apply_fence_locked_inv now' p _ n2 _ W2 Hf) as (_ & _ & _ & Hok).
  destruct (Hok _ _ eq_refl) as (_ & _ & Hos). apply Hos in Hin as [(d & c & Hdc & Hr)|Hr].
  - apply fence_report_cancelled in Hr as (Hid & Hns & _).
    destruct (wf_key _ W2 _ _ Hdc) as [Hk _]. rewrite <-Hk, Hid in Hdc. by simplify_eq.
  - by eapply direct_outcomes_not_cancelled.
Qed.

(** *** Cancelled: never handed over *)

Lemma refuse_fenced_keeps_fences ini f : (refuse_fenced ini f).1 = f.
Proof.
  unfold refuse_fenced, is_fenced. rewrite st_bind_eq. destruct ini as [i|]; [|done].
  rewrite st_bind_eq. simpl. by destruct (table_is_fenced _ _).
Qed.

Lemma raise_keeps_fenced lin g t t' ini :
  live t' = live t ∨ live t' = raise lin g (live t) →
  table_is_fenced t ini = true → table_is_fenced t' ini = true.
Proof.
  unfold table_is_fenced. intros [->| ->]; [done|]. rewrite raise_lookup.
  case_decide as Hl; [subst|done]. destruct (live t !! ini_lineage_id ini); [|done].
  simpl. intros. zbool; lia.
Qed.

(** No step lowers a fence. *)
Lemma node_step_fenced o n ini :
  node_wf n → table_is_fenced (table (n_fences n)) ini = true →
  table_is_fenced (table (n_fences (node_step o n))) ini = true.
Proof.
  intros W Hf. destruct o as [i c|now j d|now d|now p|now j d oc m ex|now j c oc m ex|now i]; simpl.
  - unfold submit. rewrite st_bind_eq. unfold on_fences, st_zoom.
    pose proof (refuse_fenced_keeps_fences (initiator c) (n_fences n)) as Hr.
    destruct (refuse_fenced _ (n_fences n)) as [f1 [[]|e]]; simpl in *; subst; [|done].
    by destruct (on_store_commands (insert_command i c) (mkNode (n_store n) (n_fences n)))
      as (_ & _ & ->).
  - unfold accept. rewrite st_bind_eq, get_command_eq.
    destruct (commands (n_store n) !! d) as [z|]; simpl; [|done].
    unfold save_journal. by rewrite (proj2 (proj2 (on_store_commands _ n))).
  - unfold claim. rewrite st_bind_eq, get_command_eq.
    destruct (commands (n_store n) !! d) as [z|] eqn:Hz; simpl; [|done].
    destruct (initiator z) as [ini'|] eqn:Hi; [|done].
    pose proof (claim_spec now d n z ini' W Hz Hi) as (Hk & _). revert Hk. unfold claim.
    rewrite st_bind_eq, get_command_eq, Hz. simpl. rewrite Hi. by intros ->.
  - destruct (apply_fence_locked now p n) as [n' r] eqn:Hp.
    destruct (apply_fence_locked_inv now p n n' r W Hp) as (Hl & _). simpl.
    by eapply raise_keeps_fenced.
  - unfold settle. rewrite st_bind_eq, get_command_eq.
    destruct (commands (n_store n) !! d) as [z|]; simpl; [|done].
    unfold save_journal. by rewrite (proj2 (proj2 (on_store_commands _ n))).
  - unfold save_journal. by rewrite (proj2 (proj2 (on_store_commands _ n))).
  - by destruct (on_store_commands (mark_unsettled_unknown now i) n) as (_ & _ & ->).
Qed.

(** The initiator is fenced and, if the command is settled, the fence did it. *)
Definition withheld (ini : Initiator) (n : NodeState) (x : Command) : Prop :=
  initiator x = Some ini ∧ table_is_fenced (table (n_fences n)) ini = true ∧
  (cmd_state x = Settled → settled_fenced x = true).

(** A settlement other than a fence's is written over [cid]. *)
Definition settles_over (cid : string) (o : node_op) : bool :=
  match o with
  | NSettle _ _ d oc m _ => bool_decide (d = cid) && negb (is_fence_settlement oc m)
  | NStale _ _ c oc m _ => bool_decide (command_id c = cid) && negb (is_fence_settlement oc m)
  | _ => false
  end.
Lemma settle_fence_settled now oc m ex x :
  negb (is_fence_settlement oc m) = false → settled_fenced (settle_command now oc m ex x) = true.
Proof.
  unfold is_fence_settlement. intros [->%bool_decide_eq_true ->%bool_decide_eq_true]%negb_false_iff%andb_true_iff. done.
Qed.

Lemma cmd_step_withheld cid o x y :
  cmd_step cid o x y → settles_over cid o = false →
  (cmd_state x = Settled → settled_fenced x = true) → cmd_state y = Settled →
  settled_fenced y = true.
Proof.
  destruct 1 as [| | | |now p x|now j oc m ex x|now j c oc m ex x|now i k x]; simpl; intros Hb Hx Hy;
    rewrite ?bool_decide_true in Hb by done; try done; auto using settle_fence_settled.
  - unfold fence_effect in *. destruct (cancellable _ _ _); [done|auto].
  - destruct (iter_mark_unknown_fields now k x) as (H1 & _ & H3 & _).
    rewrite H1 in Hy. unfold settled_fenced in *. rewrite H3. auto.
Qed.

Lemma node_run_withheld cid os n x ini :
  node_wf n → Forall node_op_in_range os → Forall (copies cid (Some ini)) os → existsb (settles_over cid) os = false →
  commands (n_store n) !! cid = Some x → withheld ini n x →
  node_wf (node_run os n) ∧
  ∃ y, commands (n_store (node_run os n)) !! cid = Some y ∧ withheld ini (node_run os n) y.
Proof.
  revert n x. induction os as [|o os IH]; intros n x W Ho Hc Hb Hx Hw; simpl; [by eauto|].
  apply Forall_cons_1 in Ho as [Ho Hos]. apply Forall_cons_1 in Hc as [Hc Hcs].
  cbn [existsb] in Hb. apply orb_false_iff in Hb as [Hb Hbs]. destruct Hw as (Hi & Hf & Hs).
  destruct (node_step_cmd cid o n x W Hx) as (y & Hy & Hstep).
  apply (IH _ y); [by apply node_step_wf|done..|]. split_and!.
  - rewrite <- Hi. apply (cmd_step_initiator _ _ _ _ Hstep). by rewrite Hi.
  - by apply node_step_fenced.
  - by eapply cmd_step_withheld.
Qed.

(** C12. A command a fence reported cancelled is not handed over: if a later
    dispatch claim of it says "deliver", after any submissions, acceptances,
    claims, fences and settlements, then someone wrote another settlement over
    the fence's in between.  ([settle_without_driver] can, with the copy of an
    [instance.create] it read before the fence.)  Copies of the command that are
    written back carry its initiator. *)
Theorem cancelled_command_is_delivered_only_when_settled_over now p n n1 acks close cid c os :
  node_wf n → apply_fence_locked now p n = (n1, Ok (acks, close)) →
  mkOpOutcome cid FenceCancelled ∈ acks → commands (n_store n) !! cid = Some c →
  Forall node_op_in_range os → Forall (copies cid (initiator c)) os →
  ∀ now', (claim now' cid (node_run os n1)).2 = Ok Deliver → existsb (settles_over cid) os = true.
Proof.
  intros W Hf Hin Hcmd Ho Hcp now' Hd. apply not_false_iff_true. intros Hb.
  pose proof (proj1 (apply_fence_keeps now p n W)) as W1. rewrite Hf in W1. simpl in W1.
  destruct (apply_fence_locked_inv now p n n1 _ W Hf) as (_ & _ & _ & Hok).
  destruct (Hok _ _ eq_refl) as (Hl & Hc & Hos).
  apply Hos in Hin as [(d & c' & Hdc & Hr)|Hr]; [|by eapply direct_outcomes_not_cancelled].
  apply fence_report_cancelled in Hr as (Hid & Hns & ini & Hi & Hfb & Hs).
  destruct (wf_key _ W _ _ Hdc) as [Hk _]. rewrite <-Hk, Hid in Hdc.
  assert (c' = c) as -> by congruence. specialize (Hc cid). rewrite Hdc in Hc. simpl in Hc. rewrite Hi in Hcp.
  edestruct (node_run_withheld cid os n1) as (W2 & y & Hy & Hyi & Hyf & Hys); [done..| |].
  - split_and!; [|by eapply raise_fences|]; unfold fence_effect; destruct (cancellable _ _ _); done.
  - destruct (claim_spec now' cid _ y ini W2 Hy Hyi) as (_ & Hv & _). specialize (Hv _ Hd).
    rewrite Hyf in Hv. case_decide; [by rewrite Hys in Hv|done].
Qed.

(** ** Where the boundary leaks *)

(** A command that is already settled passes the dispatch claim whatever
    the fences say, unless a fence settled it.  A PTY instance's
    [instance.create] is settled before its first prompt is delivered, so the
    prompt of a fenced initiator still reaches the worker. *)
Theorem settled_create_prompt_passes_a_raised_fence now cid n c ini :
  commands (n_store n) !! cid = Some c → initiator c = Some ini →
  table_is_fenced (table (n_fences n)) ini = true →
  cmd_state c = Settled → settled_fenced c = false →
  claim now cid n = (n, Ok Deliver).
Proof.
  intros Hc Hi Hf Hs Hn. unfold claim. rewrite st_bind_eq, get_command_eq, Hc. simpl. rewrite Hi.
  rewrite st_bind_eq. simpl. rewrite st_bind_eq, get_command_eq, Hc. simpl.
  by rewrite decide_True, Hn.
Qed.

(** The ledger accepts a second settlement of the same revision: after a
    fence cancelled an accepted command, a worker holding the copy it accepted
    settles it "completed" and the ledger takes it, so a command acknowledged
    as cancelled ends up recorded as completed. *)
Theorem stale_settlement_overwrites_a_cancellation now1 now2 i j c s :
  commands s !! command_id c = Some c → is_u64 (cmd_revision c) →
  let s1 := (reject_before_dispatch now1 i c FENCED_REASON s).1 in
  commands s1 !! command_id c
    = Some (settle_command now1 Rejected (Some FENCED_REASON) ExecNotDispatched c) ∧
  commands (settle_without_driver now2 j c s1).1 !! command_id c
    = Some (settle_command now2 Completed None ExecNotDispatched c).
Proof.
  intros Hc Hu s1. subst s1.
  rewrite (reject_before_dispatch_commands now1 i c FENCED_REASON s c Hc Hu) by lia.
  split; [apply lookup_insert_eq|]. set (s1 := (reject_before_dispatch _ _ _ _ _).1).
  assert (commands s1 !! command_id c
    = Some (settle_command now1 Rejected (Some FENCED_REASON) ExecNotDispatched c)) as H1.
  { unfold s1. rewrite (reject_before_dispatch_commands now1 i c FENCED_REASON s c Hc Hu) by lia.
    apply lookup_insert_eq. }
  unfold settle_without_driver. rewrite st_bind_eq.
  rewrite (save_command_ok (settle_command now2 Completed None ExecNotDispatched c) _ s1 H1)
    by (simpl; lia).
  rewrite st_bind_eq. unfold append_command_lifecycle. rewrite st_bind_eq.
  pose proof (append_observation_commands now2 j (OCommandLifecycle
    (settle_command now2 Completed None ExecNotDispatched c) "settled")
    (set_command (settle_command now2 Completed None ExecNotDispatched c) s1)) as [Ha _].
  destruct (append_observation now2 j _ _) as [s2 [o|e]]; simpl in *; rewrite Ha;
    apply lookup_insert_eq.
Qed.

(** ** Witnesses *)

Definition w_names (fid : string) : string * Z := ("lin_1"%string, 4).
Definition w_fence_ops : list (@fence_op Value) :=
  [FPersist "fen_1" "lin_1" 4; FDatabase false; FOutcome "op_9"; FDatabase true; FRestart].

Lemma fence_survives_witness :
  table_is_fenced (table (fence_run (λ _, "i"%string) (λ _, None) (λ _, None) w_fence_ops fresh_fences))
    w_initiator = true.
Proof.
  apply (fence_survives_everything (V := Value) (λ _, "i"%string) (λ _, None) (λ _, None) w_names
    [FPersist "fen_1" "lin_1" 4] [FDatabase false; FOutcome "op_9"; FDatabase true; FRestart]
    w_initiator).
  - repeat constructor; vm_compute; congruence.
  - vm_compute. reflexivity.
  - vm_compute. reflexivity.
Defined.

Definition w_params : Value :=
  VObject [("initiator"%string, VObject []); ("opId"%string, VString "op_1")].
Definition w_decode (v : Value) : option Initiator := Some w_initiator.

Lemma retried_op_witness :
  direct_ops (table (restart (λ _, Some w_initiator) (fence_run (λ _, "i"%string)
    (λ _, Some w_initiator) w_decode
    [FEntry "gate.run" w_params; FPersist "fen_1" "lin_1" 4; FEntry "gate.run" w_params;
     FOutcome "op_1"] fresh_fences))) !! "op_1"%string
  = Some (mkDirectOp w_initiator (Some DirRefused)).
Proof.
  apply (retried_direct_op_reads_refused_after_restart (λ _, "i"%string) (λ _, Some w_initiator)
    w_decode "gate.run" w_params "op_1" w_initiator (mkDb ∅ ∅ ∅ true) fresh_fences "fen_1" 4);
    vm_compute; reflexivity.
Defined.

(** One instance with one accepted command of an initiator of [lin_1]. *)
Definition w_node_store : MemoryState :=
  store_run [SInsertInstance w_instance; SInsertCommand "inst_1" w_command;
             SSaveCommand (accept_command "t1" w_command)] empty_store.
Definition w_node : NodeState := mkNode w_node_store fresh_fences.
Definition w_fence : LineageFenceParams := mkFenceParams "fen_1" "lin_1" 4.
Definition w_fenced : NodeState := (apply_fence_locked "t2" w_fence w_node).1.
Definition w_acks : list FenceOpOutcome := [mkOpOutcome "cmd_1" FenceCancelled].

Lemma w_node_wf : node_wf w_node.
Proof.
  apply store_run_wf; [|apply empty_store_wf]. repeat constructor; vm_compute; congruence.
Qed.
Lemma w_fence_applied : apply_fence_locked "t2" w_fence w_node = (w_fenced, Ok (w_acks, [])).
Proof. vm_compute. reflexivity. Qed.

Lemma fence_cancels_witness :
  commands (n_store w_fenced) !! "cmd_1"%string
  = Some (settle_command "t2" Rejected (Some FENCED_REASON) ExecNotDispatched
            (accept_command "t1" w_command)).
Proof.
  apply (fence_cancels_exactly_the_undelivered "t2" w_fence w_node w_fenced w_acks []
    w_node_wf w_fence_applied "cmd_1" (accept_command "t1" w_command)).
  vm_compute. reflexivity.
Defined.

(** Claimed, fenced, claimed again and refused; then the fence is applied once
    more. *)
Definition w_reclaim : list node_op := [NFence "t3" w_fence; NClaim "t4" "cmd_1"].
Lemma claimed_witness :
  (apply_fence_locked "t6" w_fence (node_run w_reclaim (claim "t2" "cmd_1" w_node).1)).2
    = Ok ([mkOpOutcome "cmd_1" FenceCancelled], []) ∧
  given_back "cmd_1" w_reclaim (claim "t2" "cmd_1" w_node).1 = true.
Proof.
  assert (apply_fence_locked "t6" w_fence (node_run w_reclaim (claim "t2" "cmd_1" w_node).1)
    = ((apply_fence_locked "t6" w_fence (node_run w_reclaim (claim "t2" "cmd_1" w_node).1)).1,
       Ok ([mkOpOutcome "cmd_1" FenceCancelled], []))) as E by (vm_compute; reflexivity).
  split; [by rewrite E|].
  refine (claimed_command_is_cancelled_only_when_given_back "t2" "cmd_1" w_node (accept_command "t1" w_command)
    w_initiator w_reclaim w_node_wf _ _ _ _ _ "t6"%string w_fence _ [mkOpOutcome "cmd_1" FenceCancelled] [] E _).
  - vm_compute. reflexivity.
  - reflexivity.
  - vm_compute. reflexivity.
  - repeat constructor.
  - repeat constructor.
  - apply list_elem_of_here.
Defined.

(** Cancelled, settled "completed" from the copy read before, and claimed. *)
Definition w_copy : Command := accept_command "t1" w_command.
Definition w_stale : list node_op := [NStale "t3" "inst_1" w_copy Completed None ExecNotDispatched].
Lemma cancelled_witness :
  (claim "t4" "cmd_1" (node_run w_stale w_fenced)).2 = Ok Deliver ∧ existsb (settles_over "cmd_1") w_stale = true.
Proof.
  split; [vm_compute; reflexivity|].
  apply (cancelled_command_is_delivered_only_when_settled_over "t2" w_fence w_node w_fenced w_acks [] "cmd_1" w_copy
    w_stale) with "t4"%string.
  - apply w_node_wf.
  - apply w_fence_applied.
  - apply list_elem_of_here.
  - vm_compute. reflexivity.
  - constructor; [|constructor]. split; vm_compute; congruence.
  - constructor; [|constructor]. done.
  - vm_compute. reflexivity.
Defined.

(** The created instance's command is settled, its lineage is fenced. *)
Definition w_create : Command :=
  settle_command "t2" Completed None ExecNotDispatched (accept_command "t1" w_command).
Definition w_created : NodeState :=
  mkNode (store_run [SSaveCommand w_create] w_node_store) (persist "fen_1" "lin_1" 4 fresh_fences).1.

Lemma create_prompt_witness : claim "t3" "cmd_1" w_created = (w_created, Ok Deliver).
Proof.
  apply (settled_create_prompt_passes_a_raised_fence "t3" "cmd_1" w_created w_create w_initiator);
    vm_compute; reflexivity.
Defined.

Lemma stale_settlement_witness :
  commands (settle_without_driver "t3" "inst_1" (accept_command "t1" w_command)
    (reject_before_dispatch "t2" "inst_1" (accept_command "t1" w_command) FENCED_REASON
       w_node_store).1).1 !! "cmd_1"%string
  = Some (settle_command "t3" Completed None ExecNotDispatched (accept_command "t1" w_command)).
Proof.
  apply (stale_settlement_overwrites_a_cancellation "t2" "t3" "inst_1" "inst_1"
    (accept_command "t1" w_command) w_node_store).
  - vm_compute. reflexivity.
  - split; vm_compute; congruence.
Defined.
