(* ===== verification/Correlator.v ===== *)
(** * Prompt correlation: [remuda-node/src/prompt_correlation.rs]

    The correlator joins the evidence of a prompt (the [UserPromptSubmit] hook
    and the transcript's user record) to the command that delivered it.  The
    registry is a queue of pending prompts; every method holds its mutex, so a
    method is one step on the queue.  Time is an argument, in milliseconds.
    The theorems say that evidence is only ever attributed to a live command of
    the same text, that identical prompts are attributed in delivery order and
    each at most once per channel, and that a cancelled command never gets
    evidence again. *)
From stdpp Require Import base list gmap strings numbers sorting.
From S2P Require Import Prelude Text NodeStore.
Local Open Scope Z_scope.

Definition PROMPT_CORRELATION_WINDOW : Z := 600000.
Definition JOINED_REVISION : Z := 3.

(** [enum PromptChannel]. *)
Inductive PromptChannel : Type := PcHook | PcTranscript.
#[export] Instance PromptChannel_eq_dec : EqDecision PromptChannel.
Proof. solve_decision. Defined.

(** [struct PendingPrompt] of the correlator. *)
Record Entry : Type := mkEntry {
  e_command_id : string;
  e_node_id : string;
  e_text : text;
  e_normalized : text;
  e_registered_at : Z;
  e_hook_matched : bool;
  e_transcript_matched : bool;
  e_origin : option MessageOrigin;
}.

(** [struct PromptMatch]. *)
Record PromptMatch : Type := mkMatch {
  m_command_id : string;
  m_node_id : string;
  m_origin : option MessageOrigin;
}.

(** [struct PromptCorrelator]: the queue behind the mutex. *)
Abbreviation PromptCorrelator := (list Entry) (only parsing).

(** [normalize_ws]. *)
Definition normalize_ws (t : text) : text := join [32] (split_whitespace t).

(** [prune]. *)
Fixpoint prune (now : Z) (p : PromptCorrelator) : PromptCorrelator :=
  match p with
  | [] => []
  | e :: r => if PROMPT_CORRELATION_WINDOW <? now - e_registered_at e then prune now r else p
  end.

(** [PromptCorrelator::register_origin] and [register]. *)
Definition register_origin (now : Z) (cid nid : string) (t : text) (o : option MessageOrigin)
    (p : PromptCorrelator) : PromptCorrelator :=
  prune now (p ++ [mkEntry cid nid t (normalize_ws t) now false false o]).
Definition register (now : Z) (cid nid : string) (t : text) (p : PromptCorrelator)
    : PromptCorrelator :=
  register_origin now cid nid t None p.

(** [PromptCorrelator::retext]. *)
Definition with_text (t : text) (e : Entry) : Entry :=
  mkEntry (e_command_id e) (e_node_id e) t (normalize_ws t) (e_registered_at e)
    (e_hook_matched e) (e_transcript_matched e) (e_origin e).
Fixpoint retext (cid : string) (t : text) (p : PromptCorrelator) : PromptCorrelator :=
  match p with
  | [] => []
  | e :: r => if decide (e_command_id e = cid) then with_text t e :: r else e :: retext cid t r
  end.

(** [strip_memory_context_block] ([remuda-protocol/src/hubnode.rs]). *)
Definition strip_block (open close : text) (rest : text) : option text :=
  let trimmed := trim_start rest in
  if starts_with open trimmed then
    match find_sub close trimmed with
    | Some e => Some (trim_start (drop (e + length close) trimmed))
    | None => None
    end
  else Some rest.
Definition strip_memory_context_block (t : text) : text :=
  match strip_block (lit "<remuda-memory") (lit "</remuda-memory>") t with
  | None => t
  | Some rest =>
      default rest (strip_block (lit "<remuda-capabilities") (lit "</remuda-capabilities>") rest)
  end.

(** The closure [already] and the flag a match sets. *)
Definition already (ch : PromptChannel) (e : Entry) : bool :=
  match ch with PcHook => e_hook_matched e | PcTranscript => e_transcript_matched e end.
Definition mark (ch : PromptChannel) (e : Entry) : Entry :=
  mkEntry (e_command_id e) (e_node_id e) (e_text e) (e_normalized e) (e_registered_at e)
    (match ch with PcHook => true | PcTranscript => e_hook_matched e end)
    (match ch with PcHook => e_transcript_matched e | PcTranscript => true end) (e_origin e).

(** [PromptCorrelator::match_prompt]. *)
Definition match_index (t : text) (ch : PromptChannel) (p : PromptCorrelator) : option nat :=
  match position (λ e, negb (already ch e) && bool_decide (e_text e = t)) p with
  | Some i => Some i
  | None => position (λ e, negb (already ch e) && bool_decide (e_normalized e = normalize_ws t)) p
  end.
Definition match_prompt (now : Z) (raw : text) (ch : PromptChannel) (p : PromptCorrelator)
    : PromptCorrelator * option PromptMatch :=
  let t := strip_memory_context_block raw in
  if decide (trim t = []) then (p, None)
  else
    let p := prune now p in
    match match_index t ch p with
    | None => (p, None)
    | Some i =>
        match p !! i with
        | None => (p, None)
        | Some e =>
            let e' := mark ch e in
            let matched := mkMatch (e_command_id e) (e_node_id e) (e_origin e) in
            (if e_hook_matched e' && e_transcript_matched e' then remove_at i p else <[i := e']> p,
             Some matched)
        end
    end.

(** [PromptCorrelator::cancel]. *)
Definition cancel (cid : string) (p : PromptCorrelator) : PromptCorrelator :=
  retain (λ e, negb (bool_decide (e_command_id e = cid))) p.

(** [join_queued_node]. *)
Definition join_queued_node (x : MessagePayload) (m : PromptMatch) : MessagePayload :=
  mkMessage (mkMutation (m_node_id m) JOINED_REVISION MutReplace (Some (JOINED_REVISION - 1)))
    (m_node_id m) (role x) (blocks x)
    (match m_origin m with Some o => Some o | None => msg_origin x end)
    (Some (m_command_id m)) (prompt_mode x) StatusComplete.

(** The text of a message: its text blocks joined by newlines. *)
Definition message_text (x : MessagePayload) : text :=
  join [10] (omap (λ b, match b with TextBlock t => Some t | _ => None end) (blocks x)).

(** [PromptCorrelator::correlate]. *)
Definition correlate (now : Z) (ch : SourceChannel) (b : ObservationPayload) (p : PromptCorrelator)
    : PromptCorrelator * ObservationPayload :=
  match b with
  | ONative n =>
      if decide (ch ≠ ChHook) then (p, b)
      else if decide (native_name n ≠ "UserPromptSubmit"%string) then (p, b)
      else match related_ids n !! "prompt"%string with
           | None => (p, b)
           | Some t =>
               let '(p', r) := match_prompt now t PcHook p in
               (p', match r with
                    | Some m => ONative (mkNative (native_name n) (native_status n)
                        (<["commandId"%string := lit (m_command_id m)]> (related_ids n)) (severity n))
                    | None => b
                    end)
           end
  | OMessage x =>
      if decide ((ch = ChTranscript ∨ ch = ChStdout) ∧ role x = RoleUser ∧
                 msg_origin x = Some MsgHuman)
      then let '(p', r) := match_prompt now (message_text x) PcTranscript p in
           (p', match r with Some m => OMessage (join_queued_node x m) | None => b end)
      else (p, b)
  | _ => (p, b)
  end.

(** ** Reachable registries *)

(** The registry after any sequence of calls; the clock does not go back. *)
Inductive reach : Z → PromptCorrelator → Prop :=
| ReachNew now : reach now []
| ReachRegister now now' p cid nid t o :
    reach now p → now ≤ now' → reach now' (register_origin now' cid nid t o p)
| ReachRetext now p cid t : reach now p → reach now (retext cid t p)
| ReachMatch now now' p raw ch :
    reach now p → now ≤ now' → reach now' (match_prompt now' raw ch p).1
| ReachCancel now p cid : reach now p → reach now (cancel cid p).

(** Entries are in registration order, carry the normalisation of their text,
    and still await evidence. *)
Definition entry_ok (now : Z) (e : Entry) : Prop :=
  e_registered_at e ≤ now ∧ e_normalized e = normalize_ws (e_text e) ∧
  e_hook_matched e && e_transcript_matched e = false.
Definition in_order (p : PromptCorrelator) : Prop :=
  StronglySorted Z.le (e_registered_at <$> p).
Definition registry_ok (now : Z) (p : PromptCorrelator) : Prop :=
  Forall (entry_ok now) p ∧ in_order p.

Lemma entry_ok_later now now' e : now ≤ now' → entry_ok now e → entry_ok now' e.
Proof. unfold entry_ok. naive_solver lia. Qed.
Lemma registry_ok_later now now' p : now ≤ now' → registry_ok now p → registry_ok now' p.
Proof.
  intros Hn [Ha Ho]. split; [|done]. eapply list.Forall_impl; [done|]. eauto using entry_ok_later.
Qed.

Lemma prune_suffix now p : ∃ dead, p = dead ++ prune now p.
Proof.
  induction p as [|e p [dead IH]]; simpl; [by exists []|]. destruct (_ <? _); [|by exists []].
  exists (e :: dead). simpl. congruence.
Qed.
Lemma elem_of_prune now p e : e ∈ prune now p → e ∈ p.
Proof. destruct (prune_suffix now p) as [dead Hd]. intros He. rewrite Hd. set_solver. Qed.

Lemma prune_ok now now' p : registry_ok now p → registry_ok now (prune now' p).
Proof.
  intros [Ha Ho]. destruct (prune_suffix now' p) as [dead Hd]. unfold registry_ok, in_order in *.
  rewrite Hd in Ha, Ho. apply Forall_app in Ha as [_ ?]. rewrite fmap_app in Ho.
  split; [done|]. by apply StronglySorted_app in Ho as (_ & _ & ?).
Qed.

(** In a registry in order, nothing expired survives pruning. *)
Lemma prune_live now p e :
  in_order p → e ∈ prune now p → now - e_registered_at e ≤ PROMPT_CORRELATION_WINDOW.
Proof.
  unfold in_order. induction p as [|x p IH]; simpl; [by intros _ ?%not_elem_of_nil|].
  intros Ho. apply StronglySorted_inv in Ho as [Ho Hx].
  destruct (_ <? _) eqn:Hexp; [by apply IH|]. zhyps.
  intros [->|He]%elem_of_cons; [lia|]. rewrite list.Forall_forall in Hx.
  specialize (Hx (e_registered_at e) ltac:(by apply list_elem_of_fmap_2)). lia.
Qed.

Lemma retext_ok now cid t p : registry_ok now p → registry_ok now (retext cid t p).
Proof.
  intros [Ha Ho]. split.
  - induction Ha as [|e p He Hp IH]; simpl; [constructor|].
    unfold in_order in Ho. apply StronglySorted_inv in Ho as [Ho _].
    case_decide; constructor; auto. destruct He as (? & _ & ?). by split_and!.
  - unfold in_order in *. replace (e_registered_at <$> retext cid t p) with (e_registered_at <$> p);
      [done|]. clear. induction p as [|e p IH]; simpl; [done|]. case_decide; csimpl; congruence.
Qed.

Lemma cancel_ok now cid p : registry_ok now p → registry_ok now (cancel cid p).
Proof.
  unfold cancel, retain, registry_ok, in_order. intros [Ha Ho]. induction Ha as [|e p He Hp IH]; [done|].
  csimpl in Ho. apply StronglySorted_inv in Ho as [Ho Hx]. specialize (IH Ho) as [IH1 IH2]. simpl.
  destruct (negb _); [|done]. split; [by constructor|]. csimpl. constructor; [done|].
  rewrite list.Forall_forall in *. intros z (y & -> & Hy)%list_elem_of_fmap. apply Hx.
  apply list_elem_of_fmap_2. by apply elem_of_retain in Hy as [? _].
Qed.

Lemma remove_at_ok now i p : registry_ok now p → registry_ok now (remove_at i p).
Proof.
  unfold remove_at, registry_ok, in_order. intros [Ha Ho]. split.
  - apply Forall_app. split; [by apply Forall_take|by apply Forall_drop].
  - destruct (decide (i < length p)%nat) as [Hi|Hi].
    + apply lookup_lt_is_Some in Hi as [e He]. rewrite <-(take_drop_middle p i e He) in Ho.
      rewrite fmap_app in Ho. csimpl in Ho. rewrite fmap_app. apply StronglySorted_app in Ho as (H1 & H2 & H3).
      apply StronglySorted_inv in H3 as [H3 _]. apply StronglySorted_app. split_and!; [|done..].
      intros x y Hx Hy. apply H1; [done|]. by right.
    + rewrite take_ge, drop_ge, app_nil_r by lia. done.
Qed.

Lemma mark_ok now ch i p e :
  registry_ok now p → p !! i = Some e →
  e_hook_matched (mark ch e) && e_transcript_matched (mark ch e) = false →
  registry_ok now (<[i := mark ch e]> p).
Proof.
  intros [Ha Ho] He Hm. pose proof (Forall_lookup_1 _ _ _ _ Ha He) as (H1 & H2 & _). split.
  - by apply Forall_insert.
  - unfold in_order in *. rewrite list_fmap_insert, list_insert_id; [done|].
    by rewrite list_lookup_fmap, He.
Qed.

Lemma match_prompt_ok now raw ch p :
  registry_ok now p → registry_ok now (match_prompt now raw ch p).1.
Proof.
  intros Hok. unfold match_prompt. case_decide; [done|].
  pose proof (prune_ok now now p Hok) as Hp.
  destruct (match_index _ ch (prune now p)) as [i|]; [|done].
  destruct (prune now p !! i) as [e|] eqn:He; [|done]. simpl.
  destruct (_ && _) eqn:Hm; [by apply remove_at_ok|by apply mark_ok].
Qed.

Lemma register_ok now cid nid t o p :
  registry_ok now p → registry_ok now (register_origin now cid nid t o p).
Proof.
  intros [Ha Ho]. apply prune_ok. split.
  - apply Forall_app. split; [done|]. by repeat constructor.
  - unfold in_order in *. rewrite fmap_app. apply StronglySorted_app. split_and!; [|done|].
    + intros x y (e & -> & He)%list_elem_of_fmap Hy. apply list_elem_of_singleton in Hy as ->. simpl.
      rewrite list.Forall_forall in Ha. by apply Ha.
    + repeat constructor.
Qed.

Lemma reach_ok now p : reach now p → registry_ok now p.
Proof.
  induction 1 as [|now now' p cid nid t o _ IH Hn|now p cid t _ IH|now now' p raw ch _ IH Hn
    |now p cid _ IH].
  - split; constructor.
  - apply register_ok. by eapply registry_ok_later.
  - by apply retext_ok.
  - apply match_prompt_ok. by eapply registry_ok_later.
  - by apply cancel_ok.
Qed.

(** ** Attribution *)

(** What a match found. *)
Lemma match_prompt_spec now raw ch p p' m :
  match_prompt now raw ch p = (p', Some m) →
  let t := strip_memory_context_block raw in
  trim t ≠ [] ∧ ∃ i e, match_index t ch (prune now p) = Some i ∧ prune now p !! i = Some e ∧
    m = mkMatch (e_command_id e) (e_node_id e) (e_origin e) ∧
    p' = (if e_hook_matched (mark ch e) && e_transcript_matched (mark ch e)
          then remove_at i (prune now p) else <[i := mark ch e]> (prune now p)).
Proof.
  unfold match_prompt. case_decide as Ht; [done|]. intros Hm. split; [done|].
  destruct (match_index _ ch (prune now p)) as [i|] eqn:Hi; [|done].
  destruct (prune now p !! i) as [e|] eqn:He; [|done]. simplify_eq. eauto 10.
Qed.

Lemma match_index_Some t ch p i :
  match_index t ch p = Some i →
  ∃ e, p !! i = Some e ∧ already ch e = false ∧
    (e_text e = t ∨ e_normalized e = normalize_ws t).
Proof.
  unfold match_index. destruct (position _ p) as [j|] eqn:Hj.
  - intros [= <-]. apply position_Some in Hj as (e & He & Hp & _).
    apply andb_true_iff in Hp as [H1 H2]. apply negb_true_iff in H1.
    apply bool_decide_eq_true in H2. eauto.
  - intros (e & He & Hp & _)%position_Some. apply andb_true_iff in Hp as [H1 H2].
    apply negb_true_iff in H1. apply bool_decide_eq_true in H2. eauto.
Qed.

(** Evidence is attributed only to a pending command of the same text: in
    every reachable registry, a match names a command that is registered, was
    registered no longer ago than the correlation window, has not been matched
    on this channel before, and whose prompt equals the observed one up to
    whitespace (after the leading memory and capability blocks). *)
Theorem evidence_matches_a_live_command_of_the_same_text now0 now raw ch p p' m :
  reach now0 p → now0 ≤ now → match_prompt now raw ch p = (p', Some m) →
  ∃ e, e ∈ p ∧ m = mkMatch (e_command_id e) (e_node_id e) (e_origin e) ∧ already ch e = false ∧
    normalize_ws (e_text e) = normalize_ws (strip_memory_context_block raw) ∧
    now - e_registered_at e ≤ PROMPT_CORRELATION_WINDOW.
Proof.
  intros Hr%reach_ok Hn Hm. apply (registry_ok_later now0 now) in Hr; [|done]. destruct Hr as [Ha Ho].
  destruct (match_prompt_spec _ _ _ _ _ _ Hm) as (_ & i & e & Hi & He & -> & _).
  apply match_index_Some in Hi as (e' & He' & Hal & Htext).
  rewrite He in He'. injection He' as <-.
  pose proof (list_elem_of_lookup_2 _ _ _ He) as Hin. exists e. split_and!; [by eapply elem_of_prune|done|done| |].
  - destruct Htext as [->|<-]; [done|]. apply elem_of_prune in Hin.
    rewrite list.Forall_forall in Ha. by destruct (Ha _ Hin) as (_ & -> & _).
  - by apply (prune_live now p).
Qed.

(** ** First in, first out *)

(** The commands waiting for evidence of text [t] on channel [ch]: an abstract
    queue per channel and text. *)
Definition waiting (ch : PromptChannel) (t : text) (p : PromptCorrelator) : list string :=
  e_command_id <$> retain (λ e, negb (already ch e) && bool_decide (e_text e = t)) p.

Lemma waiting_app ch t p q : waiting ch t (p ++ q) = waiting ch t p ++ waiting ch t q.
Proof. unfold waiting. by rewrite retain_app, fmap_app. Qed.

(** An entry as it waits on one queue. *)
Definition waits (ch : PromptChannel) (t : text) (e : Entry) : list string :=
  if negb (already ch e) && bool_decide (e_text e = t) then [e_command_id e] else [].
Lemma waiting_cons ch t e p : waiting ch t (e :: p) = waits ch t e ++ waiting ch t p.
Proof. unfold waiting, waits, retain. simpl. by destruct (_ && _). Qed.

Lemma already_mark ch ch' e : already ch' (mark ch e) = bool_decide (ch = ch') || already ch' e.
Proof. by destruct ch, ch'. Qed.

(** Before the first waiting entry nothing waits. *)
Lemma waiting_before ch t p i :
  position (λ e, negb (already ch e) && bool_decide (e_text e = t)) p = Some i →
  waiting ch t (take i p) = [].
Proof.
  revert i. induction p as [|x p IH]; intros i Hi; [done|]. simpl in Hi.
  destruct (negb (already ch x) && bool_decide (e_text x = t)) eqn:Hx; [by simplify_eq|].
  destruct (position _ p) as [j|] eqn:Hj; simplify_eq/=. rewrite waiting_cons. unfold waits.
  rewrite Hx. by apply IH.
Qed.

(** Per channel and text the registry is a FIFO queue: an observation of a
    text takes the oldest pending command of exactly that text, that command
    stops waiting on this channel for it, and no other queue (another channel,
    or another text) changes.  So two identical prompts are attributed in
    delivery order, and each command once per channel. *)
Theorem identical_prompts_are_attributed_in_order now raw ch p cid rest :
  let t := strip_memory_context_block raw in
  trim t ≠ [] → waiting ch t (prune now p) = cid :: rest →
  ∃ m, (match_prompt now raw ch p).2 = Some m ∧ m_command_id m = cid ∧
    waiting ch t (match_prompt now raw ch p).1 = rest ∧
    ∀ ch' t', (ch', t') ≠ (ch, t) →
      waiting ch' t' (match_prompt now raw ch p).1 = waiting ch' t' (prune now p).
Proof.
  intros t Ht Hw. unfold match_prompt. fold t. rewrite decide_False by done. unfold match_index.
  destruct (position _ (prune now p)) as [i|] eqn:Hi.
  2: { exfalso. unfold waiting in Hw. destruct (retain _ (prune now p)) as [|e es] eqn:Hr; [done|].
       assert (e ∈ retain (λ e, negb (already ch e) && bool_decide (e_text e = t)) (prune now p))
         as Hin by (rewrite Hr; set_solver). apply elem_of_retain in Hin as [Hin Hp].
       apply position_None with (x := e) in Hi; [|done]. congruence. }
  pose proof (waiting_before _ _ _ _ Hi) as Hbefore.
  apply position_Some in Hi as (e & He & Hp & _). rewrite He.
  apply andb_true_iff in Hp as [Hal Htx]. apply negb_true_iff in Hal.
  apply bool_decide_eq_true in Htx.
  set (q := prune now p) in *.
  assert (q = take i q ++ e :: drop (S i) q) as Hq by (symmetry; by apply take_drop_middle).
  assert (∀ ch' t', waits ch' t' (mark ch e)
    = if decide ((ch', t') = (ch, t)) then [] else waits ch' t' e) as Hmark.
  { intros ch' t'. unfold waits. rewrite already_mark. simpl. case_decide as Hd.
    - simplify_eq. by rewrite bool_decide_true.
    - destruct (decide (ch = ch')) as [<-|Hne].
      + rewrite bool_decide_true by done. simpl. rewrite Hal. simpl.
        rewrite bool_decide_false; [done|]. congruence.
      + by rewrite bool_decide_false. }
  set (q' := if _ : bool then remove_at i q else <[i := mark ch e]> q).
  assert (∀ ch' t', waiting ch' t' q' = waiting ch' t' (take i q) ++ waits ch' t' (mark ch e)
    ++ waiting ch' t' (drop (S i) q)) as Hafter.
  { intros ch' t'. subst q'. destruct (e_hook_matched (mark ch e)) eqn:Hh,
      (e_transcript_matched (mark ch e)) eqn:Htr; cbn [andb].
    1: { unfold remove_at. rewrite waiting_app. f_equal.
         replace (waits ch' t' (mark ch e)) with (@nil string); [done|].
         unfold waits, already. destruct ch'; by rewrite ?Hh, ?Htr. }
    all: rewrite insert_take_drop by (by eapply lookup_lt_Some);
      by rewrite waiting_app, waiting_cons. }
  exists (mkMatch (e_command_id e) (e_node_id e) (e_origin e)). cbn [fst snd].
  rewrite Hq in Hw. rewrite waiting_app, waiting_cons, Hbefore in Hw. unfold waits in Hw.
  rewrite Hal, bool_decide_true in Hw by done. simpl in Hw. injection Hw as Hcid Hrest.
  split_and!; [done|done| |].
  - rewrite Hafter, Hmark, decide_True, Hbefore by done. done.
  - intros ch' t' Hne. rewrite Hafter, Hmark, decide_False by done.
    rewrite Hq at 3. by rewrite waiting_app, waiting_cons.
Qed.

(** ** Cancellation *)

(** Calls about a registry. *)
Inductive corr_op : Type :=
| CRegister (now : Z) (cid nid : string) (t : text) (o : option MessageOrigin)
| CRetext (cid : string) (t : text)
| CMatch (now : Z) (raw : text) (ch : PromptChannel)
| CCancel (cid : string).
Definition corr_step (o : corr_op) (p : PromptCorrelator) : PromptCorrelator :=
  match o with
  | CRegister now cid nid t og => register_origin now cid nid t og p
  | CRetext cid t => retext cid t p
  | CMatch now raw ch => (match_prompt now raw ch p).1
  | CCancel cid => cancel cid p
  end.
Definition corr_run (os : list corr_op) (p : PromptCorrelator) : PromptCorrelator :=
  foldl (λ p o, corr_step o p) p os.

Definition names (cid : string) (p : PromptCorrelator) : Prop :=
  ∃ e, e ∈ p ∧ e_command_id e = cid.

Lemma match_prompt_ids now raw ch p e :
  e ∈ (match_prompt now raw ch p).1 → ∃ e0, e0 ∈ p ∧ e_command_id e0 = e_command_id e.
Proof.
  unfold match_prompt. case_decide; [by eauto|].
  destruct (match_index _ _ _) as [i|]; [|intros ?%elem_of_prune; eauto].
  destruct (prune now p !! i) as [x|] eqn:Hx; [|intros ?%elem_of_prune; eauto]. simpl.
  pose proof (elem_of_prune now p x (list_elem_of_lookup_2 _ _ _ Hx)).
  destruct (_ && _).
  - unfold remove_at. rewrite elem_of_app. intros He. exists e. split; [|done].
    apply (elem_of_prune now). destruct He as [He|He];
      [rewrite <-(take_drop i (prune now p))|rewrite <-(take_drop (S i) (prune now p))]; set_solver.
  - intros He. apply list_elem_of_lookup in He as [j Hj].
    destruct (decide (i = j)) as [<-|Hne].
    + rewrite list_lookup_insert_eq in Hj by (by eapply lookup_lt_Some). simplify_eq. eauto.
    + rewrite list_lookup_insert_ne in Hj by done. apply list_elem_of_lookup_2, elem_of_prune in Hj. eauto.
Qed.

Lemma corr_step_names cid o p :
  (∀ now nid t og, o ≠ CRegister now cid nid t og) → names cid (corr_step o p) → names cid p.
Proof.
  unfold names. intros Hreg (e & He & Hid). destruct o as [now c nid t og|c t|now raw ch|c]; simpl in He.
  - unfold register_origin in He. apply elem_of_prune, elem_of_app in He as [He|He]; [eauto|].
    apply list_elem_of_singleton in He as ->. simpl in Hid. subst. by destruct (Hreg now nid t og).
  - clear Hreg. induction p as [|x p IH]; simpl in He; [by apply not_elem_of_nil in He|].
    case_decide; apply elem_of_cons in He as [->|He].
    + exists x. split; [set_solver|done].
    + exists e. split; [set_solver|done].
    + exists x. split; [set_solver|done].
    + destruct (IH He) as (y & Hy & ?). exists y. split; [set_solver|done].
  - destruct (match_prompt_ids _ _ _ _ _ He) as (e0 & ? & ?). exists e0. split; [done|congruence].
  - apply elem_of_retain in He as [He _]. eauto.
Qed.

(** A cancelled command gets no evidence: after [cancel], and whatever is
    registered, edited, matched or cancelled afterwards short of registering
    the command again, no observation is attributed to it. *)
Theorem cancelled_command_gets_no_evidence cid os p now raw ch m :
  (∀ t nid x og, CRegister t cid nid x og ∉ os) →
  (match_prompt now raw ch (corr_run os (cancel cid p))).2 = Some m → m_command_id m ≠ cid.
Proof.
  intros Hos Hm Hid. destruct (match_prompt now raw ch _) as [p' r] eqn:Hmp. simpl in Hm. subst r.
  destruct (match_prompt_spec _ _ _ _ _ _ Hmp) as (_ & i & e & _ & He & -> & _). simpl in Hid.
  assert (names cid (corr_run os (cancel cid p))) as Hn.
  { exists e. split; [|done]. by eapply elem_of_prune, list_elem_of_lookup_2. }
  clear Hmp He. unfold corr_run in Hn. induction os as [|o os IH] using rev_ind; simpl in Hn.
  - destruct Hn as (x & [_ Hx]%elem_of_retain & Hxid). by rewrite bool_decide_true in Hx.
  - rewrite foldl_app in Hn. simpl in Hn. apply IH.
    + intros t nid x og Hin. apply (Hos t nid x og). set_solver.
    + eapply corr_step_names; [|done]. intros t nid x og ->. apply (Hos t nid x og). set_solver.
Qed.

(** ** Witnesses *)

Definition w_registry : PromptCorrelator :=
  register 10 "cmd_2" "obj_2" (lit "go on") (register 5 "cmd_1" "obj_1" (lit "go on") []).

Lemma w_registry_reach : reach 10 w_registry.
Proof.
  apply (ReachRegister 5 10); [|lia]. apply (ReachRegister 0 5); [constructor|lia].
Qed.

Lemma live_match_witness :
  ∃ e, e ∈ w_registry ∧ mkMatch "cmd_1" "obj_1" None = mkMatch (e_command_id e) (e_node_id e) (e_origin e)
    ∧ already PcHook e = false ∧
    normalize_ws (e_text e) = normalize_ws (strip_memory_context_block (lit "go   on ")) ∧
    20 - e_registered_at e ≤ PROMPT_CORRELATION_WINDOW.
Proof.
  apply (evidence_matches_a_live_command_of_the_same_text 10 20 (lit "go   on ") PcHook w_registry
    (match_prompt 20 (lit "go   on ") PcHook w_registry).1).
  - apply w_registry_reach.
  - lia.
  - vm_compute. reflexivity.
Defined.

Lemma fifo_witness :
  ∃ m, (match_prompt 20 (lit "go on") PcHook w_registry).2 = Some m ∧ m_command_id m = "cmd_1"%string ∧
    waiting PcHook (lit "go on") (match_prompt 20 (lit "go on") PcHook w_registry).1 = ["cmd_2"%string] ∧
    ∀ ch' t', (ch', t') ≠ (PcHook, lit "go on") →
      waiting ch' t' (match_prompt 20 (lit "go on") PcHook w_registry).1
      = waiting ch' t' (prune 20 w_registry).
Proof.
  apply (identical_prompts_are_attributed_in_order 20 (lit "go on") PcHook w_registry "cmd_1"
    ["cmd_2"%string]); vm_compute; (discriminate || reflexivity).
Defined.

Lemma cancelled_evidence_witness :
  m_command_id (mkMatch "cmd_2" "obj_2" None) ≠ "cmd_1"%string.
Proof.
  apply (cancelled_command_gets_no_evidence "cmd_1" [CRetext "cmd_2" (lit "stop")] w_registry 20
    (lit "stop") PcTranscript).
  - intros t nid x og. rewrite list_elem_of_singleton. discriminate.
  - vm_compute. reflexivity.
Defined.
