(* ===== verification/PtyQueue.v ===== *)
(** * The PTY prompt queue: [remuda-node/src/runtime/pty_queue.rs], and
    [execute_queued] with its helpers of [remuda-node/src/runtime.rs]

    One worker per instance delivers prompts to a PTY.  [pending] and
    [steer_deadline] are the worker's local variables and are passed
    explicitly; the store, the fences, the held-prompt registry and the
    correlator are shared with the other tasks of the Node.  The worker runs
    on a multi-threaded runtime, so before every access to shared state the
    model runs the next batch of a schedule of other tasks' steps
    ([interfere]): withdrawals, edits, fences, submissions, native signals,
    evidence.  The schedule is arbitrary, so the theorems hold for every
    interleaving.  What the driver, the attachment loader, the interaction
    broker and the clock answer is part of the event ([Answers]).

    A log records what reached the driver and what the Hub was told.  The
    theorems say that a withdrawn prompt is never written, that what is written
    is the last accepted text, that each prompt is written at most once and in
    the promised order, and that a prompt which leaves the queue is settled. *)
From stdpp Require Import base list gmap strings numbers.
From S2P Require Import Prelude Json Text HeldInput NodeStore NodeFence Correlator.
Local Open Scope Z_scope.

(** ** Origins ([remuda-node/src/origin.rs]) *)

Definition command_origin (o : InputOrigin) : CommandOrigin :=
  match o with
  | InHuman => OriginUi | InBot => OriginBot | InAgent => OriginMcp | InHub => OriginSystem
  end.
Definition input_origin (o : CommandOrigin) : InputOrigin :=
  match o with
  | OriginUi | OriginCli => InHuman
  | OriginBot => InBot
  | OriginMcp => InAgent
  | OriginSystem => InHub
  end.
Definition message_origin (o : InputOrigin) : MessageOrigin :=
  match o with InHub => MsgHub | InHuman | InBot | InAgent => MsgHuman end.
(** [format!("{:?}", origin).to_lowercase()]. *)
Definition origin_debug (o : InputOrigin) : text :=
  match o with
  | InHuman => lit "human" | InBot => lit "bot" | InAgent => lit "agent" | InHub => lit "hub"
  end.
(** The origin a registered prompt is authored under. *)
Definition authored (o : InputOrigin) : option MessageOrigin :=
  if decide (o = InHub) then Some MsgHub else None.

(** ** Drivers ([remuda-node/src/driver.rs]) *)

Inductive DriverKind : Type :=
| ClaudePrint | ClaudeSdk | ClaudePty | ClaudeBg | CodexAppserver | GrokAcp | AgyPrint
| GenericPty | ShellPty | HerdrClaimed.
#[export] Instance DriverKind_eq_dec : EqDecision DriverKind.
Proof. solve_decision. Defined.

(** [is_pty] and [structured_engine_turn_carrier] ([signal.rs]). *)
Definition is_pty (k : DriverKind) : bool :=
  match k with ClaudePty | GenericPty | ShellPty | HerdrClaimed => true | _ => false end.
Definition structured_engine_turn_carrier (k : DriverKind) : bool :=
  match k with ClaudePrint | ClaudeSdk => true | _ => false end.

(** [enum DriverRequest]; an attachment is the reference of its landed block. *)
Inductive DriverRequest : Type :=
| ReqSend (prompt : text) (attachments : list string) (origin : InputOrigin) (mode : PromptMode)
    (command_id : option string)
| ReqCancel
| ReqRespondInteraction (interaction_id : string) (answer : string)
| ReqClose
| ReqSendKeys (keys : list string)
| ReqConfigure (model effort : option string) (effort_index : option Z)
    (effort_ultracode : option bool) (effort_axis effort_request_id permission_mode : option string).

(** [enum DriverError] and its [Display]. *)
Inductive DriverError : Type :=
| ControlUnavailable
| Unsupported (m : string)
| DriverFailed (m : string).
#[export] Instance DriverError_eq_dec : EqDecision DriverError.
Proof. solve_decision. Defined.
Definition show_driver_error (e : DriverError) : string :=
  match e with
  | ControlUnavailable => "control unavailable"
  | Unsupported m => ("unsupported driver request: " ++ m)%string
  | DriverFailed m => ("driver operation failed: " ++ m)%string
  end.

(** [enum DriverEmission]; an interaction is named by its id. *)
Inductive DriverEmission : Type :=
| EmMessage (role : MessageRole) (t : text)
| EmNativeLifecycle (name status : string) (severity : Severity)
| EmInteractionRequested (interaction_id : string).

(** [message_payload]; [nid] is the fresh [Id::new("obj")]. *)
Definition message_payload (nid : string) (r : MessageRole) (t : text)
    (attachment_blocks : list ContentBlock) : MessagePayload :=
  mkMessage (mkMutation nid 1 MutOpen None) nid r (attachment_blocks ++ [TextBlock t])
    (Some MsgHuman) None None StatusComplete.

(** [DriverEmission::into_payload]. *)
Definition into_payload (nid : string) (e : DriverEmission) : ObservationPayload :=
  match e with
  | EmMessage r t => OMessage (message_payload nid r t [])
  | EmNativeLifecycle name status sev => ONative (mkNative name status ∅ sev)
  | EmInteractionRequested _ => OOther "interaction.requested"
  end.
(** A diagnostic with its [related_ids]. *)
Definition native_payload (name status : string) (sev : Severity) (related : gmap string text)
    : ObservationPayload :=
  ONative (mkNative name status related sev).

(** [struct PendingPrompt] of the queue. *)
Record PendingPrompt : Type := mkPending {
  pp_command_id : string;
  pp_prompt : text;
  pp_attachment_refs : list string;
  pp_origin : InputOrigin;
  pp_mode : PromptMode;
  pp_message : MessagePayload;
}.

(** [struct QueuedCommand]. *)
Record QueuedCommand : Type := mkQueued {
  q_command_id : string;
  q_request : DriverRequest;
  q_close_after : bool;
  q_attachment_refs : list string;
}.

(** ** The shared world *)

(** What other tasks do between two accesses of the worker: the Hub's
    [command.withdraw] and [command.edit], a lineage fence, the submission of a
    command ([submit_command], accepted when it was inserted), a native signal
    that moves the instance state, an observation of the pump, and evidence
    that is matched against the correlator. *)
Inductive env_op : Type :=
| EWithdraw (cid : string)
| EEdit (cid : string) (expected : Z) (t : text)
| EFence (now : string) (p : LineageFenceParams)
| ESubmit (now : string) (j : InstanceId) (c : Command)
| ESignal (now : string) (j : InstanceId) (lc : option InstanceLifecycle)
    (act : option (Knowledge Activity))
| EObserve (now : string) (j : InstanceId) (b : ObservationPayload)
| EEvidence (clock : Z) (raw : text) (ch : PromptChannel).

(** The log: prompts entering the queue, accepted withdrawals and edits, sends
    with the driver's answer, and the other requests the driver was given. *)
Inductive log_event : Type :=
| LQueued (cid : string) (m : PromptMode) (t : text)
| LWithdrawn (cid : string)
| LEdited (cid : string) (t : text)
| LSend (cid : string) (m : PromptMode) (t : text) (r : result unit DriverError)
| LEsc
| LRequest (r : DriverRequest).

Record World : Type := mkWorld {
  wd_node : NodeState;
  wd_prompts : list Entry;
  wd_log : list log_event;
  wd_schedule : list (list env_op);
}.
Abbreviation wd A := (st World NodeError A) (only parsing).

Definition set_node (n : NodeState) (w : World) : World :=
  mkWorld n (wd_prompts w) (wd_log w) (wd_schedule w).
Definition set_prompts (p : list Entry) (w : World) : World :=
  mkWorld (wd_node w) p (wd_log w) (wd_schedule w).
Definition add_log (e : log_event) (w : World) : World :=
  mkWorld (wd_node w) (wd_prompts w) (wd_log w ++ [e]) (wd_schedule w).
Definition set_schedule (q : list (list env_op)) (w : World) : World :=
  mkWorld (wd_node w) (wd_prompts w) (wd_log w) q.
Definition held_of (w : World) : gmap string Held := held (n_fences (wd_node w)).
Definition set_held (h : gmap string Held) (w : World) : World :=
  set_node (mkNode (n_store (wd_node w))
    (mkFences (table (n_fences (wd_node w))) (fence_db (n_fences (wd_node w))) h)) w.

(** [submit_command] up to the channel send. *)
Definition submit_accept (now : string) (j : InstanceId) (c : Command)
    : st NodeState NodeError unit :=
  inserted ← submit j c;
  if inserted : bool then accept now j (command_id c) else mret tt.

Definition env_step (w : World) (o : env_op) : World :=
  match o with
  | EWithdraw cid =>
      let '(h, reply) := HeldInput.withdraw cid (held_of w) in
      let w' := set_held h w in
      if decide (reply = "withdrawn"%string) then add_log (LWithdrawn cid) w' else w'
  | EEdit cid expected t =>
      let '(h, reply) := HeldInput.edit cid expected t (held_of w) in
      let w' := set_held h w in
      if decide (reply.1 = "edited"%string) then add_log (LEdited cid t) w' else w'
  | EFence now p => set_node (apply_fence_locked now p (wd_node w)).1 w
  | ESubmit now j c => set_node (submit_accept now j c (wd_node w)).1 w
  | ESignal now j lc act => set_node (on_store (set_instance_state now j lc act) (wd_node w)).1 w
  | EObserve now j b => set_node (on_store (append_observation now j b) (wd_node w)).1 w
  | EEvidence clock raw ch => set_prompts (match_prompt clock raw ch (wd_prompts w)).1 w
  end.

(** The next batch of the schedule runs. *)
Definition interfere (w : World) : World :=
  match wd_schedule w with
  | [] => w
  | batch :: rest => foldl env_step (set_schedule rest w) batch
  end.

(** One access to shared state, preceded by interference. *)
Definition atomic {A} (c : wd A) : wd A := λ w, c (interfere w).
Definition on_node {A} (c : st NodeState NodeError A) : wd A :=
  atomic (st_zoom wd_node set_node c).
Definition on_ledger {A} (c : st MemoryState NodeError A) : wd A := on_node (on_store c).
Definition on_prompts (f : list Entry → list Entry) : wd unit :=
  atomic (st_modify (λ w, set_prompts (f (wd_prompts w)) w)).
Definition on_held {A} (f : gmap string Held → gmap string Held * A) : wd A :=
  atomic (λ w, let '(h, a) := f (held_of w) in (set_held h w, Ok a)).
Definition on_held_ (f : gmap string Held → gmap string Held) : wd unit :=
  on_held (λ h, (f h, tt)).
Definition say (e : log_event) : wd unit := st_modify (add_log e).
(** [fences.held.hold], logged. *)
Definition hold_prompt (cid : string) (m : PromptMode) (t : text) : wd unit :=
  atomic (st_modify (λ w, add_log (LQueued cid m t) (set_held (HeldInput.hold cid (held_of w)) w))).

(** What the world outside the Node answers during one event of the loop. *)
Inductive Probe : Type := ProbeTimeout | ProbeError (e : DriverError) | ProbeReady.
Inductive Esc : Type := EscOk | EscError (e : DriverError) | EscTimeout.

Record Answers : Type := mkAnswers {
  an_now : string;                     (* [timestamp_now] *)
  an_clock : Z;                        (* [Instant::now], in milliseconds *)
  an_fresh : string;                   (* the fresh message id *)
  an_dialog : bool;                    (* [interactions.list] is not empty *)
  an_attach : result (list string) string;  (* the loader: landed blocks, or its error *)
  an_probe : Probe;                    (* [wait_control] under its timeout *)
  an_esc : Esc;                        (* [execute(Cancel)] under its timeout *)
  an_exec : result (list (string * DriverEmission * result unit NodeError)) DriverError;
    (* [execute]: the emissions with a fresh id and the answer of [ingest] *)
  an_rpc : result unit string;         (* [dispatch_rpc("interaction.answer")] *)
  an_gone : bool;                      (* [process_gone] *)
}.

Section Queue.
Context (i : InstanceId) (kind : DriverKind).

(** ** The queued message *)

Definition with_message (m : MessagePayload) (p : PendingPrompt) : PendingPrompt :=
  mkPending (pp_command_id p) (pp_prompt p) (pp_attachment_refs p) (pp_origin p) (pp_mode p) m.
Definition with_blocks (bs : list ContentBlock) (m : MessagePayload) : MessagePayload :=
  mkMessage (mutation m) (message_id m) (role m) bs (msg_origin m) (msg_command_id m)
    (prompt_mode m) (status m).

(** The next revision of a message: [Replace] over the current one.  The
    revision is a [u64] increment, which wraps in a release build. *)
Definition replace_status (s : ContentStatus) (m : MessagePayload) : MessagePayload :=
  mkMessage
    (mkMutation (node_id (mutation m)) (wrap64 (mut_revision (mutation m) + 1)) MutReplace
       (Some (mut_revision (mutation m))))
    (message_id m) (role m) (blocks m) (msg_origin m) (msg_command_id m) (prompt_mode m) s.

(** [update_message]. *)
Definition update_message (now : string) (s : ContentStatus) (p : PendingPrompt)
    : wd PendingPrompt :=
  let p' := with_message (replace_status s (pp_message p)) p in
  _ ← on_ledger (append_observation now i (OMessage (pp_message p')));
  mret p'.

(** [enqueue]. *)
Definition queued_message (nid cid : string) (t : text) (o : InputOrigin) (m : PromptMode)
    : MessagePayload :=
  let x := message_payload nid RoleUser t [] in
  mkMessage (mutation x) (message_id x) (role x) (blocks x) (Some (message_origin o)) (Some cid)
    (Some m) StatusQueued.
Definition enqueue (a : Answers) (cid : string) (t : text) (refs : list string) (o : InputOrigin)
    (m : PromptMode) : wd PendingPrompt :=
  let x := queued_message (an_fresh a) cid t o m in
  _ ← on_ledger (append_observation (an_now a) i (OMessage x));
  _ ← on_prompts (register_origin (an_clock a) cid (an_fresh a) t (authored o));
  mret (mkPending cid t refs o m x).

(** ** Projected activity *)

(** [was_blocked_on_human]. *)
Definition was_blocked_on_human (a : Answers) : wd bool :=
  λ w, match on_ledger (get_instance i) w with
       | (w', Ok x) => (w', Ok (bool_decide (activity x = Known WaitingInteraction) && an_dialog a))
       | (w', Err _) => (w', Ok false)
       end.

(** [remark_after_enqueue] and [remark_after_queue_change]. *)
Definition remark_after_enqueue (now : string) (front_mode : option PromptMode) : wd unit :=
  x ← on_ledger (get_instance i);
  if decide (activity x = Known Working ∨ activity x = Known WaitingInteraction) then mret tt
  else if decide (front_mode = Some Steer) then mret tt
  else _ ← on_ledger (set_instance_state now i None (Some (Known WaitingInteraction))); mret tt.
Definition remark_after_queue_change (now : string) (front : option PendingPrompt) : wd unit :=
  match front with
  | None => mret tt
  | Some p => remark_after_enqueue now (Some (pp_mode p))
  end.

(** [settle_activity_after_drain]. *)
Definition settle_activity_after_drain (a : Answers) : wd unit :=
  x ← on_ledger (get_instance i);
  if bool_decide (activity x = Known WaitingInteraction) && negb (an_dialog a)
  then _ ← on_ledger (set_instance_state (an_now a) i None (Some (Known Idle))); mret tt
  else mret tt.

(** ** Steers *)

Definition STEER_INTERRUPT_BUDGET : Z := 2000.

(** [arm_steer_interrupt]. *)
Definition steer_related (p : PendingPrompt) (reason : string) : gmap string text :=
  <["commandId"%string := lit (pp_command_id p)]>
    (<["reason"%string := lit reason]>
       (<["origin"%string := origin_debug (pp_origin p)]> ∅)).
Definition arm_steer_interrupt (a : Answers) (steer : PendingPrompt) : wd unit :=
  _ ← say LEsc;
  let '(st, sev) :=
    match an_esc a with
    | EscOk => ("esc-dispatched"%string, SevInfo)
    | EscError e => (("esc-failed: " ++ show_driver_error e)%string, SevWarning)
    | EscTimeout => ("esc-timeout"%string, SevWarning)
    end in
  _ ← on_ledger (append_observation (an_now a) i
        (native_payload "turn-interrupted" st sev (steer_related steer "user-steer")));
  mret tt.

(** ** Settlements *)

(** The two store calls that record a settlement. *)
Definition save_settled (now : string) (c : Command) : wd unit :=
  _ ← on_ledger (save_command c);
  on_ledger (append_command_lifecycle now i c "settled").
(** [reject_before_dispatch] on a command read earlier. *)
Definition reject_queued (now : string) (c : Command) (reason : string) : wd unit :=
  save_settled now (settle_command now Rejected (Some reason) ExecNotDispatched c).
(** The guard [command.state != Settled] in front of it. *)
Definition reject_unsettled (now cid reason : string) : wd unit :=
  c ← on_ledger (get_command cid);
  if decide (cmd_state c = Settled) then mret tt else reject_queued now c reason.

(** ** Withdrawals and edits *)

(** [finalize_withdrawn]. *)
Definition finalize_withdrawn (now : string) (p : PendingPrompt) : wd unit :=
  _ ← update_message now StatusInterrupted p;
  _ ← on_prompts (Correlator.cancel (pp_command_id p));
  c ← on_ledger (get_command (pp_command_id p));
  if decide (cmd_state c = Settled) then mret tt
  else save_settled now
         (settle_command now Cancelled (Some "withdrawn"%string) ExecNotDispatched c).

(** [apply_edit]. *)
Definition is_text (b : ContentBlock) : bool :=
  match b with TextBlock _ => true | _ => false end.
Definition edited (t : text) (p : PendingPrompt) : PendingPrompt :=
  mkPending (pp_command_id p) t (pp_attachment_refs p) (pp_origin p) (pp_mode p)
    (with_blocks (retain (λ b, negb (is_text b)) (blocks (pp_message p)) ++ [TextBlock t])
       (pp_message p)).
Definition apply_edit (now : string) (t : text) (p : PendingPrompt) : wd PendingPrompt :=
  _ ← on_prompts (retext (pp_command_id p) t);
  update_message now StatusQueued (edited t p).

(** [apply_held_changes]: the loop over the queue. *)
Fixpoint apply_held_changes (now : string) (pending : list PendingPrompt)
    : wd (list PendingPrompt) :=
  match pending with
  | [] => mret []
  | p :: rest =>
      ch ← on_held (HeldInput.change (pp_command_id p));
      match ch with
      | Some ChangeWithdrawn => _ ← finalize_withdrawn now p; apply_held_changes now rest
      | Some (ChangeEdited t) =>
          p' ← apply_edit now t p; rest' ← apply_held_changes now rest; mret (p' :: rest')
      | None => rest' ← apply_held_changes now rest; mret (p :: rest')
      end
  end.

(** [interrupt_pending]. *)
Fixpoint interrupt_pending (now reason : string) (pending : list PendingPrompt) : wd unit :=
  match pending with
  | [] => mret tt
  | p :: rest =>
      _ ← on_held_ (HeldInput.release (pp_command_id p));
      _ ← update_message now StatusInterrupted p;
      _ ← on_prompts (Correlator.cancel (pp_command_id p));
      _ ← reject_unsettled now (pp_command_id p) reason;
      interrupt_pending now reason rest
  end.

(** ** Delivery *)

(** The journaled emissions of a request, each ingested by the broker. *)
Fixpoint append_emissions (now : string)
    (es : list (string * DriverEmission * result unit NodeError)) : wd unit :=
  match es with
  | [] => mret tt
  | (nid, e, ingest) :: rest =>
      _ ← on_ledger (append_observation now i (into_payload nid e));
      _ ← st_lift ingest;
      append_emissions now rest
  end.

(** Before the write: the probe, the two claims and the send.  [inl] is an
    early return of [deliver], [inr] the driver's answer. *)
Definition sent_result (r : result (list (string * DriverEmission * result unit NodeError)) DriverError)
    : result unit DriverError :=
  match r with Ok _ => Ok tt | Err e => Err e end.
Definition claimed_send (a : Answers) (p : PendingPrompt)
    : wd (bool + PendingPrompt * result (list (string * DriverEmission * result unit NodeError)) DriverError) :=
  let cid := pp_command_id p in
  held ← on_held (HeldInput.claim cid);
  match held with
  | ClaimWithdrawn => _ ← finalize_withdrawn (an_now a) p; mret (inl true)
  | ClaimDeliver edit =>
      p ← match edit with
          | Some t => apply_edit (an_now a) t p
          | None => mret p
          end;
      verdict ← on_node (NodeFence.claim (an_now a) cid);
      match verdict with
      | ClaimFenced =>
          _ ← on_held_ (HeldInput.release cid);
          _ ← update_message (an_now a) StatusInterrupted p;
          _ ← on_prompts (Correlator.cancel cid);
          mret (inl true)
      | Deliver =>
          _ ← on_ledger (set_instance_state (an_now a) i None (Some (Known Working)));
          _ ← say (LSend cid (pp_mode p) (pp_prompt p) (sent_result (an_exec a)));
          mret (inr (p, an_exec a))
      end
  end.
Definition attempt (a : Answers) (p : PendingPrompt)
    : wd (bool + PendingPrompt * result (list (string * DriverEmission * result unit NodeError)) DriverError) :=
  match an_probe a with
  | ProbeTimeout | ProbeError ControlUnavailable => mret (inl false)
  | ProbeError e => mret (inr (p, Err e))
  | ProbeReady => claimed_send a p
  end.

(** After a write that went through. *)
Definition land_blocks (landed : list string) (p : PendingPrompt) : PendingPrompt :=
  match landed with
  | [] => p
  | _ => with_message (with_blocks ((OtherBlock <$> landed) ++ blocks (pp_message p))
                         (pp_message p)) p
  end.
Definition after_send (a : Answers) (landed : list string) (p : PendingPrompt) (c : Command)
    (es : list (string * DriverEmission * result unit NodeError)) : wd Command :=
  _ ← update_message (an_now a) StatusComplete (land_blocks landed p);
  _ ← (if decide (pp_mode p = Steer)
       then _ ← on_ledger (append_observation (an_now a) i
                  (native_payload "prompt-steer" "delivered-ahead-of-queue" SevInfo
                     (steer_related p "interrupted-current-turn"))); mret tt
       else mret tt);
  _ ← append_emissions (an_now a) es;
  mret (if decide (cmd_state c = Settled) then c
        else settle_command (an_now a) Completed None PossiblyDispatched c).

(** After a write that failed or is uncertain. *)
Definition after_error (a : Answers) (p : PendingPrompt) (c : Command) (e : DriverError)
    : wd Command :=
  _ ← on_prompts (Correlator.cancel (pp_command_id p));
  _ ← update_message (an_now a) StatusInterrupted p;
  _ ← on_ledger (append_observation (an_now a) i
        (into_payload "" (EmNativeLifecycle "pty-prompt-error" (show_driver_error e) SevError)));
  _ ← on_ledger (set_instance_state (an_now a) i None
        (Some (Unknown "prompt-dispatch-uncertain")));
  mret (if decide (cmd_state c = Settled) then c
        else settle_command (an_now a) Rejected (Some (show_driver_error e)) PossiblyDispatched c).

(** The end of [deliver]: the entry is released and the settlement recorded. *)
Definition finish (a : Answers) (cid : string) (c : Command) : wd unit :=
  _ ← on_held_ (HeldInput.release cid);
  if decide (operation c = InstanceCreate) then mret tt else save_settled (an_now a) c.

(** [deliver]: [None] when the prompt leaves the queue ([Ok(true)]), the prompt
    as it now stands when it stays ([Ok(false)]). *)
Definition deliver (a : Answers) (p : PendingPrompt) : wd (option PendingPrompt) :=
  let cid := pp_command_id p in
  match an_attach a with
  | Err e =>
      _ ← on_held_ (HeldInput.release cid);
      _ ← update_message (an_now a) StatusInterrupted p;
      _ ← on_prompts (Correlator.cancel cid);
      _ ← reject_unsettled (an_now a) cid ("attachment materialization failed: " ++ e)%string;
      mret None
  | Ok landed =>
      r ← attempt a p;
      match r with
      | inl popped => mret (if popped : bool then None else Some p)
      | inr (p, execution) =>
          c ← on_ledger (get_command cid);
          match execution with
          | Err ControlUnavailable =>
              _ ← on_held_ (HeldInput.unclaim cid);
              _ ← remark_after_enqueue (an_now a) (Some (pp_mode p));
              mret (Some p)
          | Ok es => c' ← after_send a landed p c es; _ ← finish a cid c'; mret None
          | Err e => c' ← after_error a p c e; _ ← finish a cid c'; mret None
          end
      end
  end.
(** ** Control operations ([runtime.rs]) *)

(** [append_instance_lifecycle]. *)
Definition append_instance_lifecycle (now : string) (previous : option string)
    (state reason : string) : wd unit :=
  x ← on_ledger (get_instance i);
  _ ← on_ledger (append_observation now i (OInstanceLifecycle (inst_id x) previous state reason));
  mret tt.

(** [record_task_exit]: its failures are logged, never returned. *)
Definition record_task_exit (now reason : string) : wd unit := λ w,
  let '(w1, x) := on_ledger (get_instance i) w in
  if match x with Ok y => bool_decide (lifecycle y = Exited) | Err _ => false end then (w1, Ok tt)
  else
    let '(w2, _) := on_ledger (mark_unsettled_unknown now i) w1 in
    match on_ledger (set_instance_failure now i reason) w2 with
    | (w3, Err _) => (w3, Ok tt)
    | (w3, Ok _) =>
        ((append_instance_lifecycle now (Some "ready"%string) "failed" reason w3).1, Ok tt)
    end.

(** [finish_instance_operation]. *)
Definition finish_instance_operation (now : string) (r : DriverRequest) : wd unit :=
  match r with
  | ReqClose =>
      _ ← on_ledger (set_instance_state now i (Some Exited) (Some (Known Idle)));
      append_instance_lifecycle now (Some "ready"%string) "exited"
        (if decide (kind = HerdrClaimed) then "released" else "explicit-close")
  | ReqSend _ _ _ _ _ | ReqCancel | ReqSendKeys _ | ReqConfigure _ _ _ _ _ _ _ =>
      if structured_engine_turn_carrier kind then mret tt
      else _ ← on_ledger (set_instance_state now i None (Some (Known Idle))); mret tt
  | ReqRespondInteraction _ _ => mret tt
  end.

(** [execute_queued], the part after the dispatch claim: the user message of a
    send and its control probe (which has no timeout here, so [ProbeTimeout] reads
    as ready).  [true] when the request goes on to the driver. *)
Definition announce_send (a : Answers) (cid : string) (c : Command) (prompt : text)
    (attachments : list string) : wd bool :=
  _ ← on_ledger (set_instance_state (an_now a) i None (Some (Known Working)));
  let o := input_origin (cmd_origin c) in
  let x := message_payload (an_fresh a) RoleUser prompt (OtherBlock <$> attachments) in
  let x := mkMessage (mutation x) (message_id x) (role x) (blocks x) (Some (message_origin o))
             (Some cid) (prompt_mode x) (status x) in
  _ ← on_prompts (register_origin (an_clock a) cid (an_fresh a) prompt (authored o));
  _ ← on_ledger (append_observation (an_now a) i (OMessage x));
  match an_probe a with
  | ProbeError e =>
      _ ← on_prompts (Correlator.cancel cid);
      _ ← on_ledger (append_observation (an_now a) i
            (into_payload "" (EmNativeLifecycle "control-wait" (show_driver_error e) SevError)));
      _ ← save_settled (an_now a)
            (settle_command (an_now a) Rejected (Some (show_driver_error e)) PossiblyDispatched c);
      mret false
  | ProbeReady | ProbeTimeout => mret true
  end.

(** The driver's answer to the request ([dispatch_rpc] for an interaction). *)
Definition with_command_id (cid : string) (r : DriverRequest) : DriverRequest :=
  match r with ReqSend t at_ o m _ => ReqSend t at_ o m (Some cid) | _ => r end.
Definition perform (a : Answers) (cid : string) (r : DriverRequest)
    : wd (result (list (string * DriverEmission * result unit NodeError)) DriverError) :=
  match r with
  | ReqRespondInteraction _ _ =>
      mret (match an_rpc a with Ok _ => Ok [] | Err m => Err (DriverFailed m) end)
  | _ => _ ← say (LRequest (with_command_id cid r)); mret (an_exec a)
  end.
Definition is_configure (r : DriverRequest) : bool :=
  match r with ReqConfigure _ _ _ _ _ _ _ => true | _ => false end.
Definition after_request (a : Answers) (r : DriverRequest) (c : Command)
    (execution : result (list (string * DriverEmission * result unit NodeError)) DriverError)
    : wd unit :=
  match execution with
  | Ok es =>
      _ ← append_emissions (an_now a) es;
      _ ← finish_instance_operation (an_now a) r;
      save_settled (an_now a) (settle_command (an_now a) Completed None PossiblyDispatched c)
  | Err e =>
      let name := if is_configure r then "instance.configure"%string
                  else "fake-driver-error"%string in
      _ ← on_ledger (append_observation (an_now a) i
            (into_payload "" (EmNativeLifecycle name ("rejected: " ++ show_driver_error e)%string
                                SevWarning)));
      _ ← (if negb (is_pty kind) && negb (is_configure r) && an_gone a
           then record_task_exit (an_now a) (show_driver_error e) else mret tt);
      save_settled (an_now a)
        (settle_command (an_now a) Rejected (Some (show_driver_error e)) PossiblyDispatched c)
  end.

(** [execute_queued]. *)
Definition with_attachments (at_ : list string) (r : DriverRequest) : DriverRequest :=
  match r with ReqSend t _ o m c => ReqSend t at_ o m c | _ => r end.
Definition run_claimed (a : Answers) (cid : string) (r : DriverRequest) : wd unit :=
  verdict ← on_node (NodeFence.claim (an_now a) cid);
  if decide (verdict = ClaimFenced) then mret tt
  else
    c ← on_ledger (get_command cid);
    go ← match r with
         | ReqSend prompt at_ _ _ _ => announce_send a cid c prompt at_
         | _ => mret true
         end;
    if go : bool then execution ← perform a cid r; after_request a r c execution else mret tt.
Definition execute_queued (a : Answers) (q : QueuedCommand) : wd unit :=
  let cid := q_command_id q in
  match q_request q, an_attach a with
  | ReqSend _ _ _ _ _, Err e =>
      c ← on_ledger (get_command cid);
      save_settled (an_now a)
        (settle_command (an_now a) Rejected (Some e) ExecNotDispatched c)
  | ReqSend _ _ _ _ _, Ok at_ => run_claimed a cid (with_attachments at_ (q_request q))
  | _, _ => run_claimed a cid (q_request q)
  end.

(** ** The loop of [run] *)

(** The worker's local variables. *)
Record Local : Type := mkLocal {
  pending : list PendingPrompt;
  steer_deadline : option Z;
}.
Definition is_steer (p : PendingPrompt) : bool := bool_decide (pp_mode p = Steer).
Definition is_working : wd bool :=
  x ← on_ledger (get_instance i); mret (bool_decide (activity x = Known Working)).

(** The slot of a steer: ahead of the ordinary prompts, behind the steers. *)
Definition steer_slot (q : list PendingPrompt) : nat :=
  default (length q) (position (λ p, negb (is_steer p)) q).

(** A [Send] taken from the channel. *)
Definition recv_send (a : Answers) (capacity : nat) (l : Local) (cid : string) (t : text)
    (refs : list string) (o : InputOrigin) (m : PromptMode) : wd Local :=
  if decide (length (pending l) = capacity) then
    c ← on_ledger (get_command cid);
    _ ← on_prompts (Correlator.cancel cid);
    _ ← reject_queued (an_now a) c "instance-queue-full";
    _ ← remark_after_queue_change (an_now a) (head (pending l));
    mret l
  else
    was_working ← is_working;
    _ ← hold_prompt cid m t;
    item ← enqueue a cid t refs o m;
    l' ← (if decide (m = Steer) then
            let q := insert_at (steer_slot (pending l)) item (pending l) in
            blocked ← was_blocked_on_human a;
            if was_working && bool_decide (steer_deadline l = None) then
              _ ← match head q with
                  | Some front => arm_steer_interrupt a front
                  | None => mret tt
                  end;
              mret (mkLocal q (Some (an_clock a + STEER_INTERRUPT_BUDGET)))
            else if negb blocked && bool_decide (steer_deadline l = None)
            then mret (mkLocal q (Some (an_clock a)))
            else mret (mkLocal q (steer_deadline l))
          else mret (mkLocal (pending l ++ [item]) (steer_deadline l)));
    _ ← remark_after_enqueue (an_now a) (pp_mode <$> head (pending l'));
    mret l'.

(** The commands left in the channel of a closed instance. *)
Fixpoint drain_channel (now : string) (qs : list QueuedCommand) : wd unit :=
  match qs with
  | [] => mret tt
  | q :: rest =>
      c ← on_ledger (get_command (q_command_id q));
      _ ← on_prompts (Correlator.cancel (q_command_id q));
      _ ← reject_queued now c "instance closed";
      drain_channel now rest
  end.

(** Any other request; [None] when the loop ends.  The reclaim of the panes of
    an exited instance touches nothing of this model. *)
Definition recv_control (a : Answers) (rest : list QueuedCommand) (l : Local) (q : QueuedCommand)
    : wd (option Local) :=
  l ← match q_request q with
      | ReqCancel | ReqClose =>
          _ ← interrupt_pending (an_now a) "queued input cancelled" (pending l);
          mret (mkLocal [] (steer_deadline l))
      | _ => mret l
      end;
  _ ← execute_queued a q;
  exited ← (if q_close_after q
            then x ← on_ledger (get_instance i); mret (bool_decide (lifecycle x = Exited))
            else mret false);
  if exited : bool then _ ← drain_channel (an_now a) rest; mret None
  else
    _ ← (if decide (pending l = []) then mret tt
         else remark_after_queue_change (an_now a) (head (pending l)));
    mret (Some l).

(** One tick of a non-empty queue. *)
Definition deliver_front (a : Answers) (l : Local) (p : PendingPrompt) (rest : list PendingPrompt)
    : wd Local :=
  r ← deliver a p;
  match r with
  | Some p' => mret (mkLocal (p' :: rest) (steer_deadline l))
  | None =>
      let deadline := if is_steer p then None else steer_deadline l in
      match head rest with
      | Some next =>
          working ← (if is_steer next then is_working else mret false);
          if working : bool then
            _ ← arm_steer_interrupt a next;
            mret (mkLocal rest (Some (an_clock a + STEER_INTERRUPT_BUDGET)))
          else mret (mkLocal rest deadline)
      | None => mret (mkLocal rest deadline)
      end
  end.
Definition tick (a : Answers) (l : Local) : wd Local :=
  q ← apply_held_changes (an_now a) (pending l);
  let l := mkLocal q (steer_deadline l) in
  match q with
  | [] => _ ← settle_activity_after_drain a; mret l
  | p :: rest =>
      x ← on_ledger (get_instance i);
      if decide (lifecycle x ≠ Ready) then
        _ ← interrupt_pending (an_now a) "instance no longer ready" q;
        mret (mkLocal [] (steer_deadline l))
      else
        turn_still_busy ← is_working;
        dialog_open ← was_blocked_on_human a;
        let budget_passed := match steer_deadline l with
                             | Some d => d <=? an_clock a | None => false end in
        if is_steer p && ((turn_still_busy && negb budget_passed) || dialog_open)
        then mret l else deliver_front a l p rest
  end.

(** The prompt of a create, before the loop. *)
Definition start_create (a : Answers) (c : Command) (prompt : text) : wd Local :=
  q ← (if decide (prompt = []) then mret []
       else
         _ ← hold_prompt (command_id c) NewTurn prompt;
         item ← enqueue a (command_id c) prompt [] (input_origin (cmd_origin c)) NewTurn;
         mret [item]);
  _ ← save_settled (an_now a) (settle_command (an_now a) Completed None ExecNotDispatched c);
  _ ← remark_after_queue_change (an_now a) (head q);
  mret (mkLocal q None).

(** The events of the loop. *)
Inductive loop_event : Type :=
| RecvSend (cid : string) (t : text) (refs : list string) (o : InputOrigin) (m : PromptMode)
| RecvControl (q : QueuedCommand) (rest : list QueuedCommand)
| RecvClosed
| Tick.

(** One iteration: [Ok (Some l)] goes on, [Ok None] is the loop's return, [Err]
    its failure. *)
Definition loop_step (capacity : nat) (a : Answers) (ev : loop_event) (l : Local)
    : wd (option Local) :=
  match ev with
  | RecvSend cid t refs o m => l' ← recv_send a capacity l cid t refs o m; mret (Some l')
  | RecvControl q rest => recv_control a rest l q
  | RecvClosed =>
      _ ← interrupt_pending (an_now a) "instance worker closed" (pending l);
      st_fail DriverUnavailable
  | Tick => if decide (pending l = []) then mret (Some l) else l' ← tick a l; mret (Some l')
  end.

(** [run]: the create prompt if there is one, then the loop over a sequence of
    events until it returns or fails. *)
Fixpoint run_loop (capacity : nat) (evs : list (Answers * loop_event)) (l : Local)
    : wd (option Local) :=
  match evs with
  | [] => mret (Some l)
  | (a, ev) :: rest =>
      o ← loop_step capacity a ev l;
      match o with
      | Some l' => run_loop capacity rest l'
      | None => mret None
      end
  end.
Definition run (capacity : nat) (create : option (Answers * Command * text))
    (evs : list (Answers * loop_event)) : wd (option Local) :=
  l ← match create with
      | Some (a, c, prompt) => start_create a c prompt
      | None => mret (mkLocal [] None)
      end;
  run_loop capacity evs l.
End Queue.

(** ** Reading the log *)

(** The prompts of a class that entered the queue, and those whose bytes were
    given to the driver (an answer [ControlUnavailable] says nothing was
    written). *)
Definition steer_mode (m : PromptMode) : bool := bool_decide (m = Steer).
Definition written_result (r : result unit DriverError) : bool :=
  match r with Err ControlUnavailable => false | _ => true end.
Definition queued_as (steer : bool) (e : log_event) : option string :=
  match e with
  | LQueued cid m _ => if eqb (steer_mode m) steer then Some cid else None
  | _ => None
  end.
Definition written_as (steer : bool) (e : log_event) : option string :=
  match e with
  | LSend cid m _ r => if eqb (steer_mode m) steer && written_result r then Some cid else None
  | _ => None
  end.
Definition queued_cid (e : log_event) : option string :=
  match e with LQueued cid _ _ => Some cid | _ => None end.
Definition written_cid (e : log_event) : option string :=
  match e with LSend cid _ _ r => if written_result r then Some cid else None | _ => None end.

Definition queued (steer : bool) (log : list log_event) : list string := omap (queued_as steer) log.
Definition written (steer : bool) (log : list log_event) : list string := omap (written_as steer) log.
Definition all_queued (log : list log_event) : list string := omap queued_cid log.
Definition all_written (log : list log_event) : list string := omap written_cid log.
Definition ids (q : list PendingPrompt) : list string := pp_command_id <$> q.
Definition waiting (steer : bool) (q : list PendingPrompt) : list string :=
  ids (retain (λ p, eqb (is_steer p) steer) q).

(** The text of a prompt: as queued, then as last edited. *)
Definition text_event (cid : string) (acc : option text) (e : log_event) : option text :=
  match e with
  | LQueued c _ t | LEdited c t => if decide (c = cid) then Some t else acc
  | _ => acc
  end.
Definition current_text (cid : string) (log : list log_event) : option text :=
  foldl (text_event cid) None log.

(** Every steer is ahead of every ordinary prompt. *)
Definition steers_first (q : list PendingPrompt) : Prop :=
  ∃ s o, q = s ++ o ∧ Forall (λ p, is_steer p = true) s ∧ Forall (λ p, is_steer p = false) o.

(** The commands the channel delivers as prompts. *)
Definition event_ids (evs : list (Answers * loop_event)) : list string :=
  omap (λ x, match x.2 with RecvSend cid _ _ _ _ => Some cid | _ => None end) evs.
Definition create_ids (create : option (Answers * Command * text)) : list string :=
  match create with Some (_, c, _) => [command_id c] | None => [] end.

(** ** Stability under interference *)

(** What the worker's guarantees read of the world. *)
Definition view (w : World) : gmap string Held * list log_event := (held_of w, wd_log w).
Definition neutral (e : log_event) : bool :=
  match e with LEsc | LRequest _ => true | _ => false end.
Record stable (P : World → Prop) : Prop := {
  stable_env : ∀ w o, P w → P (env_step w o);
  stable_view : ∀ w w', view w = view w' → P w → P w';
  stable_say : ∀ w e, neutral e = true → P w → P (add_log e w);
}.
(** [c] keeps whatever the other tasks keep, on every path. *)
Definition framed {A} (c : wd A) : Prop := ∀ P w, stable P → P w → P (c w).1.

Lemma framed_ret {A} (x : A) : framed (mret x).
Proof. by intros P w _ H. Qed.
Lemma framed_lift {A} (r : result A NodeError) : framed (st_lift r).
Proof. by intros P w _ H. Qed.
Lemma framed_fail {A} (e : NodeError) : framed (st_fail e : wd A).
Proof. by intros P w _ H. Qed.
Lemma framed_bind {A B} (c : wd A) (k : A → wd B) :
  framed c → (∀ x, framed (k x)) → framed (c ≫= k).
Proof.
  intros Hc Hk P w HP H. rewrite st_bind_eq. specialize (Hc P w HP H).
  destruct (c w) as [w1 [x|e]]; simpl in *; [by apply Hk|done].
Qed.

Lemma interfere_stable P w : stable P → P w → P (interfere w).
Proof.
  intros [He Hv _] H. unfold interfere. destruct (wd_schedule w) as [|b r]; [done|].
  assert (P (set_schedule r w)) as H1 by (by apply (Hv w)). revert H1.
  generalize (set_schedule r w). clear -He. induction b as [|o b IH]; intros w H; simpl; [done|].
  by apply IH, He.
Qed.
Lemma on_node_framed {A} (c : st NodeState NodeError A) :
  (∀ n, held (n_fences (c n).1) = held (n_fences n)) → framed (on_node c).
Proof.
  intros Hc P w HP H. apply (interfere_stable P w HP) in H. unfold on_node, atomic, st_zoom.
  specialize (Hc (wd_node (interfere w))). destruct (c _) as [n r]. simpl in *.
  destruct HP as [_ Hv _]. apply (Hv (interfere w)); [|done]. unfold view, held_of. simpl. by rewrite Hc.
Qed.
Lemma on_ledger_framed {A} (c : st MemoryState NodeError A) : framed (on_ledger c).
Proof.
  apply on_node_framed. intros n. by destruct (on_store_commands c n) as (_ & _ & ->).
Qed.
Lemma on_prompts_framed f : framed (on_prompts f).
Proof.
  intros P w HP H. apply (interfere_stable P w HP) in H. destruct HP as [_ Hv _].
  by apply (Hv (interfere w)).
Qed.
Lemma say_framed e : neutral e = true → framed (say e).
Proof. intros He P w HP H. by apply (stable_say P HP). Qed.
#[local] Hint Resolve say_framed framed_ret framed_lift framed_fail on_ledger_framed on_prompts_framed : remuda.

(** Decompose a computation into framed accesses. *)
Ltac frame :=
  repeat first
    [ progress intros
    | apply framed_bind
    | solve [eauto with remuda]
    | case_match ].

Lemma claim_held now cid n : n_fences (NodeFence.claim now cid n).1 = n_fences n.
Proof.
  unfold NodeFence.claim. rewrite st_bind_eq, get_command_eq.
  destruct (commands (n_store n) !! cid) as [c|] eqn:Hc; [|done]. simpl.
  destruct (initiator c) as [ini|]; [|done]. rewrite st_bind_eq. simpl.
  rewrite st_bind_eq, get_command_eq, Hc. simpl. destruct (decide _); [done|].
  destruct (table_is_fenced _ _).
  - destruct (target_instance c) as [j|]; [|done]. rewrite st_bind_eq.
    destruct (on_store_commands (reject_before_dispatch now j c FENCED_REASON) n) as (_ & _ & H).
    by destruct (on_store _ n) as [n1 []].
  - rewrite st_bind_eq.
    destruct (on_store_commands (save_command (with_dispatch TransportWritten c)) n) as (_ & _ & H).
    by destruct (on_store _ n) as [n1 []].
Qed.
Lemma fence_claim_framed now cid : framed (on_node (NodeFence.claim now cid)).
Proof. apply on_node_framed. intros n. by rewrite claim_held. Qed.

Section Frames.
Context (i : InstanceId) (kind : DriverKind).

Lemma update_message_framed now s p : framed (update_message i now s p).
Proof. unfold update_message. frame. Qed.
Lemma enqueue_framed a cid t refs o m : framed (enqueue i a cid t refs o m).
Proof. unfold enqueue. frame. Qed.
Lemma was_blocked_framed a : framed (was_blocked_on_human i a).
Proof.
  intros P w HP H. unfold was_blocked_on_human.
  pose proof (on_ledger_framed (get_instance i) P w HP H) as H1.
  by destruct (on_ledger _ w) as [w1 []].
Qed.
Lemma remark_framed now m : framed (remark_after_enqueue i now m).
Proof. unfold remark_after_enqueue. frame. Qed.
Lemma remark_change_framed now p : framed (remark_after_queue_change i now p).
Proof. unfold remark_after_queue_change. destruct p; [apply remark_framed|apply framed_ret]. Qed.
Lemma settle_activity_framed a : framed (settle_activity_after_drain i a).
Proof. unfold settle_activity_after_drain. frame. Qed.
Lemma arm_framed a p : framed (arm_steer_interrupt i a p).
Proof. unfold arm_steer_interrupt. frame. Qed.
Lemma save_settled_framed now c : framed (save_settled i now c).
Proof. unfold save_settled. frame. Qed.
Lemma reject_unsettled_framed now cid r : framed (reject_unsettled i now cid r).
Proof. unfold reject_unsettled, reject_queued, save_settled. frame. Qed.
#[local] Hint Resolve update_message_framed save_settled_framed reject_unsettled_framed
  was_blocked_framed remark_framed fence_claim_framed arm_framed : remuda.

Lemma finalize_framed now p : framed (finalize_withdrawn i now p).
Proof. unfold finalize_withdrawn. frame. Qed.
Lemma apply_edit_framed now t p : framed (apply_edit i now t p).
Proof. unfold apply_edit. frame. Qed.
Lemma append_emissions_framed now es : framed (append_emissions i now es).
Proof. induction es as [|[[nid e] g] es IH]; simpl; frame. Qed.
#[local] Hint Resolve append_emissions_framed : remuda.
Lemma after_send_framed a landed p c es : framed (after_send i a landed p c es).
Proof. unfold after_send. frame. Qed.
Lemma after_error_framed a p c e : framed (after_error i a p c e).
Proof. unfold after_error. frame. Qed.
Lemma instance_lifecycle_framed now prev s r : framed (append_instance_lifecycle i now prev s r).
Proof. unfold append_instance_lifecycle. frame. Qed.
#[local] Hint Resolve instance_lifecycle_framed : remuda.
Lemma task_exit_framed now r : framed (record_task_exit i now r).
Proof.
  intros P w HP H. unfold record_task_exit.
  pose proof (on_ledger_framed (get_instance i) P w HP H) as H1.
  destruct (on_ledger (get_instance i) w) as [w1 x]. simpl in *.
  match goal with |- context [if ?b then _ else _] => destruct b end; [done|].
  pose proof (on_ledger_framed (mark_unsettled_unknown now i) P w1 HP H1) as H2.
  destruct (on_ledger (mark_unsettled_unknown now i) w1) as [w2 y]. simpl in *.
  pose proof (on_ledger_framed (set_instance_failure now i r) P w2 HP H2) as H3.
  destruct (on_ledger (set_instance_failure now i r) w2) as [w3 [|]]; simpl in *; [|done].
  by apply instance_lifecycle_framed.
Qed.
Lemma finish_operation_framed now r : framed (finish_instance_operation i kind now r).
Proof. unfold finish_instance_operation. frame. Qed.
Lemma announce_framed a cid c t at_ : framed (announce_send i a cid c t at_).
Proof. unfold announce_send. frame. Qed.
Lemma perform_framed a cid r : framed (perform a cid r).
Proof. unfold perform. frame. Qed.
#[local] Hint Resolve task_exit_framed finish_operation_framed announce_framed perform_framed : remuda.
Lemma after_request_framed a r c x : framed (after_request i kind a r c x).
Proof. unfold after_request. frame. Qed.
#[local] Hint Resolve after_request_framed : remuda.
Lemma execute_queued_framed a q : framed (execute_queued i kind a q).
Proof. unfold execute_queued, run_claimed. frame. Qed.
Lemma drain_framed now qs : framed (drain_channel i now qs).
Proof. induction qs; simpl; unfold reject_queued; frame. Qed.
Lemma is_working_framed : framed (is_working i).
Proof. unfold is_working. frame. Qed.
End Frames.
#[export] Hint Resolve update_message_framed enqueue_framed was_blocked_framed remark_framed
  remark_change_framed settle_activity_framed arm_framed save_settled_framed reject_unsettled_framed
  fence_claim_framed finalize_framed apply_edit_framed after_send_framed after_error_framed
  execute_queued_framed drain_framed is_working_framed : remuda.

(** ** The invariant of the queue *)

(** What the log and the registry say of every command. *)
Record log_ok (used : list string) (h : gmap string Held) (log : list log_event) : Prop := {
  lk_queued : ∀ cid, cid ∈ all_queued log → cid ∈ used;
  lk_held : ∀ cid, is_Some (h !! cid) → cid ∈ used;
  lk_known : ∀ cid, LWithdrawn cid ∈ log → cid ∈ used;
  lk_withdrawn : ∀ cid, LWithdrawn cid ∈ log →
    cid ∉ all_written log ∧ ∀ e, h !! cid = Some e → held_state e = Withdrawn;
  lk_written : ∀ cid e, cid ∈ all_written log → h !! cid = Some e → held_state e = Delivering;
  lk_text : ∀ k cid m t r, log !! k = Some (LSend cid m t r) →
    current_text cid (take k log) = Some t;
}.

(** A waiting prompt is held, and its text is the current one. *)
Definition live_prompt (h : gmap string Held) (log : list log_event) (p : PendingPrompt) : Prop :=
  ∃ e, h !! pp_command_id p = Some e ∧ held_state e ≠ Delivering ∧
    current_text (pp_command_id p) log = Some (default (pp_prompt p) (held_text e)).
Definition live_ok h log (q : list PendingPrompt) : Prop := ∀ p, p ∈ q → live_prompt h log p.

(** Order and uniqueness. *)
Record order_ok (log : list log_event) (q : list PendingPrompt) : Prop := {
  ok_once : NoDup (all_written log ++ ids q);
  ok_written : ∀ cid, cid ∈ all_written log → cid ∈ all_queued log;
  ok_order : ∀ b, (written b log ++ waiting b q) `sublist_of` queued b log;
  ok_steers : steers_first q;
}.

Definition queue_inv (used : list string) (q : list PendingPrompt) (w : World) : Prop :=
  log_ok used (held_of w) (wd_log w) ∧ live_ok (held_of w) (wd_log w) q ∧ order_ok (wd_log w) q.

(** A claimed prompt, between the claim and the driver's answer. *)
Definition delivering (h : gmap string Held) (cid : string) : Prop :=
  ∃ rev, h !! cid = Some (mkHeld Delivering rev None).
Definition in_flight (used : list string) (p : PendingPrompt) (q : list PendingPrompt) (w : World)
    : Prop :=
  log_ok used (held_of w) (wd_log w) ∧ live_ok (held_of w) (wd_log w) q ∧
  order_ok (wd_log w) (p :: q) ∧ delivering (held_of w) (pp_command_id p) ∧
  current_text (pp_command_id p) (wd_log w) = Some (pp_prompt p).

Lemma omap_snoc {A B} (f : A → option B) l x : omap f (l ++ [x]) = omap f l ++ option_list (f x).
Proof. rewrite omap_app. simpl. by destruct (f x). Qed.
Lemma current_text_snoc cid log e : current_text cid (log ++ [e]) = text_event cid (current_text cid log) e.
Proof. unfold current_text. by rewrite foldl_app. Qed.

Lemma steers_first_tail p q : steers_first (p :: q) → steers_first q.
Proof.
  intros (s & o & Hq & Hs & Ho). destruct s as [|x s]; simpl in Hq.
  - subst o. apply Forall_cons_1 in Ho as [_ Ho]. by exists [], q.
  - injection Hq as -> ->. apply Forall_cons_1 in Hs as [_ Hs]. by exists s, o.
Qed.
Lemma waiting_tail b p q : waiting b q `sublist_of` waiting b (p :: q).
Proof.
  unfold waiting, retain. simpl. destruct (eqb _ _); simpl; [by apply sublist_cons|done].
Qed.
Lemma order_ok_tail log p q : order_ok log (p :: q) → order_ok log q.
Proof.
  intros [H1 H2 H3 H4]. split; [|done| |by eapply steers_first_tail].
  - unfold ids in *. rewrite fmap_cons in H1. eapply sublist_NoDup; [done|].
    by apply sublist_app, sublist_cons.
  - intros b. etrans; [|apply H3]. by apply sublist_app, waiting_tail.
Qed.
Lemma order_ok_nil log q : order_ok log q → order_ok log [].
Proof. induction q as [|p q IH]; [done|]. by intros H%order_ok_tail%IH. Qed.
Lemma live_ok_tail h log p q : live_ok h log (p :: q) → live_ok h log q.
Proof. intros H x Hx. apply H. by right. Qed.
Lemma queue_inv_tail used p q w : queue_inv used (p :: q) w → queue_inv used q w.
Proof. intros (? & ? & ?). split_and!; [done|by eapply live_ok_tail|by eapply order_ok_tail]. Qed.
Lemma queue_inv_nil used q w : queue_inv used q w → queue_inv used [] w.
Proof. induction q as [|p q IH]; [done|]. by intros H%queue_inv_tail%IH. Qed.
Lemma queue_inv_used used x q w : queue_inv used q w → queue_inv (x :: used) q w.
Proof. intros ([H1 H2 H3 H4 H5 H6] & ? & ?). split; [split|done]; [set_solver..|done]. Qed.
Lemma in_flight_inv used p q w : in_flight used p q w → queue_inv used q w.
Proof. intros (? & ? & ? & _). split_and!; [done..|by eapply order_ok_tail]. Qed.
Lemma order_ok_fresh log p q :
  order_ok log (p :: q) → pp_command_id p ∉ all_written log ∧ pp_command_id p ∉ ids q.
Proof.
  intros [H _ _ _]. apply list.NoDup_app in H as (_ & H1 & H2). split.
  - intros Hc. apply (H1 _ Hc). by left.
  - by apply list.NoDup_cons in H2 as [? _].
Qed.

(** *** What the other tasks do to the registry and the log *)

Definition same_held (h : gmap string Held) (n : NodeState) : Prop := held (n_fences n) = h.
Lemma on_store_held {A} (c : st MemoryState NodeError A) h :
  preserves (same_held h) (on_store c) (λ _, True).
Proof.
  intros n H. unfold same_held. by destruct (on_store_commands c n) as (_ & _ & ->).
Qed.
Lemma fence_command_held now lin g c h :
  preserves (same_held h) (fence_command now lin g c) (λ _, True).
Proof.
  unfold fence_command. repeat case_match; eauto with remuda.
  eapply preserves_bind; [apply on_store_held|eauto with remuda].
Qed.
Lemma fence_instances_held now lin g xs h :
  preserves (same_held h) (fence_instances now lin g xs) (λ _, True).
Proof.
  induction xs as [|x xs IH]; simpl; [eauto with remuda|].
  eapply preserves_bind; [apply on_store_held|]. intros cs _.
  eapply (preserves_bind _ _ _ (λ _, True)).
  { induction cs as [|c cs IHc]; simpl; [eauto with remuda|].
    eapply preserves_bind; [apply fence_command_held|]. intros o _.
    eapply preserves_bind; [apply IHc|eauto with remuda]. }
  intros o _. eapply preserves_bind; [apply IH|eauto with remuda].
Qed.
Lemma persist_held fid lin g f : held (persist fid lin g f).1 = held f.
Proof.
  unfold persist, db_exec. rewrite !st_bind_eq. simpl.
  destruct (fence_db f) as [d|]; simpl; [destruct (db_ok d); simpl|]; done.
Qed.
Lemma fence_held now p n : held (n_fences (apply_fence_locked now p n).1) = held (n_fences n).
Proof.
  assert (preserves (same_held (held (n_fences n))) (apply_fence_locked now p) (λ _, True)) as H.
  { unfold apply_fence_locked. eapply (preserves_bind _ _ _ (λ _, True)).
    { intros m <-. unfold same_held, on_fences, st_zoom.
      pose proof (persist_held (fence_id p) (fence_lineage p) (live_generation p) (n_fences m)) as H.
      by destruct (persist _ _ _ _) as [f r]. }
    intros _ _. eapply preserves_bind; [apply on_store_held|]. intros xs _.
    eapply preserves_bind; [apply fence_instances_held|]. intros os _ m Hm. by split. }
  by apply H.
Qed.
Lemma submit_held now j c n : n_fences (submit_accept now j c n).1 = n_fences n.
Proof.
  unfold submit_accept, submit, on_fences, st_zoom, refuse_fenced, is_fenced. rewrite !st_bind_eq.
  simpl. destruct (initiator c) as [ini|]; simpl; [destruct (table_is_fenced _ _); simpl|];
    [by destruct n| |]; destruct n as [s f]; simpl;
    destruct (on_store_commands (insert_command j c) (mkNode s f)) as (_ & _ & H);
    destruct (on_store (insert_command j c) (mkNode s f)) as [n1 [[]|e]]; simpl in *; try done;
    unfold accept, save_journal; rewrite st_bind_eq, get_command_eq;
    (destruct (commands (n_store n1) !! command_id c) as [x|]; [|done]); simpl;
    by destruct (on_store_commands (_ ← save_command (accept_command now x);
         append_command_lifecycle now j (accept_command now x) "accepted") n1) as (_ & _ & ->).
Qed.

Definition withdraw_entry (e : Held) : Held := mkHeld Withdrawn (held_revision e) (held_text e).
Lemma env_effect w o :
  view (env_step w o) = view w ∨
  (∃ cid e, held_of w !! cid = Some e ∧ held_state e ≠ Delivering ∧
     view (env_step w o) = (<[cid := withdraw_entry e]> (held_of w), wd_log w ++ [LWithdrawn cid])) ∨
  (∃ cid e rev t, held_of w !! cid = Some e ∧ held_state e = Waiting ∧
     view (env_step w o)
     = (<[cid := mkHeld Waiting rev (Some t)]> (held_of w), wd_log w ++ [LEdited cid t])).
Proof.
  destruct o as [cid|cid x t|now p|now j c|now j lc act|now j b|cl raw ch]; simpl.
  - unfold HeldInput.withdraw. destruct (held_of w !! cid) as [e|] eqn:He; [|by left].
    destruct (decide (held_state e = Waiting)) as [Hw|Hw]; [right; left|].
    { exists cid, e. by rewrite Hw. }
    destruct (decide (held_state e = Withdrawn)) as [Hd|Hd]; [right; left|by left].
    exists cid, e. rewrite Hd. split_and!; [done..|]. unfold view. simpl.
    rewrite insert_id; [done|]. rewrite He. destruct e. simpl in Hd. by subst.
  - unfold HeldInput.edit. destruct (held_of w !! cid) as [e|] eqn:He; [|by left].
    destruct (decide (held_state e = Waiting)) as [Hw|Hw]; [|by left].
    destruct (_ =? _); [right; right|by left]. by eexists cid, e, _, t.
  - left. unfold view, held_of. simpl. by rewrite fence_held.
  - left. unfold view, held_of. simpl. by rewrite submit_held.
  - left. unfold view, held_of. simpl.
    by destruct (on_store_commands (set_instance_state now j lc act) (wd_node w)) as (_ & _ & ->).
  - left. unfold view, held_of. simpl.
    by destruct (on_store_commands (append_observation now j b) (wd_node w)) as (_ & _ & ->).
  - by left.
Qed.

(** *** The invariants are stable *)

(** Appending an event that is not a send keeps the text of the sends. *)
Lemma text_snoc log e :
  (∀ k cid m t r, log !! k = Some (LSend cid m t r) → current_text cid (take k log) = Some t) →
  (∀ cid m t r, e = LSend cid m t r → current_text cid log = Some t) →
  ∀ k cid m t r, (log ++ [e]) !! k = Some (LSend cid m t r) →
    current_text cid (take k (log ++ [e])) = Some t.
Proof.
  intros Hl He k cid m t r Hk. apply lookup_snoc_Some in Hk as [[Hlt Hk]|[-> Hk]].
  - rewrite take_app_le by lia. by eapply Hl.
  - rewrite take_app_length. by eapply He.
Qed.

(** The projections of the log do not see the other events. *)
Definition marks_order (e : log_event) : bool :=
  match e with LQueued _ _ _ | LSend _ _ _ _ => true | _ => false end.
Lemma unmarked log e : marks_order e = false →
  all_written (log ++ [e]) = all_written log ∧ all_queued (log ++ [e]) = all_queued log ∧
  (∀ b, written b (log ++ [e]) = written b log) ∧ (∀ b, queued b (log ++ [e]) = queued b log).
Proof.
  unfold all_written, all_queued, written, queued. intros He.
  split_and!; [| |intros b..]; rewrite omap_snoc; destruct e; simpl in *; try done; by rewrite app_nil_r.
Qed.
Lemma order_ok_unmarked log e q : marks_order e = false → order_ok log q → order_ok (log ++ [e]) q.
Proof.
  intros (H1 & H2 & H3 & H4)%(unmarked log) [O1 O2 O3 O4]. split; [..|done].
  - by rewrite H1.
  - by rewrite H1, H2.
  - intros b. by rewrite H3, H4.
Qed.

(** A neutral event changes nothing. *)
Lemma neutral_log_ok used h log e :
  neutral e = true → log_ok used h log → log_ok used h (log ++ [e]).
Proof.
  intros He [H1 H2 H3 H4 H5 H6]. assert (marks_order e = false) as Hm by (by destruct e).
  destruct (unmarked log e Hm) as (Hw & Hq & _ & _).
  assert (∀ cid, LWithdrawn cid ∈ log ++ [e] → LWithdrawn cid ∈ log) as Hin.
  { intros cid [?|Hx%list_elem_of_singleton]%elem_of_app; [done|]. by subst e. }
  split; rewrite ?Hw, ?Hq; eauto. apply text_snoc; [done|]. intros. by subst e.
Qed.
Lemma neutral_text e cid log : neutral e = true → current_text cid (log ++ [e]) = current_text cid log.
Proof. intros He. rewrite current_text_snoc. by destruct e. Qed.
Lemma neutral_live h log e q : neutral e = true → live_ok h log q → live_ok h (log ++ [e]) q.
Proof.
  intros He H p Hp. destruct (H p Hp) as (x & ?). exists x. by rewrite neutral_text.
Qed.

(** A withdrawal: the entry was not claimed. *)
Lemma withdraw_log_ok used h log cid e :
  h !! cid = Some e → held_state e ≠ Delivering → log_ok used h log →
  log_ok used (<[cid := withdraw_entry e]> h) (log ++ [LWithdrawn cid]).
Proof.
  intros He Hd [H1 H2 H3 H4 H5 H6].
  destruct (unmarked log (LWithdrawn cid)) as (Hw & Hq & _ & _); [done|].
  assert (cid ∉ all_written log) as Hno by (intros Hc; by apply (H5 cid e) in Hc).
  split; rewrite ?Hw, ?Hq; [done|..].
  - intros c. destruct (decide (c = cid)) as [->|Hne]; [intros _; apply H2; eauto|].
    rewrite lookup_insert_ne by done. apply H2.
  - intros c [Hc|[= ->]%list_elem_of_singleton]%elem_of_app; [by apply H3|]. apply H2. eauto.
  - intros c Hc. destruct (decide (c = cid)) as [->|Hne].
    + split; [done|]. intros x. rewrite lookup_insert_eq. by intros [= <-].
    + rewrite lookup_insert_ne by done. apply H4. set_solver.
  - intros c x Hc. destruct (decide (c = cid)) as [->|Hne]; [done|].
    rewrite lookup_insert_ne by done. by apply H5.
  - by apply text_snoc.
Qed.
Lemma withdraw_live h log cid e q :
  h !! cid = Some e → held_state e ≠ Delivering → live_ok h log q →
  live_ok (<[cid := withdraw_entry e]> h) (log ++ [LWithdrawn cid]) q.
Proof.
  intros He Hd H p Hp. destruct (H p Hp) as (x & Hx & Hs & Ht). unfold live_prompt.
  rewrite current_text_snoc. simpl. destruct (decide (pp_command_id p = cid)) as [Heq|Hne].
  - rewrite Heq in *. rewrite lookup_insert_eq. exists (withdraw_entry e). simplify_eq. by split_and!.
  - rewrite lookup_insert_ne by done. by exists x.
Qed.

(** An accepted edit: the entry was waiting. *)
Lemma edit_log_ok used h log cid e rev t :
  h !! cid = Some e → held_state e = Waiting → log_ok used h log →
  log_ok used (<[cid := mkHeld Waiting rev (Some t)]> h) (log ++ [LEdited cid t]).
Proof.
  intros He Hd [H1 H2 H3 H4 H5 H6].
  destruct (unmarked log (LEdited cid t)) as (Hw & Hq & _ & _); [done|].
  assert (∀ c, LWithdrawn c ∈ log ++ [LEdited cid t] → LWithdrawn c ∈ log) as Hin by set_solver.
  split; rewrite ?Hw, ?Hq; [done|..].
  - intros c. destruct (decide (c = cid)) as [->|Hne]; [intros _; apply H2; eauto|].
    rewrite lookup_insert_ne by done. apply H2.
  - eauto.
  - intros c Hc%Hin. destruct (H4 c Hc) as [Hn Hx]. split; [done|].
    destruct (decide (c = cid)) as [->|Hne]; [specialize (Hx e He); congruence|].
    by rewrite lookup_insert_ne.
  - intros c x Hc. destruct (decide (c = cid)) as [->|Hne].
    + specialize (H5 cid e Hc He). congruence.
    + rewrite lookup_insert_ne by done. by apply H5.
  - by apply text_snoc.
Qed.
Lemma edit_live h log cid rev t q :
  live_ok h log q → live_ok (<[cid := mkHeld Waiting rev (Some t)]> h) (log ++ [LEdited cid t]) q.
Proof.
  intros H p Hp. destruct (H p Hp) as (x & Hx & Hs & Ht). unfold live_prompt.
  rewrite current_text_snoc. simpl. destruct (decide (pp_command_id p = cid)) as [Heq|Hne].
  - rewrite Heq, lookup_insert_eq, decide_True by done. by eexists.
  - rewrite lookup_insert_ne, decide_False by done. by exists x.
Qed.

Lemma queue_inv_stable used q : stable (queue_inv used q).
Proof.
  split.
  - intros w o (Hl & Hv & Ho). unfold queue_inv.
    pose proof (env_effect w o) as Heff. unfold view in Heff.
    destruct Heff as [[= -> ->]|[(cid & e & He & Hd & [= -> ->])|
      (cid & e & rev & t & He & Hd & [= -> ->])]]; split_and!;
      eauto using withdraw_log_ok, withdraw_live, edit_log_ok, edit_live, order_ok_unmarked.
  - unfold queue_inv, view. by intros w w' [= -> ->].
  - intros w e He (Hl & Hv & Ho).
    split_and!; simpl; eauto using neutral_log_ok, neutral_live.
    apply order_ok_unmarked; [by destruct e|done].
Qed.
Lemma in_flight_stable used p q : stable (in_flight used p q).
Proof.
  split.
  - intros w o (Hl & Hv & Ho & (r & Hd) & Ht). unfold in_flight.
    pose proof (env_effect w o) as Heff. unfold view in Heff.
    destruct Heff as [[= -> ->]|[(cid & e & He & Hs & [= -> ->])|
      (cid & e & rev & t & He & Hs & [= -> ->])]]; 
      [split_and!; try done; by exists r| |];
      (assert (cid ≠ pp_command_id p) as Hne by (intros ->; rewrite Hd in He; by simplify_eq));
      rewrite current_text_snoc; simpl; rewrite ?decide_False by done;
      split_and!; eauto using withdraw_log_ok, withdraw_live, edit_log_ok, edit_live,
        order_ok_unmarked; exists r; by rewrite lookup_insert_ne.
  - unfold in_flight, view. by intros w w' [= -> ->].
  - intros w e He (Hl & Hv & Ho & Hd & Ht). unfold in_flight. simpl.
    rewrite neutral_text by done.
    split_and!; simpl; eauto using neutral_log_ok, neutral_live.
    apply order_ok_unmarked; [by destruct e|done].
Qed.
#[local] Hint Resolve queue_inv_stable in_flight_stable : remuda.

(** *** Reasoning about the worker *)

(** From [P] the computation ends in [Q], or fails with the log in order. *)
Definition triple {A} (used : list string) (P : World → Prop) (c : wd A) (Q : A → World → Prop)
    : Prop :=
  ∀ w, P w → match c w with
             | (w', Ok x) => Q x w'
             | (w', Err _) => queue_inv used [] w'
             end.

Lemma triple_ret {A} used (x : A) P Q : (∀ w, P w → Q x w) → triple used P (mret x) Q.
Proof. intros H w. apply H. Qed.
Lemma triple_bind {A B} used P (c : wd A) (k : A → wd B) R Q :
  triple used P c R → (∀ x, triple used (R x) (k x) Q) → triple used P (c ≫= k) Q.
Proof.
  intros Hc Hk w HP. rewrite st_bind_eq. specialize (Hc w HP).
  destruct (c w) as [w1 [x|e]]; [by apply Hk|done].
Qed.
Lemma triple_pre {A} used (P P' : World → Prop) (c : wd A) Q :
  (∀ w, P w → P' w) → triple used P' c Q → triple used P c Q.
Proof. intros H Hc w HP. by apply Hc, H. Qed.
Lemma triple_post {A} used P (c : wd A) (Q Q' : A → World → Prop) :
  triple used P c Q' → (∀ x w, Q' x w → Q x w) → triple used P c Q.
Proof. intros Hc H w HP. specialize (Hc w HP). destruct (c w) as [w1 [x|e]]; [by apply H|done]. Qed.

(** A framed computation keeps a stable assertion that implies the invariant. *)
Lemma triple_framed {A} used (P : World → Prop) (R : A → Prop) (c : wd A) :
  framed c → stable P → (∀ w, P w → queue_inv used [] w) →
  (∀ w w' x, c w = (w', Ok x) → R x) → triple used P c (λ x w, P w ∧ R x).
Proof.
  intros Hf HP HE HR w Hw. specialize (Hf P w HP Hw). destruct (c w) as [w1 [x|e]] eqn:Hc; simpl in *;
    [by split; [|eapply HR]|by apply HE].
Qed.
Lemma triple_quiet {A} used q (c : wd A) :
  framed c → triple used (queue_inv used q) c (λ _, queue_inv used q).
Proof.
  intros Hf. eapply triple_post; [apply (triple_framed used (queue_inv used q) (λ _, True))|];
    eauto using queue_inv_nil with remuda. by intros ? ? [].
Qed.
Lemma triple_flight {A} used p q (c : wd A) :
  framed c → triple used (in_flight used p q) c (λ _, in_flight used p q).
Proof.
  intros Hf. eapply triple_post; [apply (triple_framed used (in_flight used p q) (λ _, True))|];
    eauto using queue_inv_nil, in_flight_inv with remuda. by intros ? ? [].
Qed.

(** *** The queue is read through ids, modes and texts *)

Definition key (p : PendingPrompt) : string * PromptMode * text :=
  (pp_command_id p, pp_mode p, pp_prompt p).

Definition shape (p : PendingPrompt) : string * PromptMode := (pp_command_id p, pp_mode p).
Lemma shape_key (q q' : list PendingPrompt) : key <$> q = key <$> q' → shape <$> q = shape <$> q'.
Proof. intros H. apply (f_equal (fmap fst)) in H. by rewrite <-!list_fmap_compose in H. Qed.

Lemma waiting_shape b (q q' : list PendingPrompt) : shape <$> q = shape <$> q' → waiting b q = waiting b q' ∧ ids q = ids q'.
Proof.
  revert q'. induction q as [|p q IH]; intros [|p' q'] H; try done. csimpl in H.
  injection H as Hp Hm H. destruct (IH q' H) as [H1 H2]. unfold waiting, ids, retain, is_steer in *.
  rewrite !fmap_cons. cbn [List.filter]. rewrite Hm. split; [|congruence].
  destruct (eqb _ _); rewrite ?fmap_cons; congruence.
Qed.
Lemma steers_first_shape (q q' : list PendingPrompt) : shape <$> q = shape <$> q' → steers_first q → steers_first q'.
Proof.
  intros H (s & o & -> & Hs & Ho). rewrite fmap_app in H. symmetry in H.
  apply fmap_app_inv in H as (s' & o' & H1 & H2 & ->). exists s', o'. split; [done|].
  assert (∀ l l', shape <$> l = shape <$> l' → ∀ v, Forall (λ p, is_steer p = v) l →
    Forall (λ p, is_steer p = v) l') as Hk; [|by split; eapply Hk].
  clear. intros l. induction l as [|p l IH]; intros [|p' l'] H v Hl; try done. csimpl in H.
  injection H as Hp Hm H. apply Forall_cons_1 in Hl as [Hl1 Hl2]. constructor; [|by apply IH].
  unfold is_steer in *. by rewrite <-Hm.
Qed.
Lemma order_ok_shape log q q' : shape <$> q = shape <$> q' → order_ok log q → order_ok log q'.
Proof.
  intros H [O1 O2 O3 O4]. split; [..|by eapply steers_first_shape].
  - by rewrite <-(proj2 (waiting_shape true _ _ H)).
  - done.
  - intros b. by rewrite <-(proj1 (waiting_shape b _ _ H)).
Qed.
Lemma queue_inv_key used q q' w : key <$> q = key <$> q' → queue_inv used q w → queue_inv used q' w.
Proof.
  intros H (Hl & Hv & Ho). split_and!; [done| |by eapply order_ok_shape, Ho; apply shape_key].
  intros p' Hp'. apply (list_elem_of_fmap_2 key) in Hp'. rewrite <-H in Hp'.
  apply list_elem_of_fmap in Hp' as (p & Hk & Hp). destruct (Hv p Hp) as (e & ?).
  injection Hk as Hi _ Ht. exists e. by rewrite Hi, Ht.
Qed.
Lemma in_flight_key used p p' q w : key p = key p' → in_flight used p q w → in_flight used p' q w.
Proof.
  intros H (? & ? & ? & ? & ?). injection H as Hi Hm Ht. unfold in_flight. rewrite <-Hi, <-Ht.
  split_and!; [done..| |done|done]. eapply order_ok_shape; [|done]. csimpl. unfold shape. congruence.
Qed.

Lemma sublist_map {A B} (f : A → B) (l k : list A) :
  l `sublist_of` k → (f <$> l) `sublist_of` (f <$> k).
Proof. induction 1; csimpl; by constructor. Qed.
Lemma sublist_Forall {A} (P : A → Prop) (l k : list A) : l `sublist_of` k → Forall P k → Forall P l.
Proof. induction 1; intros Hk; try done; apply Forall_cons_1 in Hk as [??]; auto. Qed.
Lemma sublist_elem {A} (x : A) (l k : list A) : l `sublist_of` k → x ∈ l → x ∈ k.
Proof. induction 1; set_solver. Qed.
Lemma sublist_retain {A} (f : A → bool) (l k : list A) :
  l `sublist_of` k → retain f l `sublist_of` retain f k.
Proof. unfold retain. induction 1; simpl; [done|..]; destruct (f x); by try constructor. Qed.

(** A shorter queue is in order too. *)
Lemma order_ok_sublist log q q' : q' `sublist_of` q → order_ok log q → order_ok log q'.
Proof.
  intros Hs [O1 O2 O3 O4]. split; [|done|..].
  - eapply sublist_NoDup; [done|]. by apply sublist_app, sublist_map.
  - intros b. etrans; [|apply O3]. apply sublist_app; [done|]. by apply sublist_map, sublist_retain.
  - destruct O4 as (s & o & -> & Hs1 & Ho1). apply sublist_app_r in Hs as (s' & o' & -> & H1 & H2).
    exists s', o'. split_and!; [done|..]; by eapply sublist_Forall.
Qed.

(** *** The worker's own steps on the registry *)

(** Dropping or claiming an entry the queue no longer waits on. *)
Lemma log_ok_delete used h log cid : log_ok used h log → log_ok used (delete cid h) log.
Proof.
  intros [H1 H2 H3 H4 H5 H6].
  assert (∀ c e, delete cid h !! c = Some e → h !! c = Some e) as Hd
    by (intros c e; rewrite lookup_delete_Some; by intros []).
  split; [done| |done| | |done].
  - intros c [e He]. apply H2. eauto.
  - intros c Hc. destruct (H4 c Hc) as [? Hx]. split; [done|]. eauto.
  - intros c e Hc He. by eapply H5, Hd.
Qed.
Lemma live_ok_other h log cid q h' :
  cid ∉ ids q → (∀ c, c ≠ cid → h' !! c = h !! c) → live_ok h log q → live_ok h' log q.
Proof.
  intros Hn Hh H p Hp. destruct (H p Hp) as (e & ?). exists e. rewrite Hh; [done|].
  intros Heq. apply Hn. rewrite <-Heq. by apply list_elem_of_fmap_2.
Qed.

Lemma release_triple used cid q :
  cid ∉ ids q →
  triple used (queue_inv used q) (on_held_ (HeldInput.release cid)) (λ _, queue_inv used q).
Proof.
  intros Hn w H%(interfere_stable _ _ (queue_inv_stable used q)). unfold on_held_, on_held, atomic. simpl.
  destruct H as (Hl & Hv & Ho). split_and!; [by apply log_ok_delete| |done].
  eapply live_ok_other; [done| |done]. intros c Hc. by apply lookup_delete_ne.
Qed.

(** [HeldInput.change] on a waiting prompt in the middle of the queue. *)
Lemma ids_middle d p q : ids (d ++ p :: q) = ids d ++ pp_command_id p :: ids q.
Proof. unfold ids. by rewrite fmap_app. Qed.
Lemma middle_fresh log d p q : order_ok log (d ++ p :: q) → pp_command_id p ∉ ids (d ++ q).
Proof.
  intros [H _ _ _]. rewrite ids_middle in H. unfold ids. rewrite fmap_app.
  apply list.NoDup_app in H as (_ & _ & H). rewrite <-Permutation_middle in H.
  by apply list.NoDup_cons in H as [? _].
Qed.
Lemma order_ok_drop log d p q : order_ok log (d ++ p :: q) → order_ok log (d ++ q).
Proof. apply order_ok_sublist. by apply sublist_app, sublist_cons. Qed.
Lemma live_ok_drop h log d p q : live_ok h log (d ++ p :: q) → live_ok h log (d ++ q).
Proof. intros H x Hx. apply H. set_solver. Qed.
Lemma queue_inv_drop used d p q w : queue_inv used (d ++ p :: q) w → queue_inv used (d ++ q) w.
Proof. intros (? & ? & ?). split_and!; eauto using live_ok_drop, order_ok_drop. Qed.

(** Resetting the text of a waiting entry that was handed to the queue. *)
Lemma log_ok_take used h log cid e :
  h !! cid = Some e → log_ok used h log →
  log_ok used (<[cid := mkHeld (held_state e) (held_revision e) None]> h) log.
Proof.
  intros He [H1 H2 H3 H4 H5 H6]. split; [done| |done| | |done].
  - intros c. destruct (decide (c = cid)) as [->|Hne]; [intros _; apply H2; eauto|].
    rewrite lookup_insert_ne by done. apply H2.
  - intros c Hc. destruct (H4 c Hc) as [? Hx]. split; [done|]. intros x.
    destruct (decide (c = cid)) as [->|Hne]; [|by rewrite lookup_insert_ne; [apply Hx|]].
    rewrite lookup_insert_eq. intros [= <-]. simpl. by apply Hx.
  - intros c x Hc. destruct (decide (c = cid)) as [->|Hne]; [|by rewrite lookup_insert_ne; [apply H5|]].
    rewrite lookup_insert_eq. intros [= <-]. simpl. by eapply H5.
Qed.

Lemma change_triple used d p q :
  triple used (queue_inv used (d ++ p :: q)) (on_held (HeldInput.change (pp_command_id p)))
    (λ r w, match r with
            | Some ChangeWithdrawn => queue_inv used (d ++ q) w
            | Some (ChangeEdited t) => queue_inv used (d ++ edited t p :: q) w
            | None => queue_inv used (d ++ p :: q) w
            end).
Proof.
  intros w H%(interfere_stable _ _ (queue_inv_stable used _)). unfold on_held, atomic. simpl.
  set (v := interfere w) in *. destruct H as (Hl & Hv & Ho).
  destruct (Hv p) as (e & He & Hs & Ht); [set_solver|]. unfold HeldInput.change. rewrite He.
  pose proof (middle_fresh _ _ _ _ Ho) as Hn.
  destruct (held_state e) eqn:Hst; [| |done].
  - assert (log_ok used (<[pp_command_id p := mkHeld Waiting (held_revision e) None]> (held_of v))
      (wd_log v)) as Hl' by (rewrite <-Hst; by apply log_ok_take).
    assert (live_ok (<[pp_command_id p := mkHeld Waiting (held_revision e) None]> (held_of v))
      (wd_log v) (d ++ q)) as Hv'.
    { eapply live_ok_other; [done| |by eapply live_ok_drop]. intros c Hc. by rewrite lookup_insert_ne. }
    assert (∀ p', pp_command_id p' = pp_command_id p →
      pp_prompt p' = default (pp_prompt p) (held_text e) →
      live_ok (<[pp_command_id p := mkHeld Waiting (held_revision e) None]> (held_of v))
        (wd_log v) (d ++ p' :: q)) as Hlive.
    { intros p' Hp' Ht' x [Hx|[->|Hx]%elem_of_cons]%elem_of_app;
        [apply Hv'; set_solver| |apply Hv'; set_solver].
      rewrite <-Hp'. eexists. rewrite lookup_insert_eq. split_and!; [done..|].
      simpl. by rewrite Hp', Ht', Ht. }
    destruct (held_text e) as [t|] eqn:Htext; simpl; split_and!; [done|by apply Hlive| |done|by apply Hlive|done].
    eapply order_ok_shape; [|done]. by rewrite !fmap_app.
  - simpl. split_and!; [by apply log_ok_delete| |by eapply order_ok_drop].
    eapply live_ok_other; [done| |by eapply live_ok_drop]. intros c Hc. by apply lookup_delete_ne.
Qed.

(** The delivery claim of the head. *)
Lemma log_ok_claim used h log cid e :
  h !! cid = Some e → held_state e ≠ Withdrawn → log_ok used h log →
  log_ok used (<[cid := mkHeld Delivering (held_revision e) None]> h) log.
Proof.
  intros He Hs [H1 H2 H3 H4 H5 H6]. split; [done| |done| | |done].
  - intros c. destruct (decide (c = cid)) as [->|Hne]; [intros _; apply H2; eauto|].
    rewrite lookup_insert_ne by done. apply H2.
  - intros c Hc. destruct (H4 c Hc) as [? Hx]. split; [done|]. intros x.
    destruct (decide (c = cid)) as [->|Hne]; [by apply Hx in He|].
    rewrite lookup_insert_ne by done. apply Hx.
  - intros c x Hc. destruct (decide (c = cid)) as [->|Hne].
    + rewrite lookup_insert_eq. by intros [= <-].
    + rewrite lookup_insert_ne by done. by apply H5.
Qed.
Lemma claim_triple used p q :
  triple used (queue_inv used (p :: q)) (on_held (HeldInput.claim (pp_command_id p)))
    (λ r w, match r with
            | ClaimWithdrawn => queue_inv used q w
            | ClaimDeliver (Some t) => in_flight used (edited t p) q w
            | ClaimDeliver None => in_flight used p q w
            end).
Proof.
  intros w H%(interfere_stable _ _ (queue_inv_stable used _)). unfold on_held, atomic. simpl.
  set (v := interfere w) in *. destruct H as (Hl & Hv & Ho).
  destruct (Hv p) as (e & He & Hs & Ht); [set_solver|]. unfold HeldInput.claim. rewrite He.
  destruct (order_ok_fresh _ _ _ Ho) as [Hw Hn]. destruct (decide (held_state e = Withdrawn)) as [Hd|Hd].
  - simpl. split_and!; [by apply log_ok_delete| |by eapply order_ok_tail].
    eapply live_ok_other; [done| |by eapply live_ok_tail]. intros c Hc. by apply lookup_delete_ne.
  - assert (live_ok (<[pp_command_id p := mkHeld Delivering (held_revision e) None]> (held_of v))
      (wd_log v) q) as Hv'.
    { eapply live_ok_other; [done| |by eapply live_ok_tail]. intros c Hc. by apply lookup_insert_ne. }
    assert (delivering (<[pp_command_id p := mkHeld Delivering (held_revision e) None]> (held_of v))
      (pp_command_id p)) as Hdel by (eexists; apply lookup_insert_eq).
    destruct (held_text e) as [t|] eqn:Htext; simpl;
      (split_and!; [by apply log_ok_claim|done|by eapply order_ok_shape, Ho|done|done]).
Qed.

(** A write that did not happen: the prompt waits again. *)
Lemma unclaim_triple used p q :
  triple used (in_flight used p q) (on_held_ (HeldInput.unclaim (pp_command_id p)))
    (λ _, queue_inv used (p :: q)).
Proof.
  intros w H%(interfere_stable _ _ (in_flight_stable used p q)). unfold on_held_, on_held, atomic.
  simpl. set (v := interfere w) in *. destruct H as (Hl & Hv & Ho & (rev & Hd) & Ht).
  unfold HeldInput.unclaim. rewrite Hd. rewrite decide_True by done. simpl.
  destruct (order_ok_fresh _ _ _ Ho) as [Hw Hn]. destruct Hl as [H1 H2 H3 H4 H5 H6].
  split_and!; [split; simpl; [done| |done| | |done]| |done].
  - intros c. destruct (decide (c = pp_command_id p)) as [->|Hne]; [intros _; apply H2; eauto|].
    unfold held_of. simpl. rewrite lookup_insert_ne by done. apply H2.
  - intros c Hc. destruct (H4 c Hc) as [? Hx]. split; [done|]. intros x. unfold held_of. simpl.
    destruct (decide (c = pp_command_id p)) as [->|Hne]; [by apply Hx in Hd|].
    rewrite lookup_insert_ne by done. apply Hx.
  - intros c x Hc. unfold held_of. simpl. rewrite lookup_insert_ne by (by intros <-). by apply H5.
  - intros x [->|Hx]%elem_of_cons.
    + eexists. split; [apply lookup_insert_eq|]. by split.
    + eapply live_ok_other; [done| |done|done]. intros c Hc. by apply lookup_insert_ne.
Qed.

(** The send itself. *)
Lemma send_text used h log p r :
  log_ok used h log → current_text (pp_command_id p) log = Some (pp_prompt p) →
  ∀ k cid m t r', (log ++ [LSend (pp_command_id p) (pp_mode p) (pp_prompt p) r]) !! k
    = Some (LSend cid m t r') →
    current_text cid (take k (log ++ [LSend (pp_command_id p) (pp_mode p) (pp_prompt p) r])) = Some t.
Proof. intros [_ _ _ _ _ H] Ht. apply text_snoc; [done|]. by intros cid m t r' [= <- <- <- <-]. Qed.
Lemma withdrawn_snoc log e c :
  (∀ cid, e ≠ LWithdrawn cid) → LWithdrawn c ∈ log ++ [e] → LWithdrawn c ∈ log.
Proof. intros He [?|Hc%list_elem_of_singleton]%elem_of_app; [done|]. by destruct (He c). Qed.

Lemma refused_send_flight used p q r w :
  written_result r = false → in_flight used p q w →
  in_flight used p q (add_log (LSend (pp_command_id p) (pp_mode p) (pp_prompt p) r) w).
Proof.
  intros Hr (Hl & Hv & Ho & Hd & Ht). set (e := LSend _ _ _ r).
  assert (all_written (wd_log w ++ [e]) = all_written (wd_log w)) as Hw
    by (unfold all_written; rewrite omap_snoc; simpl; by rewrite Hr, app_nil_r).
  assert (all_queued (wd_log w ++ [e]) = all_queued (wd_log w)) as Hq
    by (unfold all_queued; rewrite omap_snoc; by rewrite app_nil_r).
  assert (∀ c, LWithdrawn c ∈ wd_log w ++ [e] → LWithdrawn c ∈ wd_log w) as Hin
    by (intros c; by apply withdrawn_snoc).
  unfold in_flight. simpl. rewrite current_text_snoc. split_and!; [|..|done|done].
  - pose proof (send_text _ _ _ p r Hl Ht). destruct Hl as [H1 H2 H3 H4 H5 H6].
    split; rewrite ?Hw, ?Hq; eauto.
  - intros x Hx. destruct (Hv x Hx) as (y & ?). exists y. by rewrite current_text_snoc.
  - destruct Ho as [O1 O2 O3 O4]. split; rewrite ?Hw, ?Hq; [done..| |done]. intros b.
    unfold written, queued. rewrite !omap_snoc. simpl. rewrite Hr, andb_false_r. simpl.
    rewrite !app_nil_r. apply O3.
Qed.

Lemma written_send_inv used p q r w :
  written_result r = true → in_flight used p q w →
  queue_inv used q (add_log (LSend (pp_command_id p) (pp_mode p) (pp_prompt p) r) w).
Proof.
  intros Hr (Hl & Hv & Ho & (rev & Hd) & Ht). set (e := LSend _ _ _ r).
  assert (all_written (wd_log w ++ [e]) = all_written (wd_log w) ++ [pp_command_id p]) as Hw
    by (unfold all_written; rewrite omap_snoc; simpl; by rewrite Hr).
  assert (all_queued (wd_log w ++ [e]) = all_queued (wd_log w)) as Hq
    by (unfold all_queued; rewrite omap_snoc; by rewrite app_nil_r).
  assert (∀ c, LWithdrawn c ∈ wd_log w ++ [e] → LWithdrawn c ∈ wd_log w) as Hin
    by (intros c; by apply withdrawn_snoc).
  split_and!; simpl.
  - pose proof (send_text _ _ _ p r Hl Ht). destruct Hl as [H1 H2 H3 H4 H5 H6].
    split; rewrite ?Hw, ?Hq; [done|done|by eauto| | |done].
    + intros c Hc%Hin. destruct (H4 c Hc) as [Hn Hx]. split; [|done].
      intros [?| ->%list_elem_of_singleton]%elem_of_app; [done|]. by apply Hx in Hd.
    + intros c x [Hc| ->%list_elem_of_singleton]%elem_of_app; [by apply H5|].
      intros Hx. unfold held_of in *. simpl in *. rewrite Hd in Hx. by simplify_eq.
  - intros x Hx. destruct (Hv x Hx) as (y & ?). exists y. by rewrite current_text_snoc.
  - pose proof Ho as [O1 O2 O3 O4]. split; rewrite ?Hw, ?Hq; [| | |by eapply steers_first_tail].
    + by rewrite <-app_assoc.
    + intros c [Hc| ->%list_elem_of_singleton]%elem_of_app; [by apply O2|].
      pose proof (O3 (is_steer p)) as Hs. unfold waiting, retain in Hs. cbn [List.filter] in Hs.
      rewrite eqb_reflx in Hs.
      assert (pp_command_id p ∈ queued (is_steer p) (wd_log w)) as Hm.
      { eapply sublist_elem; [done|]. apply elem_of_app. right. by left. }
      unfold queued, all_queued in *. apply list_elem_of_omap in Hm as (x & Hx & Hm).
      apply list_elem_of_omap. exists x. split; [done|]. destruct x; try done. simpl in *.
      by destruct (eqb _ _).
    + intros b. specialize (O3 b). unfold waiting, retain in *. cbn [List.filter] in O3.
      unfold written, queued in *. rewrite !omap_snoc. simpl. rewrite Hr, andb_true_r, app_nil_r.
      change (steer_mode (pp_mode p)) with (is_steer p). destruct (eqb (is_steer p) b); simpl.
      * by rewrite <-app_assoc.
      * by rewrite app_nil_r.
Qed.

(** *** A prompt enters the queue *)

Definition place (item : PendingPrompt) (q : list PendingPrompt) : list PendingPrompt :=
  if decide (pp_mode item = Steer) then insert_at (steer_slot q) item q else q ++ [item].

Lemma steer_slot_split s o :
  Forall (λ p, is_steer p = true) s → Forall (λ p, is_steer p = false) o →
  steer_slot (s ++ o) = length s.
Proof.
  intros Hs Ho. unfold steer_slot. induction Hs as [|p s Hp Hs IH]; simpl.
  - destruct Ho as [|p o Hp Ho]; simpl; [done|]. by rewrite Hp.
  - rewrite Hp. simpl. destruct (position _ (s ++ o)); simpl in *; congruence.
Qed.
Lemma pending_app b q q' : waiting b (q ++ q') = waiting b q ++ waiting b q'.
Proof. unfold waiting, ids, retain. by rewrite List.filter_app, fmap_app. Qed.
Lemma waiting_all v b q : Forall (λ p, is_steer p = v) q → waiting b q = if eqb v b then ids q else [].
Proof.
  unfold waiting, ids, retain. induction 1 as [|p q Hp Hq IH]; simpl; [by destruct (eqb v b)|].
  rewrite Hp. destruct (eqb v b); [|done]. rewrite !fmap_cons. by f_equal.
Qed.

Lemma place_split item q :
  steers_first q →
  ∃ d r, q = d ++ r ∧ place item q = d ++ item :: r ∧ steers_first (place item q) ∧
    ∀ b, waiting b (place item q)
         = waiting b q ++ (if eqb (is_steer item) b then [pp_command_id item] else []).
Proof.
  intros (s & o & -> & Hs & Ho). unfold place. destruct (decide (pp_mode item = Steer)) as [Hm|Hm].
  - assert (is_steer item = true) as Hi by (unfold is_steer; by rewrite Hm).
    rewrite (steer_slot_split s o) by done. unfold insert_at. rewrite take_app_length, drop_app_length.
    exists s, o. split_and!; [done..| |].
    + exists (s ++ [item]), o. rewrite <-app_assoc. split_and!; [done| |done].
      apply Forall_app. split; [done|by constructor].
    + intros b. replace (s ++ item :: o) with ((s ++ [item]) ++ o) by (by rewrite <-app_assoc).
      rewrite !pending_app, (waiting_all false b o), (waiting_all true b [item]) by (done || by constructor).
      rewrite Hi. destruct b; simpl; by rewrite ?app_nil_r.
  - assert (is_steer item = false) as Hi by (unfold is_steer; by rewrite bool_decide_false).
    exists (s ++ o), []. rewrite app_nil_r. split_and!; [done..| |].
    + exists s, (o ++ [item]). rewrite <-app_assoc. split_and!; [done..|].
      apply Forall_app. split; [done|by constructor].
    + intros b. rewrite pending_app, (waiting_all false b [item]) by (by constructor). by rewrite Hi.
Qed.

Lemma place_order log cid t item q :
  pp_command_id item = cid → cid ∉ all_written log → cid ∉ ids q → order_ok log q →
  order_ok (log ++ [LQueued cid (pp_mode item) t]) (place item q).
Proof.
  intros Hi Hw Hn [O1 O2 O3 O4]. destruct (place_split item q O4) as (d & r & Hq & Hp & Hs & Hb).
  assert (all_written (log ++ [LQueued cid (pp_mode item) t]) = all_written log) as Haw
    by (unfold all_written; rewrite omap_snoc; by rewrite app_nil_r).
  split; [| | |done].
  - rewrite Haw, Hp, ids_middle, Hi. rewrite Hq in O1, Hn. unfold ids in *. rewrite fmap_app in O1, Hn.
    rewrite <-Permutation_middle, Permutation_app_comm. simpl. apply list.NoDup_cons.
    rewrite Permutation_app_comm. split; [|done]. set_solver.
  - rewrite Haw. unfold all_queued. rewrite omap_snoc. intros c Hc. apply elem_of_app. left. by apply O2.
  - intros b. rewrite Hb. unfold written, queued in *. rewrite !omap_snoc. simpl. rewrite app_nil_r, Hi.
    change (steer_mode (pp_mode item)) with (is_steer item). rewrite app_assoc.
    apply sublist_app; [apply O3|]. by destruct (eqb _ _).
Qed.

Lemma queue_inv_ids used q w cid : queue_inv used q w → cid ∈ ids q → cid ∈ used.
Proof.
  intros (Hl & Hv & _) Hc. apply list_elem_of_fmap in Hc as (p & -> & Hp).
  destruct (Hv p Hp) as (e & He & _). eapply lk_held; eauto.
Qed.
Lemma hold_triple used cid m t item q :
  cid ∉ used → pp_command_id item = cid → pp_mode item = m → pp_prompt item = t →
  triple (cid :: used) (queue_inv used q) (hold_prompt cid m t)
    (λ _, queue_inv (cid :: used) (place item q)).
Proof.
  intros Hf Hi Hm Ht w H%(interfere_stable _ _ (queue_inv_stable used q)). unfold hold_prompt, atomic.
  simpl. set (v := interfere w) in *.
  assert (cid ∉ ids q) as Hn by (intros Hc; by eapply queue_inv_ids in Hc).
  destruct H as ([H1 H2 H3 H4 H5 H6] & Hv & Ho).
  assert (cid ∉ all_written (wd_log v)) as Hw by (intros Hc; by eapply Hf, H1, ok_written).
  destruct (place_split item q (ok_steers _ _ Ho)) as (d & r & Hq & Hp & _ & _).
  assert (∀ c, LWithdrawn c ∈ wd_log v ++ [LQueued cid m t] → LWithdrawn c ∈ wd_log v) as Hin
    by (intros c; by apply withdrawn_snoc).
  assert (all_written (wd_log v ++ [LQueued cid m t]) = all_written (wd_log v)) as Haw
    by (unfold all_written; rewrite omap_snoc; by rewrite app_nil_r).
  unfold queue_inv, held_of. simpl. split_and!.
  - split; rewrite ?Haw.
    + unfold all_queued. rewrite omap_snoc. intros c [Hc|Hc]%elem_of_app; [right; by apply H1|].
      apply list_elem_of_singleton in Hc as ->. by left.
    + intros c. unfold hold. destruct (decide (c = cid)) as [->|Hne]; [by left|].
      rewrite lookup_insert_ne by done. intros Hc. right. by apply H2.
    + intros c Hc%Hin. right. by apply H3.
    + intros c Hc%Hin. destruct (H4 c Hc) as [? Hx]. split; [done|]. unfold hold. intros e.
      rewrite lookup_insert_ne; [apply Hx|]. intros <-. by apply Hf, H3.
    + intros c e Hc. unfold hold. rewrite lookup_insert_ne by (by intros <-). by apply H5.
    + by apply text_snoc.
  - rewrite Hp. assert (live_ok (hold cid (held_of v)) (wd_log v ++ [LQueued cid m t]) q) as Hv'.
    { intros x Hx. destruct (Hv x Hx) as (e & He & Hs & Hc).
      assert (pp_command_id x ≠ cid) as Hne.
      { intros Heq. apply Hn. rewrite <-Heq. by apply list_elem_of_fmap_2. }
      exists e. unfold hold. rewrite lookup_insert_ne by done. split_and!; [done..|].
      rewrite current_text_snoc. simpl. by rewrite decide_False. }
    intros x Hx. rewrite Hq in Hv'. apply elem_of_app in Hx as [Hx|[->|Hx]%elem_of_cons];
      [apply Hv'; set_solver| |apply Hv'; set_solver].
    unfold live_prompt. rewrite Hi. eexists. unfold hold. rewrite lookup_insert_eq. split_and!; [done..|].
    rewrite current_text_snoc. simpl. rewrite decide_True by done. by rewrite Ht.
  - rewrite <-Hm. by apply place_order.
Qed.

(** *** The functions of the worker *)

(** Step over the accesses that do not concern the invariant. *)
Ltac quiet :=
  repeat (eapply triple_bind; [apply triple_quiet; solve [eauto with remuda]|]; intros ?).

Section Triples.
Context (i : InstanceId) (kind : DriverKind).

Lemma update_message_returns now s p w w' x :
  update_message i now s p w = (w', Ok x) → x = with_message (replace_status s (pp_message p)) p.
Proof.
  unfold update_message. intros H. apply st_bind_ok in H as (w1 & o & _ & H). by injection H as <- <-.
Qed.
Lemma apply_edit_key now t p w w' x :
  apply_edit i now t p w = (w', Ok x) → key x = key (edited t p).
Proof.
  unfold apply_edit. intros H. apply st_bind_ok in H as (w1 & o & _ & H).
  by apply update_message_returns in H as ->.
Qed.

Lemma apply_edit_triple used d t p q now :
  triple used (queue_inv used (d ++ edited t p :: q)) (apply_edit i now t p)
    (λ p' w, queue_inv used (d ++ p' :: q) w).
Proof.
  eapply triple_post; [apply (triple_framed used _ (λ x, key x = key (edited t p)))|];
    eauto using apply_edit_key, queue_inv_nil with remuda.
  simpl. intros x w [H Hk]. eapply queue_inv_key; [|done]. rewrite !fmap_app. csimpl. by rewrite Hk.
Qed.

Lemma apply_held_changes_triple used now q d :
  triple used (queue_inv used (d ++ q)) (apply_held_changes i now q)
    (λ q' w, queue_inv used (d ++ q') w).
Proof.
  revert d. induction q as [|p q IH]; intros d; simpl; [by apply triple_ret|].
  eapply triple_bind; [apply change_triple|]. simpl. intros [[|t]|].
  - eapply triple_bind; [apply triple_quiet; eauto with remuda|]. intros ?. apply IH.
  - eapply triple_bind; [apply apply_edit_triple|]. simpl. intros p'.
    eapply triple_bind; [eapply triple_pre; [|apply (IH (d ++ [p']))]|].
    { intros w. by rewrite <-app_assoc. }
    simpl. intros q'. apply triple_ret. intros w. by rewrite <-app_assoc.
  - eapply triple_bind; [eapply triple_pre; [|apply (IH (d ++ [p]))]|].
    { intros w. by rewrite <-app_assoc. }
    simpl. intros q'. apply triple_ret. intros w. by rewrite <-app_assoc.
Qed.

(** The head leaves the queue without having been claimed. *)
Lemma drop_triple used p q :
  triple used (queue_inv used (p :: q)) (on_held_ (HeldInput.release (pp_command_id p)))
    (λ _, queue_inv used q).
Proof.
  intros w H. eapply (release_triple used); [|by eapply queue_inv_tail].
  destruct H as (_ & _ & Ho). by apply order_ok_fresh in Ho as [_ ?].
Qed.

Lemma interrupt_triple used now r q :
  triple used (queue_inv used q) (interrupt_pending i now r q) (λ _, queue_inv used []).
Proof.
  induction q as [|p q IH]; simpl; [by apply triple_ret|].
  eapply triple_bind; [apply drop_triple|]. intros ?.
  quiet. apply IH.
Qed.

(** What an attempt leaves behind. *)
Definition attempt_post (used : list string) (p : PendingPrompt) (q : list PendingPrompt)
    (r : bool + PendingPrompt * result (list (string * DriverEmission * result unit NodeError)) DriverError)
    (w : World) : Prop :=
  match r with
  | inl true => queue_inv used q w
  | inl false => queue_inv used (p :: q) w
  | inr (p', Err ControlUnavailable) =>
      in_flight used p' q w ∧ pp_command_id p' = pp_command_id p
  | inr (p', _) => queue_inv used q w
  end.
Lemma claimed_send_triple used a p q :
  triple used (queue_inv used (p :: q)) (claimed_send i a p) (attempt_post used p q).
Proof.
  unfold claimed_send. eapply triple_bind; [apply claim_triple|]. simpl. intros [t|].
  2:{ eapply triple_bind; [apply triple_quiet; eauto with remuda|]. intros ?. by apply triple_ret. }
  eapply (triple_bind _ _ _ _ (λ p' w, in_flight used p' q w ∧ pp_command_id p' = pp_command_id p)).
  { destruct t as [t|]; [|by apply triple_ret].
    eapply triple_post; [apply (triple_framed used _ (λ x, key x = key (edited t p)))|];
      eauto using apply_edit_key, queue_inv_nil, in_flight_inv with remuda.
    simpl. intros x w [H Hk]. split; [by eapply in_flight_key|]. by injection Hk as ->. }
  intros p'. simpl. intros w [H Hp]. revert w H. rewrite <-Hp.
  change (triple used (in_flight used p' q)
    (verdict ← on_node (NodeFence.claim (an_now a) (pp_command_id p'));
     match verdict with
     | ClaimFenced =>
         _ ← on_held_ (HeldInput.release (pp_command_id p'));
         _ ← update_message i (an_now a) StatusInterrupted p';
         _ ← on_prompts (Correlator.cancel (pp_command_id p'));
         mret (inl true)
     | Deliver =>
         _ ← on_ledger (set_instance_state (an_now a) i None (Some (Known Working)));
         _ ← say (LSend (pp_command_id p') (pp_mode p') (pp_prompt p') (sent_result (an_exec a)));
         mret (inr (p', an_exec a))
     end) (attempt_post used p q)).
  eapply triple_bind; [apply triple_flight, fence_claim_framed|]. intros [].
  - eapply triple_bind; [apply triple_flight; eauto with remuda|]. intros ? w H.
    rewrite st_bind_eq. simpl. destruct (an_exec a) as [es|[]]; simpl;
      try (apply written_send_inv; done). by split; [apply refused_send_flight|].
  - eapply (triple_bind _ _ _ _ (λ _, queue_inv used q)).
    { intros w H. eapply (release_triple used); [|by eapply in_flight_inv].
      destruct H as (_ & _ & Ho & _). by apply order_ok_fresh in Ho as [_ ?]. }
    intros ?. quiet.
    by apply triple_ret.
Qed.

Lemma deliver_triple used a p q :
  triple used (queue_inv used (p :: q)) (deliver i a p)
    (λ r w, match r with None => queue_inv used q w | Some p' => queue_inv used (p' :: q) w end).
Proof.
  unfold deliver. destruct (an_attach a) as [landed|e].
  2:{ eapply triple_bind; [apply drop_triple|]. intros ?.
      quiet.
      by apply triple_ret. }
  assert (∀ c, pp_command_id p ∉ ids q →
    triple used (queue_inv used q) (finish i a (pp_command_id p) c) (λ _, queue_inv used q)) as Hfin.
  { intros c Hn. unfold finish. eapply triple_bind; [by apply release_triple|]. intros ?.
    apply triple_quiet. case_decide; eauto with remuda. }
  intros w H. assert (pp_command_id p ∉ ids q) as Hn.
  { destruct H as (_ & _ & Ho). by apply order_ok_fresh in Ho as [_ ?]. }
  revert w H. eapply (triple_bind _ _ _ _ (attempt_post used p q)).
  { unfold attempt. destruct (an_probe a) as [|[]|]; [| | | |apply claimed_send_triple];
      apply triple_ret; simpl; eauto using queue_inv_tail. }
  intros [[]|[p' [es|[]]]]; simpl.
  - by apply triple_ret.
  - by apply triple_ret.
  - quiet.
    eapply triple_bind; [by apply Hfin|]. intros ?. by apply triple_ret.
  - intros w [H Hp]. revert w H.
    eapply triple_bind; [apply triple_flight; eauto with remuda|]. intros c.
    rewrite <-Hp. eapply triple_bind; [apply unclaim_triple|]. intros ?.
    eapply triple_bind; [apply triple_quiet; eauto with remuda|]. intros ?. by apply triple_ret.
  - quiet.
    eapply triple_bind; [by apply Hfin|]. intros ?. by apply triple_ret.
  - quiet.
    eapply triple_bind; [by apply Hfin|]. intros ?. by apply triple_ret.
Qed.

Lemma deliver_front_triple used a l p q :
  triple used (queue_inv used (p :: q)) (deliver_front i a l p q)
    (λ l' w, queue_inv used (pending l') w).
Proof.
  unfold deliver_front. eapply triple_bind; [apply deliver_triple|]. simpl. intros [p'|].
  { by apply triple_ret. }
  destruct (head q) as [next|]; [|by apply triple_ret].
  eapply triple_bind; [apply triple_quiet; case_match; eauto with remuda|]. intros [|].
  - quiet. by apply triple_ret.
  - by apply triple_ret.
Qed.

Lemma tick_triple used a l :
  triple used (queue_inv used (pending l)) (tick i a l) (λ l' w, queue_inv used (pending l') w).
Proof.
  unfold tick. eapply triple_bind; [apply (apply_held_changes_triple used (an_now a) (pending l) [])|].
  simpl. intros [|p q]; [quiet; by apply triple_ret|]. quiet. case_decide.
  - eapply triple_bind; [apply interrupt_triple|]. intros ?. by apply triple_ret.
  - quiet. case_match; [by apply triple_ret|]. apply deliver_front_triple.
Qed.

Lemma recv_send_triple used a cap l cid t refs o m :
  cid ∉ used →
  triple (cid :: used) (queue_inv used (pending l)) (recv_send i a cap l cid t refs o m)
    (λ l' w, queue_inv (cid :: used) (pending l') w).
Proof.
  intros Hf. unfold recv_send. case_decide.
  { apply (triple_pre _ _ (queue_inv (cid :: used) (pending l))); [intros w; apply queue_inv_used|].
    unfold reject_queued. quiet.
    by apply triple_ret. }
  eapply (triple_bind _ _ _ _ (λ _, queue_inv used (pending l))).
  { eapply triple_post; [eapply (triple_framed _ (queue_inv used (pending l)) (λ _, True))|];
      eauto using queue_inv_nil, queue_inv_used with remuda. by intros ? ? []. }
  intros was_working. eapply triple_bind.
  { by apply (hold_triple used cid m t
      (mkPending cid t refs o m (queued_message (an_fresh a) cid t o m))). }
  intros ?. eapply (triple_bind _ _ _ _ (λ item w, queue_inv (cid :: used) (place item (pending l)) w
    ∧ pp_mode item = m)).
  { eapply triple_post; [eapply (triple_framed _ _
      (λ x, x = mkPending cid t refs o m (queued_message (an_fresh a) cid t o m)))|];
      eauto using queue_inv_nil with remuda.
    - unfold enqueue. intros w w' y H1. apply st_bind_ok in H1 as (w1 & ? & _ & H1).
      apply st_bind_ok in H1 as (w2 & ? & _ & H1). by injection H1 as <- <-.
    - by simpl; intros y w [H1 ->]. }
  intros item w [H1 Hm]. revert w H1. eapply (triple_bind _ _ _ _ (λ l' w,
    queue_inv (cid :: used) (pending l') w)).
  { unfold place. rewrite Hm. case_decide; [|by apply triple_ret]. quiet.
    case_match; [|case_match; by apply triple_ret].
    eapply triple_bind; [apply triple_quiet; case_match; eauto with remuda|]. intros ?.
    by apply triple_ret. }
  intros l'. quiet. by apply triple_ret.
Qed.

Lemma recv_control_triple used a rest l q :
  triple used (queue_inv used (pending l)) (recv_control i kind a rest l q)
    (λ o w, match o with
            | Some l' => queue_inv used (pending l') w
            | None => queue_inv used [] w
            end).
Proof.
  unfold recv_control. eapply (triple_bind _ _ _ _ (λ l' w, queue_inv used (pending l') w)).
  { destruct (q_request q); try by apply triple_ret.
    all: eapply triple_bind; [apply interrupt_triple|]; intros ?; by apply triple_ret. }
  intros l'. quiet. eapply triple_bind.
  { apply triple_quiet. case_match; [|eauto with remuda]. frame. }
  intros [|]; quiet.
  - apply triple_ret. intros w. apply queue_inv_nil.
  - eapply triple_bind; [apply triple_quiet; case_decide; eauto with remuda|]. intros ?.
    by apply triple_ret.
Qed.

(** *** The loop *)

Definition run_post (used : list string) (o : option Local) (w : World) : Prop :=
  queue_inv used (match o with Some l => pending l | None => [] end) w.
Definition step_ids (ev : loop_event) : list string :=
  match ev with RecvSend cid _ _ _ _ => [cid] | _ => [] end.
Lemma loop_step_triple used cap a ev l :
  (∀ cid, cid ∈ step_ids ev → cid ∉ used) →
  triple (step_ids ev ++ used) (queue_inv used (pending l)) (loop_step i kind cap a ev l)
    (run_post (step_ids ev ++ used)).
Proof.
  intros Hf. destruct ev as [cid t refs o m|q rest| |]; simpl.
  - eapply triple_bind; [apply recv_send_triple, Hf; by left|]. intros l'. by apply triple_ret.
  - eapply triple_post; [apply recv_control_triple|]. by intros [].
  - eapply triple_bind; [apply interrupt_triple|]. intros ? w H. exact H.
  - case_decide; [by apply triple_ret|]. eapply triple_bind; [apply tick_triple|].
    intros l'. by apply triple_ret.
Qed.
End Triples.

(** The queue a run leaves, empty when the worker ended. *)
Definition left_pending (r : result (option Local) NodeError) : list PendingPrompt :=
  match r with Ok (Some l) => pending l | _ => [] end.
(** A worker starts with nothing logged and nothing held. *)
Definition fresh_world (w : World) : Prop := wd_log w = [] ∧ held_of w = ∅.

Lemma run_loop_inv i kind cap evs used l w :
  queue_inv used (pending l) w → NoDup (event_ids evs) → (∀ c, c ∈ event_ids evs → c ∉ used) →
  ∃ used', queue_inv used' (left_pending (run_loop i kind cap evs l w).2)
             (run_loop i kind cap evs l w).1.
Proof.
  revert used l w. induction evs as [|[a ev] evs IH]; intros used l w H Hd Hf; simpl; [by exists used|].
  assert (event_ids ((a, ev) :: evs) = step_ids ev ++ event_ids evs) as He by (by destruct ev).
  rewrite He in Hd, Hf. apply list.NoDup_app in Hd as (_ & Hd1 & Hd2).
  assert (∀ c, c ∈ step_ids ev → c ∉ used) as Hs by set_solver.
  pose proof (loop_step_triple i kind used cap a ev l Hs w H) as Hstep. rewrite st_bind_eq.
  destruct (loop_step i kind cap a ev l w) as [w1 [[l'|]|e]]; simpl; [|by eexists..].
  eapply IH; [exact Hstep|done|]. intros c Hc. specialize (Hf c). set_solver.
Qed.
Lemma fresh_inv w : fresh_world w → queue_inv [] [] w.
Proof.
  intros [Hl Hh]. unfold queue_inv. rewrite Hl, Hh. split_and!.
  - split; simpl; try set_solver; intros c; rewrite lookup_empty; by intros [].
  - intros p Hp. by apply not_elem_of_nil in Hp.
  - split; simpl; [by constructor|set_solver|done|by exists [], []].
Qed.
Lemma start_triple i a c prompt :
  triple [command_id c] (queue_inv [] []) (start_create i a c prompt)
    (λ l w, queue_inv [command_id c] (pending l) w).
Proof.
  unfold start_create. eapply (triple_bind _ _ _ _ (λ q w, queue_inv [command_id c] q w)).
  - case_decide; [apply triple_ret, (queue_inv_used [])|].
    eapply triple_bind.
    { apply (hold_triple [] (command_id c) NewTurn prompt
        (mkPending (command_id c) prompt [] (input_origin (cmd_origin c)) NewTurn
           (queued_message (an_fresh a) (command_id c) prompt (input_origin (cmd_origin c)) NewTurn)) []);
        [set_solver|done..]. }
    intros ?. eapply (triple_bind _ _ _ _ (λ item w, queue_inv [command_id c] [item] w));
      [|intros item; by apply triple_ret].
    eapply triple_post; [eapply (triple_framed _ _ (λ y, y = mkPending (command_id c) prompt []
      (input_origin (cmd_origin c)) NewTurn (queued_message (an_fresh a) (command_id c) prompt
        (input_origin (cmd_origin c)) NewTurn)))|]; eauto using queue_inv_nil with remuda.
    + unfold enqueue. intros w w' y H1. apply st_bind_ok in H1 as (w1 & ? & _ & H1).
      apply st_bind_ok in H1 as (w2 & ? & _ & H1). by injection H1 as <- <-.
    + by simpl; intros y w [H1 ->].
  - intros q. quiet. by apply triple_ret.
Qed.

Lemma run_inv i kind cap create evs w :
  fresh_world w → NoDup (create_ids create ++ event_ids evs) →
  ∃ used, queue_inv used (left_pending (run i kind cap create evs w).2)
            (run i kind cap create evs w).1.
Proof.
  intros Hw%fresh_inv Hd. unfold run. rewrite st_bind_eq. destruct create as [[[a c] prompt]|]; simpl in *.
  - apply list.NoDup_cons in Hd as [Hn Hd]. pose proof (start_triple i a c prompt w Hw) as Hs.
    destruct (start_create i a c prompt w) as [w1 [l|e]]; simpl; [|by eexists].
    eapply run_loop_inv; [exact Hs|done|]. set_solver.
  - eapply run_loop_inv; [exact Hw|done|]. set_solver.
Qed.

(** ** What the queue promises *)

(** C5. A withdrawn prompt is never written: whatever prompts, ticks, control
    operations, driver answers and interleaved tasks a worker sees, once the Hub
    was told [withdrawn] for a command, no bytes of it are written, before or
    after: a send of it in the log can only be one that failed with
    [ControlUnavailable], with which the driver says it wrote nothing. *)
Theorem withdrawn_prompt_is_never_written i kind cap create evs w :
  fresh_world w → NoDup (create_ids create ++ event_ids evs) →
  let log := wd_log (run i kind cap create evs w).1 in
  ∀ cid m t r, LWithdrawn cid ∈ log → LSend cid m t r ∈ log → r = Err ControlUnavailable.
Proof.
  intros Hw Hd log cid m t r Hc Hs. destruct (run_inv i kind cap create evs w Hw Hd) as (used & Hl & _).
  destruct (lk_withdrawn _ _ _ Hl cid Hc) as [Hn _].
  destruct (written_result r) eqn:Hr; [|by destruct r as [|[]]].
  destruct Hn. unfold all_written. apply list_elem_of_omap. exists (LSend cid m t r).
  split; [done|]. simpl. by rewrite Hr.
Qed.

(** C6. What is written is the current text: every send carries the text the
    prompt was queued with or, if an edit of it had been accepted by then, the
    last accepted edit. *)
Theorem prompt_is_written_as_last_edited i kind cap create evs w :
  fresh_world w → NoDup (create_ids create ++ event_ids evs) →
  let log := wd_log (run i kind cap create evs w).1 in
  ∀ k cid m t r, log !! k = Some (LSend cid m t r) → current_text cid (take k log) = Some t.
Proof.
  intros Hw Hd log. destruct (run_inv i kind cap create evs w Hw Hd) as (used & Hl & _).
  apply (lk_text _ _ _ Hl).
Qed.

(** C8. Each prompt is written at most once, and in the promised order: the
    written steers, then the steers still waiting, are a subsequence of the
    steers in the order they arrived, and the same for ordinary prompts; in the
    queue every steer is ahead of every ordinary prompt. *)
Theorem prompts_are_written_once_and_in_order i kind cap create evs w :
  fresh_world w → NoDup (create_ids create ++ event_ids evs) →
  let '(w', r) := run i kind cap create evs w in
  let q := left_pending r in
  NoDup (all_written (wd_log w') ++ ids q) ∧ steers_first q ∧
  ∀ steer, (written steer (wd_log w') ++ waiting steer q) `sublist_of` queued steer (wd_log w').
Proof.
  intros Hw Hd. destruct (run_inv i kind cap create evs w Hw Hd) as (used & _ & _ & [O1 O2 O3 O4]).
  by destruct (run i kind cap create evs w) as [w' r].
Qed.

(** *** Revisions of the queued message *)

(** A live instance takes the next revision. *)
Lemma update_message_total i now s p w :
  is_Some (instances (n_store (wd_node (interfere w))) !! i) →
  ∃ w', update_message i now s p w
        = (w', Ok (with_message (replace_status s (pp_message p)) p)).
Proof.
  intros [r Hr]. unfold update_message. rewrite st_bind_eq.
  unfold on_ledger, on_node, atomic, st_zoom, on_store, st_zoom, append_observation.
  rewrite st_bind_eq, get_record_eq, Hr. simpl. by eexists.
Qed.

(** The joined transcript record follows the completed row of a prompt that
    was not edited, but repeats the revision of the completed row of a prompt
    that was edited once: the constant [JOINED_REVISION] counts on the two
    revisions of an unedited prompt. *)
Theorem edit_makes_the_joined_revision_stale i a cid t refs o m now t' x mt w1 w2 w3 w4 w5 w6 w7 w8
    (p p1 p2 p3 : PendingPrompt) :
  enqueue i a cid t refs o m w1 = (w2, Ok p) →
  update_message i now StatusComplete p w3 = (w4, Ok p1) →
  apply_edit i now t' p w5 = (w6, Ok p2) →
  update_message i now StatusComplete p2 w7 = (w8, Ok p3) →
  let joined := mutation (join_queued_node x mt) in
  (mut_revision joined = mut_revision (mutation (pp_message p1)) + 1 ∧
   base_revision joined = Some (mut_revision (mutation (pp_message p1)))) ∧
  mut_revision joined = mut_revision (mutation (pp_message p3)).
Proof.
  intros Hq Hu He Hc. unfold enqueue in Hq. apply st_bind_ok in Hq as (? & ? & _ & Hq).
  apply st_bind_ok in Hq as (? & ? & _ & Hq). injection Hq as _ <-.
  apply update_message_returns in Hu as ->.
  unfold apply_edit in He. apply st_bind_ok in He as (? & ? & _ & He).
  apply update_message_returns in He as ->. apply update_message_returns in Hc as ->.
  by vm_compute.
Qed.

(** ** A concrete worker

    Three commands of one instance: [cmd_1] and [cmd_2] are ordinary prompts,
    [cmd_3] a steer.  While the first tick runs, the Hub withdraws [cmd_2] and
    edits [cmd_1]. *)
Definition w_send (cid : string) : Command :=
  mkCommand cid OriginUi None InstanceSend (Some "inst_1"%string) ("sha256:" ++ cid)%string
    Accepted IntentDurable ResClear (Known NativeInput) (Unknown "not-settled") (Known "t1"%string)
    (Unknown "not-settled") 2 "t1".
Definition w_queue_store : MemoryState :=
  store_run [SInsertInstance w_instance; SInsertCommand "inst_1" (w_send "cmd_1");
             SInsertCommand "inst_1" (w_send "cmd_2"); SInsertCommand "inst_1" (w_send "cmd_3")]
    empty_store.
Definition w_schedule : list (list env_op) :=
  replicate 17 [] ++ [[EWithdraw "cmd_2"; EEdit "cmd_1" 0 (lit "hello")]].
Definition w_world : World := mkWorld (mkNode w_queue_store fresh_fences) [] [] w_schedule.
Definition w_answers : Answers :=
  mkAnswers "t2" 1000 "obj_1" false (Ok []) ProbeReady EscOk (Ok []) (Ok tt) false.
Definition w_events : list (Answers * loop_event) :=
  [(w_answers, RecvSend "cmd_1" (lit "one") [] InHuman NewTurn);
   (w_answers, RecvSend "cmd_2" (lit "two") [] InHuman NewTurn);
   (w_answers, RecvSend "cmd_3" (lit "three") [] InHuman Steer);
   (w_answers, Tick); (w_answers, Tick)].
Definition w_ran : World * result (option Local) NodeError :=
  run "inst_1" ClaudePty 8 None w_events w_world.

Lemma w_world_fresh : fresh_world w_world.
Proof. split; vm_compute; reflexivity. Qed.
Lemma w_events_distinct : NoDup (create_ids None ++ event_ids w_events).
Proof. simpl. repeat constructor; set_solver. Qed.

Lemma withdrawn_prompt_witness :
  LWithdrawn "cmd_2" ∈ wd_log w_ran.1 ∧
  ∀ m t r, LSend "cmd_2" m t r ∈ wd_log w_ran.1 → r = Err ControlUnavailable.
Proof.
  assert (LWithdrawn "cmd_2" ∈ wd_log w_ran.1) as H.
  { apply (list_elem_of_lookup_2 _ 3). vm_compute. reflexivity. }
  split; [exact H|]. intros m t r.
  exact (withdrawn_prompt_is_never_written "inst_1" ClaudePty 8 None w_events w_world
    w_world_fresh w_events_distinct "cmd_2" m t r H).
Defined.

Lemma last_edited_witness :
  current_text "cmd_1" (take 6 (wd_log w_ran.1)) = Some (lit "hello").
Proof.
  apply (prompt_is_written_as_last_edited "inst_1" ClaudePty 8 None w_events w_world
    w_world_fresh w_events_distinct 6 "cmd_1" NewTurn (lit "hello") (Ok tt)).
  vm_compute. reflexivity.
Defined.

Lemma in_order_witness :
  NoDup (all_written (wd_log w_ran.1) ++ ids (left_pending w_ran.2)) ∧
  all_written (wd_log w_ran.1) = ["cmd_3"; "cmd_1"]%string.
Proof.
  pose proof (prompts_are_written_once_and_in_order "inst_1" ClaudePty 8 None w_events w_world
    w_world_fresh w_events_distinct) as H.
  split; [|vm_compute; reflexivity]. unfold w_ran.
  destruct (run "inst_1" ClaudePty 8 None w_events w_world) as [w r]. exact (proj1 H).
Defined.

Lemma w_instance_live : is_Some (instances (n_store (wd_node (interfere w_world))) !! "inst_1"%string).
Proof. vm_compute. eauto. Qed.
Definition w_prompt : PendingPrompt :=
  mkPending "cmd_1" (lit "one") [] InHuman NewTurn
    (queued_message "obj_1" "cmd_1" (lit "one") InHuman NewTurn).
Lemma stale_revision_witness :
  mut_revision (mutation (join_queued_node (pp_message w_prompt) (mkMatch "cmd_1" "obj_1" None)))
  = mut_revision (mutation (replace_status StatusComplete
      (replace_status StatusQueued (pp_message (edited (lit "new") w_prompt))))).
Proof.
  destruct (update_message_total "inst_1" "t3" StatusComplete w_prompt w_world w_instance_live)
    as [v1 H1].
  destruct (update_message_total "inst_1" "t3" StatusQueued (edited (lit "new") w_prompt)
    w_world w_instance_live) as [v2 H2].
  destruct (update_message_total "inst_1" "t3" StatusComplete
    (with_message (replace_status StatusQueued (pp_message (edited (lit "new") w_prompt)))
       (edited (lit "new") w_prompt)) w_world w_instance_live) as [v3 H3].
  refine (proj2 (edit_makes_the_joined_revision_stale "inst_1" w_answers "cmd_1" (lit "one") []
    InHuman NewTurn "t3" (lit "new") _ _ w_world _ w_world v1 w_world _ w_world v3 w_prompt _ _ _
    eq_refl H1 eq_refl H3)).
Defined.
