(* ===== verification/PtySettle.v ===== *)
(** * No prompt is lost: settlement of the PTY queue

    The second half of the queue's contract ([PtyQueue]): a prompt that entered
    the queue is, after any run of the worker and under every interleaving,
    either still waiting in the queue or settled in the ledger.  The file
    tracks how the commands of the ledger evolve: their target and operation
    never change, and a settled command stays settled, whatever the worker and
    the other tasks do. *)
From stdpp Require Import base list gmap strings numbers.
From S2P Require Import Prelude Json Text HeldInput NodeStore NodeFence Correlator PtyQueue.
Local Open Scope Z_scope.

(** ** How the ledger evolves *)

Definition cmds (w : World) : gmap string Command := commands (n_store (wd_node w)).

(** The machine width of a submitted revision. *)
Definition env_in_range (o : env_op) : Prop :=
  match o with ESubmit _ _ c => is_u64 (cmd_revision c) | _ => True end.
Record sound (w : World) : Prop := {
  sound_wf : node_wf (wd_node w);
  sound_schedule : Forall (Forall env_in_range) (wd_schedule w);
}.

(** One command before and after. *)
Definition succeeds (c c' : Command) : Prop :=
  target_instance c' = target_instance c ∧ operation c' = operation c ∧
  (cmd_state c = Settled → cmd_state c' = Settled).
Definition grows (m m' : gmap string Command) : Prop :=
  ∀ cid c, m !! cid = Some c → ∃ c', m' !! cid = Some c' ∧ succeeds c c'.
Definition evolves (w w' : World) : Prop := sound w → sound w' ∧ grows (cmds w) (cmds w').

Lemma succeeds_refl c : succeeds c c.
Proof. by split_and!. Qed.
Lemma succeeds_trans a b c : succeeds a b → succeeds b c → succeeds a c.
Proof. unfold succeeds. intuition congruence. Qed.
Lemma grows_refl m : grows m m.
Proof. intros cid c Hc. eauto using succeeds_refl. Qed.
Lemma grows_trans a b c : grows a b → grows b c → grows a c.
Proof.
  intros H1 H2 cid x Hx. destruct (H1 cid x Hx) as (y & Hy & ?). destruct (H2 cid y Hy) as (z & Hz & ?).
  eauto using succeeds_trans.
Qed.
Lemma evolves_refl w : evolves w w.
Proof. intros H. split; [done|apply grows_refl]. Qed.
Lemma evolves_trans a b c : evolves a b → evolves b c → evolves a c.
Proof.
  intros H1 H2 Ha. destruct (H1 Ha) as [Hb ?]. destruct (H2 Hb) as [Hc ?].
  eauto using grows_trans.
Qed.
#[global] Instance evolves_preorder : PreOrder evolves.
Proof. split; [intros w; apply evolves_refl|intros a b c; apply evolves_trans]. Qed.

(** Writing a command: a settled copy of the current one. *)
Lemma grows_settled m y c :
  m !! command_id y = Some c → cmd_state y = Settled → target_instance y = target_instance c →
  operation y = operation c → grows m (<[command_id y := y]> m).
Proof.
  intros Hc Hs Ht Ho cid x Hx. destruct (decide (cid = command_id y)) as [->|Hne].
  - exists y. rewrite lookup_insert_eq. simplify_eq. by split_and!.
  - exists x. rewrite lookup_insert_ne by done. eauto using succeeds_refl.
Qed.

(** A step of the Node that does not accept, nor settle from an old copy. *)
Definition from_copy (o : node_op) : bool := match o with NStale _ _ _ _ _ _ => true | _ => false end.
Lemma cmd_step_succeeds cid o x y :
  cmd_step cid o x y → (∀ now i, o ≠ NAccept now i cid) → from_copy o = false → succeeds x y.
Proof.
  destruct 1 as [| | | |now p x|now j oc m ex x|now j c oc m ex x|now i k x]; intros Ho Hcp; try by split_and!.
  - by destruct (Ho now i).
  - unfold fence_effect. destruct (cancellable _ _ _); by split_and!.
  - assert (∀ c, succeeds c (mark_unknown now c)) as Hone
      by (intros c; unfold mark_unknown; case_decide; by split_and!).
    induction k as [|k IH]; simpl; [apply succeeds_refl|]. eauto using succeeds_trans.
Qed.

(** *** The other tasks *)

Lemma node_step_grows o n :
  node_wf n → (∀ now i cid, o = NAccept now i cid → commands (n_store n) !! cid = None) → from_copy o = false →
  grows (commands (n_store n)) (commands (n_store (node_step o n))).
Proof.
  intros W Ho Hcp cid x Hx. destruct (node_step_cmd cid o n x W Hx) as (y & Hy & Hstep).
  exists y. split; [done|]. eapply cmd_step_succeeds; [done| |done]. intros now i ->.
  specialize (Ho now i cid eq_refl). congruence.
Qed.
Lemma submit_fresh j c n n' : submit j c n = (n', Ok true) → commands (n_store n) !! command_id c = None.
Proof.
  unfold submit. rewrite st_bind_eq. pose proof (on_fences_commands (refuse_fenced (initiator c)) n) as Hs.
  destruct (on_fences _ n) as [n1 [[]|e]]; simpl in *; [|done]. rewrite <-Hs.
  unfold on_store, st_zoom, insert_command. rewrite st_bind_eq. simpl.
  destruct (commands (n_store n1) !! command_id c); [|done]. by case_decide.
Qed.
Lemma submit_accept_evolves now j c n :
  is_u64 (cmd_revision c) → node_wf n →
  node_wf (submit_accept now j c n).1 ∧
  grows (commands (n_store n)) (commands (n_store (submit_accept now j c n).1)).
Proof.
  intros Hu W. unfold submit_accept. rewrite st_bind_eq.
  pose proof (node_step_wf (NSubmit j c) n Hu W) as W1.
  pose proof (node_step_grows (NSubmit j c) n W ltac:(done) eq_refl) as G1. simpl in W1, G1.
  destruct (submit j c n) as [n1 [[]|e]] eqn:Hs; [|done..]. simpl in *.
  apply submit_fresh in Hs. split; [by apply (node_step_wf (NAccept now j (command_id c)))|].
  intros cid x Hx. destruct (G1 cid x Hx) as (y & Hy & Hxy).
  destruct (node_step_cmd cid (NAccept now j (command_id c)) n1 y W1 Hy) as (z & Hz & Hstep).
  exists z. split; [done|]. eapply succeeds_trans; [done|]. eapply cmd_step_succeeds; [done| |done].
  intros now' i' [= _ _ Heq]. congruence.
Qed.

Lemma evolves_same w w' :
  n_store (wd_node w') = n_store (wd_node w) → wd_schedule w' = wd_schedule w → evolves w w'.
Proof.
  intros Hs Hq [W Q]. unfold cmds. rewrite Hs. split; [|apply grows_refl].
  split; [unfold node_wf; by rewrite Hs|by rewrite Hq].
Qed.
Lemma ledger_evolves {A} (c : st MemoryState NodeError A) w :
  (∀ s, store_wf s → store_wf (c s).1) → (∀ s, commands (c s).1 = commands s) →
  evolves w (set_node (on_store c (wd_node w)).1 w).
Proof.
  intros Hw Hc [W Q]. unfold cmds. simpl. destruct (on_store_commands c (wd_node w)) as (Hs & _ & _).
  rewrite Hs, Hc. split; [|apply grows_refl]. split; simpl; [|done].
  unfold node_wf. rewrite Hs. by apply Hw.
Qed.
Lemma set_state_commands now j lc act s : commands (set_instance_state now j lc act s).1 = commands s.
Proof.
  unfold set_instance_state. rewrite st_bind_eq, get_record_eq. by destruct (instances s !! j).
Qed.
Lemma set_failure_commands now j e s : commands (set_instance_failure now j e s).1 = commands s.
Proof.
  unfold set_instance_failure. rewrite st_bind_eq, get_record_eq. by destruct (instances s !! j).
Qed.

Lemma env_step_evolves w o : env_in_range o → evolves w (env_step w o).
Proof.
  destruct o as [cid|cid x t|now p|now j c|now j lc act|now j b|cl raw ch]; simpl; intros Ho.
  - destruct (HeldInput.withdraw cid (held_of w)) as [h r]. by case_decide; apply evolves_same.
  - destruct (HeldInput.edit cid x t (held_of w)) as [h r]. by case_decide; apply evolves_same.
  - intros [W Q]. split; [split; [by apply (node_step_wf (NFence now p))|done]|].
    by apply (node_step_grows (NFence now p)).
  - intros [W Q]. destruct (submit_accept_evolves now j c (wd_node w) Ho W) as [W' G].
    by split.
  - apply ledger_evolves; [intros; by apply set_instance_state_wf|intros; apply set_state_commands].
  - apply ledger_evolves; [intros; by apply append_observation_wf|].
    intros s. apply append_observation_commands.
  - by apply evolves_same.
Qed.
Lemma interfere_evolves w : evolves w (interfere w).
Proof.
  intros Hw. pose proof Hw as [W Q]. unfold interfere. destruct (wd_schedule w) as [|b r] eqn:Hq.
  - by apply evolves_refl.
  - apply Forall_cons_1 in Q as [Hb Hr].
    assert (evolves w (set_schedule r w)) as H0.
    { intros _. split; [by split|apply grows_refl]. }
    cut (evolves w (foldl env_step (set_schedule r w) b)); [intros H; by apply H|].
    etrans; [exact H0|]. generalize (set_schedule r w). clear -Hb.
    induction Hb as [|o b Ho Hb IH]; intros v; simpl; [reflexivity|].
    etrans; [by apply env_step_evolves|apply IH].
Qed.

(** ** Reasoning about settlements *)

(** From [P] the computation lets the ledger evolve, and if it succeeds ends in [Q]. *)
Definition does {A} (P : World → Prop) (c : wd A) (Q : A → World → Prop) : Prop :=
  ∀ w, sound w → P w → evolves w (c w).1 ∧ ∀ x, (c w).2 = Ok x → Q x (c w).1.
Definition steady {A} (c : wd A) : Prop := ∀ w, evolves w (c w).1.
Definition lasting (P : World → Prop) : Prop := ∀ w w', sound w → evolves w w' → P w → P w'.

Lemma does_ret {A} (P : World → Prop) (x : A) (Q : A → World → Prop) :
  (∀ w, P w → Q x w) → does P (mret x) Q.
Proof. intros H w _ HP. split; [reflexivity|]. intros y [= <-]. by apply H. Qed.
Lemma does_bind {A B} P (c : wd A) (k : A → wd B) R Q :
  does P c R → (∀ x, does (R x) (k x) Q) → does P (c ≫= k) Q.
Proof.
  intros Hc Hk w Hw HP. rewrite st_bind_eq. destruct (Hc w Hw HP) as [He Hx].
  destruct (c w) as [w1 [x|e]]; simpl in *; [|done].
  destruct (Hk x w1 (proj1 (He Hw)) (Hx x eq_refl)) as [He' Hx']. split; [by etrans|done].
Qed.
Lemma does_pre {A} (P P' : World → Prop) (c : wd A) Q :
  (∀ w, P w → P' w) → does P' c Q → does P c Q.
Proof. intros H Hc w Hw HP. by apply Hc, H. Qed.
Lemma does_pure {A} (X : Prop) P (c : wd A) Q : (X → does P c Q) → does (λ w, P w ∧ X) c Q.
Proof. intros H w Hw [HP HX]. by apply H. Qed.
Lemma does_post {A} P (c : wd A) (Q Q' : A → World → Prop) :
  does P c Q' → (∀ x w, Q' x w → Q x w) → does P c Q.
Proof. intros Hc H w Hw HP. destruct (Hc w Hw HP) as [He Hx]. split; [done|]. eauto. Qed.
Lemma does_steady {A} P (c : wd A) : steady c → lasting P → does P c (λ _, P).
Proof. intros Hc HP w Hw Hp. split; [apply Hc|]. intros x _. by eapply HP, Hp. Qed.
(** A lasting fact is carried along. *)
Lemma does_frame {A} P (R : World → Prop) (c : wd A) Q :
  lasting R → does P c Q → does (λ w, P w ∧ R w) c (λ x w, Q x w ∧ R w).
Proof.
  intros HR Hc w Hw [HP Hr]. destruct (Hc w Hw HP) as [He Hx]. split; [done|].
  intros x Hxw. split; [by apply Hx|]. by eapply HR, Hr.
Qed.

Lemma steady_ret {A} (x : A) : steady (mret x).
Proof. intros w. reflexivity. Qed.
Lemma steady_lift {A} (r : result A NodeError) : steady (st_lift r).
Proof. intros w. reflexivity. Qed.
Lemma steady_fail {A} (e : NodeError) : steady (st_fail e : wd A).
Proof. intros w. reflexivity. Qed.
Lemma steady_bind {A B} (c : wd A) (k : A → wd B) :
  steady c → (∀ x, steady (k x)) → steady (c ≫= k).
Proof.
  intros Hc Hk w. rewrite st_bind_eq. specialize (Hc w). destruct (c w) as [w1 [x|e]]; [|done].
  simpl in *. etrans; [done|apply Hk].
Qed.
Lemma steady_say e : steady (say e).
Proof. intros w. by apply evolves_same. Qed.
Lemma steady_prompts f : steady (on_prompts f).
Proof. intros w. unfold on_prompts, atomic. etrans; [apply interfere_evolves|by apply evolves_same]. Qed.
Lemma steady_held {A} (f : gmap string Held → gmap string Held * A) : steady (on_held f).
Proof.
  intros w. unfold on_held, atomic. etrans; [apply interfere_evolves|].
  destruct (f _). by apply evolves_same.
Qed.
Lemma steady_hold cid m t : steady (hold_prompt cid m t).
Proof. intros w. unfold hold_prompt, atomic. etrans; [apply interfere_evolves|by apply evolves_same]. Qed.
Lemma steady_ledger {A} (c : st MemoryState NodeError A) :
  (∀ s, store_wf s → store_wf (c s).1) → (∀ s, commands (c s).1 = commands s) → steady (on_ledger c).
Proof.
  intros Hw Hc w. unfold on_ledger, on_node, atomic. etrans; [apply interfere_evolves|].
  pose proof (ledger_evolves c (interfere w) Hw Hc) as H. unfold st_zoom at 1.
  by destruct (on_store c _).
Qed.
Lemma steady_append now i b : steady (on_ledger (append_observation now i b)).
Proof.
  apply steady_ledger; [intros; by apply append_observation_wf|]. intros s. apply append_observation_commands.
Qed.
Lemma steady_set_state now i lc act : steady (on_ledger (set_instance_state now i lc act)).
Proof.
  apply steady_ledger; [intros; by apply set_instance_state_wf|]. intros s. apply set_state_commands.
Qed.
Lemma steady_get_instance i : steady (on_ledger (get_instance i)).
Proof.
  apply steady_ledger; intros s; unfold get_instance; rewrite st_bind_eq, get_record_eq;
    by destruct (instances s !! i).
Qed.
Lemma steady_get_command cid : steady (on_ledger (get_command cid)).
Proof.
  apply steady_ledger; intros s; unfold get_command; rewrite st_bind_eq; simpl;
    by destruct (commands s !! cid).
Qed.
Lemma steady_lifecycle now i c st : steady (on_ledger (append_command_lifecycle now i c st)).
Proof.
  apply steady_ledger.
  - intros s W. by apply append_lifecycle_keeps.
  - intros s. unfold append_command_lifecycle. rewrite st_bind_eq.
    destruct (append_observation_commands now i (OCommandLifecycle c st) s) as [H _].
    by destruct (append_observation now i _ s) as [s' []].
Qed.
#[local] Hint Resolve steady_ret steady_lift steady_fail steady_say steady_prompts steady_held
  steady_hold steady_append steady_set_state steady_get_instance steady_get_command
  steady_lifecycle : remuda.

(** Decompose a computation into steady accesses. *)
Ltac steadily :=
  repeat first [ progress intros | apply steady_bind | solve [eauto with remuda] | case_match ].

(** *** Facts about one command *)

Definition settled (cid : string) (w : World) : Prop :=
  ∃ c, cmds w !! cid = Some c ∧ cmd_state c = Settled.
(** A command the queue can deliver: it has a target, and a create is already
    settled (the loop settles it before its prompt waits). *)
Definition deliverable (cid : string) (w : World) : Prop :=
  ∃ c, cmds w !! cid = Some c ∧ is_Some (target_instance c) ∧
    (operation c = InstanceCreate → cmd_state c = Settled).
(** A copy the worker read: the ledger still has that command, with the same
    target and operation. *)
Definition read_copy (c : Command) (w : World) : Prop :=
  in_u64 c ∧ ∃ c', cmds w !! command_id c = Some c' ∧ target_instance c' = target_instance c ∧
    operation c' = operation c.

Lemma settled_lasting cid : lasting (settled cid).
Proof.
  intros w w' Hw He (c & Hc & Hs). destruct (proj2 (He Hw) cid c Hc) as (c' & Hc' & _ & _ & Hx).
  exists c'. auto.
Qed.
Lemma deliverable_lasting cid : lasting (deliverable cid).
Proof.
  intros w w' Hw He (c & Hc & Ht & Hs). destruct (proj2 (He Hw) cid c Hc) as (c' & Hc' & H1 & H2 & H3).
  exists c'. rewrite H1, H2. auto.
Qed.
Lemma read_copy_lasting c : lasting (read_copy c).
Proof.
  intros w w' Hw He (Hu & x & Hx & H1 & H2).
  destruct (proj2 (He Hw) _ x Hx) as (y & Hy & H4 & H5 & H6). split; [done|]. exists y.
  rewrite H4, H5. auto.
Qed.
Lemma lasting_and (P Q : World → Prop) : lasting P → lasting Q → lasting (λ w, P w ∧ Q w).
Proof. intros HP HQ w w' Hw He [??]. split; eauto. Qed.
Lemma lasting_pure (X : Prop) : lasting (λ _, X).
Proof. by intros w w' _ _ ?. Qed.
#[local] Hint Resolve settled_lasting deliverable_lasting read_copy_lasting lasting_and lasting_pure
  : remuda.

(** Reading. *)
Lemma read_does cid :
  does (λ _, True) (on_ledger (get_command cid)) (λ c w, command_id c = cid ∧ read_copy c w ∧ (cmd_state c = Settled → settled cid w)).
Proof.
  intros w Hw _. split; [apply steady_get_command|]. intros c.
  pose proof (proj1 (interfere_evolves w Hw)) as [W _].
  unfold on_ledger, on_node, atomic, st_zoom at 1 2. rewrite get_command_eq. simpl.
  destruct (commands (n_store (wd_node (interfere w))) !! cid) as [x|] eqn:Hx; [|done].
  simpl. intros [= <-]. destruct (wf_key _ W _ _ Hx) as [Hid Hu]. split; [done|].
  split; [split; [done|]; exists x; rewrite Hid; by split_and!|]. intros Hs. by exists x.
Qed.
(** One access to the ledger. *)
Lemma on_ledger_eq {A} (c : st MemoryState NodeError A) w :
  on_ledger c w
  = (set_node (mkNode (c (n_store (wd_node (interfere w)))).1 (n_fences (wd_node (interfere w))))
       (interfere w), (c (n_store (wd_node (interfere w)))).2).
Proof. unfold on_ledger, on_node, atomic, on_store, st_zoom. by destruct (c _). Qed.
Lemma save_written y (s : MemoryState) :
  (save_command y s).2 = Ok tt → commands (save_command y s).1 = <[command_id y := y]> (commands s).
Proof.
  unfold save_command, get_command. rewrite !st_bind_eq. simpl.
  destruct (commands s !! command_id y) as [e|]; simpl; [|done]. by destruct (_ <? _).
Qed.
(** Saving a settled copy. *)
Lemma save_does i now y :
  cmd_state y = Settled →
  does (read_copy y) (save_settled i now y) (λ _, settled (command_id y)).
Proof.
  intros Hs. unfold save_settled. eapply (does_bind _ _ _ (λ _, settled (command_id y)));
    [|intros ?; apply does_steady; eauto with remuda].
  intros w Hw Hr. apply (read_copy_lasting y w (interfere w) Hw (interfere_evolves w)) in Hr.
  destruct Hr as (Hu & x & Hx & Ht & Ho). rewrite on_ledger_eq. simpl.
  set (s := n_store (wd_node (interfere w))). split.
  - etrans; [apply interfere_evolves|]. intros [W Q]. unfold cmds. simpl. fold s. split.
    + split; [|done]. unfold node_wf. simpl. by apply save_command_wf.
    + destruct (save_command_cases y s) as [-> | ->]; [apply grows_refl|].
      by eapply grows_settled.
  - intros [] Hok. exists y. unfold cmds. simpl. by rewrite (save_written y s Hok), lookup_insert_eq.
Qed.
Lemma settle_copy now o m ex c w : read_copy c w → read_copy (settle_command now o m ex c) w.
Proof. intros [Hu Hc]. split; [by apply settle_command_u64|done]. Qed.

(** *** The worker's functions *)

Lemma does_any {A} (c : wd A) Q : does (λ _, True) c Q → steady c.
Proof. intros H w Hw. by apply (H w Hw). Qed.
(** Step over a steady access, keeping a lasting fact. *)
Ltac keep := eapply does_bind; [apply does_steady; [solve [eauto with remuda]|solve [eauto with remuda]]|]; intros ?.

Lemma reject_written now j c r s x :
  (reject_before_dispatch now j c r s).2 = Ok x →
  ∃ y, commands (reject_before_dispatch now j c r s).1 !! command_id c = Some y ∧ cmd_state y = Settled.
Proof.
  unfold reject_before_dispatch. rewrite st_bind_eq.
  set (y := settle_command now Rejected (Some r) ExecNotDispatched c).
  pose proof (save_written y s) as Hs. destruct (save_command y s) as [s1 [[]|e]]; [|done].
  specialize (Hs eq_refl). simpl in Hs. rewrite st_bind_eq.
  unfold append_command_lifecycle. rewrite st_bind_eq.
  pose proof (append_observation_commands now j (OCommandLifecycle y "settled") s1) as [Ha _].
  destruct (append_observation now j _ s1) as [s2 [o|e]]; simpl in *; [|done].
  intros _. exists y. by rewrite Ha, Hs, lookup_insert_eq.
Qed.
Lemma fence_claim_steady now cid : steady (on_node (NodeFence.claim now cid)).
Proof.
  intros w. unfold on_node, atomic. etrans; [apply interfere_evolves|]. intros [W Q].
  unfold st_zoom. pose proof (node_step_wf (NClaim now cid) (wd_node (interfere w)) I W) as W'.
  pose proof (node_step_grows (NClaim now cid) (wd_node (interfere w)) W ltac:(done) eq_refl) as G. simpl in *.
  by destruct (NodeFence.claim now cid (wd_node (interfere w))) as [n r].
Qed.
Lemma fence_claim_does now cid :
  does (deliverable cid) (on_node (NodeFence.claim now cid))
    (λ v w, deliverable cid w ∧ (v = ClaimFenced → settled cid w)).
Proof.
  intros w Hw Hd. pose proof (fence_claim_steady now cid w) as He. split; [done|]. intros v Hv.
  split; [by eapply deliverable_lasting, Hd|]. revert Hv.
  apply (deliverable_lasting cid w (interfere w) Hw (interfere_evolves w)) in Hd.
  pose proof (proj1 (interfere_evolves w Hw)) as [W _]. unfold on_node, atomic. clear He.
  set (u := interfere w) in *. destruct Hd as (c & Hc & [j Hj] & _). unfold cmds in Hc.
  unfold st_zoom. intros Hv ->. revert Hv. unfold settled, cmds.
  unfold NodeFence.claim. rewrite st_bind_eq, get_command_eq, Hc. simpl.
  destruct (initiator c) as [ini|]; [|done]. rewrite st_bind_eq. simpl.
  rewrite st_bind_eq, get_command_eq, Hc. simpl. destruct (decide (cmd_state c = Settled)).
  { simpl. intros _. by exists c. }
  destruct (table_is_fenced _ _).
  - rewrite Hj, st_bind_eq.
    destruct (on_store_commands (reject_before_dispatch now j c FENCED_REASON) (wd_node u)) as (H1 & H2 & _).
    pose proof (reject_written now j c FENCED_REASON (n_store (wd_node u))) as Hr.
    destruct (wf_key _ W _ _ Hc) as [Hid _].
    destruct (on_store _ (wd_node u)) as [n1 [x|e]]; simpl in *; [|done].
    intros _. rewrite H1. rewrite <-Hid. by eapply Hr.
  - rewrite st_bind_eq. by destruct (on_store _ (wd_node u)) as [n1 []].
Qed.

Section Functions.
Context (i : InstanceId) (kind : DriverKind).

Lemma reject_queued_does now c r :
  does (read_copy c) (reject_queued i now c r) (λ _, settled (command_id c)).
Proof.
  unfold reject_queued. eapply does_pre; [intros w; by apply settle_copy|].
  by apply (save_does i now (settle_command now Rejected (Some r) ExecNotDispatched c)).
Qed.
Lemma reject_unsettled_does now cid r :
  does (λ _, True) (reject_unsettled i now cid r) (λ _, settled cid).
Proof.
  unfold reject_unsettled. eapply does_bind; [apply read_does|]. intros c.
  case_decide as Hs; [apply does_ret; naive_solver|].
  intros w Hw (<- & Hr & _). by apply reject_queued_does.
Qed.

Lemma update_message_steady now s p : steady (update_message i now s p).
Proof. unfold update_message. steadily. Qed.
Lemma enqueue_steady a cid t refs o m : steady (enqueue i a cid t refs o m).
Proof. unfold enqueue. steadily. Qed.
Lemma was_blocked_steady a : steady (was_blocked_on_human i a).
Proof.
  intros w. unfold was_blocked_on_human. pose proof (steady_get_instance i w) as H.
  by destruct (on_ledger _ w) as [w1 []].
Qed.
Lemma remark_steady now m : steady (remark_after_enqueue i now m).
Proof. unfold remark_after_enqueue. steadily. Qed.
Lemma remark_change_steady now p : steady (remark_after_queue_change i now p).
Proof. unfold remark_after_queue_change. destruct p; [apply remark_steady|apply steady_ret]. Qed.
Lemma settle_activity_steady a : steady (settle_activity_after_drain i a).
Proof. unfold settle_activity_after_drain. steadily. Qed.
Lemma arm_steady a p : steady (arm_steer_interrupt i a p).
Proof. unfold arm_steer_interrupt. steadily. Qed.
Lemma is_working_steady : steady (is_working i).
Proof. unfold is_working. steadily. Qed.
Lemma append_emissions_steady now es : steady (append_emissions i now es).
Proof. induction es as [|[[nid e] g] es IH]; simpl; steadily. Qed.
Lemma instance_lifecycle_steady now prev s r : steady (append_instance_lifecycle i now prev s r).
Proof. unfold append_instance_lifecycle. steadily. Qed.
#[local] Hint Resolve update_message_steady enqueue_steady was_blocked_steady remark_steady
  remark_change_steady settle_activity_steady arm_steady is_working_steady append_emissions_steady
  instance_lifecycle_steady fence_claim_steady : remuda.
Lemma apply_edit_steady now t p : steady (apply_edit i now t p).
Proof. unfold apply_edit. steadily. Qed.
Lemma finish_operation_steady now r : steady (finish_instance_operation i kind now r).
Proof. unfold finish_instance_operation. steadily. Qed.
Lemma perform_steady a cid r : steady (perform a cid r).
Proof. unfold perform. steadily. Qed.
Lemma task_exit_steady now r : steady (record_task_exit i now r).
Proof.
  intros w. unfold record_task_exit. pose proof (steady_get_instance i w) as H1.
  destruct (on_ledger (get_instance i) w) as [w1 x]. simpl in H1.
  match goal with |- context [if ?b then _ else _] => destruct b end; [done|]. etrans; [exact H1|].
  assert (evolves w1 (on_ledger (mark_unsettled_unknown now i) w1).1) as H2.
  { rewrite on_ledger_eq. simpl. etrans; [apply interfere_evolves|]. intros [W Q].
    split; [split; [by apply mark_unsettled_unknown_wf|done]|].
    pose proof (node_step_grows (NMark now i) (wd_node (interfere w1)) W ltac:(done) eq_refl) as G.
    simpl in G. by rewrite (proj1 (on_store_commands _ _)) in G. }
  destruct (on_ledger (mark_unsettled_unknown now i) w1) as [w2 y]. simpl in H2. etrans; [exact H2|].
  assert (steady (on_ledger (set_instance_failure now i r))) as H3.
  { apply steady_ledger; [intros; by apply set_instance_failure_wf|intros; apply set_failure_commands]. }
  specialize (H3 w2). destruct (on_ledger (set_instance_failure now i r) w2) as [w3 [|]]; simpl in *; [|done].
  etrans; [exact H3|]. apply instance_lifecycle_steady.
Qed.
#[local] Hint Resolve apply_edit_steady finish_operation_steady perform_steady task_exit_steady : remuda.
End Functions.
#[export] Hint Resolve update_message_steady enqueue_steady was_blocked_steady remark_steady
  remark_change_steady settle_activity_steady arm_steady is_working_steady append_emissions_steady
  fence_claim_steady apply_edit_steady finish_operation_steady perform_steady task_exit_steady : remuda.

Section Settles.
Context (i : InstanceId) (kind : DriverKind).

Lemma finalize_does now p :
  does (λ _, True) (finalize_withdrawn i now p) (λ _, settled (pp_command_id p)).
Proof.
  unfold finalize_withdrawn. do 2 keep. eapply does_bind; [apply read_does|]. intros c.
  case_decide as Hs; [apply does_ret; naive_solver|].
  intros w Hw (Hid & Hr & _). rewrite <-Hid.
  by apply (save_does i now (settle_command now Cancelled (Some "withdrawn"%string) ExecNotDispatched c));
    [..|apply settle_copy].
Qed.

(** The copy a delivery goes on with: settled, and the same command. *)
Definition settled_copy (c c' : Command) (w : World) : Prop :=
  command_id c' = command_id c ∧ cmd_state c' = Settled ∧ read_copy c' w.
Lemma settled_copy_intro now o m ex c w :
  read_copy c w →
  settled_copy c (if decide (cmd_state c = Settled) then c else settle_command now o m ex c) w.
Proof. intros Hr. case_decide; split_and!; try done. by apply settle_copy. Qed.
Lemma after_send_does a landed p c es :
  does (read_copy c) (after_send i a landed p c es) (settled_copy c).
Proof.
  unfold after_send. keep. eapply does_bind; [apply does_steady; [steadily|eauto with remuda]|]. intros ?.
  keep. apply does_ret. intros w. apply settled_copy_intro.
Qed.
Lemma after_error_does a p c e : does (read_copy c) (after_error i a p c e) (settled_copy c).
Proof. unfold after_error. do 4 keep. apply does_ret. intros w. apply settled_copy_intro. Qed.
Lemma finish_does a cid c :
  does (λ w, settled_copy c c w ∧ command_id c = cid ∧ deliverable cid w) (finish i a cid c)
    (λ _, settled cid).
Proof.
  unfold finish. intros w Hw ((_ & Hs & Hr) & <- & Hd). revert w Hw Hr Hd.
  assert (does (λ w, read_copy c w ∧ deliverable (command_id c) w)
    (_ ← on_held_ (HeldInput.release (command_id c));
     if decide (operation c = InstanceCreate) then mret tt else save_settled i (an_now a) c)
    (λ _, settled (command_id c))) as H; [|intros w Hw H1 H2; by apply H].
  eapply does_bind; [apply does_steady; [apply steady_held|eauto with remuda]|]. intros ?.
  case_decide as Ho.
  - apply does_ret. intros w [(_ & z & Hz & _ & H1) (y & Hy & _ & H2)]. exists y.
    split; [done|]. apply H2. congruence.
  - eapply does_pre; [|by apply save_does]. by intros w [? _].
Qed.

Definition attempt_settles (cid : string)
    (r : bool + PendingPrompt * result (list (string * DriverEmission * result unit NodeError)) DriverError)
    (w : World) : Prop :=
  deliverable cid w ∧
  match r with
  | inl true => settled cid w
  | inl false => True
  | inr (p, _) => pp_command_id p = cid
  end.
Lemma claimed_send_does a p :
  does (deliverable (pp_command_id p)) (claimed_send i a p) (attempt_settles (pp_command_id p)).
Proof.
  unfold claimed_send. eapply does_bind; [apply does_steady; [apply steady_held|eauto with remuda]|].
  intros [t|].
  2:{ eapply does_bind.
      { eapply does_pre; [|apply (does_frame (λ _, True) (deliverable (pp_command_id p)));
          [eauto with remuda|apply finalize_does]]. done. }
      intros ?. apply does_ret. intros w [??]. by split. }
  eapply (does_bind _ _ _ (λ p' w, deliverable (pp_command_id p) w ∧
    pp_command_id p' = pp_command_id p)).
  { destruct t as [t|]; [|by apply does_ret]. intros w Hw Hd.
    pose proof (apply_edit_steady i (an_now a) t p w) as He. split; [done|]. intros p' Hp.
    split; [by eapply deliverable_lasting, Hd|].
    destruct (apply_edit i (an_now a) t p w) as [w' r] eqn:Hr. simpl in Hp. subst r.
    apply apply_edit_key in Hr. by injection Hr as ->. }
  intros p'. eapply does_bind.
  { apply (does_frame (deliverable (pp_command_id p)) (λ _, pp_command_id p' = pp_command_id p));
      [apply lasting_pure|apply fence_claim_does]. }
  intros [].
  - eapply (does_bind _ _ _ (λ _ w, deliverable (pp_command_id p) w ∧ pp_command_id p' = pp_command_id p)).
    { eapply does_pre; [|apply does_steady; eauto with remuda]. by intros w [[? _] ?]. }
    intros ?. keep. by apply does_ret.
  - eapply (does_bind _ _ _ (λ _ w, deliverable (pp_command_id p) w ∧ settled (pp_command_id p) w)).
    { eapply does_pre; [|apply does_steady; [apply steady_held|eauto with remuda]].
      intros w [[? Hs] ?]. auto. }
    intros ?. do 2 keep. by apply does_ret.
Qed.

(** A delivered prompt's command is settled; a kept one can still be. *)
Definition settled_or_kept (p : PendingPrompt) (r : option PendingPrompt) (w : World) : Prop :=
  match r with
  | None => settled (pp_command_id p) w
  | Some p' => deliverable (pp_command_id p) w ∧ pp_command_id p' = pp_command_id p
  end.
Lemma finish_end a p c :
  does (λ w, settled_copy c c w ∧ deliverable (pp_command_id p) w ∧ command_id c = pp_command_id p)
    (_ ← finish i a (pp_command_id p) c; mret None) (settled_or_kept p).
Proof.
  eapply does_bind; [eapply does_pre; [|apply finish_does]; naive_solver|]. intros ?. by apply does_ret.
Qed.
Lemma settle_end a p (c : Command) (k : wd Command) :
  command_id c = pp_command_id p → does (read_copy c) k (settled_copy c) →
  does (λ w, read_copy c w ∧ deliverable (pp_command_id p) w)
    (c' ← k; _ ← finish i a (pp_command_id p) c'; mret None) (settled_or_kept p).
Proof.
  intros Hid Hk. eapply does_bind; [apply does_frame; [eauto with remuda|exact Hk]|].
  intros c'. eapply does_pre; [|apply finish_end]. intros w [(H1 & H2 & H3) H4].
  split_and!; [by split_and!|done|congruence].
Qed.
(** What follows the driver's answer. *)
Lemma answer_does a landed p p' (x : result (list (string * DriverEmission * result () NodeError)) DriverError)
    (c : Command) :
  pp_command_id p' = pp_command_id p → command_id c = pp_command_id p →
  does (λ w, read_copy c w ∧ deliverable (pp_command_id p) w)
    match x with
    | Err ControlUnavailable =>
        _ ← on_held_ (HeldInput.unclaim (pp_command_id p));
        _ ← remark_after_enqueue i (an_now a) (Some (pp_mode p')); mret (Some p')
    | Ok es => c' ← after_send i a landed p' c es; _ ← finish i a (pp_command_id p) c'; mret None
    | Err e => c' ← after_error i a p' c e; _ ← finish i a (pp_command_id p) c'; mret None
    end (settled_or_kept p).
Proof.
  intros Hp Hid. destruct x as [es|[]].
  - apply settle_end; [done|apply after_send_does].
  - eapply does_bind; [apply does_steady; [apply steady_held|eauto with remuda]|]. intros ?. keep.
    apply does_ret. by intros w [_ ?].
  - apply settle_end; [done|apply after_error_does].
  - apply settle_end; [done|apply after_error_does].
Qed.
Lemma deliver_does a p : does (deliverable (pp_command_id p)) (deliver i a p) (settled_or_kept p).
Proof.
  unfold deliver. destruct (an_attach a) as [landed|e].
  2:{ eapply does_bind; [apply does_steady; [apply steady_held|eauto with remuda]|]. intros ?.
      do 2 keep. eapply does_bind; [eapply does_pre; [|apply reject_unsettled_does]; done|].
      intros ?. by apply does_ret. }
  eapply (does_bind _ _ _ (attempt_settles (pp_command_id p))).
  { unfold attempt. destruct (an_probe a) as [|[]|]; [| | | |apply claimed_send_does];
      by apply does_ret. }
  intros [popped|[p' x]]; [apply does_ret; intros w [??]; by destruct popped|].
  apply (does_pure (pp_command_id p' = pp_command_id p) (deliverable (pp_command_id p))). intros Hp.
  eapply (does_bind _ _ _ (λ c w, (read_copy c w ∧ deliverable (pp_command_id p) w) ∧ command_id c = pp_command_id p)).
  - eapply does_post; [eapply does_pre; [|apply does_frame; [apply (deliverable_lasting (pp_command_id p))|
      apply read_does]]|]; [done|]. simpl. intros c w [(? & ? & _) ?]. by split_and!.
  - intros c w Hw [H1 H2]. by apply (answer_does a landed p p' x c Hp H2).
Qed.
End Settles.

(** *** Control operations *)

Section Control.
Context (i : InstanceId) (kind : DriverKind).

(** Settling a copy keeps the copy. *)
Lemma settle_keeps_copy now o m ex c :
  does (read_copy c) (save_settled i now (settle_command now o m ex c)) (λ _, read_copy c).
Proof.
  eapply does_post; [eapply does_pre; [|apply does_frame; [apply (read_copy_lasting c)|
    by apply (save_does i now (settle_command now o m ex c))]]|]; simpl.
  - intros w H. split; [by apply settle_copy|done].
  - by intros ? w [_ ?].
Qed.
Lemma announce_does a cid c t at_ : does (read_copy c) (announce_send i a cid c t at_) (λ _, read_copy c).
Proof.
  unfold announce_send. do 3 keep. destruct (an_probe a); try by apply does_ret.
  do 2 keep. eapply does_bind; [apply settle_keeps_copy|]. intros ?. by apply does_ret.
Qed.
Lemma after_request_does a r c x :
  does (read_copy c) (after_request i kind a r c x) (λ _, read_copy c).
Proof.
  unfold after_request. destruct x.
  - do 2 keep. apply settle_keeps_copy.
  - keep. eapply does_bind; [apply does_steady; [case_match; eauto with remuda|eauto with remuda]|].
    intros ?. apply settle_keeps_copy.
Qed.
Lemma run_claimed_steady a cid r : steady (run_claimed i kind a cid r).
Proof.
  apply (does_any _ (λ _ _, True)). unfold run_claimed. keep. case_decide; [by apply does_ret|].
  eapply does_bind; [apply read_does|]. intros c.
  eapply (does_bind _ _ _ (λ _, read_copy c)).
  { apply (does_pre _ (read_copy c)); [by intros w (_ & ? & _)|].
    destruct r; try by apply does_ret. apply announce_does. }
  intros []; [|by apply does_ret]. keep. eapply does_post; [apply after_request_does|done].
Qed.
Lemma execute_queued_steady a q : steady (execute_queued i kind a q).
Proof.
  unfold execute_queued. destruct (q_request q), (an_attach a); try apply run_claimed_steady.
  apply (does_any _ (λ _ _, True)). eapply does_bind; [apply read_does|]. intros c.
  apply (does_pre _ (read_copy c)); [by intros w (_ & ? & _)|].
  eapply does_post; [apply settle_keeps_copy|done].
Qed.
Lemma reject_queued_steady now c r : does (read_copy c) (reject_queued i now c r) (λ _ _, True).
Proof. eapply does_post; [apply reject_queued_does|done]. Qed.
Lemma drain_steady now qs : steady (drain_channel i now qs).
Proof.
  induction qs as [|q qs IH]; simpl; [apply steady_ret|]. apply (does_any _ (λ _ _, True)).
  eapply does_bind; [apply read_does|]. intros c.
  apply (does_pre _ (read_copy c)); [by intros w (_ & ? & _)|]. keep.
  eapply does_bind; [apply reject_queued_steady|]. intros ?. by apply does_steady.
Qed.

(** *** The queue owes a settlement *)

(** Every prompt received so far waits in the queue or is settled. *)
Definition owed (used : list string) (q : list PendingPrompt) (w : World) : Prop :=
  (∀ cid, cid ∈ used → cid ∈ ids q ∨ settled cid w) ∧
  ∀ cid, cid ∈ ids q → deliverable cid w.

Lemma owed_lasting used q : lasting (owed used q).
Proof.
  intros w w' Hw He [H1 H2]. split.
  - intros cid Hc. destruct (H1 cid Hc); [by left|]. right. by eapply settled_lasting.
  - intros cid Hc. eapply deliverable_lasting; eauto.
Qed.
Lemma owed_ids used q q' w : ids q = ids q' → owed used q w → owed used q' w.
Proof. unfold owed. by intros ->. Qed.
Lemma owed_drop used d p q w :
  owed used (d ++ p :: q) w → settled (pp_command_id p) w → owed used (d ++ q) w.
Proof.
  intros [H1 H2] Hs. unfold owed. rewrite ids_middle in H1, H2.
  unfold ids in *. rewrite fmap_app. split; intros cid Hc; [|apply H2; set_solver].
  destruct (decide (cid = pp_command_id p)) as [->|]; [by right|].
  destruct (H1 cid Hc); [|by right]. left. set_solver.
Qed.
#[local] Hint Resolve owed_lasting execute_queued_steady drain_steady : remuda.

(** [c] settles the prompt [p], which then leaves the queue. *)
Lemma does_drop {A} used d p q (c : wd A) :
  does (λ _, True) c (λ _, settled (pp_command_id p)) →
  does (owed used (d ++ p :: q)) c (λ _, owed used (d ++ q)).
Proof.
  intros Hc. eapply does_post; [eapply does_pre; [|apply (does_frame (λ _, True)
    (owed used (d ++ p :: q)))]|]; [|apply owed_lasting|exact Hc|]; [done|].
  simpl. intros x w [Hs Ho]. by eapply owed_drop.
Qed.

Lemma interrupt_does used now r q :
  does (owed used q) (interrupt_pending i now r q) (λ _, owed used []).
Proof.
  induction q as [|p q IH]; simpl; [by apply does_ret|].
  eapply does_bind; [apply does_steady; [apply steady_held|eauto with remuda]|]. intros ?. do 2 keep.
  eapply does_bind; [apply (does_drop used [] p q), reject_unsettled_does|]. intros ?. apply IH.
Qed.
Lemma apply_held_changes_does used now q d :
  does (owed used (d ++ q)) (apply_held_changes i now q) (λ q' w, owed used (d ++ q') w).
Proof.
  revert d. induction q as [|p q IH]; intros d; simpl; [by apply does_ret|].
  eapply does_bind; [apply does_steady; [apply steady_held|eauto with remuda]|].
  assert (∀ p', pp_command_id p' = pp_command_id p →
    does (owed used (d ++ p :: q)) (rest' ← apply_held_changes i now q; mret (p' :: rest'))
      (λ q' w, owed used (d ++ q') w)) as Hrest.
  { intros p' Hp. eapply (does_bind _ _ _ (λ q' w, owed used ((d ++ [p']) ++ q') w)).
    - eapply does_pre; [|apply IH]. intros w. apply owed_ids. rewrite <-app_assoc. simpl.
      by rewrite !ids_middle, Hp.
    - intros q'. apply does_ret. intros w. by rewrite <-app_assoc. }
  intros [[|t]|]; [| |by apply Hrest].
  - eapply does_bind; [apply (does_drop used d p q), finalize_does|]. intros ?. apply IH.
  - eapply (does_bind _ _ _ (λ p' w, owed used (d ++ p :: q) w ∧ pp_command_id p' = pp_command_id p)).
    + intros w Hw Ho. pose proof (apply_edit_steady i now t p w) as He. split; [done|]. intros p' Hp.
      split; [by eapply owed_lasting, Ho|].
      destruct (apply_edit i now t p w) as [w' r] eqn:Hr. simpl in Hp. subst r.
      apply apply_edit_key in Hr. by injection Hr as ->.
    + intros p'. apply does_pure, Hrest.
Qed.
End Control.
#[export] Hint Resolve owed_lasting execute_queued_steady drain_steady : remuda.

(** ** The loop *)

Section Loop.
Context (i : InstanceId) (kind : DriverKind).

Lemma deliver_front_does used a l p q :
  does (owed used (p :: q)) (deliver_front i a l p q) (λ l' w, owed used (pending l') w).
Proof.
  unfold deliver_front. eapply does_bind.
  { eapply does_pre; [|apply (does_frame (deliverable (pp_command_id p)) (owed used (p :: q)));
      [eauto with remuda|apply deliver_does]].
    intros w Ho. split; [|done]. apply Ho. by left. }
  intros [p'|].
  { apply does_ret. simpl. intros w [[_ Hp] Ho]. eapply owed_ids; [|exact Ho]. unfold ids. csimpl.
    by rewrite Hp. }
  apply (does_pre _ (owed used q)).
  { intros w [Hs Ho]. by apply (owed_drop used [] p q). }
  destruct (head q) as [next|]; [|by apply does_ret].
  eapply does_bind; [apply does_steady; [case_match; eauto with remuda|eauto with remuda]|].
  intros []; [keep|]; by apply does_ret.
Qed.

Lemma tick_does used a l :
  does (owed used (pending l)) (tick i a l) (λ l' w, owed used (pending l') w).
Proof.
  unfold tick. eapply does_bind; [apply (apply_held_changes_does i used (an_now a) (pending l) [])|].
  simpl. intros [|p q]; [keep; by apply does_ret|]. keep. case_decide.
  - eapply does_bind; [apply interrupt_does|]. intros ?. by apply does_ret.
  - do 2 keep. case_match; [by apply does_ret|]. apply deliver_front_does.
Qed.

Lemma elem_of_insert_at {A} (x y : A) n (l : list A) : x ∈ insert_at n y l ↔ x = y ∨ x ∈ l.
Proof.
  assert (x ∈ l ↔ x ∈ take n l ++ drop n l) as -> by (by rewrite take_drop).
  unfold insert_at. rewrite !elem_of_app, elem_of_cons. tauto.
Qed.
Lemma ids_place item q cid : cid ∈ ids (place item q) ↔ cid = pp_command_id item ∨ cid ∈ ids q.
Proof.
  unfold ids. rewrite !list_elem_of_fmap. unfold place. case_decide.
  - setoid_rewrite elem_of_insert_at. naive_solver.
  - setoid_rewrite elem_of_app. setoid_rewrite list_elem_of_singleton. naive_solver.
Qed.
Lemma owed_place used item q w :
  owed used q w → deliverable (pp_command_id item) w →
  owed (pp_command_id item :: used) (place item q) w.
Proof.
  intros [H1 H2] Hd. split; intros cid.
  - rewrite ids_place. intros [->|Hc]%elem_of_cons; [by left; left|]. destruct (H1 cid Hc); auto.
  - rewrite ids_place. intros [->|Hc]; [done|by apply H2].
Qed.

Lemma recv_send_does used a cap l cid t refs o m :
  does (λ w, owed used (pending l) w ∧ deliverable cid w) (recv_send i a cap l cid t refs o m)
    (λ l' w, owed (cid :: used) (pending l') w).
Proof.
  unfold recv_send. case_decide.
  - eapply does_bind.
    { eapply does_pre; [|apply (does_frame (λ _, True) (owed used (pending l))); [eauto with remuda|
        apply read_does]]. by intros w [? _]. }
    intros c. apply (does_pre _ (λ w, (read_copy c w ∧ owed used (pending l) w) ∧ command_id c = cid));
      [naive_solver|]. apply does_pure. intros <-. keep.
    eapply does_bind; [apply does_frame; [eauto with remuda|apply reject_queued_does]|]. intros ?.
    apply (does_pre _ (owed (command_id c :: used) (pending l))).
    { intros w [Hs [H1 H2]]. split; [|done]. intros z [->|Hz]%elem_of_cons; auto. }
    keep. by apply does_ret.
  - do 2 keep. eapply (does_bind _ _ _ (λ item w, owed (cid :: used) (place item (pending l)) w
      ∧ pp_mode item = m)).
    { intros w Hw [Ho Hd]. pose proof (enqueue_steady i a cid t refs o m w) as He. split; [done|].
      intros item Hi. destruct (enqueue i a cid t refs o m w) as [w' r] eqn:Hr. simpl in *. subst r.
      unfold enqueue in Hr. apply st_bind_ok in Hr as (? & ? & _ & Hr).
      apply st_bind_ok in Hr as (? & ? & _ & Hr). injection Hr as -> <-. split; [|done].
      apply (owed_place used (mkPending cid t refs o m (queued_message (an_fresh a) cid t o m)));
        [by eapply owed_lasting, Ho|by eapply deliverable_lasting, Hd]. }
    intros item. apply does_pure. intros Hm.
    eapply (does_bind _ _ _ (λ l' w, owed (cid :: used) (pending l') w)).
    { unfold place. rewrite Hm. case_decide; [|by apply does_ret]. keep.
      case_match; [|case_match; by apply does_ret].
      eapply does_bind; [apply does_steady; [case_match; eauto with remuda|eauto with remuda]|].
      intros ?. by apply does_ret. }
    intros l'. keep. by apply does_ret.
Qed.

Lemma recv_control_does used a rest l q :
  does (owed used (pending l)) (recv_control i kind a rest l q)
    (λ o w, ∀ l', o = Some l' → owed used (pending l') w).
Proof.
  unfold recv_control. eapply (does_bind _ _ _ (λ l' w, owed used (pending l') w)).
  { destruct (q_request q); try by apply does_ret.
    all: eapply does_bind; [apply interrupt_does|]; intros ?; by apply does_ret. }
  intros l'. keep. eapply does_bind.
  { apply does_steady; [case_match; [steadily|eauto with remuda]|eauto with remuda]. }
  intros []; [keep; by apply does_ret|].
  eapply does_bind; [apply does_steady; [case_decide; eauto with remuda|eauto with remuda]|].
  intros ?. apply does_ret. naive_solver.
Qed.

Lemma loop_step_does used cap a ev l :
  does (λ w, owed used (pending l) w ∧ ∀ cid, cid ∈ step_ids ev → deliverable cid w)
    (loop_step i kind cap a ev l)
    (λ o w, ∀ l', o = Some l' → owed (step_ids ev ++ used) (pending l') w).
Proof.
  destruct ev as [cid t refs o m|q rest| |]; simpl.
  - eapply does_bind; [eapply does_pre; [|apply recv_send_does]|].
    + intros w [Ho Hd]. split; [done|]. apply Hd. by left.
    + intros l'. apply does_ret. naive_solver.
  - eapply does_pre; [|apply recv_control_does]. by intros w [? _].
  - apply (does_pre _ (owed used (pending l))); [by intros w [? _]|].
    eapply does_bind; [apply interrupt_does|]. intros ? w Hw Ho. by split; [reflexivity|].
  - apply (does_pre _ (owed used (pending l))); [by intros w [? _]|].
    case_decide; [apply does_ret; naive_solver|]. eapply does_bind; [apply tick_does|].
    intros l'. apply does_ret. naive_solver.
Qed.

Lemma run_loop_owed cap evs used l w w' l' :
  sound w → owed used (pending l) w → (∀ cid, cid ∈ event_ids evs → deliverable cid w) →
  run_loop i kind cap evs l w = (w', Ok (Some l')) →
  ∀ cid, cid ∈ used ∨ cid ∈ event_ids evs → cid ∈ ids (pending l') ∨ settled cid w'.
Proof.
  revert used l w. induction evs as [|[a ev] evs IH]; intros used l w Hw Ho Hd; simpl.
  { intros [= <- <-] cid [Hc|Hc]; [by apply Ho|by apply not_elem_of_nil in Hc]. }
  assert (event_ids ((a, ev) :: evs) = step_ids ev ++ event_ids evs) as He by (by destruct ev).
  rewrite He in Hd.
  destruct (loop_step_does used cap a ev l w Hw) as [Hev Hq]; [split; [done|]; set_solver|].
  rewrite st_bind_eq. destruct (loop_step i kind cap a ev l w) as [w1 [[l1|]|e]]; [|done..]. simpl in *.
  intros Hrun cid Hc. change (omap _ _) with (event_ids ((a, ev) :: evs)) in Hc. rewrite He in Hc.
  destruct (Hev Hw) as [Hw1 _].
  eapply (IH (step_ids ev ++ used) l1 w1); [done|by apply (Hq (Some l1))| |done|set_solver].
  intros x Hx. eapply deliverable_lasting; [exact Hw|exact Hev|]. apply Hd. set_solver.
Qed.

Lemma start_does a c prompt :
  is_Some (target_instance c) →
  does (read_copy c) (start_create i a c prompt) (λ l w, owed [command_id c] (pending l) w).
Proof.
  intros Ht. unfold start_create.
  eapply (does_bind _ _ _ (λ q w, read_copy c w ∧ ∀ cid, cid ∈ ids q → cid = command_id c)).
  { case_decide; [apply does_ret; set_solver|]. keep. intros w Hw Hr.
    pose proof (enqueue_steady i a (command_id c) prompt [] (input_origin (cmd_origin c)) NewTurn w) as He.
    rewrite st_bind_eq. destruct (enqueue i a _ _ _ _ _ w) as [w1 [item|e]] eqn:Hi; [|by split].
    split; [done|]. intros q [= <-]. split; [by eapply read_copy_lasting, Hr|].
    unfold enqueue in Hi. apply st_bind_ok in Hi as (? & ? & _ & Hi).
    apply st_bind_ok in Hi as (? & ? & _ & Hi). injection Hi as _ <-. set_solver. }
  intros q. apply does_pure. intros Hq.
  eapply does_bind.
  { eapply does_pre; [|apply does_frame; [apply (read_copy_lasting c)|by apply (save_does i (an_now a)
      (settle_command (an_now a) Completed None ExecNotDispatched c))]].
    intros w Hr. split; [by apply settle_copy|done]. }
  intros ?. apply (does_pre _ (owed [command_id c] q)).
  { intros w [Hs Hr]. destruct Hs as (y & Hy & Hst). destruct Hr as (_ & z & Hz & H1 & H2).
    simpl in Hy. split.
    - intros cid ->%list_elem_of_singleton. right. by exists y.
    - intros cid ->%Hq. exists y. split_and!; [done| |done]. simplify_eq. by rewrite H1. }
  keep. by apply does_ret.
Qed.
End Loop.

(** C7. No prompt is lost: under every interleaving with fences, withdrawals,
    edits, submissions and signals, a prompt the worker received (the create
    prompt included) is, as long as the worker runs, either still waiting in
    the queue or settled in the ledger. *)
Theorem no_prompt_is_lost i kind cap create evs w w' l :
  sound w →
  (∀ a c t, create = Some (a, c, t) → read_copy c w ∧ is_Some (target_instance c)) →
  (∀ cid, cid ∈ event_ids evs → deliverable cid w) →
  run i kind cap create evs w = (w', Ok (Some l)) →
  ∀ cid, cid ∈ create_ids create ++ event_ids evs → cid ∈ ids (pending l) ∨ settled cid w'.
Proof.
  intros Hw Hcr Hd Hrun cid Hc. unfold run in Hrun. apply st_bind_ok in Hrun as (w1 & l1 & Hs & Hrun).
  destruct create as [[[a c] t]|]; simpl in *.
  - destruct (Hcr a c t eq_refl) as [Hr Ht]. destruct (start_does i a c t Ht w Hw Hr) as [He Ho].
    rewrite Hs in He, Ho. simpl in *.
    eapply (run_loop_owed i kind cap evs [command_id c] l1 w1); [by apply He|by apply Ho| |done|set_solver].
    intros x Hx. eapply deliverable_lasting; [exact Hw|exact He|]. by apply Hd.
  - injection Hs as <- <-.
    eapply (run_loop_owed i kind cap evs [] (mkLocal [] None) w); [done| |done|done|set_solver].
    split; set_solver.
Qed.

(** ** Witness *)

Lemma w_world_sound : sound w_world.
Proof.
  split.
  - apply store_run_wf; [|apply empty_store_wf]. repeat constructor; vm_compute; congruence.
  - simpl. repeat constructor.
Qed.
Lemma w_deliverable cid : cid ∈ event_ids w_events → deliverable cid w_world.
Proof.
  intros H. exists (w_send cid). split; [|by split; [eexists|]].
  simpl in H. repeat (apply elem_of_cons in H as [->|H]; [vm_compute; reflexivity|]).
  by apply not_elem_of_nil in H.
Qed.

Lemma no_prompt_lost_witness :
  ∃ w l, run "inst_1" ClaudePty 8 None w_events w_world = (w, Ok (Some l)) ∧
    ("cmd_2"%string ∈ ids (pending l) ∨ settled "cmd_2" w).
Proof.
  destruct (run "inst_1" ClaudePty 8 None w_events w_world) as [w [[l|]|e]] eqn:Hr;
    [|vm_compute in Hr; discriminate Hr..].
  exists w, l. split; [reflexivity|].
  apply (no_prompt_is_lost "inst_1" ClaudePty 8 None w_events w_world w l w_world_sound
    ltac:(discriminate) w_deliverable Hr).
  apply list_elem_of_further, list_elem_of_here.
Defined.
