(* ===== verification/AltScreen.v ===== *)
(** * The alternate-screen scanner: [remuda-herdr/src/alt_screen.rs]

    A relay feeds the raw bytes of a pane, chunk by chunk, to a small ECMA-48
    recogniser that maintains one bit: is the alternate screen shown.  The
    scanner keeps the bytes of an unfinished sequence ([pending]) and walks an
    index over the concatenation.  The model keeps that loop, iteration by
    iteration, and proves that it always ends, that it refines a
    byte-at-a-time automaton (so the way the relay cuts the stream into chunks
    does not matter), and that on streams of complete sequences the bit is what
    the sequences say. *)
From stdpp Require Import base list numbers.
From S2P Require Import Prelude.
Local Open Scope Z_scope.

(** ** The scanner *)

Definition ALT_MODES : list Z := [47; 1047; 1049].
Definition MAX_PENDING : nat := 256.

(** [enum State]. *)
Inductive State : Type :=
| Ground | Escape | EscapeIntermediate | Csi | Osc | StringEscape | StringUntilSt.
#[export] Instance State_eq_dec : EqDecision State.
Proof. solve_decision. Defined.

(** [struct AltScreenScanner]. *)
Record Scanner : Type := mkScanner {
  alt : bool;
  state : State;
  csi_params : list Z;
  pending : list Z;
  seq_start : nat;
}.

(** [AltScreenScanner::new] and [alt_screen]. *)
Definition scanner_new : Scanner := mkScanner false Ground [] [] 0.
Definition alt_screen (s : Scanner) : bool := alt s.

Definition ESC : Z := 27.
Definition BEL : Z := 7.
Definition in_range (lo hi b : Z) : bool := (lo <=? b) && (b <=? hi).

(** [text.trim().parse::<u16>()] on a slice of the parameter field.  The field
    holds bytes [0x30..0x3f] only, so the lossy decoding is the identity and
    only the ASCII part of [trim] could apply. *)
Definition is_space (b : Z) : bool := in_range 9 13 b || (b =? 32).
Fixpoint trim_start (l : list Z) : list Z :=
  match l with
  | [] => []
  | b :: l' => if is_space b then trim_start l' else l
  end.
Definition trim (l : list Z) : list Z := reverse (trim_start (reverse (trim_start l))).
Fixpoint parse_digits (acc : Z) (l : list Z) : option Z :=
  match l with
  | [] => Some acc
  | b :: l' =>
      if in_range 48 57 b then
        let acc' := acc * 10 + (b - 48) in
        if (acc' <=? 65535) then parse_digits acc' l' else None
      else None
  end.
Definition parse_u16 (l : list Z) : option Z :=
  match l with
  | [] => None
  | 43 :: l' => match l' with [] => None | _ => parse_digits 0 l' end
  | _ => parse_digits 0 l
  end.

(** [AltScreenScanner::apply_csi]: the new value of [alt]. *)
Definition is_alt_mode (raw : list Z) : bool :=
  match parse_u16 (trim raw) with
  | Some mode => bool_decide (mode ∈ ALT_MODES)
  | None => false
  end.
Definition apply_csi (params : list Z) (final_byte : Z) (a : bool) : bool :=
  match (if final_byte =? 104 then Some true else if final_byte =? 108 then Some false else None) with
  | None => a
  | Some set =>
      match params with
      | 63 :: rest =>
          foldl (λ a raw, if is_alt_mode raw then set else a) a
            (split_on (λ b, (b =? 59) || (b =? 58)) rest)
      | _ => a
      end
  end.

Definition with_state (q : State) (s : Scanner) : Scanner :=
  mkScanner (alt s) q (csi_params s) (pending s) (seq_start s).
Definition with_start (k : nat) (s : Scanner) : Scanner :=
  mkScanner (alt s) (state s) (csi_params s) (pending s) k.
Definition with_params (l : list Z) (s : Scanner) : Scanner :=
  mkScanner (alt s) (state s) l (pending s) (seq_start s).
Definition with_alt (a : bool) (s : Scanner) : Scanner :=
  mkScanner a (state s) (csi_params s) (pending s) (seq_start s).

(** The [match self.state] of one loop iteration. *)
Definition scan_match (s : Scanner) (i : nat) (b : Z) : Scanner * nat :=
  match state s with
  | Ground => (if b =? ESC then with_state Escape (with_start i s) else s, S i)
  | Escape =>
      if b =? 91 then (with_params [] (with_state Csi s), S i)
      else if b =? 93 then (with_state Osc s, S i)
      else if (b =? 80) || (b =? 95) || (b =? 94) || (b =? 88) then (with_state StringUntilSt s, S i)
      else if b =? 99 then (with_state Ground (with_alt false s), S i)
      else if in_range 32 47 b then (with_state EscapeIntermediate s, S i)
      else if b =? ESC then (with_start i s, S i)
      else (with_state Ground s, S i)
  | EscapeIntermediate => (with_state Ground s, S i)
  | Csi =>
      if in_range 48 63 b then
        (if decide (length (csi_params s) < MAX_PENDING)%nat
         then with_params (csi_params s ++ [b]) s else s, S i)
      else if in_range 32 47 b then (s, S i)
      else if in_range 0 31 b || (b =? 127) then (s, S i)
      else (with_state Ground (with_alt (apply_csi (csi_params s) b (alt s)) s), S i)
  | Osc =>
      if b =? BEL then (with_state Ground s, S i)
      else if b =? ESC then (with_state StringEscape s, S i)
      else (s, S i)
  | StringUntilSt => if b =? ESC then (with_state StringEscape s, S i) else (s, S i)
  | StringEscape =>
      if b =? 92 then (with_state Ground s, S i)
      else if b =? ESC then (with_start i s, S i)
      else (with_state Escape (with_start (i - 1) s), i)
  end.

(** The resynchronisation test that ends an iteration. *)
Definition resync (s : Scanner) (i : nat) : Scanner :=
  if decide (state s ≠ Ground ∧ (MAX_PENDING < i - seq_start s)%nat)
  then with_params [] (with_state Ground s) else s.
Definition scan_step (s : Scanner) (i : nat) (b : Z) : Scanner * nat :=
  let '(s', i') := scan_match s i b in (resync s' i', i').

(** [while i < self.pending.len()]; [None] when the fuel runs out. *)
Fixpoint scan_loop (fuel : nat) (s : Scanner) (i : nat) : option Scanner :=
  match pending s !! i with
  | None => Some s
  | Some b =>
      match fuel with
      | O => None
      | S fuel' => let '(s', i') := scan_step s i b in scan_loop fuel' s' i'
      end
  end.

(** [AltScreenScanner::feed]: two iterations per new byte are enough. *)
Definition feed (s : Scanner) (bytes : list Z) : option (Scanner * option bool) :=
  match bytes with
  | [] => Some (s, None)
  | _ =>
      let before := alt s in
      let carried := length (pending s) in
      let s0 := mkScanner (alt s) (state s) (csi_params s) (pending s ++ bytes) 0 in
      s1 ← scan_loop (2 * length bytes + 1) s0 carried;
      let s2 := mkScanner (alt s1) (state s1) (csi_params s1)
                  (if decide (state s1 = Ground) then [] else drop (seq_start s1) (pending s1))
                  (seq_start s1) in
      Some (s2, if bool_decide (alt s2 = before) then None else Some (alt s2))
  end.

(** Feed a list of chunks. *)
Fixpoint feed_all (s : Scanner) (chunks : list (list Z)) : option Scanner :=
  match chunks with
  | [] => Some s
  | c :: cs => r ← feed s c; feed_all r.1 cs
  end.

(** ** The reference automaton

    One transition per byte; [a_dist] counts the bytes since the opening ESC. *)

Record Auto : Type := mkAuto {
  a_alt : bool;
  a_state : State;
  a_params : list Z;
  a_dist : nat;
}.

(** Bound the sequence; [Ground] has no distance. *)
Definition settle (a : bool) (q : State) (ps : list Z) (d : nat) : Auto :=
  if decide (q = Ground) then mkAuto a Ground ps 0
  else if decide (MAX_PENDING < d)%nat then mkAuto a Ground [] 0
  else mkAuto a q ps d.

Definition escape_step (a : bool) (ps : list Z) (d : nat) (b : Z) : Auto :=
  if b =? 91 then settle a Csi [] (S d)
  else if b =? 93 then settle a Osc ps (S d)
  else if (b =? 80) || (b =? 95) || (b =? 94) || (b =? 88) then settle a StringUntilSt ps (S d)
  else if b =? 99 then settle false Ground ps (S d)
  else if in_range 32 47 b then settle a EscapeIntermediate ps (S d)
  else if b =? ESC then settle a Escape ps 1
  else settle a Ground ps (S d).

Definition auto_step (x : Auto) (b : Z) : Auto :=
  let '(mkAuto a q ps d) := x in
  match q with
  | Ground => if b =? ESC then settle a Escape ps 1 else x
  | Escape => escape_step a ps d b
  | EscapeIntermediate => settle a Ground ps (S d)
  | Csi =>
      if in_range 48 63 b then
        settle a Csi (if decide (length ps < MAX_PENDING)%nat then ps ++ [b] else ps) (S d)
      else if in_range 0 47 b || (b =? 127) then settle a Csi ps (S d)
      else settle (apply_csi ps b a) Ground ps (S d)
  | Osc => if b =? BEL then settle a Ground ps (S d)
           else settle a (if b =? ESC then StringEscape else Osc) ps (S d)
  | StringUntilSt => settle a (if b =? ESC then StringEscape else StringUntilSt) ps (S d)
  | StringEscape =>
      if b =? 92 then settle a Ground ps (S d)
      else if b =? ESC then settle a StringEscape ps 1
      else escape_step a ps 1 b
  end.
Definition auto_run (x : Auto) (bytes : list Z) : Auto := foldl auto_step x bytes.

(** The automaton's view of a scanner between two chunks. *)
Definition abs (s : Scanner) : Auto :=
  mkAuto (alt s) (state s) (csi_params s)
    (if decide (state s = Ground) then 0%nat else length (pending s)).

(** The view in the middle of the loop, at index [i]. *)
Definition abs_at (s : Scanner) (i : nat) : Auto :=
  mkAuto (alt s) (state s) (csi_params s)
    (if decide (state s = Ground) then 0%nat else (i - seq_start s)%nat).

(** ** The loop refines the automaton *)

(** In the middle of a sequence the opening ESC is behind the index. *)
Definition opened (s : Scanner) (i : nat) : Prop := state s ≠ Ground → (seq_start s < i)%nat.

(** Closing an iteration is [settle]. *)
Lemma resync_settle s i :
  abs_at (resync s i) i = settle (alt s) (state s) (csi_params s) (i - seq_start s) ∧
  pending (resync s i) = pending s ∧ (opened s i → opened (resync s i) i).
Proof.
  unfold resync, settle, abs_at, opened.
  destruct (decide (state s ≠ Ground ∧ _)) as [[Hg Hd]|Hn]; simpl.
  - rewrite decide_False, (decide_True (P := (_ < _)%nat)) by done. done.
  - destruct (decide (state s = Ground)) as [->|Hg]; [done|].
    rewrite (decide_False (P := (_ < _)%nat)) by tauto. done.
Qed.

Ltac case_byte :=
  repeat match goal with
  | |- context [if ?c then _ else _] =>
      match type of c with bool => destruct c eqn:? end
  end.

Ltac close_step i k :=
  simplify_eq/=; split_and!; try done; try (intros; lia);
  try (replace (S i - i)%nat with 1%nat by lia); try (replace (S i - k)%nat with (S (i - k)) by lia);
  try done.

(** An iteration that advances is one transition of the automaton. *)
Lemma scan_step_advance s i b :
  opened s i → (state s = StringEscape → b = 92 ∨ b = ESC) →
  let '(s', i') := scan_step s i b in
  i' = S i ∧ abs_at s' (S i) = auto_step (abs_at s i) b ∧ pending s' = pending s ∧ opened s' (S i).
Proof.
  intros Hop Hse. unfold scan_step.
  destruct (scan_match s i b) as [s1 i1] eqn:Hm.
  assert (i1 = S i ∧ pending s1 = pending s ∧ opened s1 (S i) ∧
    settle (alt s1) (state s1) (csi_params s1) (S i - seq_start s1) = auto_step (abs_at s i) b)
    as (-> & Hp & Ho & Hs).
  { destruct s as [a q ps pd k]. unfold opened, scan_match, abs_at in *. simpl in *.
    unfold escape_step, with_params, with_state, with_start, with_alt in *.
    destruct q; simpl in *; rewrite ?Z.eqb_refl in *; try (specialize (Hop ltac:(done))).
    - revert Hm. case_byte; intros; close_step i k.
    - revert Hm. case_byte; intros; close_step i k.
    - simplify_eq/=. close_step i k.
    - replace (in_range 0 47 b) with (in_range 32 47 b || in_range 0 31 b)
        by (unfold in_range; zbool; simpl; lia).
      revert Hm. destruct (in_range 48 63 b); [|destruct (in_range 32 47 b),
        (in_range 0 31 b), (b =? 127)]; intros; simpl in *; try case_decide; close_step i k.
    - revert Hm. case_byte; intros; close_step i k.
    - destruct (Hse eq_refl); subst; simpl in *; close_step i k.
    - revert Hm. case_byte; intros; close_step i k. }
  destruct (resync_settle s1 (S i)) as (H1 & H2 & H3).
  split_and!; [done|by rewrite H1|by rewrite H2|by apply H3].
Qed.

(** The iteration that does not advance hands the byte to [Escape]. *)
Lemma scan_step_reprocess s i b :
  opened s i → state s = StringEscape → b ≠ 92 → b ≠ ESC →
  scan_step s i b = (with_state Escape (with_start (i - 1) s), i) ∧
  auto_step (abs_at s i) b = auto_step (abs_at (with_state Escape (with_start (i - 1) s)) i) b ∧
  opened (with_state Escape (with_start (i - 1) s)) i.
Proof.
  intros Hop Hs H92 Hesc. destruct s as [a q ps pd k]. simpl in *. subst q.
  unfold scan_step, scan_match, resync, opened, abs_at in *. simpl in *.
  specialize (Hop ltac:(done)).
  replace (b =? 92) with false by lia. replace (b =? ESC) with false by lia. simpl.
  rewrite (decide_False (P := _ ∧ _)) by (unfold MAX_PENDING; lia).
  by replace (i - (i - 1))%nat with 1%nat by lia; split_and!; [..|lia].
Qed.

Lemma scan_loop_S fuel s i b :
  pending s !! i = Some b →
  scan_loop (S fuel) s i = let '(s', i') := scan_step s i b in scan_loop fuel s' i'.
Proof. intros Hb. simpl. by rewrite Hb. Qed.

(** The loop over the rest of the buffer: it ends, and it runs the automaton. *)
Lemma scan_loop_spec rest : ∀ fuel s i,
  drop i (pending s) = rest → opened s i → (2 * length rest ≤ fuel)%nat →
  (i ≤ length (pending s))%nat →
  ∃ s', scan_loop fuel s i = Some s' ∧ pending s' = pending s ∧
    abs_at s' (length (pending s)) = auto_run (abs_at s i) rest ∧ opened s' (length (pending s)).
Proof.
  induction rest as [|b rest IH]; intros fuel s i Hrest Hop Hfuel Hi.
  { assert (length (pending s) ≤ i)%nat as Hge
      by (apply (f_equal length) in Hrest; rewrite length_drop in Hrest; simpl in *; lia).
    assert (i = length (pending s)) as -> by lia.
    exists s. destruct fuel; simpl; rewrite lookup_ge_None_2 by lia; done. }
  assert (pending s !! i = Some b) as Hb
    by (rewrite <-(Nat.add_0_r i), <-lookup_drop, Hrest; done).
  assert (drop (S i) (pending s) = rest) as Hrest'
    by (replace (S i) with (i + 1)%nat by lia; by rewrite <-drop_drop, Hrest).
  pose proof (lookup_lt_Some _ _ _ Hb) as Hlt. simpl in Hfuel.
  destruct fuel as [|[|fuel]]; [lia|lia|]. rewrite (scan_loop_S _ s i b Hb).
  destruct (decide (state s = StringEscape ∧ b ≠ 92 ∧ b ≠ ESC)) as [(Hs & H92 & Hesc)|Hno].
  - destruct (scan_step_reprocess s i b Hop Hs H92 Hesc) as (-> & Hauto & Hop1).
    set (s1 := with_state Escape (with_start (i - 1) s)) in *.
    rewrite (scan_loop_S fuel s1 i b Hb).
    pose proof (scan_step_advance s1 i b Hop1 ltac:(done)) as Hadv.
    destruct (scan_step s1 i b) as [s2 i2]. destruct Hadv as (-> & Habs & Hp & Hop2).
    change (pending s1) with (pending s) in Hp.
    destruct (IH fuel s2 (S i)) as (s' & Hrun & Hp' & Ha & Ho); [by rewrite Hp|done|lia|rewrite Hp; lia|].
    exists s'. rewrite Hp in *. split_and!; [done..| |done]. rewrite Ha, Habs, <-Hauto. done.
  - pose proof (scan_step_advance s i b Hop) as Hadv.
    destruct (scan_step s i b) as [s2 i2]. destruct Hadv as (-> & Habs & Hp & Hop2).
    { intros Hs. destruct (decide (b = 92)), (decide (b = ESC)); tauto. }
    destruct (IH (S fuel) s2 (S i)) as (s' & Hrun & Hp' & Ha & Ho);
      [by rewrite Hp|done|lia|rewrite Hp; lia|].
    exists s'. rewrite Hp in *. split_and!; [done..| |done]. rewrite Ha, Habs. done.
Qed.

(** What holds of a scanner between two chunks. *)
Definition scanner_wf (s : Scanner) : Prop := state s ≠ Ground → pending s ≠ [].

Lemma scanner_new_wf : scanner_wf scanner_new.
Proof. by intros []. Qed.

Lemma feed_spec s bytes :
  scanner_wf s →
  ∃ s', feed s bytes = Some (s', if bool_decide (alt s' = alt s) then None else Some (alt s')) ∧
    scanner_wf s' ∧ abs s' = auto_run (abs s) bytes.
Proof.
  intros W. destruct bytes as [|b bytes].
  { exists s. rewrite bool_decide_true by done. split_and!; done. }
  set (s0 := mkScanner (alt s) (state s) (csi_params s) (pending s ++ b :: bytes) 0).
  destruct (scan_loop_spec (b :: bytes) (2 * length (b :: bytes) + 1) s0 (length (pending s)))
    as (s1 & Hrun & Hp & Ha & Ho).
  { simpl. by rewrite drop_app_length. }
  { intros Hg. simpl in *. specialize (W Hg). destruct (pending s); simpl; [done|lia]. }
  { lia. }
  { simpl. rewrite length_app. lia. }
  change (abs_at s0 (length (pending s))) with (mkAuto (alt s) (state s) (csi_params s)
    (if decide (state s = Ground) then 0%nat else (length (pending s) - 0)%nat)) in Ha.
  rewrite Nat.sub_0_r in Ha. fold (abs s) in Ha.
  exists (mkScanner (alt s1) (state s1) (csi_params s1)
    (if decide (state s1 = Ground) then [] else drop (seq_start s1) (pending s1)) (seq_start s1)).
  unfold feed. fold s0. rewrite Hrun. split; [done|]. rewrite <-Ha, Hp.
  unfold abs, abs_at, scanner_wf, opened in *. simpl in *. split.
  - destruct (decide (state s1 = Ground)); [done|]. intros Hg Hd. specialize (Ho Hg).
    apply (f_equal length) in Hd. rewrite length_drop in Hd. simpl in *. lia.
  - destruct (decide (state s1 = Ground)) as [Hg|Hg]; simpl; [done|]. by rewrite length_drop.
Qed.

Lemma feed_all_spec chunks s :
  scanner_wf s → ∃ s', feed_all s chunks = Some s' ∧ scanner_wf s' ∧
    abs s' = auto_run (abs s) (concat chunks).
Proof.
  revert s. induction chunks as [|c chunks IH]; intros s W; [by exists s|]. simpl.
  destruct (feed_spec s c W) as (s1 & -> & W1 & Ha1). simpl.
  destruct (IH s1 W1) as (s2 & -> & W2 & Ha2). exists s2. split_and!; [done..|].
  unfold auto_run in *. by rewrite foldl_app, Ha2, Ha1.
Qed.

(** The scanner always finishes a chunk, and how the relay cuts the byte
    stream does not matter: two ways of splitting the same bytes leave the
    scanner with the same screen bit, the same parser state, the same collected
    parameters and the same number of carried bytes. *)
Theorem alt_screen_is_independent_of_chunking chunks1 chunks2 :
  concat chunks1 = concat chunks2 →
  ∃ s1 s2, feed_all scanner_new chunks1 = Some s1 ∧ feed_all scanner_new chunks2 = Some s2 ∧
    alt_screen s1 = alt_screen s2 ∧ state s1 = state s2 ∧ csi_params s1 = csi_params s2 ∧
    (state s1 ≠ Ground → length (pending s1) = length (pending s2)).
Proof.
  intros Heq. destruct (feed_all_spec chunks1 scanner_new scanner_new_wf) as (s1 & H1 & _ & Ha1).
  destruct (feed_all_spec chunks2 scanner_new scanner_new_wf) as (s2 & H2 & _ & Ha2).
  exists s1, s2. rewrite Heq, <-Ha2 in Ha1. unfold abs, alt_screen in *.
  injection Ha1 as Halt Hstate Hps Hd. split_and!; try done. intros Hg.
  rewrite Hstate, !decide_False in Hd by congruence. done.
Qed.

(** [feed] refines the automaton: it terminates on every chunk, runs the
    automaton over exactly the new bytes, and reports a value exactly when the
    screen bit at the end of the chunk differs from the one at its start. *)
Theorem feed_refines_the_automaton s bytes :
  scanner_wf s →
  ∃ s' r, feed s bytes = Some (s', r) ∧ scanner_wf s' ∧ abs s' = auto_run (abs s) bytes ∧
    r = if bool_decide (alt s' = alt s) then None else Some (alt s').
Proof. intros W. destruct (feed_spec s bytes W) as (s' & H & W' & Ha). eauto 10. Qed.

(** ** What complete sequences do *)

(** A stream made of plain text, control sequences, resets and titles. *)
Inductive item : Type :=
| Text (bs : list Z)
| CsiSeq (ps : list Z) (final : Z)
| Ris
| OscSeq (body : list Z) (st : bool).

Definition render (x : item) : list Z :=
  match x with
  | Text bs => bs
  | CsiSeq ps f => ESC :: 91 :: ps ++ [f]
  | Ris => [ESC; 99]
  | OscSeq body st => ESC :: 93 :: body ++ (if st then [ESC; 92] else [BEL])
  end.

(** What the item does to the screen bit. *)
Definition item_alt (a : bool) (x : item) : bool :=
  match x with
  | Text _ | OscSeq _ _ => a
  | CsiSeq ps f => apply_csi ps f a
  | Ris => false
  end.

(** Text has no ESC, a control sequence has parameter bytes and a final byte, a
    title has neither ESC nor BEL, and both fit the scanner's bound. *)
Definition plain (b : Z) : Prop := b ≠ ESC ∧ b ≠ BEL.
Definition item_ok (x : item) : Prop :=
  match x with
  | Text bs => Forall (λ b, b ≠ ESC) bs
  | CsiSeq ps f => Forall (λ b, in_range 48 63 b = true) ps ∧ in_range 64 126 f = true ∧
                   (length ps ≤ 254)%nat
  | Ris => True
  | OscSeq body st => Forall plain body ∧ (length body ≤ 253)%nat
  end.

Lemma auto_run_app x l k : auto_run x (l ++ k) = auto_run (auto_run x l) k.
Proof. apply foldl_app. Qed.

Lemma settle_open a q ps d : q ≠ Ground → (d ≤ 256)%nat → settle a q ps d = mkAuto a q ps d.
Proof.
  intros Hq Hd. unfold settle. rewrite decide_False by done.
  rewrite decide_False; [done|]. unfold MAX_PENDING. lia.
Qed.

Lemma run_text a ps bs :
  Forall (λ b, b ≠ ESC) bs → auto_run (mkAuto a Ground ps 0) bs = mkAuto a Ground ps 0.
Proof.
  induction 1 as [|b bs Hb _ IH]; [done|]. simpl.
  replace (b =? ESC) with false by lia. exact IH.
Qed.

Lemma run_params a ps ps' d :
  Forall (λ b, in_range 48 63 b = true) ps' → (d + length ps' ≤ 256)%nat →
  (length ps + length ps' ≤ 256)%nat →
  auto_run (mkAuto a Csi ps d) ps' = mkAuto a Csi (ps ++ ps') (d + length ps').
Proof.
  intros Hps. revert ps d. induction Hps as [|b ps' Hb _ IH]; intros ps d Hd Hl; simpl in *.
  - by rewrite app_nil_r, Nat.add_0_r.
  - rewrite Hb, decide_True by (unfold MAX_PENDING; lia). rewrite settle_open by (done || lia).
    fold (auto_run (mkAuto a Csi (ps ++ [b]) (S d)) ps').
    rewrite IH by (rewrite ?length_app; simpl; lia). rewrite <-app_assoc. f_equal. lia.
Qed.

Lemma run_osc a ps body d :
  Forall plain body → (d + length body ≤ 256)%nat →
  auto_run (mkAuto a Osc ps d) body = mkAuto a Osc ps (d + length body).
Proof.
  intros Hb. revert d. induction Hb as [|b body [Hesc Hbel] _ IH]; intros d Hd; simpl in *.
  - by rewrite Nat.add_0_r.
  - replace (b =? BEL) with false by lia. replace (b =? ESC) with false by lia.
    rewrite settle_open by (done || lia). fold (auto_run (mkAuto a Osc ps (S d)) body).
    rewrite IH by lia. f_equal. lia.
Qed.

Lemma run_item a ps x :
  item_ok x → ∃ ps', auto_run (mkAuto a Ground ps 0) (render x) = mkAuto (item_alt a x) Ground ps' 0.
Proof.
  destruct x as [bs|qs f| |body st]; simpl; intros Hok.
  - exists ps. by apply run_text.
  - destruct Hok as (Hqs & Hf & Hl). exists qs.
    change (auto_run (mkAuto a Csi [] 2) (qs ++ [f]) = mkAuto (apply_csi qs f a) Ground qs 0).
    rewrite auto_run_app, run_params by (done || (simpl; lia)). simpl.
    unfold in_range in *. apply andb_true_iff in Hf as [H1 H2]. zhyps.
    replace (48 <=? f) with true by lia. replace (f <=? 63) with false by lia.
    replace (f <=? 47) with false by lia. replace (f =? 127) with false by lia.
    by rewrite !andb_false_r.
  - by exists ps.
  - destruct Hok as (Hb & Hl). exists ps.
    change (auto_run (mkAuto a Osc ps 2) (body ++ (if st then [ESC; 92] else [BEL]))
      = mkAuto a Ground ps 0).
    rewrite auto_run_app, run_osc by (done || lia). destruct st; [|done]. simpl.
    by rewrite settle_open by (done || lia).
Qed.

Lemma run_items items a ps :
  Forall item_ok items →
  ∃ ps', auto_run (mkAuto a Ground ps 0) (concat (render <$> items))
    = mkAuto (foldl item_alt a items) Ground ps' 0.
Proof.
  intros Hok. revert a ps. induction Hok as [|x items Hx _ IH]; intros a ps; [by exists ps|].
  simpl. rewrite auto_run_app. destruct (run_item a ps x Hx) as (ps' & ->). apply IH.
Qed.

(** On a stream of plain text, complete control sequences, resets and
    titles, cut into chunks in any way, the scanner ends in the ground state
    with nothing carried, and the screen bit is what the sequences say in
    order: DECSET/DECRST of an alternate-screen mode sets or clears it, a reset
    clears it, everything else leaves it. *)
Theorem alt_screen_follows_the_sequences items chunks :
  Forall item_ok items → concat chunks = concat (render <$> items) →
  ∃ s, feed_all scanner_new chunks = Some s ∧ state s = Ground ∧
    alt_screen s = foldl item_alt false items.
Proof.
  intros Hok Heq. destruct (feed_all_spec chunks scanner_new scanner_new_wf) as (s & Hs & _ & Ha).
  rewrite Heq in Ha. destruct (run_items items false [] Hok) as (ps' & Hrun).
  change (abs scanner_new) with (mkAuto false Ground [] 0) in Ha. rewrite Hrun in Ha.
  exists s. unfold abs in Ha. by injection Ha.
Qed.

(** Resynchronising loses an ESC: when an unterminated title reaches the
    bound exactly at the ESC that opens the next sequence, the scanner falls
    back to the ground state after that ESC was consumed, so the following
    [ESC [ ? 1049 h] is read as text and the alternate screen is missed. *)
Theorem resync_swallows_the_escape body :
  Forall plain body → length body = 254%nat →
  ∃ s, feed_all scanner_new [ESC :: 93 :: body ++ render (CsiSeq [63; 49; 48; 52; 57] 104)] = Some s ∧
    state s = Ground ∧ alt_screen s = false.
Proof.
  intros Hb Hl.
  destruct (feed_all_spec [ESC :: 93 :: body ++ render (CsiSeq [63; 49; 48; 52; 57] 104)]
    scanner_new scanner_new_wf) as (s & Hs & _ & Ha). exists s. split; [done|].
  simpl concat in Ha. rewrite app_nil_r in Ha.
  change (abs s = auto_run (mkAuto false Osc [] 2)
    (body ++ [ESC; 91; 63; 49; 48; 52; 57; 104])) in Ha.
  rewrite auto_run_app, run_osc in Ha by (done || lia). rewrite Hl in Ha.
  change (a_state (abs s) = Ground ∧ a_alt (abs s) = false). rewrite Ha. clear. vm_compute. split; reflexivity.
Qed.

(** ** Witnesses *)

Definition w_items : list item :=
  [Text [104; 105]; OscSeq [50; 59; 120] true; CsiSeq [63; 49; 48; 52; 57; 59; 50; 53] 104].
Definition w_stream : list Z := concat (render <$> w_items).
Definition w_chunks : list (list Z) := [take 4 w_stream; take 3 (drop 4 w_stream); drop 7 w_stream].

Lemma chunking_witness :
  ∃ s1 s2, feed_all scanner_new w_chunks = Some s1 ∧ feed_all scanner_new [w_stream] = Some s2 ∧
    alt_screen s1 = alt_screen s2 ∧ state s1 = state s2 ∧ csi_params s1 = csi_params s2 ∧
    (state s1 ≠ Ground → length (pending s1) = length (pending s2)).
Proof. apply (alt_screen_is_independent_of_chunking w_chunks [w_stream]). vm_compute. reflexivity. Defined.

Lemma refines_witness :
  ∃ s' r, feed scanner_new w_stream = Some (s', r) ∧ scanner_wf s' ∧
    abs s' = auto_run (abs scanner_new) w_stream ∧
    r = if bool_decide (alt s' = alt scanner_new) then None else Some (alt s').
Proof. apply (feed_refines_the_automaton scanner_new w_stream). apply scanner_new_wf. Defined.

Lemma sequences_witness :
  ∃ s, feed_all scanner_new w_chunks = Some s ∧ state s = Ground ∧ alt_screen s = true.
Proof.
  apply (alt_screen_follows_the_sequences w_items w_chunks).
  - repeat constructor; vm_compute; congruence || lia || done.
  - vm_compute. reflexivity.
Defined.

Lemma resync_witness :
  ∃ s, feed_all scanner_new [ESC :: 93 :: replicate 254 97 ++ render (CsiSeq [63; 49; 48; 52; 57] 104)]
    = Some s ∧ state s = Ground ∧ alt_screen s = false.
Proof.
  apply (resync_swallows_the_escape (replicate 254 97)).
  - apply Forall_replicate. split; vm_compute; discriminate.
  - reflexivity.
Defined.
