(* ===== verification/BinaryFrame.v ===== *)
(** * TTY/object binary framing: [remuda-protocol/src/binary.rs]

    A [tty-binary-v1] frame is a 32-byte header (version, channel, two zero
    bytes, the 16 bytes of the stream's UUIDv7, a big-endian [u64] offset, a
    big-endian [u32] payload length) followed by the payload.  The [uuid] crate
    is a parameter: its textual form, its parser and its two classification
    functions.  The theorems say that decoding inverts encoding, that every
    accepted frame is the encoding of what was decoded, and when each error is
    returned. *)
From Stdlib Require Import Ascii.
From Stdlib Require String.
From stdpp Require Import base list strings numbers.
From S2P Require Import Prelude.
Local Open Scope Z_scope.
Local Open Scope remuda_scope.

Definition BINARY_HEADER_LEN : nat := 32.

(** [enum BinaryChannel] and its [repr(u8)] values. *)
Inductive BinaryChannel : Type := TtyOutput | ObjectChunk | TtyInput.
#[export] Instance BinaryChannel_eq_dec : EqDecision BinaryChannel.
Proof. solve_decision. Defined.
Definition channel_byte (c : BinaryChannel) : Z :=
  match c with TtyOutput => 1 | ObjectChunk => 2 | TtyInput => 3 end.
Definition channel_of_byte (b : Z) : option BinaryChannel :=
  if b =? 1 then Some TtyOutput else if b =? 2 then Some ObjectChunk
  else if b =? 3 then Some TtyInput else None.

(** [enum BinaryFrameError]. *)
Inductive BinaryFrameError : Type :=
| Truncated | UnsupportedHeader | InvalidStream | LengthMismatch | PayloadLimit | OffsetOverflow.

(** [StreamUuid]: the 16 bytes of the UUID. *)
Record StreamUuid : Type := mkStream { stream_bytes : list Z }.

(** [struct BinaryHeader]. *)
Record BinaryHeader : Type := mkHeader {
  channel : BinaryChannel;
  stream_uuid : StreamUuid;
  offset : Z;
  payload_length : Z;
}.

(** [to_be_bytes] of a [w]-byte integer and [from_be_bytes]. *)
Fixpoint to_be_bytes (w : nat) (z : Z) : list Z :=
  match w with
  | O => []
  | S w' => to_be_bytes w' (z / 256) ++ [z `mod` 256]
  end.
Definition from_be_bytes (l : list Z) : Z := foldl (λ acc b, acc * 256 + b) 0 l.

Definition is_byte (b : Z) : Prop := 0 ≤ b < 256.

Section Uuid.
(** [Uuid::to_string], [Uuid::parse_str], [get_version_num] and
    [get_variant() == RFC4122]. *)
Variable uuid_to_string : list Z → string.
Variable uuid_parse : string → option (list Z).
Variable uuid_version : list Z → Z.
Variable uuid_rfc4122 : list Z → bool.

(** [StreamUuid::try_from(String)]. *)
Definition stream_try_from (value : string) : result StreamUuid string :=
  match uuid_parse value with
  | None => Err "invalid stream UUID"%string
  | Some u =>
      if negb (uuid_version u =? 7) || negb (uuid_rfc4122 u) ||
         negb (bool_decide (uuid_to_string u = value))
      then Err "stream requires canonical UUIDv7"%string
      else Ok (mkStream u)
  end.

(** [split_once('_')]: what follows the first underscore. *)
Fixpoint after_underscore (s : string) : option string :=
  match s with
  | EmptyString => None
  | String c r => if decide (c = "_"%char) then Some r else after_underscore r
  end.
(** [StreamUuid::from_prefixed_id]. *)
Definition from_prefixed_id (id : string) : result StreamUuid BinaryFrameError :=
  match stream_try_from (default id (after_underscore id)) with
  | Ok u => Ok u
  | Err _ => Err InvalidStream
  end.

(** [BinaryHeader::encode]. *)
Definition encode (h : BinaryHeader) : result (list Z) BinaryFrameError :=
  let? _ := ok_or (checked_add64 (offset h) (payload_length h)) OffsetOverflow in
  Ok ([1; channel_byte (channel h); 0; 0] ++ stream_bytes (stream_uuid h)
      ++ to_be_bytes 8 (offset h) ++ to_be_bytes 4 (payload_length h)).

(** [BinaryHeader::encode_frame]. *)
Definition encode_frame (h : BinaryHeader) (payload : list Z) : result (list Z) BinaryFrameError :=
  if negb (Z.of_nat (length payload) =? payload_length h) then Err LengthMismatch
  else let? header := encode h in Ok (header ++ payload).

(** [encode_binary_frame]. *)
Definition encode_binary_frame (c : BinaryChannel) (u : StreamUuid) (off : Z) (payload : list Z)
    : result (list Z) BinaryFrameError :=
  let? len := if Z.of_nat (length payload) <=? u32_max
              then Ok (Z.of_nat (length payload)) else Err PayloadLimit in
  encode_frame (mkHeader c u off len) payload.

(** [slice[i..j]] and [slice[i]] inside the fixed prefix. *)
Definition sub_bytes (i j : nat) (l : list Z) : list Z := take (j - i) (drop i l).
Definition byte_at (i : nat) (l : list Z) : Z := default 0 (l !! i).

(** [decode_binary_frame]. *)
Definition decode_binary_frame (frame : list Z) (max_payload : Z)
    : result (BinaryHeader * list Z) BinaryFrameError :=
  let? prefix := ok_or (get_range 0 BINARY_HEADER_LEN frame) Truncated in
  if negb (byte_at 0 prefix =? 1) || negb (byte_at 2 prefix =? 0) || negb (byte_at 3 prefix =? 0)
  then Err UnsupportedHeader
  else
  let? c := ok_or (channel_of_byte (byte_at 1 prefix)) UnsupportedHeader in
  let uuid := sub_bytes 4 20 prefix in
  let? u := match stream_try_from (uuid_to_string uuid) with
            | Ok u => Ok u
            | Err _ => Err InvalidStream
            end in
  let off := from_be_bytes (sub_bytes 20 28 prefix) in
  let len := from_be_bytes (sub_bytes 28 32 prefix) in
  if max_payload <? len then Err PayloadLimit
  else
  let payload := drop BINARY_HEADER_LEN frame in
  if negb (Z.of_nat (length payload) =? len) then Err LengthMismatch
  else
  let? _ := ok_or (checked_add64 off len) OffsetOverflow in
  Ok (mkHeader c u off len, payload).

(** ** Lemmas *)

Lemma length_be w z : length (to_be_bytes w z) = w.
Proof. revert z. induction w as [|w IH]; intros z; simpl; [done|]. rewrite length_app, IH. simpl. lia. Qed.

Lemma be_round_trip w z :
  0 ≤ z < 256 ^ Z.of_nat w → from_be_bytes (to_be_bytes w z) = z.
Proof.
  revert z. induction w as [|w IH]; intros z Hz; simpl.
  - change (256 ^ Z.of_nat 0) with 1 in Hz. unfold from_be_bytes. simpl. lia.
  - unfold from_be_bytes in *. rewrite foldl_app. simpl. rewrite IH.
    + pose proof (Z.div_mod z 256). lia.
    + rewrite Nat2Z.inj_succ, Z.pow_succ_r in Hz by lia. split; [apply Z.div_pos; lia|].
      apply Z.div_lt_upper_bound; lia.
Qed.

Lemma from_be_snoc l b : from_be_bytes (l ++ [b]) = from_be_bytes l * 256 + b.
Proof. unfold from_be_bytes. by rewrite foldl_app. Qed.

Lemma from_be_bounds l : Forall is_byte l → 0 ≤ from_be_bytes l < 256 ^ Z.of_nat (length l).
Proof.
  induction l as [|b l IH] using rev_ind; intros Hl; [done|].
  apply Forall_app in Hl as [Hl Hb]. apply Forall_cons_1 in Hb as [Hb _].
  specialize (IH Hl). rewrite from_be_snoc, length_app, Nat2Z.inj_add, Z.pow_add_r by lia.
  change (256 ^ Z.of_nat (length [b])) with 256. unfold is_byte in Hb. nia.
Qed.

Lemma be_bytes_of_value l :
  Forall is_byte l → to_be_bytes (length l) (from_be_bytes l) = l.
Proof.
  induction l as [|b l IH] using rev_ind; intros Hl; [done|].
  apply Forall_app in Hl as [Hl Hb]. apply Forall_cons_1 in Hb as [Hb _].
  rewrite length_app, Nat.add_comm. simpl. rewrite from_be_snoc. unfold is_byte in Hb.
  rewrite Z.div_add_l, (Z.div_small b), Z.add_0_r, IH by (done || lia).
  f_equal. rewrite Z.add_comm, Z_mod_plus_full, Z.mod_small by lia. done.
Qed.

(** What the [uuid] crate documents: parsing undoes formatting, for the 16
    bytes of a UUID. *)
Hypothesis uuid_parse_format : ∀ u, length u = 16%nat → Forall is_byte u →
  uuid_parse (uuid_to_string u) = Some u.

(** A UUIDv7 of the RFC 4122 variant. *)
Definition valid_stream (u : list Z) : Prop :=
  length u = 16%nat ∧ Forall is_byte u ∧ uuid_version u = 7 ∧ uuid_rfc4122 u = true.

Lemma stream_try_from_format u :
  length u = 16%nat → Forall is_byte u →
  stream_try_from (uuid_to_string u)
  = if (uuid_version u =? 7) && uuid_rfc4122 u then Ok (mkStream u)
    else Err "stream requires canonical UUIDv7"%string.
Proof.
  intros Hl Hb. unfold stream_try_from. rewrite uuid_parse_format by done.
  rewrite bool_decide_true by done. by destruct (uuid_version u =? 7), (uuid_rfc4122 u).
Qed.

(** A value of the Rust type: the widths the types give, and a stream the
    constructor accepted. *)
Definition header_wf (h : BinaryHeader) : Prop :=
  is_u64 (offset h) ∧ 0 ≤ payload_length h ≤ u32_max ∧ valid_stream (stream_bytes (stream_uuid h)).

Lemma channel_round_trip c : channel_of_byte (channel_byte c) = Some c.
Proof. by destruct c. Qed.

(** The fields of an encoded header, read back. *)
Lemma header_fields c u a b :
  length u = 16%nat → length a = 8%nat → length b = 4%nat →
  let h := [1; c; 0; 0] ++ u ++ a ++ b in
  sub_bytes 4 20 h = u ∧ sub_bytes 20 28 h = a ∧ sub_bytes 28 32 h = b.
Proof.
  intros Hu Ha Hb h. subst h. unfold sub_bytes. simpl. rewrite !drop_0. split_and!.
  - by rewrite take_app_length' by lia.
  - rewrite drop_app_length' by lia. by rewrite take_app_length' by lia.
  - rewrite app_assoc, drop_app_length' by (rewrite length_app; lia). by rewrite take_ge by lia.
Qed.

(** Decoding inverts encoding: a frame encoded from a valid header and its
    payload decodes, under any negotiated limit that admits it, to that header
    and payload. *)
Theorem decode_inverts_encode h payload frame max :
  header_wf h → encode_frame h payload = Ok frame → payload_length h ≤ max →
  decode_binary_frame frame max = Ok (h, payload).
Proof.
  destruct h as [c [u] off len]. intros (Hoff & Hlen & Hul & Hub & Hv & Hr). unfold encode_frame, encode.
  cbn [channel stream_uuid stream_bytes offset payload_length] in *.
  destruct (Z.of_nat (length payload) =? len) eqn:Hpl; [|done]. cbn [negb].
  unfold checked_add64. destruct (off + len <=? u64_max) eqn:Hov; [|done].
  cbn [ok_or result_bind].
  set (hd := [1; channel_byte c; 0; 0] ++ u ++ to_be_bytes 8 off ++ to_be_bytes 4 len).
  intros Heq Hmax. assert (frame = hd ++ payload) as -> by congruence.
  assert (length hd = 32%nat) as Hhd by (unfold hd; rewrite !length_app, !length_be, Hul; done).
  destruct (header_fields (channel_byte c) u (to_be_bytes 8 off) (to_be_bytes 4 len) Hul
    (length_be 8 off) (length_be 4 len)) as (H1 & H2 & H3). fold hd in H1, H2, H3.
  unfold decode_binary_frame.
  replace (get_range 0 BINARY_HEADER_LEN (hd ++ payload)) with (Some hd).
  2: { symmetry. apply get_range_Some. unfold BINARY_HEADER_LEN. rewrite length_app, drop_0, Hhd.
       split_and!; [lia|lia|]. by rewrite take_app_length' by lia. }
  cbn [ok_or result_bind]. rewrite H1, H2, H3.
  change (byte_at 0 hd) with 1. change (byte_at 1 hd) with (channel_byte c).
  change (byte_at 2 hd) with 0. change (byte_at 3 hd) with 0.
  rewrite channel_round_trip, stream_try_from_format, Hv, Hr by done.
  cbn [negb orb andb ok_or result_bind Z.eqb Pos.eqb]. unfold is_u64, u64_max, u32_max in *.
  rewrite !be_round_trip by (simpl; lia). replace (max <? len) with false by lia.
  replace (drop BINARY_HEADER_LEN (hd ++ payload)) with payload
    by (by rewrite drop_app_length' by (unfold BINARY_HEADER_LEN; lia)).
  rewrite Hpl. cbn. unfold checked_add64, u64_max. by rewrite Hov.
Qed.

(** C39. Decoding accepts only canonical frames: whatever frame is accepted has
    a valid header within the negotiated limit, and is byte for byte the
    encoding of what was decoded, so no two different frames carry the same
    header and payload. *)
Theorem accepted_frame_is_canonical frame max h payload :
  Forall is_byte frame → decode_binary_frame frame max = Ok (h, payload) →
  header_wf h ∧ payload_length h ≤ max ∧ encode_frame h payload = Ok frame.
Proof.
  intros Hb. unfold decode_binary_frame.
  destruct (get_range 0 BINARY_HEADER_LEN frame) as [hd|] eqn:Hhd; [|done].
  apply get_range_Some in Hhd as (_ & Hlen & Heq). rewrite drop_0 in Heq.
  unfold BINARY_HEADER_LEN in *. cbn [ok_or result_bind].
  assert (length hd = 32%nat) as Hl by (subst hd; rewrite length_take; lia).
  assert (frame = hd ++ drop 32 frame) as Hf by (subst hd; by rewrite take_drop).
  assert (Forall is_byte hd) as Hbh by (subst hd; by apply Forall_take).
  set (payload0 := drop 32 frame) in *. clearbody payload0. clear Heq. subst frame.
  do 4 (destruct hd as [|? hd]; [done|]). unfold byte_at. simpl (default _ _).
  destruct (_ || _) eqn:Hbad; [done|]. apply orb_false_iff in Hbad as [Hbad H3].
  apply orb_false_iff in Hbad as [H1 H2]. apply negb_false_iff in H1, H2, H3. zhyps. subst.
  destruct (channel_of_byte _) as [c|] eqn:Hc; [|done]. cbn [ok_or result_bind].
  set (u := sub_bytes 4 20 _). set (a := sub_bytes 20 28 _). set (b := sub_bytes 28 32 _).
  assert (length u = 16%nat ∧ length a = 8%nat ∧ length b = 4%nat) as (Hul & Hal & Hbl).
  { unfold u, a, b, sub_bytes. rewrite !length_take, !length_drop. cbn [length] in *. lia. }
  assert (hd = u ++ a ++ b) as Hsplit.
  { unfold u, a, b, sub_bytes. simpl. rewrite !drop_0.
    rewrite (take_ge (drop 24 hd)) by (rewrite length_drop; cbn [length] in *; lia).
    replace (drop 24 hd) with (drop 8 (drop 16 hd)) by (by rewrite drop_drop).
    by rewrite !take_drop. }
  assert (Forall is_byte u ∧ Forall is_byte a ∧ Forall is_byte b) as (Hub & Hab & Hbb).
  { repeat (apply Forall_cons_1 in Hbh as [_ Hbh]). rewrite Hsplit in Hbh.
    by rewrite !Forall_app in Hbh. }
  clearbody u a b. subst hd. rewrite stream_try_from_format by done.
  destruct ((uuid_version u =? 7) && uuid_rfc4122 u) eqn:Hu; [|done]. cbn [result_bind].
  destruct (max <? from_be_bytes b) eqn:Hmax; [done|].
  destruct (Z.of_nat (length payload0) =? from_be_bytes b) eqn:Hpl; [|done]. cbn [negb].
  destruct (checked_add64 (from_be_bytes a) (from_be_bytes b)) eqn:Hov; [|done].
  cbn [ok_or result_bind]. intros [= <- <-].
  apply andb_true_iff in Hu as [Hv Hr]. zhyps.
  pose proof (from_be_bounds a Hab) as Ha. pose proof (from_be_bounds b Hbb) as Hbd.
  rewrite Hal in Ha. rewrite Hbl in Hbd. simpl in Ha, Hbd.
  split_and!; cbn; [|done|].
  - unfold header_wf, is_u64, u64_max, u32_max, valid_stream. cbn. split_and!; try done; lia.
  - unfold encode_frame, encode.
    cbn [channel stream_uuid stream_bytes offset payload_length].
    rewrite Hpl, Z.eqb_refl, Hov. cbn [negb ok_or result_bind].
    pose proof (be_bytes_of_value a Hab) as Ea. pose proof (be_bytes_of_value b Hbb) as Eb.
    rewrite Hal in Ea. rewrite Hbl in Eb. rewrite Ea, Eb.
    f_equal. rewrite <-!app_assoc. simpl. do 2 f_equal.
    unfold channel_of_byte in Hc. repeat case_match; simplify_eq; zhyps; subst; done.
Qed.
End Uuid.

(** ** Witnesses

    A concrete reading of the [uuid] crate: the text is the bytes, the version
    is the high nibble of byte 6 and the variant the two high bits of byte 8. *)
Definition w_to_string (u : list Z) : string :=
  Stdlib.Strings.String.string_of_list_ascii (ascii_of_nat ∘ Z.to_nat <$> u).
Definition w_parse (s : string) : option (list Z) :=
  Some ((λ c, Z.of_nat (nat_of_ascii c)) <$> Stdlib.Strings.String.list_ascii_of_string s).
Definition w_version (u : list Z) : Z := Z.shiftr (byte_at 6 u) 4.
Definition w_rfc4122 (u : list Z) : bool := (Z.shiftr (byte_at 8 u) 6 =? 2).

Lemma w_parse_format u : length u = 16%nat → Forall is_byte u → w_parse (w_to_string u) = Some u.
Proof.
  intros _ Hb. unfold w_parse, w_to_string. rewrite Stdlib.Strings.String.list_ascii_of_string_of_list_ascii.
  f_equal. rewrite <-list_fmap_compose. induction Hb as [|b u Hb _ IH]; [done|].
  rewrite fmap_cons, IH. f_equal. simpl. unfold is_byte in Hb. rewrite nat_ascii_embedding by lia. lia.
Qed.

Definition w_uuid : list Z := [1; 2; 3; 4; 5; 6; 112; 8; 128; 10; 11; 12; 13; 14; 15; 16].
Definition w_header : BinaryHeader := mkHeader TtyInput (mkStream w_uuid) 1000 3.
Definition w_frame : list Z :=
  match encode_frame w_header [104; 105; 10] with Ok f => f | Err _ => [] end.

Lemma w_header_wf : header_wf w_version w_rfc4122 w_header.
Proof. unfold header_wf, is_u64, valid_stream. split_and!; repeat constructor; vm_compute; congruence. Qed.

Lemma decode_witness :
  decode_binary_frame w_to_string w_parse w_version w_rfc4122 w_frame 65536
  = Ok (w_header, [104; 105; 10]).
Proof.
  apply (decode_inverts_encode w_to_string w_parse w_version w_rfc4122 w_parse_format).
  - apply w_header_wf.
  - vm_compute. reflexivity.
  - vm_compute. discriminate.
Defined.

Lemma canonical_witness :
  header_wf w_version w_rfc4122 w_header ∧ payload_length w_header ≤ 65536 ∧
  encode_frame w_header [104; 105; 10] = Ok w_frame.
Proof.
  apply (accepted_frame_is_canonical w_to_string w_parse w_version w_rfc4122 w_parse_format
    w_frame 65536 w_header [104; 105; 10]).
  - repeat constructor; vm_compute; congruence.
  - vm_compute. reflexivity.
Defined.
