(* ===== verification/Projection.v ===== *)
(** * Projections over an instance journal

    [remuda-journal/src/projection.rs]: the folds of a journal into a
    transcript, a table of interactions and a status, and [OrderedFold], which
    applies observations in sequence order whatever order they arrive in.  The
    observation types are those of [remuda-protocol/src/observation.rs], with
    the fields the journal reads; the others travel unread in [obs_rest]. *)
From stdpp Require Import base list gmap strings numbers sorting pretty.
From S2P Require Import Prelude Text NodeStore.
Local Open Scope Z_scope.

(** ** Protocol enums *)

Inductive Connectivity : Type := Connected | Disconnected | ConnReconciling.
Inductive MessagePhase : Type := PhaseInput | PhaseCommentary | PhaseFinal | PhaseUnknown.
Inductive ToolCallState : Type := ToolProposed | ToolRunning | ToolStateUnknown.
Inductive ToolOutcome : Type :=
| ToolSucceeded | ToolFailed | ToolDenied | ToolCancelled | ToolOutcomeUnknown.
Inductive InteractionState : Type :=
| IntPending | AnswerCommitted | Resolved | IntExpired | Invalidated | IntUnknown | IntReconciling.
Inductive SourceDelivery : Type := DeliveryLive | DeliveryReplay | DeliveryUnknown.
Inductive LifecycleTopic : Type :=
| TopicSession | TopicTurn | TopicHook | TopicSubagent | TopicTask | TopicPlan
| TopicConfiguration | TopicPermission | TopicDiagnostic | TopicReconciliation.

#[export] Instance Connectivity_eq_dec : EqDecision Connectivity.
Proof. solve_decision. Defined.
#[export] Instance MessagePhase_eq_dec : EqDecision MessagePhase.
Proof. solve_decision. Defined.
#[export] Instance ToolCallState_eq_dec : EqDecision ToolCallState.
Proof. solve_decision. Defined.
#[export] Instance ToolOutcome_eq_dec : EqDecision ToolOutcome.
Proof. solve_decision. Defined.
#[export] Instance InteractionState_eq_dec : EqDecision InteractionState.
Proof. solve_decision. Defined.
#[export] Instance SourceDelivery_eq_dec : EqDecision SourceDelivery.
Proof. solve_decision. Defined.
#[export] Instance LifecycleTopic_eq_dec : EqDecision LifecycleTopic.
Proof. solve_decision. Defined.

(** ** Payloads *)

(** [struct RawRef]. *)
Record RawRef : Type := mkRawRef {
  ref_object_id : string;
  ref_offset : Z;
  ref_length : Z;
  ref_digest : string;
  ref_media_type : string;
  ref_redaction : string;
}.

(** [enum ContentBlock]: text, or one of the other block types. *)
Inductive Block : Type :=
| BText (t : string)
| BOther (block_type : string).

(** [struct InteractionRequestKey] ([remuda-protocol/src/interaction.rs]). *)
Record InteractionRequestKey : Type := mkRequestKey {
  rk_native : string;
  rk_process_generation : Z;
  rk_run_generation : option Z;
  rk_connection_epoch : string;
}.

(** [struct Interaction]: what the journal reads of it. *)
Record Interaction : Type := mkInteraction {
  int_id : string;
  int_request_key : InteractionRequestKey;
  int_state : InteractionState;
}.

(** [enum LifecycleEntity] with the fields of [Instance] the status reads. *)
Inductive LifecycleEntity : Type :=
| LEInstance (lc : InstanceLifecycle) (act : Knowledge Activity) (conn : Connectivity)
    (last_error : option string)
| LEInteraction (i : Interaction)
| LEOther (entity_type : string).

(** [struct EntityLifecycle], [struct NativeLifecycle], [enum LifecyclePayload]. *)
Record EntityLifecycle : Type := mkEntity {
  ent_state : string;
  ent_reason_code : string;
  ent_value : LifecycleEntity;
}.
Record NativeEvent : Type := mkNativeEvent {
  nat_topic : LifecycleTopic;
  nat_name : string;
  nat_status : Knowledge string;
  nat_related_ids : gmap string string;
  nat_severity : Severity;
}.
Inductive LifecyclePayload : Type :=
| LEntity (e : EntityLifecycle)
| LNative (n : NativeEvent).

(** [enum ObservationPayload]; kinds the journal does not look into keep their
    kind only. *)
Inductive Payload : Type :=
| PMessage (message_id : string) (role : MessageRole) (phase : MessagePhase) (blocks : list Block)
| PThought (thought_id : string) (text : option string)
| PToolCall (tool_call_id : string) (tool_name : Knowledge string) (state : ToolCallState)
| PToolResult (tool_call_id : string) (outcome : ToolOutcome) (blocks : list Block)
| PInteractionRequested (i : Interaction)
| PInteractionAnswered (interaction_id : string)
| PInteractionExpired (interaction_id : string)
| PLifecycle (l : LifecyclePayload)
| PWorkflowRun
| POpaque (raw : RawRef)
| POther (kind : string).

(** [struct Observation]. *)
Record Obs : Type := mkObs {
  obs_event_id : string;
  obs_journal_id : string;
  obs_instance_id : string;
  obs_host_id : string;
  obs_seq : Z;
  obs_delivery : SourceDelivery;
  obs_raw_ref : option RawRef;
  obs_rest : string;
  obs_body : Payload;
}.

#[export] Instance RawRef_eq_dec : EqDecision RawRef.
Proof. solve_decision. Defined.
#[export] Instance Block_eq_dec : EqDecision Block.
Proof. solve_decision. Defined.
#[export] Instance InteractionRequestKey_eq_dec : EqDecision InteractionRequestKey.
Proof. solve_decision. Defined.
#[export] Instance Interaction_eq_dec : EqDecision Interaction.
Proof. solve_decision. Defined.
#[export] Instance LifecycleEntity_eq_dec : EqDecision LifecycleEntity.
Proof. solve_decision. Defined.
#[export] Instance EntityLifecycle_eq_dec : EqDecision EntityLifecycle.
Proof. solve_decision. Defined.
#[export] Instance NativeEvent_eq_dec : EqDecision NativeEvent.
Proof. solve_decision. Defined.
#[export] Instance LifecyclePayload_eq_dec : EqDecision LifecyclePayload.
Proof. solve_decision. Defined.
#[export] Instance Payload_eq_dec : EqDecision Payload.
Proof. solve_decision. Defined.
#[export] Instance Obs_eq_dec : EqDecision Obs.
Proof. solve_decision. Defined.

(** [serde_json::to_string] of a request key. *)
Class RequestKeyJson : Type := request_key_json : InteractionRequestKey → option string.

(** ** Projection state *)

Inductive TurnKind : Type := TurnUser | TurnCompact.
Record TurnBound : Type := mkTurn {
  start_seq : Z;
  end_seq : option Z;
  turn_kind : TurnKind;
}.
Inductive TranscriptEntry : Type :=
| EMessage (seq : Z) (message_id : string) (role : MessageRole) (text : string)
| EThought (seq : Z) (thought_id : string) (text : option string)
| EToolCall (seq : Z) (tool_call_id : string) (name : option string) (state : ToolCallState)
| EToolResult (seq : Z) (tool_call_id : string) (outcome : ToolOutcome) (text : string).
Record ToolPair : Type := mkToolPair {
  call_seq : Z;
  result_seq : option Z;
  tp_tool_call_id : string;
  tp_name : option string;
  tp_outcome : option ToolOutcome;
}.
Record TranscriptProjection : Type := mkTranscript {
  as_of_seq : Z;
  entries : list TranscriptEntry;
  turns : list TurnBound;
  tools : gmap string ToolPair;
}.
Record InteractionRecord : Type := mkInteractionRecord {
  ir_interaction_id : string;
  ir_request_key : string;
  ir_state : InteractionState;
  requested_seq : Z;
  answered_seq : option Z;
  expired_seq : option Z;
}.
Record InteractionProjection : Type := mkInteractions {
  by_key : gmap string InteractionRecord;
  by_id : gmap string string;
}.
Record StatusProjection : Type := mkStatus {
  st_lifecycle : InstanceLifecycle;
  st_activity : Activity;
  st_connectivity : Connectivity;
  st_last_error : option string;
}.
Record Projections : Type := mkProjections {
  transcript : TranscriptProjection;
  interaction : InteractionProjection;
  status_proj : StatusProjection;
}.

Definition transcript_default : TranscriptProjection := mkTranscript 0 [] [] ∅.
Definition interaction_default : InteractionProjection := mkInteractions ∅ ∅.
Definition status_default : StatusProjection := mkStatus LifecycleUnknown Idle Disconnected None.
Definition projections_default : Projections :=
  mkProjections transcript_default interaction_default status_default.

(** ** [TranscriptProjection::apply] *)

Fixpoint blocks_text (bs : list Block) : string :=
  match bs with
  | [] => ""
  | BText t :: r => t +:+ blocks_text r
  | BOther _ :: r => blocks_text r
  end.

Definition is_compact (p : LifecyclePayload) : bool :=
  match p with
  | LNative n => str_contains "compact" (to_ascii_lowercase (nat_name n))
  | LEntity _ => false
  end.

Definition is_turn_result (p : LifecyclePayload) : bool :=
  match p with
  | LNative n => bool_decide (nat_topic n = TopicTurn) &&
                 str_contains "result" (to_ascii_lowercase (nat_name n))
  | LEntity _ => false
  end.

(** [close_turn]: the last turn gets an end if it has none. *)
Definition close_turn (seq : Z) (ts : list TurnBound) : list TurnBound :=
  alter (λ t, match end_seq t with
              | None => mkTurn (start_seq t) (Some seq) (turn_kind t)
              | Some _ => t
              end) (pred (length ts)) ts.
Definition open_turn (seq : Z) (k : TurnKind) (ts : list TurnBound) : list TurnBound :=
  close_turn seq ts ++ [mkTurn seq None k].

Definition transcript_apply (p : TranscriptProjection) (o : Obs) : TranscriptProjection :=
  let seq := obs_seq o in
  match obs_body o with
  | PMessage id role phase bs =>
      let ts := if bool_decide (role = RoleUser) && bool_decide (phase = PhaseInput)
                then open_turn seq TurnUser (turns p) else turns p in
      mkTranscript seq (entries p ++ [EMessage seq id role (blocks_text bs)]) ts (tools p)
  | PThought id t =>
      mkTranscript seq (entries p ++ [EThought seq id t]) (turns p) (tools p)
  | PToolCall id tool_name state =>
      let name := match tool_name with Known v => Some v | _ => None end in
      mkTranscript seq (entries p ++ [EToolCall seq id name state]) (turns p)
        (<[id := mkToolPair seq None id name None]> (tools p))
  | PToolResult id outcome bs =>
      let pair := match tools p !! id with
                  | Some q => mkToolPair (call_seq q) (Some seq) (tp_tool_call_id q) (tp_name q)
                                (Some outcome)
                  | None => mkToolPair seq (Some seq) id None (Some outcome)
                  end in
      mkTranscript seq (entries p ++ [EToolResult seq id outcome (blocks_text bs)]) (turns p)
        (<[id := pair]> (tools p))
  | PLifecycle l =>
      let ts := if is_compact l
                then close_turn seq (turns p) ++ [mkTurn seq (Some seq) TurnCompact]
                else turns p in
      let ts := if is_turn_result l then close_turn seq ts else ts in
      mkTranscript seq (entries p) ts (tools p)
  | _ => mkTranscript seq (entries p) (turns p) (tools p)
  end.

(** ** [InteractionProjection::apply] *)

Section interactions.
Context `{RequestKeyJson}.

Definition interaction_apply (p : InteractionProjection) (o : Obs) : InteractionProjection :=
  match obs_body o with
  | PInteractionRequested i =>
      match request_key_json (int_request_key i) with
      | None => p
      | Some key =>
          if bool_decide (is_Some (by_key p !! key)) then p
          else mkInteractions
                 (<[key := mkInteractionRecord (int_id i) key IntPending (obs_seq o) None None]>
                    (by_key p))
                 (<[int_id i := key]> (by_id p))
      end
  | PInteractionAnswered id =>
      match by_id p !! id with
      | None => p
      | Some key =>
          match by_key p !! key with
          | None => p
          | Some r =>
              if bool_decide (is_Some (answered_seq r))
                 || bool_decide (ir_state r = IntExpired)
                 || bool_decide (ir_state r = AnswerCommitted)
                 || bool_decide (ir_state r = Resolved)
              then p
              else mkInteractions
                     (<[key := mkInteractionRecord (ir_interaction_id r) (ir_request_key r)
                                 AnswerCommitted (requested_seq r) (Some (obs_seq o))
                                 (expired_seq r)]> (by_key p))
                     (by_id p)
          end
      end
  | PInteractionExpired id =>
      match by_id p !! id with
      | None => p
      | Some key =>
          match by_key p !! key with
          | None => p
          | Some r =>
              if bool_decide (is_Some (expired_seq r)) || bool_decide (is_Some (answered_seq r))
              then p
              else mkInteractions
                     (<[key := mkInteractionRecord (ir_interaction_id r) (ir_request_key r)
                                 IntExpired (requested_seq r) (answered_seq r)
                                 (Some (obs_seq o))]> (by_key p))
                     (by_id p)
          end
      end
  | PLifecycle (LEntity e) =>
      match ent_value e with
      | LEInteraction i =>
          match by_id p !! int_id i with
          | None => p
          | Some key =>
              match by_key p !! key with
              | None => p
              | Some r =>
                  mkInteractions
                    (<[key := mkInteractionRecord (ir_interaction_id r) (ir_request_key r)
                                (int_state i) (requested_seq r) (answered_seq r) (expired_seq r)]>
                       (by_key p))
                    (by_id p)
              end
          end
      | _ => p
      end
  | _ => p
  end.

(** ** [StatusProjection::apply] *)

Definition native_lifecycle_failed (n : NativeEvent) : bool :=
  if bool_decide (nat_severity n = SevError) then true
  else
    let name := to_ascii_lowercase (nat_name n) in
    str_contains "error" name || str_contains "exit" name || str_contains "gone" name ||
    str_contains "agent_not_ready" name || str_contains "shell" name.

Definition native_lifecycle_error_text (n : NativeEvent) : option string :=
  let status := match nat_status n with
                | Known v => if bool_decide (v = "") then None else Some v
                | _ => None
                end in
  match nat_related_ids n !! "lastError" with
  | Some m => if bool_decide (m = "") then status else Some m
  | None => status
  end.

Definition status_live (s : StatusProjection) (o : Obs) : StatusProjection :=
  if bool_decide (obs_delivery o = DeliveryLive) && bool_decide (st_connectivity s = Disconnected)
  then mkStatus (st_lifecycle s) (st_activity s) Connected (st_last_error s) else s.

Definition set_activity (a : Activity) (s : StatusProjection) : StatusProjection :=
  mkStatus (st_lifecycle s) a (st_connectivity s) (st_last_error s).

Definition status_entity (e : EntityLifecycle) (s : StatusProjection) : StatusProjection :=
  let s := match ent_value e with
           | LEInstance lc act conn err =>
               mkStatus lc (match act with Known a => a | _ => st_activity s end) conn
                 (match err with Some _ => err | None => st_last_error s end)
           | _ => s
           end in
  if bool_decide (ent_state e = "failed") then
    mkStatus Failed Idle Disconnected
      (match st_last_error s with
       | None => if bool_decide (ent_reason_code e = "") then None else Some (ent_reason_code e)
       | Some x => Some x
       end)
  else s.

Definition status_session (name : string) (s : StatusProjection) : StatusProjection :=
  if bool_decide (st_lifecycle s = Failed) then s
  else if str_contains "init" name || str_contains "start" name
  then mkStatus Ready Idle Connected (st_last_error s)
  else if str_contains "end" name || str_contains "exit" name
  then mkStatus Exited Idle Disconnected (st_last_error s)
  else if str_contains "idle" name then set_activity Idle s
  else if str_contains "running" name || str_contains "working" name then set_activity Working s
  else s.

Definition status_native (n : NativeEvent) (s : StatusProjection) : StatusProjection :=
  let name := to_ascii_lowercase (nat_name n) in
  let s := if native_lifecycle_failed n
           then mkStatus Failed Idle Disconnected (native_lifecycle_error_text n) else s in
  let s := match nat_topic n with
           | TopicSession => status_session name s
           | TopicTurn =>
               if str_contains "result" name || str_contains "stop" name
               then if bool_decide (st_activity s ≠ WaitingInteraction) then set_activity Idle s
                    else s
               else set_activity Working s
           | TopicReconciliation =>
               mkStatus Reconciling (st_activity s) ConnReconciling (st_last_error s)
           | _ => s
           end in
  match nat_status n with
  | Known v =>
      let status := to_ascii_lowercase v in
      if str_contains "idle" status then set_activity Idle s
      else if str_contains "running" status || str_contains "working" status
      then set_activity Working s
      else if str_contains "requires_action" status || str_contains "waiting" status
      then set_activity WaitingInteraction s
      else s
  | _ => s
  end.

Definition status_apply (s : StatusProjection) (o : Obs) : StatusProjection :=
  let s := status_live s o in
  match obs_body o with
  | PLifecycle (LEntity e) => status_entity e s
  | PLifecycle (LNative n) => status_native n s
  | PToolCall _ _ _ | PWorkflowRun =>
      if bool_decide (st_activity s ≠ WaitingInteraction) then set_activity Working s else s
  | PInteractionRequested _ => set_activity WaitingInteraction s
  | PInteractionAnswered _ | PInteractionExpired _ => set_activity Idle s
  | PMessage _ role _ _ =>
      if bool_decide (role = RoleAssistant) && bool_decide (st_activity s = Idle)
      then set_activity Working s else s
  | _ => s
  end.

(** [Projections::apply]. *)
Definition apply (p : Projections) (o : Obs) : Projections :=
  mkProjections (transcript_apply (transcript p) o) (interaction_apply (interaction p) o)
    (status_apply (status_proj p) o).

End interactions.

(** ** Folding in sequence order *)

(** [trait Fold] with [T: Default]. *)
Class Fold (T : Type) : Type := {
  fold_default : T;
  apply_obs : T → Obs → T;
}.
#[export] Instance fold_projections `{RequestKeyJson} : Fold Projections :=
  {| fold_default := projections_default; apply_obs := apply |}.
#[export] Instance fold_transcript : Fold TranscriptProjection :=
  {| fold_default := transcript_default; apply_obs := transcript_apply |}.

(** [struct OrderedFold<T>]. *)
Record OrderedFold (T : Type) : Type := mkFold {
  next_seq : Z;
  fold_buffer : gmap Z Obs;
  fold_inner : T;
}.
Arguments mkFold {T} _ _ _.
Arguments next_seq {T} _.
Arguments fold_buffer {T} _.
Arguments fold_inner {T} _.

Section ordered_fold.
Context {T : Type} `{Fold T}.

(** [OrderedFold::default]. *)
Definition fold_new : OrderedFold T := mkFold 1 ∅ fold_default.

(** The [while let] of [push]; each iteration takes one observation out of the
    buffer, so the buffer's size bounds the iterations. *)
Fixpoint fold_drain (fuel : nat) (f : OrderedFold T) : OrderedFold T :=
  match fuel with
  | O => f
  | S n =>
      match fold_buffer f !! next_seq f with
      | Some o => fold_drain n (mkFold (wrap64 (next_seq f + 1)) (delete (next_seq f) (fold_buffer f))
                                  (apply_obs (fold_inner f) o))
      | None => f
      end
  end.
Definition fold_push (f : OrderedFold T) (o : Obs) : OrderedFold T :=
  let b := <[obs_seq o := o]> (fold_buffer f) in
  fold_drain (S (size b)) (mkFold (next_seq f) b (fold_inner f)).

End ordered_fold.

(** [fold_all] and [fold_prepend_backfill]. *)
Definition seq_le (a b : Obs) : Prop := obs_seq a ≤ obs_seq b.
#[export] Instance seq_le_dec : RelDecision seq_le.
Proof. intros a b. unfold seq_le. apply _. Defined.

Definition fold_all `{RequestKeyJson} (os : list Obs) : Projections :=
  fold_inner (foldl fold_push (fold_new (T := Projections)) os).
Definition fold_prepend_backfill `{RequestKeyJson} (os : list Obs) : Projections :=
  match os with
  | [] => projections_default
  | _ =>
      let indexed := merge_sort seq_le os in
      let split := (length indexed / 2)%nat in
      let later := drop split indexed in
      let f := foldl fold_push (fold_new (T := Projections)) later in
      fold_inner (foldl fold_push f (take split indexed))
  end.

(** ** The ordered fold *)

(** Seqs [1..=n] in order: what a journal holds. *)
Definition numbered (L : list Obs) : Prop :=
  ∀ k o, L !! k = Some o → obs_seq o = Z.of_nat k + 1.

Lemma numbered_app L o : numbered L → obs_seq o = Z.of_nat (length L) + 1 → numbered (L ++ [o]).
Proof.
  intros HL Ho k x Hk. destruct (decide (k < length L)%nat).
  - rewrite lookup_app_l in Hk by done. by apply HL.
  - rewrite lookup_app_r in Hk by lia. apply list_lookup_singleton_Some in Hk as [? <-].
    rewrite Ho. lia.
Qed.
Lemma numbered_elem L o :
  numbered L → o ∈ L → L !! Z.to_nat (obs_seq o - 1) = Some o.
Proof.
  intros HL [k Hk]%list_elem_of_lookup. rewrite (HL _ _ Hk).
  by replace (Z.to_nat (Z.of_nat k + 1 - 1)) with k by lia.
Qed.
Lemma numbered_range L o :
  numbered L → o ∈ L → 1 ≤ obs_seq o ≤ Z.of_nat (length L).
Proof.
  intros HL [k Hk]%list_elem_of_lookup. rewrite (HL _ _ Hk).
  apply lookup_lt_Some in Hk. lia.
Qed.

Section ordered_fold_facts.
Context {T : Type} `{Fold T}.
Implicit Types f : OrderedFold T.

(** The buffer's size is enough fuel: the loop only stops when the next
    observation is not there. *)
Lemma fold_drain_stops fuel f :
  (size (fold_buffer f) < fuel)%nat →
  fold_buffer (fold_drain fuel f) !! next_seq (fold_drain fuel f) = None.
Proof.
  revert f. induction fuel as [|fuel IH]; intros f Hsz; [lia|]. simpl.
  destruct (fold_buffer f !! next_seq f) as [o|] eqn:Hl; [|done].
  pose proof (map_size_ne_0_lookup_2 _ _ (mk_is_Some _ _ Hl)).
  apply IH. simpl. rewrite map_size_delete_Some by done. lia.
Qed.

(** What the fold holds after observations of the journal [L] have arrived. *)
Record folded (L arr : list Obs) (m : nat) (f : OrderedFold T) : Prop := {
  folded_le : (m ≤ length L)%nat;
  folded_next : next_seq f = Z.of_nat m + 1;
  folded_inner : fold_inner f = foldl apply_obs fold_default (take m L);
  folded_arrived : ∀ k o, (k < m)%nat → L !! k = Some o → o ∈ arr;
  folded_buffer : ∀ k o, (m ≤ k)%nat → L !! k = Some o →
    (fold_buffer f !! obs_seq o = Some o ↔ o ∈ arr);
  folded_keys : ∀ z o, fold_buffer f !! z = Some o → o ∈ L ∧ obs_seq o = z;
}.

Lemma fold_drain_folded L arr fuel m f :
  numbered L → Z.of_nat (length L) < u64_max → folded L arr m f →
  ∃ m', folded L arr m' (fold_drain fuel f).
Proof.
  intros HL Hlen. revert m f. induction fuel as [|fuel IH]; intros m f Hf; simpl; [eauto|].
  destruct (fold_buffer f !! next_seq f) as [o|] eqn:Hl; [|eauto].
  destruct Hf as [Hle Hnext Hin Harr Hbuf Hkeys].
  destruct (Hkeys _ _ Hl) as [HoL Hseq].
  assert (L !! m = Some o) as Hm.
  { rewrite <- (numbered_elem L o HL HoL). f_equal. lia. }
  assert ((m < length L)%nat) as Hlt by (by apply lookup_lt_Some in Hm).
  apply (IH (S m)). split; simpl.
  - lia.
  - unfold wrap64. rewrite Hnext. unfold u64_max in Hlen. rewrite Z.mod_small; lia.
  - by rewrite (take_S_r _ _ o), foldl_snoc, Hin.
  - intros k x Hk Hx. destruct (decide (k = m)) as [->|]; [|apply (Harr k); [lia|done]].
    simplify_eq. apply (Hbuf m); [lia|done|]. by rewrite Hseq.
  - intros k x Hk Hx. rewrite lookup_delete_ne; [apply (Hbuf k); [lia|done]|].
    rewrite (HL _ _ Hx). lia.
  - intros z x [_ Hx]%lookup_delete_Some. by apply Hkeys.
Qed.

Lemma fold_push_folded L arr m f o :
  numbered L → Z.of_nat (length L) < u64_max → o ∈ L → folded L arr m f →
  ∃ m', folded L (arr ++ [o]) m' (fold_push f o) ∧
        fold_buffer (fold_push f o) !! next_seq (fold_push f o) = None.
Proof.
  intros HL Hlen Ho Hf. unfold fold_push.
  edestruct (fold_drain_folded L (arr ++ [o])) as [m' Hm'];
    [done|done| |exists m'; split; [exact Hm'|apply fold_drain_stops, Nat.lt_succ_diag_r]].
  destruct Hf as [Hle Hnext Hin Harr Hbuf Hkeys]. split; simpl; try done.
  - intros k x Hk Hx. apply elem_of_app. left. by apply (Harr k).
  - intros k x Hk Hx. rewrite elem_of_app, list_elem_of_singleton.
    destruct (decide (x = o)) as [->|Hne].
    + rewrite lookup_insert_eq. naive_solver.
    + rewrite lookup_insert_ne, (Hbuf k x) by (done || (intros Hs;
        pose proof (numbered_elem L o HL Ho) as H1; pose proof (HL _ _ Hx) as H2; rewrite Hs in H1;
        replace (Z.to_nat (obs_seq x - 1)) with k in H1 by lia; congruence)).
      naive_solver.
  - intros z x [[<- <-]|[_ Hx]]%lookup_insert_Some; [done|]. by apply Hkeys.
Qed.

Lemma fold_pushes_folded L arr :
  numbered L → Z.of_nat (length L) < u64_max → (∀ o, o ∈ arr → o ∈ L) →
  ∃ m, folded L arr m (foldl fold_push fold_new arr) ∧
       fold_buffer (foldl fold_push fold_new arr) !!
         next_seq (foldl fold_push (fold_new (T := T)) arr) = None.
Proof.
  intros HL Hlen. induction arr as [|o arr IH] using rev_ind; intros Hin.
  - exists O. split; [|done]. split; simpl; try done; [lia|lia|].
    intros k o _ _. split; [done|]. by intros ?%not_elem_of_nil.
  - destruct IH as (m & Hm & _); [intros x Hx; apply Hin; set_solver|].
    rewrite foldl_snoc. eapply fold_push_folded; [done..| |exact Hm]. apply Hin. set_solver.
Qed.

(** C33. However the observations of a journal arrive (in any order, with
    repetitions, with some missing), [OrderedFold] terminates having applied,
    in sequence order and once each, exactly the observations before the first
    one that has not arrived. *)
Theorem ordered_fold_applies_the_contiguous_prefix L arr :
  numbered L → Z.of_nat (length L) < u64_max → (∀ o, o ∈ arr → o ∈ L) →
  let f := foldl fold_push (fold_new (T := T)) arr in
  ∃ m, (m ≤ length L)%nat ∧ next_seq f = Z.of_nat m + 1 ∧
       fold_inner f = foldl apply_obs fold_default (take m L) ∧
       (∀ k o, (k < m)%nat → L !! k = Some o → o ∈ arr) ∧
       (∀ o, L !! m = Some o → o ∉ arr).
Proof.
  intros HL Hlen Harr f. destruct (fold_pushes_folded L arr HL Hlen Harr) as (m & Hm & Hstop).
  fold f in Hm, Hstop. destruct Hm as [Hle Hnext Hin Hbefore Hbuf _].
  exists m. split_and!; [done..|]. intros o Ho Ho'.
  apply (Hbuf m o ltac:(lia) Ho) in Ho'. rewrite Hnext, <- (HL _ _ Ho) in Hstop. congruence.
Qed.

(** Once everything has arrived the whole journal is folded. *)
Lemma fold_pushes_all L arr :
  numbered L → Z.of_nat (length L) < u64_max → (∀ o, o ∈ arr ↔ o ∈ L) →
  fold_inner (foldl fold_push (fold_new (T := T)) arr) = foldl apply_obs fold_default L.
Proof.
  intros HL Hlen Harr.
  destruct (fold_pushes_folded L arr HL Hlen ltac:(naive_solver)) as (m & Hm & Hstop).
  destruct Hm as [Hle Hnext Hin Hbefore Hbuf _]. rewrite Hin.
  destruct (decide (m = length L)) as [->|Hne]; [by rewrite firstn_all|].
  destruct (lookup_lt_is_Some_2 L m ltac:(lia)) as [o Ho].
  rewrite Hnext, <- (HL _ _ Ho) in Hstop. exfalso.
  assert (o ∈ arr) as Ho' by (apply Harr; by eapply list_elem_of_lookup_2).
  apply (Hbuf m o ltac:(lia) Ho) in Ho'. congruence.
Qed.
End ordered_fold_facts.

(** C34. Folding a journal from the beginning and folding its later half before
    its earlier half give the same projections, from any permutation of it:
    those of applying it in sequence order. *)
Theorem prepend_backfill_agrees_with_fold_all `{RequestKeyJson} L os :
  numbered L → Z.of_nat (length L) < u64_max → os ≡ₚ L →
  fold_all os = foldl apply projections_default L ∧
  fold_prepend_backfill os = fold_all os.
Proof.
  intros HL Hlen Hp.
  assert (fold_all os = foldl apply projections_default L) as ->.
  { refine (fold_pushes_all (T := Projections) L os HL Hlen _). intros o. by rewrite Hp. }
  split; [done|]. unfold fold_prepend_backfill. destruct os as [|o os'] eqn:Hos.
  { apply Permutation_nil_l in Hp. by subst. }
  rewrite <- Hos in Hp |- *. rewrite <- foldl_app.
  refine (fold_pushes_all (T := Projections) L _ HL Hlen _). intros x.
  rewrite (Permutation_app_comm (drop _ _)), take_drop.
  by rewrite (merge_sort_Permutation seq_le os), Hp.
Qed.

(** ** The transcript *)

(** The entry an observation contributes. *)
Definition entry_of (o : Obs) : option TranscriptEntry :=
  match obs_body o with
  | PMessage id role _ bs => Some (EMessage (obs_seq o) id role (blocks_text bs))
  | PThought id t => Some (EThought (obs_seq o) id t)
  | PToolCall id name state =>
      Some (EToolCall (obs_seq o) id (match name with Known v => Some v | _ => None end) state)
  | PToolResult id outcome bs => Some (EToolResult (obs_seq o) id outcome (blocks_text bs))
  | _ => None
  end.

Lemma transcript_apply_entries p o :
  entries (transcript_apply p o) = entries p ++ option_list (entry_of o).
Proof.
  unfold transcript_apply, entry_of. destruct (obs_body o); simpl; by rewrite ?app_nil_r.
Qed.
Lemma transcript_apply_seq p o : as_of_seq (transcript_apply p o) = obs_seq o.
Proof. unfold transcript_apply. by destruct (obs_body o). Qed.

(** Turns up to [hi]: each spans an interval, every turn but the last is
    closed, and a turn ends no later than the next one starts. *)
Record turns_ok (hi : Z) (ts : list TurnBound) : Prop := {
  turns_bounds : ∀ i t, ts !! i = Some t →
    start_seq t ≤ hi ∧ ∀ e, end_seq t = Some e → start_seq t ≤ e ≤ hi;
  turns_disjoint : ∀ i t u, ts !! i = Some t → ts !! S i = Some u →
    ∃ e, end_seq t = Some e ∧ e ≤ start_seq u;
}.

Lemma turns_ok_mono hi hi' ts : hi ≤ hi' → turns_ok hi ts → turns_ok hi' ts.
Proof.
  intros Hle [Hb Hd]. split; [|done]. intros i t Ht. destruct (Hb _ _ Ht) as [? He].
  split; [lia|]. intros e Hte. destruct (He _ Hte). lia.
Qed.

Definition closed_at (seq : Z) (t : TurnBound) : TurnBound :=
  match end_seq t with
  | None => mkTurn (start_seq t) (Some seq) (turn_kind t)
  | Some _ => t
  end.
Lemma close_turn_lookup seq ts i :
  close_turn seq ts !! i = if decide (i = pred (length ts)) then closed_at seq <$> ts !! i
                           else ts !! i.
Proof.
  unfold close_turn. case_decide as Hi; [by rewrite Hi, list_lookup_alter_eq|].
  by rewrite list_lookup_alter_ne.
Qed.
Lemma closed_at_start seq t : start_seq (closed_at seq t) = start_seq t.
Proof. unfold closed_at. by destruct (end_seq t). Qed.
Lemma closed_at_end hi seq ts i t :
  turns_ok hi ts → hi ≤ seq → ts !! i = Some t →
  ∃ e, end_seq (closed_at seq t) = Some e ∧ start_seq t ≤ e ≤ seq.
Proof.
  intros [Hb _] Hle Ht. destruct (Hb _ _ Ht) as [Hs He]. unfold closed_at.
  destruct (end_seq t) as [e|] eqn:Hte; simpl.
  - exists e. split; [done|]. destruct (He e eq_refl). lia.
  - exists seq. split; [done|lia].
Qed.

Lemma close_turn_ok hi seq ts : turns_ok hi ts → hi ≤ seq → turns_ok seq (close_turn seq ts).
Proof.
  intros Hok Hle. pose proof (turns_ok_mono _ _ _ Hle Hok) as [Hb Hd]. split.
  - intros i t. rewrite close_turn_lookup. case_decide; [|by apply Hb].
    intros (u & Hu & ->)%fmap_Some. rewrite closed_at_start.
    destruct (Hb _ _ Hu) as [? _]. split; [done|]. intros e He.
    destruct (closed_at_end _ seq _ _ _ Hok Hle Hu) as (e' & He' & ?). simplify_eq. lia.
  - intros i t u. rewrite !close_turn_lookup. intros Ht Hu.
    assert ((S i < length ts)%nat).
    { case_decide; [apply fmap_Some in Hu as (? & Hu & _)|]; by apply lookup_lt_Some in Hu. }
    rewrite decide_False in Ht by lia. case_decide; [|by apply (Hd i)].
    apply fmap_Some in Hu as (v & Hv & ->). rewrite closed_at_start. by apply (Hd i).
Qed.

Lemma turns_push_ok hi seq ts t :
  turns_ok hi ts → hi ≤ seq → start_seq t = seq → (∀ e, end_seq t = Some e → e = seq) →
  turns_ok seq (close_turn seq ts ++ [t]).
Proof.
  intros Hok Hle Hs He. destruct (close_turn_ok _ _ _ Hok Hle) as [Hb Hd].
  assert (length (close_turn seq ts) = length ts) as Hlen by apply length_alter.
  split.
  - intros i u [Hu|(_ & Hu)]%lookup_app_Some; [by apply (Hb i)|].
    apply list_lookup_singleton_Some in Hu as [_ <-]. split; [lia|].
    intros e Hte. apply He in Hte. lia.
  - intros i u v Hu Hv. apply lookup_app_Some in Hv as [Hv|[Hge Hv]].
    + rewrite lookup_app_l in Hu by (apply lookup_lt_Some in Hv; lia). by apply (Hd i).
    + apply list_lookup_singleton_Some in Hv as [Hi <-].
      rewrite lookup_app_l in Hu by lia. rewrite close_turn_lookup, decide_True in Hu by lia.
      apply fmap_Some in Hu as (w & Hw & ->).
      destruct (closed_at_end _ seq _ _ _ Hok Hle Hw) as (e & Hce & ?).
      exists e. split; [done|lia].
Qed.

Lemma transcript_apply_turns p o :
  turns_ok (as_of_seq p) (turns p) → as_of_seq p ≤ obs_seq o →
  turns_ok (obs_seq o) (turns (transcript_apply p o)).
Proof.
  intros Hok Hle. pose proof (turns_ok_mono _ _ _ Hle Hok) as Hok'.
  unfold transcript_apply. destruct (obs_body o) as [| | | | | | |l| | |]; simpl; try done.
  - case_match; [|done]. by eapply turns_push_ok.
  - assert (turns_ok (obs_seq o) (if is_compact l
        then close_turn (obs_seq o) (turns p) ++ [mkTurn (obs_seq o) (Some (obs_seq o)) TurnCompact]
        else turns p)) by (case_match; [eapply turns_push_ok; simpl; naive_solver|done]).
    destruct (is_turn_result l); [|done]. by eapply close_turn_ok.
Qed.

(** For a journal in sequence order the transcript has exactly one entry
    per message, thought, tool call and tool result, in journal order; its turns
    are intervals in order that do not overlap (one may end where the next
    starts), and only the last can still be open. *)
Theorem transcript_follows_the_journal L :
  numbered L →
  let p := foldl transcript_apply transcript_default L in
  entries p = omap entry_of L ∧ as_of_seq p = Z.of_nat (length L) ∧
  turns_ok (Z.of_nat (length L)) (turns p).
Proof.
  intros HL p. subst p. induction L as [|o L IH] using rev_ind.
  - split; [done|]. split; [done|]. split; by intros [|i].
  - assert (numbered L) as HL'.
    { intros k x Hk. apply HL. by apply lookup_app_l_Some. }
    assert (obs_seq o = Z.of_nat (length L) + 1) as Ho.
    { apply HL. by rewrite list_lookup_middle. }
    destruct (IH HL') as (He & Hs & Ht). rewrite foldl_snoc, length_app. simpl. split_and!.
    + rewrite transcript_apply_entries, He, omap_app. simpl. by destruct (entry_of o).
    + rewrite transcript_apply_seq. lia.
    + replace (Z.of_nat (length L + 1)) with (obs_seq o) by lia.
      apply transcript_apply_turns; rewrite Hs; [done|lia].
Qed.

(** ** Interactions *)

Section interaction_facts.
Context `{RequestKeyJson}.

(** [r'] extends [r]: the same request, and the first answer and the first
    expiry once recorded stay. *)
Record extends (r r' : InteractionRecord) : Prop := {
  extends_id : ir_interaction_id r' = ir_interaction_id r;
  extends_key : ir_request_key r' = ir_request_key r;
  extends_requested : requested_seq r' = requested_seq r;
  extends_answered : ∀ s, answered_seq r = Some s → answered_seq r' = Some s;
  extends_expired : ∀ s, expired_seq r = Some s → expired_seq r' = Some s;
}.
#[local] Instance extends_refl : Reflexive extends.
Proof. by split. Qed.
#[local] Instance extends_trans : Transitive extends.
Proof. intros a b c [] []. split; solve [congruence|eauto]. Qed.

Lemma extends_insert (m : gmap string InteractionRecord) key r0 r1 k r :
  m !! key = Some r0 → extends r0 r1 → m !! k = Some r →
  ∃ r', <[key := r1]> m !! k = Some r' ∧ extends r r'.
Proof.
  intros Hr0 He Hk. destruct (decide (key = k)) as [->|].
  - rewrite lookup_insert_eq. simplify_eq. eauto.
  - rewrite lookup_insert_ne by done. exists r. by split.
Qed.

Lemma interaction_apply_extends p o k r :
  by_key p !! k = Some r → ∃ r', by_key (interaction_apply p o) !! k = Some r' ∧ extends r r'.
Proof.
  intros Hk. assert (∃ r', by_key p !! k = Some r' ∧ extends r r') as Hsame by (exists r; by split).
  unfold interaction_apply.
  repeat (case_match; try exact Hsame); simpl.
  - exists r. split; [|done]. rewrite lookup_insert_ne; [done|]. intros ->.
    match goal with Hb : bool_decide _ = false |- _ => apply bool_decide_eq_false in Hb; naive_solver end.
  - eapply extends_insert; [done| |done]. split; simpl; try done.
    intros z Hz. repeat match goal with Hb : _ || _ = false |- _ => apply orb_false_iff in Hb as [Hb ?] end.
    match goal with Hb : bool_decide (is_Some (answered_seq _)) = false |- _ =>
      apply bool_decide_eq_false in Hb; rewrite Hz in Hb; by destruct Hb end.
  - eapply extends_insert; [done| |done]. split; simpl; try done.
    intros z Hz. match goal with Hb : _ || _ = false |- _ => apply orb_false_iff in Hb as [Hb ?] end.
    match goal with Hb : bool_decide (is_Some (expired_seq _)) = false |- _ =>
      apply bool_decide_eq_false in Hb; rewrite Hz in Hb; by destruct Hb end.
  - eapply extends_insert; [done| |done]. by split.
Qed.

Lemma interaction_fold_extends os p k r :
  by_key p !! k = Some r →
  ∃ r', by_key (foldl interaction_apply p os) !! k = Some r' ∧ extends r r'.
Proof.
  revert p r. induction os as [|o os IH]; intros p r Hk; simpl; [exists r; by split|].
  destruct (interaction_apply_extends p o _ _ Hk) as (r1 & H1 & E1).
  destruct (IH _ _ H1) as (r2 & H2 & E2). exists r2. split; [done|]. by etrans.
Qed.

(** [o] asks for the interaction of key [k]. *)
Definition requests (k : string) (o : Obs) : Prop :=
  ∃ i, obs_body o = PInteractionRequested i ∧ request_key_json (int_request_key i) = Some k.

Lemma interaction_apply_new p o k r :
  by_key p !! k = None → by_key (interaction_apply p o) !! k = Some r →
  ∃ i, obs_body o = PInteractionRequested i ∧ request_key_json (int_request_key i) = Some k ∧
       r = mkInteractionRecord (int_id i) k IntPending (obs_seq o) None None.
Proof.
  intros Hn. unfold interaction_apply.
  repeat (case_match; simplify_eq/=; try (intros; congruence));
    rewrite lookup_insert_Some; intros [[-> <-]|[_ ?]]; simplify_eq; eauto.
Qed.
Lemma interaction_apply_requested p o k :
  requests k o → is_Some (by_key (interaction_apply p o) !! k).
Proof.
  intros (i & Hb & Hk). unfold interaction_apply. rewrite Hb, Hk.
  case_bool_decide; [done|]. simpl. rewrite lookup_insert_eq. eauto.
Qed.

Lemma interaction_fold_requested os j o k :
  os !! j = Some o → requests k o →
  is_Some (by_key (foldl interaction_apply interaction_default os) !! k).
Proof.
  intros Hj Hr. rewrite <- (take_drop_middle os j o Hj), foldl_app. simpl.
  destruct (interaction_apply_requested (foldl interaction_apply interaction_default (take j os)) o k Hr)
    as [r Hk].
  destruct (interaction_fold_extends (drop (S j) os) _ _ _ Hk) as (r' & ? & _). eauto.
Qed.

Lemma interaction_origin os k r :
  by_key (foldl interaction_apply interaction_default os) !! k = Some r →
  ∃ j o i, os !! j = Some o ∧ obs_body o = PInteractionRequested i ∧
    request_key_json (int_request_key i) = Some k ∧
    ir_interaction_id r = int_id i ∧ requested_seq r = obs_seq o ∧
    ∀ j' o', (j' < j)%nat → os !! j' = Some o' → ¬ requests k o'.
Proof.
  revert r. induction os as [|o os IH] using rev_ind; intros r; [done|].
  rewrite foldl_snoc. intros Hr.
  destruct (by_key (foldl interaction_apply interaction_default os) !! k) as [r0|] eqn:H0.
  - destruct (interaction_apply_extends _ o _ _ H0) as (r' & Hr' & [E1 E2 E3 _ _]). simplify_eq.
    destruct (IH r0 eq_refl) as (j & x & i & Hj & Hb & Hk & Hid & Hseq & Hmin).
    exists j, x, i. rewrite E1, E3. split_and!; try done; [by apply lookup_app_l_Some|].
    intros j' o' Hlt Hj'. apply (Hmin j'); [done|].
    rewrite lookup_app_l in Hj' by (apply lookup_lt_Some in Hj; lia). done.
  - destruct (interaction_apply_new _ _ _ _ H0 Hr) as (i & Hb & Hk & ->).
    exists (length os), o, i. split_and!; try done; [by rewrite list_lookup_middle|].
    intros j' o' Hlt Hj' Hreq. rewrite lookup_app_l in Hj' by done.
    destruct (interaction_fold_requested _ _ _ _ Hj' Hreq) as [? ?]. congruence.
Qed.

(** The first writer wins: an interaction record carries the identity and
    the sequence number of the first request with its key, and once an answer
    or an expiry is recorded no later observation changes it. *)
Theorem interaction_first_writer_wins os os' k r :
  by_key (foldl interaction_apply interaction_default os) !! k = Some r →
  (∃ j o i, os !! j = Some o ∧ obs_body o = PInteractionRequested i ∧
     request_key_json (int_request_key i) = Some k ∧
     ir_interaction_id r = int_id i ∧ requested_seq r = obs_seq o ∧
     ∀ j' o', (j' < j)%nat → os !! j' = Some o' → ¬ requests k o') ∧
  ∃ r', by_key (foldl interaction_apply interaction_default (os ++ os')) !! k = Some r' ∧
        extends r r'.
Proof.
  intros Hr. split; [by apply interaction_origin|].
  rewrite foldl_app. by apply interaction_fold_extends.
Qed.

(** ** Status *)

(** The observations that may take an instance out of [Failed]: an instance
    entity and a reconciliation notice. *)
Definition may_revive (o : Obs) : bool :=
  match obs_body o with
  | PLifecycle (LEntity e) => match ent_value e with LEInstance _ _ _ _ => true | _ => false end
  | PLifecycle (LNative n) => bool_decide (nat_topic n = TopicReconciliation)
  | _ => false
  end.

Lemma set_activity_lifecycle a s : st_lifecycle (set_activity a s) = st_lifecycle s.
Proof. done. Qed.
Lemma status_live_lifecycle s o : st_lifecycle (status_live s o) = st_lifecycle s.
Proof. unfold status_live. by case_match. Qed.

Lemma status_native_failed n s :
  st_lifecycle s = Failed ∨ native_lifecycle_failed n = true →
  nat_topic n ≠ TopicReconciliation → st_lifecycle (status_native n s) = Failed.
Proof.
  intros Hf Ht. unfold status_native.
  set (s1 := if native_lifecycle_failed n then _ else s).
  assert (st_lifecycle s1 = Failed) as H1.
  { subst s1. destruct Hf as [?| ->]; [by case_match|done]. }
  clearbody s1. clear Hf.
  set (s2 := match nat_topic n with TopicSession => _ | _ => _ end).
  assert (st_lifecycle s2 = Failed) as H2.
  { subst s2. destruct (nat_topic n); try done.
    - unfold status_session. by rewrite bool_decide_true.
    - by repeat case_match. }
  clearbody s2. by repeat case_match.
Qed.

Lemma status_apply_failed s o :
  st_lifecycle s = Failed → may_revive o = false → st_lifecycle (status_apply s o) = Failed.
Proof.
  intros Hs Hr. rewrite <- (status_live_lifecycle s o) in Hs.
  unfold status_apply, may_revive in *. revert Hs. generalize (status_live s o). clear s.
  intros s Hs. repeat (case_match; simplify_eq/=; try done).
  - unfold status_entity. repeat case_match; simplify_eq; done.
  - unfold status_entity. repeat case_match; simplify_eq; done.
  - apply status_native_failed; [by left|]. by apply bool_decide_eq_false in Hr.
Qed.

(** A failed instance stays failed until an instance entity or a
    reconciliation notice says otherwise. *)
Lemma failed_status_is_sticky s os :
  st_lifecycle s = Failed → Forall (λ o, may_revive o = false) os →
  st_lifecycle (foldl status_apply s os) = Failed.
Proof.
  intros Hs Hos. revert s Hs. induction Hos as [|o os Ho _ IH]; intros s Hs; [done|].
  simpl. apply IH. by apply status_apply_failed.
Qed.

(** A native session event whose name contains [exit] folds to [Failed],
    and neither it nor a later session event can fold to [Exited]: the [exit]
    test of the branch that sets [Exited] is never reached. *)
Theorem session_exit_never_folds_to_exited s n os :
  nat_topic n = TopicSession →
  str_contains "exit" (to_ascii_lowercase (nat_name n)) = true →
  Forall (λ o, may_revive o = false) os →
  st_lifecycle (foldl status_apply (status_native n s) os) = Failed.
Proof.
  intros Ht Hx Hos. apply failed_status_is_sticky; [|done].
  apply status_native_failed; [|by rewrite Ht]. right. unfold native_lifecycle_failed.
  case_bool_decide; [done|]. rewrite Hx. by rewrite orb_true_r.
Qed.
End interaction_facts.

(** ** Witnesses *)

Definition w_request_key_json : RequestKeyJson := λ k, Some (rk_native k).
Definition w_interaction : Interaction :=
  mkInteraction "int_1" (mkRequestKey "perm-1" 1 None "epoch_1") IntPending.
Definition w_obs (n : Z) (b : Payload) : Obs :=
  mkObs ("evt_" +:+ pretty n) "obj_j" "ins_a" "hst_h" n DeliveryLive None "" b.
Definition w_native (topic : LifecycleTopic) (name : string) : Payload :=
  PLifecycle (LNative (mkNativeEvent topic name (Known "") ∅ SevInfo)).
Definition w_journal : list Obs :=
  [w_obs 1 (w_native TopicSession "session-start");
   w_obs 2 (PMessage "obj_m1" RoleUser PhaseInput [BText "hello "; BOther "image"; BText "there"]);
   w_obs 3 (PToolCall "toolu_1" (Known "Bash") ToolRunning);
   w_obs 4 (PInteractionRequested w_interaction);
   w_obs 5 (PInteractionAnswered "int_1");
   w_obs 6 (PToolResult "toolu_1" ToolSucceeded [BText "ok"]);
   w_obs 7 (w_native TopicTurn "turn-result")].

Lemma w_journal_numbered : numbered w_journal.
Proof. intros k o Hk. do 7 (destruct k as [|k]; [by inversion Hk|]). done. Qed.

Lemma ordered_fold_witness :
  let arr := [w_obs 3 (PToolCall "toolu_1" (Known "Bash") ToolRunning);
              w_obs 1 (w_native TopicSession "session-start");
              w_obs 3 (PToolCall "toolu_1" (Known "Bash") ToolRunning)] in
  let f := foldl fold_push (fold_new (T := TranscriptProjection)) arr in
  next_seq f = 2 ∧
  ∃ m, (m ≤ length w_journal)%nat ∧ next_seq f = Z.of_nat m + 1 ∧
       fold_inner f = foldl apply_obs fold_default (take m w_journal) ∧
       (∀ k o, (k < m)%nat → w_journal !! k = Some o → o ∈ arr) ∧
       (∀ o, w_journal !! m = Some o → o ∉ arr).
Proof.
  intros arr f. split; [vm_compute; reflexivity|].
  apply (ordered_fold_applies_the_contiguous_prefix (T := TranscriptProjection) w_journal arr).
  - exact w_journal_numbered.
  - vm_compute. reflexivity.
  - apply list.Forall_forall. apply (bool_decide_unpack _). vm_compute. exact I.
Defined.

Lemma prepend_backfill_witness :
  let H := w_request_key_json in
  st_activity (status_proj (fold_all (reverse w_journal))) = Idle ∧
  fold_all (reverse w_journal) = foldl apply projections_default w_journal ∧
  fold_prepend_backfill (reverse w_journal) = fold_all (reverse w_journal).
Proof.
  intros H. split; [vm_compute; reflexivity|].
  apply (prepend_backfill_agrees_with_fold_all w_journal).
  - exact w_journal_numbered.
  - vm_compute. reflexivity.
  - apply reverse_Permutation.
Defined.

Lemma transcript_witness :
  let p := foldl transcript_apply transcript_default w_journal in
  turns p = [mkTurn 2 (Some 7) TurnUser] ∧
  entries p = omap entry_of w_journal ∧ as_of_seq p = Z.of_nat (length w_journal) ∧
  turns_ok (Z.of_nat (length w_journal)) (turns p).
Proof.
  intros p. split; [vm_compute; reflexivity|].
  apply (transcript_follows_the_journal w_journal). exact w_journal_numbered.
Defined.

Lemma first_writer_witness :
  let H := w_request_key_json in
  let r := mkInteractionRecord "int_1" "perm-1" AnswerCommitted 4 (Some 5) None in
  (∃ j o i, w_journal !! j = Some o ∧ obs_body o = PInteractionRequested i ∧
     request_key_json (int_request_key i) = Some "perm-1" ∧
     ir_interaction_id r = int_id i ∧ requested_seq r = obs_seq o ∧
     ∀ j' o', (j' < j)%nat → w_journal !! j' = Some o' → ¬ requests "perm-1" o') ∧
  ∃ r', by_key (foldl interaction_apply interaction_default
          (w_journal ++ [w_obs 8 (PInteractionExpired "int_1")])) !! "perm-1" = Some r' ∧
        extends r r'.
Proof.
  intros H r. apply (interaction_first_writer_wins w_journal). vm_compute. reflexivity.
Defined.

Lemma session_exit_witness :
  st_lifecycle (foldl status_apply
    (status_native (mkNativeEvent TopicSession "session-exit" NotApplicable ∅ SevInfo)
       status_default) [w_obs 2 (w_native TopicSession "session-start")]) = Failed.
Proof.
  apply (session_exit_never_folds_to_exited status_default _
           [w_obs 2 (w_native TopicSession "session-start")]).
  - reflexivity.
  - vm_compute. reflexivity.
  - repeat constructor.
Defined.
