(* ===== verification/Journal.v ===== *)
(** * The durable journal

    [remuda-journal/src/store.rs] with [envelope.rs], [blob.rs] and the integer
    helpers of [util.rs]: one append-only log per instance, kept as a JSONL file
    whose lines are indexed by SQLite.  The JSONL is the authority: the index is
    rebuilt from it at every open.

    A [Store] has a [Disk] (what survives the process: the JSONL files, the
    blobs, the database) and memory.  Every file and database operation is a
    point where the environment may fail; [faults] says which do, and a failing
    write may have written any prefix.  The writer thread serves one operation
    at a time, so a method is one computation in the state-and-error monad. *)
From stdpp Require Import base list gmap strings numbers sorting pretty.
From S2P Require Import Prelude Text Json Cover FileTail NodeStore Projection.
Local Open Scope Z_scope.

(** [enum Error]: the variants of the modelled code. *)
Inductive JError : Type :=
| ESqlite
| EIo
| EJson
| EProtocol
| EClosed
| EInstanceMismatch (target envelope : string)
| EJournalMismatch (i : string)
| EDiverged (i : string) (seq : Z)
| EGap (i : string) (from_seq durable_seq : Z).

(** [enum FsyncPolicy]. *)
Inductive FsyncPolicy : Type := FsyncNever | FsyncData | FsyncAll.

(** [u64 as i64], [i64 as u64] and [util::u64_i64]. *)
Definition as_i64 (z : Z) : Z := if z <=? i64_max then z else z - 2 ^ 64.
Definition as_u64 (z : Z) : Z := wrap64 z.
Definition u64_i64 (z : Z) : result Z JError := if z <=? i64_max then Ok z else Err EProtocol.

(** [struct RawPayload] and [struct Envelope] ([envelope.rs]); the fields the
    journal copies without reading are in [env_rest]. *)
Record RawPayload : Type := mkRaw {
  raw_bytes : list Z;
  raw_media_type : string;
  raw_redaction : string;
}.
Record Envelope : Type := mkEnvelope {
  env_journal_id : string;
  env_instance_id : string;
  env_host_id : string;
  env_delivery : SourceDelivery;
  env_rest : string;
  env_event_id : option string;
  env_body : Payload;
  env_raw : option RawPayload;
}.
(** [Envelope::with_jsonl_raw]. *)
Definition with_jsonl_raw (b : list Z) (e : Envelope) : Envelope :=
  mkEnvelope (env_journal_id e) (env_instance_id e) (env_host_id e) (env_delivery e) (env_rest e)
    (env_event_id e) (env_body e) (Some (mkRaw b "application/jsonl; charset=utf-8" "none")).

(** ** The SQLite tables *)

Record InstanceRow : Type := mkInstanceRow {
  row_journal_id : string;
  row_host_id : string;
  row_seq : Z;
}.
Record EventRow : Type := mkEventRow {
  row_event_id : string;
  row_offset : Z;
  row_length : Z;
  row_kind : string;
}.
Record InteractionRow : Type := mkInteractionRow {
  row_interaction_id : string;
  row_state : string;
  row_first_seq : Z;
}.
Record CursorRow : Type := mkCursorRow {
  row_identity : string;
  row_generation : Z;
  row_cursor_offset : Z;
  row_prefix_digest : option string;
}.
Record BlobRow : Type := mkBlobRow {
  row_object_id : string;
  row_blob_length : Z;
  row_media_type : string;
}.
Record CheckpointRow : Type := mkCheckpointRow {
  row_as_of_seq : Z;
  row_projections_json : string;
}.
(** Tables are keyed by their primary key; [blobs] by its unique digest. *)
Record Db : Type := mkDb {
  tbl_instances : gmap string InstanceRow;
  tbl_events : gmap (string * Z) EventRow;
  tbl_interactions : gmap (string * string) InteractionRow;
  tbl_cursors : gmap (string * string) CursorRow;
  tbl_blobs : gmap string BlobRow;
  tbl_checkpoints : gmap string CheckpointRow;
}.
Definition empty_db : Db := mkDb ∅ ∅ ∅ ∅ ∅ ∅.
Definition set_instances f (d : Db) : Db :=
  mkDb (f (tbl_instances d)) (tbl_events d) (tbl_interactions d) (tbl_cursors d) (tbl_blobs d)
    (tbl_checkpoints d).
Definition set_events f (d : Db) : Db :=
  mkDb (tbl_instances d) (f (tbl_events d)) (tbl_interactions d) (tbl_cursors d) (tbl_blobs d)
    (tbl_checkpoints d).
Definition set_interactions f (d : Db) : Db :=
  mkDb (tbl_instances d) (tbl_events d) (f (tbl_interactions d)) (tbl_cursors d) (tbl_blobs d)
    (tbl_checkpoints d).
Definition set_cursors f (d : Db) : Db :=
  mkDb (tbl_instances d) (tbl_events d) (tbl_interactions d) (f (tbl_cursors d)) (tbl_blobs d)
    (tbl_checkpoints d).
Definition set_blobs f (d : Db) : Db :=
  mkDb (tbl_instances d) (tbl_events d) (tbl_interactions d) (tbl_cursors d) (f (tbl_blobs d))
    (tbl_checkpoints d).
Definition set_checkpoints f (d : Db) : Db :=
  mkDb (tbl_instances d) (tbl_events d) (tbl_interactions d) (tbl_cursors d) (tbl_blobs d)
    (f (tbl_checkpoints d)).

(** ** Disk and store *)

(** [files] and [blob_files] are the directories [journal/] and [blobs/];
    [synced] is how much of a journal file has been made durable; [wal] are the
    earlier committed states of the database. *)
Record Disk : Type := mkDisk {
  files : gmap string (list Z);
  synced : gmap string nat;
  blob_files : gmap string (list Z);
  db : Db;
  wal : list Db;
}.
Definition empty_disk : Disk := mkDisk ∅ ∅ ∅ empty_db [].

(** One end of an [mpsc] channel of capacity 4096 each: what was sent, how much
    of it was received, and whether the receiver still exists. *)
Record Chan : Type := mkChan {
  sent : list Obs;
  taken : nat;
  receiving : bool;
}.
Definition channel_capacity : nat := 4096.

(** An operation of the environment succeeds or fails; a failing write leaves
    the first [n] bytes. *)
Inductive Fault : Type := NoFault | Fails (n : nat).

(** [struct Store]; the lock and the shutdown flag are in [run]. *)
Record Store : Type := mkStore {
  fsync : FsyncPolicy;
  disk : Disk;
  jsonl : gmap string Z;
  projections : gmap string Projections;
  subscribers : gmap string (list nat);
  channels : list Chan;
  faults : list Fault;
}.
Definition set_disk f (s : Store) : Store :=
  mkStore (fsync s) (f (disk s)) (jsonl s) (projections s) (subscribers s) (channels s) (faults s).
Definition set_jsonl f (s : Store) : Store :=
  mkStore (fsync s) (disk s) (f (jsonl s)) (projections s) (subscribers s) (channels s) (faults s).
Definition set_projections f (s : Store) : Store :=
  mkStore (fsync s) (disk s) (jsonl s) (f (projections s)) (subscribers s) (channels s) (faults s).
Definition set_subscribers f (s : Store) : Store :=
  mkStore (fsync s) (disk s) (jsonl s) (projections s) (f (subscribers s)) (channels s) (faults s).
Definition set_channels f (s : Store) : Store :=
  mkStore (fsync s) (disk s) (jsonl s) (projections s) (subscribers s) (f (channels s)) (faults s).
Definition set_faults f (s : Store) : Store :=
  mkStore (fsync s) (disk s) (jsonl s) (projections s) (subscribers s) (channels s) (f (faults s)).
Definition set_files f (d : Disk) : Disk := mkDisk (f (files d)) (synced d) (blob_files d) (db d) (wal d).
Definition set_synced f (d : Disk) : Disk := mkDisk (files d) (f (synced d)) (blob_files d) (db d) (wal d).
Definition set_blob_files f (d : Disk) : Disk := mkDisk (files d) (synced d) (f (blob_files d)) (db d) (wal d).
Definition commit_db (x : Db) (d : Disk) : Disk :=
  mkDisk (files d) (synced d) (blob_files d) x (db d :: wal d).

Abbreviation jm := (st Store JError).

(** The next outcome of the environment. *)
Definition io (e : JError) : jm unit := λ s,
  match faults s with
  | Fails _ :: r => (set_faults (λ _, r) s, Err e)
  | NoFault :: r => (set_faults (λ _, r) s, Ok tt)
  | [] => (s, Ok tt)
  end.

(** A query, an auto-committed statement, and a transaction: the database
    changes all at once or not at all. *)
Definition db_query {A} (f : Db → A) : jm A :=
  _ ← io ESqlite; s ← st_get; mret (f (db (disk s))).
Definition db_try (f : Db → result Db JError) : jm unit :=
  _ ← io ESqlite; s ← st_get;
  d ← st_lift (f (db (disk s)));
  st_modify (set_disk (commit_db d)).
Definition db_exec (f : Db → Db) : jm unit := db_try (λ d, Ok (f d)).

(** [<data_dir>/journal/<key>.jsonl]. *)
Definition jsonl_path_key (key : string) : string := key +:+ ".jsonl".

(** [ends_with(".jsonl")] and [trim_end_matches(".jsonl")]. *)
Fixpoint strip_jsonl (s : string) : option string :=
  if decide (s = ".jsonl") then Some ""
  else match s with
       | EmptyString => None
       | String c r => String c <$> strip_jsonl r
       end.
Fixpoint trim_jsonl (fuel : nat) (s : string) : string :=
  match fuel with
  | O => s
  | S n => match strip_jsonl s with Some k => trim_jsonl n k | None => s end
  end.

(** [Digest::try_from] of the protocol. *)
Definition is_lower_hex (c : Ascii.ascii) : bool :=
  let n := Ascii.nat_of_ascii c in
  ((48 <=? n) && (n <=? 57))%nat || ((97 <=? n) && (n <=? 102))%nat.
Fixpoint all_lower_hex (s : string) : bool :=
  match s with
  | EmptyString => true
  | String c r => is_lower_hex c && all_lower_hex r
  end.
Definition digest_try_from (s : string) : bool :=
  (String.length s =? 71)%nat && String.prefix "sha256:" s &&
  all_lower_hex (String.substring 7 64 s).

(** What serde_json, the UUID crate and SHA-256 do. *)
Class Codec : Type := {
  encode_obs : Obs → option (list Z);
  decode_obs : list Z → option Obs;
  encode_projections : Projections → option string;
  valid_id : string → bool;
  valid_instance_id : string → bool;
  sha256 : list Z → list Z;
  codec_request_key :: RequestKeyJson;
}.

(** The documented behaviour of those libraries that the journal relies on:
    serialising an observation or a projection cannot fail (every map has
    string keys), an encoded observation decodes to itself, a compact JSON text
    has no line feed and is not empty, and a canonical UUID has no [.jsonl]
    suffix. *)
Class CodecLaws `{Codec} : Prop := {
  encode_total : ∀ o, is_Some (encode_obs o);
  encode_projections_total : ∀ p, is_Some (encode_projections p);
  decode_encode : ∀ o b, encode_obs o = Some b → decode_obs b = Some o;
  encode_line : ∀ o b, encode_obs o = Some b → 10 ∉ b ∧ b ≠ [];
  instance_id_plain : ∀ k, valid_instance_id k = true → strip_jsonl k = None;
}.

(** [format!("{:?}", body.kind())]. *)
Definition kind_debug (b : Payload) : string :=
  match b with
  | PMessage _ _ _ _ => "Message"
  | PThought _ _ => "Thought"
  | PToolCall _ _ _ => "ToolCall"
  | PToolResult _ _ _ => "ToolResult"
  | PInteractionRequested _ => "InteractionRequested"
  | PInteractionAnswered _ => "InteractionAnswered"
  | PInteractionExpired _ => "InteractionExpired"
  | PLifecycle _ => "Lifecycle"
  | PWorkflowRun => "WorkflowRun"
  | POpaque _ => "Opaque"
  | POther k => k
  end.

Section store.
Context `{Codec}.

(** ** [ensure_instance], [watermark] *)

Definition ensure_instance (i journal_id host_id : string) : jm unit :=
  existing ← db_query (λ d, tbl_instances d !! i);
  match existing with
  | Some r => if bool_decide (row_journal_id r ≠ journal_id) then st_fail (EJournalMismatch i)
              else mret tt
  | None => db_exec (set_instances <[i := mkInstanceRow journal_id host_id 0]>)
  end.

Definition watermark (i : string) : jm Z :=
  r ← db_query (λ d, tbl_instances d !! i);
  mret (as_u64 (match r with Some r => row_seq r | None => 0 end)).

(** ** [BlobStore::put] ([blob.rs])

    The object id and the name of the temporary file are fresh ids, given as
    arguments. *)

Definition hex_of (b : list Z) : string := hex_lower (sha256 b).

Definition write_blob (name : string) (b : list Z) : jm unit := λ s,
  let put c := set_disk (set_blob_files <[name := c]>) in
  match faults s with
  | Fails n :: r => (put (take n b) (set_faults (λ _, r) s), Err EIo)
  | NoFault :: r => (put b (set_faults (λ _, r) s), Ok tt)
  | [] => (put b s, Ok tt)
  end.
Definition rename_blob (from to : string) : jm unit :=
  _ ← io EIo;
  st_modify (set_disk (set_blob_files (λ m,
    match m !! from with Some c => <[to := c]> (delete from m) | None => m end))).

Definition insert_blob (dig : string) (row : BlobRow) (d : Db) : result Db JError :=
  if bool_decide (is_Some (tbl_blobs d !! dig)) ||
     bool_decide (¬ map_Forall (λ _ r, row_object_id r ≠ row_object_id row) (tbl_blobs d))
  then Err ESqlite
  else Ok (set_blobs <[dig := row]> d).

Definition put (raw : RawPayload) (object_id uuid : string) : jm RawRef :=
  let dig := digest_of sha256 (raw_bytes raw) in
  found ← db_query (λ d, tbl_blobs d !! dig);
  match found with
  | Some row =>
      if valid_id (row_object_id row)
      then mret (mkRawRef (row_object_id row) 0 (as_u64 (row_blob_length row)) dig
                   (raw_media_type raw) (raw_redaction raw))
      else st_fail EProtocol
  | None =>
      let dest := hex_of (raw_bytes raw) in
      let tmp := "." +:+ dest +:+ "." +:+ uuid +:+ ".tmp" in
      s ← st_get;
      _ ← (if bool_decide (is_Some (blob_files (disk s) !! dest)) then mret tt
           else
             _ ← io EIo;
             _ ← write_blob tmp (raw_bytes raw);
             _ ← match fsync s with FsyncNever => mret tt | _ => io EIo end;
             rename_blob tmp dest);
      _ ← db_try (insert_blob dig
                    (mkBlobRow object_id (as_i64 (byte_len (raw_bytes raw))) (raw_media_type raw)));
      mret (mkRawRef object_id 0 (byte_len (raw_bytes raw)) dig (raw_media_type raw)
              (raw_redaction raw))
  end.

(** ** [write_jsonl] *)

(** [OpenOptions::create(true).append(true).read(true)] and the cached length. *)
Definition open_jsonl (key : string) : jm unit :=
  s ← st_get;
  if bool_decide (is_Some (jsonl s !! key)) then mret tt
  else
    _ ← io EIo;
    _ ← st_modify (set_disk (set_files (λ m,
          match m !! jsonl_path_key key with
          | Some _ => m
          | None => <[jsonl_path_key key := []]> m
          end)));
    _ ← io EIo;
    s ← st_get;
    st_modify (set_jsonl <[key := byte_len (files (disk s) !!! jsonl_path_key key)]>).

(** An append-mode [write_all]. *)
Definition append_file (name : string) (b : list Z) (d : Disk) : Disk :=
  set_files <[name := (files d !!! name) ++ b]> d.
Definition write_all (name : string) (b : list Z) : jm unit := λ s,
  match faults s with
  | Fails n :: r => (set_disk (append_file name (take n b)) (set_faults (λ _, r) s), Err EIo)
  | NoFault :: r => (set_disk (append_file name b) (set_faults (λ _, r) s), Ok tt)
  | [] => (set_disk (append_file name b) s, Ok tt)
  end.
Definition sync_file (name : string) : jm unit :=
  s ← st_get;
  match fsync s with
  | FsyncNever => mret tt
  | _ => _ ← io EIo;
         st_modify (set_disk (λ d, set_synced <[name := length (files d !!! name)]> d))
  end.

Definition write_jsonl (key : string) (line : list Z) : jm (Z * Z) :=
  _ ← open_jsonl key;
  s ← st_get;
  let offset := jsonl s !!! key in
  let record := line ++ [10] in
  let length := byte_len record in
  _ ← write_all (jsonl_path_key key) record;
  _ ← st_modify (set_jsonl <[key := wrap64 (offset + length)]>);
  _ ← sync_file (jsonl_path_key key);
  mret (offset, length).

(** ** [commit_index] *)

Definition insert_event (i : string) (seq : Z) (row : EventRow) (d : Db) : result Db JError :=
  if bool_decide (is_Some (tbl_events d !! (i, seq))) ||
     bool_decide (¬ map_Forall (λ _ r, row_event_id r ≠ row_event_id row) (tbl_events d))
  then Err ESqlite
  else Ok (set_events <[(i, seq) := row]> d).

(** [INSERT OR IGNORE INTO interactions]. *)
Definition ignore_interaction (i : string) (x : Interaction) (seq : Z) (d : Db) : Db :=
  match request_key_json (int_request_key x) with
  | None => d
  | Some k =>
      if bool_decide (is_Some (tbl_interactions d !! (i, k))) then d
      else set_interactions <[(i, k) := mkInteractionRow (int_id x) "pending" seq]> d
  end.

(** [UPDATE interactions SET state = ?1 WHERE instance_id = ?2 AND
    interaction_id = ?3], with [AND state = 'pending'] when [pending_only]. *)
Definition update_interaction (pending_only : bool) (state i id : string) (d : Db) : Db :=
  set_interactions (map_imap (λ k r,
    Some (if bool_decide (k.1 = i) && bool_decide (row_interaction_id r = id) &&
             (negb pending_only || bool_decide (row_state r = "pending"))
          then mkInteractionRow (row_interaction_id r) state (row_first_seq r) else r))) d.

Definition index_interaction (i : string) (o : Obs) (seq : Z) (d : Db) : Db :=
  match obs_body o with
  | PInteractionRequested x => ignore_interaction i x seq d
  | PInteractionAnswered id => update_interaction true "answered" i id d
  | PInteractionExpired id => update_interaction true "expired" i id d
  | PLifecycle (LEntity e) =>
      match ent_value e with
      | LEInteraction x => update_interaction false (ent_state e) i (int_id x) d
      | _ => d
      end
  | _ => d
  end.

Definition set_seq (i : string) (seq : Z) (d : Db) : Db :=
  set_instances (alter (λ r, mkInstanceRow (row_journal_id r) (row_host_id r) seq) i) d.

Definition event_row (o : Obs) (offset length : Z) : EventRow :=
  mkEventRow (obs_event_id o) (as_i64 offset) (as_i64 length) (kind_debug (obs_body o)).

Definition commit_index (i : string) (o : Obs) (offset length : Z) : jm unit :=
  db_try (λ d,
    match u64_i64 (obs_seq o) with
    | Err e => Err e
    | Ok seq =>
        match insert_event i seq (event_row o offset length) (set_seq i seq d) with
        | Err e => Err e
        | Ok d => Ok (index_interaction i o seq d)
        end
    end).

(** ** [save_checkpoint], [broadcast] *)

Definition save_checkpoint (i : string) : jm unit :=
  s ← st_get;
  match projections s !! i with
  | None => mret tt
  | Some p =>
      json ← st_lift (ok_or (encode_projections p) EJson);
      seq ← watermark i;
      db_exec (set_checkpoints <[i := mkCheckpointRow (as_i64 seq) json]>)
  end.

(** [try_send]: refused when the receiver is gone or the channel is full. *)
Definition accepts (c : Chan) : bool :=
  receiving c && (length (sent c) - taken c <? channel_capacity)%nat.
Definition send_to (o : Obs) (c : Chan) : Chan := mkChan (sent c ++ [o]) (taken c) (receiving c).
Definition broadcast (key : string) (o : Obs) (s : Store) : Store :=
  match subscribers s !! key with
  | None => s
  | Some l =>
      let ok c := match channels s !! c with Some ch => accepts ch | None => false end in
      let live := retain ok l in
      set_subscribers <[key := live]> (set_channels (λ chs, foldr (alter (send_to o)) chs live) s)
  end.

(** ** [append] *)

(** The ids [append] mints. *)
Record Minted : Type := mkMinted {
  mint_event : string;
  mint_object : string;
  mint_tmp : string;
}.

Definition observation_of (e : Envelope) (event_id : string) (seq : Z) (r : option RawRef) : Obs :=
  mkObs event_id (env_journal_id e) (env_instance_id e) (env_host_id e) seq (env_delivery e) r
    (env_rest e)
    (match r, env_body e with
     | Some r, POpaque _ => POpaque r
     | _, b => b
     end).

Definition append (i : string) (e : Envelope) (m : Minted) : jm Z :=
  if bool_decide (env_instance_id e ≠ i) then st_fail (EInstanceMismatch i (env_instance_id e))
  else
    _ ← ensure_instance i (env_journal_id e) (env_host_id e);
    raw_ref ← match env_raw e with
              | Some raw => r ← put raw (mint_object m) (mint_tmp m); mret (Some r)
              | None => mret None
              end;
    w ← watermark i;
    let seq := wrap64 (w + 1) in
    let obs := observation_of e (default (mint_event m) (env_event_id e)) seq raw_ref in
    line ← st_lift (ok_or (encode_obs obs) EJson);
    ol ← write_jsonl i line;
    _ ← commit_index i obs ol.1 ol.2;
    _ ← st_modify (set_projections (λ p,
          <[i := apply (default projections_default (p !! i)) obs]> p));
    _ ← save_checkpoint i;
    _ ← st_modify (broadcast i obs);
    mret seq.

(** ** Reading *)

Definition read_jsonl_at (i : string) (offset length : Z) : jm Obs :=
  _ ← open_jsonl i;
  _ ← io EIo;
  s ← st_get;
  let content := files (disk s) !!! jsonl_path_key i in
  let take_ := Z.max 0 (length - 1) in
  if offset + take_ <=? byte_len content
  then st_lift (ok_or (decode_obs (take (Z.to_nat take_) (drop (Z.to_nat offset) content))) EJson)
  else st_fail EIo.

(** The rows of [SELECT jsonl_offset, jsonl_length ... ORDER BY seq LIMIT]; a
    negative limit is no limit. *)
Definition row_le (a b : (string * Z) * EventRow) : Prop := a.1.2 ≤ b.1.2.
#[export] Instance row_le_dec : RelDecision row_le.
Proof. intros a b. unfold row_le. apply _. Defined.
Definition select_events (i : string) (from to limit : Z) (d : Db) : list (Z * Z) :=
  let rows := merge_sort row_le
    (map_to_list (filter (λ kr, kr.1.1 = i ∧ from ≤ kr.1.2 ≤ to) (tbl_events d))) in
  let rows := if limit <? 0 then rows else take (Z.to_nat limit) rows in
  (λ kr, (as_u64 (row_offset kr.2), as_u64 (row_length kr.2))) <$> rows.

Fixpoint read_spans (i : string) (rows : list (Z * Z)) : jm (list Obs) :=
  match rows with
  | [] => mret []
  | (offset, length) :: r =>
      o ← read_jsonl_at i offset length;
      os ← read_spans i r;
      mret (o :: os)
  end.

Definition read_rows (i : string) (from_seq : Z) (to_seq : option Z) (durable : Z)
    (limit : option Z) : jm (list Obs * Z) :=
  let from := Z.max from_seq 1 in
  let to := default durable to_seq in
  if (durable <? from) || (to <? from) then mret ([], 0)
  else
    let limit_i64 := match limit with Some l => Z.min l i64_max | None => -1 end in
    rows ← db_query (select_events i (as_i64 from) (as_i64 to) limit_i64);
    os ← read_spans i rows;
    mret (os, foldl (λ n row, saturating_add64 n row.2) 0 rows).

Definition read_range (i : string) (from_seq : Z) (to_seq : option Z) : jm (list Obs) :=
  durable ← watermark i;
  r ← read_rows i from_seq to_seq durable None;
  mret r.1.

(** [struct Page]. *)
Record Page : Type := mkPage {
  page_observations : list Obs;
  page_bytes_read : Z;
  page_last_seq : option Z;
  page_durable_seq : Z;
}.
Definition MAX_PAGE : Z := 256.

Definition read_page (i : string) (from_seq : Z) (to_seq : option Z) (limit : Z) : jm Page :=
  durable ← watermark i;
  let limit := Z.min (Z.max limit 1) MAX_PAGE in
  r ← read_rows i from_seq to_seq durable (Some limit);
  mret (mkPage r.1 r.2 (obs_seq <$> last r.1) durable).

(** [struct Snapshot]. *)
Definition snapshot (i : string) : jm (Z * Projections) :=
  as_of ← watermark i;
  s ← st_get;
  _ ← (if bool_decide (projections s !! i = None) && (0 <? as_of) then
         items ← read_range i 1 (Some as_of);
         st_modify (set_projections <[i := foldl apply projections_default items]>)
       else mret tt);
  s ← st_get;
  mret (as_of, default projections_default (projections s !! i)).

(** ** [follow]

    The subscription comes before the backfill; when the call fails its
    receiver is dropped, and the sender stays until the next broadcast. *)
Definition hang_up (c : nat) : Store → Store :=
  set_channels (alter (λ ch, mkChan (sent ch) (taken ch) false) c).
Definition backfill (i : string) (from_seq : Z) : jm (list Obs) :=
  durable ← watermark i;
  let from := Z.max from_seq 1 in
  if durable + 1 <? from then st_fail (EGap i from durable)
  else if from <=? durable then read_range i from (Some durable)
  else mret [].
Definition follow (i : string) (from_seq : Z) : jm (list Obs * nat) := λ s,
  let c := length (channels s) in
  let s := set_channels (λ chs, chs ++ [mkChan [] 0 true]) s in
  let s := set_subscribers (λ m, <[i := default [] (m !! i) ++ [c]]> m) s in
  match backfill i from_seq s with
  | (s, Ok history) => (s, Ok (history, c))
  | (s, Err e) => (hang_up c s, Err e)
  end.

(** ** Source cursors *)

Definition put_resume (i : string) (r : SourceResume) : jm unit :=
  generation ← st_lift (u64_i64 (res_generation r));
  offset ← st_lift (u64_i64 (res_offset r));
  db_exec (set_cursors <[(i, source_key r) :=
             mkCursorRow (res_identity r) generation offset (res_prefix r)]>).

Definition get_resume (i key : string) : jm (option SourceResume) :=
  row ← db_query (λ d, tbl_cursors d !! (i, key));
  match row with
  | None => mret None
  | Some r =>
      if match row_prefix_digest r with Some t => digest_try_from t | None => true end
         && valid_id (row_identity r)
      then mret (Some (mkResume key (row_identity r) (as_u64 (row_generation r))
                         (as_u64 (row_cursor_offset r)) (row_prefix_digest r)))
      else st_fail EProtocol
  end.

(** ** [recover] and [open] *)

(** [INSERT OR REPLACE INTO events]: the rows that conflict on the primary key
    or on the unique event id are deleted. *)
Definition replace_event (i : string) (seq : Z) (row : EventRow) (d : Db) : Db :=
  set_events (λ m, <[(i, seq) := row]> (filter (λ kr, row_event_id kr.2 ≠ row_event_id row) m)) d.

(** The state of the loop over the lines of one file. *)
Record Scan : Type := mkScan {
  sc_seq : Z;
  sc_offset : Z;
  sc_proj : Projections;
}.

Definition recover_line (i : string) (sc : Scan) (chunk : list Z) : jm Scan :=
  if bool_decide (chunk = []) then mret sc
  else
    obs ← st_lift (ok_or (decode_obs chunk) EJson);
    if bool_decide (obs_instance_id obs ≠ i) then st_fail (EDiverged i (obs_seq obs))
    else
      let seq := obs_seq obs in
      let length := byte_len chunk + 1 in
      _ ← db_exec (replace_event i (as_i64 seq) (event_row obs (sc_offset sc) length));
      _ ← match obs_body obs with
          | PInteractionRequested x =>
              if bool_decide (is_Some (request_key_json (int_request_key x)))
              then db_exec (ignore_interaction i x (as_i64 seq)) else mret tt
          | _ => mret tt
          end;
      _ ← ensure_instance i (obs_journal_id obs) (obs_host_id obs);
      mret (mkScan seq (wrap64 (sc_offset sc + length)) (apply (sc_proj sc) obs)).

Fixpoint recover_lines (i : string) (sc : Scan) (chunks : list (list Z)) : jm Scan :=
  match chunks with
  | [] => mret sc
  | c :: r => sc ← recover_line i sc c; recover_lines i sc r
  end.

Definition valid_len (b : list Z) : nat :=
  match rposition (λ x, x =? 10) b with Some p => S p | None => 0%nat end.

(** [set_len] and, unless fsync is off, [sync_data]. *)
Definition truncate_file (name : string) (n : nat) : jm unit :=
  _ ← io EIo;
  _ ← st_modify (set_disk (λ d, set_synced (alter (Nat.min n) name)
                                  (set_files <[name := take n (files d !!! name)]> d)));
  sync_file name.

Definition recover_file (name : string) : jm unit :=
  match strip_jsonl name with
  | None => mret tt
  | Some _ =>
      let i := trim_jsonl (String.length name) name in
      if negb (valid_instance_id i) then st_fail EProtocol
      else
        _ ← io EIo;
        s ← st_get;
        let bytes := files (disk s) !!! name in
        let n := valid_len bytes in
        _ ← (if bool_decide (n < length bytes)%nat then truncate_file name n else mret tt);
        sc ← recover_lines i (mkScan 0 0 projections_default)
               (split_on (λ x, x =? 10) (take n bytes));
        _ ← db_exec (set_events (filter (λ kr, ¬ (kr.1.1 = i ∧ as_i64 (sc_seq sc) < kr.1.2))));
        _ ← db_exec (set_seq i (if 0 <? sc_seq sc then as_i64 (sc_seq sc) else 0));
        _ ← st_modify (set_projections <[i := sc_proj sc]>);
        save_checkpoint i
  end.

(** [names] is the order in which [read_dir] lists the directory. *)
Definition recover (names : list string) : jm unit := st_for names recover_file.

Definition fresh_store (p : FsyncPolicy) (d : Disk) (fs : list Fault) : Store :=
  mkStore p d ∅ ∅ ∅ [] fs.
Definition open (p : FsyncPolicy) (names : list string) (d : Disk) (fs : list Fault)
  : Store * result unit JError := recover names (fresh_store p d fs).

(** ** The writer thread *)

Inductive OpKind : Type :=
| OpAppend (i : string) (e : Envelope) (m : Minted)
| OpReadRange (i : string) (from_seq : Z) (to_seq : option Z)
| OpReadPage (i : string) (from_seq : Z) (to_seq : option Z) (limit : Z)
| OpSnapshot (i : string)
| OpFollow (i : string) (from_seq : Z)
| OpPutResume (i : string) (r : SourceResume)
| OpGetResume (i key : string)
| OpDurableSeq (i : string)
| OpShutdown.

Inductive OpOut : Type :=
| OutSeq (seq : Z)
| OutObservations (os : list Obs)
| OutPage (p : Page)
| OutSnapshot (as_of : Z) (p : Projections)
| OutFollow (history : list Obs) (rx : nat)
| OutResume (r : option SourceResume)
| OutWatermark (seq : Z)
| OutUnit.

Definition jmap {A B} (f : A → B) (c : jm A) : jm B := x ← c; mret (f x).

Definition handle (k : OpKind) : jm OpOut :=
  match k with
  | OpAppend i e m => jmap OutSeq (append i e m)
  | OpReadRange i from to => jmap OutObservations (read_range i from to)
  | OpReadPage i from to limit => jmap OutPage (read_page i from to limit)
  | OpSnapshot i => jmap (λ r, OutSnapshot r.1 r.2) (snapshot i)
  | OpFollow i from => jmap (λ r, OutFollow r.1 r.2) (follow i from)
  | OpPutResume i r => jmap (λ _, OutUnit) (put_resume i r)
  | OpGetResume i key => jmap OutResume (get_resume i key)
  | OpDurableSeq i => jmap OutWatermark (watermark i)
  | OpShutdown => mret OutUnit
  end.

(** What happens between two operations: a follower receives an observation or
    goes away. *)
Inductive Event : Type :=
| EvOp (k : OpKind)
| EvRecv (c : nat)
| EvDrop (c : nat).

Definition recv (c : nat) : Store → Store :=
  set_channels (alter (λ ch, mkChan (sent ch) (Nat.min (S (taken ch)) (length (sent ch)))
                               (receiving ch)) c).

(** [Store::run]: operations are answered in order until a shutdown. *)
Fixpoint run_writer (evs : list Event) (s : Store) : Store * list (result OpOut JError) :=
  match evs with
  | [] => (s, [])
  | EvOp OpShutdown :: _ => (s, [])
  | EvOp k :: r =>
      let '(s, a) := handle k s in
      let '(s, out) := run_writer r s in (s, a :: out)
  | EvRecv c :: r => run_writer r (recv c s)
  | EvDrop c :: r => run_writer r (hang_up c s)
  end.
End store.
