(* ===== verification/JournalLog.v ===== *)
(** * The journal as an append-only log

    What the files and the index of [Journal] stand for: one list of
    observations per instance.  [disk_ok] says what a disk may look like at any
    moment (a torn last line, a stale index); [rep] is the live store between
    two operations.  This file proves that [append] and [recover] respect them
    on every path, failures of the environment included. *)
From stdpp Require Import base list gmap strings numbers sorting.
From S2P Require Import Prelude Text Json Cover FileTail NodeStore Projection Journal.
Local Open Scope Z_scope.

(** ** The abstract state *)

Record Log : Type := mkLog {
  logs : gmap string (list Obs);
  jids : gmap string string;
  ablobs : gmap string BlobRow;
  acursors : gmap (string * string) CursorRow;
}.
Definition log_of (A : Log) (i : string) : list Obs := default [] (logs A !! i).
Definition log_append (i : string) (o : Obs) (A : Log) : Log :=
  mkLog (<[i := log_of A i ++ [o]]> (logs A)) (jids A) (ablobs A) (acursors A).
Definition log_register (i j : string) (A : Log) : Log :=
  mkLog (logs A) (<[i := j]> (jids A)) (ablobs A) (acursors A).

Lemma log_of_append_eq A i o : log_of (log_append i o A) i = log_of A i ++ [o].
Proof. unfold log_of at 1. simpl. by rewrite lookup_insert_eq. Qed.
Lemma log_of_append_ne A i j o : i ≠ j → log_of (log_append i o A) j = log_of A j.
Proof. intros. unfold log_of at 1. simpl. by rewrite lookup_insert_ne. Qed.

(** ** File names *)

Lemma strip_jsonl_path k : strip_jsonl (jsonl_path_key k) = Some k.
Proof.
  unfold jsonl_path_key. induction k as [|c k IH]; [done|].
  assert (String c k +:+ ".jsonl" ≠ ".jsonl") as Hne.
  { intros Heq. apply (f_equal String.length) in Heq. revert Heq. clear.
    change (String c k +:+ ".jsonl") with (String c (k +:+ ".jsonl")). simpl.
    assert (String.length (k +:+ ".jsonl") ≥ 6)%nat; [|lia].
    induction k as [|d k IHk]; simpl; [lia|]. change (String d k +:+ ".jsonl") with (String d (k +:+ ".jsonl")).
    simpl. lia. }
  change (String c k +:+ ".jsonl") with (String c (k +:+ ".jsonl")) in *.
  cbn [strip_jsonl]. rewrite decide_False by done. by rewrite IH.
Qed.
#[export] Instance jsonl_path_inj : Inj (=) (=) jsonl_path_key.
Proof. intros a b Hab. apply (f_equal strip_jsonl) in Hab. rewrite !strip_jsonl_path in Hab. congruence. Qed.

Section log.
Context `{CodecLaws}.

Lemma trim_jsonl_path i :
  valid_instance_id i = true → trim_jsonl (String.length (jsonl_path_key i)) (jsonl_path_key i) = i.
Proof.
  intros Hv. assert (∃ n, String.length (jsonl_path_key i) = S n) as [n ->].
  { unfold jsonl_path_key. destruct i; [eexists; done|]. eexists. simpl. done. }
  simpl. rewrite strip_jsonl_path. destruct n as [|n]; [done|]. simpl.
  by rewrite instance_id_plain.
Qed.

(** ** Lines *)

Definition enc (o : Obs) : list Z := default [] (encode_obs o).
Definition record_of (o : Obs) : list Z := enc o ++ [10].
Fixpoint lines (L : list Obs) : list Z :=
  match L with
  | [] => []
  | o :: L => record_of o ++ lines L
  end.

Lemma encode_enc o : encode_obs o = Some (enc o).
Proof. unfold enc. by destruct (encode_total o) as [b ->]. Qed.
Lemma decode_enc o : decode_obs (enc o) = Some o.
Proof. apply decode_encode, encode_enc. Qed.
Lemma enc_no_newline o : 10 ∉ enc o.
Proof. by apply (encode_line o), encode_enc. Qed.
Lemma enc_nonempty o : enc o ≠ [].
Proof. by apply (encode_line o), encode_enc. Qed.
Lemma enc_inj o o' : enc o = enc o' → o = o'.
Proof. intros He. apply (f_equal decode_obs) in He. rewrite !decode_enc in He. congruence. Qed.

Lemma lines_app L K : lines (L ++ K) = lines L ++ lines K.
Proof. induction L as [|o L IH]; simpl; [done|]. by rewrite IH, app_assoc. Qed.
Lemma lines_snoc L o : lines (L ++ [o]) = lines L ++ record_of o.
Proof. rewrite lines_app. simpl. by rewrite app_nil_r. Qed.
Lemma byte_len_pos (a : list Z) : 0 ≤ byte_len a.
Proof. unfold byte_len. lia. Qed.
Lemma byte_len_record o : byte_len (record_of o) = byte_len (enc o) + 1.
Proof. unfold record_of. rewrite byte_len_app. done. Qed.

Lemma lines_long L : Z.of_nat (length L) ≤ byte_len (lines L).
Proof.
  induction L as [|o L IH]; [done|]. cbn [lines length]. rewrite byte_len_app, byte_len_record.
  pose proof (byte_len_pos (enc o)). lia.
Qed.
Lemma lines_take_le L k : byte_len (lines (take k L)) ≤ byte_len (lines L).
Proof.
  rewrite <- (take_drop k L) at 2. rewrite lines_app, byte_len_app.
  pose proof (byte_len_pos (lines (drop k L))). lia.
Qed.

Lemma no_newline_forall (b : list Z) : 10 ∉ b → Forall (λ x, (x =? 10) = false) b.
Proof.
  intros Hn. apply list.Forall_forall. intros x Hx. apply Z.eqb_neq. by intros ->.
Qed.

Lemma split_lines L : split_on (λ x, x =? 10) (lines L) = (enc <$> L) ++ [[]].
Proof.
  induction L as [|o L IH]; [done|]. cbn [lines]. unfold record_of.
  rewrite <- app_assoc. cbn [app]. rewrite split_on_word_app; [|by apply no_newline_forall, enc_no_newline|done].
  by rewrite IH.
Qed.

Lemma rposition_app_none {X} (p : X → bool) (a b : list X) :
  rposition p b = None → rposition p (a ++ b) = rposition p a.
Proof. intros Hb. induction a as [|x a IH]; simpl; [done|]. by rewrite IH. Qed.
Lemma rposition_snoc {X} (p : X → bool) (a : list X) x :
  p x = true → rposition p (a ++ [x]) = Some (length a).
Proof. intros Hx. induction a as [|y a IH]; simpl; [by rewrite Hx|]. by rewrite IH. Qed.

Lemma valid_len_lines L torn : 10 ∉ torn → valid_len (lines L ++ torn) = length (lines L).
Proof.
  intros Ht. unfold valid_len. rewrite rposition_app_none.
  2:{ apply rposition_None. intros x Hx. apply Z.eqb_neq. by intros ->. }
  destruct L as [|o L _] using rev_ind; [done|].
  rewrite lines_snoc. unfold record_of. rewrite app_assoc, rposition_snoc by done.
  rewrite !length_app. simpl. lia.
Qed.

(** A file cut anywhere is a shorter log with a torn line. *)
Lemma cut_lines L n :
  ∃ k torn, (k ≤ length L)%nat ∧ take n (lines L) = lines (take k L) ++ torn ∧ 10 ∉ torn.
Proof.
  revert n. induction L as [|o L IH]; intros n.
  - exists 0%nat, []. simpl. rewrite take_nil. split_and!; [lia|done|by apply not_elem_of_nil].
  - cbn [lines]. rewrite take_app. destruct (decide (n < length (record_of o))%nat) as [Hlt|Hge].
    + exists 0%nat, (take n (record_of o)).
      replace (n - length (record_of o))%nat with 0%nat by lia. rewrite take_0, app_nil_r.
      split_and!; [simpl; lia|done|]. unfold record_of in *. rewrite length_app in Hlt. simpl in Hlt.
      rewrite take_app_le by lia. intros Hin. apply (enc_no_newline o).
      by apply elem_of_take in Hin as (? & ? & _); eapply list_elem_of_lookup_2.
    + destruct (IH (n - length (record_of o))%nat) as (k & torn & Hk & Heq & Ht).
      exists (S k), torn. split_and!; [simpl; lia| |done]. cbn [take lines].
      rewrite (take_ge (record_of o)) by lia. by rewrite Heq, app_assoc.
Qed.

(** ** Invariants *)

(** The abstract log: each instance numbered from 1, its observations its own
    and under one journal id, and no event id twice. *)
Record log_ok (A : Log) : Prop := {
  log_numbered : ∀ i, numbered (log_of A i);
  log_own : ∀ i o, o ∈ log_of A i →
    obs_instance_id o = i ∧ jids A !! i = Some (obs_journal_id o) ∧ valid_instance_id i = true;
  log_unique : ∀ i k o i' k' o', log_of A i !! k = Some o → log_of A i' !! k' = Some o' →
    obs_event_id o = obs_event_id o' → i = i' ∧ k = k';
}.

(** A committed state of the database, current or earlier. *)
Record db_ok (A : Log) (fs : gmap string (list Z)) (d : Db) : Prop := {
  db_journal : ∀ i r, tbl_instances d !! i = Some r → jids A !! i = Some (row_journal_id r);
  db_nofile : ∀ i, fs !! jsonl_path_key i = None →
    (∀ seq, tbl_events d !! (i, seq) = None) ∧
    ∀ r, tbl_instances d !! i = Some r → row_seq r = 0;
  db_positive : ∀ i seq, is_Some (tbl_events d !! (i, seq)) → 1 ≤ seq;
}.

Definition file_ok (A : Log) (fs : gmap string (list Z)) (i : string) : Prop :=
  match fs !! jsonl_path_key i with
  | None => log_of A i = []
  | Some b => ∃ torn, b = lines (log_of A i) ++ torn ∧ 10 ∉ torn
  end.

(** A disk at any moment: each file is its log and possibly a torn line. *)
Record disk_ok (A : Log) (d : Disk) : Prop := {
  disk_log : log_ok A;
  disk_files : ∀ i, file_ok A (files d) i;
  disk_names : ∀ name, is_Some (files d !! name) → is_Some (strip_jsonl name) →
    ∃ i, name = jsonl_path_key i ∧ valid_instance_id i = true;
  disk_db : Forall (db_ok A (files d)) (db d :: wal d);
  disk_rows : ∀ x i, x ∈ wal d → is_Some (tbl_instances x !! i) →
    is_Some (tbl_instances (db d) !! i);
}.
Definition disk_small (d : Disk) : Prop :=
  ∀ name b, files d !! name = Some b → byte_len b ≤ i64_max.

(** The index row of entry [k] of the log of [i]. *)
Definition row_of (A : Log) (i : string) (k : nat) (o : Obs) : EventRow :=
  event_row o (byte_len (lines (take k (log_of A i)))) (byte_len (record_of o)).

(** The live store: whole lines, an exact index, true cached lengths and
    projections. *)
Record rep (A : Log) (d : Disk) (c : gmap string Z) (p : gmap string Projections) : Prop := {
  rep_disk : disk_ok A d;
  rep_whole : ∀ i b, files d !! jsonl_path_key i = Some b → b = lines (log_of A i);
  rep_jids : ∀ i, row_journal_id <$> tbl_instances (db d) !! i = jids A !! i;
  rep_seq : ∀ i r, tbl_instances (db d) !! i = Some r → row_seq r = Z.of_nat (length (log_of A i));
  rep_events : ∀ i seq row, tbl_events (db d) !! (i, seq) = Some row ↔
    ∃ k o, log_of A i !! k = Some o ∧ seq = Z.of_nat k + 1 ∧ row = row_of A i k o;
  rep_cache : ∀ i n, c !! i = Some n →
    ∃ b, files d !! jsonl_path_key i = Some b ∧ n = byte_len b;
  rep_proj : ∀ i q, p !! i = Some q → q = foldl apply projections_default (log_of A i);
  rep_folded : ∀ i, log_of A i ≠ [] → is_Some (p !! i);
  rep_blobs : tbl_blobs (db d) = ablobs A;
  rep_cursors : tbl_cursors (db d) = acursors A;
}.

(** ** A logic for store computations

    [nf] says that the environment does not fail; what the computation leaves
    alone is fixed by the section. *)
Section logic.
Context (nf : Prop) (fp : FsyncPolicy) (sub : gmap string (list nat)) (chs : list Chan).

Definition core : Type := Disk → gmap string Z → gmap string Projections → Prop.
Definition holds (P : core) (s : Store) : Prop :=
  P (disk s) (jsonl s) (projections s) ∧
  fsync s = fp ∧ subscribers s = sub ∧ channels s = chs ∧ (nf → faults s = []).
Definition spec {X} (P : core) (c : jm X) (R : X → core) (E : JError → core) : Prop :=
  ∀ s, holds P s → match c s with (s', Ok a) => holds (R a) s' | (s', Err e) => holds (E e) s' end.

Lemma spec_ret {X} (P : core) (x : X) R E :
  (∀ d c p, P d c p → R x d c p) → spec P (mret x) R E.
Proof. intros HR s [HP Hs]. split; [by apply HR|done]. Qed.
Lemma spec_fail {X} (P : core) e (R : X → core) E :
  (∀ d c p, P d c p → E e d c p) → spec P (st_fail e) R E.
Proof. intros HE s [HP Hs]. split; [by apply HE|done]. Qed.
Lemma spec_bind {X Y} (P : core) (c : jm X) (k : X → jm Y) Q R E :
  spec P c Q E → (∀ x, spec (Q x) (k x) R E) → spec P (c ≫= k) R E.
Proof.
  intros Hc Hk s HP. rewrite st_bind_eq. specialize (Hc s HP).
  destruct (c s) as [s1 [a|e]]; [by apply Hk|done].
Qed.
Lemma spec_conseq {X} (P P' : core) (c : jm X) R R' E E' :
  spec P c R E → (∀ d c p, P' d c p → P d c p) → (∀ x d c p, R x d c p → R' x d c p) →
  (∀ e d c p, E e d c p → E' e d c p) → spec P' c R' E'.
Proof.
  intros Hc HP HR HE s [Hs ?]. specialize (Hc s (conj (HP _ _ _ Hs) ltac:(done))).
  destruct (c s) as [s' [a|e]]; destruct Hc; split; auto.
Qed.
Lemma spec_pre {X} (P P' : core) (c : jm X) R E :
  spec P c R E → (∀ d c p, P' d c p → P d c p) → spec P' c R E.
Proof. intros. by eapply spec_conseq. Qed.
Lemma spec_post {X} (P : core) (c : jm X) R R' E :
  spec P c R E → (∀ x d c p, R x d c p → R' x d c p) → spec P c R' E.
Proof. intros. by eapply spec_conseq. Qed.

(** Name the state the precondition speaks of. *)
Lemma spec_state {X} (P : core) (c : jm X) R E :
  (∀ d0 c0 p0, P d0 c0 p0 → spec (λ d c p, d = d0 ∧ c = c0 ∧ p = p0) c R E) → spec P c R E.
Proof. intros Hc s [HP Hs]. by apply (Hc _ _ _ HP s). Qed.
Lemma spec_pure {X} (φ : Prop) (P : core) (c : jm X) R E :
  (φ → spec P c R E) → spec (λ d c p, φ ∧ P d c p) c R E.
Proof. intros Hc s [[Hφ HP] Hs]. by apply Hc. Qed.

Lemma spec_lift {X} (P : core) (r : result X JError) R E :
  (∀ x d c p, r = Ok x → P d c p → R x d c p) → (∀ e d c p, r = Err e → P d c p → E e d c p) →
  spec P (st_lift r) R E.
Proof. intros HR HE s [HP Hs]. simpl. destruct r; split; auto. Qed.

(** [s ← st_get; k s] looks only at what [f] extracts. *)
Lemma spec_get {X} (P : core) (k : Store → jm X) R E :
  (∀ s0, fsync s0 = fp → P (disk s0) (jsonl s0) (projections s0) →
     spec (λ d c p, d = disk s0 ∧ c = jsonl s0 ∧ p = projections s0) (k s0) R E) →
  spec P (st_get ≫= k) R E.
Proof. intros Hk s [HP Hs]. rewrite st_bind_eq. simpl. apply (Hk s); [naive_solver|done|]. by split. Qed.

Lemma spec_modify (P : core) (f : Store → Store) (R : unit → core) E :
  (∀ s, fsync (f s) = fsync s ∧ subscribers (f s) = subscribers s ∧ channels (f s) = channels s ∧
        faults (f s) = faults s) →
  (∀ s, P (disk s) (jsonl s) (projections s) →
        R tt (disk (f s)) (jsonl (f s)) (projections (f s))) →
  spec P (st_modify f) R E.
Proof.
  intros Hf HR s [HP Hs]. destruct (Hf s) as (H1 & H2 & H3 & H4). simpl. split; [by apply HR|].
  by rewrite H1, H2, H3, H4.
Qed.

(** A point where the environment may fail. *)
Lemma spec_io (P : core) e (R : unit → core) E :
  (∀ d c p, P d c p → R tt d c p) → (¬ nf → ∀ d c p, P d c p → E e d c p) → spec P (io e) R E.
Proof.
  intros HR HE s (HP & H1 & H2 & H3 & H4). unfold io.
  destruct (faults s) as [|[|n] r] eqn:Hf.
  - split; [by apply HR|]. by rewrite Hf.
  - split; [by apply HR|]. simpl. split_and!; try done. by intros ?%H4.
  - assert (¬ nf) as Hnf by (by intros ?%H4). split; [by apply HE|]. simpl. by split_and!.
Qed.

Lemma spec_query {X} (P : core) (f : Db → X) (R : X → core) E :
  (∀ d c p, P d c p → R (f (db d)) d c p) → (¬ nf → ∀ d c p, P d c p → E ESqlite d c p) →
  spec P (db_query f) R E.
Proof.
  intros HR HE. unfold db_query. eapply spec_bind; [by apply spec_io with (R := λ _, P)|].
  intros []. apply spec_get. intros s0 _ HP. apply spec_ret. by intros ? ? ? (-> & -> & ->); apply HR.
Qed.
Lemma spec_try (P : core) f (R : unit → core) E :
  (∀ x d c p, P d c p → f (db d) = Ok x → R tt (commit_db x d) c p) →
  (∀ e d c p, P d c p → f (db d) = Err e → E e d c p) →
  (¬ nf → ∀ d c p, P d c p → E ESqlite d c p) →
  spec P (db_try f) R E.
Proof.
  intros HR HF HE. unfold db_try. eapply spec_bind; [by apply spec_io with (R := λ _, P)|].
  intros []. apply spec_get. intros s0 _ HP.
  eapply spec_bind with (Q := λ x d c p, (d = disk s0 ∧ c = jsonl s0 ∧ p = projections s0) ∧
    f (db (disk s0)) = Ok x).
  - apply spec_lift; [naive_solver|]. intros e ? ? ? Hf (-> & -> & ->). by apply HF.
  - intros x. apply spec_modify; [by intros|]. intros s [(Hd & Hc & Hp) Hx]. simpl.
    rewrite Hd, Hc, Hp. by apply HR.
Qed.
Lemma spec_exec (P : core) f (R : unit → core) E :
  (∀ d c p, P d c p → R tt (commit_db (f (db d)) d) c p) →
  (¬ nf → ∀ d c p, P d c p → E ESqlite d c p) →
  spec P (db_exec f) R E.
Proof. intros HR HE. apply spec_try; [intros ? ? ? ? ? [= <-]; by apply HR|done|done]. Qed.

Lemma spec_ensure (P : core) (R : unit → core) E i j h :
  (∀ d c p r, P d c p → tbl_instances (db d) !! i = Some r → row_journal_id r = j → R tt d c p) →
  (∀ d c p r, P d c p → tbl_instances (db d) !! i = Some r → row_journal_id r ≠ j →
     E (EJournalMismatch i) d c p) →
  (∀ d c p, P d c p → tbl_instances (db d) !! i = None →
     R tt (commit_db (set_instances <[i := mkInstanceRow j h 0]> (db d)) d) c p) →
  (¬ nf → ∀ d c p, P d c p → E ESqlite d c p) →
  spec P (ensure_instance i j h) R E.
Proof.
  intros Hsame Hdiff Hnew HE. unfold ensure_instance.
  eapply spec_bind with (Q := λ r d c p, P d c p ∧ tbl_instances (db d) !! i = r);
    [by apply spec_query|].
  intros [r|]; [case_bool_decide as Hj|].
  - apply spec_fail. intros ? ? ? [HP Hr]. by eapply Hdiff.
  - apply spec_ret. intros ? ? ? [HP Hr]. eapply Hsame; [done..|]. by destruct (decide (row_journal_id r = j)).
  - apply spec_exec; [intros ? ? ? [HP Hr]; by apply Hnew|intros Hn ? ? ? [HP _]; by apply HE].
Qed.

Lemma spec_watermark (P : core) i (R : Z → core) E :
  (∀ d c p, P d c p →
     R (as_u64 (match tbl_instances (db d) !! i with Some r => row_seq r | None => 0 end)) d c p) →
  (¬ nf → ∀ d c p, P d c p → E ESqlite d c p) →
  spec P (watermark i) R E.
Proof.
  intros HR HE. unfold watermark.
  eapply spec_bind with (Q := λ r d c p, P d c p ∧ tbl_instances (db d) !! i = r);
    [by apply spec_query|].
  intros r. apply spec_ret. intros ? ? ? [HP <-]. by apply HR.
Qed.
End logic.

(** ** Preservation under the steps of the writer *)

Lemma as_u64_small z : 0 ≤ z ≤ i64_max → as_u64 z = z.
Proof. unfold as_u64, wrap64, i64_max. intros. apply Z.mod_small. lia. Qed.
Lemma as_i64_small z : z ≤ i64_max → as_i64 z = z.
Proof. unfold as_i64. intros. zbool; lia. Qed.
Lemma as_u64_i64 z : 0 ≤ z ≤ i64_max → as_u64 (as_i64 z) = z.
Proof. intros. rewrite as_i64_small by lia. by apply as_u64_small. Qed.

Lemma db_ok_files A fs fs' d :
  db_ok A fs d → (∀ i, fs' !! jsonl_path_key i = None → fs !! jsonl_path_key i = None) →
  db_ok A fs' d.
Proof. intros [H1 H2 H3] Hfs. split; eauto. Qed.
Lemma db_ok_logs A A' fs d : jids A' = jids A → db_ok A fs d → db_ok A' fs d.
Proof. intros Hj [H1 H2 H3]. split; [by rewrite Hj|done..]. Qed.

Lemma disk_ok_commit A d x :
  disk_ok A d → db_ok A (files d) x →
  (∀ i, is_Some (tbl_instances (db d) !! i) → is_Some (tbl_instances x !! i)) →
  disk_ok A (commit_db x d).
Proof.
  intros [H1 H2 H3 H4 H5] Hx Hrows. split; try done; [by constructor|].
  intros y i [->|Hy]%elem_of_cons; simpl; eauto.
Qed.
Lemma disk_ok_db A d : disk_ok A d → db_ok A (files d) (db d).
Proof. intros [_ _ _ H4 _]. by apply Forall_cons_1 in H4 as [? _]. Qed.

(** Statements that leave [instances] and [events] alone. *)
Lemma db_ok_tables A fs d x :
  tbl_instances x = tbl_instances d → tbl_events x = tbl_events d → db_ok A fs d → db_ok A fs x.
Proof. intros Hi He [H1 H2 H3]. split; by rewrite ?Hi, ?He. Qed.
Lemma rep_tables A A' d c p x :
  tbl_instances x = tbl_instances (db d) → tbl_events x = tbl_events (db d) →
  logs A' = logs A → jids A' = jids A → tbl_blobs x = ablobs A' → tbl_cursors x = acursors A' →
  rep A d c p → rep A' (commit_db x d) c p.
Proof.
  intros Hi He HL HJ Hb Hc [R1 R2 R3 R4 R5 R6 R7 R8 R9 R10].
  assert (∀ i, log_of A' i = log_of A i) as HLo by (intros i; unfold log_of; by rewrite HL).
  assert (disk_ok A' d) as Hd.
  { destruct R1 as [[L1 L2 L3] D2 D3 D4 D5]. split; [split| |done| |done].
    - intros i. by rewrite HLo.
    - intros i o. rewrite HLo, HJ. by apply L2.
    - intros i k o i' k' o'. rewrite !HLo. by apply L3.
    - intros i. specialize (D2 i). unfold file_ok in *. by rewrite HLo.
    - eapply list.Forall_impl; [exact D4|]. intros y. by apply db_ok_logs. }
  split; simpl; try done.
  - apply disk_ok_commit; [done| |by rewrite Hi]. eapply db_ok_tables; [done..|]. by apply disk_ok_db.
  - intros i. rewrite HLo. by apply R2.
  - intros i. by rewrite Hi, R3, HJ.
  - intros i. rewrite Hi, HLo. by apply R4.
  - intros i seq row. rewrite He, R5. unfold row_of. by setoid_rewrite HLo.
  - intros i. rewrite HLo. by apply R7.
  - intros i. rewrite HLo. by apply R8.
Qed.

Lemma insert_jid A i j :
  (jids A !! i = None ∨ jids A !! i = Some j) →
  ∀ k v, jids A !! k = Some v → <[i := j]> (jids A) !! k = Some v.
Proof.
  intros Hi k v Hk. destruct (decide (i = k)) as [->|]; [|by rewrite lookup_insert_ne].
  rewrite lookup_insert_eq. naive_solver.
Qed.
Lemma disk_ok_register A d i j :
  jids A !! i = None ∨ jids A !! i = Some j → disk_ok A d → disk_ok (log_register i j A) d.
Proof.
  intros Hi [[L1 L2 L3] D2 D3 D4 D5]. pose proof (insert_jid A i j Hi) as Hins.
  split; [split|done|done| |done]; try done.
  - intros k o Ho. destruct (L2 k o Ho) as (? & ? & ?). split_and!; eauto.
  - eapply list.Forall_impl; [exact D4|]. intros y [Y1 Y2 Y3]. split; [|done..].
    intros k r Hr. simpl. eauto.
Qed.

(** A registered instance row. *)
Lemma rep_register A d c p i j h :
  rep A d c p → tbl_instances (db d) !! i = None →
  rep (log_register i j A) (commit_db (set_instances <[i := mkInstanceRow j h 0]> (db d)) d) c p.
Proof.
  intros [R1 R2 R3 R4 R5 R6 R7 R8 R9 R10] Hn.
  assert (jids A !! i = None) as Hj by (by rewrite <- R3, Hn).
  assert (log_of A i = []) as HL.
  { destruct (log_of A i) as [|o L] eqn:HL; [done|]. destruct R1 as [[_ L2 _] _ _ _ _].
    destruct (L2 i o) as (_ & ? & _); [rewrite HL; by left|congruence]. }
  assert (disk_ok (log_register i j A) d) as Hd by (apply disk_ok_register; eauto).
  split; simpl; try done.
  - apply disk_ok_commit; [done| |].
    2:{ intros k Hk. simpl. destruct (decide (i = k)) as [->|]; [rewrite lookup_insert_eq; eauto|].
        by rewrite lookup_insert_ne. }
    destruct (disk_ok_db _ _ Hd) as [Y1 Y2 Y3]. split; simpl; [| |done].
    + intros k r. destruct (decide (i = k)) as [->|].
      * rewrite !lookup_insert_eq. by intros [= <-].
      * rewrite !lookup_insert_ne by done. intros Hr. apply Y1 in Hr. simpl in Hr.
        by rewrite lookup_insert_ne in Hr.
    + intros k Hk. split; [by apply Y2|]. intros r.
      destruct (decide (i = k)) as [->|]; [rewrite lookup_insert_eq; by intros [= <-]|].
      rewrite lookup_insert_ne by done. by apply Y2.
  - intros k. destruct (decide (i = k)) as [->|]; [by rewrite !lookup_insert_eq|].
    rewrite !lookup_insert_ne by done. apply R3.
  - intros k r. unfold log_of. simpl. fold (log_of A k). destruct (decide (i = k)) as [->|].
    + rewrite lookup_insert_eq. intros [= <-]. by rewrite HL.
    + rewrite lookup_insert_ne by done. apply R4.
Qed.

(** ** [open_jsonl] *)

Definition created (i : string) (fs : gmap string (list Z)) : gmap string (list Z) :=
  match fs !! jsonl_path_key i with Some _ => fs | None => <[jsonl_path_key i := []]> fs end.

Lemma created_lookup i fs k :
  created i fs !! jsonl_path_key k =
  if decide (i = k) then Some (default [] (fs !! jsonl_path_key i)) else fs !! jsonl_path_key k.
Proof.
  unfold created. case_decide as Hik; [subst k|].
  - destruct (fs !! jsonl_path_key i) eqn:Hi; [by rewrite Hi|]. by rewrite lookup_insert_eq.
  - destruct (fs !! jsonl_path_key i); [done|]. rewrite lookup_insert_ne; [done|].
    by intros ?%(inj _).
Qed.

Lemma rep_create A d c p i :
  valid_instance_id i = true → rep A d c p → rep A (set_files (created i) d) c p.
Proof.
  intros Hv [R1 R2 R3 R4 R5 R6 R7 R8 R9 R10].
  assert (files d !! jsonl_path_key i = None → log_of A i = []) as Hempty.
  { intros Hn. destruct R1 as [_ D2 _ _ _]. specialize (D2 i). unfold file_ok in D2. by rewrite Hn in D2. }
  split; simpl; try done.
  - destruct R1 as [D1 D2 D3 D4 D5]. split; simpl; [done| | | |done].
    + intros k. specialize (D2 k). unfold file_ok in *. rewrite created_lookup.
      case_decide as Hik; [subst k|done].
      destruct (files d !! jsonl_path_key i); simpl; [done|].
      exists []. rewrite D2. split; [done|apply not_elem_of_nil].
    + intros name Hs. unfold created in Hs. destruct (files d !! jsonl_path_key i); [by apply D3|].
      destruct (decide (name = jsonl_path_key i)) as [->|]; [by eauto|].
      rewrite lookup_insert_ne in Hs by done. by apply D3.
    + eapply list.Forall_impl; [exact D4|]. intros x Hx. eapply db_ok_files; [exact Hx|].
      intros k. rewrite created_lookup. by case_decide.
  - intros k b. rewrite created_lookup. case_decide as Hik; [subst k|by apply R2].
    destruct (files d !! jsonl_path_key i) eqn:Hf; simpl; intros [= <-]; [by apply R2|].
    by rewrite (Hempty eq_refl).
  - intros k n Hk. destruct (R6 k n Hk) as (b & Hb & ->). rewrite created_lookup.
    case_decide as Hik; [subst k; rewrite Hb; eauto|eauto].
Qed.

Lemma rep_insert_cache A d c p i b :
  files d !! jsonl_path_key i = Some b → rep A d c p → rep A d (<[i := byte_len b]> c) p.
Proof.
  intros Hb [R1 R2 R3 R4 R5 R6 R7 R8 R9 R10]. split; try done.
  intros k n. destruct (decide (i = k)) as [->|].
  - rewrite lookup_insert_eq. intros [= <-]. eauto.
  - rewrite lookup_insert_ne by done. apply R6.
Qed.

Lemma rep_same_disk A d d' c p :
  files d' = files d → db d' = db d → wal d' = wal d → rep A d c p → rep A d' c p.
Proof.
  intros Hf Hd Hw [[D1 D2 D3 D4 D5] R2 R3 R4 R5 R6 R7 R8 R9 R10].
  split; [split|..]; rewrite ?Hf, ?Hd, ?Hw; done.
Qed.

Section steps.
Context (nf : Prop) (fp : FsyncPolicy) (sub : gmap string (list nat)) (chs : list Chan).
Local Abbreviation spec := (spec nf fp sub chs).

(** The file is open: its cached length is the length of the log's lines.  [G]
    is what else is known of the database and the projections. *)
Definition opened (A : Log) (i : string) : core := λ d c p,
  rep A d c p ∧ files d !! jsonl_path_key i = Some (lines (log_of A i)) ∧
  c !! i = Some (byte_len (lines (log_of A i))).

Lemma spec_open_jsonl A i :
  valid_instance_id i = true →
  spec (rep A) (open_jsonl i) (λ _, opened A i) (λ e d c p, ¬ nf ∧ rep A d c p).
Proof.
  intros Hv. unfold open_jsonl. apply spec_get. intros s0 _ HR.
  case_bool_decide as Hc.
  - apply spec_ret. intros d c p (-> & -> & ->). destruct Hc as [n Hn].
    destruct (rep_cache _ _ _ _ HR _ _ Hn) as (b & Hb & ->).
    pose proof (rep_whole _ _ _ _ HR _ _ Hb) as ->. by split_and!.
  - eapply spec_bind with (Q := λ _ d c p, rep A d c p).
    { apply spec_io; [by intros ? ? ? (-> & -> & ->)|]. by intros ? ? ? ? (-> & -> & ->). }
    intros []. eapply spec_bind with (Q := λ _ d c p, rep A d c p ∧
      files d !! jsonl_path_key i = Some (lines (log_of A i))).
    { apply spec_modify; [done|]. intros s Hs. pose proof (rep_create _ _ _ _ i Hv Hs) as Hr.
      assert (files (set_files (created i) (disk s)) !! jsonl_path_key i
              = Some (default [] (files (disk s) !! jsonl_path_key i))) as Hl.
      { simpl. rewrite created_lookup. by rewrite decide_True. }
      pose proof (rep_whole _ _ _ _ Hr _ _ Hl) as Hw. rewrite Hw in Hl. by split. }
    intros []. eapply spec_bind with (Q := λ _ d c p, rep A d c p ∧
      files d !! jsonl_path_key i = Some (lines (log_of A i))).
    { apply spec_io; [done|]. by intros ? ? ? ? [? _]. }
    intros []. apply spec_get. intros s1 _ [HR1 Hf1].
    apply spec_modify; [done|]. intros s (Hd & Hc' & Hp). simpl. rewrite Hd, Hc', Hp.
    unfold opened. rewrite (lookup_total_correct _ _ _ Hf1), lookup_insert_eq.
    split_and!; [by apply rep_insert_cache|done|done].
Qed.

(** ** [write_jsonl] *)

(** The line of [o] is in the file and not yet in the index. *)
Definition written (A : Log) (i : string) (o : Obs) : core := λ d c p,
  ∃ d0 c0, rep A d0 c0 p ∧ files d0 !! jsonl_path_key i = Some (lines (log_of A i)) ∧
    files d = <[jsonl_path_key i := lines (log_of A i ++ [o])]> (files d0) ∧
    db d = db d0 ∧ wal d = wal d0 ∧
    c = <[i := byte_len (lines (log_of A i ++ [o]))]> c0.

Definition fresh_event (A : Log) (e : string) : Prop :=
  ∀ i o, o ∈ log_of A i → obs_event_id o ≠ e.
(** The line of [o] fits at the end of the file of [i]; [o] may be appended to
    the log when its event id is new too. *)
Record fitting (A : Log) (i : string) (o : Obs) : Prop := {
  app_instance : obs_instance_id o = i;
  app_journal : jids A !! i = Some (obs_journal_id o);
  app_seq : obs_seq o = Z.of_nat (length (log_of A i)) + 1;
  app_valid : valid_instance_id i = true;
  app_fits : byte_len (lines (log_of A i ++ [o])) ≤ i64_max;
}.
Definition appendable (A : Log) (i : string) (o : Obs) : Prop :=
  fitting A i o ∧ fresh_event A (obs_event_id o).

Lemma log_ok_append A i o : log_ok A → appendable A i o → log_ok (log_append i o A).
Proof.
  intros [L1 L2 L3] [[H1 H2 H3 H4 _] H5].
  assert (∀ k n x, log_of (log_append i o A) k !! n = Some x →
    (log_of A k !! n = Some x) ∨ (k = i ∧ n = length (log_of A i) ∧ x = o)) as Hcases.
  { intros k n x. destruct (decide (i = k)) as [->|]; [|rewrite log_of_append_ne by done; by left].
    rewrite log_of_append_eq. intros [?|(Hge & Hx)]%lookup_app_Some; [by left|].
    apply list_lookup_singleton_Some in Hx as [Hn <-]. right. split_and!; [done|lia|done]. }
  split.
  - intros k. destruct (decide (i = k)) as [->|]; [|by rewrite log_of_append_ne].
    rewrite log_of_append_eq. by apply numbered_app.
  - intros k x [n Hx]%list_elem_of_lookup. destruct (Hcases _ _ _ Hx) as [Hx'|(-> & _ & ->)].
    + apply L2. by eapply list_elem_of_lookup_2.
    + by split_and!.
  - intros k n x k' n' x' Hx Hx' He.
    destruct (Hcases _ _ _ Hx) as [Hy|(-> & -> & ->)], (Hcases _ _ _ Hx') as [Hy'|(-> & -> & ->)].
    + by eapply L3.
    + exfalso. eapply H5; [by eapply list_elem_of_lookup_2|done].
    + exfalso. eapply H5; [by eapply list_elem_of_lookup_2|by symmetry].
    + done.
Qed.

(** A file that gained [b] is still a disk of the log [A'], if the bytes are. *)
Lemma disk_ok_extend A A' d d' i b :
  disk_ok A d → log_ok A' → jids A' = jids A → valid_instance_id i = true →
  files d !! jsonl_path_key i = Some (lines (log_of A i)) →
  files d' = <[jsonl_path_key i := lines (log_of A i) ++ b]> (files d) →
  db d' = db d → wal d' = wal d →
  (∃ torn, lines (log_of A i) ++ b = lines (log_of A' i) ++ torn ∧ 10 ∉ torn) →
  (∀ k, i ≠ k → log_of A' k = log_of A k) →
  disk_ok A' d'.
Proof.
  intros [D1 D2 D3 D4 D5] HL HJ Hv Hf Hf' Hdb Hwal Hb Hne.
  split; [done| | | |by rewrite Hdb, Hwal].
  - intros k. unfold file_ok. rewrite Hf'. destruct (decide (i = k)) as [->|Hik].
    + by rewrite lookup_insert_eq.
    + rewrite lookup_insert_ne by (by intros ?%(inj _)). rewrite Hne by done. apply D2.
  - intros name. rewrite Hf'. destruct (decide (name = jsonl_path_key i)) as [->|]; [eauto|].
    rewrite lookup_insert_ne by done. apply D3.
  - rewrite Hdb, Hwal. eapply list.Forall_impl; [exact D4|]. intros x Hx.
    eapply db_ok_logs, db_ok_files; [done|exact Hx|]. intros k. rewrite Hf'.
    destruct (decide (i = k)) as [->|]; [by rewrite lookup_insert_eq|].
    by rewrite lookup_insert_ne by (by intros ?%(inj _)).
Qed.

Lemma written_disk A i o d c p :
  appendable A i o → written A i o d c p → disk_ok (log_append i o A) d.
Proof.
  intros Ha (d0 & c0 & HR & Hf & Hf' & Hdb & Hwal & _).
  pose proof (rep_disk _ _ _ _ HR) as Hd0.
  eapply (disk_ok_extend A); [done| |done|by apply Ha|done| |done|done| |].
  - apply log_ok_append; [by apply Hd0|done].
  - rewrite Hf', lines_snoc. done.
  - exists []. rewrite log_of_append_eq, lines_snoc, app_nil_r. split; [done|apply not_elem_of_nil].
  - intros. by rewrite log_of_append_ne.
Qed.

Lemma spec_write_all (P : core) name b (R : unit → core) E :
  (∀ d c p, P d c p → R tt (append_file name b d) c p) →
  (¬ nf → ∀ n d c p, P d c p → E EIo (append_file name (take n b) d) c p) →
  spec P (write_all name b) R E.
Proof.
  intros HR HE s (HP & H1 & H2 & H3 & H4). unfold write_all.
  destruct (faults s) as [|[|n] r] eqn:Hf.
  - split; [by apply HR|]. simpl. by rewrite Hf.
  - split; [by apply HR|]. simpl. split_and!; try done. by intros ?%H4.
  - assert (¬ nf) as Hnf by (by intros ?%H4). split; [by apply HE|]. simpl. by split_and!.
Qed.

Lemma spec_sync_file (P : core) name (R : unit → core) E :
  (∀ d c p, P d c p → R tt d c p) →
  (∀ d c p, P d c p → R tt (set_synced <[name := length (files d !!! name)]> d) c p) →
  (¬ nf → ∀ d c p, P d c p → E EIo d c p) →
  spec P (sync_file name) R E.
Proof.
  intros HR HS HE. unfold sync_file. apply spec_get. intros s0 _ HP.
  assert (spec (λ d c p, d = disk s0 ∧ c = jsonl s0 ∧ p = projections s0)
    (_ ← io EIo; st_modify (set_disk (λ d, set_synced <[name := length (files d !!! name)]> d))) R E).
  { eapply spec_bind with (Q := λ _ d c p, d = disk s0 ∧ c = jsonl s0 ∧ p = projections s0).
    - apply spec_io; [done|]. intros Hn ? ? ? (-> & -> & ->). by apply HE.
    - intros []. apply spec_modify; [done|]. intros s (Hd & Hc & Hp). simpl. rewrite Hd, Hc, Hp.
      by apply HS. }
  destruct (fsync s0); [|done..].
  apply spec_ret. intros ? ? ? (-> & -> & ->). by apply HR.
Qed.

(** The index holds the whole log of [i] and the file has bytes after it. *)
Definition seq_of (d : Disk) (i : string) : Z :=
  match tbl_instances (db d) !! i with Some r => row_seq r | None => 0 end.
Definition left_over (A : Log) (i : string) (d : Disk) : Prop :=
  files d !!! jsonl_path_key i ≠ lines (log_of A i) ∧ seq_of d i = Z.of_nat (length (log_of A i)).
Lemma rep_seq_of A d c p i : rep A d c p → seq_of d i = Z.of_nat (length (log_of A i)).
Proof.
  intros HR. unfold seq_of. destruct (tbl_instances (db d) !! i) as [r|] eqn:Hr; [by apply HR|].
  destruct (log_of A i) as [|o L] eqn:HL; [done|].
  destruct (log_own A (disk_log _ _ (rep_disk _ _ _ _ HR)) i o) as (_ & Hj & _); [rewrite HL; by left|].
  by rewrite <- (rep_jids _ _ _ _ HR i), Hr in Hj.
Qed.
Lemma lines_extended L b : b ≠ [] → lines L ++ b ≠ lines L.
Proof. intros Hb Heq. apply Hb. rewrite <- (app_nil_r (lines L)) in Heq at 2. by apply app_inv_head in Heq. Qed.
Lemma record_nonempty o : record_of o ≠ [].
Proof. unfold record_of. by destruct (enc o). Qed.

(** What a failure of the environment leaves: nothing, or bytes that are not
    indexed, part of a line or all of it. *)
Definition interrupted (A : Log) (i : string) (o : Obs) : core := λ d c p,
  ¬ nf ∧ (rep A d c p ∨
    left_over A i d ∧
    (disk_ok A d ∨ (fresh_event A (obs_event_id o) → disk_ok (log_append i o A) d))).

Lemma interrupted_before A i o d c p : ¬ nf → rep A d c p → interrupted A i o d c p.
Proof. by intros Hn HR; split; [|left]. Qed.
Lemma written_left_over A i o d c p : written A i o d c p → left_over A i d.
Proof.
  intros (d0 & c0 & HR & Hf & Hf' & Hdb & _). split.
  - rewrite Hf', lookup_total_insert_eq, lines_snoc. apply lines_extended, record_nonempty.
  - unfold seq_of. rewrite Hdb. by apply (rep_seq_of A d0 c0 p).
Qed.
Lemma interrupted_written A i o d c p :
  ¬ nf → fitting A i o → written A i o d c p → interrupted A i o d c p.
Proof.
  intros Hn Ha HW. split; [done|right]. split; [by eapply written_left_over|right].
  intros Hfresh. by eapply written_disk.
Qed.

(** A write cut short leaves nothing, a torn line, or the whole record. *)
Lemma torn_write A i o d c p n :
  ¬ nf → fitting A i o → opened A i d c p →
  interrupted A i o (append_file (jsonl_path_key i) (take n (record_of o)) d) c p.
Proof.
  intros Hn Ha (HR & Hf & Hc). pose proof (rep_disk _ _ _ _ HR) as Hd. split; [done|].
  destruct (cut_lines [o] n) as (k & torn & Hk & Heq & Ht). simpl in Hk, Heq.
  rewrite app_nil_r in Heq.
  assert (files (append_file (jsonl_path_key i) (take n (record_of o)) d)
    = <[jsonl_path_key i := lines (log_of A i) ++ take n (record_of o)]> (files d)) as Hfs.
  { unfold append_file. simpl. by rewrite (lookup_total_correct _ _ _ Hf). }
  destruct (decide (take n (record_of o) = [])) as [Hnone|Hsome]; [left|right].
  { apply (rep_same_disk A d); [|done|done|exact HR]. rewrite Hfs, Hnone, app_nil_r. by apply insert_id. }
  split.
  { split; [|by apply (rep_seq_of A d c p)]. rewrite Hfs, lookup_total_insert_eq. by apply lines_extended. }
  destruct k as [|[|k]]; [left|right; intros Hfresh|lia].
  - eapply (disk_ok_extend A A); try done; [by apply Hd|by apply Ha|].
    exists torn. by rewrite Heq.
  - eapply (disk_ok_extend A (log_append i o A)); try done; [|by apply Ha| |].
    + apply log_ok_append; [by apply Hd|done].
    + exists torn. rewrite Heq, log_of_append_eq, lines_snoc. simpl. rewrite app_nil_r.
      by rewrite app_assoc.
    + intros. by rewrite log_of_append_ne.
Qed.

Lemma spec_write_jsonl A i o :
  fitting A i o →
  spec (rep A) (write_jsonl i (enc o))
    (λ r d c p, r = (byte_len (lines (log_of A i)), byte_len (record_of o)) ∧ written A i o d c p)
    (λ _, interrupted A i o).
Proof.
  intros Ha. unfold write_jsonl. fold (record_of o).
  eapply spec_bind.
  { eapply spec_conseq; [apply (spec_open_jsonl A i); apply Ha|done|done|].
    intros e d c p [? ?]. by apply interrupted_before. }
  intros []. apply spec_get. intros s0 _ Ho. pose proof Ho as (HR & Hf & Hc).
  rewrite (lookup_total_correct _ _ _ Hc).
  assert (wrap64 (byte_len (lines (log_of A i)) + byte_len (record_of o))
    = byte_len (lines (log_of A i ++ [o]))) as Hw.
  { pose proof (app_fits _ _ _ Ha) as Hfit. rewrite lines_snoc, byte_len_app in *.
    pose proof (byte_len_pos (lines (log_of A i))). pose proof (byte_len_pos (record_of o)).
    apply as_u64_small. lia. }
  rewrite Hw.
  set (d1 := append_file (jsonl_path_key i) (record_of o) (disk s0)).
  eapply spec_bind with (Q := λ _ d c p, d = d1 ∧ c = jsonl s0 ∧ p = projections s0).
  { apply spec_write_all.
    - by intros d c p (-> & -> & ->).
    - intros Hn n d c p (-> & -> & ->). by apply torn_write. }
  intros []. eapply spec_bind with (Q := λ _, written A i o).
  { apply spec_modify; [done|]. intros s (Hd & Hc' & Hp). simpl. rewrite Hd, Hc', Hp.
    exists (disk s0), (jsonl s0). split_and!; try done.
    subst d1. unfold append_file. simpl. by rewrite (lookup_total_correct _ _ _ Hf), lines_snoc. }
  intros []. eapply spec_bind with (Q := λ _, written A i o).
  { apply spec_sync_file; [done| |].
    - intros d c p (d0 & c0 & ? & ? & ? & ? & ? & ?). by exists d0, c0.
    - intros Hn d c p. by apply interrupted_written. }
  intros []. by apply spec_ret.
Qed.

(** ** [commit_index] *)

Lemma index_interaction_instances i o seq d :
  tbl_instances (index_interaction i o seq d) = tbl_instances d ∧
  tbl_events (index_interaction i o seq d) = tbl_events d ∧
  tbl_blobs (index_interaction i o seq d) = tbl_blobs d ∧
  tbl_cursors (index_interaction i o seq d) = tbl_cursors d.
Proof.
  unfold index_interaction, ignore_interaction, update_interaction.
  by repeat (case_match; simpl).
Qed.

Lemma row_of_append A i o j k x :
  log_of A j !! k = Some x → row_of (log_append i o A) j k x = row_of A j k x.
Proof.
  intros Hk. unfold row_of. destruct (decide (i = j)) as [->|]; [|by rewrite log_of_append_ne].
  rewrite log_of_append_eq, take_app_le; [done|]. apply lookup_lt_Some in Hk. lia.
Qed.

Lemma row_event_id_of A i k o : row_event_id (row_of A i k o) = obs_event_id o.
Proof. done. Qed.

Lemma log_lookup_append A i o j k x :
  log_of (log_append i o A) j !! k = Some x ↔
  log_of A j !! k = Some x ∨ (j = i ∧ k = length (log_of A i) ∧ x = o).
Proof.
  destruct (decide (i = j)) as [<-|Hne].
  - rewrite log_of_append_eq, lookup_app_Some. split.
    + intros [?|(? & Hx)]; [by left|]. apply list_lookup_singleton_Some in Hx as [? <-].
      right. split_and!; [done|lia|done].
    + intros [?|(_ & -> & ->)]; [by left|]. right. split; [lia|]. by rewrite Nat.sub_diag.
  - rewrite log_of_append_ne by done. naive_solver.
Qed.

(** The rows of the new log: the old rows and one more. *)
Lemma events_append (A : Log) (tbl : gmap (string * Z) EventRow) (i : string) (o : Obs) (seq : Z) :
  seq = Z.of_nat (length (log_of A i)) + 1 →
  (∀ j z row, tbl !! (j, z) = Some row ↔
     ∃ k x, log_of A j !! k = Some x ∧ z = Z.of_nat k + 1 ∧ row = row_of A j k x) →
  ∀ j z row, <[(i, seq) := row_of (log_append i o A) i (length (log_of A i)) o]> tbl !! (j, z) = Some row ↔
     ∃ k x, log_of (log_append i o A) j !! k = Some x ∧ z = Z.of_nat k + 1 ∧
            row = row_of (log_append i o A) j k x.
Proof.
  intros Hseq Ht j z row. setoid_rewrite log_lookup_append.
  rewrite lookup_insert_Some. rewrite Ht. split.
  - intros [[Heq <-]|(Hne & k & x & Hk & -> & ->)].
    + injection Heq as <- <-. exists (length (log_of A i)), o. split_and!; [by right|lia|done].
    + exists k, x. split_and!; [by left|done|]. by rewrite row_of_append.
  - intros (k & x & [Hk|(-> & -> & ->)] & -> & ->).
    + right. split.
      * intros Heq. injection Heq as <- Hz. apply lookup_lt_Some in Hk. lia.
      * exists k, x. by rewrite row_of_append.
    + left. split; [by f_equal|done].
Qed.

(** The transaction of [commit_index] succeeds on a written line. *)
Definition committed_db (A : Log) (i : string) (o : Obs) (d : Db) : Db :=
  index_interaction i o (obs_seq o)
    (set_events <[(i, obs_seq o) := row_of (log_append i o A) i (length (log_of A i)) o]>
       (set_seq i (obs_seq o) d)).

Lemma seq_fits A i o : fitting A i o → obs_seq o ≤ i64_max.
Proof.
  intros Ha. pose proof (app_fits _ _ _ Ha) as Hf. pose proof (lines_long (log_of A i ++ [o])) as Hl.
  rewrite length_app in Hl. simpl in Hl. rewrite (app_seq _ _ _ Ha). lia.
Qed.

Lemma commit_index_succeeds A i o d c p :
  appendable A i o → rep A d c p →
  match u64_i64 (obs_seq o) with
  | Err e => Err e
  | Ok seq =>
      match insert_event i seq (event_row o (byte_len (lines (log_of A i))) (byte_len (record_of o)))
              (set_seq i seq (db d)) with
      | Err e => Err e
      | Ok d => Ok (index_interaction i o seq d)
      end
  end = Ok (committed_db A i o (db d)).
Proof.
  intros [Ha Hfresh] HR. pose proof (seq_fits _ _ _ Ha) as Hs. unfold u64_i64.
  rewrite (proj2 (Z.leb_le _ _) Hs). unfold insert_event.
  assert (event_row o (byte_len (lines (log_of A i))) (byte_len (record_of o))
    = row_of (log_append i o A) i (length (log_of A i)) o) as ->.
  { unfold row_of. by rewrite log_of_append_eq, take_app_length. }
  rewrite bool_decide_false, bool_decide_false; [done| |].
  - intros Hn. apply Hn. intros [j z] row Hrow. simpl in Hrow.
    apply (rep_events _ _ _ _ HR) in Hrow as (k & x & Hk & _ & ->). rewrite !row_event_id_of.
    eapply Hfresh, list_elem_of_lookup_2; done.
  - intros [row Hrow]. simpl in Hrow. apply (rep_events _ _ _ _ HR) in Hrow as (k & x & Hk & Hz & _).
    apply lookup_lt_Some in Hk. rewrite (app_seq _ _ _ Ha) in Hz. lia.
Qed.

Lemma committed_tables A i o d :
  tbl_instances (committed_db A i o d) = tbl_instances (set_seq i (obs_seq o) d) ∧
  tbl_events (committed_db A i o d)
    = <[(i, obs_seq o) := row_of (log_append i o A) i (length (log_of A i)) o]> (tbl_events d) ∧
  tbl_blobs (committed_db A i o d) = tbl_blobs d ∧ tbl_cursors (committed_db A i o d) = tbl_cursors d.
Proof.
  exact (index_interaction_instances i o (obs_seq o)
    (set_events <[(i, obs_seq o) := row_of (log_append i o A) i (length (log_of A i)) o]>
       (set_seq i (obs_seq o) d))).
Qed.

Lemma set_seq_lookup i seq d k :
  tbl_instances (set_seq i seq d) !! k =
  if decide (i = k) then (λ r, mkInstanceRow (row_journal_id r) (row_host_id r) seq) <$> tbl_instances d !! i
  else tbl_instances d !! k.
Proof.
  simpl. case_decide as Hik; [subst k; by rewrite lookup_alter_eq|]. by rewrite lookup_alter_ne.
Qed.

Lemma db_ok_set_seq A fs i seq d :
  is_Some (fs !! jsonl_path_key i) → db_ok A fs d → db_ok A fs (set_seq i seq d).
Proof.
  intros Hf [Y1 Y2 Y3]. split; [| |done].
  - intros k r. rewrite set_seq_lookup. case_decide as Hik; [subst k|apply Y1].
    intros (r0 & Hr0 & ->)%fmap_Some. simpl. by apply Y1.
  - intros k Hk. split; [by apply Y2|]. intros r. rewrite set_seq_lookup.
    case_decide as Hik; [subst k; rewrite Hk in Hf; by destruct Hf|by apply Y2].
Qed.
Lemma db_ok_insert_event A fs i seq row d :
  is_Some (fs !! jsonl_path_key i) → 1 ≤ seq → db_ok A fs d →
  db_ok A fs (set_events <[(i, seq) := row]> d).
Proof.
  intros Hf Hs [Y1 Y2 Y3]. split; [done| |].
  - intros k Hk. split; [|by apply Y2]. intros z. simpl. rewrite lookup_insert_ne; [by apply Y2|].
    intros [= -> _]. rewrite Hk in Hf. by destruct Hf.
  - intros k z. simpl. destruct (decide ((i, seq) = (k, z))) as [[= -> ->]|Hne]; [done|].
    rewrite lookup_insert_ne by done. apply Y3.
Qed.

Lemma written_commits A i o d c p :
  appendable A i o → written A i o d c p →
  rep (log_append i o A) (commit_db (committed_db A i o (db d)) d) c
    (<[i := apply (default projections_default (p !! i)) o]> p).
Proof.
  intros [Ha Hfresh] HW. pose proof (written_disk _ _ _ _ _ _ (conj Ha Hfresh) HW) as Hd.
  destruct HW as (d0 & c0 & HR & Hf & Hf' & Hdb & _ & ->).
  destruct (committed_tables A i o (db d)) as (Ti & Te & Tb & Tc).
  assert (files d !! jsonl_path_key i = Some (lines (log_of A i ++ [o]))) as Hfi
    by (rewrite Hf'; apply lookup_insert_eq).
  pose proof (disk_log _ _ (rep_disk _ _ _ _ HR)) as HLok.
  split.
  - apply disk_ok_commit; [done| |].
    2:{ intros k Hk. rewrite Ti, set_seq_lookup. case_decide; [by apply fmap_is_Some; subst|done]. }
    eapply db_ok_tables with (d := set_events
      <[(i, obs_seq o) := row_of (log_append i o A) i (length (log_of A i)) o]>
      (set_seq i (obs_seq o) (db d))); [exact Ti|exact Te|]. pose proof (app_seq _ _ _ Ha).
    apply db_ok_insert_event; [by rewrite Hfi|lia|]. apply db_ok_set_seq; [by rewrite Hfi|].
    by apply disk_ok_db.
  - intros k b. simpl. rewrite Hf'. destruct (decide (i = k)) as [->|Hne].
    + rewrite lookup_insert_eq, log_of_append_eq. congruence.
    + rewrite lookup_insert_ne by (by intros ?%(inj _)). rewrite log_of_append_ne by done. by apply HR.
  - intros k. cbn [db commit_db]. rewrite Ti, Hdb, set_seq_lookup. simpl.
    rewrite <- (rep_jids _ _ _ _ HR k). case_decide as Hik; [subst k|done].
    by destruct (tbl_instances (db d0) !! i).
  - intros k r. cbn [db commit_db]. rewrite Ti, Hdb, set_seq_lookup. case_decide as Hik; [subst k|].
    + intros (r0 & _ & ->)%fmap_Some. simpl. rewrite log_of_append_eq, length_app, (app_seq _ _ _ Ha).
      simpl. lia.
    + rewrite log_of_append_ne by done. by apply HR.
  - intros k z row. cbn [db commit_db]. rewrite Te, Hdb.
    apply events_append; [by apply Ha|]. by apply HR.
  - intros k n. cbn [files commit_db]. rewrite Hf'. destruct (decide (i = k)) as [->|Hne].
    + rewrite !lookup_insert_eq. intros [= <-]. eauto.
    + rewrite !lookup_insert_ne by (done || by intros ?%(inj _)). by apply HR.
  - intros k q. destruct (decide (i = k)) as [->|Hne].
    + rewrite lookup_insert_eq, log_of_append_eq, foldl_snoc. intros [= <-]. f_equal.
      destruct (p !! k) as [q|] eqn:Hq; [by apply HR in Hq|]. simpl.
      destruct (decide (log_of A k = [])) as [->|Hne]; [done|].
      apply (rep_folded _ _ _ _ HR) in Hne as [? ?]. congruence.
    + rewrite lookup_insert_ne, log_of_append_ne by done. by apply HR.
  - intros k. destruct (decide (i = k)) as [->|Hne]; [rewrite lookup_insert_eq; eauto|].
    rewrite lookup_insert_ne, log_of_append_ne by done. by apply HR.
  - cbn [db commit_db]. rewrite Tb, Hdb. by apply HR.
  - cbn [db commit_db]. rewrite Tc, Hdb. by apply HR.
Qed.

Lemma spec_commit_index A i o :
  appendable A i o →
  spec (written A i o)
    (commit_index i o (byte_len (lines (log_of A i))) (byte_len (record_of o)))
    (λ _ d c p, rep (log_append i o A) d c (<[i := apply (default projections_default (p !! i)) o]> p))
    (λ _, interrupted A i o).
Proof.
  intros Ha. unfold commit_index. apply spec_try.
  - intros x d c p HW. pose proof HW as (d0 & c0 & HR & _ & _ & Hdb & _).
    rewrite Hdb, (commit_index_succeeds A i o d0 c0 p) by done. intros [= <-]. rewrite <- Hdb.
    by apply written_commits.
  - intros e d c p HW. pose proof HW as (d0 & c0 & HR & _ & _ & Hdb & _).
    by rewrite Hdb, (commit_index_succeeds A i o d0 c0 p) by done.
  - intros Hn d c p HW. eapply interrupted_written; [done|apply Ha|done].
Qed.

(** A line whose event id is in the log already is refused by the index. *)
Lemma commit_index_refuses A i o d c p off len :
  fitting A i o → rep A d c p → ¬ fresh_event A (obs_event_id o) →
  insert_event i (obs_seq o) (event_row o off len) (set_seq i (obs_seq o) (db d)) = Err ESqlite.
Proof.
  intros Ha HR Hold. unfold insert_event. rewrite (bool_decide_true (¬ _)); [by rewrite orb_true_r|].
  intros Hall. apply Hold. intros j x [k Hk]%list_elem_of_lookup.
  assert (tbl_events (db d) !! (j, Z.of_nat k + 1) = Some (row_of A j k x)) as Hrow.
  { apply (rep_events _ _ _ _ HR). eauto. }
  exact (Hall _ _ Hrow).
Qed.
Lemma spec_commit_repeated A i o off len :
  fitting A i o → ¬ fresh_event A (obs_event_id o) →
  spec (written A i o) (commit_index i o off len) (λ _ _ _ _, False) (λ x _ _ _, x = ESqlite).
Proof.
  intros Ha Hold. unfold commit_index, u64_i64. rewrite (proj2 (Z.leb_le _ _) (seq_fits _ _ _ Ha)).
  apply spec_try; [| |done]; intros x d c p (d0 & c0 & HR & _ & _ & Hdb & _); rewrite Hdb;
    rewrite (commit_index_refuses A i o d0 c0 p) by done; congruence.
Qed.

(** ** [save_checkpoint] *)

Lemma spec_checkpoint (P : core) i (E : JError → core) :
  (∀ f d c p, P d c p → P (commit_db (set_checkpoints f (db d)) d) c p) →
  (∀ e d c p, ¬ nf → P d c p → E e d c p) →
  spec P (save_checkpoint i) (λ _, P) E.
Proof.
  intros HP HE. unfold save_checkpoint. apply spec_get. intros s0 _ HR.
  destruct (projections s0 !! i) as [q|]; [|by apply spec_ret; intros ? ? ? (-> & -> & ->)].
  eapply spec_bind with (Q := λ _, P).
  { apply spec_lift; [by intros ? ? ? ? _ (-> & -> & ->)|].
    intros e ? ? ?. by destruct (encode_projections_total q) as [? ->]. }
  intros json. eapply spec_bind with (Q := λ _, P); [apply spec_watermark; eauto|].
  intros w. apply spec_exec; eauto.
Qed.
Lemma spec_save_checkpoint (A : Log) i (E : JError → core) :
  (∀ e d c p, ¬ nf → rep A d c p → E e d c p) →
  spec (rep A) (save_checkpoint i) (λ _, rep A) E.
Proof.
  intros HE. apply spec_checkpoint; [|done]. intros f d c p HR.
  eapply rep_tables; [..|exact HR]; try done; simpl; apply HR.
Qed.

(** ** [put] *)

(** What [put] returns and records. *)
Definition blob_ref (A : Log) (raw : RawPayload) (object_id : string) : RawRef :=
  let dig := digest_of sha256 (raw_bytes raw) in
  match ablobs A !! dig with
  | Some row => mkRawRef (row_object_id row) 0 (as_u64 (row_blob_length row)) dig
                  (raw_media_type raw) (raw_redaction raw)
  | None => mkRawRef object_id 0 (byte_len (raw_bytes raw)) dig (raw_media_type raw)
              (raw_redaction raw)
  end.
Definition log_put (raw : RawPayload) (object_id : string) (A : Log) : Log :=
  let dig := digest_of sha256 (raw_bytes raw) in
  match ablobs A !! dig with
  | Some _ => A
  | None => mkLog (logs A) (jids A)
              (<[dig := mkBlobRow object_id (as_i64 (byte_len (raw_bytes raw)))
                          (raw_media_type raw)]> (ablobs A)) (acursors A)
  end.
(** The stored object ids are ids and the new one is fresh. *)
Definition object_fresh (A : Log) (object_id : string) : Prop :=
  valid_id object_id = true ∧
  map_Forall (λ _ r, valid_id (row_object_id r) = true ∧ row_object_id r ≠ object_id) (ablobs A).

Lemma spec_write_blob A name b (E : JError → core) :
  (∀ d c p, ¬ nf → rep A d c p → E EIo d c p) →
  spec (rep A) (write_blob name b) (λ _, rep A) E.
Proof.
  intros HE s (HP & H1 & H2 & H3 & H4). unfold write_blob.
  assert (∀ x, rep A (set_blob_files <[name := x]> (disk s)) (jsonl s) (projections s)) as Hsame
    by (intros x; by eapply rep_same_disk; [..|exact HP]).
  destruct (faults s) as [|[|n] r] eqn:Hf.
  - split; [by apply Hsame|]. simpl. by rewrite Hf.
  - split; [by apply Hsame|]. simpl. split_and!; try done. by intros ?%H4.
  - assert (¬ nf) as Hnf by (by intros ?%H4). split; [by apply HE; [|apply Hsame]|]. simpl. by split_and!.
Qed.

Lemma spec_put A raw oid uuid (E : JError → core) :
  object_fresh A oid → (∀ e d c p, ¬ nf → rep A d c p → E e d c p) →
  spec (rep A) (put raw oid uuid)
    (λ r d c p, r = blob_ref A raw oid ∧ rep (log_put raw oid A) d c p) E.
Proof.
  intros [Hv Hfresh] HE. unfold put, blob_ref, log_put.
  set (dig := digest_of sha256 (raw_bytes raw)).
  eapply spec_bind with (Q := λ r d c p, r = ablobs A !! dig ∧ rep A d c p).
  { apply spec_query; [|eauto]. intros d c p HR. split; [|done]. by rewrite (rep_blobs _ _ _ _ HR). }
  intros r. apply spec_pure. intros ->. destruct (ablobs A !! dig) as [row|] eqn:Hrow.
  - destruct (Hfresh _ _ Hrow) as [-> _]. by apply spec_ret.
  - apply spec_get. intros s0 _ HR. eapply spec_pre with (P := rep A);
      [|by intros ? ? ? (-> & -> & ->)].
    eapply spec_bind with (Q := λ _, rep A).
    { case_bool_decide; [by apply spec_ret|].
      eapply spec_bind with (Q := λ _, rep A); [apply spec_io; eauto|]. intros [].
      eapply spec_bind with (Q := λ _, rep A); [apply spec_write_blob; eauto|]. intros [].
      eapply spec_bind with (Q := λ _, rep A).
      { destruct (fsync s0); [by apply spec_ret|apply spec_io; eauto..]. }
      intros []. unfold rename_blob. eapply spec_bind with (Q := λ _, rep A); [apply spec_io; eauto|].
      intros []. apply spec_modify; [done|]. intros s Hs. by eapply rep_same_disk; [..|exact Hs]. }
    intros []. eapply spec_bind with (Q := λ _, rep (mkLog (logs A) (jids A)
      (<[dig := mkBlobRow oid (as_i64 (byte_len (raw_bytes raw))) (raw_media_type raw)]> (ablobs A))
      (acursors A))); [|intros []; by apply spec_ret].
    assert (∀ d c p, rep A d c p → insert_blob dig
      (mkBlobRow oid (as_i64 (byte_len (raw_bytes raw))) (raw_media_type raw)) (db d)
      = Ok (set_blobs <[dig := mkBlobRow oid (as_i64 (byte_len (raw_bytes raw))) (raw_media_type raw)]>
              (db d))) as Hins.
    { intros d c p HR'. unfold insert_blob. rewrite (rep_blobs _ _ _ _ HR'), Hrow.
      rewrite bool_decide_false by (by intros [? ?]). rewrite bool_decide_false; [done|].
      intros Hn. apply Hn. intros k r Hr. by apply (Hfresh k). }
    apply spec_try; [| |eauto].
    + intros x d c p HR'. rewrite (Hins d c p HR'). intros [= <-].
      eapply rep_tables; [..|exact HR']; try done; simpl; [by rewrite (rep_blobs _ _ _ _ HR')|].
      by apply HR'.
    + intros e d c p HR'. by rewrite (Hins d c p HR').
Qed.

(** ** [append] *)

(** The observation an envelope becomes, and the log it is appended to. *)
Definition append_obs (A : Log) (i : string) (e : Envelope) (m : Minted) : Obs :=
  observation_of e (default (mint_event m) (env_event_id e)) (Z.of_nat (length (log_of A i)) + 1)
    ((λ raw, blob_ref A raw (mint_object m)) <$> env_raw e).
Definition log_prepare (A : Log) (i : string) (e : Envelope) (m : Minted) : Log :=
  match env_raw e with
  | Some raw => log_put raw (mint_object m) (log_register i (env_journal_id e) A)
  | None => log_register i (env_journal_id e) A
  end.

(** The object id an append mints is new and the file has room; the event id is
    new too. *)
Record append_fits (A : Log) (i : string) (e : Envelope) (m : Minted) : Prop := {
  fresh_valid : valid_instance_id i = true;
  fresh_object : is_Some (env_raw e) → object_fresh A (mint_object m);
  fresh_fits : byte_len (lines (log_of A i ++ [append_obs A i e m])) ≤ i64_max;
}.
Definition append_fresh (A : Log) (i : string) (e : Envelope) (m : Minted) : Prop :=
  append_fits A i e m ∧ fresh_event A (default (mint_event m) (env_event_id e)).

Lemma log_of_prepare A i e m k : log_of (log_prepare A i e m) k = log_of A k.
Proof. unfold log_prepare, log_put, log_of. by repeat case_match. Qed.
Lemma logs_prepare A i e m : logs (log_prepare A i e m) = logs A.
Proof. unfold log_prepare, log_put. by repeat case_match. Qed.
Lemma jids_prepare A i e m : jids (log_prepare A i e m) = <[i := env_journal_id e]> (jids A).
Proof. unfold log_prepare, log_put. by repeat case_match. Qed.

Lemma append_fitting A i e m :
  env_instance_id e = i → append_fits A i e m →
  fitting (log_prepare A i e m) i (append_obs A i e m).
Proof.
  intros Hi [F1 F2 F3]. split; rewrite ?jids_prepare, ?log_of_prepare; simpl; try done.
  by rewrite lookup_insert_eq.
Qed.
Lemma fresh_prepare A i e m id : fresh_event (log_prepare A i e m) id ↔ fresh_event A id.
Proof. unfold fresh_event. by setoid_rewrite log_of_prepare. Qed.

(** [append] up to the write of the line, and from there to the broadcast. *)
Definition append_write (i : string) (e : Envelope) (m : Minted) : jm (Z * Obs * (Z * Z)) :=
  if bool_decide (env_instance_id e ≠ i) then st_fail (EInstanceMismatch i (env_instance_id e))
  else
    _ ← ensure_instance i (env_journal_id e) (env_host_id e);
    raw_ref ← match env_raw e with
              | Some raw => r ← put raw (mint_object m) (mint_tmp m); mret (Some r)
              | None => mret None
              end;
    w ← watermark i;
    let obs := observation_of e (default (mint_event m) (env_event_id e)) (wrap64 (w + 1)) raw_ref in
    line ← st_lift (ok_or (encode_obs obs) EJson);
    ol ← write_jsonl i line;
    mret (wrap64 (w + 1), obs, ol).
Definition append_commit (i : string) (r : Z * Obs * (Z * Z)) : jm (Z * Obs) :=
  _ ← commit_index i r.1.2 r.2.1 r.2.2;
  _ ← st_modify (set_projections (λ p,
        <[i := apply (default projections_default (p !! i)) r.1.2]> p));
  _ ← save_checkpoint i;
  mret r.1.
Definition append_head (i : string) (e : Envelope) (m : Minted) : jm (Z * Obs) :=
  append_write i e m ≫= append_commit i.

(** The rest of [append]. *)
Definition append_tail (i : string) (r : Store * result (Z * Obs) JError)
  : Store * result Z JError :=
  match r with
  | (s, Ok (seq, obs)) => (broadcast i obs s, Ok seq)
  | (s, Err x) => (s, Err x)
  end.
Lemma st_bind_map {S E X Y Y'} (c : st S E X) (k : X → st S E Y) (k' : X → st S E Y')
    (F : S * result Y' E → S * result Y E) s :
  (∀ s' x, F (s', Err x) = (s', Err x)) → (∀ a s', k a s' = F (k' a s')) →
  (c ≫= k) s = F ((c ≫= k') s).
Proof. intros HF Hk. rewrite !st_bind_eq. by destruct (c s) as [s' [a|x]]. Qed.
Lemma append_split i e m s : append i e m s = append_tail i (append_head i e m s).
Proof.
  unfold append_head. rewrite st_bind_eq. unfold append, append_write.
  set (F := λ r, append_tail i (match r with (s', Ok a) => append_commit i a s' | (s', Err x) => (s', Err x) end)).
  case_bool_decide; [done|].
  do 5 (apply (st_bind_map _ _ _ F); [done|intros ? ?]). subst F. simpl. unfold append_commit.
  by repeat (apply (st_bind_map _ _ _ (append_tail i)); [done|intros ? ?]).
Qed.

(** A refused append changed nothing. *)
Definition append_refused (A : Log) (i : string) (e : Envelope) (x : JError) : core := λ d c p,
  (env_instance_id e ≠ i ∧ x = EInstanceMismatch i (env_instance_id e) ∨
   env_instance_id e = i ∧ x = EJournalMismatch i ∧
     ∃ j, jids A !! i = Some j ∧ j ≠ env_journal_id e) ∧ rep A d c p.
(** Bytes of a failed append that are in the file and not in the index. *)
Definition append_torn (A : Log) (i : string) (e : Envelope) (m : Minted) (d : Disk) : Prop :=
  left_over A i d ∧ ∃ A', disk_ok A' d ∧
    (logs A' = logs A ∨ logs A' = logs (log_append i (append_obs A i e m) A)).
(** A failure of the environment before the commit of the index leaves the log
    as it was, or unindexed bytes. *)
Definition append_unwritten (A : Log) (i : string) (e : Envelope) (m : Minted) : core := λ d c p,
  ¬ nf ∧ ((∃ A', logs A' = logs A ∧ rep A' d c p) ∨
    (fresh_event A (default (mint_event m) (env_event_id e)) → append_torn A i e m d)).
Definition append_done (A : Log) (i : string) (e : Envelope) (m : Minted) : Log :=
  log_append i (append_obs A i e m) (log_prepare A i e m).

Lemma append_done_logs A i e m :
  logs (append_done A i e m) = logs (log_append i (append_obs A i e m) A).
Proof. unfold append_done, log_append. simpl. by rewrite log_of_prepare, logs_prepare. Qed.

Lemma append_unwritten_before A i e m A1 d c p :
  ¬ nf → logs A1 = logs A → rep A1 d c p → append_unwritten A i e m d c p.
Proof. intros Hn HL HR. split; [done|left]. eauto. Qed.
Lemma append_unwritten_interrupted A i e m d c p :
  interrupted (log_prepare A i e m) i (append_obs A i e m) d c p → append_unwritten A i e m d c p.
Proof.
  intros [Hn [HR|[[Hl1 Hl2] Hd]]]; split; try done; [left; eauto using logs_prepare|right].
  intros Hfresh. split; [unfold left_over; by rewrite <- (log_of_prepare A i e m i)|].
  destruct Hd as [Hd|Hd]; eexists; (split; [|]).
  - exact Hd.
  - left. apply logs_prepare.
  - apply Hd. by apply fresh_prepare.
  - right. apply append_done_logs.
Qed.

Lemma spec_ensure_rep A i e (E : JError → core) :
  (∀ x d c p, ¬ nf → rep A d c p → E x d c p) →
  (∀ d c p j, rep A d c p → jids A !! i = Some j → j ≠ env_journal_id e →
     E (EJournalMismatch i) d c p) →
  spec (rep A) (ensure_instance i (env_journal_id e) (env_host_id e))
    (λ _ d c p, (∀ j, jids A !! i = Some j → j = env_journal_id e) ∧
       rep (log_register i (env_journal_id e) A) d c p) E.
Proof.
  intros HE HM. apply spec_ensure; [| | |eauto].
  - intros d c p r HR Hr Hj. pose proof (rep_jids _ _ _ _ HR i) as Hij. rewrite Hr in Hij. simpl in Hij.
    assert (log_register i (env_journal_id e) A = A) as ->; [|split; [congruence|done]].
    unfold log_register. destruct A as [l js bs cs]. simpl in *. f_equal. apply insert_id. congruence.
  - intros d c p r HR Hr Hj. eapply HM; [done| |done]. by rewrite <- (rep_jids _ _ _ _ HR i), Hr.
  - intros d c p HR Hn. split; [|by apply rep_register].
    pose proof (rep_jids _ _ _ _ HR i) as Hij. rewrite Hn in Hij. simpl in Hij. congruence.
Qed.

Lemma spec_watermark_rep A i (E : JError → core) :
  byte_len (lines (log_of A i)) ≤ i64_max →
  (∀ d c p, ¬ nf → rep A d c p → E ESqlite d c p) →
  spec (rep A) (watermark i) (λ w d c p, w = Z.of_nat (length (log_of A i)) ∧ rep A d c p) E.
Proof.
  intros Hfit HE. apply spec_watermark; [|eauto]. intros d c p HR. split; [|done].
  pose proof (lines_long (log_of A i)). fold (seq_of d i). rewrite (rep_seq_of A d c p) by done.
  apply as_u64_small. lia.
Qed.

(** The raw bytes are stored first. *)
Lemma spec_store_raw A i e m (E : JError → core) :
  append_fits A i e m → (∀ x d c p, append_unwritten A i e m d c p → E x d c p) →
  spec (rep (log_register i (env_journal_id e) A))
    match env_raw e with
    | Some raw => r ← put raw (mint_object m) (mint_tmp m); mret (Some r)
    | None => mret None
    end
    (λ r d c p, r = (λ raw, blob_ref A raw (mint_object m)) <$> env_raw e ∧ rep (log_prepare A i e m) d c p) E.
Proof.
  intros HF HE. unfold log_prepare. destruct (env_raw e) as [raw|] eqn:Hraw; [|by apply spec_ret].
  eapply spec_bind.
  - apply spec_put; [apply (fresh_object _ _ _ _ HF); by rewrite Hraw|].
    intros x d c p ? HR. by eapply HE, append_unwritten_before; [| |exact HR].
  - intros r. apply spec_ret. by intros d c p [-> ?].
Qed.

(** The write of an append. *)
Lemma spec_append_write A i e m :
  append_fits A i e m →
  spec (rep A) (append_write i e m)
    (λ r d c p, env_instance_id e = i ∧ (∀ j, jids A !! i = Some j → j = env_journal_id e) ∧
       r = (Z.of_nat (length (log_of A i)) + 1, append_obs A i e m,
            (byte_len (lines (log_of A i)), byte_len (record_of (append_obs A i e m)))) ∧
       written (log_prepare A i e m) i (append_obs A i e m) d c p)
    (λ x d c p, append_refused A i e x d c p ∨ append_unwritten A i e m d c p).
Proof.
  intros HF. unfold append_write. case_bool_decide as Hi.
  { apply spec_fail. intros d c p HR. by left; split; [left|]. }
  assert (env_instance_id e = i) as Hie by (by destruct (decide (env_instance_id e = i))).
  clear Hi. pose proof (append_fitting A i e m Hie HF) as Ha.
  eapply spec_bind.
  { apply spec_ensure_rep; [intros x d c p ? ?; right; by eapply append_unwritten_before|].
    intros d c p j HR Hj Hne. left. split; [right|]; eauto. }
  intros []. apply spec_pure. intros Hsame. eapply spec_bind.
  { apply spec_store_raw; [done|]. by right. }
  intros raw_ref. apply spec_pure. intros ->.
  assert (byte_len (lines (log_of (log_prepare A i e m) i)) ≤ i64_max) as Hfit.
  { pose proof (app_fits _ _ _ Ha) as Hf. rewrite lines_snoc, byte_len_app in Hf.
    pose proof (byte_len_pos (record_of (append_obs A i e m))). lia. }
  eapply spec_bind.
  { apply spec_watermark_rep; [done|]. intros d c p ? ?. right. eapply append_unwritten_before; [done| |done].
    apply logs_prepare. }
  intros w. apply spec_pure. intros ->. rewrite log_of_prepare.
  assert (wrap64 (Z.of_nat (length (log_of A i)) + 1) = Z.of_nat (length (log_of A i)) + 1) as ->.
  { pose proof (seq_fits _ _ _ Ha) as Hs. rewrite (app_seq _ _ _ Ha), log_of_prepare in Hs.
    apply as_u64_small. lia. }
  fold (append_obs A i e m). set (o := append_obs A i e m) in *. set (A1 := log_prepare A i e m) in *.
  eapply spec_bind with (Q := λ line d c p, line = enc o ∧ rep A1 d c p).
  { rewrite encode_enc. apply spec_lift; [by intros ? ? ? ? [= <-]|done]. }
  intros line. apply spec_pure. intros ->. eapply spec_bind.
  { eapply spec_conseq; [by apply (spec_write_jsonl A1 i o)|done|done|].
    intros x d c p ?. right. by apply append_unwritten_interrupted. }
  intros ol. apply spec_pure. intros ->. apply spec_ret. intros d c p HW. split_and!; try done.
  subst A1. by rewrite log_of_prepare.
Qed.

(** The commit of an append: the log has grown, or the failure came before or
    after that. *)
Lemma spec_append_commit A i e m :
  env_instance_id e = i → append_fresh A i e m →
  let o := append_obs A i e m in
  spec (written (log_prepare A i e m) i o)
    (append_commit i (Z.of_nat (length (log_of A i)) + 1, o,
       (byte_len (lines (log_of A i)), byte_len (record_of o))))
    (λ r d c p, r = (Z.of_nat (length (log_of A i)) + 1, o) ∧ rep (append_done A i e m) d c p)
    (λ _ d c p, append_unwritten A i e m d c p ∨ ¬ nf ∧ rep (append_done A i e m) d c p).
Proof.
  intros Hie [HF Hfresh] o. pose proof (append_fitting A i e m Hie HF) as Ha.
  assert (appendable (log_prepare A i e m) i o) as Happ by (split; [done|by apply fresh_prepare]).
  unfold append_commit. cbn [fst snd]. rewrite <- (log_of_prepare A i e m i) at 1. eapply spec_bind.
  { eapply spec_conseq; [by apply (spec_commit_index (log_prepare A i e m) i o)|done|done|].
    intros x d c p ?. left. by apply append_unwritten_interrupted. }
  intros []. eapply spec_bind with (Q := λ _, rep (append_done A i e m)); [by apply spec_modify|].
  intros []. eapply spec_bind; [by apply spec_save_checkpoint; right|]. intros []. by apply spec_ret.
Qed.
(** The commit of an append that repeats an event id is refused. *)
Lemma spec_append_repeated A i e m r :
  env_instance_id e = i → append_fits A i e m →
  ¬ fresh_event A (default (mint_event m) (env_event_id e)) → r.1.2 = append_obs A i e m →
  spec (written (log_prepare A i e m) i (append_obs A i e m)) (append_commit i r)
    (λ _ _ _ _, False) (λ x _ _ _, x = ESqlite).
Proof.
  intros Hie HF Hold Hr. unfold append_commit. rewrite Hr. eapply spec_bind with (Q := λ _ _ _ _, False); [|by intros [] s [[] _]].
  apply (spec_commit_repeated (log_prepare A i e m)); [by apply append_fitting|]. by rewrite fresh_prepare.
Qed.
End steps.
End log.
