(* ===== verification/JournalRecover.v ===== *)
(** * Recovery of the journal

    [recover] rebuilds the index from the JSONL files.  Whatever the database
    looked like (any committed state, from before or after the last append) and
    however the last line was torn, the store that [open] returns holds exactly
    the complete lines; a failure during recovery leaves a disk from which
    recovery still works.  With the behaviour of [append] under failures this
    gives the crash safety of the journal. *)
From stdpp Require Import base list gmap strings numbers sorting.
From S2P Require Import Prelude Text Json Cover FileTail NodeStore Projection Journal.
From S2P Require Import JournalLog.
Local Open Scope Z_scope.

Section recover.
Context `{CodecLaws}.
Context (nf : Prop) (fp : FsyncPolicy) (sub : gmap string (list nat)) (chs : list Chan).
Local Abbreviation spec := (spec nf fp sub chs).

(** ** The invariant of the loop over the files

    [D] are the names of the directory, [done] those already recovered. *)
Record recovered (A : Log) (D : gset string) (done : list string) (d : Disk) (c : gmap string Z)
    (p : gmap string Projections) : Prop := {
  rc_disk : disk_ok A d;
  rc_dom : dom (files d) = D;
  rc_cache : c = ∅;
  rc_whole : ∀ i b, jsonl_path_key i ∈ done → files d !! jsonl_path_key i = Some b →
    b = lines (log_of A i);
  rc_rows : ∀ i k o, jsonl_path_key i ∈ done → log_of A i !! k = Some o →
    tbl_events (db d) !! (i, Z.of_nat k + 1) = Some (row_of A i k o);
  rc_only : ∀ i seq, jsonl_path_key i ∈ done → is_Some (tbl_events (db d) !! (i, seq)) →
    1 ≤ seq ≤ Z.of_nat (length (log_of A i));
  rc_inst : ∀ i, jsonl_path_key i ∈ done → log_of A i ≠ [] → is_Some (tbl_instances (db d) !! i);
  rc_seq : ∀ i r, jsonl_path_key i ∈ done → tbl_instances (db d) !! i = Some r →
    row_seq r = Z.of_nat (length (log_of A i));
  rc_proj : ∀ i, jsonl_path_key i ∈ done →
    p !! i = Some (foldl apply projections_default (log_of A i));
  rc_noproj : ∀ i, jsonl_path_key i ∉ done → p !! i = None;
}.

(** A statement that changes nothing of the recovered instances. *)
Lemma recovered_commit A D done d c p x :
  recovered A D done d c p → db_ok A (files d) x →
  (∀ i, is_Some (tbl_instances (db d) !! i) → is_Some (tbl_instances x !! i)) →
  (∀ i seq, jsonl_path_key i ∈ done → tbl_events x !! (i, seq) = tbl_events (db d) !! (i, seq)) →
  (∀ i, jsonl_path_key i ∈ done → tbl_instances x !! i = tbl_instances (db d) !! i) →
  recovered A D done (commit_db x d) c p.
Proof.
  intros [R1 R2 R3 R4 R5 R6 R7 R8 R9 R10] Hx Hrows He Hi. split; simpl; try done.
  - by apply disk_ok_commit.
  - intros i k o Hd. rewrite He by done. by apply R5.
  - intros i seq Hd. rewrite He by done. by apply R6.
  - intros i Hd. rewrite Hi by done. by apply R7.
  - intros i r Hd. rewrite Hi by done. by apply R8.
Qed.

(** The rows of a recovered instance are those of its log. *)
Lemma recovered_row A D done d c p i seq row :
  recovered A D done d c p → jsonl_path_key i ∈ done → tbl_events (db d) !! (i, seq) = Some row →
  ∃ k o, log_of A i !! k = Some o ∧ seq = Z.of_nat k + 1 ∧ row = row_of A i k o.
Proof.
  intros HR Hd Hrow. destruct (rc_only _ _ _ _ _ _ HR i seq Hd (mk_is_Some _ _ Hrow)) as [H1 H2].
  destruct (lookup_lt_is_Some_2 (log_of A i) (Z.to_nat (seq - 1)) ltac:(lia)) as [o Ho].
  exists (Z.to_nat (seq - 1)), o. split_and!; [done|lia|].
  pose proof (rc_rows _ _ _ _ _ _ HR i _ o Hd Ho) as Hr.
  replace (Z.of_nat (Z.to_nat (seq - 1)) + 1) with seq in Hr by lia. congruence.
Qed.

Lemma db_ok_events A fs d x :
  db_ok A fs d → tbl_instances x = tbl_instances d →
  (∀ i seq, is_Some (tbl_events x !! (i, seq)) → is_Some (tbl_events d !! (i, seq)) ∨
     (is_Some (fs !! jsonl_path_key i) ∧ 1 ≤ seq)) →
  db_ok A fs x.
Proof.
  intros [Y1 Y2 Y3] Hi He. split; rewrite ?Hi; [done| |].
  - intros i Hf. destruct (Y2 i Hf) as [Z1 Z2]. split; [|done]. intros seq.
    destruct (tbl_events x !! (i, seq)) eqn:Hx; [|done].
    destruct (He i seq (mk_is_Some _ _ Hx)) as [[? ?]|[[? ?] _]]; congruence.
  - intros i seq Hs. destruct (He i seq Hs) as [?|[_ ?]]; [by eapply Y3|done].
Qed.

(** ** One line *)

(** [k] lines of the file of [i] have been replayed. *)
Record replaying (A : Log) (D : gset string) (done : list string) (i : string) (k : nat)
    (d : Disk) (c : gmap string Z) (p : gmap string Projections) : Prop := {
  rp_base : recovered A D done d c p;
  rp_new : jsonl_path_key i ∉ done;
  rp_file : files d !! jsonl_path_key i = Some (lines (log_of A i));
  rp_rows : ∀ m o, (m < k)%nat → log_of A i !! m = Some o →
    tbl_events (db d) !! (i, Z.of_nat m + 1) = Some (row_of A i m o);
  rp_inst : (0 < k)%nat → is_Some (tbl_instances (db d) !! i);
}.

Definition scan_at (A : Log) (i : string) (k : nat) : Scan :=
  mkScan (Z.of_nat k) (byte_len (lines (take k (log_of A i))))
    (foldl apply projections_default (take k (log_of A i))).

Lemma replace_event_lookup i seq row d j z :
  tbl_events (replace_event i seq row d) !! (j, z) =
  if decide ((i, seq) = (j, z)) then Some row
  else match tbl_events d !! (j, z) with
       | Some r => if decide (row_event_id r ≠ row_event_id row) then Some r else None
       | None => None
       end.
Proof.
  simpl. case_decide as Hk.
  - rewrite <- Hk. apply lookup_insert_eq.
  - rewrite lookup_insert_ne by done. rewrite map_lookup_filter.
    destruct (tbl_events d !! (j, z)) as [r|]; simpl; [|done].
    by repeat case_guard; try case_decide.
Qed.

Lemma replay_event A D done i k o d c p :
  log_of A i !! k = Some o → replaying A D done i k d c p →
  let x := replace_event i (Z.of_nat k + 1) (row_of A i k o) (db d) in
  recovered A D done (commit_db x d) c p ∧
  ∀ m y, (m < S k)%nat → log_of A i !! m = Some y →
    tbl_events x !! (i, Z.of_nat m + 1) = Some (row_of A i m y).
Proof.
  intros Ho [HR Hnew Hf Hrows Hinst] x.
  pose proof (disk_log _ _ (rc_disk _ _ _ _ _ _ HR)) as HL.
  assert (∀ j m y, log_of A j !! m = Some y → (i, k) ≠ (j, m) →
    row_event_id (row_of A j m y) ≠ row_event_id (row_of A i k o)) as Hids.
  { intros j m y Hy Hne He. rewrite !row_event_id_of in He.
    destruct (log_unique _ HL _ _ _ _ _ _ Hy Ho He). congruence. }
  split.
  - apply recovered_commit; [done| |done| |done].
    + eapply db_ok_events; [by apply disk_ok_db, HR|done|]. intros j z [r Hr].
      subst x. rewrite replace_event_lookup in Hr. case_decide as Hk.
      * injection Hk as <- <-. right. split; [by rewrite Hf|lia].
      * left. destruct (tbl_events (db d) !! (j, z)); [eauto|done].
    + intros j z Hj. subst x. rewrite replace_event_lookup.
      rewrite decide_False by (intros [= -> _]; done).
      destruct (tbl_events (db d) !! (j, z)) as [r|] eqn:Hr; [|done].
      destruct (recovered_row _ _ _ _ _ _ _ _ _ HR Hj Hr) as (m & y & Hy & _ & ->).
      rewrite decide_True; [done|]. apply Hids; [done|]. by intros [= -> _].
  - intros m y Hm Hy. subst x. rewrite replace_event_lookup. case_decide as Hk.
    + injection Hk as Hk. assert (m = k) as -> by lia. congruence.
    + assert (m ≠ k) by (intros ->; done). rewrite (Hrows m y) by (done || lia).
      rewrite decide_True; [done|]. apply Hids; [done|congruence].
Qed.

(** The rows of the first [k] lines are in. *)
Definition replayed_rows (A : Log) (D : gset string) (done : list string) (i : string) (k : nat)
  : core := λ d c p,
  recovered A D done d c p ∧ files d !! jsonl_path_key i = Some (lines (log_of A i)) ∧
  ∀ m o, (m < k)%nat → log_of A i !! m = Some o →
    tbl_events (db d) !! (i, Z.of_nat m + 1) = Some (row_of A i m o).

Definition recover_failed (A : Log) : JError → core := λ _ d c p, ¬ nf ∧ disk_ok A d.
Lemma recover_fails A D done i k d c p (e : JError) :
  ¬ nf → replayed_rows A D done i k d c p → recover_failed A e d c p.
Proof. intros Hn [HR _]. split; [done|by apply HR]. Qed.

Lemma ignore_interaction_tables i x seq d :
  tbl_instances (ignore_interaction i x seq d) = tbl_instances d ∧
  tbl_events (ignore_interaction i x seq d) = tbl_events d.
Proof. unfold ignore_interaction. by repeat case_match. Qed.

Lemma replayed_tables A D done i k d c p x :
  tbl_instances x = tbl_instances (db d) → tbl_events x = tbl_events (db d) →
  replayed_rows A D done i k d c p → replayed_rows A D done i k (commit_db x d) c p.
Proof.
  intros Hi He (HR & Hf & Hrows). split_and!; [|done|].
  - apply recovered_commit; [done| | | |]; intros; rewrite ?Hi, ?He; try done.
    eapply db_ok_tables; [done..|]. by apply disk_ok_db, HR.
  - intros m o Hm Ho. simpl. rewrite He. by apply Hrows.
Qed.

Lemma replayed_register A D done i k d c p o h :
  o ∈ log_of A i → jsonl_path_key i ∉ done → tbl_instances (db d) !! i = None →
  replayed_rows A D done i k d c p →
  replayed_rows A D done i k
    (commit_db (set_instances <[i := mkInstanceRow (obs_journal_id o) h 0]> (db d)) d) c p.
Proof.
  intros Ho Hnew Hn (HR & Hf & Hrows). split_and!; [|done|done].
  pose proof (disk_log _ _ (rc_disk _ _ _ _ _ _ HR)) as HL.
  apply recovered_commit; [done| | |done|].
  - destruct (disk_ok_db _ _ (rc_disk _ _ _ _ _ _ HR)) as [Y1 Y2 Y3]. split; simpl; [| |done].
    + intros j r. destruct (decide (i = j)) as [<-|].
      * rewrite lookup_insert_eq. intros [= <-]. by apply (log_own _ HL i o).
      * rewrite lookup_insert_ne by done. apply Y1.
    + intros j Hj. split; [by apply Y2|]. intros r. destruct (decide (i = j)) as [<-|].
      * rewrite lookup_insert_eq. by intros [= <-].
      * rewrite lookup_insert_ne by done. by apply Y2.
  - intros j Hj. simpl. destruct (decide (i = j)) as [<-|]; [rewrite lookup_insert_eq; eauto|].
    by rewrite lookup_insert_ne.
  - intros j Hj. simpl. rewrite lookup_insert_ne; [done|]. intros ->. done.
Qed.

Lemma spec_recover_line A D done i k o :
  log_of A i !! k = Some o → byte_len (lines (log_of A i)) ≤ i64_max →
  spec (replaying A D done i k) (recover_line i (scan_at A i k) (enc o))
    (λ sc d c p, sc = scan_at A i (S k) ∧ replaying A D done i (S k) d c p) (recover_failed A).
Proof.
  intros Ho Hfit. unfold recover_line. rewrite bool_decide_false by apply enc_nonempty.
  apply spec_state. intros d0 c0 p0 HR0.
  pose proof (disk_log _ _ (rc_disk _ _ _ _ _ _ (rp_base _ _ _ _ _ _ _ _ HR0))) as HL.
  pose proof (log_numbered _ HL i _ _ Ho) as Hseq.
  assert (o ∈ log_of A i) as HoL by (by eapply list_elem_of_lookup_2).
  destruct (log_own _ HL i o HoL) as (Hinst & Hjid & _).
  eapply spec_pre with (P := replaying A D done i k); [|by intros ? ? ? (-> & -> & ->)].
  eapply spec_bind with (Q := λ x d c p, x = o ∧ replaying A D done i k d c p).
  { rewrite decode_enc. apply spec_lift; [by intros ? ? ? ? [= <-]|done]. }
  intros x. apply spec_pure. intros ->. rewrite bool_decide_false by (by intros ?).
  pose proof (lookup_lt_Some _ _ _ Ho) as Hlt. pose proof (lines_long (log_of A i)) as Hlong.
  rewrite Hseq, as_i64_small by lia.
  assert (byte_len (enc o) + 1 = byte_len (record_of o)) as -> by (by rewrite byte_len_record).
  change (sc_offset (scan_at A i k)) with (byte_len (lines (take k (log_of A i)))).
  fold (row_of A i k o).
  eapply spec_bind with (Q := λ _ d c p, jsonl_path_key i ∉ done ∧ replayed_rows A D done i (S k) d c p).
  { apply spec_exec.
    - intros d c p HR. destruct (replay_event _ _ _ _ _ _ _ _ _ Ho HR) as [H1 H2].
      split; [apply HR|]. split_and!; [done|by apply HR|done].
    - intros Hn d c p HR. split; [done|]. by apply HR. }
  intros []. apply spec_pure. intros Hnew.
  eapply spec_bind with (Q := λ _, replayed_rows A D done i (S k)).
  { assert (∀ y, spec (replayed_rows A D done i (S k)) (db_exec (ignore_interaction i y (Z.of_nat k + 1)))
      (λ _, replayed_rows A D done i (S k)) (recover_failed A)) as Hexec.
    { intros y. apply spec_exec; [|intros Hn d c p; by apply recover_fails]. intros d c p.
      apply replayed_tables; apply ignore_interaction_tables. }
    destruct (obs_body o); try by apply spec_ret. case_bool_decide; [done|by apply spec_ret]. }
  intros []. eapply spec_bind with (Q := λ _ d c p, is_Some (tbl_instances (db d) !! i) ∧
    replayed_rows A D done i (S k) d c p).
  { apply spec_ensure; [by eauto| | |intros Hn d c p; by apply recover_fails].
    - intros d c p r (HR & _) Hr Hne. exfalso.
      pose proof (db_journal _ _ _ (disk_ok_db _ _ (rc_disk _ _ _ _ _ _ HR)) _ _ Hr). congruence.
    - intros d c p HR Hn. split; [simpl; rewrite lookup_insert_eq; eauto|]. by apply replayed_register. }
  intros []. apply spec_ret. intros d c p (Hi & HR & Hf & Hrows). split; [|by split].
  unfold scan_at. rewrite (take_S_r _ _ _ Ho), lines_snoc, byte_len_app, foldl_snoc. simpl. f_equal; [lia|].
  apply as_u64_small. pose proof (lines_take_le (log_of A i) (S k)) as Hle.
  rewrite (take_S_r _ _ _ Ho), lines_snoc, byte_len_app in Hle.
  pose proof (byte_len_pos (lines (take k (log_of A i)))). pose proof (byte_len_pos (record_of o)). lia.
Qed.

Lemma spec_recover_lines A D done i :
  byte_len (lines (log_of A i)) ≤ i64_max →
  ∀ K k, drop k (log_of A i) = K → (k ≤ length (log_of A i))%nat →
  spec (replaying A D done i k) (recover_lines i (scan_at A i k) ((enc <$> K) ++ [[]]))
    (λ sc d c p, sc = scan_at A i (length (log_of A i)) ∧
       replaying A D done i (length (log_of A i)) d c p) (recover_failed A).
Proof.
  intros Hfit. induction K as [|o K IH]; intros k HK Hk; cbn [fmap list_fmap app recover_lines].
  - assert (k = length (log_of A i)) as ->.
    { apply (f_equal length) in HK. rewrite length_drop in HK. simpl in HK. lia. }
    eapply spec_bind with (Q := λ sc d c p, sc = scan_at A i (length (log_of A i)) ∧
       replaying A D done i (length (log_of A i)) d c p).
    + unfold recover_line. by apply spec_ret.
    + intros sc. by apply spec_ret.
  - assert (log_of A i !! k = Some o) as Ho.
    { rewrite <- (Nat.add_0_r k), <- lookup_drop, HK. done. }
    eapply spec_bind; [by apply spec_recover_line|].
    intros sc. apply spec_pure. intros ->. apply IH.
    + apply (f_equal (drop 1)) in HK. rewrite drop_drop in HK.
      simpl in HK. by rewrite Nat.add_1_r in HK.
    + apply lookup_lt_Some in Ho. lia.
Qed.

(** ** One file *)

(** Cutting the torn line off. *)
Lemma recovered_truncate A D done i d d' c p torn :
  recovered A D done d c p → jsonl_path_key i ∉ done →
  files d !! jsonl_path_key i = Some (lines (log_of A i) ++ torn) →
  files d' = <[jsonl_path_key i := lines (log_of A i)]> (files d) → db d' = db d → wal d' = wal d →
  recovered A D done d' c p ∧ files d' !! jsonl_path_key i = Some (lines (log_of A i)).
Proof.
  intros [R1 R2 R3 R4 R5 R6 R7 R8 R9 R10] Hnew Hf Hf' Hdb Hwal.
  split; [|rewrite Hf'; apply lookup_insert_eq].
  split; rewrite ?Hdb; try done.
  - destruct R1 as [D1 D2 D3 D4 D5]. split; rewrite ?Hdb, ?Hwal; try done.
    + intros k. specialize (D2 k). unfold file_ok in *. rewrite Hf'.
      destruct (decide (i = k)) as [<-|]; [|by rewrite lookup_insert_ne by (by intros ?%(inj _))].
      rewrite lookup_insert_eq. exists []. rewrite app_nil_r. split; [done|apply not_elem_of_nil].
    + intros name. rewrite Hf'. destruct (decide (name = jsonl_path_key i)) as [->|].
      * intros _. apply D3. by rewrite Hf.
      * rewrite lookup_insert_ne by done. apply D3.
    + eapply list.Forall_impl; [exact D4|]. intros x Hx. eapply db_ok_files; [exact Hx|].
      intros k. rewrite Hf'. destruct (decide (i = k)) as [<-|]; [by rewrite lookup_insert_eq|].
      by rewrite lookup_insert_ne by (by intros ?%(inj _)).
  - rewrite Hf', dom_insert_L. assert (jsonl_path_key i ∈ dom (files d)) by (by eapply elem_of_dom_2).
    set_solver.
  - intros k b Hk. rewrite Hf', lookup_insert_ne; [by apply R4|]. intros ->%(inj _). done.
Qed.

(** The end of a file: rows past the log go, the watermark is pinned. *)
Definition pinned_db (A : Log) (i : string) (d : Db) : Db :=
  set_events (filter (λ kr, ¬ (kr.1.1 = i ∧ Z.of_nat (length (log_of A i)) < kr.1.2))) d.

Lemma pinned_lookup A i d j z :
  tbl_events (pinned_db A i d) !! (j, z) =
  if decide (j = i ∧ Z.of_nat (length (log_of A i)) < z) then None else tbl_events d !! (j, z).
Proof.
  simpl. rewrite map_lookup_filter. destruct (tbl_events d !! (j, z)); simpl; [|by case_decide].
  by repeat case_guard; try case_decide.
Qed.

Lemma replaying_pinned A D done i d c p :
  let n := length (log_of A i) in
  replaying A D done i n d c p →
  replaying A D done i n (commit_db (pinned_db A i (db d)) d) c p ∧
  ∀ seq, is_Some (tbl_events (pinned_db A i (db d)) !! (i, seq)) → 1 ≤ seq ≤ Z.of_nat n.
Proof.
  intros n [HR Hnew Hf Hrows Hinst]. pose proof (disk_ok_db _ _ (rc_disk _ _ _ _ _ _ HR)) as Hdb.
  split; [split; try done|].
  - apply recovered_commit; [done| |done| |done].
    + eapply db_ok_events; [done|done|]. intros j z [r Hr]. left. rewrite pinned_lookup in Hr.
      case_decide; [done|eauto].
    + intros j z Hj. rewrite pinned_lookup, decide_False; [done|]. intros [-> _]. done.
  - intros m o Hm Ho. cbn [db commit_db]. rewrite pinned_lookup, decide_False by (subst n; intros [_ ?]; lia).
    by apply Hrows.
  - intros z [r Hr]. rewrite pinned_lookup in Hr. case_decide as Hc; [done|].
    pose proof (db_positive _ _ _ Hdb i z (mk_is_Some _ _ Hr)). split; [done|].
    destruct (decide (z ≤ Z.of_nat n)); [done|]. exfalso. apply Hc. split; [done|]. lia.
Qed.

Lemma replayed_done A D done i d c p :
  let n := length (log_of A i) in
  replaying A D done i n d c p →
  (∀ seq, is_Some (tbl_events (db d) !! (i, seq)) → 1 ≤ seq ≤ Z.of_nat n) →
  let d' := commit_db (set_seq i (Z.of_nat n) (db d)) d in
  recovered A D (jsonl_path_key i :: done) d' c
    (<[i := foldl apply projections_default (log_of A i)]> p).
Proof.
  intros n [HR Hnew Hf Hrows Hinst] Honly d'.
  assert (∀ j, jsonl_path_key j ∈ done → i ≠ j) as Hne by (by intros j Hj <-).
  assert (recovered A D done d' c p) as HR'.
  { apply recovered_commit; [done| | |done|].
    - apply db_ok_set_seq; [by rewrite Hf|]. by apply disk_ok_db, HR.
    - intros j Hj. rewrite set_seq_lookup. case_decide; [subst; by apply fmap_is_Some|done].
    - intros j Hj. rewrite set_seq_lookup, decide_False; [done|]. by apply Hne. }
  destruct HR' as [R1 R2 R3 R4 R5 R6 R7 R8 R9 R10].
  split; try done.
  - intros j b [Hj|Hj]%elem_of_cons Hb; [|by apply R4]. apply (inj _) in Hj as ->.
    subst d'. simpl in Hb. congruence.
  - intros j k o [Hj|Hj]%elem_of_cons Ho; [|by apply R5]. apply (inj _) in Hj as ->.
    apply Hrows; [|done]. by apply lookup_lt_Some in Ho.
  - intros j z [Hj|Hj]%elem_of_cons; [|by apply R6]. apply (inj _) in Hj as ->. apply Honly.
  - intros j [Hj|Hj]%elem_of_cons Hl; [|by apply R7]. apply (inj _) in Hj as ->.
    subst d'. cbn [db commit_db]. rewrite set_seq_lookup, decide_True by done.
    apply fmap_is_Some, Hinst. subst n. destruct (log_of A i); [done|simpl; lia].
  - intros j r [Hj|Hj]%elem_of_cons; [|by apply R8]. apply (inj _) in Hj as ->.
    subst d'. cbn [db commit_db]. rewrite set_seq_lookup, decide_True by done.
    by intros (? & _ & ->)%fmap_Some.
  - intros j [Hj|Hj]%elem_of_cons.
    + apply (inj _) in Hj as ->. by rewrite lookup_insert_eq.
    + rewrite lookup_insert_ne by (by apply Hne). by apply R9.
  - intros j [Hj1 Hj2]%not_elem_of_cons. rewrite lookup_insert_ne by (by intros ->). by apply R10.
Qed.

Lemma recovered_same_disk A D done d d' c p :
  files d' = files d → db d' = db d → wal d' = wal d →
  recovered A D done d c p → recovered A D done d' c p.
Proof.
  intros Hf Hd Hw [[D1 D2 D3 D4 D5] R2 R3 R4 R5 R6 R7 R8 R9 R10].
  split; [split|..]; rewrite ?Hf, ?Hd, ?Hw; done.
Qed.

(** Names that are no journal of an instance are passed over. *)
Lemma recovered_skip A D done name d c p :
  (∀ i, name ≠ jsonl_path_key i) → recovered A D done d c p → recovered A D (name :: done) d c p.
Proof.
  intros Hn [R1 R2 R3 R4 R5 R6 R7 R8 R9 R10].
  assert (∀ i, jsonl_path_key i ∈ name :: done ↔ jsonl_path_key i ∈ done) as Hiff.
  { intros i. rewrite elem_of_cons. specialize (Hn i). naive_solver. }
  split; try done; by setoid_rewrite Hiff.
Qed.

Definition log_small (A : Log) : Prop := ∀ i, byte_len (lines (log_of A i)) ≤ i64_max.

Lemma spec_truncate A D done i torn :
  jsonl_path_key i ∉ done →
  spec (λ d c p, recovered A D done d c p ∧
          files d !! jsonl_path_key i = Some (lines (log_of A i) ++ torn))
    (truncate_file (jsonl_path_key i) (length (lines (log_of A i))))
    (λ _ d c p, recovered A D done d c p ∧
       files d !! jsonl_path_key i = Some (lines (log_of A i))) (recover_failed A).
Proof.
  intros Hnew. unfold truncate_file.
  eapply spec_bind with (Q := λ _ d c p, recovered A D done d c p ∧
    files d !! jsonl_path_key i = Some (lines (log_of A i) ++ torn)).
  { apply spec_io; [done|]. intros Hn d c p [HR _]. split; [done|by apply HR]. }
  intros []. eapply spec_bind with (Q := λ _ d c p, recovered A D done d c p ∧
    files d !! jsonl_path_key i = Some (lines (log_of A i))).
  { apply spec_modify; [done|]. intros s [HR Hf]. eapply recovered_truncate; try done. simpl.
    by rewrite (lookup_total_correct _ _ _ Hf), take_app_length. }
  intros []. apply spec_sync_file; [done| |].
  - intros d c p [HR Hf]. split; [|done]. by eapply recovered_same_disk; [..|exact HR].
  - intros Hn d c p [HR _]. split; [done|by apply HR].
Qed.

(** The torn tail is cut off, when there is one. *)
Lemma spec_drop_torn A D done i torn d0 c0 p0 :
  jsonl_path_key i ∉ done →
  recovered A D done d0 c0 p0 → files d0 !! jsonl_path_key i = Some (lines (log_of A i) ++ torn) →
  spec (λ d c p, d = d0 ∧ c = c0 ∧ p = p0)
    (if bool_decide (length (lines (log_of A i)) < length (lines (log_of A i) ++ torn))%nat
     then truncate_file (jsonl_path_key i) (length (lines (log_of A i))) else mret tt)
    (λ _, replaying A D done i 0) (recover_failed A).
Proof.
  intros Hnew HR Hf. eapply spec_post with (R := λ _ d c p, recovered A D done d c p ∧
    files d !! jsonl_path_key i = Some (lines (log_of A i))).
  - case_bool_decide as Hlen.
    + eapply spec_pre; [by apply (spec_truncate A D done i torn)|]. by intros ? ? ? (-> & -> & ->).
    + assert (torn = []) as ->.
      { destruct torn; [done|]. rewrite length_app in Hlen. simpl in Hlen. lia. }
      apply spec_ret. intros ? ? ? (-> & -> & ->). by rewrite app_nil_r in Hf.
  - intros _ d c p [HR' Hf']. split; try done; intros; lia.
Qed.
(** The lines replayed, the index is pinned to them. *)
Lemma spec_pin_index A D done i :
  log_small A → jsonl_path_key i ∈ D →
  spec (replaying A D done i (length (log_of A i)))
    (_ ← db_exec (set_events (filter (λ kr, ¬ (kr.1.1 = i ∧ as_i64 (Z.of_nat (length (log_of A i))) < kr.1.2))));
     _ ← db_exec (set_seq i (if 0 <? Z.of_nat (length (log_of A i))
                             then as_i64 (Z.of_nat (length (log_of A i))) else 0));
     _ ← st_modify (set_projections <[i := foldl apply projections_default (log_of A i)]>);
     save_checkpoint i)
    (λ _, recovered A D (jsonl_path_key i :: done)) (recover_failed A).
Proof.
  intros Hsmall HD. set (n := length (log_of A i)).
  assert (as_i64 (Z.of_nat n) = Z.of_nat n) as Hn.
  { apply as_i64_small. pose proof (lines_long (log_of A i)). specialize (Hsmall i). subst n. lia. }
  assert ((if 0 <? Z.of_nat n then as_i64 (Z.of_nat n) else 0) = Z.of_nat n) as ->.
  { rewrite Hn. zbool; lia. }
  rewrite Hn. eapply spec_bind with (Q := λ _ d c p, replaying A D done i n d c p ∧
    ∀ seq, is_Some (tbl_events (db d) !! (i, seq)) → 1 ≤ seq ≤ Z.of_nat n).
  { apply spec_exec.
    - intros d c p HR. apply (replaying_pinned _ _ _ _ _ _ _ HR).
    - intros Hnf d c p HR. split; [done|by apply HR]. }
  intros []. eapply spec_bind with (Q := λ _ d c p, recovered A D (jsonl_path_key i :: done) d c
    (<[i := foldl apply projections_default (log_of A i)]> p)).
  { apply spec_exec.
    - intros d c p [HR Honly]. by apply replayed_done.
    - intros Hnf d c p [HR _]. split; [done|by apply HR]. }
  intros []. eapply spec_bind with (Q := λ _, recovered A D (jsonl_path_key i :: done)).
  { by apply spec_modify. }
  intros []. apply spec_checkpoint.
  - intros f d c p HR. apply recovered_commit; try done.
    eapply db_ok_tables; [..|apply disk_ok_db, HR]; done.
  - intros e d c p Hnf HR. split; [done|by apply HR].
Qed.
Lemma spec_recover_file A D done name :
  log_small A → name ∈ D → name ∉ done →
  spec (recovered A D done) (recover_file name) (λ _, recovered A D (name :: done))
    (recover_failed A).
Proof.
  intros Hsmall HD Hnew. apply spec_state. intros d0 c0 p0 HR0. unfold recover_file.
  destruct (strip_jsonl name) as [k|] eqn:Hstrip.
  2:{ apply spec_ret. intros d c p (-> & -> & ->). apply recovered_skip; [|done].
      intros i ->. by rewrite strip_jsonl_path in Hstrip. }
  assert (is_Some (files d0 !! name)) as Hfile by (by apply elem_of_dom; rewrite (rc_dom _ _ _ _ _ _ HR0)).
  destruct (disk_names _ _ (rc_disk _ _ _ _ _ _ HR0) name Hfile (mk_is_Some _ _ Hstrip))
    as (i & -> & Hv).
  rewrite (trim_jsonl_path i Hv), Hv. simpl.
  pose proof (disk_files _ _ (rc_disk _ _ _ _ _ _ HR0) i) as Hok. unfold file_ok in Hok.
  destruct Hfile as [b Hb]. rewrite Hb in Hok. destruct Hok as (torn & -> & Ht).
  eapply spec_bind with (Q := λ _ d c p, recovered A D done d c p ∧
    files d !! jsonl_path_key i = Some (lines (log_of A i) ++ torn)).
  { apply spec_io; [by intros ? ? ? (-> & -> & ->)|]. intros Hn ? ? ? (-> & -> & ->).
    split; [done|by apply HR0]. }
  intros []. apply spec_get. intros s1 _ [HR1 Hf1].
  rewrite (lookup_total_correct _ _ _ Hf1), valid_len_lines, take_app_length by done.
  rewrite split_lines. eapply spec_bind; [by apply spec_drop_torn|].
  intros []. eapply spec_bind.
  { change (mkScan 0 0 projections_default) with (scan_at A i 0).
    apply (spec_recover_lines A D done i (Hsmall i)); [by rewrite drop_0|lia]. }
  intros sc. apply spec_pure. intros ->. cbn [sc_seq sc_proj scan_at]. rewrite firstn_all. by apply spec_pin_index.
Qed.

Lemma spec_recover A D names done :
  log_small A → NoDup names → (∀ name, name ∈ names → name ∈ D ∧ name ∉ done) →
  spec (recovered A D done) (recover names) (λ _, recovered A D (reverse names ++ done))
    (recover_failed A).
Proof.
  intros Hsmall Hnd. revert done. induction Hnd as [|name names Hn Hnd IH]; intros done Hall.
  - apply spec_ret. done.
  - simpl. eapply spec_bind.
    { apply spec_recover_file; [done|apply Hall; by left..]. }
    intros []. rewrite reverse_cons, <- app_assoc. apply (IH (name :: done)).
    intros x Hx. split; [apply Hall; by right|]. intros [->|Hx']%elem_of_cons; [done|].
    apply (Hall x); [by right|done].
Qed.
End recover.

(** ** The recovered store *)

Section crash.
Context `{CodecLaws}.

(** The log of a recovered store: the same observations, under the journal ids
    of its rows. *)
Definition recovered_log (A : Log) (d : Db) : Log :=
  mkLog (logs A) (row_journal_id <$> tbl_instances d) (tbl_blobs d) (tbl_cursors d).
Lemma log_of_recovered A d i : log_of (recovered_log A d) i = log_of A i.
Proof. done. Qed.

Lemma recovered_jids A D names d c p i j :
  recovered A D names d c p → (∀ name, name ∈ names ↔ name ∈ D) →
  jids A !! i = Some j → log_of A i ≠ [] ∨ is_Some (tbl_instances (db d) !! i) →
  jids (recovered_log A (db d)) !! i = Some j.
Proof.
  intros HR Hnames Hj Hor.
  assert (is_Some (tbl_instances (db d) !! i)) as [r Hr].
  { destruct Hor as [Hne|?]; [|done]. apply (rc_inst _ _ _ _ _ _ HR); [|done].
    apply Hnames. rewrite <- (rc_dom _ _ _ _ _ _ HR). apply elem_of_dom.
    pose proof (disk_files _ _ (rc_disk _ _ _ _ _ _ HR) i) as Hf. unfold file_ok in Hf.
    destruct (files d !! jsonl_path_key i); [eauto|done]. }
  simpl. rewrite lookup_fmap, Hr. simpl.
  pose proof (db_journal _ _ _ (disk_ok_db _ _ (rc_disk _ _ _ _ _ _ HR)) _ _ Hr). congruence.
Qed.

Lemma recovered_disk_ok A D names d c p :
  recovered A D names d c p → (∀ name, name ∈ names ↔ name ∈ D) →
  disk_ok (recovered_log A (db d)) d.
Proof.
  intros HR Hnames.
  pose proof (rc_disk _ _ _ _ _ _ HR) as [[L1 L2 L3] D2 D3 D4 D5].
  split; [split|done|done| |done]; try done.
  - intros i o Ho. destruct (L2 i o Ho) as (? & Hj & ?). split_and!; [done| |done].
    eapply recovered_jids; [done..|]. left. rewrite log_of_recovered in Ho. intros Hnil.
    rewrite Hnil in Ho. by apply not_elem_of_nil in Ho.
  - apply list.Forall_forall. rewrite list.Forall_forall in D4. intros x Hx.
    destruct (D4 x Hx) as [Y1 Y2 Y3]. split; [|done|done].
    intros i r Hr. eapply recovered_jids; [done..|by apply Y1|]. right.
    apply elem_of_cons in Hx as [->|Hx]; [eauto|]. by eapply D5.
Qed.

Lemma recovered_rep A D names d c p :
  recovered A D names d c p → (∀ name, name ∈ names ↔ name ∈ D) →
  rep (recovered_log A (db d)) d c p.
Proof.
  intros HR Hnames.
  assert (∀ i, jsonl_path_key i ∈ names ∨ files d !! jsonl_path_key i = None) as Hcase.
  { intros i. destruct (files d !! jsonl_path_key i) eqn:Hf; [|by right]. left. apply Hnames.
    rewrite <- (rc_dom _ _ _ _ _ _ HR). by eapply elem_of_dom_2. }
  assert (∀ i, files d !! jsonl_path_key i = None → log_of A i = []) as Hempty.
  { intros i Hn. pose proof (disk_files _ _ (rc_disk _ _ _ _ _ _ HR) i) as Hf.
    unfold file_ok in Hf. by rewrite Hn in Hf. }
  pose proof (disk_ok_db _ _ (rc_disk _ _ _ _ _ _ HR)) as [Y1 Y2 Y3].
  split; simpl; try done.
  - by eapply recovered_disk_ok.
  - intros i b Hb. rewrite log_of_recovered. destruct (Hcase i) as [Hi|Hi]; [|congruence].
    by apply (rc_whole _ _ _ _ _ _ HR).
  - intros i. by rewrite lookup_fmap.
  - intros i r Hr. rewrite log_of_recovered. destruct (Hcase i) as [Hi|Hi]; [by apply (rc_seq _ _ _ _ _ _ HR)|].
    rewrite (Hempty i Hi). by apply (Y2 i Hi).
  - intros i seq row. destruct (Hcase i) as [Hi|Hi].
    + split; [by apply (recovered_row _ _ _ _ _ _ _ _ _ HR)|].
      intros (k & o & Hk & -> & ->). by apply (rc_rows _ _ _ _ _ _ HR).
    + destruct (Y2 i Hi) as [-> _]. rewrite log_of_recovered, (Hempty i Hi).
      split; [done|]. by intros (k & o & ? & _).
  - rewrite (rc_cache _ _ _ _ _ _ HR). done.
  - intros i q Hq. rewrite log_of_recovered. destruct (decide (jsonl_path_key i ∈ names)) as [Hi|Hi].
    + rewrite (rc_proj _ _ _ _ _ _ HR i Hi) in Hq. congruence.
    + by rewrite (rc_noproj _ _ _ _ _ _ HR i Hi) in Hq.
  - intros i Hne. rewrite log_of_recovered in Hne. destruct (Hcase i) as [Hi|Hi]; [|by rewrite Hempty in Hne].
    rewrite (rc_proj _ _ _ _ _ _ HR i Hi). eauto.
Qed.

(** The order of [read_dir]. *)
Definition lists_dir (d : Disk) (names : list string) : Prop :=
  NoDup names ∧ ∀ name, name ∈ names ↔ is_Some (files d !! name).

Lemma recovered_start A d :
  disk_ok A d → recovered A (dom (files d)) [] d ∅ ∅.
Proof. intros Hd. split; try done; by intros ? ? ?%not_elem_of_nil || by intros ? ?%not_elem_of_nil || (intros ? ? ? ?%not_elem_of_nil; done). Qed.

(** [open] recovers the log, or a failure leaves it recoverable. *)
Lemma open_recovers A fp names d fs :
  disk_ok A d → log_small A → lists_dir d names →
  match open fp names d fs with
  | (s, Ok _) => rep (recovered_log A (db (disk s))) (disk s) (jsonl s) (projections s) ∧ fsync s = fp
  | (s, Err _) => fs ≠ [] ∧ disk_ok A (disk s)
  end.
Proof.
  intros Hd Hsmall [Hnd Hnames]. unfold open.
  assert (∀ name, name ∈ names ↔ name ∈ dom (files d)) as Hdom.
  { intros name. by rewrite Hnames, elem_of_dom. }
  pose proof (spec_recover (fs = []) fp ∅ [] A (dom (files d)) names [] Hsmall Hnd) as Hspec.
  specialize (Hspec ltac:(intros name Hn; split; [by apply Hdom|apply not_elem_of_nil])).
  specialize (Hspec (fresh_store fp d fs)).
  destruct (recover names (fresh_store fp d fs)) as [s [[]|e]].
  - destruct Hspec as [HR (Hfp & _)].
    { split; [by apply recovered_start|]. simpl. split_and!; try done. }
    split; [|done]. eapply recovered_rep; [exact HR|]. intros name.
    rewrite app_nil_r, elem_of_reverse. apply Hdom.
  - destruct Hspec as [[Hn Hok] _]; [|done].
    split; [by apply recovered_start|]. simpl. split_and!; try done.
Qed.
End crash.
