(* ===== verification/JournalRead.v ===== *)
(** * Reading the journal

    The readers of [Journal] against the log: a range, a page, a snapshot and a
    backfill return exactly the observations the log says, and a follower gets
    its history and everything committed later without a hole. *)
From stdpp Require Import base list gmap strings numbers sorting.
From S2P Require Import Prelude Text Json Cover FileTail NodeStore Projection Journal.
From S2P Require Import JournalLog JournalRecover.
Local Open Scope Z_scope.

(** Entries [from..=to] of a log, numbered from 1. *)
Definition slice {X} (from to : Z) (L : list X) : list X :=
  drop (Z.to_nat (from - 1)) (take (Z.to_nat to) L).
Definition limited {X} (limit : Z) (L : list X) : list X :=
  if limit <? 0 then L else take (Z.to_nat limit) L.

Lemma elem_of_slice {X} (from to : Z) (L : list X) x :
  x ∈ slice from to L ↔ ∃ k : nat, L !! k = Some x ∧ from - 1 ≤ Z.of_nat k < to.
Proof.
  unfold slice. split.
  - intros [n Hn]%list_elem_of_lookup. rewrite lookup_drop in Hn.
    apply lookup_take_Some in Hn as [Hn Hlt]. eexists. split; [done|]. lia.
  - intros (k & Hk & Hlt). apply list_elem_of_lookup. exists (k - Z.to_nat (from - 1))%nat.
    rewrite lookup_drop, lookup_take_lt by lia. by replace (Z.to_nat (from - 1) + (k - Z.to_nat (from - 1)))%nat with k by lia.
Qed.
Lemma fmap_slice {X Y} (f : X → Y) from to (L : list X) : f <$> slice from to L = slice from to (f <$> L).
Proof. unfold slice. by rewrite fmap_drop, fmap_take. Qed.
Lemma fmap_limited {X Y} (f : X → Y) n (L : list X) : f <$> limited n L = limited n (f <$> L).
Proof. unfold limited. case_match; [done|]. by rewrite fmap_take. Qed.
Lemma slice_empty {X} (from to : Z) (L : list X) :
  to < from ∨ Z.of_nat (length L) < from → 1 ≤ from → slice from to L = [].
Proof. intros Hor Hf. unfold slice. apply drop_ge. rewrite length_take. lia. Qed.
Lemma limited_nil {X} n : @limited X n [] = [].
Proof. unfold limited. case_match; [done|]. by rewrite take_nil. Qed.
Lemma elem_of_limited {X} n (L : list X) x : x ∈ limited n L → x ∈ L.
Proof.
  unfold limited. case_match; [done|]. intros (k & Hk & _)%elem_of_take.
  by eapply list_elem_of_lookup_2.
Qed.

Section read.
Context `{CodecLaws}.

(** ** Spans of the file *)

Lemma lines_slice L k o :
  L !! k = Some o →
  take (length (enc o)) (drop (length (lines (take k L))) (lines L)) = enc o.
Proof.
  intros Hk. rewrite <- (take_drop_middle L k o Hk) at 2. rewrite lines_app. cbn [lines].
  rewrite drop_app_length. unfold record_of. by rewrite <- app_assoc, take_app_length.
Qed.

(** The numbered entries of a log and the span of each. *)
Definition numbered_log (A : Log) (i : string) : list (nat * Obs) := imap pair (log_of A i).
Definition span (A : Log) (i : string) (ko : nat * Obs) : Z * Z :=
  (byte_len (lines (take ko.1 (log_of A i))), byte_len (record_of ko.2)).

Lemma numbered_log_snd A i : (numbered_log A i).*2 = log_of A i.
Proof.
  unfold numbered_log. apply list_eq. intros k. rewrite list_lookup_fmap, list_lookup_imap.
  by destruct (log_of A i !! k).
Qed.
Lemma elem_of_numbered_log A i k o : (k, o) ∈ numbered_log A i ↔ log_of A i !! k = Some o.
Proof.
  unfold numbered_log. rewrite list_elem_of_lookup. setoid_rewrite list_lookup_imap_Some. split.
  - intros (j & x & Hx & [= <- <-]). done.
  - intros Ho. by exists k, o.
Qed.

(** The rows of [i], in order. *)
Definition ordered_rows (A : Log) (i : string) : list ((string * Z) * EventRow) :=
  (λ ko, ((i, Z.of_nat ko.1 + 1), row_of A i ko.1 ko.2)) <$> numbered_log A i.

Lemma imap_sorted (i : string) (g : nat → Obs → EventRow) (L : list Obs) n :
  StronglySorted row_le
    ((λ ko : nat * Obs, ((i, Z.of_nat ko.1 + 1), g ko.1 ko.2)) <$> imap (λ k o, (n + k, o)%nat) L).
Proof.
  revert n. induction L as [|o L IH]; intros n; [constructor|].
  rewrite imap_cons, fmap_cons. constructor.
  - specialize (IH (S n)). erewrite (imap_ext ((λ k x, (n + k, x)%nat) ∘ S)); [exact IH|].
    intros k x _. simpl. f_equal. lia.
  - apply list.Forall_forall. intros y (ko & -> & Hko)%list_elem_of_fmap. unfold row_le. simpl.
    apply list_elem_of_lookup in Hko as [j Hj]. apply list_lookup_imap_Some in Hj as (x & _ & ->).
    simpl. lia.
Qed.
Lemma ordered_rows_sorted A i : StronglySorted row_le (ordered_rows A i).
Proof. apply (imap_sorted i (row_of A i) (log_of A i) 0). Qed.
Lemma StronglySorted_slice {X} (R : relation X) from to L :
  StronglySorted R L → StronglySorted R (slice from to L).
Proof.
  intros HS. unfold slice.
  rewrite <- (take_drop (Z.to_nat to) L) in HS. apply StronglySorted_app_1_l in HS.
  rewrite <- (take_drop (Z.to_nat (from - 1)) (take _ L)) in HS.
  by apply StronglySorted_app_1_r in HS.
Qed.

Lemma ordered_rows_elem A i j z row :
  ((j, z), row) ∈ ordered_rows A i ↔
  j = i ∧ ∃ k o, log_of A i !! k = Some o ∧ z = Z.of_nat k + 1 ∧ row = row_of A i k o.
Proof.
  unfold ordered_rows. rewrite list_elem_of_fmap. split.
  - intros ([k o] & [= -> -> ->] & Hko%elem_of_numbered_log). naive_solver.
  - intros (-> & k & o & Hk & -> & ->). exists (k, o). split; [done|]. by apply elem_of_numbered_log.
Qed.
Lemma ordered_rows_lookup A i k o :
  log_of A i !! k = Some o → ordered_rows A i !! k = Some ((i, Z.of_nat k + 1), row_of A i k o).
Proof.
  intros Hk. unfold ordered_rows, numbered_log. by rewrite list_lookup_fmap, list_lookup_imap, Hk.
Qed.
Lemma ordered_rows_NoDup A i : NoDup (ordered_rows A i).
Proof.
  apply NoDup_alt. intros a b x Ha Hb.
  unfold ordered_rows, numbered_log in *. rewrite list_lookup_fmap, list_lookup_imap in Ha, Hb.
  destruct (log_of A i !! a), (log_of A i !! b); simplify_eq/=. lia.
Qed.

Lemma slice_rows_elem A i from to j z row :
  ((j, z), row) ∈ slice from to (ordered_rows A i) ↔
  ((j, z), row) ∈ ordered_rows A i ∧ from ≤ z ≤ to.
Proof.
  rewrite elem_of_slice. split.
  - intros (k & Hk & Hb). split; [by eapply list_elem_of_lookup_2|].
    unfold ordered_rows, numbered_log in Hk. rewrite list_lookup_fmap, list_lookup_imap in Hk.
    destruct (log_of A i !! k); simplify_eq/=. lia.
  - intros [(-> & k & o & Hk & -> & ->)%ordered_rows_elem Hb]. exists k.
    split; [by apply ordered_rows_lookup|lia].
Qed.

Lemma slice_NoDup {X} from to (L : list X) : NoDup L → NoDup (slice from to L).
Proof.
  intros Hnd. apply (sublist_NoDup _ L); [done|]. unfold slice. etrans; [apply sublist_drop|apply sublist_take].
Qed.

(** [SELECT ... ORDER BY seq LIMIT] returns the spans of the slice. *)
Lemma select_events_slice A d c p i from to limit :
  rep A d c p → byte_len (lines (log_of A i)) ≤ i64_max →
  select_events i from to limit (db d) = span A i <$> limited limit (slice from to (numbered_log A i)).
Proof.
  intros HR Hfit. unfold select_events.
  set (sel := filter _ (tbl_events (db d))).
  assert (merge_sort row_le (map_to_list sel) = slice from to (ordered_rows A i)) as Hsort.
  { apply (StronglySorted_unique_strong row_le).
    - intros [[j z] r] [[j' z'] r'] Hx Hx' H1 H2. unfold row_le in *. simpl in *.
      rewrite merge_sort_Permutation, elem_of_map_to_list in Hx.
      apply map_lookup_filter_Some in Hx as [Hx [Hj _]]. simpl in Hj. subst j.
      apply slice_rows_elem in Hx' as [(-> & k & o & Hk & -> & ->)%ordered_rows_elem _].
      assert (z = Z.of_nat k + 1) as -> by lia. f_equal.
      assert (tbl_events (db d) !! (i, Z.of_nat k + 1) = Some (row_of A i k o)) as Hy.
      { apply (rep_events _ _ _ _ HR). eauto. }
      congruence.
    - apply StronglySorted_merge_sort.
      + intros a b e ? ?. unfold row_le in *. lia.
      + intros a b. unfold row_le. lia.
    - apply StronglySorted_slice, ordered_rows_sorted.
    - rewrite merge_sort_Permutation. apply NoDup_Permutation.
      + apply NoDup_map_to_list.
      + apply slice_NoDup, ordered_rows_NoDup.
      + intros [[j z] r]. rewrite elem_of_map_to_list, slice_rows_elem, ordered_rows_elem.
        subst sel. rewrite map_lookup_filter_Some, (rep_events _ _ _ _ HR). simpl. naive_solver. }
  rewrite Hsort.
  assert ((if limit <? 0 then slice from to (ordered_rows A i)
           else take (Z.to_nat limit) (slice from to (ordered_rows A i)))
    = limited limit (slice from to (ordered_rows A i))) as -> by done.
  unfold ordered_rows. rewrite <- fmap_slice, <- fmap_limited, <- list_fmap_compose.
  apply list_fmap_ext. intros n [k o] Hko. simpl. unfold span. simpl.
  apply list_elem_of_lookup_2, elem_of_limited, elem_of_slice in Hko as (m & Hm & _).
  apply list_elem_of_lookup_2, elem_of_numbered_log in Hm.
  pose proof (byte_len_pos (lines (take k (log_of A i)))).
  pose proof (lines_take_le (log_of A i) (S k)) as Hle.
  rewrite (take_S_r _ _ _ Hm), lines_snoc, byte_len_app in Hle.
  pose proof (byte_len_pos (record_of o)).
  by rewrite !as_u64_i64 by lia.
Qed.

(** ** The readers *)

Section readers.
Context (nf : Prop) (fp : FsyncPolicy) (sub : gmap string (list nat)) (chs : list Chan).
Local Abbreviation spec := (spec nf fp sub chs).

(** A reader returns [x] and leaves the log as it was; it only fails when the
    environment does. *)
Definition reads {X} (A : Log) (c : jm X) (x : X) : Prop :=
  spec (rep A) c (λ y d ch p, y = x ∧ rep A d ch p) (λ _ d ch p, ¬ nf ∧ rep A d ch p).

Lemma reads_ret {X} A (x : X) : reads A (mret x) x.
Proof. by apply spec_ret. Qed.
Lemma reads_bind {X Y} A (c : jm X) (k : X → jm Y) x y :
  reads A c x → reads A (k x) y → reads A (c ≫= k) y.
Proof.
  intros Hc Hk. eapply spec_bind; [exact Hc|]. intros x'. apply spec_pure. by intros ->.
Qed.

Lemma reads_watermark A i :
  byte_len (lines (log_of A i)) ≤ i64_max → reads A (watermark i) (Z.of_nat (length (log_of A i))).
Proof. intros Hfit. apply spec_watermark_rep; [done|]. by intros. Qed.

Lemma reads_jsonl_at A i k o :
  valid_instance_id i = true → log_of A i !! k = Some o →
  reads A (read_jsonl_at i (span A i (k, o)).1 (span A i (k, o)).2) o.
Proof.
  intros Hv Hk. unfold read_jsonl_at, span. simpl.
  eapply spec_bind; [by apply spec_open_jsonl|]. intros [].
  eapply spec_bind with (Q := λ _, opened A i).
  { apply spec_io; [done|]. intros Hn d c p [HR _]. by split. }
  intros []. apply spec_get. intros s0 _ (HR & Hf & Hc).
  rewrite (lookup_total_correct _ _ _ Hf), byte_len_record.
  pose proof (byte_len_pos (enc o)). replace (byte_len (enc o) + 1 - 1) with (byte_len (enc o)) by lia.
  rewrite Z.max_r by lia.
  pose proof (lines_take_le (log_of A i) (S k)) as Hle.
  rewrite (take_S_r _ _ _ Hk), lines_snoc, byte_len_app, byte_len_record in Hle.
  rewrite (proj2 (Z.leb_le _ _)) by lia.
  unfold byte_len. rewrite !Nat2Z.id, (lines_slice _ _ _ Hk), decode_enc.
  apply spec_lift; [|done]. by intros x ? ? ? [= <-] (-> & -> & ->).
Qed.

Lemma reads_spans A i kos :
  valid_instance_id i = true → (∀ ko, ko ∈ kos → ko ∈ numbered_log A i) →
  reads A (read_spans i (span A i <$> kos)) kos.*2.
Proof.
  intros Hv. induction kos as [|[k o] kos IH]; intros Hin; [apply reads_ret|].
  rewrite fmap_cons. cbn [read_spans]. eapply reads_bind.
  { apply reads_jsonl_at; [done|]. apply elem_of_numbered_log, Hin. by left. }
  eapply reads_bind; [|apply reads_ret]. apply IH. intros ko Hko. apply Hin. by right.
Qed.

Lemma span_bytes A i kos n :
  0 ≤ n → n + byte_len (lines kos.*2) ≤ i64_max →
  foldl (λ n row, saturating_add64 n row.2) n (span A i <$> kos) = n + byte_len (lines kos.*2).
Proof.
  revert n. induction kos as [|[k o] kos IH]; intros n Hn Hfit; [unfold byte_len; simpl; lia|].
  rewrite !fmap_cons in *. cbn [foldl lines snd] in *. rewrite byte_len_app in *.
  pose proof (byte_len_pos (record_of o)). pose proof (byte_len_pos (lines kos.*2)).
  assert (saturating_add64 n (span A i (k, o)).2 = n + byte_len (record_of o)) as ->.
  { unfold saturating_add64, span, u64_max. unfold i64_max in Hfit. simpl. lia. }
  rewrite IH by lia. lia.
Qed.

(** What a range or a page holds.  No upper bound means the whole log; an upper
    bound past [i64::MAX] selects nothing, the one bound the code does not
    serve as asked. *)
Definition last_read (L : list Obs) (to_seq : option Z) : Z :=
  match to_seq with
  | None => Z.of_nat (length L)
  | Some t => if i64_max <? t then 0 else t
  end.
Definition log_read (L : list Obs) (from_seq : Z) (to_seq : option Z) (limit : Z) : list Obs :=
  limited limit (slice (Z.max from_seq 1) (last_read L to_seq) L).
(** The statement binds the bound [as i64]; the rows it selects are these. *)
Lemma slice_last_read {X} (L : list Obs) (K : list X) from to_seq :
  Z.of_nat (length L) ≤ i64_max → (∀ t, to_seq = Some t → is_u64 t) →
  slice from (as_i64 (default (Z.of_nat (length L)) to_seq)) K = slice from (last_read L to_seq) K.
Proof.
  intros HL Hto. unfold slice, last_read. do 2 f_equal. destruct to_seq as [t|]; simpl.
  - destruct (Hto t eq_refl) as [H1 H2]. unfold as_i64, i64_max, u64_max in *. zbool; lia.
  - by rewrite as_i64_small.
Qed.

Lemma sublist_lines_le L K : K `sublist_of` L → byte_len (lines K) ≤ byte_len (lines L).
Proof.
  induction 1 as [|o K L _ IH|o K L _ IH]; cbn [lines]; rewrite ?byte_len_app; [done|lia|].
  pose proof (byte_len_pos (record_of o)). lia.
Qed.
Lemma log_read_sublist L from to limit : log_read L from to limit `sublist_of` L.
Proof.
  unfold log_read, limited, slice. case_match.
  - etrans; [apply sublist_drop|apply sublist_take].
  - etrans; [apply sublist_take|]. etrans; [apply sublist_drop|apply sublist_take].
Qed.

Lemma as_i64_le z : 0 ≤ z → as_i64 z ≤ z.
Proof. unfold as_i64. intros. zbool; lia. Qed.

Lemma reads_rows A i from_seq to_seq limit :
  valid_instance_id i = true → byte_len (lines (log_of A i)) ≤ i64_max →
  (∀ t, to_seq = Some t → is_u64 t) →
  let l := match limit with Some l => Z.min l i64_max | None => -1 end in
  let os := log_read (log_of A i) from_seq to_seq l in
  reads A (read_rows i from_seq to_seq (Z.of_nat (length (log_of A i))) limit) (os, byte_len (lines os)).
Proof.
  intros Hv Hfit Hto l os. unfold read_rows.
  assert (Z.of_nat (length (log_of A i)) ≤ i64_max) as Hlen by (pose proof (lines_long (log_of A i)); lia).
  set (from := Z.max from_seq 1). set (to := default (Z.of_nat (length (log_of A i))) to_seq).
  assert (0 ≤ to) as Hto0 by (subst to; destruct to_seq as [t|]; simpl; [by apply Hto|lia]).
  assert (1 ≤ from) as Hfrom by (subst from; lia).
  case_match eqn:Hc.
  - assert (os = []) as ->; [|apply reads_ret].
    subst os. unfold log_read. rewrite <- slice_last_read by done. fold from to. rewrite slice_empty; [apply limited_nil| |done].
    apply orb_true_iff in Hc as [Hc|Hc]; zhyps; [by right|left]. pose proof (as_i64_le to Hto0). lia.
  - apply orb_false_iff in Hc as [Hc1 Hc2]. zhyps. fold l.
    assert (as_i64 from = from) as Hi64.
    { apply as_i64_small. pose proof (lines_long (log_of A i)). lia. }
    rewrite Hi64. set (kos := limited l (slice from (as_i64 to) (numbered_log A i))).
    assert (kos.*2 = os) as Hos.
    { subst kos os. unfold log_read. rewrite <- slice_last_read by done. fold from to. by rewrite fmap_limited, fmap_slice, numbered_log_snd. }
    eapply reads_bind with (x := span A i <$> kos).
    { apply spec_query; [|done]. intros d c p HR. split; [|done]. by eapply select_events_slice. }
    eapply reads_bind.
    { apply reads_spans; [done|]. intros ko Hko%elem_of_limited%elem_of_slice.
      destruct Hko as (k & Hk & _). by eapply list_elem_of_lookup_2. }
    rewrite Hos, (span_bytes A i kos 0), Hos by (rewrite ?Hos; try done;
      pose proof (sublist_lines_le (log_of A i) os (log_read_sublist _ _ _ _)); lia).
    apply reads_ret.
Qed.

Lemma reads_range A i from_seq to_seq :
  valid_instance_id i = true → byte_len (lines (log_of A i)) ≤ i64_max →
  (∀ t, to_seq = Some t → is_u64 t) →
  reads A (read_range i from_seq to_seq) (log_read (log_of A i) from_seq to_seq (-1)).
Proof.
  intros Hv Hfit Hto. unfold read_range. eapply reads_bind; [by apply reads_watermark|].
  eapply reads_bind; [by apply reads_rows|]. apply reads_ret.
Qed.

Definition page_limit (limit : Z) : Z := Z.min (Z.max limit 1) MAX_PAGE.
Definition log_page (L : list Obs) (from_seq : Z) (to_seq : option Z) (limit : Z) : Page :=
  let os := log_read L from_seq to_seq (page_limit limit) in
  mkPage os (byte_len (lines os)) (obs_seq <$> last os) (Z.of_nat (length L)).

Lemma reads_page A i from_seq to_seq limit :
  valid_instance_id i = true → byte_len (lines (log_of A i)) ≤ i64_max →
  (∀ t, to_seq = Some t → is_u64 t) →
  reads A (read_page i from_seq to_seq limit) (log_page (log_of A i) from_seq to_seq limit).
Proof.
  intros Hv Hfit Hto. unfold read_page. eapply reads_bind; [by apply reads_watermark|].
  eapply reads_bind.
  { apply (reads_rows A i from_seq to_seq (Some (page_limit limit))); done. }
  assert (Z.min (page_limit limit) i64_max = page_limit limit) as ->.
  { unfold page_limit, MAX_PAGE, i64_max. lia. }
  apply reads_ret.
Qed.

Lemma reads_snapshot A i :
  valid_instance_id i = true → byte_len (lines (log_of A i)) ≤ i64_max →
  reads A (snapshot i)
    (Z.of_nat (length (log_of A i)), foldl apply projections_default (log_of A i)).
Proof.
  intros Hv Hfit. unfold snapshot. eapply reads_bind; [by apply reads_watermark|].
  apply spec_get. intros s0 _ HR.
  rewrite (proj2 (andb_false_iff _ _)).
  2:{ destruct (projections s0 !! i) as [q|] eqn:Hq; [left; by apply bool_decide_eq_false|right].
      apply Z.ltb_ge. destruct (log_of A i) as [|o L] eqn:HL; [done|].
      destruct (rep_folded _ _ _ _ HR i) as [? ?]; [by rewrite HL|congruence]. }
  eapply spec_bind with (Q := λ _ d c p, d = disk s0 ∧ c = jsonl s0 ∧ p = projections s0);
    [by apply spec_ret|].
  intros []. apply spec_get. intros s1 _ (Hd & Hc & Hp).
  apply spec_ret. intros d c p (-> & -> & ->). rewrite Hd, Hc, Hp. split; [|done]. f_equal.
  destruct (projections s0 !! i) as [q|] eqn:Hq; [by apply HR in Hq|]. simpl.
  destruct (log_of A i) as [|o L] eqn:HL; [done|].
  destruct (rep_folded _ _ _ _ HR i) as [? ?]; [by rewrite HL|congruence].
Qed.
End readers.
End read.
