(* ===== verification/JournalSpec.v ===== *)
(** * What the journal promises

    An abstract machine whose state is the log itself, and the theorem that the
    writer thread of [Journal] implements it; what a failed append leaves; and
    what a follower sees. *)
From stdpp Require Import base list gmap strings numbers sorting.
From S2P Require Import Prelude Text Json Cover FileTail NodeStore Projection Journal.
From S2P Require Import JournalLog JournalRecover JournalRead.
Local Open Scope Z_scope.

Section spec.
Context `{CodecLaws}.

(** ** The abstract machine: a log, and how many followers there have been *)

Definition resume_of (key : string) (r : CursorRow) : result (option SourceResume) JError :=
  if match row_prefix_digest r with Some t => digest_try_from t | None => true end
     && valid_id (row_identity r)
  then Ok (Some (mkResume key (row_identity r) (as_u64 (row_generation r))
                   (as_u64 (row_cursor_offset r)) (row_prefix_digest r)))
  else Err EProtocol.
Definition log_put_cursor (i : string) (r : SourceResume) (A : Log) : Log :=
  mkLog (logs A) (jids A) (ablobs A)
    (<[(i, source_key r) := mkCursorRow (res_identity r) (res_generation r) (res_offset r)
                              (res_prefix r)]> (acursors A)).

(** No observation of the log has the event id. *)
Definition event_is_new (A : Log) (event_id : string) : bool :=
  bool_decide (map_Forall (λ _ L, Forall (λ o, obs_event_id o ≠ event_id) L) (logs A)).
Lemma event_is_new_spec A event_id : reflect (fresh_event A event_id) (event_is_new A event_id).
Proof.
  unfold event_is_new. apply iff_reflect. rewrite bool_decide_eq_true. unfold fresh_event. split.
  - intros Hf i L HL. apply list.Forall_forall. intros o Ho. apply (Hf i). unfold log_of. by rewrite HL.
  - intros Hall i o. unfold log_of. destruct (logs A !! i) as [L|] eqn:HL; [|by intros ?%not_elem_of_nil].
    specialize (Hall i L HL). simpl in *. rewrite list.Forall_forall in Hall. apply Hall.
Qed.

Lemma event_is_new_true A event_id : fresh_event A event_id → event_is_new A event_id = true.
Proof. by destruct (event_is_new_spec A event_id). Qed.

(** An append under an event id of the log is refused. *)
Definition spec_append (i : string) (e : Envelope) (m : Minted) (A : Log) : Log * result OpOut JError :=
  if event_is_new A (default (mint_event m) (env_event_id e))
  then (append_done A i e m, Ok (OutSeq (Z.of_nat (length (log_of A i)) + 1)))
  else (A, Err ESqlite).
Definition spec_step (k : OpKind) (A : Log) (n : nat) : Log * nat * result OpOut JError :=
  match k with
  | OpAppend i e m =>
      if decide (env_instance_id e ≠ i) then (A, n, Err (EInstanceMismatch i (env_instance_id e)))
      else match jids A !! i with
           | Some j => if decide (j = env_journal_id e)
                       then let '(A', r) := spec_append i e m A in (A', n, r)
                       else (A, n, Err (EJournalMismatch i))
           | None => let '(A', r) := spec_append i e m A in (A', n, r)
           end
  | OpReadRange i from to => (A, n, Ok (OutObservations (log_read (log_of A i) from to (-1))))
  | OpReadPage i from to limit => (A, n, Ok (OutPage (log_page (log_of A i) from to limit)))
  | OpSnapshot i =>
      (A, n, Ok (OutSnapshot (Z.of_nat (length (log_of A i)))
                   (foldl apply projections_default (log_of A i))))
  | OpFollow i from_seq =>
      let from := Z.max from_seq 1 in
      let durable := Z.of_nat (length (log_of A i)) in
      if durable + 1 <? from then (A, S n, Err (EGap i from durable))
      else (A, S n, Ok (OutFollow (drop (Z.to_nat (from - 1)) (log_of A i)) n))
  | OpPutResume i r =>
      if (res_generation r <=? i64_max) && (res_offset r <=? i64_max)
      then (log_put_cursor i r A, n, Ok OutUnit) else (A, n, Err EProtocol)
  | OpGetResume i key =>
      (A, n, match acursors A !! (i, key) with
             | None => Ok (OutResume None)
             | Some r => let? x := resume_of key r in Ok (OutResume x)
             end)%remuda
  | OpDurableSeq i => (A, n, Ok (OutWatermark (Z.of_nat (length (log_of A i)))))
  | OpShutdown => (A, n, Ok OutUnit)
  end.

(** The operations the machine is asked to serve: ids are ids, seqs are [u64],
    an append brings a new event id and a new object id, and the files stay below
    [i64::MAX] bytes.  The last append of [journal_refines_the_log] may repeat an
    event id. *)
Definition op_ok (k : OpKind) (A : Log) : Prop :=
  match k with
  | OpAppend i e m => append_fresh A i e m
  | OpReadRange i _ to | OpReadPage i _ to _ => valid_instance_id i = true ∧ ∀ t, to = Some t → is_u64 t
  | OpSnapshot i | OpFollow i _ | OpDurableSeq i => valid_instance_id i = true
  | OpPutResume _ _ | OpGetResume _ _ | OpShutdown => True
  end.

Fixpoint spec_run (evs : list Event) (A : Log) (n : nat) : Log * list (result OpOut JError) :=
  match evs with
  | [] => (A, [])
  | EvOp OpShutdown :: _ => (A, [])
  | EvOp k :: r =>
      let '(A', n', a) := spec_step k A n in
      let '(A'', out) := spec_run r A' n' in (A'', a :: out)
  | EvRecv _ :: r | EvDrop _ :: r => spec_run r A n
  end.
Fixpoint run_ok (evs : list Event) (A : Log) (n : nat) : Prop :=
  match evs with
  | [] => True
  | EvOp OpShutdown :: _ => True
  | EvOp k :: r => op_ok k A ∧ run_ok r (spec_step k A n).1.1 (spec_step k A n).1.2
  | EvRecv _ :: r | EvDrop _ :: r => run_ok r A n
  end.

(** ** One operation *)

(** A running store that holds the log [A]. *)
Record live (A : Log) (s : Store) : Prop := {
  live_rep : rep A (disk s) (jsonl s) (projections s);
  live_small : log_small A;
}.
Lemma live_side A s s' :
  disk s' = disk s → jsonl s' = jsonl s → projections s' = projections s → live A s → live A s'.
Proof. intros Hd Hj Hp [HR HS]. split; [by rewrite Hd, Hj, Hp|done]. Qed.

Lemma append_small A i e m :
  log_small A → append_fresh A i e m → log_small (append_done A i e m).
Proof.
  intros HS HF k. unfold append_done. destruct (decide (i = k)) as [<-|].
  - rewrite log_of_append_eq, log_of_prepare. by apply HF.
  - rewrite log_of_append_ne, log_of_prepare by done. apply HS.
Qed.

(** What a serving store leaves alone. *)
Definition same_side (s s' : Store) : Prop :=
  fsync s' = fsync s ∧ subscribers s' = subscribers s ∧ channels s' = channels s.

(** A reader in a running store. *)
Lemma reads_live {X} (A : Log) (c : jm X) x s :
  (∀ sub chs, reads (faults s = []) (fsync s) sub chs A c x) → live A s →
  match c s with
  | (s', Ok y) => y = x ∧ live A s' ∧ same_side s s' ∧ (faults s = [] → faults s' = [])
  | (s', Err _) => faults s ≠ [] ∧ live A s' ∧ same_side s s'
  end.
Proof.
  intros Hc [HR HS]. specialize (Hc (subscribers s) (channels s) s).
  destruct (c s) as [s' [y|e]]; destruct Hc as [H1 (H2 & H3 & H4 & H5)]; try by split_and!.
  - destruct H1 as [-> HR']. by split_and!.
  - destruct H1 as [Hn HR']. by split_and!.
Qed.

(** [append] in a running store. *)
Lemma broadcast_side i o s s' :
  subscribers s' = subscribers s → channels s' = channels s →
  subscribers (broadcast i o s') = subscribers (broadcast i o s) ∧
  channels (broadcast i o s') = channels (broadcast i o s).
Proof. intros E1 E2. unfold broadcast. rewrite E1. destruct (subscribers s !! i); simpl; by rewrite ?E1, ?E2. Qed.
Lemma broadcast_core i o s :
  disk (broadcast i o s) = disk s ∧ jsonl (broadcast i o s) = jsonl s ∧
  projections (broadcast i o s) = projections s ∧ fsync (broadcast i o s) = fsync s ∧
  faults (broadcast i o s) = faults s.
Proof. unfold broadcast. by destruct (subscribers s !! i). Qed.
Lemma spec_step_fresh A i e m :
  fresh_event A (default (mint_event m) (env_event_id e)) → env_instance_id e = i →
  (∀ j, jids A !! i = Some j → j = env_journal_id e) →
  spec_step (OpAppend i e m) A 0 = (append_done A i e m, 0%nat, Ok (OutSeq (Z.of_nat (length (log_of A i)) + 1))).
Proof.
  intros Hf Hi Hj. unfold spec_step, spec_append. rewrite decide_False by (by intros ?).
  destruct (event_is_new_spec A (default (mint_event m) (env_event_id e))); [|done].
  destruct (jids A !! i) as [j|]; [|done]. by rewrite decide_True by (by apply Hj).
Qed.
Lemma spec_step_refused A i e m x d c p :
  append_refused A i e x d c p → spec_step (OpAppend i e m) A 0 = (A, 0%nat, Err x) ∧ rep A d c p.
Proof.
  intros [Hx HR]. split; [|done]. unfold spec_step. destruct Hx as [[Hne ->]|(Hi & -> & j & Hj & Hne)].
  - by rewrite decide_True.
  - by rewrite decide_False, Hj, decide_False by (done || by intros ?).
Qed.

(** What a failed append leaves in a store that held [A]: a log without it or
    with it and a store that works on, or bytes that are not indexed. *)
Definition append_left (A : Log) (i : string) (e : Envelope) (m : Minted) (s s' : Store) : Prop :=
  (∃ A', (logs A' = logs A ∨ logs A' = logs (append_done A i e m)) ∧ live A' s' ∧ same_side s s') ∨
  append_torn A i e m (disk s').

Lemma append_write_live A i e m s :
  append_fits A i e m → live A s →
  match append_write i e m s with
  | (s', Ok r) => env_instance_id e = i ∧ (∀ j, jids A !! i = Some j → j = env_journal_id e) ∧
      r = (Z.of_nat (length (log_of A i)) + 1, append_obs A i e m,
           (byte_len (lines (log_of A i)), byte_len (record_of (append_obs A i e m)))) ∧
      holds (faults s = []) (fsync s) (subscribers s) (channels s)
        (written (log_prepare A i e m) i (append_obs A i e m)) s'
  | (s', Err x) => same_side s s' ∧ (faults s = [] → faults s' = []) ∧
      (append_refused A i e x (disk s') (jsonl s') (projections s') ∨
       append_unwritten (faults s = []) A i e m (disk s') (jsonl s') (projections s'))
  end.
Proof.
  intros HF [HR HS].
  pose proof (spec_append_write (faults s = []) (fsync s) (subscribers s) (channels s) A i e m HF s) as Hw.
  destruct (append_write i e m s) as [s1 [r|x]]; destruct Hw as [H1 H2]; try by split_and!.
  - destruct H1 as (? & ? & ? & ?). by split_and!.
  - destruct H2 as (? & ? & ? & ?). by split_and!.
Qed.

Lemma small_logs A A' : logs A' = logs A → log_small A → log_small A'.
Proof. intros HL HS i. unfold log_of. rewrite HL. apply HS. Qed.
Lemma unwritten_left A i e m s s' :
  append_fresh A i e m → live A s → same_side s s' →
  append_unwritten (faults s = []) A i e m (disk s') (jsonl s') (projections s') →
  faults s ≠ [] ∧ append_left A i e m s s'.
Proof.
  intros [_ Hf] [_ HS] Hside [Hn [(A' & HL & HR)|Ht]]; (split; [done|]); [left|right; by apply Ht].
  exists A'. split_and!; [by left|split; [done|]|done]. by eapply small_logs.
Qed.

Lemma append_live A i e m s :
  append_fresh A i e m → live A s →
  match append i e m s with
  | (s', Ok seq) =>
      spec_step (OpAppend i e m) A 0 = (append_done A i e m, 0%nat, Ok (OutSeq seq)) ∧
      live (append_done A i e m) s' ∧ fsync s' = fsync s ∧
      subscribers s' = subscribers (broadcast i (append_obs A i e m) s) ∧
      channels s' = channels (broadcast i (append_obs A i e m) s) ∧
      (faults s = [] → faults s' = [])
  | (s', Err x) =>
      (spec_step (OpAppend i e m) A 0 = (A, 0%nat, Err x) ∧ live A s' ∧ same_side s s' ∧
       (faults s = [] → faults s' = [])) ∨
      (faults s ≠ [] ∧ append_left A i e m s s')
  end.
Proof.
  intros HF Hl. pose proof Hl as [HR HS]. rewrite append_split. unfold append_head. rewrite st_bind_eq.
  pose proof (append_write_live A i e m s (proj1 HF) Hl) as Hw.
  destruct (append_write i e m s) as [s1 [r|x]].
  - destruct Hw as (Hi & Hj & -> & Hw).
    pose proof (spec_append_commit (faults s = []) (fsync s) (subscribers s) (channels s) A i e m Hi HF s1 Hw) as Hc.
    destruct (append_commit i _ s1) as [s2 [[seq o]|x]]; destruct Hc as [H1 (H2 & H3 & H4 & H5)]; cbn [append_tail].
    + destruct H1 as [[= -> ->] HR']. destruct (broadcast_core i (append_obs A i e m) s2) as (E1 & E2 & E3 & E4 & E5).
      destruct (broadcast_side i (append_obs A i e m) s s2 H3 H4) as [-> ->]. rewrite E4, E5.
      split_and!; try done; [by apply spec_step_fresh; [apply HF| |]|].
      split; [by rewrite E1, E2, E3|]. by apply append_small.
    + right. destruct H1 as [Hu|[Hn HR']]; [by apply unwritten_left|]. split; [done|left].
      exists (append_done A i e m). split_and!; [by right|split; [done|by apply append_small]|done].
  - destruct Hw as (Hside & Hfa & [Hr|Hu]); cbn [append_tail]; [left|right; by apply unwritten_left].
    destruct (spec_step_refused A i e m _ _ _ _ Hr) as [Hs HR']. by split_and!.
Qed.

(** Without failures, an append that repeats an event id is answered as the
    machine answers it, and so is any other. *)
Lemma append_repeated A i e m s :
  append_fits A i e m → live A s → faults s = [] →
  ¬ fresh_event A (default (mint_event m) (env_event_id e)) →
  ∃ x, (append i e m s).2 = Err x ∧ spec_step (OpAppend i e m) A 0 = (A, 0%nat, Err x).
Proof.
  intros HF Hl Hnf Hold. rewrite append_split. unfold append_head. rewrite st_bind_eq.
  pose proof (append_write_live A i e m s HF Hl) as Hw.
  destruct (append_write i e m s) as [s1 [r|x]].
  - destruct Hw as (Hi & Hj & Hr & Hw).
    pose proof (spec_append_repeated (faults s = []) (fsync s) (subscribers s) (channels s) A i e m r
      Hi HF Hold ltac:(by rewrite Hr) s1 Hw) as Hc.
    destruct (append_commit i r s1) as [s2 [[seq o]|x]]; destruct Hc as [Hc _]; [done|]. rewrite Hc.
    exists ESqlite. split; [done|]. unfold spec_step, spec_append. rewrite decide_False by (by intros ?).
    destruct (event_is_new_spec A (default (mint_event m) (env_event_id e))); [done|].
    destruct (jids A !! i) as [j|]; [|done]. by rewrite decide_True by (by apply Hj).
  - destruct Hw as (_ & _ & [Hr|[Hn _]]); [|done]. exists x. split; [done|].
    by eapply spec_step_refused.
Qed.

(** [follow] registers a channel and returns the log from [from_seq] on. *)
Definition subscribe (i : string) (s : Store) : Store :=
  set_subscribers (λ m, <[i := default [] (m !! i) ++ [length (channels s)]]> m)
    (set_channels (λ chs, chs ++ [mkChan [] 0 true]) s).

Lemma slice_to_end (L : list Obs) from :
  1 ≤ from → Z.of_nat (length L) ≤ i64_max →
  log_read L from (Some (Z.of_nat (length L))) (-1) = drop (Z.to_nat (from - 1)) L.
Proof.
  intros Hf Hl. unfold log_read, limited, slice, last_read. simpl.
  rewrite (proj2 (Z.ltb_ge _ _)) by done. rewrite Nat2Z.id, firstn_all. by rewrite Z.max_l by lia.
Qed.

Lemma spec_backfill nf fp sub chs A i from_seq :
  valid_instance_id i = true → byte_len (lines (log_of A i)) ≤ i64_max →
  let from := Z.max from_seq 1 in
  let durable := Z.of_nat (length (log_of A i)) in
  spec nf fp sub chs (rep A) (backfill i from_seq)
    (λ h d c p, (durable + 1 <? from) = false ∧ h = drop (Z.to_nat (from - 1)) (log_of A i) ∧
       rep A d c p)
    (λ e d c p, (¬ nf ∨ (durable + 1 <? from) = true ∧ e = EGap i from durable) ∧ rep A d c p).
Proof.
  intros Hv Hfit from durable. unfold backfill. eapply spec_bind.
  { eapply spec_conseq; [by apply (reads_watermark nf fp sub chs A i)|done|done|].
    intros e d c p [Hn HR]. by split; [left|]. }
  intros w. apply spec_pure. intros ->. fold durable from. destruct (durable + 1 <? from) eqn:Hgap.
  { apply spec_fail. intros d c p HR. by split; [right|]. }
  zhyps. destruct (from <=? durable) eqn:Hle; zhyps.
  - pose proof (lines_long (log_of A i)).
    eapply spec_conseq; [apply (reads_range nf fp sub chs A i from (Some durable) Hv Hfit)|done| |].
    + intros t [= <-]. subst durable. unfold is_u64, u64_max, i64_max in *. lia.
    + intros x d c p [-> HR]. split_and!; [done| |done]. apply slice_to_end; subst from durable; lia.
    + intros e d c p [Hn HR]. by split; [left|].
  - apply spec_ret. intros d c p HR. split_and!; [done| |done]. symmetry. apply drop_ge. subst durable. lia.
Qed.

Lemma follow_live A i from_seq s :
  valid_instance_id i = true → live A s →
  let from := Z.max from_seq 1 in
  let durable := Z.of_nat (length (log_of A i)) in
  match follow i from_seq s with
  | (s', Ok (h, c)) =>
      (durable + 1 <? from) = false ∧ h = drop (Z.to_nat (from - 1)) (log_of A i) ∧
      c = length (channels s) ∧ live A s' ∧ same_side (subscribe i s) s' ∧
      (faults s = [] → faults s' = [])
  | (s', Err e) =>
      (faults s ≠ [] ∨ (durable + 1 <? from) = true ∧ e = EGap i from durable) ∧
      live A s' ∧ same_side (hang_up (length (channels s)) (subscribe i s)) s' ∧
      (faults s = [] → faults s' = [])
  end.
Proof.
  intros Hv [HR HS] from durable. unfold follow. fold (subscribe i s).
  pose proof (spec_backfill (faults s = []) (fsync s) (subscribers (subscribe i s))
    (channels (subscribe i s)) A i from_seq Hv (HS i) (subscribe i s)) as Hb.
  destruct (backfill i from_seq (subscribe i s)) as [s' [h|e]];
    destruct Hb as [H1 (H2 & H3 & H4 & H5)]; try by split_and!.
  - destruct H1 as (Hg & -> & HR'). by split_and!.
  - destruct H1 as [Hg HR']. split_and!; try done. unfold same_side. simpl in *. by rewrite H3, H4.
Qed.

Lemma put_resume_live A i r s :
  live A s →
  match put_resume i r s with
  | (s', Ok _) => ((res_generation r <=? i64_max) && (res_offset r <=? i64_max)) = true ∧
      live (log_put_cursor i r A) s' ∧ same_side s s' ∧ (faults s = [] → faults s' = [])
  | (s', Err e) => (faults s ≠ [] ∨ ((res_generation r <=? i64_max) && (res_offset r <=? i64_max)) = false ∧
      e = EProtocol) ∧ live A s' ∧ same_side s s' ∧ (faults s = [] → faults s' = [])
  end.
Proof.
  intros [HR HS].
  assert (spec (faults s = []) (fsync s) (subscribers s) (channels s) (rep A) (put_resume i r)
    (λ _ d c p, ((res_generation r <=? i64_max) && (res_offset r <=? i64_max)) = true ∧
       rep (log_put_cursor i r A) d c p)
    (λ e d c p, (faults s ≠ [] ∨ ((res_generation r <=? i64_max) && (res_offset r <=? i64_max)) = false ∧
       e = EProtocol) ∧ rep A d c p)) as Hs.
  { unfold put_resume, u64_i64. destruct (res_generation r <=? i64_max).
    2:{ eapply spec_bind with (Q := λ _ _ _ _, False); [|by intros ? ? []].
        apply spec_lift; [done|]. intros e d c p [= <-] HR'. by split; [right|]. }
    eapply spec_bind with (Q := λ g d c p, g = res_generation r ∧ rep A d c p).
    { apply spec_lift; [by intros ? ? ? ? [= <-]|done]. }
    intros g. apply spec_pure. intros ->. destruct (res_offset r <=? i64_max).
    2:{ eapply spec_bind with (Q := λ _ _ _ _, False); [|by intros ? ? []].
        apply spec_lift; [done|]. intros e d c p [= <-] HR'. by split; [right|]. }
    eapply spec_bind with (Q := λ g d c p, g = res_offset r ∧ rep A d c p).
    { apply spec_lift; [by intros ? ? ? ? [= <-]|done]. }
    intros g. apply spec_pure. intros ->. apply spec_exec.
    - intros d c p HR'. split; [done|]. eapply rep_tables; [..|exact HR']; try done; simpl; [apply HR'|].
      by rewrite (rep_cursors _ _ _ _ HR').
    - intros Hn d c p HR'. by split; [left|]. }
  specialize (Hs s ltac:(by split_and!)). destruct (put_resume i r s) as [s' [[]|e]];
    destruct Hs as [[H1 HR'] (H2 & H3 & H4 & H5)]; by split_and!.
Qed.

Lemma get_resume_live A i key s :
  live A s →
  match get_resume i key s with
  | (s', r) => live A s' ∧ same_side s s' ∧ (faults s = [] → faults s' = []) ∧
      (faults s = [] → r = match acursors A !! (i, key) with
                           | None => Ok None
                           | Some row => resume_of key row
                           end)
  end.
Proof.
  intros [HR HS].
  assert (spec (faults s = []) (fsync s) (subscribers s) (channels s) (rep A) (get_resume i key)
    (λ x d c p, (faults s = [] → Ok x = match acursors A !! (i, key) with
       | None => Ok None | Some row => resume_of key row end) ∧ rep A d c p)
    (λ e d c p, (faults s = [] → Err e = match acursors A !! (i, key) with
       | None => Ok None | Some row => resume_of key row end) ∧ rep A d c p)) as Hs.
  { unfold get_resume. eapply spec_bind with (Q := λ x d c p, x = acursors A !! (i, key) ∧ rep A d c p).
    { apply spec_query; [|by intros]. intros d c p HR'. split; [|done].
      by rewrite (rep_cursors _ _ _ _ HR'). }
    intros x. apply spec_pure. intros ->. destruct (acursors A !! (i, key)) as [row|]; [|by apply spec_ret].
    unfold resume_of. case_match; [by apply spec_ret|by apply spec_fail]. }
  specialize (Hs s ltac:(by split_and!)). destruct (get_resume i key s) as [s' [x|e]];
    destruct Hs as [[H1 HR'] (H2 & H3 & H4 & H5)]; by split_and!.
Qed.

(** ** The writer thread *)

(** What an operation does to the followers. *)
Definition side_step (k : OpKind) (A : Log) (a : result OpOut JError) (s s' : Store) : Prop :=
  match k, a with
  | OpAppend i e m, Ok _ =>
      subscribers s' = subscribers (broadcast i (append_obs A i e m) s) ∧
      channels s' = channels (broadcast i (append_obs A i e m) s)
  | OpFollow i _, Ok _ =>
      subscribers s' = subscribers (subscribe i s) ∧ channels s' = channels (subscribe i s)
  | OpFollow i _, Err _ =>
      subscribers s' = subscribers (subscribe i s) ∧
      channels s' = channels (hang_up (length (channels s)) (subscribe i s))
  | _, _ => subscribers s' = subscribers s ∧ channels s' = channels s
  end.

Lemma jmap_eq {X Y} (f : X → Y) (c : jm X) s :
  jmap f c s = match c s with (s', Ok x) => (s', Ok (f x)) | (s', Err e) => (s', Err e) end.
Proof. done. Qed.

Lemma foldr_alter_length (o : Obs) (chs : list Chan) (l : list nat) :
  length (foldr (alter (send_to o)) chs l) = length chs.
Proof. induction l as [|c l IH]; simpl; [done|]. by rewrite length_alter. Qed.
Lemma broadcast_length i o s : length (channels (broadcast i o s)) = length (channels s).
Proof.
  unfold broadcast. destruct (subscribers s !! i); [|done]. simpl. apply foldr_alter_length.
Qed.

(** What one request does, against the abstract log. *)
Definition refines (k : OpKind) (A : Log) (s : Store) : Prop :=
  let n := length (channels s) in
  match handle k s with
  | (s', a) => (spec_step k A n).2 = a ∧ live (spec_step k A n).1.1 s' ∧
      length (channels s') = (spec_step k A n).1.2 ∧ faults s' = [] ∧ side_step k A a s s'
  end.
(** An append does not depend on the number of followers. *)
Lemma spec_step_count A i e m n B x :
  spec_step (OpAppend i e m) A 0 = (B, 0%nat, x) → spec_step (OpAppend i e m) A n = (B, n, x).
Proof. simpl. by repeat case_match; intros; simplify_eq. Qed.
Lemma append_refines i e m A s : append_fresh A i e m → live A s → faults s = [] → refines (OpAppend i e m) A s.
Proof.
  intros Hok Hl Hf. unfold refines. set (n := length (channels s)). cbn [handle]. rewrite jmap_eq.
  pose proof (append_live A i e m s Hok Hl) as Ha.
  pose proof (λ B x, spec_step_count A i e m n B x) as Hn.
  destruct (append i e m s) as [s' [seq|x]].
  - destruct Ha as (Hs & Hl' & _ & Hsub & Hch & Hfa). rewrite (Hn _ _ Hs). cbn [fst snd side_step].
    split_and!; try done; [|by apply Hfa]. by rewrite Hch, broadcast_length.
  - destruct Ha as [(Hs & Hl' & (_ & Hsub & Hch) & Hfa)|[Hn' _]]; [|done].
    rewrite (Hn _ _ Hs). cbn [fst snd side_step]. split_and!; try done; [by rewrite Hch|by apply Hfa].
Qed.
(** Any append that fits, its event id new or not, is answered alike. *)
Lemma append_answers i e m A s :
  append_fits A i e m → live A s → faults s = [] →
  (handle (OpAppend i e m) s).2 = (spec_step (OpAppend i e m) A (length (channels s))).2.
Proof.
  intros Hok Hl Hf.
  destruct (event_is_new_spec A (default (mint_event m) (env_event_id e))) as [Hnew|Hold].
  - pose proof (append_refines i e m A s (conj Hok Hnew) Hl Hf) as Hr. unfold refines in Hr.
    destruct (handle (OpAppend i e m) s) as [s' a]. by destruct Hr as [-> _].
  - destruct (append_repeated A i e m s Hok Hl Hf Hold) as (x & Ha & Hs).
    apply spec_step_count with (n := length (channels s)) in Hs. rewrite Hs. cbn [handle]. rewrite jmap_eq.
    by destruct (append i e m s) as [s' [seq|y]]; simplify_eq/=.
Qed.
Lemma follow_refines i from A s : op_ok (OpFollow i from) A → live A s → faults s = [] → refines (OpFollow i from) A s.
Proof.
  intros Hok Hl Hf. unfold refines. set (n := length (channels s)). cbn [handle]. rewrite ?jmap_eq.
  pose proof (follow_live A i from s Hok Hl) as Hr. simpl in Hr. cbn [spec_step].
  destruct (follow i from s) as [s' [[h c]|x]].
  - destruct Hr as (-> & -> & -> & Hl' & (_ & Hs & Hc) & Hfa). cbn [fst snd side_step].
    split_and!; try done; [|by apply Hfa]. rewrite Hc. simpl. rewrite length_app. simpl. subst n. lia.
  - destruct Hr as ([?|[-> ->]] & Hl' & (_ & Hs & Hc) & Hfa); [done|]. cbn [fst snd side_step].
    split_and!; try done; [|by apply Hfa]. rewrite Hc. simpl. rewrite length_alter, length_app. simpl.
    subst n. lia.
Qed.
Lemma put_resume_refines i r A s : live A s → faults s = [] → refines (OpPutResume i r) A s.
Proof.
  intros Hl Hf. unfold refines. set (n := length (channels s)). cbn [handle]. rewrite ?jmap_eq.
  pose proof (put_resume_live A i r s Hl) as Hr. cbn [spec_step].
  destruct (put_resume i r s) as [s' [[]|x]].
  - destruct Hr as (-> & Hl' & (_ & Hs & Hc) & Hfa). cbn [fst snd side_step].
    split_and!; try done; [by rewrite Hc|by apply Hfa].
  - destruct Hr as ([?|[-> ->]] & Hl' & (_ & Hs & Hc) & Hfa); [done|]. cbn [fst snd side_step].
    split_and!; try done; [by rewrite Hc|by apply Hfa].
Qed.
Lemma get_resume_refines i key A s : live A s → faults s = [] → refines (OpGetResume i key) A s.
Proof.
  intros Hl Hf. unfold refines. set (n := length (channels s)). cbn [handle]. rewrite ?jmap_eq.
  pose proof (get_resume_live A i key s Hl) as Hr. cbn [spec_step].
  destruct (get_resume i key s) as [s' x]. destruct Hr as (Hl' & (_ & Hs & Hc) & Hfa & Hx).
  specialize (Hx Hf). subst x. cbn [fst snd].
  assert (∀ a, side_step (OpGetResume i key) A a s s') as Hside by (by intros [|]).
  destruct (acursors A !! (i, key)) as [row|]; [unfold resume_of; destruct (_ && valid_id (row_identity row))|];
    cbn [result_bind];
    (split; [done|]; split; [done|]; split; [by rewrite Hc|]; split; [by apply Hfa|]; apply Hside).
Qed.
Lemma handle_refines k A s : op_ok k A → live A s → faults s = [] → refines k A s.
Proof.
  intros Hok Hl Hf. destruct k as [i e m|i from to|i from to limit|i|i from|i r|i key|i|];
    [by apply append_refines|..|done]; 
    try (by first [apply follow_refines | apply put_resume_refines | apply get_resume_refines]);
    unfold refines; cbn [handle]; rewrite ?jmap_eq.
  - destruct Hok as [Hv Hto].
    pose proof (reads_live A (read_range i from to) _ s
      (λ sub chs, reads_range _ _ sub chs A i from to Hv (live_small _ _ Hl i) Hto) Hl) as Hr.
    destruct (read_range i from to s) as [s' [os|x]]; [|naive_solver].
    destruct Hr as (-> & Hl' & (_ & Hs & Hc) & Hfa). cbn [spec_step fst snd side_step].
    split_and!; try done; [by rewrite Hc|by apply Hfa].
  - destruct Hok as [Hv Hto].
    pose proof (reads_live A (read_page i from to limit) _ s
      (λ sub chs, reads_page _ _ sub chs A i from to limit Hv (live_small _ _ Hl i) Hto) Hl) as Hr.
    destruct (read_page i from to limit s) as [s' [os|x]]; [|naive_solver].
    destruct Hr as (-> & Hl' & (_ & Hs & Hc) & Hfa). cbn [spec_step fst snd side_step].
    split_and!; try done; [by rewrite Hc|by apply Hfa].
  - pose proof (reads_live A (snapshot i) _ s
      (λ sub chs, reads_snapshot _ _ sub chs A i Hok (live_small _ _ Hl i)) Hl) as Hr.
    destruct (snapshot i s) as [s' [os|x]]; [|naive_solver].
    destruct Hr as (-> & Hl' & (_ & Hs & Hc) & Hfa). cbn [spec_step fst snd side_step].
    split_and!; try done; [by rewrite Hc|by apply Hfa].
  - pose proof (reads_live A (watermark i) _ s
      (λ sub chs, reads_watermark _ _ sub chs A i (live_small _ _ Hl i)) Hl) as Hr.
    destruct (watermark i s) as [s' [os|x]]; [|naive_solver].
    destruct Hr as (-> & Hl' & (_ & Hs & Hc) & Hfa). cbn [spec_step fst snd side_step].
    split_and!; try done; [by rewrite Hc|by apply Hfa].
Qed.

(** One operation of a run. *)
Definition is_shutdown (k : OpKind) : bool := match k with OpShutdown => true | _ => false end.
Lemma run_writer_op k evs s :
  is_shutdown k ≠ true →
  (run_writer (EvOp k :: evs) s).2 = (handle k s).2 :: (run_writer evs (handle k s).1).2.
Proof.
  intros Hk. transitivity (let '(s, a) := handle k s in let '(s, out) := run_writer evs s in (s, a :: out)).2;
    [by destruct k|]. destruct (handle k s) as [s' a]. simpl. by destruct (run_writer evs s').
Qed.
Lemma spec_run_eq k evs A n :
  is_shutdown k ≠ true →
  spec_run (EvOp k :: evs) A n =
  ((spec_run evs (spec_step k A n).1.1 (spec_step k A n).1.2).1,
   (spec_step k A n).2 :: (spec_run evs (spec_step k A n).1.1 (spec_step k A n).1.2).2).
Proof.
  intros Hk. transitivity (let '(A', n', a) := spec_step k A n in
    let '(A'', out) := spec_run evs A' n' in (A'', a :: out)); [by destruct k|].
  destruct (spec_step k A n) as [[A' n'] a]. simpl. by destruct (spec_run evs A' n').
Qed.
Lemma spec_run_op k evs A n :
  is_shutdown k ≠ true →
  (spec_run (EvOp k :: evs) A n).2 =
  (spec_step k A n).2 :: (spec_run evs (spec_step k A n).1.1 (spec_step k A n).1.2).2.
Proof. intros Hk. by rewrite spec_run_eq. Qed.
Lemma spec_run_op_log k evs A n :
  is_shutdown k ≠ true →
  (spec_run (EvOp k :: evs) A n).1 = (spec_run evs (spec_step k A n).1.1 (spec_step k A n).1.2).1.
Proof. intros Hk. by rewrite spec_run_eq. Qed.

Lemma run_refines evs A s :
  run_ok evs A (length (channels s)) → live A s → faults s = [] →
  match run_writer evs s with
  | (s', outs) => outs = (spec_run evs A (length (channels s))).2 ∧
      live (spec_run evs A (length (channels s))).1 s' ∧ faults s' = []
  end.
Proof.
  revert A s. induction evs as [|ev evs IH]; intros A s Hok Hl Hf; [done|].
  assert (∀ s1 : Store, disk s1 = disk s → jsonl s1 = jsonl s → projections s1 = projections s →
    length (channels s1) = length (channels s) → faults s1 = [] → run_ok evs A (length (channels s)) →
    match run_writer evs s1 with
    | (s', outs) => outs = (spec_run evs A (length (channels s))).2 ∧
      live (spec_run evs A (length (channels s))).1 s' ∧ faults s' = []
    end) as Hside.
  { intros s1 E1 E2 E3 E4 E5 Hok1. rewrite <- E4. apply IH; [by rewrite E4| |done].
    by eapply live_side. }
  assert (∀ k, k ≠ OpShutdown → ev = EvOp k → match run_writer (ev :: evs) s with
    | (s', outs) => outs = (spec_run (ev :: evs) A (length (channels s))).2 ∧
      live (spec_run (ev :: evs) A (length (channels s))).1 s' ∧ faults s' = []
    end) as Hop.
  { intros k Hk ->. assert (op_ok k A ∧ run_ok evs (spec_step k A (length (channels s))).1.1
      (spec_step k A (length (channels s))).1.2) as [Hok1 Hok2] by (by destruct k).
    pose proof (handle_refines k A s Hok1 Hl Hf) as Hh. unfold refines in Hh.
    assert (run_writer (EvOp k :: evs) s = let '(s, a) := handle k s in
      let '(s, out) := run_writer evs s in (s, a :: out)) as -> by (by destruct k).
    assert (spec_run (EvOp k :: evs) A (length (channels s)) =
      let '(A', n', a) := spec_step k A (length (channels s)) in
      let '(A'', out) := spec_run evs A' n' in (A'', a :: out)) as -> by (by destruct k).
    destruct (handle k s) as [s' a]. destruct Hh as (Ha & Hl' & Hn & Hf' & _).
    destruct (spec_step k A (length (channels s))) as [[A' n'] a'] eqn:Hs. cbn [fst snd] in *. subst a' n'.
    specialize (IH A' s' Hok2 Hl' Hf'). destruct (run_writer evs s') as [s'' outs].
    destruct IH as (-> & ? & ?). by destruct (spec_run evs A' (length (channels s'))). }
  destruct ev as [k|c|c].
  - assert (k = OpShutdown ∨ k ≠ OpShutdown) as [->|Hk] by (destruct k; eauto).
    + cbn. by split_and!.
    + exact (Hop k Hk eq_refl).
  - apply (Hside (recv c s)); try done. simpl. apply length_alter.
  - apply (Hside (hang_up c s)); try done. simpl. apply length_alter.
Qed.

Definition empty_log : Log := mkLog ∅ ∅ ∅ ∅.
Lemma log_of_empty i : log_of empty_log i = [].
Proof. done. Qed.
Lemma empty_disk_ok : disk_ok empty_log empty_disk.
Proof.
  split; [split|..].
  - intros i k o. by rewrite log_of_empty, lookup_nil.
  - intros i o. rewrite log_of_empty. by intros ?%not_elem_of_nil.
  - intros i k o i' k' o'. by rewrite log_of_empty, lookup_nil.
  - intros i. done.
  - intros name. simpl. rewrite lookup_empty. by intros [? ?].
  - constructor; [|constructor]. split; simpl.
    + intros i r. by rewrite lookup_empty.
    + intros i _. split; intros; [apply lookup_empty|]. by rewrite lookup_empty in *.
    + intros i seq. rewrite lookup_empty. by intros [? ?].
  - simpl. by intros x i ?%not_elem_of_nil.
Qed.
Lemma empty_log_small : log_small empty_log.
Proof. intros i. rewrite log_of_empty. done. Qed.
Lemma fresh_live fp : live empty_log (fresh_store fp empty_disk []).
Proof.
  assert (lists_dir empty_disk []) as Hdir.
  { split; [constructor|]. intros name. simpl. rewrite lookup_empty. split; [by intros ?%not_elem_of_nil|].
    by intros [? ?]. }
  pose proof (open_recovers empty_log fp [] empty_disk [] empty_disk_ok empty_log_small Hdir) as [HR _].
  split; [|exact empty_log_small].
  assert (recovered_log empty_log empty_db = empty_log) as <-.
  { unfold recovered_log, empty_log. simpl. by rewrite fmap_empty. }
  exact HR.
Qed.

(** A run that agrees can be continued by one that agrees. *)
Lemma run_refines_app evs r A s :
  run_ok evs A (length (channels s)) → live A s → faults s = [] →
  (∀ s', live (spec_run evs A (length (channels s))).1 s' → faults s' = [] →
     (run_writer r s').2 = (spec_run r (spec_run evs A (length (channels s))).1 (length (channels s'))).2) →
  (run_writer (evs ++ r) s).2 = (spec_run (evs ++ r) A (length (channels s))).2.
Proof.
  revert A s. induction evs as [|ev evs IH]; intros A s Hok Hl Hf Hr; [by apply Hr|].
  assert (∀ x f, run_ok evs A (length (channels s)) →
    (∀ s', live (spec_run evs A (length (channels s))).1 s' → faults s' = [] →
       (run_writer r s').2 = (spec_run r (spec_run evs A (length (channels s))).1 (length (channels s'))).2) →
    (run_writer (evs ++ r) (set_channels (alter f x) s)).2 = (spec_run (evs ++ r) A (length (channels s))).2)
    as Hside.
  { intros x f Hok1 Hr1. specialize (IH A (set_channels (alter f x) s)). cbn [channels set_channels] in IH.
    rewrite length_alter in IH. apply IH; [done|by apply (live_side A s)|done|done]. }
  destruct ev as [k|c|c]; [|by apply Hside..].
  destruct (decide (is_shutdown k = true)) as [Hk|Hk]; [by destruct k|].
  assert (op_ok k A ∧ run_ok evs (spec_step k A (length (channels s))).1.1
    (spec_step k A (length (channels s))).1.2) as [Hok1 Hok2] by (by destruct k).
  pose proof (handle_refines k A s Hok1 Hl Hf) as Hh. unfold refines in Hh.
  rewrite <- app_comm_cons, run_writer_op, spec_run_op by done. rewrite spec_run_op_log in Hr by done.
  destruct (handle k s) as [s' a]. destruct Hh as (-> & Hl' & Hn & Hf' & _). cbn [fst snd] in *.
  f_equal. rewrite <- Hn in *. by apply IH.
Qed.


(** ** Pages *)

Lemma drop_slice {X} (L : list X) from to (m : nat) :
  1 ≤ from → drop m (slice from to L) = slice (from + Z.of_nat m) to L.
Proof. intros Hf. unfold slice. rewrite drop_drop. f_equal. lia. Qed.

Lemma last_slice_seq L from to (n : nat) o :
  numbered L → 1 ≤ from → last (take n (slice from to L)) = Some o →
  obs_seq o = from - 1 + Z.of_nat (length (take n (slice from to L))).
Proof.
  intros HL Hf Hlast. rewrite last_lookup in Hlast.
  assert (length (take n (slice from to L)) ≠ 0%nat) as Hne.
  { intros He. apply nil_length_inv in He. by rewrite He in Hlast. }
  apply lookup_take_Some in Hlast as [Hl _]. unfold slice in Hl. rewrite lookup_drop in Hl.
  apply lookup_take_Some in Hl as [Hl _]. rewrite (HL _ _ Hl). unfold slice in *. lia.
Qed.

Lemma live_read_range A s i from to :
  live A s → faults s = [] → valid_instance_id i = true → (∀ t, to = Some t → is_u64 t) →
  ∃ s', read_range i from to s = (s', Ok (log_read (log_of A i) from to (-1))) ∧
        live A s' ∧ faults s' = [].
Proof.
  intros Hl Hf Hv Hto.
  pose proof (reads_live A (read_range i from to) _ s
    (λ sub chs, reads_range _ _ sub chs A i from to Hv (live_small _ _ Hl i) Hto) Hl) as Hr.
  destruct (read_range i from to s) as [s' [os|x]]; [|naive_solver].
  destruct Hr as (-> & Hl' & _ & Hfa). eauto.
Qed.

(** A page is bounded and pages tile the range: it holds at most
    [min(max(limit, 1), 256)] observations, accounts for exactly the bytes of
    their lines, is the beginning of what [read_range] returns for the same
    range and is not empty unless that is; and [read_range] from the
    observation after [last_seq] returns exactly the rest. *)
Theorem pages_tile_the_range A s i from to limit :
  live A s → faults s = [] → valid_instance_id i = true → (∀ t, to = Some t → is_u64 t) →
  ∃ s1 s2 s3 page os rest,
    read_page i from to limit s = (s1, Ok page) ∧
    read_range i from to s = (s2, Ok os) ∧
    read_range i (default (Z.max from 1 - 1) (page_last_seq page) + 1) to s1 = (s3, Ok rest) ∧
    os = page_observations page ++ rest ∧
    Z.of_nat (length (page_observations page)) ≤ Z.min (Z.max limit 1) MAX_PAGE ∧
    page_bytes_read page = byte_len (lines (page_observations page)) ∧
    (os ≠ [] → page_observations page ≠ []).
Proof.
  intros Hl Hf Hv Hto.
  pose proof (reads_live A (read_page i from to limit) _ s
    (λ sub chs, reads_page _ _ sub chs A i from to limit Hv (live_small _ _ Hl i) Hto) Hl) as Hp.
  destruct (read_page i from to limit s) as [s1 [page|x]]; [|naive_solver].
  destruct Hp as (-> & Hl1 & _ & Hf1). specialize (Hf1 Hf).
  destruct (live_read_range A s i from to Hl Hf Hv Hto) as (s2 & Hr2 & _).
  set (F := Z.max from 1). set (T := last_read (log_of A i) to).
  set (n := Z.to_nat (page_limit limit)). assert (1 ≤ F) as HF1 by (subst F; lia).
  assert (page_observations (log_page (log_of A i) from to limit) = take n (slice F T (log_of A i))) as Hpage.
  { simpl. unfold log_read, limited. fold F T. subst n. unfold page_limit, MAX_PAGE. zbool; [lia|done]. }
  assert (default (F - 1) (page_last_seq (log_page (log_of A i) from to limit)) + 1
    = F + Z.of_nat (length (take n (slice F T (log_of A i))))) as Hnext.
  { cbn [log_page page_last_seq]. change (log_read (log_of A i) from to (page_limit limit))
      with (page_observations (log_page (log_of A i) from to limit)). rewrite Hpage.
    destruct (last (take n (slice F T (log_of A i)))) as [o|] eqn:Hlast; simpl.
    - rewrite (last_slice_seq _ _ _ _ _ (log_numbered _ (disk_log _ _ (rep_disk _ _ _ _ (live_rep _ _ Hl))) i)
        HF1 Hlast). lia.
    - apply last_None in Hlast. rewrite Hlast. simpl. lia. }
  destruct (live_read_range A s1 i (F + Z.of_nat (length (take n (slice F T (log_of A i))))) to Hl1 Hf1 Hv Hto)
    as (s3 & Hr3 & _).
  exists s1, s2, s3, (log_page (log_of A i) from to limit), (log_read (log_of A i) from to (-1)),
    (drop (length (take n (slice F T (log_of A i)))) (slice F T (log_of A i))).
  fold F. rewrite Hnext, Hpage. split_and!; try done.
  - rewrite Hr3. do 2 f_equal. rewrite drop_slice by (subst F; lia). unfold log_read, limited.
    rewrite Z.max_l by (subst F; lia). done.
  - unfold log_read, limited. simpl. fold F T. rewrite <- (take_drop n (slice F T (log_of A i))) at 1.
    f_equal. rewrite length_take. destruct (decide (n ≤ length (slice F T (log_of A i)))%nat).
    + by rewrite Nat.min_l by done.
    + rewrite Nat.min_r, !drop_ge by lia. done.
  - rewrite length_take. subst n. unfold page_limit. unfold MAX_PAGE. lia.
  - rewrite <- Hpage. done.
  - unfold log_read, limited. simpl. fold F T. intros Hne He. apply Hne.
    destruct (slice F T (log_of A i)); [done|]. subst n. unfold page_limit, MAX_PAGE in He.
    destruct (Z.to_nat (Z.min (Z.max limit 1) 256)) eqn:Hn; [lia|done].
Qed.

(** ** Followers *)

(** The channels of the subscriber lists. *)
Record subs_ok (s : Store) : Prop := {
  subs_nodup : ∀ j l, subscribers s !! j = Some l → NoDup l;
  subs_known : ∀ j l c, subscribers s !! j = Some l → c ∈ l → (c < length (channels s))%nat;
}.

(** Channel [c] follows [i]: with [h], it was sent the log from entry [a] on up
    to the moment it was dropped. *)
Record followed (i : string) (a : nat) (h : list Obs) (c : nat) (A : Log) (s : Store) : Prop := {
  fo_subs : subs_ok s;
  fo_from : (a ≤ length (log_of A i))%nat;
  fo_home : ∀ j l, subscribers s !! j = Some l → c ∈ l → j = i;
  fo_sent : ∃ ch, channels s !! c = Some ch ∧ h ++ sent ch `prefix_of` drop a (log_of A i) ∧
    (c ∈ default [] (subscribers s !! i) → h ++ sent ch = drop a (log_of A i));
}.

Lemma foldr_alter_lookup (f : Chan → Chan) (chs : list Chan) (l : list nat) c :
  NoDup l → foldr (alter f) chs l !! c = if decide (c ∈ l) then f <$> chs !! c else chs !! c.
Proof.
  induction 1 as [|x l Hx Hnd IH]; cbn [foldr].
  { case_decide as Hc; [by apply not_elem_of_nil in Hc|done]. }
  destruct (decide (x = c)) as [->|Hne].
  - rewrite list_lookup_alter_eq, IH, decide_False by done. by rewrite decide_True by (by left).
  - rewrite list_lookup_alter_ne, IH by done.
    assert (c ∈ x :: l ↔ c ∈ l) as Hiff by (rewrite elem_of_cons; naive_solver).
    by rewrite (decide_ext _ _ _ _ Hiff).
Qed.

Lemma retain_NoDup {X} (f : X → bool) (l : list X) : NoDup l → NoDup (retain f l).
Proof. intros Hnd. unfold retain. by apply NoDup_ListNoDup, List.NoDup_filter, NoDup_ListNoDup. Qed.

(** A broadcast on another journal, and on the one [c] follows. *)
Lemma broadcast_subs_ok j o s : subs_ok s → subs_ok (broadcast j o s).
Proof.
  intros [S1 S2]. unfold broadcast. destruct (subscribers s !! j) as [l|] eqn:Hl; [|by split].
  split; simpl.
  - intros k l'. destruct (decide (j = k)) as [<-|].
    + rewrite lookup_insert_eq. intros [= <-]. by eapply retain_NoDup, S1.
    + rewrite lookup_insert_ne by done. apply S1.
  - intros k l' c. rewrite foldr_alter_length. destruct (decide (j = k)) as [<-|].
    + rewrite lookup_insert_eq. intros [= <-] [Hc _]%elem_of_retain. by eapply S2.
    + rewrite lookup_insert_ne by done. apply S2.
Qed.

Lemma followed_broadcast i a h c A A' j o s :
  followed i a h c A s →
  (∀ k, log_of A' k = log_of A k ++ (if decide (j = k) then [o] else [])) →
  followed i a h c A' (broadcast j o s).
Proof.
  intros [F1 F2 F3 (ch & Hch & Hpre & Heq)] HA. split.
  - by apply broadcast_subs_ok.
  - rewrite HA, length_app. lia.
  - intros k l'. unfold broadcast. destruct (subscribers s !! j) as [l|] eqn:Hl; [|apply F3].
    simpl. destruct (decide (j = k)) as [<-|].
    + rewrite lookup_insert_eq. intros [= <-] [Hc _]%elem_of_retain. by eapply F3.
    + rewrite lookup_insert_ne by done. apply F3.
  - rewrite HA. case_decide as Hji; [subst j|rewrite app_nil_r].
    + rewrite drop_app_le by done. unfold broadcast.
      destruct (subscribers s !! i) as [l|] eqn:Hl; simpl.
      * rewrite foldr_alter_lookup, lookup_insert_eq by (eapply retain_NoDup, F1; done).
        simpl in Heq. case_decide as Hin.
        -- rewrite Hch. eexists. split; [done|]. simpl. apply elem_of_retain in Hin as [Hc _].
           rewrite app_assoc, (Heq Hc). done.
        -- exists ch. split_and!; [done| |done]. etrans; [done|]. by apply prefix_app_r.
      * exists ch. rewrite Hl. split_and!; [done| |by intros ?%not_elem_of_nil].
        etrans; [done|]. by apply prefix_app_r.
    + unfold broadcast. destruct (subscribers s !! j) as [l|] eqn:Hl; [|by exists ch].
      simpl. rewrite foldr_alter_lookup by (eapply retain_NoDup, F1; done).
      rewrite lookup_insert_ne by done. rewrite decide_False; [by exists ch|].
      intros [Hc _]%elem_of_retain. by apply Hji, F3 with l.
Qed.

Lemma followed_same i a h c A s s' :
  subscribers s' = subscribers s → channels s' = channels s → followed i a h c A s →
  followed i a h c A s'.
Proof. intros Es Ec [[S1 S2] F2 F3 F4]. split; [split|..]; by rewrite ?Es, ?Ec. Qed.
Lemma followed_log i a h c A A' s :
  (∀ k, log_of A' k = log_of A k) → followed i a h c A s → followed i a h c A' s.
Proof. intros HA [F1 F2 F3 F4]. split; by rewrite ?HA. Qed.

(** The receiver's side of a channel does not matter. *)
Lemma followed_alter i a h c A s x (f : Chan → Chan) :
  (∀ ch, sent (f ch) = sent ch) → followed i a h c A s →
  followed i a h c A (set_channels (alter f x) s).
Proof.
  intros Hf [[S1 S2] F2 F3 (ch & Hch & Hpre & Heq)]. split; simpl; [split|..]; try done.
  - intros j l k. simpl. rewrite length_alter. apply S2.
  - destruct (decide (x = c)) as [->|].
    + rewrite list_lookup_alter_eq, Hch. exists (f ch). by rewrite Hf.
    + rewrite list_lookup_alter_ne by done. by exists ch.
Qed.

Lemma subscribe_subs_ok j s : subs_ok s → subs_ok (subscribe j s).
Proof.
  intros [S1 S2]. split; simpl.
  - intros k l. destruct (decide (j = k)) as [<-|]; [|rewrite lookup_insert_ne by done; apply S1].
    rewrite lookup_insert_eq. intros [= <-]. apply list.NoDup_app. split_and!.
    + destruct (subscribers s !! j) eqn:Hl; [by eapply S1|constructor].
    + intros x Hx. rewrite list_elem_of_singleton. intros ->.
      destruct (subscribers s !! j) eqn:Hl; [|by apply not_elem_of_nil in Hx].
      pose proof (S2 _ _ _ Hl Hx). lia.
    + apply NoDup_singleton.
  - intros k l c. rewrite length_app. simpl.
    destruct (decide (j = k)) as [<-|].
    + rewrite lookup_insert_eq. intros [= <-] [Hc| ->%list_elem_of_singleton]%elem_of_app; [|lia].
      destruct (subscribers s !! j) eqn:Hl; [|by apply not_elem_of_nil in Hc].
      pose proof (S2 _ _ _ Hl Hc). lia.
    + rewrite lookup_insert_ne by done. intros Hl Hc. pose proof (S2 _ _ _ Hl Hc). lia.
Qed.
Lemma followed_subscribe i a h c A s j :
  followed i a h c A s → followed i a h c A (subscribe j s).
Proof.
  intros [F1 F2 F3 (ch & Hch & Hpre & Heq)]. pose proof (lookup_lt_Some _ _ _ Hch) as Hlt.
  assert (∀ k l, subscribers (subscribe j s) !! k = Some l → c ∈ l →
    c ∈ default [] (subscribers s !! k)) as Hback.
  { intros k l. simpl. destruct (decide (j = k)) as [<-|].
    - rewrite lookup_insert_eq. intros [= <-] [?| ->%list_elem_of_singleton]%elem_of_app; [done|lia].
    - rewrite lookup_insert_ne by done. by intros ->. }
  split; [by apply subscribe_subs_ok|done|..].
  - intros k l Hl Hc. pose proof (Hback k l Hl Hc) as Hin.
    destruct (subscribers s !! k) eqn:Hk; [by eapply F3|by apply not_elem_of_nil in Hin].
  - exists ch. split; [by apply lookup_app_l_Some|]. split; [done|]. intros Hc. apply Heq.
    destruct (subscribers (subscribe j s) !! i) as [l|] eqn:Hl; [by eapply Hback|by apply not_elem_of_nil in Hc].
Qed.

Lemma append_done_log_of A i e m k :
  log_of (append_done A i e m) k = log_of A k ++ (if decide (i = k) then [append_obs A i e m] else []).
Proof.
  unfold append_done. case_decide as Hik; [subst k|].
  - by rewrite log_of_append_eq, log_of_prepare.
  - by rewrite log_of_append_ne, log_of_prepare, app_nil_r.
Qed.

Lemma followed_handle i a h c A s k :
  op_ok k A → live A s → faults s = [] → followed i a h c A s →
  followed i a h c (spec_step k A (length (channels s))).1.1 (handle k s).1.
Proof.
  intros Hok Hl Hf HF. pose proof (handle_refines k A s Hok Hl Hf) as Hh. unfold refines in Hh.
  destruct (handle k s) as [s' r]. destruct Hh as (Hr & _ & _ & _ & Hside). cbn [fst].
  destruct k as [j e m|j from to|j from to limit|j|j from|j x|j key|j|]; cbn [side_step] in Hside;
    try (destruct Hside as [E1 E2]; by eapply followed_same).
  - revert Hr Hside. cbn [spec_step]. unfold spec_append. rewrite (event_is_new_true _ _ (proj2 Hok)).
    intros Hr Hside.
    assert ((∃ q, r = Ok q) ∨ (∃ x, r = Err x)) as [[q ->]|[x ->]] by (destruct r; eauto).
    + destruct Hside as [E1 E2]. eapply followed_same; [exact E1|exact E2|].
      eapply followed_broadcast; [exact HF|].
      case_decide; [done|]. destruct (jids A !! j); [case_decide|]; try done; apply append_done_log_of.
    + destruct Hside as [E1 E2]. eapply followed_same; [exact E1|exact E2|].
      case_decide; [done|]. destruct (jids A !! j); [case_decide|]; done.
  - assert (∀ n, log_of (spec_step (OpFollow j from) A n).1.1 = log_of A) as HA.
    { intros n. cbn [spec_step]. by destruct (_ <? _). }
    destruct r; destruct Hside as [E1 E2].
    + apply (followed_same _ _ _ _ _ (subscribe j s)); [done..|].
      eapply followed_log; [by intros; rewrite HA|]. by apply followed_subscribe.
    + apply (followed_same _ _ _ _ _ (hang_up (length (channels s)) (subscribe j s))); [done..|].
      eapply followed_log; [by intros; rewrite HA|]. apply followed_alter; [done|].
      by apply followed_subscribe.
  - assert (∀ n, log_of (spec_step (OpPutResume j x) A n).1.1 = log_of A) as HA.
    { intros n. cbn [spec_step]. by destruct (_ && _). }
    destruct r; destruct Hside as [E1 E2]; (eapply followed_same; [exact E1|exact E2|]);
      (eapply followed_log; [by intros; rewrite HA|done]).
Qed.

Lemma subs_ok_same s s' :
  subscribers s' = subscribers s → channels s' = channels s → subs_ok s → subs_ok s'.
Proof. intros Es Ec [S1 S2]. split; by rewrite ?Es, ?Ec. Qed.
Lemma subs_ok_alter s x f : subs_ok s → subs_ok (set_channels (alter f x) s).
Proof. intros [S1 S2]. split; simpl; [done|]. intros j l c. rewrite length_alter. apply S2. Qed.

Lemma subs_ok_handle A s k :
  op_ok k A → live A s → faults s = [] → subs_ok s → subs_ok (handle k s).1.
Proof.
  intros Hok Hl Hf HS. pose proof (handle_refines k A s Hok Hl Hf) as Hh. unfold refines in Hh.
  destruct (handle k s) as [s' r]. destruct Hh as (_ & _ & _ & _ & Hside). cbn [fst].
  destruct k as [j e m|j from to|j from to limit|j|j from|j x|j key|j|]; cbn [side_step] in Hside;
    try (destruct Hside as [E1 E2]; by eapply subs_ok_same).
  - destruct r; destruct Hside as [E1 E2]; [|by eapply subs_ok_same].
    eapply subs_ok_same; [exact E1|exact E2|]. by apply broadcast_subs_ok.
  - destruct r; destruct Hside as [E1 E2].
    + eapply subs_ok_same; [exact E1|exact E2|]. by apply subscribe_subs_ok.
    + apply (subs_ok_same (hang_up (length (channels s)) (subscribe j s))); [done..|].
      apply subs_ok_alter. by apply subscribe_subs_ok.
Qed.

(** A property of the store kept by every served operation and by the
    followers' own steps holds after a run. *)
Lemma run_invariant (I : Log → Store → Prop) :
  (∀ A s k, op_ok k A → live A s → faults s = [] → I A s →
     I (spec_step k A (length (channels s))).1.1 (handle k s).1) →
  (∀ A s x f, (∀ ch, sent (f ch) = sent ch) → I A s → I A (set_channels (alter f x) s)) →
  ∀ evs A s, run_ok evs A (length (channels s)) → live A s → faults s = [] → I A s →
    I (spec_run evs A (length (channels s))).1 (run_writer evs s).1.
Proof.
  intros Hhandle Halter. induction evs as [|ev evs IH]; intros A s Hok Hl Hf HI; [done|].
  assert (∀ x f, (∀ ch, sent (f ch) = sent ch) → run_ok evs A (length (channels s)) →
    I (spec_run evs A (length (channels s))).1 (run_writer evs (set_channels (alter f x) s)).1) as Hside.
  { intros x f Hs Hok1.
    assert (length (channels (set_channels (alter f x) s)) = length (channels s)) as Hlen
      by apply length_alter.
    rewrite <- Hlen. apply IH; [by rewrite Hlen|by apply (live_side A s)|done|by apply Halter]. }
  destruct ev as [k|x|x];
    [|exact (Hside x (λ ch, mkChan (sent ch) (Nat.min (S (taken ch)) (length (sent ch))) (receiving ch))
               (λ _, eq_refl) Hok)
     |exact (Hside x (λ ch, mkChan (sent ch) (taken ch) false) (λ _, eq_refl) Hok)].
  assert (k = OpShutdown ∨ k ≠ OpShutdown) as [->|Hk] by (destruct k; eauto); [done|].
  assert (op_ok k A ∧ run_ok evs (spec_step k A (length (channels s))).1.1
    (spec_step k A (length (channels s))).1.2) as [Hok1 Hok2] by (by destruct k).
  pose proof (handle_refines k A s Hok1 Hl Hf) as Hh. unfold refines in Hh. specialize (Hhandle A s k Hok1 Hl Hf HI).
  assert (run_writer (EvOp k :: evs) s = let '(s, a) := handle k s in
    let '(s, out) := run_writer evs s in (s, a :: out)) as -> by (by destruct k).
  assert (spec_run (EvOp k :: evs) A (length (channels s)) =
    let '(A', n', a) := spec_step k A (length (channels s)) in
    let '(A'', out) := spec_run evs A' n' in (A'', a :: out)) as -> by (by destruct k).
  destruct (handle k s) as [s' a]. destruct Hh as (_ & Hl' & Hn & Hf' & _).
  destruct (spec_step k A (length (channels s))) as [[A' n'] a']. cbn [fst snd] in *. subst n'.
  specialize (IH A' s' Hok2 Hl' Hf' Hhandle).
  destruct (run_writer evs s'), (spec_run evs A' (length (channels s'))). done.
Qed.

(** C15. A follower has no holes as long as the storage does not fail and every
    append brings a new event id.  Whatever such operations ran before, after
    [follow] returned a history and a channel, and whatever such operations run
    later (appends, refused ones too, reads, other followers, slow or vanished
    receivers): the history followed by everything ever sent on the channel is a
    prefix of the log from the requested observation on, and all of it as long as
    the channel is subscribed.  The first condition is needed:
    [JournalWitness.failed_checkpoint_leaves_a_hole]. *)
Theorem follow_has_no_holes fp evs1 i from evs2 s2 h c :
  let s0 := fresh_store fp empty_disk [] in
  let s1 := (run_writer evs1 s0).1 in
  let A1 := (spec_run evs1 empty_log 0).1 in
  run_ok evs1 empty_log 0 → valid_instance_id i = true →
  handle (OpFollow i from) s1 = (s2, Ok (OutFollow h c)) →
  run_ok evs2 A1 (length (channels s2)) →
  let s3 := (run_writer evs2 s2).1 in
  let L := log_of (spec_run evs2 A1 (length (channels s2))).1 i in
  ∃ ch, channels s3 !! c = Some ch ∧
    h ++ sent ch `prefix_of` drop (Z.to_nat (Z.max from 1 - 1)) L ∧
    (c ∈ default [] (subscribers s3 !! i) → h ++ sent ch = drop (Z.to_nat (Z.max from 1 - 1)) L).
Proof.
  intros s0 s1 A1 Hok1 Hv Hfollow Hok2 s3 L.
  pose proof (run_refines evs1 empty_log s0 Hok1 (fresh_live fp) eq_refl) as Hr1.
  assert (subs_ok s1) as HS1.
  { apply (run_invariant (λ _ s, subs_ok s)) with (A := empty_log); [|by intros; apply subs_ok_alter|done|
      apply fresh_live|done|by split].
    intros. by eapply subs_ok_handle. }
  unfold s1 in *. destruct (run_writer evs1 s0) as [s1' o1]. cbn [fst] in *.
  destruct Hr1 as (_ & Hl1 & Hf1). change (spec_run evs1 empty_log (length (channels s0))).1 with A1 in Hl1.
  pose proof (handle_refines (OpFollow i from) A1 s1' Hv Hl1 Hf1) as Hh. unfold refines in Hh. rewrite Hfollow in Hh.
  destruct Hh as (Hout & Hl2 & _ & Hf2 & E1 & E2). cbn [spec_step] in Hout, Hl2.
  destruct (_ <? _) eqn:Hgap in Hout, Hl2; [done|]. cbn [fst snd] in Hout, Hl2. injection Hout as Hh Hc.
  apply (run_invariant (followed i (Z.to_nat (Z.max from 1 - 1)) h c)) with (A := A1);
    [by intros; apply followed_handle|by intros; apply followed_alter|done..|].
  apply (followed_same _ _ _ _ _ (subscribe i s1')); [done..|].
  split; [by apply subscribe_subs_ok|zhyps; lia|..].
  - intros j l. simpl. destruct (decide (i = j)) as [<-|]; [done|]. rewrite lookup_insert_ne by done.
    intros Hl Hin. pose proof (subs_known _ HS1 _ _ _ Hl Hin). lia.
  - exists (mkChan [] 0 true). subst c h. simpl. rewrite list_lookup_middle by done.
    rewrite app_nil_r. split_and!; done.
Qed.
End spec.
