(* ===== verification/JournalCrash.v ===== *)
(** * Crash safety of the journal

    A history of a store: operations that succeed or fail at any point,
    crashes that lose what was not synced and roll the database back to any
    committed state, and restarts that may themselves fail.  An acknowledged
    observation survives all of it, under two conditions on a history: it repeats
    no event id, and after an append that left bytes in the file without indexing
    them the store is started again before it serves more.  [JournalWitness] runs
    what happens otherwise. *)
From stdpp Require Import base list gmap strings numbers sorting.
From S2P Require Import Prelude Text Json Cover FileTail NodeStore Projection Journal.
From S2P Require Import JournalLog JournalRecover JournalRead JournalSpec.
Local Open Scope Z_scope.

(** ** Losing power

    Of each file a prefix survives that contains what was synced, the database
    comes back in one of its committed states, and what is read back is on
    stable storage.  A created file is assumed to stay. *)
Record crash (d d' : Disk) : Prop := {
  crash_files : ∀ name,
    match files d' !! name with
    | Some b' => ∃ b, files d !! name = Some b ∧ b' `prefix_of` b ∧ (synced d !!! name ≤ length b')%nat
    | None => files d !! name = None
    end;
  crash_synced : ∀ name b', files d' !! name = Some b' → synced d' !!! name = length b';
  crash_db : db d' ∈ db d :: wal d;
  crash_wal : wal d' = [];
}.

(** Everything in the files is synced. *)
Definition fully_synced (d : Disk) : Prop :=
  ∀ name b, files d !! name = Some b → (length b ≤ synced d !!! name)%nat.

Definition newlines (b : list Z) : nat := length (List.filter (Z.eqb 10) b).
Lemma newlines_app a b : newlines (a ++ b) = (newlines a + newlines b)%nat.
Proof. unfold newlines. by rewrite List.filter_app, length_app. Qed.
Lemma newlines_prefix a b : a `prefix_of` b → (newlines a ≤ newlines b)%nat.
Proof. intros [k ->]. rewrite newlines_app. lia. Qed.
Lemma newlines_none b : 10 ∉ b → newlines b = 0%nat.
Proof.
  unfold newlines. induction b as [|x b IH]; [done|]. intros [Hx Hb]%not_elem_of_cons.
  cbn [List.filter]. rewrite (proj2 (Z.eqb_neq 10 x)) by done. by apply IH.
Qed.

Section crash.
Context `{CodecLaws}.

Lemma newlines_lines L torn : 10 ∉ torn → newlines (lines L ++ torn) = length L.
Proof.
  intros Ht. rewrite newlines_app, (newlines_none torn Ht), Nat.add_0_r.
  induction L as [|o L IH]; [done|]. cbn [lines length]. unfold record_of.
  rewrite !newlines_app, IH, newlines_none by apply enc_no_newline. done.
Qed.

(** A prefix of a journal file is a shorter journal file. *)
Lemma prefix_lines L torn b' :
  10 ∉ torn → b' `prefix_of` lines L ++ torn →
  ∃ torn', b' = lines (take (newlines b') L) ++ torn' ∧ 10 ∉ torn'.
Proof.
  intros Ht [k Hk].
  assert (b' = take (length b') (lines L ++ torn)) as Hb by (by rewrite Hk, take_app_length).
  rewrite take_app in Hb. destruct (decide (length b' ≤ length (lines L))%nat) as [Hle|Hgt].
  - replace (length b' - length (lines L))%nat with 0%nat in Hb by lia.
    rewrite take_0, app_nil_r in Hb.
    destruct (cut_lines L (length b')) as (m & torn' & Hm & Hcut & Ht').
    rewrite Hcut in Hb. exists torn'. split; [|done]. rewrite Hb at 2.
    rewrite newlines_lines, length_take, Nat.min_l by done. exact Hb.
  - rewrite take_ge in Hb by lia. set (t := take _ torn) in Hb. exists t.
    assert (10 ∉ t) as Htt.
    { intros (? & ? & _)%elem_of_take. apply Ht. by eapply list_elem_of_lookup_2. }
    split; [|done]. rewrite Hb at 2. by rewrite newlines_lines, firstn_all.
Qed.

(** The log a crash leaves. *)
Definition surviving (A : Log) (d' : Disk) : Log :=
  mkLog (map_imap (λ i L, Some (take (newlines (files d' !!! jsonl_path_key i)) L)) (logs A))
    (jids A) (ablobs A) (acursors A).
Lemma log_of_surviving A d' i :
  log_of (surviving A d') i = take (newlines (files d' !!! jsonl_path_key i)) (log_of A i).
Proof.
  unfold log_of. simpl. rewrite map_lookup_imap. destruct (logs A !! i); simpl; [done|].
  by rewrite take_nil.
Qed.

Lemma crash_disk_ok A d d' : disk_ok A d → crash d d' → disk_ok (surviving A d') d'.
Proof.
  intros [[L1 L2 L3] D2 D3 D4 D5] [C1 C2 C3 C4].
  assert (∀ name, files d' !! name = None → files d !! name = None) as Hnone.
  { intros name Hn. specialize (C1 name). by rewrite Hn in C1. }
  assert (∀ i k o, log_of (surviving A d') i !! k = Some o → log_of A i !! k = Some o) as Hsub.
  { intros i k o. rewrite log_of_surviving. by intros [? _]%lookup_take_Some. }
  split; [split|..].
  - intros i k o Hk. apply (L1 i k o). by apply Hsub.
  - intros i o [k Hk]%list_elem_of_lookup. apply L2. apply Hsub in Hk. by eapply list_elem_of_lookup_2.
  - intros i k o i' k' o' Ho Ho'. apply L3; by apply Hsub.
  - intros i. unfold file_ok. rewrite log_of_surviving. specialize (C1 (jsonl_path_key i)).
    specialize (D2 i). unfold file_ok in D2.
    destruct (files d' !! jsonl_path_key i) as [b'|] eqn:Hb'.
    + destruct C1 as (b & Hb & Hpre & _). rewrite Hb in D2. destruct D2 as (torn & -> & Ht).
      rewrite (lookup_total_correct _ _ _ Hb'). by apply (prefix_lines _ torn).
    + rewrite C1 in D2. by rewrite D2, take_nil.
  - intros name [b' Hb'] Hs. specialize (C1 name). rewrite Hb' in C1.
    destruct C1 as (b & Hb & _). apply D3; [by rewrite Hb|done].
  - rewrite C4. constructor; [|constructor]. rewrite list.Forall_forall in D4.
    apply (db_ok_logs A); [done|]. apply (db_ok_files A (files d)); [by apply D4|].
    intros i. apply Hnone.
  - rewrite C4. by intros x i ?%not_elem_of_nil.
Qed.

(** What was synced of a log survives. *)
Lemma crash_keeps A d d' i m :
  disk_ok A d → crash d d' → (m ≤ length (log_of A i))%nat →
  (length (lines (take m (log_of A i))) ≤ synced d !!! jsonl_path_key i)%nat →
  (m ≤ newlines (files d' !!! jsonl_path_key i))%nat.
Proof.
  intros [_ D2 _ _ _] [C1 _ _ _] Hm Hs. specialize (C1 (jsonl_path_key i)).
  specialize (D2 i). unfold file_ok in D2.
  destruct (files d' !! jsonl_path_key i) as [b'|] eqn:Hb'.
  - destruct C1 as (b & Hb & Hpre & Hlen). rewrite Hb in D2. destruct D2 as (torn & -> & Ht).
    rewrite (lookup_total_correct _ _ _ Hb').
    assert (lines (take m (log_of A i)) `prefix_of` b') as Hp.
    { destruct (prefix_weak_total (lines (take m (log_of A i))) b' (lines (log_of A i) ++ torn))
        as [?|Hp]; [|done|done|].
      - rewrite <- (take_drop m (log_of A i)) at 2. rewrite lines_app, <- app_assoc. by eexists.
      - rewrite (prefix_length_eq _ _ Hp); [done|]. lia. }
    apply newlines_prefix in Hp. rewrite <- (app_nil_r (lines _)), newlines_lines in Hp
      by apply not_elem_of_nil. rewrite length_take in Hp. lia.
  - rewrite C1 in D2. rewrite D2 in Hm. simpl in Hm. lia.
Qed.

Lemma crash_fully_synced d d' : crash d d' → fully_synced d'.
Proof. intros [_ C2 _ _] name b Hb. by rewrite (C2 _ _ Hb). Qed.

(** ** What is synced *)

Section synced.
Context (nf : Prop) (fp : FsyncPolicy) (sub : gmap string (list nat)) (chs : list Chan).
Local Abbreviation spec := (spec nf fp sub chs).

Definition on_files (Φ : gmap string (list Z) → gmap string nat → Prop) : core :=
  λ d _ _, Φ (files d) (synced d).
(** The computation does not touch the journal files. *)
Definition keeps {X} (c : jm X) : Prop :=
  ∀ Φ, spec (on_files Φ) c (λ _, on_files Φ) (λ _, on_files Φ).

Lemma keeps_ret {X} (x : X) : keeps (mret x).
Proof. intros Φ. by apply spec_ret. Qed.
Lemma keeps_fail {X} e : keeps (st_fail e : jm X).
Proof. intros Φ. by apply spec_fail. Qed.
Lemma keeps_lift {X} (r : result X JError) : keeps (st_lift r).
Proof. intros Φ. by apply spec_lift. Qed.
Lemma keeps_bind {X Y} (c : jm X) (k : X → jm Y) : keeps c → (∀ x, keeps (k x)) → keeps (c ≫= k).
Proof. intros Hc Hk Φ. eapply spec_bind; [apply Hc|]. intros x. apply Hk. Qed.
Lemma keeps_get {X} (k : Store → jm X) : (∀ s0, keeps (k s0)) → keeps (st_get ≫= k).
Proof.
  intros Hk Φ. apply spec_get. intros s0 _ HP. eapply spec_pre; [apply Hk|].
  by intros d c p (-> & -> & ->).
Qed.
Lemma keeps_io e : keeps (io e).
Proof. intros Φ. by apply spec_io. Qed.
Lemma keeps_query {X} (f : Db → X) : keeps (db_query f).
Proof. intros Φ. by apply spec_query. Qed.
Lemma keeps_try f : keeps (db_try f).
Proof. intros Φ. by apply spec_try. Qed.
Lemma keeps_exec f : keeps (db_exec f).
Proof. apply keeps_try. Qed.
Lemma keeps_modify f :
  (∀ s, fsync (f s) = fsync s ∧ subscribers (f s) = subscribers s ∧ channels (f s) = channels s ∧
        faults (f s) = faults s) →
  (∀ s, files (disk (f s)) = files (disk s) ∧ synced (disk (f s)) = synced (disk s)) →
  keeps (st_modify f).
Proof.
  intros Hf Hd Φ. apply spec_modify; [done|]. intros s. unfold on_files.
  by destruct (Hd s) as [-> ->].
Qed.
Lemma keeps_write_blob name b : keeps (write_blob name b).
Proof.
  intros Φ s (HP & H1 & H2 & H3 & H4). unfold write_blob.
  destruct (faults s) as [|[|n] r] eqn:Hf; (split; [done|]); simpl; split_and!; try done;
    intros ?%H4; congruence.
Qed.
End synced.

Create HintDb keeps.
#[local] Hint Resolve keeps_ret keeps_fail keeps_lift keeps_io keeps_query keeps_try keeps_exec
  keeps_write_blob : keeps.
#[local] Hint Extern 2 (keeps _ _ _ _ (st_get ≫= _)) => apply keeps_get; intros : keeps.
#[local] Hint Extern 3 (keeps _ _ _ _ (_ ≫= _)) => apply keeps_bind; [|intros] : keeps.
#[local] Hint Extern 2 (keeps _ _ _ _ (st_modify _)) => apply keeps_modify; [done|done] : keeps.
#[local] Hint Extern 4 (keeps _ _ _ _ (match ?x with _ => _ end)) => destruct x : keeps.
#[local] Hint Extern 4 (keeps _ _ _ _ (if ?x then _ else _)) => destruct x : keeps.

Section synced_ops.
Context (nf : Prop) (fp : FsyncPolicy) (sub : gmap string (list nat)) (chs : list Chan).
Local Abbreviation spec := (spec nf fp sub chs).
Local Abbreviation keeps := (keeps nf fp sub chs).

Lemma keeps_ensure i j h : keeps (ensure_instance i j h).
Proof. unfold ensure_instance. eauto 10 with keeps. Qed.
Lemma keeps_watermark i : keeps (watermark i).
Proof. unfold watermark. eauto 10 with keeps. Qed.
Lemma keeps_put raw oid uuid : keeps (put raw oid uuid).
Proof. unfold put, rename_blob. eauto 20 with keeps. Qed.
Lemma keeps_checkpoint i : keeps (save_checkpoint i).
Proof. unfold save_checkpoint, watermark. eauto 20 with keeps. Qed.
Lemma keeps_recover_line i sc chunk : keeps (recover_line i sc chunk).
Proof. unfold recover_line, ensure_instance. eauto 30 with keeps. Qed.
Lemma keeps_recover_lines i chunks sc : keeps (recover_lines i sc chunks).
Proof.
  revert sc. induction chunks as [|c r IH]; intros sc; simpl; [apply keeps_ret|].
  apply keeps_bind; [apply keeps_recover_line|apply IH].
Qed.

(** The first [n0 name] bytes of each file are synced, and only the file of [i]
    grows. *)
Definition durable (n0 : string → nat) (i : string) (fs : gmap string (list Z))
    (sy : gmap string nat) : Prop :=
  ∀ name, (n0 name ≤ sy !!! name)%nat ∧ (n0 name ≤ length (fs !!! name))%nat ∧
    (name ≠ jsonl_path_key i → length (fs !!! name) = n0 name).

Lemma created_total i fs name : created i fs !!! name = fs !!! name.
Proof.
  unfold created. destruct (fs !! jsonl_path_key i) eqn:Hi; [done|].
  destruct (decide (name = jsonl_path_key i)) as [->|].
  - by rewrite lookup_total_insert_eq, (lookup_total_alt fs), Hi.
  - by rewrite lookup_total_insert_ne.
Qed.

Lemma durable_open n0 i :
  spec (on_files (durable n0 i)) (open_jsonl i) (λ _, on_files (durable n0 i))
    (λ _, on_files (durable n0 i)).
Proof.
  unfold open_jsonl. apply spec_get. intros s0 _ HP.
  eapply spec_pre with (P := on_files (durable n0 i)); [|by intros ? ? ? (-> & -> & ->)].
  case_bool_decide; [by apply spec_ret|].
  eapply spec_bind; [apply keeps_io|]. intros [].
  eapply spec_bind with (Q := λ _, on_files (durable n0 i)).
  { apply spec_modify; [done|]. intros s Hs name. destruct (Hs name) as (H1' & H2' & H3'). simpl.
    fold (created i (files (disk s))). by rewrite created_total. }
  intros []. eapply spec_bind; [apply keeps_io|]. intros [].
  apply (keeps_get nf fp sub chs); intros s1. apply (keeps_modify nf fp sub chs); done.
Qed.

Lemma durable_append n0 i b d :
  durable n0 i (files d) (synced d) →
  durable n0 i (files (append_file (jsonl_path_key i) b d)) (synced (append_file (jsonl_path_key i) b d)).
Proof.
  intros Hd name. destruct (Hd name) as (H1' & H2' & H3'). simpl.
  destruct (decide (name = jsonl_path_key i)) as [->|Hne].
  - rewrite lookup_total_insert_eq, length_app. split_and!; [done|lia|done].
  - by rewrite lookup_total_insert_ne.
Qed.

(** After a successful append the file is synced to its end. *)
Definition durable_synced (n0 : string → nat) (i : string) (fs : gmap string (list Z))
    (sy : gmap string nat) : Prop :=
  durable n0 i fs sy ∧
  (fp ≠ FsyncNever → (length (fs !!! jsonl_path_key i) ≤ sy !!! jsonl_path_key i)%nat).

Lemma durable_sync n0 i :
  spec (on_files (durable n0 i)) (sync_file (jsonl_path_key i)) (λ _, on_files (durable_synced n0 i))
    (λ _, on_files (durable n0 i)).
Proof.
  unfold sync_file. apply spec_get. intros s0 Hfp HP.
  assert (spec (λ d c p, d = disk s0 ∧ c = jsonl s0 ∧ p = projections s0)
    (_ ← io EIo; st_modify (set_disk (λ d, set_synced
       <[jsonl_path_key i := length (files d !!! jsonl_path_key i)]> d)))
    (λ _, on_files (durable_synced n0 i)) (λ _, on_files (durable n0 i))) as Hsync.
  { eapply spec_bind with (Q := λ _, on_files (durable n0 i)).
    { apply spec_io; [by intros ? ? ? (-> & -> & ->)|by intros ? ? ? ? (-> & -> & ->)]. }
    intros []. apply spec_modify; [done|]. intros s Hs. split; simpl.
    - intros name. destruct (Hs name) as (H1' & H2' & H3').
      destruct (decide (name = jsonl_path_key i)) as [->|Hne].
      + by rewrite lookup_total_insert_eq.
      + by rewrite lookup_total_insert_ne.
    - intros _. by rewrite lookup_total_insert_eq. }
  rewrite Hfp. destruct fp eqn:Hf; [|done..].
  apply spec_ret. intros ? ? ? (-> & -> & ->). split; [done|]. by rewrite Hf.
Qed.

Lemma durable_write_jsonl n0 i line :
  spec (on_files (durable n0 i)) (write_jsonl i line) (λ _, on_files (durable_synced n0 i))
    (λ _, on_files (durable n0 i)).
Proof.
  unfold write_jsonl. eapply spec_bind; [apply durable_open|]. intros [].
  apply spec_get. intros s0 _ HP.
  eapply spec_pre with (P := on_files (durable n0 i)); [|by intros ? ? ? (-> & -> & ->)].
  eapply spec_bind with (Q := λ _, on_files (durable n0 i)).
  { apply spec_write_all; intros; by apply durable_append. }
  intros []. eapply spec_bind; [apply (keeps_modify nf fp sub chs); done|]. intros [].
  eapply spec_bind; [apply durable_sync|]. intros []. by apply spec_ret.
Qed.

Lemma durable_append_write n0 i e m :
  spec (on_files (durable n0 i)) (append_write i e m) (λ _, on_files (durable_synced n0 i))
    (λ _, on_files (durable n0 i)).
Proof.
  unfold append_write. case_bool_decide; [by apply spec_fail|].
  eapply spec_bind; [apply keeps_ensure|]. intros [].
  eapply spec_bind.
  { destruct (env_raw e) as [raw|]; [|apply keeps_ret].
    apply (keeps_bind nf fp sub chs); [apply keeps_put|]. intros r. apply keeps_ret. }
  intros r. eapply spec_bind; [apply keeps_watermark|]. intros w.
  eapply spec_bind; [apply keeps_lift|]. intros line.
  eapply spec_bind; [apply durable_write_jsonl|]. intros ol. by apply spec_ret.
Qed.
Lemma keeps_append_commit i r : keeps (append_commit i r).
Proof.
  unfold append_commit. apply keeps_bind; [apply keeps_try|]. intros [].
  apply keeps_bind; [by apply keeps_modify|]. intros [].
  apply keeps_bind; [apply keeps_checkpoint|]. intros []. apply keeps_ret.
Qed.

(** Recovery keeps what is synced synced. *)
Definition all_synced (fs : gmap string (list Z)) (sy : gmap string nat) : Prop :=
  ∀ name b, fs !! name = Some b → (length b ≤ sy !!! name)%nat.

Lemma recover_file_synced name :
  spec (on_files all_synced) (recover_file name) (λ _, on_files all_synced) (λ _, on_files all_synced).
Proof.
  unfold recover_file. destruct (strip_jsonl name) as [ext|]; [|apply keeps_ret].
  case_match; [apply keeps_fail|].
  eapply spec_bind; [apply keeps_io|]. intros []. apply spec_get. intros s0 _ HP.
  eapply spec_pre with (P := on_files all_synced); [|by intros ? ? ? (-> & -> & ->)].
  set (n := valid_len _).
  eapply spec_bind with (Q := λ _, on_files all_synced).
  { case_bool_decide; [|apply keeps_ret]. unfold truncate_file.
    eapply spec_bind; [apply keeps_io|]. intros [].
    eapply spec_bind with (Q := λ _, on_files all_synced).
    { apply spec_modify; [done|]. intros s Hs k b. simpl.
      destruct (decide (k = name)) as [->|Hne].
      - rewrite lookup_insert_eq. intros [= <-]. rewrite length_take.
        rewrite !lookup_total_alt, lookup_alter_eq.
        destruct (files (disk s) !! name) as [b|] eqn:Hb; simpl; [|lia].
        specialize (Hs name b Hb). rewrite lookup_total_alt in Hs.
        destruct (synced (disk s) !! name); simpl in *; lia.
      - rewrite lookup_insert_ne by done. intros Hb.
        rewrite lookup_total_alt, lookup_alter_ne, <- lookup_total_alt by done. by apply Hs. }
    intros []. apply spec_sync_file; [done| |done].
    intros d c p Hs k b Hb. simpl in *. destruct (decide (k = name)) as [->|].
    - rewrite lookup_total_insert_eq, (lookup_total_correct _ _ _ Hb). done.
    - rewrite lookup_total_insert_ne by done. by apply Hs. }
  intros []. eapply spec_bind; [apply keeps_recover_lines|]. intros sc.
  eapply spec_bind; [apply keeps_exec|]. intros []. eapply spec_bind; [apply keeps_exec|]. intros [].
  eapply spec_bind; [apply (keeps_modify nf fp sub chs); done|]. intros []. apply keeps_checkpoint.
Qed.
Lemma recover_synced names :
  spec (on_files all_synced) (recover names) (λ _, on_files all_synced) (λ _, on_files all_synced).
Proof.
  induction names as [|name names IH]; [apply keeps_ret|].
  eapply spec_bind; [apply recover_file_synced|]. by intros [].
Qed.

(** Readers only ever create an empty file. *)
Definition stays_synced {X} (c : jm X) : Prop :=
  spec (on_files all_synced) c (λ _, on_files all_synced) (λ _, on_files all_synced).
Lemma stays_keeps {X} (c : jm X) : keeps c → stays_synced c.
Proof. intros Hc. apply Hc. Qed.
Lemma stays_bind {X Y} (c : jm X) (k : X → jm Y) :
  stays_synced c → (∀ x, stays_synced (k x)) → stays_synced (c ≫= k).
Proof. intros Hc Hk. by eapply spec_bind. Qed.
Lemma stays_get {X} (k : Store → jm X) : (∀ s0, stays_synced (k s0)) → stays_synced (st_get ≫= k).
Proof.
  intros Hk. apply spec_get. intros s0 _ HP. eapply spec_pre; [apply Hk|].
  by intros d c p (-> & -> & ->).
Qed.
Lemma stays_open i : stays_synced (open_jsonl i).
Proof.
  unfold open_jsonl. apply stays_get. intros s0. case_bool_decide; [apply stays_keeps, keeps_ret|].
  apply stays_bind; [apply stays_keeps, keeps_io|]. intros [].
  apply stays_bind.
  { apply spec_modify; [done|]. intros s Hs name b. simpl. fold (created i (files (disk s))).
    unfold created. destruct (files (disk s) !! jsonl_path_key i) eqn:Hi; [apply Hs|].
    intros [[<- <-]|[_ Hb]]%lookup_insert_Some; [simpl; lia|by apply Hs]. }
  intros []. apply stays_bind; [apply stays_keeps, keeps_io|]. intros [].
  apply stays_get. intros s1. apply stays_keeps, keeps_modify; done.
Qed.
Lemma stays_read_at i off len : stays_synced (read_jsonl_at i off len).
Proof.
  unfold read_jsonl_at. apply stays_bind; [apply stays_open|]. intros [].
  apply stays_keeps. eauto 10 with keeps.
Qed.
Lemma stays_spans i rows : stays_synced (read_spans i rows).
Proof.
  induction rows as [|[off len] rows IH]; [apply stays_keeps, keeps_ret|]. simpl.
  apply stays_bind; [apply stays_read_at|]. intros o. apply stays_bind; [done|].
  intros os. apply stays_keeps, keeps_ret.
Qed.
Lemma stays_rows i from to durable limit : stays_synced (read_rows i from to durable limit).
Proof.
  unfold read_rows. case_match; [apply stays_keeps, keeps_ret|].
  apply stays_bind; [apply stays_keeps, keeps_query|]. intros rows.
  apply stays_bind; [apply stays_spans|]. intros os. apply stays_keeps, keeps_ret.
Qed.
Lemma stays_range i from to : stays_synced (read_range i from to).
Proof.
  unfold read_range. apply stays_bind; [apply stays_keeps, keeps_watermark|]. intros w.
  apply stays_bind; [apply stays_rows|]. intros r. apply stays_keeps, keeps_ret.
Qed.
Lemma stays_page i from to limit : stays_synced (read_page i from to limit).
Proof.
  unfold read_page. apply stays_bind; [apply stays_keeps, keeps_watermark|]. intros w.
  apply stays_bind; [apply stays_rows|]. intros r. apply stays_keeps, keeps_ret.
Qed.
Lemma stays_snapshot i : stays_synced (snapshot i).
Proof.
  unfold snapshot. apply stays_bind; [apply stays_keeps, keeps_watermark|]. intros w.
  apply stays_get. intros s0. apply stays_bind.
  - case_match; [|apply stays_keeps, keeps_ret]. apply stays_bind; [apply stays_range|].
    intros os. apply stays_keeps, keeps_modify; done.
  - intros []. apply stays_keeps. eauto with keeps.
Qed.
Lemma stays_backfill i from : stays_synced (backfill i from).
Proof.
  unfold backfill. apply stays_bind; [apply stays_keeps, keeps_watermark|]. intros w.
  case_match; [apply stays_keeps, keeps_fail|]. case_match; [apply stays_range|apply stays_keeps, keeps_ret].
Qed.
Lemma stays_put_resume i r : stays_synced (put_resume i r).
Proof. apply stays_keeps. unfold put_resume. eauto 10 with keeps. Qed.
Lemma stays_get_resume i key : stays_synced (get_resume i key).
Proof. apply stays_keeps. unfold get_resume. eauto 10 with keeps. Qed.
Lemma stays_jmap {X Y} (f : X → Y) (c : jm X) : stays_synced c → stays_synced (jmap f c).
Proof. intros Hc. apply stays_bind; [done|]. intros x. apply stays_keeps, keeps_ret. Qed.
End synced_ops.

(** ** Histories *)

(** An acknowledged append. *)
Record Ack : Type := mkAck {
  ack_instance : string;
  ack_seq : Z;
  ack_event : string;
  ack_envelope : Envelope;
}.
Inductive phase : Type := Running (s : Store) | Down (d : Disk).

(** The observation the store makes of an envelope. *)
Definition request_obs (s : Store) (i : string) (e : Envelope) (m : Minted) : Obs :=
  observation_of e (default (mint_event m) (env_event_id e))
    (seq_of (disk s) i + 1)
    ((λ raw, blob_ref (mkLog ∅ ∅ (tbl_blobs (db (disk s))) ∅) raw (mint_object m)) <$> env_raw e).

(** What an append must bring: a new event id, a new object id, and an
    observation that fits into the file. *)
Record fresh_request (s : Store) (i : string) (e : Envelope) (m : Minted) : Prop := {
  fq_valid : valid_instance_id i = true;
  fq_event : map_Forall (λ _ r, row_event_id r ≠ default (mint_event m) (env_event_id e))
    (tbl_events (db (disk s)));
  fq_object : is_Some (env_raw e) → valid_id (mint_object m) = true ∧
    map_Forall (λ _ r, valid_id (row_object_id r) = true ∧ row_object_id r ≠ mint_object m)
      (tbl_blobs (db (disk s)));
  fq_room : byte_len (files (disk s) !!! jsonl_path_key i) + byte_len (record_of (request_obs s i e m))
    ≤ i64_max;
}.
Definition is_append (k : OpKind) : bool := match k with OpAppend _ _ _ => true | _ => false end.

(** The append that took [s] to [s'] put bytes into the file of [i] and did not
    index them. *)
Definition left_bytes (s s' : Store) (i : string) : Prop :=
  files (disk s') !!! jsonl_path_key i ≠ files (disk s) !!! jsonl_path_key i ∧
  seq_of (disk s') i = seq_of (disk s) i.

(** [life fp ph acks]: the store can be in phase [ph] after acknowledging
    [acks].  Every operation runs under any faults.  A store whose append failed
    goes on unless the append left bytes in the file that are not indexed; it
    can end after any operation, with or without losing power. *)
Inductive life (fp : FsyncPolicy) : phase → list Ack → Prop :=
| life_new : life fp (Down empty_disk) []
| life_open d acks names fs s :
    life fp (Down d) acks → lists_dir d names → open fp names d fs = (s, Ok tt) →
    life fp (Running s) acks
| life_open_failed d acks names fs s e d' :
    life fp (Down d) acks → lists_dir d names → open fp names d fs = (s, Err e) →
    crash (disk s) d' → life fp (Down d') acks
| life_append s acks i e m fs s' seq :
    life fp (Running s) acks → fresh_request s i e m →
    append i e m (set_faults (λ _, fs) s) = (s', Ok seq) →
    life fp (Running s') (mkAck i seq (default (mint_event m) (env_event_id e)) e :: acks)
| life_append_clean s acks i e m fs s' x :
    life fp (Running s) acks → fresh_request s i e m →
    append i e m (set_faults (λ _, fs) s) = (s', Err x) → ¬ left_bytes s s' i →
    life fp (Running s') acks
| life_append_failed s acks i e m fs s' x d' :
    life fp (Running s) acks → fresh_request s i e m →
    append i e m (set_faults (λ _, fs) s) = (s', Err x) → crash (disk s') d' →
    life fp (Down d') acks
| life_serve s acks k fs s' r :
    life fp (Running s) acks → is_append k = false → op_ok k empty_log →
    handle k (set_faults (λ _, fs) s) = (s', r) → life fp (Running s') acks
| life_crash s acks d' :
    life fp (Running s) acks → crash (disk s) d' → life fp (Down d') acks.

(** Each acknowledged observation is in the log at its sequence number. *)
Definition acked (A : Log) (acks : list Ack) : Prop :=
  ∀ a, a ∈ acks → 1 ≤ ack_seq a ∧ ∃ r, log_of A (ack_instance a) !! Z.to_nat (ack_seq a - 1)
    = Some (observation_of (ack_envelope a) (ack_event a) (ack_seq a) r).
Lemma acked_prefix A A' acks :
  (∀ i, log_of A i `prefix_of` log_of A' i) → acked A acks → acked A' acks.
Proof.
  intros Hp Ha a Hin. destruct (Ha a Hin) as (H1 & r & Hr). split; [done|]. exists r.
  destruct (Hp (ack_instance a)) as [k ->]. by apply lookup_app_l_Some.
Qed.
Lemma acked_logs A A' acks : logs A' = logs A → acked A acks → acked A' acks.
Proof. intros HL. apply acked_prefix. intros i. unfold log_of. by rewrite HL. Qed.

(** The store of a phase. *)
Definition phase_ok (fp : FsyncPolicy) (ph : phase) (acks : list Ack) : Prop :=
  match ph with
  | Running s => ∃ A, live A s ∧ fully_synced (disk s) ∧ fsync s = fp ∧ acked A acks
  | Down d => ∃ A, disk_ok A d ∧ log_small A ∧ fully_synced d ∧ acked A acks
  end.

Lemma live_file A s i : live A s → files (disk s) !!! jsonl_path_key i = lines (log_of A i).
Proof.
  intros [HR _]. rewrite lookup_total_alt. destruct (files (disk s) !! jsonl_path_key i) as [b|] eqn:Hb; simpl.
  - by apply (rep_whole _ _ _ _ HR).
  - pose proof (disk_files _ _ (rep_disk _ _ _ _ HR) i) as Hf. unfold file_ok in Hf.
    rewrite Hb in Hf. by rewrite Hf.
Qed.
Lemma live_seq A s i : live A s → seq_of (disk s) i = Z.of_nat (length (log_of A i)).
Proof. intros [HR _]. by eapply rep_seq_of. Qed.
Lemma fresh_request_fresh A s i e m :
  live A s → fresh_request s i e m → append_fresh A i e m.
Proof.
  intros Hl [F1 F2 F3 F4]. pose proof Hl as [HR HS]. split; [split; [done| |]|].
  3:{ intros k o [n Hn]%list_elem_of_lookup.
    assert (tbl_events (db (disk s)) !! (k, Z.of_nat n + 1) = Some (row_of A k n o)) as Hrow.
    { apply (rep_events _ _ _ _ HR). eauto. }
    exact (F2 _ _ Hrow). }
  - intros Hraw. destruct (F3 Hraw) as [? ?]. split; [done|]. by rewrite <- (rep_blobs _ _ _ _ HR).
  - rewrite lines_snoc, byte_len_app, <- (live_file A s i Hl).
    assert (request_obs s i e m = append_obs A i e m) as <-; [|done].
    unfold request_obs, append_obs, blob_ref. simpl. by rewrite (rep_blobs _ _ _ _ HR), (live_seq A s).
Qed.

Lemma crash_down fp A A0 s d' acks :
  disk_ok A (disk s) → log_small A → acked A0 acks →
  (∀ i, log_of A0 i `prefix_of` log_of A i) →
  (∀ i, (length (lines (log_of A0 i)) ≤ synced (disk s) !!! jsonl_path_key i)%nat) →
  crash (disk s) d' → phase_ok fp (Down d') acks.
Proof.
  intros Hd HS Ha Hpre Hsync Hc. exists (surviving A d'). split_and!.
  - by eapply crash_disk_ok.
  - intros i. rewrite log_of_surviving. etrans; [apply lines_take_le|apply HS].
  - by eapply crash_fully_synced.
  - eapply acked_prefix; [|exact Ha]. intros i. rewrite log_of_surviving.
    destruct (Hpre i) as [K HK].
    assert (take (length (log_of A0 i)) (log_of A i) = log_of A0 i) as Htake
      by (by rewrite HK, take_app_length).
    pose proof (crash_keeps A _ _ i (length (log_of A0 i)) Hd Hc) as Hk.
    rewrite Htake in Hk. specialize (Hk ltac:(rewrite HK, length_app; lia) (Hsync i)).
    rewrite HK, take_app, (take_ge (log_of A0 i)) by lia. by eexists.
Qed.

(** A running store that crashes between two operations. *)
Lemma live_synced A s i :
  live A s → fully_synced (disk s) →
  (length (lines (log_of A i)) ≤ synced (disk s) !!! jsonl_path_key i)%nat.
Proof.
  intros [HR _] HF. pose proof (disk_files _ _ (rep_disk _ _ _ _ HR) i) as Hf. unfold file_ok in Hf.
  destruct (files (disk s) !! jsonl_path_key i) as [b|] eqn:Hb.
  - rewrite <- (rep_whole _ _ _ _ HR _ _ Hb). by apply HF.
  - rewrite Hf. simpl. lia.
Qed.

Lemma open_phase fp d acks names fs :
  phase_ok fp (Down d) acks → lists_dir d names →
  match open fp names d fs with
  | (s, Ok _) => phase_ok fp (Running s) acks
  | (s, Err _) => phase_ok fp (Down (disk s)) acks
  end.
Proof.
  intros (A & Hd & HS & HF & Ha) Hdir.
  pose proof (open_recovers A fp names d fs Hd HS Hdir) as Ho.
  assert (holds (fs = []) fp ∅ [] (on_files all_synced) (fresh_store fp d fs)) as Hpre by (by split_and!).
  pose proof (recover_synced (fs = []) fp ∅ [] names _ Hpre) as Hs.
  unfold open in *. destruct (recover names (fresh_store fp d fs)) as [s [[]|e]]; destruct Hs as [Hs _].
  - destruct Ho as [HR Hfp]. exists (recovered_log A (db (disk s))). by split_and!.
  - destruct Ho as [_ Hd']. exists A. by split_and!.
Qed.

Lemma prefix_append_done A i e m k : log_of A k `prefix_of` log_of (append_done A i e m) k.
Proof. rewrite append_done_log_of. by apply prefix_app_r. Qed.

(** What was synced of each file before an append. *)
Definition lengths (s : Store) (name : string) : nat := length (files (disk s) !!! name).
Lemma lengths_durable A s i fs :
  live A s → fully_synced (disk s) →
  holds (fs = []) (fsync s) (subscribers s) (channels s) (on_files (durable (lengths s) i)) (set_faults (λ _, fs) s).
Proof.
  intros _ HF. split; [|done]. intros name. unfold lengths. split_and!; [|done|done].
  rewrite lookup_total_alt. destruct (files (disk s) !! name) as [b|] eqn:Hb; [|simpl; lia]. by apply HF.
Qed.
(** After an append that failed, every log is still synced. *)
Lemma durable_keeps_logs A s i fs sy k :
  live A s → durable (lengths s) i fs sy → (length (lines (log_of A k)) ≤ sy !!! jsonl_path_key k)%nat.
Proof.
  intros [HR _] Hdur. destruct (Hdur (jsonl_path_key k)) as (Hn0 & _ & _). unfold lengths in Hn0.
  rewrite lookup_total_alt in Hn0. pose proof (disk_files _ _ (rep_disk _ _ _ _ HR) k) as Hfk. unfold file_ok in Hfk.
  destruct (files (disk s) !! jsonl_path_key k) as [b|] eqn:Hb; simpl in Hn0.
  - by rewrite <- (rep_whole _ _ _ _ HR _ _ Hb).
  - rewrite Hfk. simpl. lia.
Qed.
Lemma durable_fully_synced A A' s s1 i :
  live A s → live A' s1 → logs A' = logs A → durable (lengths s) i (files (disk s1)) (synced (disk s1)) → fully_synced (disk s1).
Proof.
  intros Hl Hl' HL Hdur name b Hb. destruct (strip_jsonl name) eqn:Hstrip.
  - destruct (disk_names _ _ (rep_disk _ _ _ _ (live_rep _ _ Hl')) name) as (k & -> & _);
      [by rewrite Hb|by rewrite Hstrip|].
    rewrite (rep_whole _ _ _ _ (live_rep _ _ Hl') _ _ Hb). unfold log_of. rewrite HL.
    exact (durable_keeps_logs A s i _ _ k Hl Hdur).
  - destruct (Hdur name) as (H1 & _ & H3).
    rewrite (lookup_total_correct _ _ _ Hb) in H3. rewrite H3; [done|].
    intros ->. by rewrite strip_jsonl_path in Hstrip.
Qed.
Lemma synced_fully_synced fp n0 i d :
  fp ≠ FsyncNever → durable_synced fp n0 i (files d) (synced d) → fully_synced d.
Proof.
  intros Hfp [Hdur Hsync] name b Hb. destruct (decide (name = jsonl_path_key i)) as [->|Hne].
  - specialize (Hsync Hfp). by rewrite (lookup_total_correct _ _ _ Hb) in Hsync.
  - destruct (Hdur name) as (H1 & _ & H3). specialize (H3 Hne).
    rewrite (lookup_total_correct _ _ _ Hb) in H3. lia.
Qed.
(** The acknowledgement an append adds. *)
Lemma acked_append A i e m acks :
  env_instance_id e = i → acked A acks →
  acked (append_done A i e m)
    (mkAck i (Z.of_nat (length (log_of A i)) + 1) (default (mint_event m) (env_event_id e)) e :: acks).
Proof.
  intros Hie Ha a [->|Hin]%elem_of_cons.
  - cbn [ack_instance ack_seq ack_event ack_envelope]. split; [lia|].
    replace (Z.to_nat _) with (length (log_of A i)) by lia.
    rewrite append_done_log_of, decide_True, list_lookup_middle by done. by eexists.
  - eapply acked_prefix; [apply prefix_append_done|exact Ha|done].
Qed.
Lemma append_answer A i e m seq :
  spec_step (OpAppend i e m) A 0 = (append_done A i e m, 0%nat, Ok (OutSeq seq)) →
  seq = Z.of_nat (length (log_of A i)) + 1 ∧ env_instance_id e = i.
Proof.
  cbn [spec_step]. case_decide as Hne; [done|].
  assert (env_instance_id e = i) by (by destruct (decide (env_instance_id e = i))).
  unfold spec_append. destruct (event_is_new _ _), (jids A !! i); try case_decide; intros; by simplify_eq.
Qed.

(** What is synced after an append: all of the file, unless it failed before the
    index was advanced. *)
Lemma append_files A s i e m fs :
  live A s → fully_synced (disk s) → append_fresh A i e m →
  match append_head i e m (set_faults (λ _, fs) s) with
  | (s1, Ok _) => durable_synced (fsync s) (lengths s) i (files (disk s1)) (synced (disk s1))
  | (s1, Err _) =>
      durable (lengths s) i (files (disk s1)) (synced (disk s1)) ∧
      (seq_of (disk s1) i = Z.of_nat (length (log_of A i)) ∨
       durable_synced (fsync s) (lengths s) i (files (disk s1)) (synced (disk s1)))
  end.
Proof.
  intros Hl HF HA. pose proof (lengths_durable A s i fs Hl HF) as Hpre. set (s0 := set_faults (λ _, fs) s) in *.
  assert (live A s0) as Hl0 by (by apply (live_side A s)).
  pose proof (append_write_live A i e m s0 (proj1 HA) Hl0) as Hw. unfold append_head. rewrite st_bind_eq.
  pose proof (durable_append_write _ _ _ _ (lengths s) i e m s0 Hpre) as Hdur.
  destruct (append_write i e m s0) as [s1 [r|x]].
  - pose proof (keeps_append_commit _ _ _ _ i r _ s1 Hdur) as Hc.
    destruct (append_commit i r s1) as [s2 [q|x]]; destruct Hc as [Hc _]; [exact Hc|].
    split; [apply Hc|by right].
  - destruct Hdur as [Hdur _]. split; [done|left].
    destruct Hw as (_ & _ & [[_ HR]|[_ [(A' & HL & HR)|Ht]]]).
    + by eapply rep_seq_of.
    + rewrite (rep_seq_of _ _ _ _ i HR). unfold log_of. by rewrite HL.
    + apply Ht, HA.
Qed.

(** A failed append that left a working store. *)
Lemma append_left_running fp A A' s s1 i e m acks :
  fp ≠ FsyncNever → live A s → fsync s = fp → acked A acks →
  logs A' = logs A ∨ logs A' = logs (append_done A i e m) → live A' s1 → fsync s1 = fsync s →
  durable (lengths s) i (files (disk s1)) (synced (disk s1)) →
  seq_of (disk s1) i = Z.of_nat (length (log_of A i)) ∨
    durable_synced (fsync s) (lengths s) i (files (disk s1)) (synced (disk s1)) →
  phase_ok fp (Running s1) acks.
Proof.
  intros Hfp Hl <- Ha HL Hl' Hf' Hdur Hsync. exists A'. split; [done|]. split; [|split; [done|]].
  - destruct Hsync as [Hseq|Hsync]; [|by eapply synced_fully_synced].
    destruct HL as [HL|HL]; [by apply (durable_fully_synced A A' s s1 i)|].
    rewrite (live_seq A' s1 i Hl') in Hseq. unfold log_of in Hseq at 1. rewrite HL in Hseq.
    fold (log_of (append_done A i e m) i) in Hseq. rewrite append_done_log_of, decide_True, length_app in Hseq by done.
    simpl in Hseq. lia.
  - destruct HL as [HL|HL]; [by apply (acked_logs A)|].
    apply (acked_logs (append_done A i e m)); [done|]. eapply acked_prefix; [apply prefix_append_done|exact Ha].
Qed.
(** A failed append that left unindexed bytes, followed by a crash. *)
Lemma append_torn_crash fp A s s1 i e m acks d' :
  live A s → append_fresh A i e m → acked A acks → append_torn A i e m (disk s1) →
  (∀ k, (length (lines (log_of A k)) ≤ synced (disk s1) !!! jsonl_path_key k)%nat) →
  crash (disk s1) d' → phase_ok fp (Down d') acks.
Proof.
  intros Hl HA Ha [_ (A' & Hd' & HL)] Hsync Hc. rewrite <- append_done_logs in HL.
  destruct HL as [HL|HL]; eapply (crash_down _ A' A); try done.
  - apply (small_logs A); [done|by apply Hl].
  - intros k. unfold log_of. by rewrite HL.
  - apply (small_logs (append_done A i e m)); [done|]. apply append_small; [by apply Hl|done].
  - intros k. change (log_of A k `prefix_of` default [] (logs A' !! k)). rewrite HL.
    apply (prefix_append_done A i e m).
Qed.
Lemma running_crash fp s d' acks : phase_ok fp (Running s) acks → crash (disk s) d' → phase_ok fp (Down d') acks.
Proof.
  intros (A & Hl & HF & Hsf & Hack) Hc.
  eapply (crash_down fp A A); try done; [by apply Hl|by apply Hl|]. intros i. by apply live_synced.
Qed.

Lemma append_phase fp s acks i e m fs :
  fp ≠ FsyncNever → phase_ok fp (Running s) acks → fresh_request s i e m →
  match append i e m (set_faults (λ _, fs) s) with
  | (s', Ok seq) => phase_ok fp (Running s')
      (mkAck i seq (default (mint_event m) (env_event_id e)) e :: acks)
  | (s', Err _) => (¬ left_bytes s s' i → phase_ok fp (Running s') acks) ∧
      ∀ d', crash (disk s') d' → phase_ok fp (Down d') acks
  end.
Proof.
  intros Hfp (A & Hl & HF & Hsf & Ha) Hfresh.
  pose proof (fresh_request_fresh A s i e m Hl Hfresh) as HA.
  pose proof (append_files A s i e m fs Hl HF HA) as Hfiles. set (s0 := set_faults (λ _, fs) s) in *.
  pose proof (append_live A i e m s0 HA (live_side A s s0 eq_refl eq_refl eq_refl Hl)) as Hap. rewrite append_split in *.
  destruct (append_head i e m s0) as [s1 [[seq o]|x]]; cbn [append_tail] in *.
  - destruct Hap as (Hstep & Hl' & Hf' & _). apply append_answer in Hstep as [-> Hie].
    assert (disk (broadcast i o s1) = disk s1) as Hbd by (unfold broadcast; by case_match).
    exists (append_done A i e m). split_and!; [done| |by rewrite Hf'|by apply acked_append].
    rewrite Hbd, Hsf in *. by eapply synced_fully_synced.
  - destruct Hfiles as [Hdur Hsync].
    assert (∀ A', logs A' = logs A ∨ logs A' = logs (append_done A i e m) → live A' s1 → fsync s1 = fsync s →
      phase_ok fp (Running s1) acks) as Hrun by (intros; by eapply (append_left_running fp A A')).
    destruct Hap as [(_ & Hl' & (Hf' & _) & _)|(_ & [(A' & HL & Hl' & Hf' & _)|Htorn])].
    + assert (phase_ok fp (Running s1) acks) as Hp by (apply (Hrun A); [by left|done|done]).
      split; [done|]. intros d'. by apply running_crash.
    + assert (phase_ok fp (Running s1) acks) as Hp by (by apply (Hrun A')).
      split; [done|]. intros d'. by apply running_crash.
    + pose proof Htorn as [[Hb Hq] _]. split.
      { intros Hn. exfalso. apply Hn. split; [by rewrite (live_file A s i Hl)|by rewrite (live_seq A s i Hl)]. }
      intros d'. apply (append_torn_crash fp A s s1 i e m); try done.
      intros k. exact (durable_keeps_logs A s i _ _ k Hl Hdur).
Qed.

(** Reading, following and cursors leave the log alone, failures included. *)
Lemma serve_live A k s :
  is_append k = false → op_ok k empty_log → live A s →
  ∃ A', logs A' = logs A ∧ live A' (handle k s).1 ∧ fsync (handle k s).1 = fsync s.
Proof.
  intros Hk Hok Hl. destruct k as [i e m|i from to|i from to limit|i|i from|i r|i key|i|];
    [done|..]; cbn [handle op_ok] in *; rewrite ?jmap_eq.
  - destruct Hok as [Hv Hto].
    pose proof (reads_live A (read_range i from to) _ s
      (λ sub chs, reads_range _ _ sub chs A i from to Hv (live_small _ _ Hl i) Hto) Hl) as Hr.
    exists A. destruct (read_range i from to s) as [s' [os|x]]; unfold same_side in Hr; naive_solver.
  - destruct Hok as [Hv Hto].
    pose proof (reads_live A (read_page i from to limit) _ s
      (λ sub chs, reads_page _ _ sub chs A i from to limit Hv (live_small _ _ Hl i) Hto) Hl) as Hr.
    exists A. destruct (read_page i from to limit s) as [s' [os|x]]; unfold same_side in Hr; naive_solver.
  - pose proof (reads_live A (snapshot i) _ s
      (λ sub chs, reads_snapshot _ _ sub chs A i Hok (live_small _ _ Hl i)) Hl) as Hr.
    exists A. destruct (snapshot i s) as [s' [os|x]]; unfold same_side in Hr; naive_solver.
  - pose proof (follow_live A i from s Hok Hl) as Hr. cbn zeta in Hr. exists A.
    destruct (follow i from s) as [s' [[h c]|x]]; unfold same_side in Hr; naive_solver.
  - pose proof (put_resume_live A i r s Hl) as Hr.
    destruct (put_resume i r s) as [s' [[]|x]]; unfold same_side in Hr.
    + exists (log_put_cursor i r A). naive_solver.
    + exists A. naive_solver.
  - pose proof (get_resume_live A i key s Hl) as Hr. exists A.
    destruct (get_resume i key s) as [s' [q|x]]; unfold same_side in Hr; naive_solver.
  - pose proof (reads_live A (watermark i) _ s
      (λ sub chs, reads_watermark _ _ sub chs A i (live_small _ _ Hl i)) Hl) as Hr.
    exists A. destruct (watermark i s) as [s' [os|x]]; unfold same_side in Hr; naive_solver.
  - by exists A.
Qed.

Lemma stays_run {X} (c : jm X) s :
  (∀ nf fp sub chs, stays_synced nf fp sub chs c) → fully_synced (disk s) → fully_synced (disk (c s).1).
Proof.
  intros Hc HF. specialize (Hc (faults s = []) (fsync s) (subscribers s) (channels s) s).
  destruct (c s) as [s' [x|e]]; destruct Hc as [Hc _]; by try split_and!.
Qed.
Lemma serve_synced k s :
  is_append k = false → fully_synced (disk s) → fully_synced (disk (handle k s).1).
Proof.
  intros Hk HF. destruct k as [i e m|i from to|i from to limit|i|i from|i r|i key|i|]; [done|..];
    cbn [handle].
  - apply stays_run; [|done]. intros. apply stays_jmap, stays_range.
  - apply stays_run; [|done]. intros. apply stays_jmap, stays_page.
  - apply stays_run; [|done]. intros. apply stays_jmap, stays_snapshot.
  - rewrite jmap_eq. unfold follow. fold (subscribe i s).
    pose proof (stays_run (backfill i from) (subscribe i s)
      (λ nf fp sub chs, stays_backfill nf fp sub chs i from) HF) as Hb.
    by destruct (backfill i from (subscribe i s)) as [s' [h|e]].
  - apply stays_run; [|done]. intros. apply stays_jmap, stays_put_resume.
  - apply stays_run; [|done]. intros. apply stays_jmap, stays_get_resume.
  - apply stays_run; [|done]. intros. apply stays_jmap, stays_keeps, keeps_watermark.
  - done.
Qed.

Lemma life_ok fp ph acks : fp ≠ FsyncNever → life fp ph acks → phase_ok fp ph acks.
Proof.
  intros Hfp Hlife. induction Hlife as
    [|d acks names fs s _ IH Hdir Ho|d acks names fs s e d' _ IH Hdir Ho Hc
     |s acks i e m fs s' seq _ IH Hq Ha|s acks i e m fs s' x _ IH Hq Ha Hb|s acks i e m fs s' x d' _ IH Hq Ha Hc
     |s acks k fs s' r _ IH Hk Hok Hh|s acks d' _ IH Hc].
  - exists empty_log. split_and!; [apply empty_disk_ok|apply empty_log_small|done|].
    by intros a ?%not_elem_of_nil.
  - pose proof (open_phase fp d acks names fs IH Hdir) as Hp. by rewrite Ho in Hp.
  - pose proof (open_phase fp d acks names fs IH Hdir) as Hp. rewrite Ho in Hp.
    destruct Hp as (A & Hd & HS & HF & Hack). eapply (crash_down fp A A); try done.
    intros i. pose proof (disk_files _ _ Hd i) as Hf. unfold file_ok in Hf.
    destruct (files (disk s) !! jsonl_path_key i) as [b|] eqn:Hb.
    + destruct Hf as (torn & -> & _). specialize (HF _ _ Hb). rewrite length_app in HF. lia.
    + rewrite Hf. simpl. lia.
  - pose proof (append_phase fp s acks i e m fs Hfp IH Hq) as Hp. by rewrite Ha in Hp.
  - pose proof (append_phase fp s acks i e m fs Hfp IH Hq) as Hp. rewrite Ha in Hp. by apply Hp.
  - pose proof (append_phase fp s acks i e m fs Hfp IH Hq) as Hp. rewrite Ha in Hp. by apply Hp.
  - destruct IH as (A & Hl & HF & Hsf & Hack). set (s0 := set_faults (λ _, fs) s) in *.
    assert (live A s0) as Hl0 by (by apply (live_side A s)).
    destruct (serve_live A k s0 Hk Hok Hl0) as (A' & HL & Hl' & Hf').
    pose proof (serve_synced k s0 Hk HF) as HF'. rewrite Hh in *. cbn [fst] in *.
    exists A'. split_and!; try done; [by rewrite Hf'|]. by apply (acked_logs A).
  - by eapply running_crash.
Qed.

Lemma read_one (L : list Obs) seq o :
  1 ≤ seq ≤ i64_max → L !! Z.to_nat (seq - 1) = Some o → log_read L seq (Some seq) (-1) = [o].
Proof.
  intros Hs Ho. unfold log_read, limited, slice, last_read. simpl.
  rewrite (proj2 (Z.ltb_ge _ _)), Z.max_l by lia.
  pose proof (lookup_lt_Some _ _ _ Ho).
  replace (Z.to_nat seq) with (S (Z.to_nat (seq - 1))) by lia.
  rewrite (take_S_r _ _ _ Ho), drop_app_ge; rewrite length_take; [|lia].
  by rewrite Nat.min_l, Nat.sub_diag by lia.
Qed.

End crash.
