(* ===== verification/JournalWitness.v ===== *)
(** * A concrete codec, and witnesses for the journal

    The laws that [Journal] assumes of serde_json and of the identifiers hold of
    a concrete codec: an observation is a countable value, written as the digits
    of its code.  With it the theorems of [JournalSpec] and [JournalCrash] are
    applied to concrete runs, and the two histories that break the log are
    executed. *)
From stdpp Require Import base list gmap strings numbers sorting countable finite pretty.
From S2P Require Import Prelude Text Json Cover FileTail NodeStore Projection Journal.
From S2P Require Import JournalLog JournalRecover JournalRead JournalSpec JournalCrash.
Local Open Scope Z_scope.

(** ** Observations are countable *)

Ltac enumerate xs :=
  refine {| finite.enum := xs |};
  [apply (bool_decide_unpack _); vm_compute; exact I
  |intros x; apply (bool_decide_unpack _); destruct x; vm_compute; exact I].

#[export] Instance InstanceLifecycle_finite : Finite InstanceLifecycle.
Proof. enumerate [Requested; Preparing; Starting; Ready; Closing; Exited; Failed; LifecycleUnknown; Reconciling]. Defined.
#[export] Instance Activity_finite : Finite Activity.
Proof. enumerate [Idle; Working; WaitingInteraction; Draining]. Defined.
#[export] Instance Connectivity_finite : Finite Connectivity.
Proof. enumerate [Connected; Disconnected; ConnReconciling]. Defined.
#[export] Instance MessageRole_finite : Finite MessageRole.
Proof. enumerate [RoleUser; RoleAssistant; RoleSystem]. Defined.
#[export] Instance MessagePhase_finite : Finite MessagePhase.
Proof. enumerate [PhaseInput; PhaseCommentary; PhaseFinal; PhaseUnknown]. Defined.
#[export] Instance ToolCallState_finite : Finite ToolCallState.
Proof. enumerate [ToolProposed; ToolRunning; ToolStateUnknown]. Defined.
#[export] Instance ToolOutcome_finite : Finite ToolOutcome.
Proof. enumerate [ToolSucceeded; ToolFailed; ToolDenied; ToolCancelled; ToolOutcomeUnknown]. Defined.
#[export] Instance InteractionState_finite : Finite InteractionState.
Proof. enumerate [IntPending; AnswerCommitted; Resolved; IntExpired; Invalidated; IntUnknown; IntReconciling]. Defined.
#[export] Instance SourceDelivery_finite : Finite SourceDelivery.
Proof. enumerate [DeliveryLive; DeliveryReplay; DeliveryUnknown]. Defined.
#[export] Instance LifecycleTopic_finite : Finite LifecycleTopic.
Proof. enumerate [TopicSession; TopicTurn; TopicHook; TopicSubagent; TopicTask; TopicPlan; TopicConfiguration; TopicPermission; TopicDiagnostic; TopicReconciliation]. Defined.
#[export] Instance Severity_finite : Finite Severity.
Proof. enumerate [SevInfo; SevWarning; SevError]. Defined.
#[export] Instance Knowledge_countable {T} `{Countable T} : Countable (Knowledge T).
Proof.
  refine (inj_countable' (A := (T) + ((string) + ((unit))))
    (λ v, match v with
    | Known x => inl x
    | Unknown y => inr (inl y)
    | NotApplicable => inr (inr (tt))
    end)
    (λ v, match v with
    | inl x => Known x
    | inr (inl y) => Unknown y
    | inr (inr (tt)) => NotApplicable
    end) _).
  by intros [].
Defined.
#[export] Instance RawRef_countable : Countable RawRef.
Proof.
  refine (inj_countable' (λ r, (ref_object_id r, ref_offset r, ref_length r, ref_digest r, ref_media_type r, ref_redaction r))
    (λ '(x0, x1, x2, x3, x4, x5), mkRawRef x0 x1 x2 x3 x4 x5) _).
  by intros [].
Defined.
#[export] Instance Block_countable : Countable Block.
Proof.
  refine (inj_countable' (A := (string) + ((string)))
    (λ v, match v with
    | BText t => inl t
    | BOther k => inr (k)
    end)
    (λ v, match v with
    | inl t => BText t
    | inr (k) => BOther k
    end) _).
  by intros [].
Defined.
#[export] Instance InteractionRequestKey_countable : Countable InteractionRequestKey.
Proof.
  refine (inj_countable' (λ r, (rk_native r, rk_process_generation r, rk_run_generation r, rk_connection_epoch r))
    (λ '(x0, x1, x2, x3), mkRequestKey x0 x1 x2 x3) _).
  by intros [].
Defined.
#[export] Instance Interaction_countable : Countable Interaction.
Proof.
  refine (inj_countable' (λ r, (int_id r, int_request_key r, int_state r))
    (λ '(x0, x1, x2), mkInteraction x0 x1 x2) _).
  by intros [].
Defined.
#[export] Instance LifecycleEntity_countable : Countable LifecycleEntity.
Proof.
  refine (inj_countable' (A := (InstanceLifecycle * Knowledge Activity * Connectivity * option string) + ((Interaction) + ((string))))
    (λ v, match v with
    | LEInstance a b c d => inl (a, b, c, d)
    | LEInteraction i => inr (inl i)
    | LEOther k => inr (inr (k))
    end)
    (λ v, match v with
    | inl (a, b, c, d) => LEInstance a b c d
    | inr (inl i) => LEInteraction i
    | inr (inr (k)) => LEOther k
    end) _).
  by intros [].
Defined.
#[export] Instance EntityLifecycle_countable : Countable EntityLifecycle.
Proof.
  refine (inj_countable' (λ r, (ent_state r, ent_reason_code r, ent_value r))
    (λ '(x0, x1, x2), mkEntity x0 x1 x2) _).
  by intros [].
Defined.
#[export] Instance NativeEvent_countable : Countable NativeEvent.
Proof.
  refine (inj_countable' (λ r, (nat_topic r, nat_name r, nat_status r, nat_related_ids r, nat_severity r))
    (λ '(x0, x1, x2, x3, x4), mkNativeEvent x0 x1 x2 x3 x4) _).
  by intros [].
Defined.
#[export] Instance LifecyclePayload_countable : Countable LifecyclePayload.
Proof.
  refine (inj_countable' (A := (EntityLifecycle) + ((NativeEvent)))
    (λ v, match v with
    | LEntity e => inl e
    | LNative n => inr (n)
    end)
    (λ v, match v with
    | inl e => LEntity e
    | inr (n) => LNative n
    end) _).
  by intros [].
Defined.
#[export] Instance Payload_countable : Countable Payload.
Proof.
  refine (inj_countable' (A := (string * MessageRole * MessagePhase * list Block) + ((string * option string) + ((string * Knowledge string * ToolCallState) + ((string * ToolOutcome * list Block) + ((Interaction) + ((string) + ((string) + ((LifecyclePayload) + ((unit) + ((RawRef) + ((string))))))))))))
    (λ v, match v with
    | PMessage a b c d => inl (a, b, c, d)
    | PThought a b => inr (inl (a, b))
    | PToolCall a b c => inr (inr (inl (a, b, c)))
    | PToolResult a b c => inr (inr (inr (inl (a, b, c))))
    | PInteractionRequested i => inr (inr (inr (inr (inl i))))
    | PInteractionAnswered a => inr (inr (inr (inr (inr (inl a)))))
    | PInteractionExpired a => inr (inr (inr (inr (inr (inr (inl a))))))
    | PLifecycle l => inr (inr (inr (inr (inr (inr (inr (inl l)))))))
    | PWorkflowRun => inr (inr (inr (inr (inr (inr (inr (inr (inl tt))))))))
    | POpaque r => inr (inr (inr (inr (inr (inr (inr (inr (inr (inl r)))))))))
    | POther k => inr (inr (inr (inr (inr (inr (inr (inr (inr (inr (k))))))))))
    end)
    (λ v, match v with
    | inl (a, b, c, d) => PMessage a b c d
    | inr (inl (a, b)) => PThought a b
    | inr (inr (inl (a, b, c))) => PToolCall a b c
    | inr (inr (inr (inl (a, b, c)))) => PToolResult a b c
    | inr (inr (inr (inr (inl i)))) => PInteractionRequested i
    | inr (inr (inr (inr (inr (inl a))))) => PInteractionAnswered a
    | inr (inr (inr (inr (inr (inr (inl a)))))) => PInteractionExpired a
    | inr (inr (inr (inr (inr (inr (inr (inl l))))))) => PLifecycle l
    | inr (inr (inr (inr (inr (inr (inr (inr (inl tt)))))))) => PWorkflowRun
    | inr (inr (inr (inr (inr (inr (inr (inr (inr (inl r))))))))) => POpaque r
    | inr (inr (inr (inr (inr (inr (inr (inr (inr (inr (k)))))))))) => POther k
    end) _).
  by intros [].
Defined.
#[export] Instance Obs_countable : Countable Obs.
Proof.
  refine (inj_countable' (λ r, (obs_event_id r, obs_journal_id r, obs_instance_id r, obs_host_id r, obs_seq r, obs_delivery r, obs_raw_ref r, obs_rest r, obs_body r))
    (λ '(x0, x1, x2, x3, x4, x5, x6, x7, x8), mkObs x0 x1 x2 x3 x4 x5 x6 x7 x8) _).
  by intros [].
Defined.

(** ** The codec *)

Fixpoint digits (p : positive) : list Z :=
  match p with
  | xH => []
  | xO p => 48 :: digits p
  | xI p => 49 :: digits p
  end.
Fixpoint undigits (b : list Z) : option positive :=
  match b with
  | [] => Some xH
  | x :: r => if x =? 48 then xO <$> undigits r
              else if x =? 49 then xI <$> undigits r else None
  end.
Lemma undigits_digits p : undigits (digits p) = Some p.
Proof. induction p as [p IH|p IH|]; simpl; by rewrite ?IH. Qed.
Lemma digits_no_newline p : 10 ∉ digits p.
Proof.
  induction p as [p IH|p IH|]; simpl; [..|apply not_elem_of_nil]; by apply not_elem_of_cons.
Qed.

#[export] Instance w_codec : Codec := {
  encode_obs o := Some (123 :: digits (encode o));
  decode_obs b := match b with 123 :: r => undigits r ≫= decode | _ => None end;
  encode_projections _ := Some "{}";
  valid_id _ := true;
  valid_instance_id k := bool_decide (strip_jsonl k = None);
  sha256 b := b;
  codec_request_key := w_request_key_json;
}.
#[export] Instance w_codec_laws : CodecLaws.
Proof.
  split.
  - intros o. by eexists.
  - intros p. by eexists.
  - intros o b [= <-]. simpl. rewrite undigits_digits. simpl. by rewrite countable.decode_encode.
  - intros o b [= <-]. split; [|done]. apply not_elem_of_cons. split; [done|]. apply digits_no_newline.
  - intros k Hk. by apply bool_decide_eq_true in Hk.
Qed.

(** ** Concrete runs *)

Definition w_env (event : string) (b : Payload) : Envelope :=
  mkEnvelope "obj_j" "ins_a" "hst_h" DeliveryLive "" (Some event) b None.
Definition w_mint : Minted := mkMinted "evt_fresh" "obj_o" "u".
Definition w_fresh : Store := fresh_store FsyncData empty_disk [].

(** What an append must bring is decidable for a concrete log. *)
Lemma append_fits_dec A i e m :
  valid_instance_id i = true → env_raw e = None →
  (byte_len (lines (log_of A i ++ [append_obs A i e m])) <=? i64_max) = true →
  append_fits A i e m.
Proof. intros H1 H2 H3. split; [done|rewrite H2; by intros [? ?]|]. by apply Z.leb_le. Qed.
Lemma append_fresh_dec A i e m :
  valid_instance_id i = true → env_raw e = None →
  (byte_len (lines (log_of A i ++ [append_obs A i e m])) <=? i64_max) = true →
  event_is_new A (default (mint_event m) (env_event_id e)) = true →
  append_fresh A i e m.
Proof.
  intros H1 H2 H3 H4. split; [by apply append_fits_dec|].
  by destruct (event_is_new_spec A (default (mint_event m) (env_event_id e))).
Qed.

Definition w_before : list Event :=
  [EvOp (OpAppend "ins_a" (w_env "evt_1" (PThought "t1" None)) w_mint);
   EvOp (OpAppend "ins_a" (w_env "evt_2" (PMessage "m" RoleUser PhaseInput [BText "hi"])) w_mint)].
Definition w_after : list Event :=
  [EvRecv 0; EvOp (OpAppend "ins_a" (w_env "evt_3" PWorkflowRun) w_mint);
   EvOp (OpReadPage "ins_a" 2 None 1); EvOp (OpSnapshot "ins_a"); EvDrop 0].
Definition w_events : list Event := w_before ++ EvOp (OpFollow "ins_a" 2) :: w_after.

Ltac w_append := apply append_fresh_dec; [vm_compute; reflexivity..].

Lemma w_before_ok : run_ok w_before empty_log 0.
Proof.
  cbn [run_ok w_before op_ok]. split; [w_append|]. split; [w_append|]. done.
Qed.
Lemma w_after_ok :
  run_ok w_after (spec_run w_before empty_log 0).1 1.
Proof.
  cbn [run_ok w_after op_ok]. split; [w_append|]. split; [split; [vm_compute; reflexivity|done]|].
  split; [vm_compute; reflexivity|done].
Qed.
Lemma w_events_ok : run_ok w_events empty_log 0.
Proof.
  cbn [run_ok w_events w_before w_after app op_ok]. split; [w_append|]. split; [w_append|].
  split; [vm_compute; reflexivity|]. split; [w_append|].
  split; [split; [vm_compute; reflexivity|done]|]. split; [vm_compute; reflexivity|done].
Qed.

(** The run ends with an append that repeats the first event id. *)
Definition w_repeat : Event := EvOp (OpAppend "ins_a" (w_env "evt_1" (PThought "t9" None)) w_mint).
Lemma w_repeat_fits :
  append_fits (spec_run w_events empty_log 0).1 "ins_a" (w_env "evt_1" (PThought "t9" None)) w_mint.
Proof. apply append_fits_dec; vm_compute; reflexivity. Qed.


Lemma w_live :
  live (spec_run w_before empty_log 0).1 (run_writer w_before w_fresh).1 ∧
  faults (run_writer w_before w_fresh).1 = [].
Proof.
  pose proof (run_refines w_before empty_log w_fresh w_before_ok (fresh_live FsyncData) eq_refl) as Hr.
  destruct (run_writer w_before w_fresh). by destruct Hr as (_ & ? & ?).
Qed.

Lemma pages_witness :
  let s := (run_writer w_before w_fresh).1 in
  ∃ s1 s2 s3 page os rest,
    read_page "ins_a" 1 None 1 s = (s1, Ok page) ∧
    read_range "ins_a" 1 None s = (s2, Ok os) ∧
    read_range "ins_a" (default (Z.max 1 1 - 1) (page_last_seq page) + 1) None s1 = (s3, Ok rest) ∧
    os = page_observations page ++ rest ∧
    Z.of_nat (length (page_observations page)) ≤ Z.min (Z.max 1 1) MAX_PAGE ∧
    page_bytes_read page = byte_len (lines (page_observations page)) ∧
    (os ≠ [] → page_observations page ≠ []).
Proof.
  intros s. destruct w_live as [Hl Hf].
  apply (pages_tile_the_range (spec_run w_before empty_log 0).1 s "ins_a" 1 None 1 Hl Hf).
  - vm_compute. reflexivity.
  - done.
Defined.

Definition w_running : Store := (run_writer w_before w_fresh).1.
Definition w_following : Store := (handle (OpFollow "ins_a" 2) w_running).1.
Lemma w_follow_answer :
  ∃ h c, handle (OpFollow "ins_a" 2) w_running = (w_following, Ok (OutFollow h c)).
Proof.
  unfold w_following.
  assert (match (handle (OpFollow "ins_a" 2) w_running).2 with Ok (OutFollow _ _) => true | _ => false end
    = true) as Hb by (vm_compute; reflexivity).
  destruct (handle (OpFollow "ins_a" 2) w_running) as [s [[]|]]; try done. eauto.
Qed.
Lemma w_following_channels : length (channels w_following) = 1%nat.
Proof. vm_compute. reflexivity. Qed.

Lemma follow_witness :
  let s3 := (run_writer w_after w_following).1 in
  let L := log_of (spec_run w_after (spec_run w_before empty_log 0).1
             (length (channels w_following))).1 "ins_a" in
  ∃ h c ch, handle (OpFollow "ins_a" 2) w_running = (w_following, Ok (OutFollow h c)) ∧
    channels s3 !! c = Some ch ∧ h ++ sent ch `prefix_of` drop (Z.to_nat (Z.max 2 1 - 1)) L ∧
    (c ∈ default [] (subscribers s3 !! "ins_a") → h ++ sent ch = drop (Z.to_nat (Z.max 2 1 - 1)) L).
Proof.
  intros s3 L. destruct w_follow_answer as (h & c & Hh). exists h, c.
  destruct (follow_has_no_holes FsyncData w_before "ins_a" 2 w_after w_following h c) as (ch & Hch).
  - exact w_before_ok.
  - reflexivity.
  - exact Hh.
  - rewrite w_following_channels. exact w_after_ok.
  - exists ch. split; [exact Hh|exact Hch].
Defined.

(** A history: one acknowledged append, one that fails at the checkpoint and
    after which the store goes on, one whose write is cut short by a loss of power
    that also takes the database back to its first state, a restart. *)
Definition w_first : Envelope := w_env "evt_1" (PThought "t1" None).
Definition w_second : Envelope := w_env "evt_2" (PThought "t2" None).
Definition w_acked : Store := (append "ins_a" w_first w_mint (set_faults (λ _, []) w_fresh)).1.
Definition w_third : Envelope := w_env "evt_3" (PThought "t3" None).
Definition w_checkpoint_faults : list Fault :=
  [NoFault; NoFault; NoFault; NoFault; NoFault; NoFault; Fails 0].
Definition w_kept : Store :=
  (append "ins_a" w_third w_mint (set_faults (λ _, w_checkpoint_faults) w_acked)).1.
Definition w_torn_faults : list Fault := [NoFault; NoFault; Fails 5].
Definition w_torn : Store :=
  (append "ins_a" w_second w_mint (set_faults (λ _, w_torn_faults) w_kept)).1.
Definition w_cut : Disk :=
  let b := files (disk w_torn) !!! "ins_a.jsonl" in
  mkDisk {["ins_a.jsonl" := b]} {["ins_a.jsonl" := length b]} ∅ empty_db [].
Definition w_restarted : Store := (open FsyncData ["ins_a.jsonl"] w_cut []).1.
Definition w_ack : Ack := mkAck "ins_a" 1 "evt_1" w_first.

Lemma run_eq {A B} (p : A * B) b : p.2 = b → p = (p.1, b).
Proof. by intros <-; destruct p. Qed.
Lemma w_acked_run : append "ins_a" w_first w_mint (set_faults (λ _, []) w_fresh) = (w_acked, Ok 1).
Proof. unfold w_acked. apply run_eq. vm_compute. reflexivity. Qed.
Lemma w_kept_run :
  append "ins_a" w_third w_mint (set_faults (λ _, w_checkpoint_faults) w_acked) = (w_kept, Err ESqlite).
Proof. unfold w_kept. apply run_eq. vm_compute. reflexivity. Qed.
Lemma w_kept_clean : ¬ left_bytes w_acked w_kept "ins_a".
Proof. intros [_ Heq]. apply Z.eqb_eq in Heq. revert Heq. vm_compute. discriminate. Qed.
Lemma w_torn_run :
  append "ins_a" w_second w_mint (set_faults (λ _, w_torn_faults) w_kept) = (w_torn, Err EIo).
Proof. unfold w_torn. apply run_eq. vm_compute. reflexivity. Qed.
Lemma w_restart_run : open FsyncData ["ins_a.jsonl"] w_cut [] = (w_restarted, Ok tt).
Proof. unfold w_restarted. apply run_eq. vm_compute. reflexivity. Qed.
Lemma w_first_fresh : fresh_request w_fresh "ins_a" w_first w_mint.
Proof.
  split; [vm_compute; reflexivity| |by intros []|].
  - apply (bool_decide_unpack _). vm_compute. exact I.
  - apply Z.leb_le. vm_compute. reflexivity.
Qed.
Lemma w_third_fresh : fresh_request w_acked "ins_a" w_third w_mint.
Proof.
  split; [vm_compute; reflexivity| |by intros []|].
  - apply (bool_decide_unpack _). vm_compute. exact I.
  - apply Z.leb_le. vm_compute. reflexivity.
Qed.
Lemma w_second_fresh : fresh_request w_kept "ins_a" w_second w_mint.
Proof.
  split; [vm_compute; reflexivity| |by intros []|].
  - apply (bool_decide_unpack _). vm_compute. exact I.
  - apply Z.leb_le. vm_compute. reflexivity.
Qed.
Lemma w_torn_names : bool_decide (dom (files (disk w_torn)) = {["ins_a.jsonl"]}) = true.
Proof. vm_compute. reflexivity. Qed.
Lemma w_torn_synced :
  bool_decide (synced (disk w_torn) !!! "ins_a.jsonl" ≤ length (files (disk w_torn) !!! "ins_a.jsonl"))%nat
  = true.
Proof. vm_compute. reflexivity. Qed.
Lemma w_torn_wal : last (wal (disk w_torn)) = Some empty_db.
Proof. vm_compute. reflexivity. Qed.

Lemma w_crash : crash (disk w_torn) w_cut.
Proof.
  assert (files w_cut = {["ins_a.jsonl" := files (disk w_torn) !!! "ins_a.jsonl"]}) as Hf by done.
  pose proof (bool_decide_unpack _ (Is_true_true_2 _ w_torn_names)) as Hdom.
  pose proof (bool_decide_unpack _ (Is_true_true_2 _ w_torn_synced)) as Hs.
  split; [| |apply elem_of_cons; right; eapply last_Some_elem_of, w_torn_wal|done].
  - intros name. rewrite Hf. destruct (decide (name = "ins_a.jsonl")) as [->|Hne].
    + rewrite lookup_singleton_eq. eexists. split; [|split; [done|exact Hs]].
      apply lookup_lookup_total. apply elem_of_dom. rewrite Hdom. by apply elem_of_singleton.
    + rewrite lookup_singleton_ne by done. apply not_elem_of_dom. rewrite Hdom. by apply not_elem_of_singleton.
  - intros name b. rewrite Hf. intros [<- <-]%lookup_singleton_Some. exact (lookup_total_singleton_eq _ _).
Qed.

Lemma w_dir_empty : lists_dir empty_disk [].
Proof.
  split; [constructor|]. intros name. split; [by intros ?%not_elem_of_nil|by intros []].
Qed.
Lemma w_dir_cut : lists_dir w_cut ["ins_a.jsonl"].
Proof.
  split; [apply NoDup_singleton|]. intros name. rewrite <- elem_of_dom.
  change (dom (files w_cut)) with
    (dom ({["ins_a.jsonl" := files (disk w_torn) !!! "ins_a.jsonl"]} : gmap string (list Z))).
  by rewrite dom_singleton, elem_of_singleton, list_elem_of_singleton.
Qed.
Lemma w_history : life FsyncData (Running w_restarted) [w_ack].
Proof.
  eapply life_open; [|exact w_dir_cut|exact w_restart_run].
  eapply life_append_failed; [|exact w_second_fresh|exact w_torn_run|exact w_crash].
  eapply life_append_clean; [|exact w_third_fresh|exact w_kept_run|exact w_kept_clean].
  eapply (life_append FsyncData w_fresh [] "ins_a" w_first w_mint []);
    [|exact w_first_fresh|exact w_acked_run].
  apply (life_open FsyncData empty_disk [] [] []); [apply life_new|exact w_dir_empty|reflexivity].
Qed.


(** ** Histories that break the log or a follower *)

(** An event id that is delivered twice.  The second append is refused after
    its record has reached the file; recovery indexes both records under one
    event id, and the later replaces the acknowledged one. *)
Definition w_again : Envelope := w_env "evt_1" (PThought "t2" None).
Definition w_refused : Store := (append "ins_a" w_again w_mint w_acked).1.
Definition w_reopened : Store := (open FsyncData ["ins_a.jsonl"] (disk w_refused) []).1.

(** A repeated event id destroys what was acknowledged.  The append of a
    second envelope with the event id of an acknowledged observation fails, yet
    its record stays in the journal file; after the next start of the store the
    refused observation is served at sequence number 2 and the acknowledged one
    at sequence number 1 is gone. *)
Theorem duplicate_event_id_loses_the_acknowledged_observation :
  (append "ins_a" w_first w_mint w_fresh).2 = Ok 1 ∧
  (append "ins_a" w_again w_mint w_acked).2 = Err ESqlite ∧
  (open FsyncData ["ins_a.jsonl"] (disk w_refused) []).2 = Ok tt ∧
  (read_range "ins_a" 1 (Some 1) w_reopened).2 = Ok [] ∧
  (read_range "ins_a" 1 None w_reopened).2 = Ok [observation_of w_again "evt_1" 2 None].
Proof. split_and!; vm_compute; reflexivity. Qed.

(** A write cut short in a process that goes on. *)
Definition w_short_faults : list Fault := [NoFault; NoFault; NoFault; NoFault; NoFault; Fails 5].
Definition w_short : Store :=
  (append "ins_a" w_first w_mint (set_faults (λ _, w_short_faults) w_fresh)).1.
Definition w_after_short : Store := (append "ins_a" w_second w_mint w_short).1.

(** After a write that put five bytes into the file and failed, the next append
    is acknowledged and cannot be read back; the store does not open again. *)
Lemma partial_write_poisons_the_file :
  (append "ins_a" w_first w_mint (set_faults (λ _, w_short_faults) w_fresh)).2 = Err EIo ∧
  (append "ins_a" w_second w_mint w_short).2 = Ok 1 ∧
  (read_range "ins_a" 1 None w_after_short).2 = Err EJson ∧
  (open FsyncData ["ins_a.jsonl"] (disk w_after_short) []).2 = Err EJson.
Proof. split_and!; vm_compute; reflexivity. Qed.

(** A failed checkpoint leaves a follower with a hole.  [append] writes and
    indexes the observation, saves the checkpoint and only then broadcasts.
    When the checkpoint fails the observation is durable and is never sent; the
    next one is, on a channel that stays subscribed. *)
Definition w_unsent : Store :=
  (append "ins_a" w_third w_mint (set_faults (λ _, w_checkpoint_faults) w_following)).1.
Definition w_sent : Store := (append "ins_a" (w_env "evt_4" (PThought "t4" None)) w_mint w_unsent).1.
Definition w_seqs (os : list Obs) : list Z := obs_seq <$> os.
Lemma failed_checkpoint_leaves_a_hole :
  match (handle (OpFollow "ins_a" 2) w_running).2 with
  | Ok (OutFollow h c) => w_seqs h = [2] ∧ c = 0%nat
  | _ => False
  end ∧
  (append "ins_a" w_third w_mint (set_faults (λ _, w_checkpoint_faults) w_following)).2 = Err ESqlite ∧
  (append "ins_a" (w_env "evt_4" (PThought "t4" None)) w_mint w_unsent).2 = Ok 4 ∧
  w_seqs <$> (sent <$> channels w_sent) = [[4]] ∧ subscribers w_sent !! "ins_a" = Some [0%nat] ∧
  match (read_range "ins_a" 2 None w_sent).2 with Ok os => w_seqs os = [2; 3; 4] | Err _ => False end.
Proof. vm_compute. by split_and!. Qed.

(** An upper bound past [i64::MAX] is cast to a negative number: the range that
    should hold everything is empty. *)
Lemma range_past_i64_is_empty :
  (read_range "ins_a" 1 None w_acked).2 = Ok [observation_of w_first "evt_1" 1 None] ∧
  (read_range "ins_a" 1 (Some (2 ^ 63)) w_acked).2 = Ok [].
Proof. split; vm_compute; reflexivity. Qed.
