(* ===== verification/RootTurn.v ===== *)
(** * The root turn of an Agent call

    [remuda-hub/src/root_turn.rs]: which input started the turn an instance is
    in, and who authored it.  The Hub folds every appended journal event into a
    small ledger on the instance row and reads the answer from it.  The file
    also has the gate that drops a [requestedBy] a Node supplies.

    The connection is a record of the two tables the code reads, with the
    statements that fail; an append whose fold fails is rolled back.  serde_json
    is the class [LedgerCodec]. *)
From stdpp Require Import base list gmap strings numbers.
From S2P Require Import Prelude Json NodeStore.

(** ** Reading events *)

(** [value.get(k).and_then(Value::as_str)] and [Value::pointer] along object
    keys. *)
Definition get_str (v : Value) (k : string) : option string := json_get v k ≫= json_str.
Fixpoint pointer (p : list string) (v : Value) : option Value :=
  match p with
  | [] => Some v
  | k :: r => json_get v k ≫= pointer r
  end.
Definition pointer_str (p : list string) (v : Value) : option string := pointer p v ≫= json_str.

(** ** The ledger *)

(** [struct Input] and [struct Ledger]. *)
Record Input : Type := mkInput {
  in_command_id : string;
  in_origin : InputOrigin;
  in_hub : bool;
}.
#[export] Instance Input_eq_dec : EqDecision Input.
Proof. solve_decision. Defined.
Record Ledger : Type := mkLedger {
  led_open : list Input;
  led_last : option Input;
  led_exact : bool;
  led_session : option string;
  led_ended : bool;
}.
#[export] Instance Ledger_eq_dec : EqDecision Ledger.
Proof. solve_decision. Defined.
Definition ledger_default : Ledger := mkLedger [] None false None false.
Definition MAX_OPEN_TURNS : nat := 64.

(** [Input::root_turn]. *)
Definition input_root_turn (x : Input) (c : RootTurnContinuation) : RootTurn :=
  if in_hub x then mkRootTurn (in_command_id x) InHub ContinuationHub
  else mkRootTurn (in_command_id x) (in_origin x) c.

(** [Ledger::root_turn]. *)
Definition ledger_root_turn (l : Ledger) : option RootTurn :=
  if led_ended l then
    x ← led_last l; Some (mkRootTurn (in_command_id x) InAgent ContinuationUnknown)
  else match led_open l with
  | front :: _ => Some (input_root_turn front ContinuationFresh)
  | [] =>
      x ← led_last l;
      if led_exact l then
        let turn := input_root_turn x ContinuationNative in
        Some (if in_hub x then turn
              else mkRootTurn (rt_command_id turn) InAgent (rt_continuation turn))
      else Some (input_root_turn x ContinuationUnknown)
  end.

(** [Ledger::end_process] and [Ledger::observe_session]. *)
Definition end_process (l : Ledger) : Ledger :=
  mkLedger [] (led_last l) false (led_session l) true.
Definition set_session (s : string) (l : Ledger) : Ledger :=
  mkLedger (led_open l) (led_last l) (led_exact l) (Some s) (led_ended l).
Definition non_empty (s : option string) : option string :=
  s ≫= λ x, if decide (x = "") then None else Some x.
Definition observe_session (session : option string) (l : Ledger) : Ledger * bool :=
  match non_empty session with
  | None => (l, false)
  | Some s =>
      match led_session l with
      | Some known => if decide (known = s) then (l, false) else (set_session s (end_process l), true)
      | None => (set_session s l, true)
      end
  end.

(** [session_ended], [instance_ended]. *)
Definition session_ended (status : option string) : bool :=
  bool_decide (status ∈ [Some "exited"; Some "failed"; Some "carrier_closed"]).
Definition instance_ended (state : option string) : bool :=
  bool_decide (state ∈ [Some "starting"; Some "closing"; Some "exited"; Some "failed"]).

(** ** The connection *)

(** The columns of [instances] and [commands] the module reads. *)
Record InstanceTurnRow : Type := mkTurnRow {
  row_root_turn_json : option string;
  row_lifecycle : option string;
}.
Record CommandRow : Type := mkCommandRow {
  row_instance_id : option string;
  row_payload_json : string;
  row_initiator : option string;
}.
Record Conn : Type := mkConn {
  hub_instances : gmap string InstanceTurnRow;
  hub_commands : gmap string CommandRow;
  hub_faults : list bool;
}.
Inductive StoreError : Type := StoreSqlite | StoreId.
Abbreviation hub := (st Conn StoreError).

Class LedgerCodec : Type := {
  ledger_to_string : Ledger → option string;
  ledger_from_str : string → option Ledger;
  value_from_str : string → option Value;
}.

(** A statement runs or fails. *)
Definition set_hub_faults (fs : list bool) (c : Conn) : Conn :=
  mkConn (hub_instances c) (hub_commands c) fs.
Definition statement : hub unit := λ c,
  match hub_faults c with
  | true :: r => (set_hub_faults r c, Err StoreSqlite)
  | false :: r => (set_hub_faults r c, Ok tt)
  | [] => (c, Ok tt)
  end.

Section hub.
Context `{LedgerCodec}.

(** [load_with_lifecycle], [load], [save]. *)
Definition stored_ledger (r : option InstanceTurnRow) : Ledger :=
  default ledger_default (row ← r; t ← row_root_turn_json row; ledger_from_str t).
Definition load_with_lifecycle (i : string) : hub (Ledger * option string) :=
  _ ← statement; c ← st_get;
  let r := hub_instances c !! i in
  mret (stored_ledger r, r ≫= row_lifecycle).
Definition load (i : string) : hub Ledger := r ← load_with_lifecycle i; mret r.1.
Definition save (i : string) (l : Ledger) : hub unit :=
  t ← st_lift (ok_or (ledger_to_string l) StoreId);
  _ ← statement;
  st_modify (λ c, mkConn (alter (λ r, mkTurnRow (Some t) (row_lifecycle r)) i (hub_instances c))
                    (hub_commands c) (hub_faults c)).

(** The classification of a command row. *)
Definition stamped_origin (payload : string) : option string :=
  v ← value_from_str payload; get_str v "origin".
Definition classify (cid : string) (r : CommandRow) : Input :=
  let stamped := stamped_origin (row_payload_json r) in
  let '(origin, is_hub) :=
    if decide (stamped = Some "hub") then (InHub, true)
    else match row_initiator r with
    | Some _ => (InAgent, false)
    | None =>
        match stamped with
        | Some s => if decide (s = "human") then (InHuman, false)
                    else if decide (s = "bot") then (InBot, false)
                    else (InAgent, false)
        | None => (InAgent, true)
        end
    end in
  mkInput cid origin is_hub.
Definition find_input (cmds : gmap string CommandRow) (i cid : string) : option Input :=
  r ← cmds !! cid;
  if decide (row_instance_id r = Some i) then Some (classify cid r) else None.
(** [input_for], [input_is_human]. *)
Definition input_for (i cid : string) : hub (option Input) :=
  _ ← statement; c ← st_get; mret (find_input (hub_commands c) i cid).
Definition input_is_human (i cid : string) : hub bool :=
  x ← input_for i cid;
  mret (match x with
        | Some x => negb (in_hub x) && bool_decide (in_origin x = InHuman)
        | None => false
        end).

(** ** [fold] *)

(** The command id a user message delivers. *)
Definition user_input (payload : Value) : bool :=
  bool_decide (get_str payload "role" = Some "user") &&
  bool_decide (get_str payload "operation" = Some "open") &&
  match json_get payload "parentToolCallId" with
  | Some VNull | None => true
  | Some _ => false
  end.

Definition deliver_message (x : Input) (l : Ledger) : Ledger :=
  mkLedger (led_open l) (Some x) (led_exact l) (led_session l) false.
Definition fold_message (i : string) (payload : Value) : hub unit :=
  match get_str payload "commandId" with
  | None => mret tt
  | Some cid =>
      if negb (user_input payload) then mret tt
      else
        x ← input_for i cid;
        match x with
        | None => mret tt
        | Some x =>
            l ← load i;
            if bool_decide (led_last l ≠ Some x) || led_ended l then save i (deliver_message x l)
            else mret tt
        end
  end.

Definition fold_entity (i : string) (payload : Value) : hub unit :=
  if bool_decide (pointer_str ["entityType"] payload = Some "instance") &&
     instance_ended (pointer_str ["state"] payload)
  then
    l ← load i;
    if led_ended l then mret tt else save i (end_process l)
  else mret tt.

Definition fold_session (i : string) (payload : Value) : hub unit :=
  l ← load i;
  let '(l, changed) := observe_session (pointer_str ["nativeId"; "value"] payload) l in
  let '(l, changed) :=
    if session_ended (pointer_str ["status"; "value"] payload) && negb (led_ended l)
    then (end_process l, true) else (l, changed) in
  if changed : bool then save i l else mret tt.

Definition push_turn (x : Input) (open : list Input) : list Input :=
  if bool_decide (Exists (λ y, in_command_id y = in_command_id x) open) then open
  else (if decide (MAX_OPEN_TURNS ≤ length open) then remove_at 0 open else open) ++ [x].
Definition start_turn (x : Input) (l : Ledger) : Ledger :=
  mkLedger (push_turn x (led_open l)) (Some x) true (led_session l) false.
Definition fold_turn_started (i : string) (payload : Value) : hub unit :=
  x ← match pointer_str ["relatedIds"; "nativeClientMessageId"] payload with
      | Some cid => input_for i cid
      | None => mret None
      end;
  l ← load i;
  let '(l, changed) := observe_session (pointer_str ["nativeId"; "value"] payload) l in
  match x with
  | None => if changed : bool then save i l else mret tt
  | Some x => save i (start_turn x l)
  end.

Definition complete_turn (completed : option string) (settled : bool) (open : list Input) : list Input :=
  let open := match completed with
              | Some cid =>
                  match position (λ x, bool_decide (in_command_id x = cid)) open with
                  | Some at_ => remove_at at_ open
                  | None => open
                  end
              | None => open
              end in
  if settled then [] else open.
Definition set_open (open : list Input) (l : Ledger) : Ledger :=
  mkLedger open (led_last l) (led_exact l) (led_session l) (led_ended l).
Definition fold_result (i : string) (payload : Value) : hub unit :=
  let completed := pointer_str ["relatedIds"; "completedTurn"] payload in
  let settled := bool_decide (pointer_str ["relatedIds"; "settledRootTurn"] payload = Some "true") in
  l ← load i;
  let '(l, changed) := observe_session (pointer_str ["nativeId"; "value"] payload) l in
  if bool_decide (completed = None) && negb settled then
    if changed : bool then save i l else mret tt
  else
    let open := complete_turn completed settled (led_open l) in
    if bool_decide (length open ≠ length (led_open l)) || changed then save i (set_open open l)
    else mret tt.

Definition fold_lifecycle (i : string) (payload : Value) : hub unit :=
  let ty := pointer_str ["type"] payload in
  let topic := pointer_str ["topic"] payload in
  if decide (ty = Some "entity") then fold_entity i payload
  else if decide (ty = Some "native") then
    if decide (topic = Some "session") then fold_session i payload
    else if decide (topic = Some "turn") then
      match get_str payload "nativeName" with
      | Some n => if decide (n = "turn_started") then fold_turn_started i payload
                  else if decide (n = "result") then fold_result i payload else mret tt
      | None => mret tt
      end
    else mret tt
  else mret tt.

Definition fold (i : string) (event : Value) : hub unit :=
  match json_get event "payload" with
  | None => mret tt
  | Some payload =>
      match get_str event "kind" with
      | Some k => if decide (k = "message") then fold_message i payload
                  else if decide (k = "lifecycle") then fold_lifecycle i payload else mret tt
      | None => mret tt
      end
  end.

(** [derive]. *)
Definition derive (i : string) : hub (option RootTurn) :=
  r ← load_with_lifecycle i;
  let l := if bool_decide (r.2 ∈ [Some "closing"; Some "exited"; Some "failed"])
           then end_process r.1 else r.1 in
  mret (ledger_root_turn l).
End hub.

(** [requested_by], with [struct RequestedBy]. *)
Record RequestedBy : Type := mkRequestedBy {
  rb_command_id : option string;
  rb_origin : option InputOrigin;
}.
Definition requested_by (t : RootTurn) : RequestedBy :=
  if decide (rt_origin t = InHuman) then mkRequestedBy (Some (rt_command_id t)) None
  else mkRequestedBy None (Some (rt_origin t)).

(** ** Dropping a supplied [requestedBy] *)

Definition STRIP_MAX_DEPTH : nat := 64.
Definition is_container (v : Value) : bool :=
  match v with VObject _ | VArray _ => true | _ => false end.
Fixpoint strip_requested_by_at (v : Value) (depth : nat) : Value :=
  if (STRIP_MAX_DEPTH <=? depth)%nat then if is_container v then VNull else v
  else match v with
  | VObject fields =>
      VObject ((fix strip_fields (fs : list (string * Value)) : list (string * Value) :=
        match fs with
        | [] => []
        | (k, x) :: r =>
            if decide (k = "requestedBy") then strip_fields r
            else (k, strip_requested_by_at x (S depth)) :: strip_fields r
        end) fields)
  | VArray items =>
      VArray ((fix strip_items (l : list Value) : list Value :=
        match l with
        | [] => []
        | x :: r => strip_requested_by_at x (S depth) :: strip_items r
        end) items)
  | _ => v
  end.
Definition strip_requested_by (v : Value) : Value := strip_requested_by_at v 0.

(** [store::journal_event_kind] and [strip_supplied_requested_by]. *)
Definition journal_event_kind (event : Value) : string :=
  match get_str event "kind" with
  | Some k => k
  | None => default "" (get_str event "subtype")
  end.
Definition is_interaction_event (event : Value) : bool :=
  String.prefix "interaction" (journal_event_kind event) ||
  bool_decide (pointer_str ["payload"; "entityType"] event = Some "interaction") ||
  match pointer ["payload"; "interaction"] event with Some v => json_is_object v | None => false end ||
  match json_get event "interaction" with Some v => json_is_object v | None => false end.
Definition strip_supplied_requested_by (event : Value) : Value :=
  if is_interaction_event event then strip_requested_by event else event.

(** ** What an event says about turns *)

Inductive TurnEvent : Type :=
| EvMessage (cid : string)
| EvInstanceEnded
| EvSession (session : option string) (ended : bool)
| EvStarted (cid session : option string)
| EvResult (completed : option string) (settled : bool) (session : option string)
| EvOther.

Definition view_message (payload : Value) : TurnEvent :=
  match get_str payload "commandId" with
  | Some cid => if user_input payload then EvMessage cid else EvOther
  | None => EvOther
  end.
Definition view_turn (payload : Value) : TurnEvent :=
  let session := pointer_str ["nativeId"; "value"] payload in
  match get_str payload "nativeName" with
  | Some n =>
      if decide (n = "turn_started")
      then EvStarted (pointer_str ["relatedIds"; "nativeClientMessageId"] payload) session
      else if decide (n = "result")
      then EvResult (pointer_str ["relatedIds"; "completedTurn"] payload)
             (bool_decide (pointer_str ["relatedIds"; "settledRootTurn"] payload = Some "true")) session
      else EvOther
  | None => EvOther
  end.
Definition view_lifecycle (payload : Value) : TurnEvent :=
  let ty := pointer_str ["type"] payload in
  let topic := pointer_str ["topic"] payload in
  if decide (ty = Some "entity") then
    if bool_decide (pointer_str ["entityType"] payload = Some "instance") &&
       instance_ended (pointer_str ["state"] payload)
    then EvInstanceEnded else EvOther
  else if decide (ty = Some "native") then
    if decide (topic = Some "session")
    then EvSession (pointer_str ["nativeId"; "value"] payload)
           (session_ended (pointer_str ["status"; "value"] payload))
    else if decide (topic = Some "turn") then view_turn payload else EvOther
  else EvOther.
Definition view (event : Value) : TurnEvent :=
  match json_get event "payload" with
  | None => EvOther
  | Some payload =>
      match get_str event "kind" with
      | Some k => if decide (k = "message") then view_message payload
                  else if decide (k = "lifecycle") then view_lifecycle payload else EvOther
      | None => EvOther
      end
  end.

Class LedgerCodecLaws `{LedgerCodec} : Prop :=
  ledger_round_trip : ∀ l t, ledger_to_string l = Some t → ledger_from_str t = Some l.

Section turns.
Context `{LedgerCodecLaws}.

(** The ledger after an event, on the command rows of that moment. *)
Definition ledger_step (cmds : gmap string CommandRow) (i : string) (e : TurnEvent) (l : Ledger)
    : Ledger :=
  match e with
  | EvMessage cid => match find_input cmds i cid with Some x => deliver_message x l | None => l end
  | EvInstanceEnded => if led_ended l then l else end_process l
  | EvSession s ended =>
      let l := (observe_session s l).1 in
      if ended && negb (led_ended l) then end_process l else l
  | EvStarted cid s =>
      let l := (observe_session s l).1 in
      match cid ≫= find_input cmds i with Some x => start_turn x l | None => l end
  | EvResult completed settled s =>
      let l := (observe_session s l).1 in set_open (complete_turn completed settled (led_open l)) l
  | EvOther => l
  end.

(** [updates i l' c p]: an operation that started at [c] and ended in [p] left
    the tables alone when it failed, and otherwise stored [l'] on the row of [i]
    and changed nothing else. *)
Definition same_tables (c c' : Conn) : Prop :=
  hub_instances c' = hub_instances c ∧ hub_commands c' = hub_commands c.
Definition updates (i : string) (l' : Ledger) (c : Conn) (p : Conn * result unit StoreError) : Prop :=
  match p with
  | (c', Err _) => same_tables c c'
  | (c', Ok _) =>
      hub_commands c' = hub_commands c ∧
      ∃ f, hub_instances c' = alter f i (hub_instances c) ∧
        ∀ r, hub_instances c !! i = Some r →
          row_lifecycle (f r) = row_lifecycle r ∧ stored_ledger (Some (f r)) = l'
  end.

Lemma updates_same i l' c c1 p : same_tables c c1 → updates i l' c1 p → updates i l' c p.
Proof. intros [H1 H2]. unfold updates, same_tables. destruct p as [c' [?|?]]; by rewrite H1, H2. Qed.
Lemma updates_ret i l' c :
  (∀ r, hub_instances c !! i = Some r → stored_ledger (Some r) = l') → updates i l' c ((mret tt : hub unit) c).
Proof.
  intros Hr. split; [done|]. exists id. split; [by rewrite alter_id|]. intros r Hi. split; [done|].
  by apply Hr.
Qed.
Lemma updates_err i l' c c' e : same_tables c c' → updates i l' c (c', Err e).
Proof. done. Qed.
Lemma statement_tables c : same_tables c (statement c).1.
Proof. unfold statement. by destruct (hub_faults c) as [|[] r]. Qed.
Lemma updates_save i l' c : updates i l' c (save i l' c).
Proof.
  unfold save. rewrite st_bind_eq. destruct (ledger_to_string l') as [t|] eqn:Ht; simpl; [|done].
  rewrite st_bind_eq. pose proof (statement_tables c) as [H1 H2].
  destruct (statement c) as [c1 [[]|e]]; simpl in *; [|done]. split; [done|].
  exists (λ r, mkTurnRow (Some t) (row_lifecycle r)). rewrite H1. split; [done|].
  intros r _. split; [done|]. unfold stored_ledger. simpl. by rewrite (ledger_round_trip _ _ Ht).
Qed.
Lemma updates_load i l' c k :
  (∀ c1, same_tables c c1 → updates i l' c1 (k (stored_ledger (hub_instances c !! i)) c1)) →
  updates i l' c ((load i ≫= k) c).
Proof.
  intros Hk. rewrite st_bind_eq. unfold load, load_with_lifecycle. rewrite !st_bind_eq.
  pose proof (statement_tables c) as Hs. destruct (statement c) as [c1 [[]|e]]; simpl in *; [|done].
  destruct Hs as [H1 H2]. rewrite H1. apply (updates_same _ _ _ c1); [done|]. by apply Hk.
Qed.
Lemma updates_input i cid l' c k :
  (∀ c1, same_tables c c1 → updates i l' c1 (k (find_input (hub_commands c) i cid) c1)) →
  updates i l' c ((input_for i cid ≫= k) c).
Proof.
  intros Hk. rewrite st_bind_eq. unfold input_for. rewrite st_bind_eq.
  pose proof (statement_tables c) as Hs. destruct (statement c) as [c1 [[]|e]]; simpl in *; [|done].
  destruct Hs as [H1 H2]. rewrite H2.
  apply (updates_same _ _ _ c1); [done|]. by apply Hk.
Qed.
(** Nothing is written when nothing would change. *)
Lemma updates_keep i l' c c1 :
  same_tables c c1 → stored_ledger (hub_instances c !! i) = l' → updates i l' c1 ((mret tt : hub unit) c1).
Proof. intros [H1 _] Hl. apply updates_ret. intros r Hr. by rewrite <- Hl, <- H1, Hr. Qed.
Lemma updates_keep_now i c : updates i (stored_ledger (hub_instances c !! i)) c ((mret tt : hub unit) c).
Proof. by apply (updates_keep i _ c c). Qed.

Lemma fold_message_updates i p c :
  updates i (ledger_step (hub_commands c) i (view_message p) (stored_ledger (hub_instances c !! i))) c
    (fold_message i p c).
Proof.
  unfold fold_message, view_message. destruct (get_str p "commandId") as [cid|]; [|apply updates_keep_now].
  destruct (user_input p); cbn [negb]; [|apply updates_keep_now].
  apply updates_input. intros c1 H1. cbn [ledger_step].
  destruct (find_input (hub_commands c) i cid) as [x|]; [|by apply (updates_keep i _ c c1)].
  destruct (H1) as [Ht _]. rewrite <- Ht. apply updates_load. intros c2 H2.
  destruct (bool_decide _ || _) eqn:Hb; [apply updates_save|].
  apply (updates_keep i _ c1 c2); [done|]. apply orb_false_iff in Hb as [Hb He].
  apply bool_decide_eq_false, dec_stable in Hb. unfold deliver_message. rewrite <- Hb.
  by destruct (stored_ledger _); simpl in *; subst.
Qed.

Lemma fold_entity_updates i p c :
  updates i (ledger_step (hub_commands c) i
      (if bool_decide (pointer_str ["entityType"] p = Some "instance") &&
          instance_ended (pointer_str ["state"] p) then EvInstanceEnded else EvOther)
      (stored_ledger (hub_instances c !! i))) c (fold_entity i p c).
Proof.
  unfold fold_entity. destruct (_ && _); [|apply updates_keep_now]. cbn [ledger_step].
  apply updates_load. intros c1 H1. destruct (led_ended _); [|apply updates_save].
  by apply (updates_keep i _ c c1).
Qed.

Lemma observe_session_unchanged s l : (observe_session s l).2 = false → (observe_session s l).1 = l.
Proof. unfold observe_session. repeat case_match; by simplify_eq/=. Qed.

Lemma fold_session_updates i p c :
  updates i (ledger_step (hub_commands c) i (EvSession (pointer_str ["nativeId"; "value"] p)
      (session_ended (pointer_str ["status"; "value"] p))) (stored_ledger (hub_instances c !! i))) c
    (fold_session i p c).
Proof.
  unfold fold_session. apply updates_load. intros c1 H1. cbn [ledger_step].
  set (l := stored_ledger _). pose proof (observe_session_unchanged (pointer_str ["nativeId"; "value"] p) l) as Hu.
  destruct (observe_session _ l) as [l1 ch]. cbn [fst snd] in *.
  destruct (_ && _); [apply updates_save|]. destruct ch; [apply updates_save|].
  apply (updates_keep i _ c c1); [done|]. by rewrite Hu.
Qed.

Lemma fold_started_updates i p c :
  updates i (ledger_step (hub_commands c) i
      (EvStarted (pointer_str ["relatedIds"; "nativeClientMessageId"] p) (pointer_str ["nativeId"; "value"] p))
      (stored_ledger (hub_instances c !! i))) c (fold_turn_started i p c).
Proof.
  unfold fold_turn_started. cbn [ledger_step].
  set (x := pointer_str ["relatedIds"; "nativeClientMessageId"] p ≫= find_input (hub_commands c) i).
  set (k := λ y : option Input, l ← load i;
    let '(l, changed) := observe_session (pointer_str ["nativeId"; "value"] p) l in
    match y with
    | None => if changed : bool then save i l else mret tt
    | Some x => save i (start_turn x l)
    end).
  assert (∀ c1, same_tables c c1 → updates i (let l := (observe_session (pointer_str ["nativeId"; "value"] p)
      (stored_ledger (hub_instances c !! i))).1 in
    match x with Some x => start_turn x l | None => l end) c1 (k x c1)) as Hk.
  { intros c1 [Ht _]. rewrite <- Ht. unfold k. apply updates_load. intros c2 H2.
    set (l := stored_ledger _).
    pose proof (observe_session_unchanged (pointer_str ["nativeId"; "value"] p) l) as Hu.
    destruct (observe_session _ l) as [l1 ch]. cbn [fst snd] in *. destruct x; [apply updates_save|].
    destruct ch; [apply updates_save|]. apply (updates_keep i _ c1 c2); [done|]. by rewrite Hu. }
  destruct (pointer_str ["relatedIds"; "nativeClientMessageId"] p) as [cid|]; simpl in x.
  - apply updates_input. exact Hk.
  - rewrite st_bind_eq, st_ret_eq. by apply Hk.
Qed.

Lemma complete_turn_length completed settled open :
  length (complete_turn completed settled open) = length open → complete_turn completed settled open = open.
Proof.
  unfold complete_turn. intros Hl. destruct settled; [by destruct open|].
  destruct completed as [cid|]; [|done]. destruct (position _ open) as [at_|] eqn:Hp; [|done].
  apply position_lt in Hp. unfold remove_at in Hl. rewrite length_app, length_take, length_drop in Hl. lia.
Qed.

Lemma set_open_same l : set_open (led_open l) l = l.
Proof. by destruct l. Qed.

Lemma fold_result_updates i p c :
  updates i (ledger_step (hub_commands c) i (EvResult (pointer_str ["relatedIds"; "completedTurn"] p)
      (bool_decide (pointer_str ["relatedIds"; "settledRootTurn"] p = Some "true"))
      (pointer_str ["nativeId"; "value"] p)) (stored_ledger (hub_instances c !! i))) c (fold_result i p c).
Proof.
  unfold fold_result. apply updates_load. intros c1 H1. cbn [ledger_step].
  set (l := stored_ledger _). pose proof (observe_session_unchanged (pointer_str ["nativeId"; "value"] p) l) as Hu.
  destruct (observe_session _ l) as [l1 ch]. cbn [fst snd] in *.
  set (completed := pointer_str _ p). set (settled := bool_decide (pointer_str _ p = Some "true")).
  destruct (bool_decide (completed = None) && negb settled) eqn:Hb.
  - apply andb_true_iff in Hb as [->%bool_decide_eq_true ->%negb_true_iff]. cbn [complete_turn].
    rewrite set_open_same.
    destruct ch; [apply updates_save|]. apply (updates_keep i _ c c1); [done|]. by rewrite Hu.
  - destruct (bool_decide _ || ch) eqn:Hc; [apply updates_save|].
    apply orb_false_iff in Hc as [Hc ->]. apply bool_decide_eq_false, dec_stable in Hc.
    apply (updates_keep i _ c c1); [done|]. rewrite complete_turn_length by done.
    rewrite Hu by done. symmetry. apply set_open_same.
Qed.

(** [fold] stores the next ledger of its instance, or fails and changes
    nothing. *)
Lemma fold_updates i ev c :
  updates i (ledger_step (hub_commands c) i (view ev) (stored_ledger (hub_instances c !! i))) c
    (fold i ev c).
Proof.
  unfold fold, view. destruct (json_get ev "payload") as [p|]; [|apply updates_keep_now].
  destruct (get_str ev "kind") as [k|]; [|apply updates_keep_now].
  destruct (decide (k = "message")); [apply fold_message_updates|].
  destruct (decide (k = "lifecycle")); [|apply updates_keep_now].
  unfold fold_lifecycle, view_lifecycle. cbn zeta.
  destruct (decide (_ = Some "entity")); [apply fold_entity_updates|].
  destruct (decide (_ = Some "native")); [|apply updates_keep_now].
  destruct (decide (_ = Some "session")); [apply fold_session_updates|].
  destruct (decide (_ = Some "turn")); [|apply updates_keep_now].
  unfold view_turn. destruct (get_str p "nativeName") as [name|]; [|apply updates_keep_now].
  destruct (decide (name = "turn_started")); [apply fold_started_updates|].
  destruct (decide (name = "result")); [apply fold_result_updates|apply updates_keep_now].
Qed.

(** ** Histories of the Hub *)

(** An appended event with the command rows of that moment. *)
Abbreviation Entry := (gmap string CommandRow * Value)%type.

(** [reach i c log]: the Hub can have the tables [c] after appending, for
    instance [i], the events [log].  Command rows and the lifecycle of instance
    rows may change arbitrarily in between; statements may fail, and a failed
    append leaves nothing. *)
Inductive reach (i : string) : Conn → list Entry → Prop :=
| reach_start c :
    map_Forall (λ _ r, row_root_turn_json r = None) (hub_instances c) → reach i c []
| reach_command c log cid row fs :
    reach i c log → reach i (mkConn (hub_instances c) (<[cid := row]> (hub_commands c)) fs) log
| reach_instance c log j lifecycle fs :
    reach i c log →
    reach i (mkConn (partial_alter (λ r, Some (mkTurnRow (r ≫= row_root_turn_json) lifecycle)) j
                       (hub_instances c)) (hub_commands c) fs) log
| reach_append c log ev fs c' :
    reach i c log → is_Some (hub_instances c !! i) →
    fold i ev (set_hub_faults fs c) = (c', Ok tt) → reach i c' (log ++ [(hub_commands c, ev)])
| reach_other c log j ev fs c' :
    reach i c log → j ≠ i → fold j ev (set_hub_faults fs c) = (c', Ok tt) → reach i c' log.

Definition ledger_of (i : string) (log : list Entry) : Ledger :=
  foldl (λ l e, ledger_step e.1 i (view e.2) l) ledger_default log.

Lemma reach_ledger i c log : reach i c log → stored_ledger (hub_instances c !! i) = ledger_of i log.
Proof.
  induction 1 as [c Hn|c log cid row fs _ IH|c log j lc fs _ IH|c log ev fs c' _ IH [r Hr] Hf
    |c log j ev fs c' _ IH Hne Hf]; cbn [hub_instances] in *.
  - unfold stored_ledger. destruct (hub_instances c !! i) as [r|] eqn:Hr; [|done]. simpl.
    by rewrite (Hn _ _ Hr).
  - done.
  - rewrite <- IH. destruct (decide (j = i)) as [->|Hne].
    + rewrite lookup_partial_alter_eq. unfold stored_ledger. simpl. by destruct (hub_instances c !! i).
    + by rewrite lookup_partial_alter_ne.
  - pose proof (fold_updates i ev (set_hub_faults fs c)) as Hu. rewrite Hf in Hu.
    destruct Hu as (_ & f & Hi & Hrow). cbn [hub_instances hub_commands set_hub_faults] in *.
    unfold ledger_of. rewrite foldl_snoc. fold (ledger_of i log). cbn [fst snd].
    rewrite Hi, lookup_alter_eq, <- IH, Hr. simpl. rewrite Hr in Hrow. by destruct (Hrow r eq_refl).
  - pose proof (fold_updates j ev (set_hub_faults fs c)) as Hu. rewrite Hf in Hu.
    destruct Hu as (_ & f & Hi & _). cbn [hub_instances set_hub_faults] in *.
    by rewrite Hi, lookup_alter_ne.
Qed.

(** [since P K log]: some event satisfied [P], and every later one [K]. *)
Definition since (P K : list Entry → Entry → Prop) (log : list Entry) : Prop :=
  ∃ pre e post, log = pre ++ e :: post ∧ P pre e ∧
    ∀ p1 x p2, post = p1 ++ x :: p2 → K (pre ++ e :: p1) x.
Lemma since_here P K log e : P log e → since P K (log ++ [e]).
Proof. intros HP. exists log, e, []. split_and!; [done|done|]. by intros [] ? ? ?. Qed.
Lemma since_snoc P K log e : since P K log → K log e → since P K (log ++ [e]).
Proof.
  intros (pre & x & post & -> & HP & HK) He. exists pre, x, (post ++ [e]).
  split_and!; [by rewrite <- app_assoc|done|]. intros p1 y p2 Hp.
  destruct (decide (p2 = [])) as [->|Hne].
  - apply app_inj_tail in Hp as [-> ->]. exact He.
  - destruct (exists_last Hne) as (p2' & z & ->). rewrite app_comm_cons, app_assoc in Hp.
    apply app_inj_tail in Hp as [-> ->]. by apply (HK p1 y p2').
Qed.
Lemma since_mono (P P' K K' : list Entry → Entry → Prop) log :
  (∀ pre e, P pre e → P' pre e) → (∀ pre e, K pre e → K' pre e) → since P K log → since P' K' log.
Proof. intros HP HK (pre & e & post & -> & H1 & H2). exists pre, e, post. naive_solver. Qed.

(** What an event says about the process: the session it names, whether it is
    terminal, and whether the process of the events before it is still the one. *)
Definition names_session (e : TurnEvent) : option string :=
  match e with
  | EvSession s _ | EvStarted _ s | EvResult _ _ s => non_empty s
  | _ => None
  end.
Definition ends_process (e : TurnEvent) : bool :=
  match e with EvInstanceEnded => true | EvSession _ b => b | _ => false end.
Definition session_of (log : list Entry) : option string :=
  foldl (λ cur e, match names_session (view e.2) with Some s => Some s | None => cur end) None log.
Definition same_process (pre : list Entry) (e : Entry) : Prop :=
  ends_process (view e.2) = false ∧
  ∀ a b, session_of pre = Some a → names_session (view e.2) = Some b → a = b.

(** The event delivers the command, as a message or as a turn start; it starts
    its turn; it completes it. *)
Definition delivers (cid : string) (e : Entry) : Prop :=
  match view e.2 with EvMessage x | EvStarted (Some x) _ => x = cid | _ => False end.
Definition starts (cid : string) (e : Entry) : Prop :=
  match view e.2 with EvStarted (Some x) _ => x = cid | _ => False end.
Definition completes (cid : string) (e : Entry) : Prop :=
  match view e.2 with
  | EvResult completed settled _ => completed = Some cid ∨ settled = true
  | _ => False
  end.
Definition is_input (i : string) (e : Entry) : Prop :=
  ∃ cid, delivers cid e ∧ is_Some (find_input e.1 i cid).

(** The command row is an owner's input to [i]. *)
Definition human_row (cmds : gmap string CommandRow) (i cid : string) : Prop :=
  ∃ r, cmds !! cid = Some r ∧ row_instance_id r = Some i ∧ row_initiator r = None ∧
       stamped_origin (row_payload_json r) = Some "human".
Lemma find_input_human cmds i cid x :
  find_input cmds i cid = Some x → in_hub x = false → in_origin x = InHuman → human_row cmds i cid.
Proof.
  unfold find_input. destruct (cmds !! cid) as [r|] eqn:Hr; simpl; [|done].
  case_decide as Hi; [|done]. intros [= <-]. unfold classify.
  repeat (case_match || case_decide); simplify_eq/=; try done. intros _ _. by exists r.
Qed.
Lemma find_input_id cmds i cid x : find_input cmds i cid = Some x → in_command_id x = cid.
Proof.
  unfold find_input. destruct (cmds !! cid); simpl; [|done]. case_decide; [|done]. intros [= <-].
  unfold classify. by repeat (case_match || case_decide); simplify_eq/=.
Qed.

(** ** The invariant of the ledger *)

Definition started_input (i : string) (x : Input) (_ : list Entry) (e : Entry) : Prop :=
  starts (in_command_id x) e ∧ find_input e.1 i (in_command_id x) = Some x.
Definition running (cid : string) (pre : list Entry) (e : Entry) : Prop :=
  same_process pre e ∧ ¬ completes cid e.
Definition delivered_input (i : string) (x : Input) (_ : list Entry) (e : Entry) : Prop :=
  delivers (in_command_id x) e ∧ find_input e.1 i (in_command_id x) = Some x.
Definition latest (i : string) (pre : list Entry) (e : Entry) : Prop :=
  same_process pre e ∧ ¬ is_input i e.

Definition open_inv (i : string) (log : list Entry) (open : list Input) : Prop :=
  ∀ x, x ∈ open → since (started_input i x) (running (in_command_id x)) log.

Record ledger_inv (i : string) (log : list Entry) (l : Ledger) : Prop := {
  li_session : led_session l = session_of log;
  li_ended : led_ended l = true → led_open l = [] ∧ led_exact l = false;
  li_exact : led_open l ≠ [] → led_exact l = true;
  li_open : open_inv i log (led_open l);
  li_distinct : NoDup (in_command_id <$> led_open l);
  li_bounded : length (led_open l) ≤ MAX_OPEN_TURNS;
  li_last : ∀ x, led_last l = Some x → led_ended l = false →
    since (delivered_input i x) (latest i) log;
}.

Lemma session_of_snoc log e :
  session_of (log ++ [e]) =
    match names_session (view e.2) with Some s => Some s | None => session_of log end.
Proof. unfold session_of. by rewrite foldl_snoc. Qed.

Lemma open_snoc i log e open :
  open_inv i log open → same_process log e → (∀ x, x ∈ open → ¬ completes (in_command_id x) e) →
  open_inv i (log ++ [e]) open.
Proof. intros Ho Hs Hc x Hx. apply since_snoc; [by apply Ho|]. split; [done|by apply Hc]. Qed.

(** A ledger whose process has ended. *)
Lemma inv_ended i log l :
  led_open l = [] → led_exact l = false → led_ended l = true → led_session l = session_of log →
  ledger_inv i log l.
Proof.
  intros Ho Hx He Hs. split; rewrite ?Ho, ?Hx, ?He; try done.
  - by intros x ?%not_elem_of_nil.
  - constructor.
  - simpl. lia.
Qed.

(** An event that changes nothing but the session. *)
Lemma inv_carry i log e l l' :
  ledger_inv i log l → same_process log e → ¬ is_input i e →
  (∀ x, x ∈ led_open l → ¬ completes (in_command_id x) e) →
  led_open l' = led_open l → led_last l' = led_last l → led_exact l' = led_exact l →
  led_ended l' = led_ended l → led_session l' = session_of (log ++ [e]) →
  ledger_inv i (log ++ [e]) l'.
Proof.
  intros [I1 I2 I3 I4 I5 I6 I7] Hs Hi Hc Ho Hl Hx He Hse.
  split; rewrite ?Ho, ?Hl, ?Hx, ?He; try done; [by apply open_snoc|].
  intros x Hlast Hend. apply since_snoc; [by apply I7|done].
Qed.

(** What a session name does: the process goes on, or everything is closed. *)
Lemma observe_session_spec s l :
  let l1 := (observe_session s l).1 in
  led_session l1 = match non_empty s with Some x => Some x | None => led_session l end ∧
  led_last l1 = led_last l ∧
  ((∀ a b, led_session l = Some a → non_empty s = Some b → a = b) ∧
     led_open l1 = led_open l ∧ led_exact l1 = led_exact l ∧ led_ended l1 = led_ended l ∨
   led_open l1 = [] ∧ led_exact l1 = false ∧ led_ended l1 = true).
Proof.
  unfold observe_session. destruct (non_empty s) as [x|]; simpl.
  - destruct (led_session l) as [known|] eqn:Hk; [case_decide; subst|]; simpl;
      split_and!; try done; [left|right|left]; split_and!; congruence.
  - split_and!; try done. left. by split_and!.
Qed.

(** The same, as the first half of a step whose event is not terminal. *)
Lemma inv_observe i log e l s :
  ledger_inv i log l → names_session (view e.2) = non_empty s → ends_process (view e.2) = false →
  let l1 := (observe_session s l).1 in
  led_session l1 = session_of (log ++ [e]) ∧ led_last l1 = led_last l ∧
  (same_process log e ∧ led_open l1 = led_open l ∧ led_exact l1 = led_exact l ∧
     led_ended l1 = led_ended l ∨
   led_open l1 = [] ∧ led_exact l1 = false ∧ led_ended l1 = true).
Proof.
  intros HI Hn He l1. destruct (observe_session_spec s l) as (H1 & H2 & H3). fold l1 in H1, H2, H3.
  rewrite session_of_snoc, Hn, <- (li_session _ _ _ HI). split_and!; [done|done|].
  destruct H3 as [(Hs & H4)|H3]; [left|by right]. split; [|done]. split; [done|].
  intros a b Ha. rewrite Hn. apply Hs. by rewrite (li_session _ _ _ HI).
Qed.

Lemma delivers_is_input i e cid x : delivers cid e → find_input e.1 i cid = Some x → is_input i e.
Proof. intros Hd Hf. exists cid. by rewrite Hf. Qed.

Lemma push_turn_elem x y open : y ∈ push_turn x open → y ∈ open ∨ y = x.
Proof.
  unfold push_turn. case_bool_decide; [by left|]. rewrite elem_of_app, list_elem_of_singleton.
  intros [Hy|?]; [left|by right]. case_decide; [|done]. destruct open; [done|]. by right.
Qed.
Lemma push_turn_distinct x open :
  NoDup (in_command_id <$> open) → NoDup (in_command_id <$> push_turn x open).
Proof.
  intros Hn. unfold push_turn. case_bool_decide as Hex; [done|]. rewrite fmap_app.
  assert (in_command_id x ∉ in_command_id <$> open) as Hx.
  { intros (y & Hy & Hin)%list_elem_of_fmap. apply Hex, list.Exists_exists. by exists y. }
  case_decide; [destruct open as [|z open]|].
  - apply NoDup_singleton.
  - rewrite fmap_cons in Hn, Hx. unfold remove_at. cbn [take drop app].
    apply list.NoDup_cons in Hn as [_ Hn]. apply not_elem_of_cons in Hx as [_ Hx].
    apply list.NoDup_app. split_and!; [done| |apply NoDup_singleton]. set_solver.
  - apply list.NoDup_app. split_and!; [done| |apply NoDup_singleton]. set_solver.
Qed.
Lemma push_turn_bounded x open :
  length open ≤ MAX_OPEN_TURNS → length (push_turn x open) ≤ MAX_OPEN_TURNS.
Proof.
  unfold push_turn, MAX_OPEN_TURNS. intros Hl. case_bool_decide; [done|]. rewrite length_app.
  case_decide; [|simpl; lia].
  unfold remove_at. rewrite !length_app, length_take, length_drop. simpl in *. lia.
Qed.

Lemma inv_message i log e l cid :
  ledger_inv i log l → view e.2 = EvMessage cid →
  ledger_inv i (log ++ [e]) (ledger_step e.1 i (EvMessage cid) l).
Proof.
  intros HI Hv. assert (same_process log e) as Hs by (split; rewrite Hv; simpl; congruence).
  assert (∀ c, ¬ completes c e) as Hc by (intros c; unfold completes; rewrite Hv; tauto).
  assert (led_session l = session_of (log ++ [e])) as Hse
    by (by rewrite session_of_snoc, Hv, <- (li_session _ _ _ HI)).
  cbn [ledger_step]. destruct (find_input e.1 i cid) as [x|] eqn:Hf.
  - pose proof (find_input_id _ _ _ _ Hf) as Hid. destruct HI as [I1 I2 I3 I4 I5 I6 I7].
    split; cbn; try done; [by apply open_snoc|]. intros y [= <-] _. apply since_here.
    rewrite <- Hid in Hf. split; [|done]. unfold delivers. by rewrite Hv, Hid.
  - apply (inv_carry i log e l); try done. intros (c & Hd & Hsome).
    unfold delivers in Hd. rewrite Hv in Hd. subst c. rewrite Hf in Hsome. by destruct Hsome.
Qed.

Lemma inv_started i log e l cid s :
  ledger_inv i log l → view e.2 = EvStarted cid s →
  ledger_inv i (log ++ [e]) (ledger_step e.1 i (EvStarted cid s) l).
Proof.
  intros HI Hv.
  destruct (inv_observe i log e l s HI) as (H1 & H2 & H3); [by rewrite Hv..|].
  assert (∀ c, ¬ completes c e) as Hc by (intros c; unfold completes; rewrite Hv; tauto).
  cbn [ledger_step]. set (l1 := (observe_session s l).1) in *.
  destruct (cid ≫= find_input e.1 i) as [x|] eqn:Hf.
  - destruct cid as [cid|]; [|done]. simpl in Hf. pose proof (find_input_id _ _ _ _ Hf) as Hid.
    rewrite <- Hid in Hf.
    assert (delivers (in_command_id x) e ∧ starts (in_command_id x) e) as [Hd Hst]
      by (unfold delivers, starts; by rewrite Hv, Hid).
    destruct HI as [I1 I2 I3 I4 I5 I6 I7].
    assert (open_inv i (log ++ [e]) (led_open l1) ∧ NoDup (in_command_id <$> led_open l1) ∧
      length (led_open l1) ≤ MAX_OPEN_TURNS) as (J1 & J2 & J3).
    { destruct H3 as [(Hs & -> & _)|(-> & _)]; [split_and!; [by apply open_snoc|done|done]|].
      split_and!; [by intros ? ?%not_elem_of_nil|constructor|simpl; lia]. }
    split; cbn; try done.
    + intros y [Hy| ->]%push_turn_elem; [by apply J1|by apply since_here].
    + by apply push_turn_distinct.
    + by apply push_turn_bounded.
    + intros y [= <-] _. by apply since_here.
  - destruct H3 as [(Hs & H4 & H5 & H6)|(H4 & H5 & H6)]; [|by apply inv_ended].
    apply (inv_carry i log e l); try done. intros (c & Hd & Hsome).
    unfold delivers in Hd. rewrite Hv in Hd. destruct cid as [cid|]; [|done]. subst c.
    simpl in Hf. rewrite Hf in Hsome. by destruct Hsome.
Qed.

Lemma complete_turn_sub completed settled open :
  complete_turn completed settled open `sublist_of` open.
Proof.
  unfold complete_turn. destruct settled; [apply sublist_nil_l|]. destruct completed as [cid|]; [|done].
  destruct (position _ open) as [n|]; [|done]. unfold remove_at.
  rewrite <- (take_drop n open) at 3. apply sublist_app; [done|].
  destruct (drop n open) as [|y r] eqn:Hd.
  - by rewrite <- (Nat.add_1_r n), <- drop_drop, Hd.
  - rewrite <- (Nat.add_1_r n), <- drop_drop, Hd. simpl. by apply sublist_cons.
Qed.
Lemma complete_turn_elem completed settled open x :
  NoDup (in_command_id <$> open) → x ∈ complete_turn completed settled open →
  completed ≠ Some (in_command_id x) ∧ settled = false.
Proof.
  unfold complete_turn. intros Hn Hx. destruct settled; [by apply not_elem_of_nil in Hx|].
  split; [|done]. destruct completed as [cid|]; [|done]. intros [= ->].
  destruct (position _ open) as [n|] eqn:Hp.
  - apply position_Some in Hp as (y & Hy & Hid%bool_decide_eq_true & _).
    assert (open = take n open ++ y :: drop (S n) open) as Ho by (by rewrite take_drop_middle).
    rewrite Ho, fmap_app, fmap_cons, Hid in Hn. unfold remove_at in Hx.
    apply list.NoDup_app in Hn as (_ & Hn1 & [Hn2 _]%list.NoDup_cons).
    apply elem_of_app in Hx as [Hx|Hx].
    + apply (Hn1 (in_command_id x)); [by apply list_elem_of_fmap_2|by left].
    + apply Hn2. by apply list_elem_of_fmap_2.
  - pose proof (proj1 (position_None _ _) Hp x Hx) as Hne. by apply bool_decide_eq_false in Hne.
Qed.

Lemma inv_result i log e l completed settled s :
  ledger_inv i log l → view e.2 = EvResult completed settled s →
  ledger_inv i (log ++ [e]) (ledger_step e.1 i (EvResult completed settled s) l).
Proof.
  intros HI Hv.
  destruct (inv_observe i log e l s HI) as (H1 & H2 & H3); [by rewrite Hv..|].
  cbn [ledger_step]. set (l1 := (observe_session s l).1) in *.
  destruct H3 as [(Hs & H4 & H5 & H6)|(H4 & H5 & H6)].
  - set (l0 := set_open (complete_turn completed settled (led_open l1)) l).
    assert (ledger_inv i log l0) as HI0.
    { pose proof (complete_turn_sub completed settled (led_open l1)) as Hsub. rewrite H4 in Hsub.
      destruct HI as [I1 I2 I3 I4 I5 I6 I7]. unfold l0. rewrite H4. split; cbn; try done.
      - intros He. destruct (I2 He) as [Hnil ?]. split; [|done]. rewrite Hnil in Hsub.
        rewrite Hnil. by apply sublist_nil_r in Hsub.
      - intros Hne. apply I3. intros Hnil. apply Hne. rewrite Hnil in Hsub. rewrite Hnil.
        by apply sublist_nil_r in Hsub.
      - intros x Hx. apply I4. by eapply elem_of_sublist.
      - eapply sublist_NoDup; [exact I5|]. by apply fmap_sublist.
      - etrans; [by apply sublist_length|done]. }
    apply (inv_carry i log e l0); try done.
    + intros (c & Hd & _). unfold delivers in Hd. by rewrite Hv in Hd.
    + intros x Hx. unfold completes. rewrite Hv. cbn in Hx.
      destruct (complete_turn_elem completed settled (led_open l1) x) as [? ->]; [|done|by intros [?|?]].
      rewrite H4. apply (li_distinct _ _ _ HI).
  - apply inv_ended; cbn; try done. rewrite H4. pose proof (complete_turn_sub completed settled []) as Hn.
    by apply sublist_nil_r in Hn.
Qed.

Lemma inv_session i log e l s ended :
  ledger_inv i log l → view e.2 = EvSession s ended →
  ledger_inv i (log ++ [e]) (ledger_step e.1 i (EvSession s ended) l).
Proof.
  intros HI Hv. cbn [ledger_step]. destruct (observe_session_spec s l) as (H1 & H2 & H3).
  set (l1 := (observe_session s l).1) in *.
  assert (led_session l1 = session_of (log ++ [e])) as Hse.
  { by rewrite H1, session_of_snoc, Hv, (li_session _ _ _ HI). }
  destruct H3 as [(Hcomp & H4 & H5 & H6)|(H4 & H5 & H6)].
  - destruct ended; cbn [andb].
    + destruct (led_ended l1) eqn:He; cbn [negb]; [|by apply inv_ended].
      destruct (li_ended _ _ _ HI (eq_sym H6)) as [Ho Hx]. apply inv_ended; congruence.
    + apply (inv_carry i log e l); try done.
      * split; [by rewrite Hv|]. intros a b Ha. rewrite Hv. apply Hcomp. by rewrite (li_session _ _ _ HI).
      * intros (c & Hd & _). unfold delivers in Hd. by rewrite Hv in Hd.
      * intros x _. unfold completes. rewrite Hv. tauto.
  - rewrite H6, andb_false_r. by apply inv_ended.
Qed.

Lemma inv_step i log e l :
  ledger_inv i log l → ledger_inv i (log ++ [e]) (ledger_step e.1 i (view e.2) l).
Proof.
  intros HI. destruct (view e.2) as [cid| |s ended|cid s|completed settled s|] eqn:Hv.
  - by apply inv_message.
  - assert (session_of (log ++ [e]) = session_of log) as Hs by (by rewrite session_of_snoc, Hv).
    cbn. destruct (led_ended l) eqn:He.
    + destruct (li_ended _ _ _ HI He). apply inv_ended; try done. by rewrite Hs, (li_session _ _ _ HI).
    + apply inv_ended; try done. by rewrite Hs, <- (li_session _ _ _ HI).
  - by apply inv_session.
  - by apply inv_started.
  - by apply inv_result.
  - apply (inv_carry i log e l); try done.
    + split; rewrite Hv; simpl; congruence.
    + intros (c & Hd & _). unfold delivers in Hd. by rewrite Hv in Hd.
    + intros x _. unfold completes. rewrite Hv. tauto.
    + rewrite session_of_snoc, Hv. exact (li_session _ _ _ HI).
Qed.

Lemma ledger_of_inv i log : ledger_inv i log (ledger_of i log).
Proof.
  induction log as [|e log IH] using rev_ind.
  - split; try done; [by intros ? ?%not_elem_of_nil|constructor|simpl; lia].
  - unfold ledger_of. rewrite foldl_snoc. by apply inv_step.
Qed.

(** What [derive] reads. *)
Lemma derive_reads i c c' r :
  derive i c = (c', Ok r) →
  r = ledger_root_turn (
    if bool_decide ((hub_instances c !! i ≫= row_lifecycle) ∈ [Some "closing"; Some "exited"; Some "failed"])
    then end_process (stored_ledger (hub_instances c !! i)) else stored_ledger (hub_instances c !! i)).
Proof.
  unfold derive, load_with_lifecycle. rewrite !st_bind_eq. pose proof (statement_tables c) as [Ht _].
  destruct (statement c) as [c1 [[]|e]]; simpl in *; [|done]. rewrite Ht. intros [= _ <-].
  by destruct (hub_instances c !! i).
Qed.

Lemma input_root_turn_human x k :
  rt_origin (input_root_turn x k) = InHuman →
  in_hub x = false ∧ in_origin x = InHuman ∧ input_root_turn x k = mkRootTurn (in_command_id x) InHuman k.
Proof. unfold input_root_turn. destruct (in_hub x); [done|]. simpl. by intros ->. Qed.

(** A human reading comes from the front turn or, on a carrier without turn
    boundaries, from the latest input. *)
Lemma ledger_root_turn_human l t :
  ledger_root_turn l = Some t → rt_origin t = InHuman →
  led_ended l = false ∧ ∃ x, in_hub x = false ∧ in_origin x = InHuman ∧ rt_command_id t = in_command_id x ∧
    (rt_continuation t = ContinuationFresh ∧ head (led_open l) = Some x ∨
     rt_continuation t = ContinuationUnknown ∧ led_last l = Some x).
Proof.
  unfold ledger_root_turn. intros Ht Ho. destruct (led_ended l).
  { destruct (led_last l); simplify_eq/=. }
  split; [done|]. destruct (led_open l) as [|front open]; simpl in *.
  - destruct (led_last l) as [x|]; simplify_eq/=. destruct (led_exact l).
    { destruct (in_hub x) eqn:Hh; simplify_eq/=. unfold input_root_turn in Ho. by rewrite Hh in Ho. }
    simplify_eq/=. destruct (input_root_turn_human _ _ Ho) as (? & ? & ->). exists x. naive_solver.
  - simplify_eq/=. destruct (input_root_turn_human _ _ Ho) as (? & ? & ->). exists front. naive_solver.
Qed.

(** C35. A turn is only ever attributed to the owner while the process that got
    the owner's input is alive.  When the Hub reads a root turn of human origin,
    some appended event delivered that command while its row was an owner's
    input to this very instance (no initiator, stamped [human]); since then no
    event ended the process, terminally or by naming another native session, and
    the instance row is not closing, exited or failed.  With exact turn
    boundaries the turn was started for the command and has not been completed;
    without them no later input was delivered. *)
Theorem human_root_turn_is_the_owners_live_input i c log c' t :
  reach i c log → derive i c = (c', Ok (Some t)) → rt_origin t = InHuman →
  since (λ _ e, delivers (rt_command_id t) e ∧ human_row e.1 i (rt_command_id t)) same_process log ∧
  (hub_instances c !! i ≫= row_lifecycle) ∉ [Some "closing"; Some "exited"; Some "failed"] ∧
  (rt_continuation t = ContinuationFresh ∧
     since (λ _ e, starts (rt_command_id t) e) (running (rt_command_id t)) log ∨
   rt_continuation t = ContinuationUnknown ∧
     since (λ _ e, delivers (rt_command_id t) e) (latest i) log).
Proof.
  intros Hreach Hd Ho. apply derive_reads in Hd. rewrite (reach_ledger _ _ _ Hreach) in Hd.
  pose proof (ledger_of_inv i log) as HI. set (l := ledger_of i log) in *.
  case_bool_decide as Hlife; symmetry in Hd.
  { by destruct (ledger_root_turn_human _ _ Hd Ho) as [? _]. }
  destruct (ledger_root_turn_human _ _ Hd Ho) as (He & x & Hh & Hx & -> & [[-> Hf]|[-> Hlast]]).
  - apply head_Some_elem_of in Hf. pose proof (li_open _ _ _ HI x Hf) as Hs.
    split_and!; [|done|left; split; [done|]]; (eapply since_mono; [| |exact Hs]).
    + intros pre e [Hst Hfind]. split; [|by eapply find_input_human].
      unfold starts, delivers in *. by destruct (view e.2).
    + by intros pre e [? _].
    + by intros pre e [? _].
    + done.
  - pose proof (li_last _ _ _ HI x Hlast He) as Hs.
    split_and!; [|done|right; split; [done|]]; (eapply since_mono; [| |exact Hs]).
    + intros pre e [Hdel Hfind]. split; [done|by eapply find_input_human].
    + by intros pre e [? _].
    + by intros pre e [? _].
    + done.
Qed.

(** The ledger row is bounded and its open turns are distinct. *)
Lemma reached_ledger_inv i c log :
  reach i c log → ledger_inv i log (stored_ledger (hub_instances c !! i)).
Proof. intros Hr. rewrite (reach_ledger _ _ _ Hr). apply ledger_of_inv. Qed.
End turns.

(** ** What stripping leaves *)

Inductive Seg : Type := Key (k : string) | Index (n : nat).
#[export] Instance Seg_eq_dec : EqDecision Seg.
Proof. solve_decision. Defined.
Fixpoint at_path (p : list Seg) (v : Value) : option Value :=
  match p with
  | [] => Some v
  | Key k :: r => match v with VObject fs => assoc k fs ≫= at_path r | _ => None end
  | Index n :: r => match v with VArray l => l !! n ≫= at_path r | _ => None end
  end.

Definition strip_fields (depth : nat) (fs : list (string * Value)) : list (string * Value) :=
  omap (λ kx, if decide (kx.1 = "requestedBy") then None
              else Some (kx.1, strip_requested_by_at kx.2 depth)) fs.
Lemma strip_at_object depth fs :
  (depth < STRIP_MAX_DEPTH)%nat →
  strip_requested_by_at (VObject fs) depth = VObject (strip_fields (S depth) fs).
Proof.
  intros Hd. cbn [strip_requested_by_at]. rewrite (proj2 (Nat.leb_gt _ _)) by done. f_equal.
  induction fs as [|[k x] fs IH]; [done|]. unfold strip_fields. csimpl. cbn [fst snd].
  case_decide; [exact IH|]. f_equal. exact IH.
Qed.
Lemma strip_at_array depth l :
  (depth < STRIP_MAX_DEPTH)%nat →
  strip_requested_by_at (VArray l) depth = VArray ((λ x, strip_requested_by_at x (S depth)) <$> l).
Proof.
  intros Hd. cbn [strip_requested_by_at]. rewrite (proj2 (Nat.leb_gt _ _)) by done. f_equal.
Qed.
Lemma strip_at_scalar depth v : is_container v = false → strip_requested_by_at v depth = v.
Proof. destruct v; try done; simpl; by case_match. Qed.
Lemma strip_at_deep depth v :
  (STRIP_MAX_DEPTH ≤ depth)%nat →
  strip_requested_by_at v depth = if is_container v then VNull else v.
Proof. intros Hd. destruct v; cbn [strip_requested_by_at]; by rewrite (proj2 (Nat.leb_le _ _)). Qed.

Lemma assoc_strip_fields depth k fs :
  assoc k (strip_fields depth fs) =
    if decide (k = "requestedBy") then None
    else (λ x, strip_requested_by_at x depth) <$> assoc k fs.
Proof.
  induction fs as [|[k' x] fs IH]; [by case_decide|]. unfold strip_fields. csimpl. cbn [fst snd].
  fold (strip_fields depth fs).
  destruct (decide (k' = "requestedBy")) as [->|Hne]; csimpl.
  - rewrite IH. destruct (decide (k = "requestedBy")); [done|]. by rewrite decide_False by congruence.
  - rewrite IH. destruct (decide (k' = k)) as [->|Hk]; [by rewrite decide_False|done].
Qed.

(** The value at a path of the stripped value, exactly. *)
Lemma at_path_strip p v depth :
  at_path p (strip_requested_by_at v depth) =
    if decide (Key "requestedBy" ∈ p) then None
    else if decide (p = [] ∨ depth + length p ≤ STRIP_MAX_DEPTH)%nat
         then (λ x, strip_requested_by_at x (depth + length p)) <$> at_path p v else None.
Proof.
  revert v depth. induction p as [|g p IH]; intros v depth.
  { rewrite decide_False by apply not_elem_of_nil. rewrite decide_True by (by left). simpl.
    by rewrite Nat.add_0_r. }
  assert (∀ (x : Value), (if decide (Key "requestedBy" ∈ p) then None
    else if decide (p = [] ∨ S depth + length p ≤ STRIP_MAX_DEPTH)%nat
         then (λ x, strip_requested_by_at x (S depth + length p)) <$> at_path p x else None) =
    at_path p (strip_requested_by_at x (S depth))) as IHs by done.
  destruct (decide (depth < STRIP_MAX_DEPTH)%nat) as [Hd|Hd].
  - assert ((p = [] ∨ S depth + length p ≤ STRIP_MAX_DEPTH)%nat ↔
            (g :: p = [] ∨ depth + length (g :: p) ≤ STRIP_MAX_DEPTH)%nat) as Hiff.
    { simpl. split; [intros [->|?]; right; simpl; lia|intros [?|?]; [done|right; lia]]. }
    replace (depth + length (g :: p))%nat with (S depth + length p)%nat in * by (simpl; lia).
    rewrite <- (decide_ext _ _ _ _ Hiff).
    destruct g as [k|n].
    + destruct v as [| | | | |fs]; try (cbn [at_path strip_requested_by_at];
        rewrite (proj2 (Nat.leb_gt _ _)) by done; by repeat case_decide).
      rewrite strip_at_object by done. cbn [at_path]. rewrite assoc_strip_fields.
      destruct (decide (k = "requestedBy")) as [->|Hk]; [by rewrite decide_True by (by left)|].
      rewrite (decide_ext (Key "requestedBy" ∈ Key k :: p) (Key "requestedBy" ∈ p))
        by (rewrite elem_of_cons; naive_solver).
      destruct (assoc k fs) as [x|]; simpl; [by rewrite <- IHs|by repeat case_decide].
    + destruct v as [| | | |l|]; try (cbn [at_path strip_requested_by_at];
        rewrite (proj2 (Nat.leb_gt _ _)) by done; by repeat case_decide).
      rewrite strip_at_array by done. cbn [at_path]. rewrite list_lookup_fmap.
      rewrite (decide_ext (Key "requestedBy" ∈ Index n :: p) (Key "requestedBy" ∈ p))
        by (rewrite elem_of_cons; naive_solver).
      destruct (l !! n) as [x|]; simpl; [by rewrite <- IHs|by repeat case_decide].
  - rewrite strip_at_deep by lia. rewrite (decide_False (P := g :: p = [] ∨ _)) by (simpl; intros [?|?]; [done|lia]).
    destruct (decide (Key "requestedBy" ∈ g :: p)); by destruct g, v.
Qed.

(** Nothing a Node supplies survives as a [requestedBy], and nothing else is
    touched.  In a stripped event no path goes through a key [requestedBy] or is
    deeper than the bound; every scalar that is not below such a key and within
    the bound stays where it was, and above the bound every scalar was there
    before.  Events that are not about an interaction are left alone. *)
Theorem strip_removes_exactly_requested_by event :
  (is_interaction_event event = true →
   (∀ p x, at_path p (strip_supplied_requested_by event) = Some x →
      Key "requestedBy" ∉ p ∧ length p ≤ STRIP_MAX_DEPTH) ∧
   (∀ p x, is_container x = false → Key "requestedBy" ∉ p → length p ≤ STRIP_MAX_DEPTH →
      at_path p event = Some x → at_path p (strip_supplied_requested_by event) = Some x) ∧
   (∀ p x, is_container x = false → length p < STRIP_MAX_DEPTH →
      at_path p (strip_supplied_requested_by event) = Some x → at_path p event = Some x)) ∧
  (is_interaction_event event = false → strip_supplied_requested_by event = event).
Proof.
  unfold strip_supplied_requested_by. split; intros ->; [|done].
  unfold strip_requested_by. split_and!; intros p x; rewrite at_path_strip.
  - repeat case_decide; try done. intros _. split; [done|]. destruct_or!; subst; simpl in *; lia.
  - intros Hx Hk Hl ->. rewrite decide_False, decide_True by (done || by right). simpl.
    by rewrite strip_at_scalar.
  - intros Hx Hl. repeat case_decide; try done. destruct (at_path p event) as [y|]; [|done]. simpl.
    intros [= Hy]. f_equal. destruct y; try by rewrite strip_at_scalar in Hy.
    + rewrite strip_at_array in Hy by done. by subst.
    + rewrite strip_at_object in Hy by done. by subst.
Qed.

(** ** Witnesses *)

#[export] Instance InputOrigin_countable : Countable InputOrigin.
Proof.
  refine (inj_countable' (λ o, match o with InHuman => 0 | InBot => 1 | InAgent => 2 | InHub => 3 end)
    (λ n, match n with 0 => InHuman | 1 => InBot | 2 => InAgent | _ => InHub end) _).
  by intros [].
Defined.
#[export] Instance Input_countable : Countable Input.
Proof.
  refine (inj_countable' (λ x, (in_command_id x, in_origin x, in_hub x))
    (λ '(a, b, c), mkInput a b c) _). by intros [].
Defined.
#[export] Instance Ledger_countable : Countable Ledger.
Proof.
  refine (inj_countable' (λ l, (led_open l, led_last l, led_exact l, led_session l, led_ended l))
    (λ '(a, b, c, d, e), mkLedger a b c d e) _). by intros [].
Defined.

(** A ledger written as the bits of its code. *)
Fixpoint bits (p : positive) : string :=
  match p with xH => "" | xO p => String Ascii.zero (bits p) | xI p => String Ascii.one (bits p) end.
Fixpoint unbits (s : string) : positive :=
  match s with
  | "" => xH
  | String c r => if decide (c = Ascii.zero) then xO (unbits r) else xI (unbits r)
  end.
Lemma unbits_bits p : unbits (bits p) = p.
Proof. induction p as [p IH|p IH|]; simpl; by rewrite ?IH. Qed.
Definition w_human : Value := VObject [("origin", VString "human")].
#[local] Instance w_ledger_codec : LedgerCodec := {
  ledger_to_string l := Some (bits (encode l));
  ledger_from_str s := decode (unbits s);
  value_from_str s := if decide (s = "human") then Some w_human else None;
}.
#[local] Instance w_ledger_laws : LedgerCodecLaws.
Proof. intros l t [= <-]. cbn. by rewrite unbits_bits, decode_encode. Qed.

Definition w_commands : gmap string CommandRow := {["cmd_1" := mkCommandRow (Some "ins_a") "human" None]}.
Definition w_conn : Conn := mkConn {["ins_a" := mkTurnRow None (Some "ready")]} w_commands [].
Definition w_message : Value := VObject [("kind", VString "message");
  ("payload", VObject [("role", VString "user"); ("operation", VString "open");
                       ("commandId", VString "cmd_1")])].
Definition w_started : Value := VObject [("kind", VString "lifecycle");
  ("payload", VObject [("type", VString "native"); ("topic", VString "turn");
     ("nativeName", VString "turn_started"); ("nativeId", VObject [("value", VString "s1")]);
     ("relatedIds", VObject [("nativeClientMessageId", VString "cmd_1")])])].
Definition w_conn1 : Conn := (fold "ins_a" w_message (set_hub_faults [] w_conn)).1.
Definition w_conn2 : Conn := (fold "ins_a" w_started (set_hub_faults [] w_conn1)).1.
Lemma w_message_run : fold "ins_a" w_message (set_hub_faults [] w_conn) = (w_conn1, Ok tt).
Proof. reflexivity. Qed.
Lemma w_started_run : fold "ins_a" w_started (set_hub_faults [] w_conn1) = (w_conn2, Ok tt).
Proof. vm_compute. reflexivity. Qed.
Lemma w_reached :
  reach "ins_a" w_conn2 ([(hub_commands w_conn, w_message)] ++ [(hub_commands w_conn1, w_started)]).
Proof.
  eapply reach_append; [|apply (bool_decide_unpack _); vm_compute; exact I|exact w_started_run].
  apply (reach_append "ins_a" w_conn [] w_message []); [|by eexists|exact w_message_run].
  apply reach_start. by apply map_Forall_singleton.
Qed.
Definition w_turn : RootTurn := mkRootTurn "cmd_1" InHuman ContinuationFresh.
Lemma w_derived : derive "ins_a" w_conn2 = (w_conn2, Ok (Some w_turn)).
Proof. vm_compute. reflexivity. Qed.

Lemma human_turn_witness :
  ∃ log, reach "ins_a" w_conn2 log ∧
    since (λ _ e, delivers "cmd_1" e ∧ human_row e.1 "ins_a" "cmd_1") same_process log ∧
    (hub_instances w_conn2 !! "ins_a" ≫= row_lifecycle) ∉ [Some "closing"; Some "exited"; Some "failed"] ∧
    (rt_continuation w_turn = ContinuationFresh ∧
       since (λ _ e, starts "cmd_1" e) (running "cmd_1") log ∨
     rt_continuation w_turn = ContinuationUnknown ∧
       since (λ _ e, delivers "cmd_1" e) (latest "ins_a") log).
Proof.
  eexists. split; [exact w_reached|].
  apply (human_root_turn_is_the_owners_live_input "ins_a" w_conn2 _ w_conn2 w_turn w_reached w_derived).
  reflexivity.
Defined.

Definition w_card : Value := VObject [("kind", VString "interaction.requested");
  ("payload", VObject [("requestedBy", VString "owner"); ("title", VString "x")])].
Lemma strip_witness :
  at_path [Key "payload"; Key "title"] (strip_supplied_requested_by w_card) = Some (VString "x") ∧
  strip_supplied_requested_by w_card = VObject [("kind", VString "interaction.requested");
    ("payload", VObject [("title", VString "x")])].
Proof.
  split; [|reflexivity].
  destruct (strip_removes_exactly_requested_by w_card) as [H _].
  destruct (H eq_refl) as (_ & H2 & _). apply H2; [reflexivity| | |reflexivity].
  - apply (bool_decide_unpack _). vm_compute. exact I.
  - apply (bool_decide_unpack _). vm_compute. exact I.
Defined.
