(* ===== verification/WorktreePool.v ===== *)
(** * The worktree pool

    [remuda-node/src/worktree_pool.rs] and the catalog half of [worktree.rs]:
    leasing, sharing, returning and reclaiming the git worktrees of a
    repository.  Git and the file system are the environment: every command and
    every probe asks it and may get any answer, at any moment; what the code
    keeps is the catalog file, and what it does to the world is the trace of
    what it asked.  Operations are taken one at a time, as the Node serves
    them. *)
From stdpp Require Import base list gmap strings numbers pretty.
From S2P Require Import Prelude Text NodeStore.
Local Open Scope nat_scope.

(** ** Names *)

Definition is_lower (c : Ascii.ascii) : bool :=
  let n := Ascii.nat_of_ascii c in (97 <=? n) && (n <=? 122).
Definition is_digit (c : Ascii.ascii) : bool :=
  let n := Ascii.nat_of_ascii c in (48 <=? n) && (n <=? 57).
Definition is_upper (c : Ascii.ascii) : bool :=
  let n := Ascii.nat_of_ascii c in (65 <=? n) && (n <=? 90).
Definition is_char (n : nat) (c : Ascii.ascii) : bool := Ascii.nat_of_ascii c =? n.
Definition is_dash : Ascii.ascii → bool := is_char 45.
Definition is_underscore : Ascii.ascii → bool := is_char 95.
Abbreviation chars := String.list_ascii_of_string (only parsing).
Abbreviation of_chars := String.string_of_list_ascii (only parsing).

(** [path_guard::safe_segment], as [validate_name] uses it. *)
Definition safe_segment (name : string) : bool :=
  (1 <=? String.length name) && (String.length name <=? 32) &&
  match chars name with c :: _ => is_lower c | [] => false end &&
  forallb (λ c, is_lower c || is_digit c || is_underscore c || is_dash c) (chars name).

(** [str::rsplit_once("-s")]: the last occurrence. *)
Fixpoint rsplit_slot (s : list Ascii.ascii) : option (list Ascii.ascii * list Ascii.ascii) :=
  match s with
  | [] => None
  | c :: r =>
      match rsplit_slot r with
      | Some (p, n) => Some (c :: p, n)
      | None =>
          match r with
          | d :: n => if is_dash c && is_char 115 d then Some ([], n) else None
          | [] => None
          end
      end
  end.
(** [is_reserved_slot_name]. *)
Definition is_reserved_slot_name (name : string) : bool :=
  match rsplit_slot (chars name) with
  | Some (pool, number) =>
      negb (bool_decide (pool = [])) && negb (bool_decide (number = [])) && forallb is_digit number
  | None => false
  end.

(** [str::parse::<usize>]: an optional sign, then digits, without overflow. *)
Fixpoint digits_value (acc : N) (s : list Ascii.ascii) : option N :=
  match s with
  | [] => Some acc
  | c :: r =>
      if is_digit c then
        let v := (acc * 10 + (N.of_nat (Ascii.nat_of_ascii c) - 48))%N in
        if (v <=? Z.to_N u64_max)%N then digits_value v r else None
      else None
  end.
Definition parse_usize (s : list Ascii.ascii) : option N :=
  let s := match s with c :: r => if is_char 43 c then r else s | [] => s end in
  if bool_decide (s = []) then None else digits_value 0 s.

(** [slot_number]: the number of [<pool>-s<n>]. *)
Definition slot_number (pool name : string) : option N :=
  suffix ← strip_prefix (chars (pool +:+ "-s")) (chars name);
  if bool_decide (suffix = []) then None
  else n ← parse_usize suffix; if (1 <=? n)%N then Some n else None.

(** [slugify]; white space at the ends becomes dashes, which are trimmed. *)
Definition slug_char (c : Ascii.ascii) : Ascii.ascii :=
  let c := ascii_lower c in
  if is_lower c || is_digit c || is_upper c then c else Ascii.ascii_of_nat 45.
Fixpoint trim_dashes (s : list Ascii.ascii) : list Ascii.ascii :=
  match s with
  | c :: r => if is_dash c then trim_dashes r else s
  | [] => []
  end.
Definition trim_end_dashes (s : list Ascii.ascii) : list Ascii.ascii := reverse (trim_dashes (reverse s)).
(** [replace("--", "-")] and the loop around it. *)
Fixpoint replace_dashes (s : list Ascii.ascii) : list Ascii.ascii :=
  match s with
  | c :: (d :: r) as t =>
      if is_dash c && is_dash d then c :: replace_dashes r else c :: replace_dashes t
  | _ => s
  end.
Fixpoint has_double_dash (s : list Ascii.ascii) : bool :=
  match s with
  | c :: (d :: _) as t => (is_dash c && is_dash d) || has_double_dash t
  | _ => false
  end.
Fixpoint collapse_dashes (fuel : nat) (s : list Ascii.ascii) : list Ascii.ascii :=
  match fuel with
  | O => s
  | S n => if has_double_dash s then collapse_dashes n (replace_dashes s) else s
  end.
Definition slugify (input : string) : string :=
  let s := trim_end_dashes (trim_dashes (slug_char <$> chars input)) in
  let s := collapse_dashes (length s) s in
  if bool_decide (s = []) then "work" else of_chars (trim_end_dashes (take 48 s)).

(** [validate_worker_branch] on [wt/<name>/<slug>]. *)
Definition validate_slug (slug : string) : bool :=
  (1 <=? String.length slug) && (String.length slug <=? 48) &&
  forallb (λ c, is_lower c || is_upper c || is_digit c || is_underscore c || is_dash c) (chars slug).
Definition validate_branch (branch : string) : bool :=
  match split_on (is_char 47) (chars branch) with
  | [wt; name; slug] =>
      bool_decide (wt = chars "wt") && negb (bool_decide (name = [])) && negb (bool_decide (slug = [])) &&
      safe_segment (of_chars name) && validate_slug (of_chars slug)
  | _ => false
  end.

(** ** The catalog *)

(** [enum WorktreeLeaseState], [struct WorktreeRecord], [struct Catalog]. *)
Inductive WorktreeLeaseState : Type := Free | Leased | Parked.
#[export] Instance WorktreeLeaseState_eq_dec : EqDecision WorktreeLeaseState.
Proof. solve_decision. Defined.
Record WorktreeRecord : Type := mkWorktree {
  wt_name : string;
  wt_path : string;
  wt_branch : string;
  wt_base : string;
  wt_state : WorktreeLeaseState;
  wt_pooled : bool;
  wt_leased_by : list string;
}.
Abbreviation Catalog := (list WorktreeRecord) (only parsing).

(** [upsert] and a change of one row. *)
Definition upsert (r : WorktreeRecord) (c : Catalog) : Catalog :=
  retain (λ row, negb (bool_decide (wt_name row = wt_name r))) c ++ [r].
Definition lease_row (branch task : string) (r : WorktreeRecord) : WorktreeRecord :=
  mkWorktree (wt_name r) (wt_path r) branch (wt_base r) Leased (wt_pooled r) [task].
Definition named (n : string) (r : WorktreeRecord) : bool := bool_decide (wt_name r = n).
Definition record_mode (r : WorktreeRecord) : string := if wt_pooled r then "pool" else "reuse".

(** ** The environment *)

(** The git commands the code runs. *)
Inductive GitCmd : Type :=
| RevParseCommonDir
| SymbolicRef
| WorktreeList
| ShowRef (branch : string)
| Switch (branch : string)
| SwitchNew (branch : string)
| SwitchDetach (base : string)
| CleanFd
| RevParseHead
| Fetch
| WorktreeAddDetach (path start_point : string)
| WorktreeAddBranch (branch path start_point : string)
| WorktreeRemove (path : string)
| WorktreeRemoveForce (path : string)
| WorktreePrune.

(** A failed write leaves the old file or a torn one. *)
Inductive SaveOutcome : Type := Saved | SaveFailed | SaveTorn.

(** What the environment answers at each moment. *)
Record Env : Type := mkEnv {
  e_load : nat → bool;
  e_save : nat → SaveOutcome;
  e_git : nat → string → GitCmd → result string NodeError;
  e_status : nat → string → bool → result (list string) NodeError;
  e_is_dir : nat → string → bool;
  e_exists : nat → string → bool;
  e_ref_exists : nat → string → result bool NodeError;
  e_resolve : nat → string → option string → result string NodeError;
  e_mkdir : nat → bool;
  e_canonical : nat → string → option string;
}.

(** The trace of what was done, newest first. *)
Inductive Ev : Type :=
| EvLoaded (c : Catalog)
| EvSaved (c : Catalog)
| EvStatus (path : string) (untracked : bool) (answer : result (list string) NodeError)
| EvGit (dir : string) (cmd : GitCmd)
| EvRemoveDir (path : string).

Record World : Type := mkWorld {
  w_file : option Catalog;
  w_clock : nat;
  w_trace : list Ev;
}.
Abbreviation pool := (st World NodeError).

Definition tick (w : World) : World := mkWorld (w_file w) (S (w_clock w)) (w_trace w).
Definition record_ev (e : Ev) (w : World) : World := mkWorld (w_file w) (S (w_clock w)) (e :: w_trace w).

Section pool.
Context (env : Env) (repo_root : string).

Definition git (dir : string) (cmd : GitCmd) : pool string := λ w,
  (record_ev (EvGit dir cmd) w, e_git env (w_clock w) dir cmd).
(** [working_tree_status]. *)
Definition working_tree_status (path : string) (untracked : bool) : pool (list string) := λ w,
  let a := e_status env (w_clock w) path untracked in (record_ev (EvStatus path untracked a) w, a).
Definition is_dir (path : string) : pool bool := λ w, (tick w, Ok (e_is_dir env (w_clock w) path)).
Definition path_exists (path : string) : pool bool := λ w, (tick w, Ok (e_exists env (w_clock w) path)).
Definition ref_exists (branch : string) : pool bool := λ w,
  (record_ev (EvGit repo_root (ShowRef branch)) w, e_ref_exists env (w_clock w) branch).
Definition resolve_path (name : string) (path : option string) : pool string := λ w,
  (tick w, e_resolve env (w_clock w) name path).
Definition create_parent (path : string) : pool unit := λ w,
  (tick w, if e_mkdir env (w_clock w) then Ok tt else Err (InvalidRequest "create")).
(** [canonicalize().ok()] and [canonicalize().unwrap_or(path)]. *)
Definition canonical_ok (path : string) : pool (option string) := λ w,
  (tick w, Ok (e_canonical env (w_clock w) path)).
Definition canonicalize (path : string) : pool string :=
  c ← canonical_ok path; mret (default path c).
Definition remove_dir_all (path : string) : pool unit := λ w, (record_ev (EvRemoveDir path) w, Ok tt).
(** [let _ = ...]. *)
Definition ignore {A} (c : pool A) : pool unit := λ w, ((c w).1, Ok tt).
(** [if let Err(e) = ...]. *)
Definition catch {A} (c : pool A) (k : NodeError → pool unit) : pool unit := λ w,
  match c w with (w, Ok _) => (w, Ok tt) | (w, Err e) => k e w end.

(** [load_catalog], [save_catalog]; a torn file does not parse. *)
Definition load_catalog : pool Catalog := λ w,
  match w_file w with
  | Some c => if e_load env (w_clock w) then (record_ev (EvLoaded c) w, Ok c)
              else (tick w, Err (InvalidRequest "read"))
  | None => (tick w, Err (InvalidRequest "parse"))
  end.
Definition save_catalog (c : Catalog) : pool unit := λ w,
  match e_save env (w_clock w) with
  | Saved => (record_ev (EvSaved c) (mkWorld (Some c) (w_clock w) (w_trace w)), Ok tt)
  | SaveFailed => (tick w, Err (InvalidRequest "write"))
  | SaveTorn => (tick (mkWorld None (w_clock w) (w_trace w)), Err (InvalidRequest "write"))
  end.

Definition require (b : bool) (e : NodeError) : pool unit := if b then mret tt else st_fail e.
Definition validate_name (name : string) : pool unit :=
  require (safe_segment name) (InvalidRequest "worktree segment").
Definition git_common_dir : pool unit := _ ← git repo_root RevParseCommonDir; mret tt.

(** ** [checkout_task_branch] *)

Record WarmCheckout : Type := mkWarm {
  warm_name : string;
  warm_path : string;
  warm_branch : string;
  warm_base_oid : string;
}.
Definition attempt_git (dir : string) (cmd : GitCmd) : pool bool := λ w,
  let '(w, r) := git dir cmd w in (w, Ok (is_ok r)).
Definition checkout_task_branch (r : WorktreeRecord) (task : string) : pool WarmCheckout :=
  dirt ← working_tree_status (wt_path r) true;
  _ ← require (bool_decide (dirt = [])) (Conflict "dirty; refusing to lease it");
  let branch := "wt/" +:+ wt_name r +:+ "/" +:+ slugify task in
  _ ← require (validate_branch branch) (InvalidRequest "branch");
  known ← attempt_git repo_root (ShowRef branch);
  _ ← (if known : bool then git (wt_path r) (Switch branch) else git (wt_path r) (SwitchNew branch));
  oid ← git (wt_path r) RevParseHead;
  mret (mkWarm (wt_name r) (wt_path r) branch oid).

(** ** Replies *)

Record LeaseReply : Type := mkReply {
  rep_name : string;
  rep_path : string;
  rep_branch : string;
  rep_mode : string;
  rep_refcount : nat;
  rep_warm : bool;
  rep_queued : bool;
}.
Inductive Reply : Type :=
| Granted (r : LeaseReply)
| SupplyDeferred (pool_size : nat).
Definition lease_payload (mode : string) (w : WarmCheckout) (refcount : nat) (warm_hit queued : bool) : Reply :=
  Granted (mkReply (warm_name w) (warm_path w) (warm_branch w) mode refcount warm_hit queued).

(** [struct LeaseParams]; the wire parsing is done. *)
Record LeaseParams : Type := mkLeaseParams {
  lp_name : string;
  lp_task_id : string;
  lp_base : option string;
}.
Definition ROOT_KEY : string := ".".
Definition is_root (q : LeaseParams) : bool := bool_decide (lp_name q = ROOT_KEY).
Definition start_point (q : LeaseParams) : string :=
  let raw := default "main" (lp_base q) in
  if str_contains "/" raw then raw else "origin/" +:+ raw.

(** ** [reuse_record] *)

Definition share_row (task : string) (r : WorktreeRecord) : WorktreeRecord :=
  mkWorktree (wt_name r) (wt_path r) (wt_branch r) (wt_base r) Leased (wt_pooled r)
    (if bool_decide (task ∈ wt_leased_by r) then wt_leased_by r else wt_leased_by r ++ [task]).
Definition reuse_record (c : Catalog) (r : WorktreeRecord) (q : LeaseParams) : pool Reply :=
  let already_held := bool_decide (lp_task_id q ∈ wt_leased_by r) in
  let queued := negb (bool_decide (wt_leased_by r = [])) && negb already_held in
  let r' := share_row (lp_task_id q) r in
  _ ← save_catalog (upsert r' c);
  mret (Granted (mkReply (lp_name q) (wt_path r') (wt_branch r') (record_mode r')
                   (length (wt_leased_by r')) true queued)).

(** ** [reconcile_with] *)

(** [str::lines] of a trimmed text, and [listed_worktrees]. *)
Definition str_lines (s : string) : list (list Ascii.ascii) :=
  (λ l, default l (strip_suffix [Ascii.ascii_of_nat 13] l)) <$> split_on (is_char 10) (chars s).
Definition listed_worktrees : pool (list string) :=
  out ← git repo_root WorktreeList;
  mret (omap (λ l, of_chars <$> strip_prefix (chars "worktree ") l) (str_lines out)).
Definition or_default {A} (d : A) (c : pool A) : pool A := λ w,
  match c w with (w, Ok a) => (w, Ok a) | (w, Err _) => (w, Ok d) end.
Definition heal_row (r : WorktreeRecord) : WorktreeRecord :=
  if bool_decide (wt_state r = Leased) && bool_decide (wt_leased_by r = [])
  then mkWorktree (wt_name r) (wt_path r) (wt_branch r) (wt_base r)
         (if wt_pooled r then Parked else Free) (wt_pooled r) (wt_leased_by r)
  else r.
Fixpoint reconcile_rows (listed : list string) (c : Catalog) : pool Catalog :=
  match c with
  | [] => mret []
  | r :: rest =>
      d ← is_dir (wt_path r);
      rest' ← reconcile_rows listed rest;
      mret (if (d : bool) && bool_decide (wt_path r ∈ listed) then heal_row r :: rest' else rest')
  end.
Definition reconcile_with (c : Catalog) : pool Catalog :=
  listed ← or_default [] listed_worktrees; reconcile_rows listed c.
(** [reconcile]. *)
Definition reconcile : pool unit :=
  _ ← git_common_dir; c ← load_catalog; c ← reconcile_with c; save_catalog c.

(** ** [lease_pool_slot] *)

(** The rows that satisfy [p], by position. *)
Definition indexes (p : WorktreeRecord → bool) (c : Catalog) : list nat :=
  omap (λ ir, if p ir.2 then Some ir.1 else None) (imap pair c).
Definition is_slot (pool_name : string) (r : WorktreeRecord) : bool :=
  bool_decide (is_Some (slot_number pool_name (wt_name r))).

(** The scan for a warm slot: the first parked slot on this base that is clean,
    and the parked slots on other bases met before it. *)
Fixpoint scan_parked (c : Catalog) (base : string) (is_ : list nat) (others : list nat)
    : pool (option nat * list nat) :=
  match is_ with
  | [] => mret (None, others)
  | i :: rest =>
      match c !! i with
      | None => scan_parked c base rest others
      | Some r =>
          if bool_decide (wt_state r ≠ Parked) then scan_parked c base rest others
          else if bool_decide (wt_base r ≠ base) then scan_parked c base rest (others ++ [i])
          else
            dirt ← working_tree_status (wt_path r) true;
            if bool_decide (dirt = []) then mret (Some i, others) else scan_parked c base rest others
      end
  end.

(** [retain(|&index| is_dir(path))]. *)
Fixpoint live_slots (c : Catalog) (is_ : list nat) : pool (list nat) :=
  match is_ with
  | [] => mret []
  | i :: rest =>
      d ← match c !! i with Some r => is_dir (wt_path r) | None => mret false end;
      rest' ← live_slots c rest;
      mret (if d : bool then i :: rest' else rest')
  end.

(** The first idle and clean slot among the candidates for eviction. *)
Fixpoint find_victim (c : Catalog) (is_ : list nat) : pool (option WorktreeRecord) :=
  match is_ with
  | [] => mret None
  | i :: rest =>
      match c !! i with
      | Some r =>
          if bool_decide (wt_leased_by r = []) then
            dirt ← or_default ["?"] (working_tree_status (wt_path r) true);
            if bool_decide (dirt = []) then mret (Some r) else find_victim c rest
          else find_victim c rest
      | None => find_victim c rest
      end
  end.

(** [evict_slot]. *)
Definition evict_slot (c : Catalog) (r : WorktreeRecord) : pool Catalog :=
  _ ← ignore (git repo_root (WorktreeRemove (wt_path r)));
  _ ← ignore (remove_dir_all (wt_path r));
  _ ← ignore (git repo_root WorktreePrune);
  mret (retain (λ row, negb (named (wt_name r) row)) c).

Definition slot_name (pool_name : string) (n : nat) : string := pool_name +:+ "-s" +:+ pretty n.
Definition used_numbers (pool_name : string) (c : Catalog) (is_ : list nat) : list N :=
  (λ i, default 0%N (r ← c !! i; slot_number pool_name (wt_name r))) <$> is_.
Definition free_number (pool_size : nat) (used : list N) : option nat :=
  List.find (λ n, negb (bool_decide (N.of_nat n ∈ used))) (List.seq 1 pool_size).

(** Decision 2: a new slot. *)
Definition provision_slot (c : Catalog) (q : LeaseParams) (number : nat) : pool Reply :=
  let name := slot_name (lp_name q) number in
  _ ← validate_name name;
  abs_path ← resolve_path name None;
  _ ← create_parent abs_path;
  _ ← git repo_root Fetch;
  _ ← git repo_root (WorktreeAddDetach abs_path (start_point q));
  path ← canonicalize abs_path;
  let r := mkWorktree name path "HEAD" (start_point q) Parked true [] in
  let c := upsert r c in
  _ ← save_catalog c;
  warm ← checkout_task_branch r (lp_task_id q);
  let c := (λ row, if named name row then lease_row (warm_branch warm) (lp_task_id q) row else row) <$> c in
  _ ← save_catalog c;
  mret (lease_payload "pool" warm 1 false false).

Definition lease_pool_slot (c : Catalog) (q : LeaseParams) (pool_size : nat) : pool Reply :=
  c ← reconcile_with c;
  let slots := indexes (λ r, wt_pooled r && is_slot (lp_name q) r) c in
  scan ← scan_parked c (start_point q) slots [];
  match scan.1 ≫= (c !!.) with
  | Some r =>
      warm ← checkout_task_branch r (lp_task_id q);
      let c := match scan.1 with
               | Some i => alter (lease_row (warm_branch warm) (lp_task_id q)) i c
               | None => c
               end in
      _ ← save_catalog c;
      mret (lease_payload "pool" warm 1 true false)
  | None =>
      slots ← live_slots c slots;
      cs ← (if bool_decide (pool_size ≤ length slots) then
              v ← find_victim c scan.2;
              match v with
              | Some r =>
                  c ← evict_slot c r;
                  slots ← live_slots c (indexes (is_slot (lp_name q)) c);
                  mret (c, slots)
              | None => mret (c, slots)
              end
            else mret (c, slots));
      let '(c, slots) := cs : Catalog * list nat in
      if bool_decide (pool_size ≤ length slots) then mret (SupplyDeferred pool_size)
      else
        match free_number pool_size (used_numbers (lp_name q) c slots) with
        | None => st_fail (InvalidRequest "could not allocate a pool slot number")
        | Some n => provision_slot c q n
        end
  end.

(** ** [lease_sized] and [return_sized] *)

(** [current_branch]. *)
Definition current_branch : pool string := or_default "HEAD" (git repo_root SymbolicRef).

Definition lease_sized (q : LeaseParams) (pool_size : nat) : pool Reply :=
  if is_root q then
    branch ← current_branch;
    mret (Granted (mkReply ROOT_KEY repo_root branch "reuse" 1 true false))
  else
    _ ← validate_name (lp_name q);
    _ ← git_common_dir;
    c ← load_catalog;
    match position (named (lp_name q)) c with
    | None => lease_pool_slot c q pool_size
    | Some i =>
        match c !! i with
        | None => st_fail (InvalidRequest "index")
        | Some r =>
            d ← is_dir (wt_path r);
            if negb d then st_fail (InvalidRequest "directory is gone; reconcile first")
            else if bool_decide (wt_state r = Parked) && wt_pooled r then
              warm ← checkout_task_branch r (lp_task_id q);
              _ ← save_catalog (alter (lease_row (warm_branch warm) (lp_task_id q)) i c);
              mret (lease_payload "pool" warm 1 true false)
            else reuse_record c r q
        end
    end.

(** [reset_park]. *)
Definition reset_park (path base : string) : pool unit :=
  tracked ← working_tree_status path false;
  _ ← require (bool_decide (tracked = [])) (Conflict "tracked changes; refusing return/reset");
  _ ← git path CleanFd;
  catch (git path (SwitchDetach base)) (λ _, st_fail (Conflict "could not detach")).

Record ReturnReply : Type := mkReturn {
  ret_mode : string;
  ret_state : WorktreeLeaseState;
  ret_refcount : nat;
}.
Definition set_lease (s : WorktreeLeaseState) (branch : string) (tasks : list string) (r : WorktreeRecord)
    : WorktreeRecord :=
  mkWorktree (wt_name r) (wt_path r) branch (wt_base r) s (wt_pooled r) tasks.
Definition return_sized (q : LeaseParams) : pool ReturnReply :=
  if is_root q then mret (mkReturn "reuse" Free 0)
  else
    _ ← validate_name (lp_name q);
    _ ← git_common_dir;
    c ← load_catalog;
    match position (named (lp_name q)) c with
    | None => st_fail (NotFound "worktree" (lp_name q))
    | Some i =>
        match c !! i with
        | None => st_fail (InvalidRequest "index")
        | Some r =>
            if negb (bool_decide (lp_task_id q ∈ wt_leased_by r))
            then st_fail (Conflict "task does not hold a lease")
            else
              let tasks := retain (λ t, negb (bool_decide (t = lp_task_id q))) (wt_leased_by r) in
              if bool_decide (tasks ≠ []) then
                _ ← save_catalog (alter (set_lease Leased (wt_branch r) tasks) i c);
                mret (mkReturn (record_mode r) Leased (length tasks))
              else if negb (wt_pooled r) then
                _ ← save_catalog (alter (set_lease Free (wt_branch r) tasks) i c);
                mret (mkReturn "reuse" Free 0)
              else
                _ ← reset_park (wt_path r) (wt_base r);
                _ ← save_catalog (alter (set_lease Parked "HEAD" tasks) i c);
                mret (mkReturn "pool" Parked 0)
        end
    end.

(** ** [remove_record] and [provision_record] ([worktree.rs]) *)

Inductive ReclaimOutcome : Type :=
| Removed (removed : bool)
| Retained (path : string) (refcount : nat).
Definition remove_record (name : string) : pool ReclaimOutcome :=
  _ ← validate_name name;
  _ ← git_common_dir;
  c ← load_catalog;
  match List.find (named name) c with
  | None => mret (Removed false)
  | Some r =>
      if bool_decide (wt_leased_by r ≠ []) then mret (Retained (wt_path r) (length (wt_leased_by r)))
      else
        there ← path_exists (wt_path r);
        _ ← (if there : bool then
               catch (git repo_root (WorktreeRemoveForce (wt_path r))) (λ e,
                 _ ← ignore (remove_dir_all (wt_path r));
                 _ ← ignore (git repo_root WorktreePrune);
                 there ← path_exists (wt_path r);
                 if there : bool then st_fail e else mret tt)
             else mret tt);
        _ ← save_catalog (retain (λ row, negb (named name row)) c);
        mret (Removed true)
  end.

Definition provision_record (name branch start : string) : pool (string * string) :=
  _ ← validate_name name;
  _ ← require (negb (is_reserved_slot_name name)) (InvalidRequest "reserved pool-slot suffix");
  _ ← require (validate_branch branch) (InvalidRequest "branch");
  _ ← git_common_dir;
  abs_path ← resolve_path name None;
  c ← load_catalog;
  let existing := List.find (named name) c in
  kept ← match existing with
         | Some r => d ← path_exists (wt_path r); mret ((d : bool) && bool_decide (wt_branch r = branch))
         | None => mret false
         end;
  match existing, kept with
  | Some r, true => mret (wt_path r, wt_branch r)
  | _, _ =>
      let c := retain (λ row, negb (named name row)) c in
      _ ← create_parent abs_path;
      _ ← git repo_root Fetch;
      known ← ref_exists branch;
      _ ← require (negb known) (InvalidRequest "branch already exists");
      _ ← git repo_root (WorktreeAddBranch branch abs_path start);
      path ← canonicalize abs_path;
      _ ← save_catalog (upsert (mkWorktree name path branch start Free false []) c);
      mret (path, branch)
  end.

(** ** [create_record] ([worktree.rs]) *)

(** [find_listed_worktree]: the listed worktree at [path], or the first whose
    canonical path is the same, which two paths that do not exist also have. *)
Definition same_path (current want : string) : pool bool :=
  if bool_decide (current = want) then mret true
  else
    a ← canonical_ok current;
    b ← canonical_ok want;
    mret (bool_decide (a = b)).
Fixpoint find_listed_lines (want : string) (lines : list (list Ascii.ascii)) (current branch : string)
    : pool (option (string * string)) :=
  match lines with
  | [] => mret None
  | line :: rest =>
      if bool_decide (line = []) then
        hit ← (if bool_decide (current = "") then mret false else same_path current want);
        if hit : bool then mret (Some (current, if bool_decide (branch = "") then "HEAD" else branch))
        else find_listed_lines want rest "" ""
      else
        match strip_prefix (chars "worktree ") line with
        | Some p => find_listed_lines want rest (of_chars p) branch
        | None =>
            match strip_prefix (chars "branch refs/heads/") line with
            | Some b => find_listed_lines want rest current (of_chars b)
            | None => find_listed_lines want rest current branch
            end
        end
  end.
Definition find_listed_worktree (path : string) : pool (option (string * string)) :=
  out ← git repo_root WorktreeList;
  find_listed_lines path (str_lines out ++ [[]]) "" "".

(** [unique_branch]. *)
Fixpoint first_free_branch (name : string) (ns : list nat) : pool string :=
  match ns with
  | [] => st_fail (InvalidRequest "could not allocate branch")
  | n :: rest =>
      let candidate := "wt/" +:+ name +:+ "/work-" +:+ pretty n in
      known ← ref_exists candidate;
      if known : bool then first_free_branch name rest else mret candidate
  end.
Definition unique_branch (name : string) : pool string :=
  let preferred := "wt/" +:+ name +:+ "/work" in
  known ← ref_exists preferred;
  if negb known then mret preferred else first_free_branch name (List.seq 2 998).

Definition create_record (name base : string) (path : option string) : pool WorktreeRecord :=
  _ ← git_common_dir;
  abs_path ← resolve_path name path;
  c ← load_catalog;
  let existing := List.find (named name) c in
  there ← match existing with Some r => path_exists (wt_path r) | None => mret false end;
  match existing, there with
  | Some r, true => mret r
  | _, _ =>
      let c := retain (λ row, negb (named name row)) c in
      listed ← find_listed_worktree abs_path;
      match listed with
      | Some (p, branch) =>
          let r := mkWorktree name p branch base Free false [] in
          _ ← save_catalog (upsert r c);
          mret r
      | None =>
          _ ← create_parent abs_path;
          branch ← unique_branch name;
          _ ← git repo_root (WorktreeAddBranch branch abs_path base);
          p ← canonicalize abs_path;
          let r := mkWorktree name p branch base Free false [] in
          _ ← save_catalog (upsert r c);
          mret r
      end
  end.
(** [create], on parsed parameters. *)
Definition create (name base : string) (path : option string) : pool WorktreeRecord :=
  _ ← validate_name name;
  _ ← require (negb (is_reserved_slot_name name)) (InvalidRequest "reserved pool-slot suffix");
  create_record name base path.

(** ** One request after another *)

Inductive PoolOp : Type :=
| OpLease (q : LeaseParams)
| OpReturn (q : LeaseParams)
| OpProvision (name branch start : string)
| OpCreate (name base : string) (path : option string)
| OpRemove (name : string)
| OpReconcile.
Definition serve (pool_size : nat) (op : PoolOp) : pool unit :=
  match op with
  | OpLease q => _ ← lease_sized q pool_size; mret tt
  | OpReturn q => _ ← return_sized q; mret tt
  | OpProvision name branch start => _ ← provision_record name branch start; mret tt
  | OpCreate name base path => _ ← create name base path; mret tt
  | OpRemove name => _ ← remove_record name; mret tt
  | OpReconcile => reconcile
  end.
Definition serve_all (pool_size : nat) (ops : list PoolOp) (w : World) : World :=
  foldl (λ w op, (serve pool_size op w).1) w ops.
End pool.
