(* ===== verification/PoolSafety.v ===== *)
(** * What the worktree pool may do, and what it keeps

    Any sequence of requests, against any answers of git and the file system:
    directories are only touched as [legit] allows, and the catalog stays well
    formed.  The triples follow the operations of [WorktreePool] one by one. *)
From stdpp Require Import base list gmap strings numbers pretty.
From S2P Require Import Prelude Text NodeStore WorktreePool.
Local Open Scope nat_scope.

(** ** What may be done to a directory *)

(** The catalog the code last read or wrote, and a clean status since. *)
Fixpoint last_catalog (t : list Ev) : option Catalog :=
  match t with
  | [] => None
  | EvLoaded c :: _ | EvSaved c :: _ => Some c
  | _ :: r => last_catalog r
  end.
Fixpoint checked (p : string) (u : bool) (t : list Ev) : Prop :=
  match t with
  | [] => False
  | EvLoaded _ :: _ | EvSaved _ :: _ => False
  | EvStatus p' u' (Ok []) :: r => (p' = p ∧ u' = u) ∨ checked p u r
  | _ :: r => checked p u r
  end.
Definition catalog_row (t : list Ev) (P : WorktreeRecord → Prop) : Prop :=
  ∃ c r, last_catalog t = Some c ∧ r ∈ c ∧ P r.

(** What a request [op] may do that discards or replaces files: a return cleans
    and detaches the slot it names, whose one holder is the task that returns it
    and whose tracked files were just found unchanged; a lease switches a slot
    that its row says nobody holds, just found clean, and evicts only such a
    slot; a removal removes by force the directory of the row it names, which
    nobody holds.  Rows are rows of the catalog last read or written. *)
Definition idle_slot (d : string) (t : list Ev) : Prop :=
  checked d true t ∧ catalog_row t (λ r, wt_path r = d ∧ wt_pooled r = true ∧ wt_leased_by r = []).
Definition returned_slot (q : LeaseParams) (d : string) (base : option string) (t : list Ev) : Prop :=
  checked d false t ∧ catalog_row t (λ r, wt_name r = lp_name q ∧ wt_path r = d ∧ wt_pooled r = true ∧
    wt_leased_by r = [lp_task_id q] ∧ ∀ b, base = Some b → wt_base r = b).
Definition removed_row (name d : string) (t : list Ev) : Prop :=
  catalog_row t (λ r, wt_name r = name ∧ wt_path r = d ∧ wt_leased_by r = []).
Definition legit (op : PoolOp) (t : list Ev) (e : Ev) : Prop :=
  match e with
  | EvGit d CleanFd => match op with OpReturn q => returned_slot q d None t | _ => False end
  | EvGit d (SwitchDetach b) => match op with OpReturn q => returned_slot q d (Some b) t | _ => False end
  | EvGit d (Switch _) | EvGit d (SwitchNew _) | EvGit _ (WorktreeRemove d) =>
      match op with OpLease _ => idle_slot d t | _ => False end
  | EvGit _ (WorktreeRemoveForce d) => match op with OpRemove name => removed_row name d t | _ => False end
  | EvRemoveDir d =>
      match op with OpLease _ => idle_slot d t | OpRemove name => removed_row name d t | _ => False end
  | _ => True
  end.
(** The events [new] of a request, after those of [old]. *)
Fixpoint all_legit (op : PoolOp) (old new : list Ev) : Prop :=
  match new with [] => True | e :: r => legit op (r ++ old) e ∧ all_legit op old r end.

(** ** The invariant of the catalog *)

Record row_ok (size : nat) (r : WorktreeRecord) : Prop := {
  row_leased : wt_state r = Leased ↔ wt_leased_by r ≠ [];
  row_holders : NoDup (wt_leased_by r);
  row_pool_state : wt_pooled r = true → wt_state r ≠ Free;
  row_free_state : wt_pooled r = false → wt_state r ≠ Parked;
  row_slot : wt_pooled r = true → ∃ p n, wt_name r = slot_name p n ∧ 1 ≤ n ≤ size;
}.
Definition catalog_wf (size : nat) (c : Catalog) : Prop :=
  NoDup (wt_name <$> c) ∧ Forall (row_ok size) c.

Section invariant.
Context (env : Env) (repo_root : string) (size : nat).
(** The request that is served, and what was done before it. *)
Context (op : PoolOp) (old : list Ev).

Definition good (w : World) : Prop :=
  (∃ new, w_trace w = new ++ old ∧ all_legit op old new) ∧ ∀ c, w_file w = Some c → catalog_wf size c.

(** [st_at c F w]: the code works on the rows [c], which come from the catalog
    it last read or wrote, and has found the directories of [F] clean since. *)
Definition comes_from (r0 r : WorktreeRecord) : Prop :=
  wt_name r0 = wt_name r ∧ wt_path r0 = wt_path r ∧ wt_pooled r0 = wt_pooled r ∧ wt_leased_by r0 = wt_leased_by r ∧
  wt_base r0 = wt_base r.
Record st_at (c : Catalog) (F : list (string * bool)) (w : World) : Prop := {
  at_good : good w;
  at_wf : catalog_wf size c;
  at_rows : ∃ c0, last_catalog (w_trace w) = Some c0 ∧ ∀ r, r ∈ c → ∃ r0, r0 ∈ c0 ∧ comes_from r0 r;
  at_checked : ∀ p u, (p, u) ∈ F → checked p u (w_trace w);
}.

Definition triple {A} (P : World → Prop) (c : pool A) (Q : A → World → Prop) : Prop :=
  ∀ w, P w → match c w with (w', Ok a) => Q a w' | (w', Err _) => good w' end.

Lemma wt_triple_ret {A} (P : World → Prop) (a : A) Q : (∀ w, P w → Q a w) → triple P (mret a) Q.
Proof. intros HQ w HP. by apply HQ. Qed.
Lemma triple_fail {A} (P : World → Prop) e (Q : A → World → Prop) :
  (∀ w, P w → good w) → triple P (st_fail e) Q.
Proof. intros HQ w HP. by apply HQ. Qed.
Lemma wt_triple_bind {A B} P (c : pool A) (k : A → pool B) Q R :
  triple P c Q → (∀ a, triple (Q a) (k a) R) → triple P (c ≫= k) R.
Proof.
  intros Hc Hk w HP. rewrite st_bind_eq. specialize (Hc w HP). destruct (c w) as [w1 [a|e]]; [|done].
  by apply Hk.
Qed.
Lemma wt_triple_pre {A} (P P' : World → Prop) (c : pool A) Q :
  triple P' c Q → (∀ w, P w → P' w) → triple P c Q.
Proof. intros Hc HP w Hw. by apply Hc, HP. Qed.
Lemma wt_triple_post {A} (P : World → Prop) (c : pool A) (Q Q' : A → World → Prop) :
  triple P c Q → (∀ a w, Q a w → Q' a w) → triple P c Q'.
Proof. intros Hc HQ w Hw. specialize (Hc w Hw). destruct (c w) as [w1 [a|e]]; [by apply HQ|done]. Qed.

Lemma good_tick w : good w → good (tick w).
Proof. by intros [H1 H2]. Qed.
Lemma st_tick c F w : st_at c F w → st_at c F (tick w).
Proof. intros [H1 H2 H3 H4]. split; [by apply good_tick|done..]. Qed.
Lemma good_ev e w : good w → legit op (w_trace w) e → good (record_ev e w).
Proof.
  intros [(new & Hn & H1) H2] He. split; [|done]. exists (e :: new). rewrite Hn in He. split; [|done].
  simpl. by rewrite Hn.
Qed.

Definition is_catalog_ev (e : Ev) : bool :=
  match e with EvLoaded _ | EvSaved _ => true | _ => false end.
Lemma checked_ev p u e t : is_catalog_ev e = false → checked p u t → checked p u (e :: t).
Proof. intros He Hc. destruct e as [| |p' u' [[|]|]| |]; simpl in *; try done. by right. Qed.
Lemma last_catalog_ev e t : is_catalog_ev e = false → last_catalog (e :: t) = last_catalog t.
Proof. by destruct e. Qed.
Lemma st_ev c F e w :
  is_catalog_ev e = false → st_at c F w → legit op (w_trace w) e → st_at c F (record_ev e w).
Proof.
  intros He [H1 H2 H3 H4] Hl. split; [by apply good_ev|done| |].
  - change (w_trace (record_ev e w)) with (e :: w_trace w). by rewrite last_catalog_ev.
  - intros p u Hp. apply checked_ev; [done|]. by apply H4.
Qed.

(** A command that leaves directories alone. *)
Definition harmless (cmd : GitCmd) : bool :=
  match cmd with
  | Switch _ | SwitchNew _ | SwitchDetach _ | CleanFd | WorktreeRemove _ | WorktreeRemoveForce _ => false
  | _ => true
  end.
Lemma harmless_legit t d cmd : harmless cmd = true → legit op t (EvGit d cmd).
Proof. by destruct cmd. Qed.

Lemma triple_git c F d cmd :
  (∀ w, st_at c F w → legit op (w_trace w) (EvGit d cmd)) →
  triple (st_at c F) (git env d cmd) (λ _, st_at c F).
Proof.
  intros Hl w Hw. unfold git. pose proof (st_ev c F (EvGit d cmd) w eq_refl Hw (Hl w Hw)) as Hs.
  destruct (e_git env (w_clock w) d cmd); [done|by apply (at_good c F)].
Qed.
Lemma triple_harmless c F d cmd :
  harmless cmd = true → triple (st_at c F) (git env d cmd) (λ _, st_at c F).
Proof. intros Hh. apply triple_git. intros w _. by apply harmless_legit. Qed.
Lemma triple_status c F p u :
  triple (st_at c F) (working_tree_status env p u)
    (λ a, st_at c (if bool_decide (a = []) then (p, u) :: F else F)).
Proof.
  intros w Hw. unfold working_tree_status. set (a := e_status _ _ _ _).
  pose proof (st_ev c F (EvStatus p u a) w eq_refl Hw I) as Hs.
  destruct a as [l|]; [|by apply (at_good c F)]. case_bool_decide as Hl; [|done]. subst l.
  destruct Hs as [H1 H2 H3 H4]. split; try done. intros p' u' [[= -> ->]|Hin]%elem_of_cons; [by left|].
  by apply H4.
Qed.
(** Probes of the file system change nothing. *)
Lemma triple_is_dir c F p : triple (st_at c F) (is_dir env p) (λ _, st_at c F).
Proof. intros w Hw. by apply st_tick. Qed.
Lemma triple_exists c F p : triple (st_at c F) (path_exists env p) (λ _, st_at c F).
Proof. intros w Hw. by apply st_tick. Qed.
Lemma triple_canonical_ok c F p : triple (st_at c F) (canonical_ok env p) (λ _, st_at c F).
Proof. intros w Hw. by apply st_tick. Qed.
Lemma triple_canonicalize c F p : triple (st_at c F) (canonicalize env p) (λ _, st_at c F).
Proof. intros w Hw. by apply st_tick. Qed.
Lemma triple_ref_exists c F b : triple (st_at c F) (ref_exists env repo_root b) (λ _, st_at c F).
Proof.
  intros w Hw. pose proof (st_ev c F (EvGit repo_root (ShowRef b)) w eq_refl Hw I) as Hs.
  unfold ref_exists. destruct (e_ref_exists env (w_clock w) b); [done|by apply (at_good c F)].
Qed.
Lemma st_answer {A} c F (a : result A NodeError) w :
  st_at c F w → match a with Ok _ => st_at c F (tick w) | Err _ => good (tick w) end.
Proof. intros Hw. destruct a; [by apply st_tick|]. apply good_tick. by apply (at_good c F). Qed.
Lemma triple_resolve c F n p : triple (st_at c F) (resolve_path env n p) (λ _, st_at c F).
Proof. intros w Hw. unfold resolve_path. by apply (st_answer c F (e_resolve env (w_clock w) n p)) in Hw. Qed.
Lemma triple_resolve_first n p : triple good (resolve_path env n p) (λ _, good).
Proof. intros w Hw. unfold resolve_path. by destruct (e_resolve env (w_clock w) n p); apply good_tick. Qed.
Lemma triple_parent c F p : triple (st_at c F) (create_parent env p) (λ _, st_at c F).
Proof. intros w Hw. unfold create_parent. by apply (st_answer c F (if e_mkdir env (w_clock w) then Ok tt else Err (InvalidRequest "create"))) in Hw. Qed.
Lemma triple_require c F b e : triple (st_at c F) (require b e) (λ _ w, st_at c F w ∧ b = true).
Proof. destruct b; intros w Hw; [done|]. by apply (at_good c F). Qed.
Lemma triple_require_keep c F b e : triple (st_at c F) (require b e) (λ _, st_at c F).
Proof. destruct b; intros w Hw; [done|]. by apply (at_good c F). Qed.
Lemma triple_or_default {A} c F (d : A) (m : pool A) (Q : A → World → Prop) :
  (∀ w, st_at c F w → match m w with (w', Ok a) => Q a w' | (w', Err _) => Q d w' end) →
  triple (st_at c F) (or_default d m) Q.
Proof. intros Hm w Hw. unfold or_default. specialize (Hm w Hw). by destruct (m w) as [w' [a|e]]. Qed.
Lemma triple_ignore {A} c F (m : pool A) :
  (∀ w, st_at c F w → st_at c F (m w).1) → triple (st_at c F) (ignore m) (λ _, st_at c F).
Proof. intros Hm w Hw. by apply Hm. Qed.

Lemma triple_load : triple good (load_catalog env) (λ c, st_at c []).
Proof.
  intros w Hw. unfold load_catalog. destruct (w_file w) as [c|] eqn:Hf; [|by apply good_tick].
  destruct (e_load env (w_clock w)); [|by apply good_tick]. split.
  - by apply good_ev.
  - by apply Hw.
  - exists c. split; [done|]. intros r Hr. exists r. by split.
  - by intros p u ?%not_elem_of_nil.
Qed.
Lemma triple_save c' :
  catalog_wf size c' → triple good (save_catalog env c')
    (λ _ w, st_at c' [] w ∧ w_file w = Some c').
Proof.
  intros Hc w [H1 H2]. unfold save_catalog. destruct (e_save env (w_clock w)); simpl.
  - split; [|done]. split; [split; [by apply (good_ev (EvSaved c') w)|]| | |].
    + intros c [= <-]. done.
    + done.
    + exists c'. split; [done|]. intros r Hr. exists r. by split.
    + by intros p u ?%not_elem_of_nil.
  - by split.
  - by split.
Qed.

(** ** Changing rows *)

Lemma wf_alter c i r (f : WorktreeRecord → WorktreeRecord) :
  catalog_wf size c → c !! i = Some r → (∀ x, wt_name (f x) = wt_name x) → row_ok size (f r) →
  catalog_wf size (alter f i c).
Proof.
  intros [H1 H2] Hi Hn Hr. split.
  - assert (wt_name <$> alter f i c = wt_name <$> c) as ->; [|done].
    apply list_eq. intros j. rewrite !list_lookup_fmap. destruct (decide (i = j)) as [->|Hne].
    + rewrite list_lookup_alter_eq, Hi. simpl. by rewrite Hn.
    + by rewrite list_lookup_alter_ne.
  - apply list.Forall_forall. intros x [j Hj]%list_elem_of_lookup. destruct (decide (i = j)) as [->|Hne].
    + rewrite list_lookup_alter_eq, Hi in Hj. by simplify_eq/=.
    + rewrite list_lookup_alter_ne in Hj by done. rewrite list.Forall_forall in H2.
      apply H2. by eapply list_elem_of_lookup_2.
Qed.
Lemma retain_sublist {X} (p : X → bool) l : retain p l `sublist_of` l.
Proof.
  unfold retain. induction l as [|x l IH]; simpl; [done|].
  destruct (p x); [by apply sublist_skip|by apply sublist_cons].
Qed.
Lemma wf_sublist c c' : c' `sublist_of` c → catalog_wf size c → catalog_wf size c'.
Proof.
  intros Hs [H1 H2]. split; [by eapply sublist_NoDup; [exact H1|apply fmap_sublist]|].
  rewrite list.Forall_forall in *. intros r Hr. apply H2. by eapply elem_of_sublist.
Qed.
Lemma wf_upsert c r : catalog_wf size c → row_ok size r → catalog_wf size (upsert r c).
Proof.
  intros Hc Hr. unfold upsert.
  destruct (wf_sublist _ _ (retain_sublist (λ row, negb (bool_decide (wt_name row = wt_name r))) c) Hc)
    as [H1 H2].
  split.
  - rewrite fmap_app. apply list.NoDup_app. split_and!; [done| |apply NoDup_singleton].
    intros x (y & -> & Hy)%list_elem_of_fmap. apply elem_of_retain in Hy as [_ Hy].
    apply negb_true_iff in Hy. apply bool_decide_eq_false in Hy. by intros ?%list_elem_of_singleton.
  - apply Forall_app. split; [done|]. by apply Forall_singleton.
Qed.
Lemma wf_elem c r : catalog_wf size c → r ∈ c → row_ok size r.
Proof. intros [_ H2] Hr. rewrite list.Forall_forall in H2. by apply H2. Qed.

Lemma ok_lease_row b t r : row_ok size r → row_ok size (lease_row b t r).
Proof. intros [H1 H2 H3 H4 H5]. split; simpl; try done. apply NoDup_singleton. Qed.
Lemma ok_share_row t r : row_ok size r → row_ok size (share_row t r).
Proof.
  intros [H1 H2 H3 H4 H5]. unfold share_row. case_bool_decide as Ht; split; simpl; try done.
  - split; [|done]. intros _ Hn. rewrite Hn in Ht. by apply not_elem_of_nil in Ht.
  - split; [|done]. intros _. by destruct (wt_leased_by r).
  - apply list.NoDup_app. split_and!; [done| |apply NoDup_singleton].
    intros x Hx ->%list_elem_of_singleton. done.
Qed.
Lemma ok_heal_row r : row_ok size r → row_ok size (heal_row r).
Proof.
  intros Hr. unfold heal_row. destruct (_ && _) eqn:Hb; [|done].
  apply andb_true_iff in Hb as [_ He%bool_decide_eq_true]. destruct Hr as [H1 H2 H3 H4 H5].
  split; simpl; try done; rewrite ?He; destruct (wt_pooled r) eqn:Hp; try done.
Qed.
Lemma ok_set_lease s b tasks r :
  row_ok size r → NoDup tasks → (s = Leased ↔ tasks ≠ []) →
  (wt_pooled r = true → s ≠ Free) → (wt_pooled r = false → s ≠ Parked) →
  row_ok size (set_lease s b tasks r).
Proof. intros [H1 H2 H3 H4 H5] Hn Hs Hp Hf. by split. Qed.

(** Working on other rows of the same catalog. *)
Lemma st_mono c c' F w :
  catalog_wf size c' → (∀ r, r ∈ c' → ∃ r1, r1 ∈ c ∧ comes_from r1 r) → st_at c F w → st_at c' F w.
Proof.
  intros Hwf Hsub [H1 H2 (c0 & H3 & H3') H4]. split; try done. exists c0. split; [done|].
  intros r Hr. destruct (Hsub r Hr) as (r1 & Hr1 & Hc1). destruct (H3' r1 Hr1) as (r0 & Hr0 & Hc0).
  exists r0. split; [done|]. unfold comes_from in *. naive_solver congruence.
Qed.
Lemma st_weaken c F F' w : F' ⊆ F → st_at c F w → st_at c F' w.
Proof. intros Hs [H1 H2 H3 H4]. split; try done. intros p u Hp. apply H4. by apply Hs. Qed.
Lemma st_row c F w r P :
  st_at c F w → r ∈ c → (∀ r0, comes_from r0 r → P r0) → catalog_row (w_trace w) P.
Proof.
  intros [_ _ (c0 & H3 & H3') _] Hr HP. destruct (H3' r Hr) as (r0 & Hr0 & Hc0). exists c0, r0.
  split_and!; [done|done|by apply HP].
Qed.

(** ** The operations *)

Lemma st_idle c F w r :
  st_at c F w → r ∈ c → wt_pooled r = true → wt_leased_by r = [] → (wt_path r, true) ∈ F →
  idle_slot (wt_path r) (w_trace w).
Proof.
  intros Hw Hr Hp Hh HF. split; [by apply (at_checked _ _ _ Hw)|]. eapply st_row; [done|done|].
  intros r0 (_ & H1 & H2 & H3 & _). naive_solver congruence.
Qed.
Lemma triple_checkout q c F r task :
  op = OpLease q → r ∈ c → wt_pooled r = true → wt_leased_by r = [] →
  triple (st_at c F) (checkout_task_branch env repo_root r task) (λ _, st_at c F).
Proof.
  intros Hop Hr Hp Hh. unfold checkout_task_branch. eapply wt_triple_bind; [apply triple_status|]. intros dirt.
  eapply wt_triple_bind; [apply triple_require|]. intros []. simpl.
  eapply wt_triple_pre with (P' := st_at c ((wt_path r, true) :: F)).
  2: { intros w [Hw ->%bool_decide_eq_true]. done. }
  assert (∀ w cmd, st_at c ((wt_path r, true) :: F) w →
    match cmd with Switch _ | SwitchNew _ => True | _ => False end →
    legit op (w_trace w) (EvGit (wt_path r) cmd)) as Hl.
  { intros w cmd Hw. assert (idle_slot (wt_path r) (w_trace w)) as Hboth
      by (apply (st_idle c ((wt_path r, true) :: F)); [done..|by left]).
    unfold legit. rewrite Hop. by destruct cmd. }
  eapply wt_triple_bind; [apply triple_require|]. intros []. simpl.
  eapply wt_triple_pre with (P' := st_at c ((wt_path r, true) :: F)); [|by intros w [? _]].
  eapply wt_triple_bind with (Q := λ _, st_at c ((wt_path r, true) :: F)).
  { intros w Hw. unfold attempt_git, git. simpl. by apply st_ev. }
  intros known. eapply wt_triple_bind with (Q := λ _, st_at c ((wt_path r, true) :: F)).
  { destruct known; apply triple_git; intros w Hw; by apply Hl. }
  intros _. eapply wt_triple_bind; [by apply triple_harmless|]. intros oid.
  apply wt_triple_ret. intros w. apply st_weaken. set_solver.
Qed.

Lemma triple_git_common : triple good (git_common_dir env repo_root) (λ _, good).
Proof.
  intros w Hw. unfold git_common_dir. rewrite st_bind_eq. unfold git.
  pose proof (good_ev (EvGit repo_root RevParseCommonDir) w Hw I).
  by destruct (e_git env (w_clock w) repo_root RevParseCommonDir).
Qed.
Lemma triple_validate name : triple good (validate_name name) (λ _, good).
Proof. unfold validate_name, require. by destruct (safe_segment name); intros w Hw. Qed.
Lemma triple_saved {A} c F c' (k : pool A) Q :
  catalog_wf size c' → triple (λ w, st_at c' [] w ∧ w_file w = Some c') k Q →
  triple (st_at c F) (save_catalog env c' ≫= λ _, k) Q.
Proof.
  intros Hc Hk. eapply wt_triple_bind.
  - eapply wt_triple_pre; [by apply triple_save|]. intros w Hw. by apply (at_good c F).
  - by intros [].
Qed.

Lemma triple_done {A} c F (a : A) : triple (st_at c F) (mret a) (λ _, good).
Proof. apply wt_triple_ret. intros w. apply at_good. Qed.
Lemma triple_saved_done {A} c F c' (a : A) :
  catalog_wf size c' → triple (st_at c F) (save_catalog env c' ≫= λ _, mret a) (λ _, good).
Proof. intros Hc. apply triple_saved; [done|]. apply wt_triple_ret. intros w [Hw _]. by eapply at_good. Qed.

Lemma triple_reuse c F r q :
  r ∈ c → triple (st_at c F) (reuse_record env c r q) (λ _, good).
Proof.
  intros Hr w Hw. apply (triple_saved_done c F); [|done]. apply wf_upsert; [by apply (at_wf _ _ _ Hw)|].
  apply ok_share_row. eapply wf_elem; [|done]. by apply (at_wf _ _ _ Hw).
Qed.

Lemma heal_comes_from r : comes_from r (heal_row r).
Proof. unfold heal_row. destruct (_ && _); by split_and!. Qed.
Lemma heal_name r : wt_name (heal_row r) = wt_name r.
Proof. unfold heal_row. by destruct (_ && _). Qed.

(** What reconciliation keeps: healed rows of the catalog, in order. *)
Lemma triple_reconcile_rows c0 F listed c :
  triple (st_at c0 F) (reconcile_rows env listed c)
    (λ c' w, st_at c0 F w ∧ ∃ k, k `sublist_of` c ∧ c' = heal_row <$> k).
Proof.
  induction c as [|r c IH]; cbn [reconcile_rows].
  { apply wt_triple_ret. intros w Hw. split; [done|]. by exists []. }
  eapply wt_triple_bind; [apply triple_is_dir|]. intros d. eapply wt_triple_bind; [apply IH|].
  intros c'. apply wt_triple_ret. intros w [Hw (k & Hk & ->)]. split; [done|].
  destruct (_ && _); [exists (r :: k)|exists k]; (split; [by constructor|done]).
Qed.
Lemma triple_reconcile c F :
  triple (st_at c F) (reconcile_with env repo_root c) (λ c', st_at c' F).
Proof.
  unfold reconcile_with. eapply wt_triple_bind with (Q := λ _, st_at c F).
  { apply triple_or_default. intros w Hw. unfold listed_worktrees. rewrite st_bind_eq.
    pose proof (triple_harmless c F repo_root WorktreeList eq_refl w Hw) as Hg. unfold git in *.
    pose proof (st_ev c F (EvGit repo_root WorktreeList) w eq_refl Hw I) as Hs.
    by destruct (e_git env (w_clock w) repo_root WorktreeList). }
  intros listed. eapply wt_triple_post; [apply triple_reconcile_rows|]. intros c' w [Hw (k & Hk & ->)].
  pose proof (wf_sublist _ _ Hk (at_wf _ _ _ Hw)) as [Hn Hf].
  apply (st_mono c); [| |done].
  - split.
    + rewrite <- list_fmap_compose. erewrite list_fmap_ext; [exact Hn|]. intros ? x _. apply heal_name.
    + apply Forall_fmap. eapply list.Forall_impl; [exact Hf|]. intros x. apply ok_heal_row.
  - intros r (x & -> & Hx)%list_elem_of_fmap. exists x. split; [by eapply elem_of_sublist|].
    apply heal_comes_from.
Qed.

Definition pooled_at (c : Catalog) (i : nat) : Prop := ∃ r, c !! i = Some r ∧ wt_pooled r = true.
Lemma elem_of_indexes p c i : i ∈ indexes p c → ∃ r, c !! i = Some r ∧ p r = true.
Proof.
  unfold indexes. intros ([j r] & Hin & Hp)%list_elem_of_omap. simpl in Hp.
  destruct (p r) eqn:Hpr; simplify_eq. apply list_elem_of_lookup in Hin as [k Hk].
  rewrite list_lookup_imap in Hk. destruct (c !! k) eqn:Hc; simplify_eq/=. by exists r.
Qed.
Lemma parked_idle c r : catalog_wf size c → r ∈ c → wt_state r = Parked → wt_leased_by r = [].
Proof.
  intros Hc Hr Hs. destruct (wf_elem _ _ Hc Hr) as [H1 _ _ _ _].
  destruct (decide (wt_leased_by r = [])) as [|Hne]; [done|]. apply H1 in Hne. congruence.
Qed.

Lemma triple_scan c base is_ others :
  (∀ i, i ∈ is_ → pooled_at c i) → (∀ i, i ∈ others → pooled_at c i) →
  triple (st_at c []) (scan_parked env c base is_ others)
    (λ res w, st_at c [] w ∧ (∀ j, j ∈ res.2 → pooled_at c j) ∧
      ∀ i, res.1 = Some i → ∃ r, c !! i = Some r ∧ wt_pooled r = true ∧ wt_state r = Parked).
Proof.
  revert others. induction is_ as [|i is_ IH]; intros others His Hot; cbn [scan_parked].
  { by apply wt_triple_ret. }
  destruct (His i) as (r & Hr & Hp); [by left|]. rewrite Hr.
  assert (∀ j, j ∈ is_ → pooled_at c j) as His' by (intros j Hj; apply His; by right).
  case_bool_decide as Hst; [by apply IH|].
  case_bool_decide; [apply IH; [done|]|].
  { intros j [Hj| ->%list_elem_of_singleton]%elem_of_app; [by apply Hot|]. by exists r. }
  eapply wt_triple_bind; [apply triple_status|]. intros dirt.
  eapply wt_triple_pre with (P' := st_at c []); [|intros w; apply st_weaken; by intros ? ?%not_elem_of_nil].
  case_bool_decide; [|by apply IH]. apply wt_triple_ret. intros w Hw. split_and!; [done|done|].
  intros ? [= <-]. by exists r.
Qed.

Lemma triple_live_slots c F is_ :
  triple (st_at c F) (live_slots env c is_) (λ _, st_at c F).
Proof.
  induction is_ as [|i is_ IH]; cbn [live_slots]; [by apply wt_triple_ret|].
  eapply wt_triple_bind with (Q := λ _, st_at c F).
  { destruct (c !! i); [apply triple_is_dir|by apply wt_triple_ret]. }
  intros d. eapply wt_triple_bind; [apply IH|]. intros rest. by apply wt_triple_ret.
Qed.

Lemma triple_victim c is_ :
  (∀ i, i ∈ is_ → pooled_at c i) →
  triple (st_at c []) (find_victim env c is_)
    (λ v w, match v with
            | Some r => st_at c [(wt_path r, true)] w ∧ r ∈ c ∧ wt_pooled r = true ∧ wt_leased_by r = []
            | None => st_at c [] w
            end).
Proof.
  induction is_ as [|i is_ IH]; intros His; cbn [find_victim]; [by apply wt_triple_ret|].
  destruct (His i) as (r & Hr & Hp); [by left|]. rewrite Hr.
  specialize (IH (λ j Hj, His j (list_elem_of_further _ _ _ Hj))).
  case_bool_decide as Hidle; [|done].
  eapply wt_triple_bind with
    (Q := λ dirt, st_at c (if bool_decide (dirt = []) then [(wt_path r, true)] else [])).
  { apply triple_or_default. intros w Hw. pose proof (triple_status c [] (wt_path r) true w Hw) as Hs.
    unfold working_tree_status in *.
    pose proof (st_ev c [] (EvStatus (wt_path r) true (e_status env (w_clock w) (wt_path r) true)) w
      eq_refl Hw I) as Hst.
    by destruct (e_status env (w_clock w) (wt_path r) true). }
  intros dirt. case_bool_decide; [|done]. apply wt_triple_ret. intros w Hw.
  split_and!; [done| |done|done]. by eapply list_elem_of_lookup_2.
Qed.

Lemma triple_evict q c r :
  op = OpLease q → r ∈ c → wt_pooled r = true → wt_leased_by r = [] →
  triple (st_at c [(wt_path r, true)]) (evict_slot env repo_root c r) (λ c', st_at c' []).
Proof.
  intros Hop Hr Hp Hh. unfold evict_slot.
  assert (∀ w, st_at c [(wt_path r, true)] w → idle_slot (wt_path r) (w_trace w)) as Hl
    by (intros w Hw; apply (st_idle c [(wt_path r, true)]); [done..|by left]).
  do 2 (eapply wt_triple_bind; [apply triple_ignore; intros w Hw; apply st_ev;
    [done|done|unfold legit; rewrite Hop; by apply Hl]|]; intros []).
  eapply wt_triple_bind; [apply triple_ignore; intros w Hw; by apply st_ev|].
  intros []. apply wt_triple_ret. intros w Hw. eapply st_mono; [| |eapply st_weaken; [|exact Hw]].
  - eapply wf_sublist; [apply retain_sublist|]. by apply (at_wf _ _ _ Hw).
  - intros x Hx. exists x. split; [|by split_and!]. by eapply elem_of_sublist; [|apply retain_sublist].
  - set_solver.
Qed.

Lemma wf_fmap c (f : WorktreeRecord → WorktreeRecord) :
  catalog_wf size c → (∀ x, wt_name (f x) = wt_name x) → (∀ x, row_ok size x → row_ok size (f x)) →
  catalog_wf size (f <$> c).
Proof.
  intros [H1 H2] Hn Hr. split.
  - rewrite <- list_fmap_compose. erewrite list_fmap_ext; [exact H1|]. intros ? x _. apply Hn.
  - apply Forall_fmap. eapply list.Forall_impl; [exact H2|]. intros x. apply Hr.
Qed.
Lemma elem_of_upsert r c : r ∈ upsert r c.
Proof. apply elem_of_app. right. by apply list_elem_of_singleton. Qed.

Lemma triple_provision_slot c q n :
  op = OpLease q → 1 ≤ n ≤ size → triple (st_at c []) (provision_slot env repo_root c q n) (λ _, good).
Proof.
  intros Hop Hn. unfold provision_slot. eapply wt_triple_bind with (Q := λ _, st_at c []).
  { apply triple_require_keep. }
  intros []. eapply wt_triple_bind; [apply triple_resolve|]. intros abs_path.
  eapply wt_triple_bind; [apply triple_parent|]. intros [].
  eapply wt_triple_bind; [by apply triple_harmless|]. intros ?.
  eapply wt_triple_bind; [by apply triple_harmless|]. intros ?.
  eapply wt_triple_bind; [apply triple_canonicalize|]. intros path. cbn zeta.
  set (r := mkWorktree _ path _ _ _ _ _). intros w Hw.
  assert (catalog_wf size (upsert r c)) as Hwf.
  { apply wf_upsert; [by apply (at_wf _ _ _ Hw)|]. split; try done; [constructor|].
    intros _. by exists (lp_name q), n. }
  revert w Hw. apply triple_saved; [done|].
  eapply wt_triple_pre with (P' := st_at (upsert r c) []); [|by intros w [? _]].
  eapply wt_triple_bind; [by apply (triple_checkout q); [done|apply elem_of_upsert|..]|]. intros warm.
  apply triple_saved_done, wf_fmap; [done|..]; intros x; destruct (named _ x); [done|done| |done].
  apply ok_lease_row.
Qed.

Lemma free_number_bounds used n : free_number size used = Some n → 1 ≤ n ≤ size.
Proof. unfold free_number. intros [Hin _]%find_some. apply in_seq in Hin. lia. Qed.

Lemma triple_lease_row c F i r warm task (reply : Reply) :
  c !! i = Some r →
  triple (st_at c F) (save_catalog env (alter (lease_row warm task) i c) ≫= λ _, mret reply) (λ _, good).
Proof.
  intros Hi w Hw. apply (triple_saved_done c F); [|done].
  pose proof (at_wf _ _ _ Hw). eapply wf_alter; [done|done|done|].
  apply ok_lease_row. eapply wf_elem; [done|]. by eapply list_elem_of_lookup_2.
Qed.

Lemma triple_lease_pool_slot c0 q :
  op = OpLease q → triple (st_at c0 []) (lease_pool_slot env repo_root c0 q size) (λ _, good).
Proof.
  intros Hop. unfold lease_pool_slot. eapply wt_triple_bind; [apply triple_reconcile|]. intros c. cbn zeta.
  eapply wt_triple_bind.
  { apply triple_scan; [|by intros i ?%not_elem_of_nil].
    intros i (r & Hr & [Hp _]%andb_true_iff)%elem_of_indexes. by exists r. }
  intros [warm others]. cbn [fst snd]. intros w (Hw & Hot & Hwarm). revert w Hw.
  destruct warm as [i|]; cbn [mbind option_bind].
  - destruct (Hwarm i eq_refl) as (r & Hr & Hp & Hs). simpl. rewrite Hr. intros w Hw.
    pose proof (list_elem_of_lookup_2 _ _ _ Hr) as Hin.
    pose proof (parked_idle c r (at_wf _ _ _ Hw) Hin Hs) as Hidle. revert w Hw.
    eapply wt_triple_bind; [by apply (triple_checkout q)|]. intros wc. by eapply triple_lease_row.
  - eapply wt_triple_bind; [apply triple_live_slots|]. intros slots.
    eapply wt_triple_bind with (Q := λ cs w, st_at cs.1 [] w).
    { case_bool_decide; [|by apply wt_triple_ret]. eapply wt_triple_bind; [by apply triple_victim|].
      intros [r|]; [|by apply wt_triple_ret]. intros w (Hw & Hin & Hp & Hh). revert w Hw.
      eapply wt_triple_bind; [by apply (triple_evict q)|]. intros c'.
      eapply wt_triple_bind; [apply triple_live_slots|]. intros slots'. by apply wt_triple_ret. }
    intros [c' slots']. cbn [fst]. case_bool_decide; [apply triple_done|].
    destruct (free_number _ _) as [n|] eqn:Hn.
    + apply triple_provision_slot; [done|]. by eapply free_number_bounds.
    + apply triple_fail. intros w. apply at_good.
Qed.

Lemma triple_lease q : op = OpLease q → triple good (lease_sized env repo_root q size) (λ _, good).
Proof.
  intros Hop. unfold lease_sized. destruct (is_root q).
  { eapply wt_triple_bind with (Q := λ _, good); [|intros branch; by apply wt_triple_ret].
    intros w Hw. unfold current_branch, or_default, git.
    pose proof (good_ev (EvGit repo_root SymbolicRef) w Hw I). by destruct (e_git env _ _ _). }
  eapply wt_triple_bind; [apply triple_validate|]. intros [].
  eapply wt_triple_bind; [apply triple_git_common|]. intros [].
  eapply wt_triple_bind; [apply triple_load|]. intros c.
  destruct (position _ c) as [i|] eqn:Hpos; [|by apply triple_lease_pool_slot].
  destruct (c !! i) as [r|] eqn:Hr; [|apply triple_fail; intros w; apply at_good].
  eapply wt_triple_bind; [apply triple_is_dir|]. intros d.
  pose proof (list_elem_of_lookup_2 _ _ _ Hr) as Hin.
  destruct (negb d); [apply triple_fail; intros w; apply at_good|].
  destruct (_ && wt_pooled r) eqn:Hb; [|by apply triple_reuse].
  apply andb_true_iff in Hb as [Hs%bool_decide_eq_true Hp]. intros w Hw.
  pose proof (parked_idle c r (at_wf _ _ _ Hw) Hin Hs) as Hidle. revert w Hw.
  eapply wt_triple_bind; [by apply (triple_checkout q)|]. intros wc. by eapply triple_lease_row.
Qed.

Lemma triple_reset_park q c r :
  op = OpReturn q → r ∈ c → wt_pooled r = true → wt_name r = lp_name q → wt_leased_by r = [lp_task_id q] →
  triple (st_at c []) (reset_park env (wt_path r) (wt_base r)) (λ _, st_at c []).
Proof.
  intros Hop Hr Hp Hn Hh. unfold reset_park. eapply wt_triple_bind; [apply triple_status|]. intros tracked.
  eapply wt_triple_bind; [apply triple_require|]. intros [].
  eapply wt_triple_pre with (P' := st_at c [(wt_path r, false)]).
  2: { intros w [Hw ->%bool_decide_eq_true]. done. }
  assert (∀ w o, st_at c [(wt_path r, false)] w → (∀ b, o = Some b → wt_base r = b) →
    returned_slot q (wt_path r) o (w_trace w)) as Hl.
  { intros w o Hw Ho. split; [apply (at_checked _ _ _ Hw); by left|]. eapply st_row; [done|done|].
    intros r0 (H0 & H1 & H2 & H3 & H4). split_and!; try congruence. intros b Hb. rewrite H4. by apply Ho. }
  eapply wt_triple_bind.
  { apply triple_git. intros w Hw. unfold legit. rewrite Hop. by apply Hl. }
  intros _ w Hw. unfold catch, git.
  assert (legit op (w_trace w) (EvGit (wt_path r) (SwitchDetach (wt_base r)))) as Hd.
  { unfold legit. rewrite Hop. apply Hl; [done|]. by intros b [= <-]. }
  pose proof (st_ev _ _ (EvGit (wt_path r) (SwitchDetach (wt_base r))) w eq_refl Hw Hd) as Hs.
  destruct (e_git env _ _ _); [eapply st_weaken; [|exact Hs]; set_solver|]. by apply (at_good _ _ _ Hs).
Qed.
(** A set of holders that loses its last one. *)
Lemma only_holder (t : string) l :
  NoDup l → t ∈ l → retain (λ x, negb (bool_decide (x = t))) l = [] → l = [t].
Proof.
  intros Hn Hin He. assert (∀ x, x ∈ l → x = t) as Hall.
  { intros x Hx. destruct (decide (x = t)) as [|Hne]; [done|]. exfalso. apply (not_elem_of_nil x). rewrite <- He.
    apply elem_of_retain. split; [done|]. by rewrite bool_decide_false. }
  destruct l as [|a [|b l]]; [by apply not_elem_of_nil in Hin|..].
  - by rewrite (Hall a (list_elem_of_here _ _)).
  - exfalso. apply list.NoDup_cons in Hn as [Hn _]. apply Hn.
    rewrite (Hall a), (Hall b) by set_solver. by left.
Qed.

Lemma triple_return q : op = OpReturn q → triple good (return_sized env repo_root q) (λ _, good).
Proof.
  intros Hop. unfold return_sized. destruct (is_root q); [by apply wt_triple_ret|].
  eapply wt_triple_bind; [apply triple_validate|]. intros [].
  eapply wt_triple_bind; [apply triple_git_common|]. intros [].
  eapply wt_triple_bind; [apply triple_load|]. intros c.
  destruct (position _ c) as [i|] eqn:Hpos; [|apply triple_fail; intros w; apply at_good].
  apply position_Some in Hpos as (r & Hr & Hname%bool_decide_eq_true & _). rewrite Hr.
  destruct (negb _) eqn:Hheld; [apply triple_fail; intros w; apply at_good|]. cbn zeta.
  apply negb_false_iff, bool_decide_eq_true in Hheld.
  set (tasks := retain _ _). intros w Hw. pose proof (at_wf _ _ _ Hw) as Hwf.
  pose proof (list_elem_of_lookup_2 _ _ _ Hr) as Hin. pose proof (wf_elem _ _ Hwf Hin) as Hok.
  assert (NoDup tasks) as Hnd.
  { eapply sublist_NoDup; [apply (row_holders _ _ Hok)|apply retain_sublist]. }
  assert (∀ s b, (s = Leased ↔ tasks ≠ []) → (wt_pooled r = true → s ≠ Free) →
    (wt_pooled r = false → s ≠ Parked) → catalog_wf size (alter (set_lease s b tasks) i c)) as Hset.
  { intros s b H1 H2 H3. eapply wf_alter; [done|done|done|]. by apply ok_set_lease. }
  revert w Hw. case_bool_decide as Ht; [apply triple_saved_done, Hset; done|].
  destruct (wt_pooled r) eqn:Hp; cbn [negb].
  - eapply wt_triple_bind.
    { apply (triple_reset_park q); [done..|]. apply only_holder; [apply (row_holders _ _ Hok)|done|].
      exact Ht. }
    intros []. apply triple_saved_done, Hset; done.
  - apply triple_saved_done, Hset; done.
Qed.

Lemma triple_require_first b e : triple good (require b e) (λ _, good).
Proof. by destruct b; intros w Hw. Qed.
Lemma wf_dropped c F w name : st_at c F w → st_at (retain (λ row, negb (named name row)) c) F w.
Proof.
  intros Hw. apply (st_mono c); [|intros r Hr; exists r; split; [|by split_and!]|done].
  - eapply wf_sublist; [apply retain_sublist|]. by apply (at_wf _ _ _ Hw).
  - by eapply elem_of_sublist; [|apply retain_sublist].
Qed.
(** A standalone row is well formed, and recording it keeps the catalog so. *)
Lemma triple_record {A} c F name path branch base (a : A) :
  triple (st_at c F)
    (save_catalog env (upsert (mkWorktree name path branch base Free false []) c) ≫= λ _, mret a)
    (λ _, good).
Proof.
  intros w Hw. apply (triple_saved_done c F); [|done].
  apply wf_upsert; [by apply (at_wf _ _ _ Hw)|]. split; try done. constructor.
Qed.

Lemma triple_remove_record name : op = OpRemove name → triple good (remove_record env repo_root name) (λ _, good).
Proof.
  intros Hop. unfold remove_record. eapply wt_triple_bind; [apply triple_validate|]. intros [].
  eapply wt_triple_bind; [apply triple_git_common|]. intros [].
  eapply wt_triple_bind; [apply triple_load|]. intros c.
  destruct (List.find _ c) as [r|] eqn:Hf; [|apply triple_done].
  apply find_some in Hf as [Hin%list_elem_of_In Hname%bool_decide_eq_true]. case_bool_decide as Hh; [apply triple_done|].
  assert (∀ w, st_at c [] w → removed_row name (wt_path r) (w_trace w)) as Hrow.
  { intros w Hw. eapply st_row; [done|done|]. intros r0 (H0 & H1 & _ & H3 & _). naive_solver congruence. }
  assert (∀ w d e, st_at c [] w → e = EvGit d (WorktreeRemoveForce (wt_path r)) ∨ e = EvRemoveDir (wt_path r) →
    legit op (w_trace w) e) as Hl by (intros w d e Hw [->| ->]; unfold legit; rewrite Hop; by apply Hrow).
  eapply wt_triple_bind; [apply triple_exists|]. intros there.
  eapply wt_triple_bind with (Q := λ _, st_at c []).
  - destruct there; [|by apply wt_triple_ret]. intros w Hw. unfold catch, git at 1.
    pose proof (st_ev c [] (EvGit repo_root (WorktreeRemoveForce (wt_path r))) w eq_refl Hw
      (Hl w repo_root _ Hw (or_introl eq_refl))) as Hs.
    destruct (e_git env _ _ _) as [|e]; [done|]. clear Hw. revert Hs. generalize (record_ev
      (EvGit repo_root (WorktreeRemoveForce (wt_path r))) w). clear w.
    eapply wt_triple_bind; [apply triple_ignore; intros w Hw; apply st_ev; [done|done|apply (Hl w repo_root); by auto]|].
    intros []. eapply wt_triple_bind; [apply triple_ignore; intros w Hw; by apply st_ev|].
    intros []. eapply wt_triple_bind; [apply triple_exists|]. intros [|]; [|by apply wt_triple_ret].
    apply triple_fail. intros w. apply at_good.
  - intros [] w Hw. apply (triple_saved_done c []); [|done].
    apply (at_wf _ _ _ (wf_dropped _ _ _ name Hw)).
Qed.

Lemma triple_provision_record name branch start :
  triple good (provision_record env repo_root name branch start) (λ _, good).
Proof.
  unfold provision_record. eapply wt_triple_bind; [apply triple_validate|]. intros [].
  do 2 (eapply wt_triple_bind; [apply triple_require_first|]; intros []).
  eapply wt_triple_bind; [apply triple_git_common|]. intros [].
  eapply wt_triple_bind; [apply triple_resolve_first|]. intros abs_path.
  eapply wt_triple_bind; [apply triple_load|]. intros c. cbn zeta.
  eapply wt_triple_bind with (Q := λ _, st_at c []).
  { destruct (List.find _ c); [|by apply wt_triple_ret].
    eapply wt_triple_bind; [apply triple_exists|]. intros d. by apply wt_triple_ret. }
  intros kept. set (c' := retain _ c).
  assert (∀ A (k : pool A), triple (st_at c' []) k (λ _, good) → triple (st_at c []) k (λ _, good)) as Hdrop.
  { intros A k Hk. eapply wt_triple_pre; [exact Hk|]. intros w. apply wf_dropped. }
  assert (triple (st_at c' [])
    (_ ← create_parent env abs_path; _ ← git env repo_root Fetch; known ← ref_exists env repo_root branch;
     _ ← require (negb known) (InvalidRequest "branch already exists");
     _ ← git env repo_root (WorktreeAddBranch branch abs_path start); path ← canonicalize env abs_path;
     _ ← save_catalog env (upsert (mkWorktree name path branch start Free false []) c');
     mret (path, branch)) (λ _, good)) as Hnew.
  { eapply wt_triple_bind; [apply triple_parent|]. intros [].
    eapply wt_triple_bind; [by apply triple_harmless|]. intros ?.
    eapply wt_triple_bind; [apply triple_ref_exists|]. intros known.
    eapply wt_triple_bind; [apply triple_require_keep|].
    intros []. eapply wt_triple_bind; [by apply triple_harmless|]. intros ?.
    eapply wt_triple_bind; [apply triple_canonicalize|]. intros path. apply triple_record. }
  destruct (List.find _ c); [|by apply Hdrop]. destruct kept; [apply triple_done|by apply Hdrop].
Qed.

Lemma triple_find_listed c F want lines current branch :
  triple (st_at c F) (find_listed_lines env want lines current branch) (λ _, st_at c F).
Proof.
  revert current branch. induction lines as [|l lines IH]; intros current branch;
    cbn [find_listed_lines]; [by apply wt_triple_ret|].
  case_bool_decide; [|by repeat case_match]. eapply wt_triple_bind with (Q := λ _, st_at c F).
  - case_bool_decide; [by apply wt_triple_ret|]. unfold same_path. case_bool_decide; [by apply wt_triple_ret|].
    eapply wt_triple_bind; [apply triple_canonical_ok|]. intros a.
    eapply wt_triple_bind; [apply triple_canonical_ok|]. intros b. by apply wt_triple_ret.
  - intros [|]; [by apply wt_triple_ret|apply IH].
Qed.
Lemma triple_first_free c F name ns :
  triple (st_at c F) (first_free_branch env repo_root name ns) (λ _, st_at c F).
Proof.
  induction ns as [|n ns IH]; cbn [first_free_branch]; [apply triple_fail; intros w; apply at_good|].
  eapply wt_triple_bind; [apply triple_ref_exists|]. intros [|]; [apply IH|by apply wt_triple_ret].
Qed.
Lemma triple_unique_branch c F name :
  triple (st_at c F) (unique_branch env repo_root name) (λ _, st_at c F).
Proof.
  unfold unique_branch. eapply wt_triple_bind; [apply triple_ref_exists|].
  intros [|]; cbn [negb]; [apply triple_first_free|by apply wt_triple_ret].
Qed.

Lemma triple_create name base path : triple good (create env repo_root name base path) (λ _, good).
Proof.
  unfold create, create_record. eapply wt_triple_bind; [apply triple_validate|]. intros [].
  eapply wt_triple_bind; [apply triple_require_first|]. intros [].
  eapply wt_triple_bind; [apply triple_git_common|]. intros [].
  eapply wt_triple_bind; [apply triple_resolve_first|]. intros abs_path.
  eapply wt_triple_bind; [apply triple_load|]. intros c. cbn zeta.
  eapply wt_triple_bind with (Q := λ _, st_at c []).
  { destruct (List.find _ c); [apply triple_exists|by apply wt_triple_ret]. }
  intros there. assert (∀ r, triple (st_at c []) (mret r) (λ _ : WorktreeRecord, good)) as Hret
    by (intros r; apply triple_done). revert Hret.
  set (c' := retain _ c). intros Hret.
  match goal with |- context [find_listed_worktree env repo_root abs_path ≫= ?k] =>
    assert (triple (st_at c []) (find_listed_worktree env repo_root abs_path ≫= k) (λ _, good)) as Hnew end.
  { apply wt_triple_pre with (P' := st_at c' []); [|intros w; apply wf_dropped].
    unfold find_listed_worktree at 1.
    eapply wt_triple_bind; [eapply wt_triple_bind; [by apply triple_harmless|]; intros ?; apply triple_find_listed|].
    intros [[p branch]|]; [apply triple_record|].
    eapply wt_triple_bind; [apply triple_parent|]. intros [].
    eapply wt_triple_bind; [apply triple_unique_branch|]. intros branch.
    eapply wt_triple_bind; [by apply triple_harmless|]. intros ?.
    eapply wt_triple_bind; [apply triple_canonicalize|]. intros p. apply triple_record. }
  destruct (List.find _ c); [|done]. destruct there; [apply Hret|done].
Qed.

Lemma triple_reconcile_op : triple good (reconcile env repo_root) (λ _, good).
Proof.
  unfold reconcile. eapply wt_triple_bind; [apply triple_git_common|]. intros [].
  eapply wt_triple_bind; [apply triple_load|]. intros c.
  eapply wt_triple_bind; [apply triple_reconcile|]. intros c' w Hw.
  eapply (wt_triple_post good); [by apply (triple_save c'), (at_wf _ _ _ Hw)| |by apply (at_good _ _ _ Hw)].
  intros ? w' [Hw' _]. by eapply at_good.
Qed.

Lemma triple_serve : triple good (serve env repo_root size op) (λ _, good).
Proof.
  destruct op as [q|q| | |name|] eqn:Hop; cbn [serve]; [..|apply triple_reconcile_op];
    (apply wt_triple_bind with (Q := λ _, good); [|intros ?; by apply wt_triple_ret]).
  - by apply triple_lease.
  - by apply triple_return.
  - apply triple_provision_record.
  - apply triple_create.
  - by apply triple_remove_record.
Qed.
End invariant.

(** One request, and requests one after another. *)
Definition catalog_good (size : nat) (w : World) : Prop := ∀ c, w_file w = Some c → catalog_wf size c.
Lemma serve_good env repo_root size op w :
  catalog_good size w → good size op (w_trace w) (serve env repo_root size op w).1.
Proof.
  intros Hw. assert (good size op (w_trace w) w) as Hg by (split; [by exists []|done]).
  pose proof (triple_serve env repo_root size op (w_trace w) w Hg) as Hs.
  by destruct (serve env repo_root size op w) as [w' [|]].
Qed.
Lemma serve_all_good env repo_root size ops w :
  catalog_good size w → catalog_good size (serve_all env repo_root size ops w).
Proof.
  revert w. induction ops as [|op ops IH]; intros w Hw; [done|]. apply IH. by destruct (serve_good env repo_root size op w Hw).
Qed.

(** ** Slot names *)

Definition dashless (l : list Ascii.ascii) : Prop := Forall (λ c, is_dash c = false) l.
Lemma pretty_go_dashless x s : dashless (chars s) → dashless (chars (pretty_N_go x s)).
Proof.
  revert s. induction (N.lt_wf_0 x) as [x _ IH]; intros s Hs.
  assert (x = 0 ∨ 0 < x)%N as [->|Hx] by lia; [by rewrite pretty_N_go_0|].
  rewrite pretty_N_go_step by done. apply IH; [by apply N.div_lt|].
  simpl. constructor; [|done]. unfold pretty_N_char. by repeat case_match.
Qed.
Lemma pretty_dashless (n : nat) : dashless (chars (pretty n)).
Proof.
  unfold pretty, pretty_nat, pretty, pretty_N. case_decide; [by repeat constructor|].
  apply pretty_go_dashless. constructor.
Qed.
Lemma digits_dashless acc l v : digits_value acc l = Some v → dashless l.
Proof.
  revert acc. induction l as [|c l IH]; intros acc; simpl; [by constructor|].
  destruct (is_digit c) eqn:Hd; [|done]. case_match; [|done]. intros Hv. constructor; [|by eapply IH].
  unfold is_digit, is_dash, is_char in *. apply andb_true_iff in Hd as [?%Nat.leb_le _].
  apply Nat.eqb_neq. lia.
Qed.
Lemma parse_dashless l v : parse_usize l = Some v → dashless l.
Proof.
  unfold parse_usize. destruct l as [|c l]; [done|]. destruct (is_char 43 c) eqn:Hc.
  - case_bool_decide; [done|]. intros ?%digits_dashless. constructor; [|done].
    unfold is_dash, is_char in *. apply Nat.eqb_eq in Hc. apply Nat.eqb_neq. lia.
  - case_bool_decide; [done|]. by intros ?%digits_dashless.
Qed.
(** The last dash splits a list in one way. *)
Lemma last_dash_inj x y a b d e :
  is_dash d = true → is_dash e = true → dashless a → dashless b → x ++ d :: a = y ++ e :: b →
  x = y ∧ a = b.
Proof.
  intros Hd He Ha Hb. revert y. induction x as [|c x IH]; intros [|c' y]; simpl; intros [= Hc Hr].
  - done.
  - subst. exfalso. apply Forall_app in Ha as [_ [? _]%Forall_cons]. congruence.
  - subst. exfalso. apply Forall_app in Hb as [_ [? _]%Forall_cons]. congruence.
  - subst. destruct (IH y Hr) as [-> ->]. done.
Qed.
Lemma chars_app a b : chars (a +:+ b) = chars a ++ chars b.
Proof. induction a as [|c a IH]; simpl; [done|]. by rewrite IH. Qed.
Lemma chars_inj a b : chars a = chars b → a = b.
Proof. intros H%(f_equal of_chars). by rewrite !String.string_of_list_ascii_of_string in H. Qed.
(** A slot of two pools is a slot of one. *)
Lemma slot_of_pool pool p n : is_Some (slot_number pool (slot_name p n)) → p = pool.
Proof.
  intros [v Hv]. unfold slot_number in Hv. apply bind_Some in Hv as (suffix & Hs & Hv).
  case_bool_decide; [done|]. apply bind_Some in Hv as (k & Hk%parse_dashless & _).
  apply strip_prefix_spec in Hs. unfold slot_name in Hs. rewrite !chars_app in Hs.
  rewrite <- !(assoc_L (++)) in Hs. cbn [chars app] in Hs.
  symmetry in Hs. eapply last_dash_inj in Hs; [|done|done|..].
  - apply chars_inj. naive_solver.
  - constructor; [done|exact Hk].
  - constructor; [done|]. apply pretty_dashless.
Qed.

(** ** Theorems *)

Definition pool_start : World := mkWorld (Some []) 0 [].
Lemma start_good size : catalog_good size pool_start.
Proof. intros c [= <-]. split; [constructor|by constructor]. Qed.


(** C37. Capacity: whatever the requests and the environment, the catalog on
    disk has one row per name, every row is well formed (leased exactly when it
    has holders, each once), and no pool has more slots than its size. *)
Theorem pool_never_exceeds_its_size env repo_root size ops c pool :
  w_file (serve_all env repo_root size ops pool_start) = Some c →
  catalog_wf size c ∧ length (retain (λ r, wt_pooled r && is_slot pool r) c) ≤ size.
Proof.
  intros Hc. pose proof (serve_all_good env repo_root size ops _ (start_good size)) as Hwf.
  specialize (Hwf c Hc). split; [done|]. set (l := retain _ c).
  assert (length l = length (wt_name <$> l)) as -> by by rewrite length_fmap.
  assert (length (slot_name pool <$> List.seq 1 size) = size) as Hlen by by rewrite length_fmap, length_seq.
  rewrite <- Hlen. apply submseteq_length, NoDup_submseteq.
  - by apply (wf_sublist size _ _ (retain_sublist _ c) Hwf).
  - intros x (r & -> & [Hr [Hp Hs%bool_decide_eq_true]%andb_true_iff]%elem_of_retain)%list_elem_of_fmap.
    destruct (row_slot _ _ (wf_elem _ _ _ Hwf Hr) Hp) as (p & n & Hn & Hb). rewrite Hn in Hs |- *.
    apply slot_of_pool in Hs as ->. apply list_elem_of_fmap. exists n. split; [done|].
    apply list_elem_of_In, in_seq. lia.
Qed.

(** Returning a directory the pool did not make runs no git command in it. *)
Definition quiet (e : Ev) : bool :=
  match e with EvGit _ RevParseCommonDir | EvLoaded _ | EvSaved _ => true | _ => false end.
Definition quietly (w w' : World) : Prop := ∃ l, w_trace w' = l ++ w_trace w ∧ Forall (λ e, quiet e = true) l.
Lemma quietly_same w w' : w_trace w' = w_trace w → quietly w w'.
Proof. by exists []. Qed.
Lemma quietly_ev e w w' : quiet e = true → w_trace w' = e :: w_trace w → quietly w w'.
Proof. intros He Hw. exists [e]. split; [done|by apply Forall_singleton]. Qed.
Lemma quietly_trans w1 w2 w3 : quietly w1 w2 → quietly w2 w3 → quietly w1 w3.
Proof.
  intros (l1 & H1 & F1) (l2 & H2 & F2). exists (l2 ++ l1). split; [by rewrite H2, H1, (assoc_L (++))|].
  by apply Forall_app.
Qed.
Lemma quietly_bind {A B} (m : pool A) (k : A → pool B) w :
  quietly w (m w).1 → (∀ a w', m w = (w', Ok a) → quietly w' (k a w').1) → quietly w ((m ≫= k) w).1.
Proof.
  intros Hm Hk. rewrite st_bind_eq. destruct (m w) as [w' [a|e]]; [|done].
  eapply quietly_trans; [exact Hm|]. by apply (Hk a).
Qed.
Lemma quietly_save {A} env c (a : A) w : quietly w ((save_catalog env c ≫= λ _, mret a) w).1.
Proof.
  apply quietly_bind; [|intros; by apply quietly_same]. unfold save_catalog.
  destruct (e_save env (w_clock w)); [by apply (quietly_ev (EvSaved c))|by apply quietly_same..].
Qed.

(** Returning a directory that is not a slot of the pool leaves it alone: no
    git command runs in it and its status is not even read, whoever returns it
    and whatever the environment answers; only the catalog changes. *)
Theorem return_leaves_a_standalone_directory_alone env repo_root q w c :
  w_file w = Some c → Forall (λ r, wt_name r = lp_name q → wt_pooled r = false) c →
  quietly w (return_sized env repo_root q w).1.
Proof.
  intros Hf Hc. unfold return_sized. destruct (is_root q); [by apply quietly_same|].
  apply quietly_bind; [unfold validate_name, require; by destruct (safe_segment _); apply quietly_same|].
  intros [] w1 H1. assert (w1 = w) as -> by (revert H1; unfold validate_name, require;
    destruct (safe_segment _); [by intros [= <-]|done]).
  apply quietly_bind.
  { unfold git_common_dir. rewrite st_bind_eq. unfold git.
    destruct (e_git _ _ _ _); by apply (quietly_ev (EvGit repo_root RevParseCommonDir)). }
  intros [] w2 H2. assert (w_file w2 = w_file w) as Hf2.
  { revert H2. unfold git_common_dir. rewrite st_bind_eq. unfold git.
    destruct (e_git _ _ _ _); [|done]. by intros [= <-]. }
  apply quietly_bind.
  { unfold load_catalog. rewrite Hf2, Hf. destruct (e_load _ _); [by apply (quietly_ev (EvLoaded c))|by apply quietly_same]. }
  intros c2 w3 H3. assert (c2 = c) as ->.
  { revert H3. unfold load_catalog. rewrite Hf2, Hf. by destruct (e_load _ _); [intros [= _ <-]|]. }
  destruct (position _ c) as [i|] eqn:Hpos; [|by apply quietly_same].
  apply position_Some in Hpos as (r & Hr & Hn%bool_decide_eq_true & _). rewrite Hr.
  assert (wt_pooled r = false) as Hp.
  { rewrite list.Forall_forall in Hc. apply Hc; [by eapply list_elem_of_lookup_2|done]. }
  destruct (negb _); [by apply quietly_same|]. cbn zeta. case_bool_decide; [apply quietly_save|].
  rewrite Hp. apply quietly_save.
Qed.

(** ** What a granted lease leaves behind *)

(** The catalog on disk has the row the reply describes, held by the task. *)
Definition recorded (q : LeaseParams) (rep : LeaseReply) (w : World) : Prop :=
  ∃ c r, w_file w = Some c ∧ r ∈ c ∧ wt_name r = rep_name rep ∧ wt_path r = rep_path rep ∧
    wt_branch r = rep_branch rep ∧ wt_state r = Leased ∧ lp_task_id q ∈ wt_leased_by r ∧
    length (wt_leased_by r) = rep_refcount rep.
Definition granted_recorded (q : LeaseParams) (a : Reply) (w : World) : Prop :=
  match a with Granted rep => recorded q rep w | SupplyDeferred _ => True end.
(** What holds when a computation succeeds. *)
Definition yields {A} (m : pool A) (Q : A → World → Prop) : Prop := ∀ w w' a, m w = (w', Ok a) → Q a w'.
Lemma yields_bind {A B} (m : pool A) (k : A → pool B) (R : A → Prop) Q :
  yields m (λ a _, R a) → (∀ a, R a → yields (k a) Q) → yields (m ≫= k) Q.
Proof.
  intros Hm Hk w w' b. rewrite st_bind_eq. destruct (m w) as [w1 [a|e]] eqn:E; [|done].
  apply Hk. by eapply Hm.
Qed.
Lemma yields_seq {A B} (m : pool A) (k : A → pool B) Q :
  (∀ a, yields (k a) Q) → yields (m ≫= k) Q.
Proof. intros Hk. by apply (yields_bind m k (λ _, True)). Qed.
Lemma yields_fail {A} e (Q : A → World → Prop) : yields (st_fail e) Q.
Proof. done. Qed.
Lemma yields_save {A} env c (a : A) (Q : A → World → Prop) :
  (∀ w, w_file w = Some c → Q a w) → yields (save_catalog env c ≫= λ _, mret a) Q.
Proof.
  intros HQ w w' b. rewrite st_bind_eq. unfold save_catalog. destruct (e_save env (w_clock w)); [|done..].
  intros [= <- <-]. by apply HQ.
Qed.
(** The checkout answers for the row it was given. *)
Lemma yields_checkout env repo_root r task :
  yields (checkout_task_branch env repo_root r task)
    (λ warm _, warm_name warm = wt_name r ∧ warm_path warm = wt_path r).
Proof. unfold checkout_task_branch. cbn zeta. do 6 (apply yields_seq; intros ?). by intros w w' b [= <- <-]. Qed.
Lemma yields_lease_row env c i r warm q warm_hit queued :
  c !! i = Some r → warm_name warm = wt_name r → warm_path warm = wt_path r →
  yields (save_catalog env (alter (lease_row (warm_branch warm) (lp_task_id q)) i c) ≫= λ _,
            mret (lease_payload "pool" warm 1 warm_hit queued)) (granted_recorded q).
Proof.
  intros Hr Hn Hp. apply yields_save. intros w Hw.
  exists (alter (lease_row (warm_branch warm) (lp_task_id q)) i c),
    (lease_row (warm_branch warm) (lp_task_id q) r).
  split_and!; try done; [|by apply list_elem_of_singleton].
  apply list_elem_of_lookup_2 with i. by rewrite list_lookup_alter_eq, Hr.
Qed.
Lemma yields_reuse env c r q :
  wt_name r = lp_name q → yields (reuse_record env c r q) (granted_recorded q).
Proof.
  intros Hn. unfold reuse_record. cbn zeta. apply yields_save. intros w Hw.
  eexists _, (share_row (lp_task_id q) r). split_and!; [exact Hw|apply elem_of_upsert|done..| |done].
  unfold share_row. cbn. case_bool_decide; [done|]. apply elem_of_app. right. by apply list_elem_of_singleton.
Qed.
Lemma yields_provision env repo_root c q n :
  yields (provision_slot env repo_root c q n) (granted_recorded q).
Proof.
  unfold provision_slot. cbn zeta. do 5 (apply yields_seq; intros ?). apply yields_seq. intros path.
  set (r := mkWorktree _ path _ _ _ _ _). apply yields_seq. intros ?.
  eapply yields_bind; [apply yields_checkout|]. intros warm [Hn Hp]. apply yields_save. intros w Hw.
  eexists _, (lease_row (warm_branch warm) (lp_task_id q) r).
  split_and!; [exact Hw| |done..|by apply list_elem_of_singleton|done].
  apply list_elem_of_fmap. exists r. split; [|apply elem_of_upsert]. unfold named. by rewrite bool_decide_true.
Qed.
Lemma yields_pool_slot env repo_root c q size :
  yields (lease_pool_slot env repo_root c q size) (granted_recorded q).
Proof.
  unfold lease_pool_slot. apply yields_seq. intros c'. cbn zeta. apply yields_seq. intros [[i|] others];
    cbn [fst snd mbind option_bind].
  1: destruct (c' !! i) as [r|] eqn:Hr.
  { eapply yields_bind; [apply yields_checkout|]. intros warm [Hn Hp]. by apply yields_lease_row with r. }
  all: apply yields_seq; intros slots; apply yields_seq; intros [c2 slots2].
  all: case_bool_decide; [by intros w w' b [= <- <-]|].
  all: destruct (free_number _ _); [apply yields_provision|apply yields_fail].
Qed.

(** A granted lease is on disk before it is answered: unless the workspace
    root itself was asked for, the catalog file then has the row the reply
    names, with its path and branch, leased, with the task among its holders and
    as many holders as the reply counts. *)
Theorem granted_lease_is_recorded env repo_root q size w w' rep :
  is_root q = false → lease_sized env repo_root q size w = (w', Ok (Granted rep)) → recorded q rep w'.
Proof.
  intros Hroot Hl. enough (yields (lease_sized env repo_root q size) (granted_recorded q)) as Hy
    by exact (Hy _ _ _ Hl). unfold lease_sized. rewrite Hroot. do 2 (apply yields_seq; intros []).
  apply yields_seq. intros c.
  destruct (position _ c) as [i|] eqn:Hpos; [|apply yields_pool_slot].
  apply position_Some in Hpos as (r & Hr & Hn%bool_decide_eq_true & _). rewrite Hr.
  apply yields_seq. intros d. destruct (negb d); [apply yields_fail|].
  destruct (_ && _); [|by apply yields_reuse].
  eapply yields_bind; [apply yields_checkout|]. intros warm [? ?]. by apply yields_lease_row with r.
Qed.

(** ** Concrete runs *)

(** A healthy repository whose worktrees are [listing]; [gone p] when [p] is not
    there. *)
Definition newline : string := String (Ascii.ascii_of_nat 10) EmptyString.
Definition calm (listing : string) (gone : string → bool) : Env :=
  mkEnv (λ _, true) (λ _, Saved)
    (λ _ _ cmd, match cmd with WorktreeList => Ok listing | _ => Ok "0000" end)
    (λ _ _ _, Ok []) (λ _ p, negb (gone p)) (λ _ p, negb (gone p)) (λ _ _, Ok false)
    (λ _ name path, Ok (default ("/r/wt/" +:+ name) path)) (λ _, true)
    (λ _ p, if gone p then None else Some p).
Definition here (_ : string) : bool := false.
Definition one_slot : string := "worktree /r/wt/p-s1" +:+ newline +:+ "detached".
Definition removes_dir (p : string) (t : list Ev) : bool :=
  existsb (λ e, match e with EvRemoveDir p' => bool_decide (p' = p) | _ => false end) t.
Definition ask (name task base : string) : LeaseParams := mkLeaseParams name task (Some base).

(** Lease and return a slot of a pool of one. *)
Definition warmed : list PoolOp := [OpLease (ask "p" "t1" "main"); OpReturn (ask "p-s1" "t1" "main")].
Definition warm_world : World := serve_all (calm one_slot here) "/r" 1 warmed pool_start.
Lemma warm_world_file :
  w_file warm_world = Some [mkWorktree "p-s1" "/r/wt/p-s1" "HEAD" "origin/main" Parked true []].
Proof. vm_compute. reflexivity. Qed.
Lemma size_witness :
  catalog_wf 1 [mkWorktree "p-s1" "/r/wt/p-s1" "HEAD" "origin/main" Parked true []] ∧
  length (retain (λ r, wt_pooled r && is_slot "p" r)
    [mkWorktree "p-s1" "/r/wt/p-s1" "HEAD" "origin/main" Parked true []]) ≤ 1.
Proof. exact (pool_never_exceeds_its_size (calm one_slot here) "/r" 1 warmed _ "p" warm_world_file). Defined.

(** A directory the operator made, leased and returned. *)
Definition shared_world : World :=
  serve_all (calm one_slot here) "/r" 1 [OpProvision "solo" "wt/solo/x" "origin/main";
    OpLease (ask "solo" "t1" "main")] pool_start.
Definition solo_row : WorktreeRecord :=
  mkWorktree "solo" "/r/wt/solo" "wt/solo/x" "origin/main" Leased false ["t1"].
Lemma shared_world_file : w_file shared_world = Some [solo_row].
Proof. vm_compute. reflexivity. Qed.
Lemma solo_standalone :
  Forall (λ r, wt_name r = lp_name (ask "solo" "t1" "main") → wt_pooled r = false) [solo_row].
Proof. by apply Forall_singleton. Qed.
Lemma standalone_witness :
  quietly shared_world (return_sized (calm one_slot here) "/r" (ask "solo" "t1" "main") shared_world).1.
Proof.
  exact (return_leaves_a_standalone_directory_alone _ _ _ _ _ shared_world_file solo_standalone).
Defined.

Definition warm_reply : LeaseReply := mkReply "p-s1" "/r/wt/p-s1" "wt/p-s1/t2" "pool" 1 true false.
Definition after_warm : World := (lease_sized (calm one_slot here) "/r" (ask "p" "t2" "main") 1 warm_world).1.
Lemma warm_lease :
  lease_sized (calm one_slot here) "/r" (ask "p" "t2" "main") 1 warm_world = (after_warm, Ok (Granted warm_reply)).
Proof. vm_compute. reflexivity. Qed.
Lemma recorded_witness : recorded (ask "p" "t2" "main") warm_reply after_warm.
Proof. refine (granted_lease_is_recorded _ _ _ _ _ _ _ _ warm_lease). reflexivity. Defined.

(** After an eviction the slots are counted again without asking whether the
    pool made them: with a directory of the operator that is named like a slot
    ([p-s9]) beside its only slot, a pool of one evicts that slot, which was
    clean and warm, and still answers that it is full; the row of the removed
    slot stays in the catalog, which is not written. *)
Theorem eviction_can_still_defer :
  let rows := [mkWorktree "p-s1" "/r/wt/p-s1" "HEAD" "origin/main" Parked true [];
               mkWorktree "p-s9" "/r/wt/p-s9" "wt/p-s9/x" "origin/main" Free false []] in
  let '(w, a) := lease_sized (calm ("worktree /r/wt/p-s1" +:+ newline +:+ "worktree /r/wt/p-s9") here) "/r"
                   (ask "p" "t1" "dev") 1 (mkWorld (Some rows) 0 []) in
  a = Ok (SupplyDeferred 1) ∧ removes_dir "/r/wt/p-s1" (w_trace w) = true ∧ w_file w = Some rows.
Proof. vm_compute. by split_and!. Qed.

(** A slot can be adopted under a second name: creating a worktree with the
    path of a parked slot records the slot's own directory as a directory of the
    operator, and a task that leases it there loses it when the pool evicts its
    idle slot. *)
Theorem adopted_slot_is_evicted_under_its_holder :
  let w := serve_all (calm one_slot here) "/r" 1
    (warmed ++ [OpCreate "mine" "main" (Some "/r/wt/p-s1"); OpLease (ask "mine" "t2" "main");
                OpLease (ask "p" "t3" "dev")]) pool_start in
  removes_dir "/r/wt/p-s1" (w_trace w) = true ∧
  ∃ c r, w_file w = Some c ∧ r ∈ c ∧ wt_name r = "mine" ∧ wt_path r = "/r/wt/p-s1" ∧ wt_leased_by r = ["t2"].
Proof.
  split; [vm_compute; reflexivity|].
  exists [mkWorktree "mine" "/r/wt/p-s1" "HEAD" "main" Leased false ["t2"];
          mkWorktree "p-s1" "/r/wt/p-s1" "wt/p-s1/t3" "origin/dev" Leased true ["t3"]],
    (mkWorktree "mine" "/r/wt/p-s1" "HEAD" "main" Leased false ["t2"]).
  split_and!; [vm_compute; reflexivity|by left|done..].
Qed.

(** [find_listed_worktree] takes two paths that cannot be canonicalised for
    the same: while git still lists a worktree whose directory is gone,
    [worktree.create] of any new name answers with that missing directory and
    makes no worktree. *)
Theorem create_answers_with_a_missing_worktree :
  let listing := "worktree /r" +:+ newline +:+ "branch refs/heads/main" +:+ newline +:+ newline +:+
                 "worktree /r/wt/old" +:+ newline +:+ "branch refs/heads/wt/old/work" in
  let env := calm listing (λ p, negb (bool_decide (p = "/r"))) in
  let '(w, a) := create env "/r" "new" "main" None pool_start in
  a = Ok (mkWorktree "new" "/r/wt/old" "wt/old/work" "main" Free false []) ∧
  (∀ d b p s, EvGit d (WorktreeAddBranch b p s) ∉ w_trace w).
Proof.
  vm_compute. split; [reflexivity|]. intros d b p s Hin%list_elem_of_In. by simpl in Hin; intuition.
Qed.
