(* ===== verification/GateLog.v ===== *)
(** * Bounding gate evidence

    The fields of a gate verdict that reach the Hub's database
    ([remuda-hub/src/gatequeue.rs]): clipping a text on a character boundary,
    bounding the verdict's row fields, and shrinking a run log until its
    serialisation fits the cap.  A string is its UTF-8 bytes. *)
From stdpp Require Import base list strings numbers.
From S2P Require Import Prelude.
Local Open Scope nat_scope.
Local Open Scope remuda_scope.

(** ** Strings as UTF-8 bytes *)

Definition byte_at (i : nat) (s : string) : option nat := Ascii.nat_of_ascii <$> String.get i s.
(** [str::is_char_boundary]. *)
Definition is_char_boundary (s : string) (i : nat) : bool :=
  bool_decide (i = 0) || bool_decide (i = String.length s) ||
  match byte_at i s with Some b => negb ((128 <=? b) && (b <? 192)) | None => false end.
(** The three bytes of the ellipsis that marks a cut. *)
Definition ELLIPSIS : string :=
  String (Ascii.ascii_of_nat 226) (String (Ascii.ascii_of_nat 128) (String (Ascii.ascii_of_nat 166) "")).

(** [clip_evidence_field]; [floor_boundary] is its loop. *)
Fixpoint floor_boundary (s : string) (cut : nat) : nat :=
  match cut with
  | O => O
  | S k => if is_char_boundary s (S k) then S k else floor_boundary s k
  end.
Definition clip_evidence_field (text : string) (max_bytes : nat) : string :=
  if bool_decide (String.length text ≤ max_bytes) then text
  else String.substring 0 (floor_boundary text (max_bytes - String.length ELLIPSIS)) text +:+ ELLIPSIS.

(** ** A verdict *)

(** [struct GateStep], [struct GateRunLog], [struct GateRunResult]. *)
Record GateStep : Type := mkStep {
  gs_name : string;
  gs_status : string;
  gs_error : option string;
  gs_reason : option string;
}.
Record GateRunLog : Type := mkRunLog {
  rl_step : string;
  rl_kind : string;
  rl_attempts : Z;
  rl_headline : string;
  rl_summary : list string;
  rl_tail : list string;
  rl_captured_lines : nat;
  rl_truncated : bool;
}.
Record GateRunResult : Type := mkResult {
  gr_generation : Z;
  gr_status : string;
  gr_steps : list GateStep;
  gr_base_sha : option string;
  gr_head_sha : option string;
  gr_merge_sha : option string;
  gr_merge_ref : option string;
  gr_current_main_sha : option string;
  gr_error : option string;
  gr_failed_step : option string;
  gr_reason : option string;
  gr_run_log : option GateRunLog;
}.

Definition GATE_LOG_MAX_BYTES : nat := 512 * 1024.
Definition GATE_LOG_STEP_MAX_BYTES : nat := 128.
Definition GATE_LOG_KIND_MAX_BYTES : nat := 32.
Definition GATE_LOG_HEADLINE_MAX_BYTES : nat := 8 * 1024.
Definition GATE_LOG_LINE_MAX_BYTES : nat := 8 * 1024.
Definition GATE_JOB_REASON_MAX_BYTES : nat := 8 * 1024.
Definition GATE_JOB_ERROR_MAX_BYTES : nat := 16 * 1024.
Definition GATE_LOG_TRUNCATION_MARKER : string :=
  "... run log truncated: it exceeded the 512 KiB evidence cap, so output beyond the stored tail was discarded before persistence ...".

(** [bound_gate_result_row_fields]; the run log is left as it is. *)
Definition bound_step (s : GateStep) : GateStep :=
  mkStep (clip_evidence_field (gs_name s) GATE_LOG_STEP_MAX_BYTES) (gs_status s)
    ((λ t, clip_evidence_field t GATE_JOB_REASON_MAX_BYTES) <$> gs_error s)
    ((λ t, clip_evidence_field t GATE_JOB_REASON_MAX_BYTES) <$> gs_reason s).
Definition bound_gate_result_row_fields (r : GateRunResult) : GateRunResult :=
  mkResult (gr_generation r) (gr_status r) (bound_step <$> gr_steps r) (gr_base_sha r) (gr_head_sha r)
    (gr_merge_sha r) (gr_merge_ref r) (gr_current_main_sha r)
    ((λ t, clip_evidence_field t GATE_JOB_ERROR_MAX_BYTES) <$> gr_error r)
    ((λ t, clip_evidence_field t GATE_LOG_STEP_MAX_BYTES) <$> gr_failed_step r)
    ((λ t, clip_evidence_field t GATE_JOB_REASON_MAX_BYTES) <$> gr_reason r)
    (gr_run_log r).

(** ** [persisted_run_log_bytes] *)

Definition with_headline (h : string) (l : GateRunLog) : GateRunLog :=
  mkRunLog (rl_step l) (rl_kind l) (rl_attempts l) h (rl_summary l) (rl_tail l)
    (rl_captured_lines l) (rl_truncated l).
Definition with_tail (t : list string) (l : GateRunLog) : GateRunLog :=
  mkRunLog (rl_step l) (rl_kind l) (rl_attempts l) (rl_headline l) (rl_summary l) t
    (rl_captured_lines l) (rl_truncated l).
Definition with_summary (s : list string) (l : GateRunLog) : GateRunLog :=
  mkRunLog (rl_step l) (rl_kind l) (rl_attempts l) (rl_headline l) s (rl_tail l)
    (rl_captured_lines l) (rl_truncated l).
(** The fields bounded first, with the marker as the first line of the tail. *)
Definition bounded_log (l : GateRunLog) : GateRunLog :=
  mkRunLog (clip_evidence_field (rl_step l) GATE_LOG_STEP_MAX_BYTES)
    (clip_evidence_field (rl_kind l) GATE_LOG_KIND_MAX_BYTES) (rl_attempts l)
    (clip_evidence_field (rl_headline l) GATE_LOG_HEADLINE_MAX_BYTES)
    ((λ s, clip_evidence_field s GATE_LOG_LINE_MAX_BYTES) <$> rl_summary l)
    (GATE_LOG_TRUNCATION_MARKER :: ((λ s, clip_evidence_field s GATE_LOG_LINE_MAX_BYTES) <$> rl_tail l))
    (rl_captured_lines l `max` length (rl_tail l)) true.

Inductive LogError : Type := CannotEncode | CannotBound.

Section encoder.
(** [serde_json::to_vec]. *)
Context (encode : GateRunLog → result string LogError).

Definition over (bytes : string) : bool := bool_decide (GATE_LOG_MAX_BYTES < String.length bytes).
(** The two halving loops, with fuel for every iteration. *)
Fixpoint halve_tail (fuel : nat) (l : GateRunLog) (bytes : string) : result (GateRunLog * string) LogError :=
  match fuel with
  | O => Ok (l, bytes)
  | S n =>
      if over bytes && bool_decide (1 < length (rl_tail l)) then
        let keep := (length (rl_tail l) / 2) `max` 1 in
        let l := with_tail (take keep (rl_tail l)) l in
        let? bytes := encode l in halve_tail n l bytes
      else Ok (l, bytes)
  end.
Fixpoint halve_summary (fuel : nat) (l : GateRunLog) (bytes : string) : result (GateRunLog * string) LogError :=
  match fuel with
  | O => Ok (l, bytes)
  | S n =>
      if over bytes && negb (bool_decide (rl_summary l = [])) then
        let l := with_summary (take (length (rl_summary l) / 2) (rl_summary l)) l in
        let? bytes := encode l in halve_summary n l bytes
      else Ok (l, bytes)
  end.
(** Only the marker left, and a headline that leaves room for the frame. *)
Definition trim_headline (l : GateRunLog) (bytes : string) : result (GateRunLog * string) LogError :=
  if over bytes then
    let l := with_summary [] (with_tail (take 1 (rl_tail l)) l) in
    let? bytes := encode l in
    if over bytes then
      let framing := String.length bytes - String.length (rl_headline l) in
      let budget := GATE_LOG_MAX_BYTES - (framing + 64) in
      let l := with_headline (clip_evidence_field (rl_headline l) budget) l in
      let? bytes := encode l in Ok (l, bytes)
    else Ok (l, bytes)
  else Ok (l, bytes).
Definition last_resort (l : GateRunLog) (bytes : string) : result string LogError :=
  if over bytes then
    encode (mkRunLog (clip_evidence_field (rl_step l) 16) (clip_evidence_field (rl_kind l) 8)
              (rl_attempts l) "" (rl_summary l) (rl_tail l) (rl_captured_lines l) (rl_truncated l))
  else Ok bytes.

Definition persisted_run_log_bytes (run_log : GateRunLog) : result (string * bool) LogError :=
  let? bytes := encode run_log in
  if bool_decide (String.length bytes ≤ GATE_LOG_MAX_BYTES) then Ok (bytes, false)
  else
    let l := bounded_log run_log in
    let? bytes := encode l in
    let? tailed := halve_tail (length (rl_tail l)) l bytes in
    let? summed := halve_summary (S (length (rl_summary tailed.1))) tailed.1 tailed.2 in
    let? trimmed := trim_headline summed.1 summed.2 in
    let? bytes := last_resort trimmed.1 trimmed.2 in
    if over bytes then Err CannotBound else Ok (bytes, true).
End encoder.

(** ** Clipping *)

Lemma length_sapp a b : String.length (a +:+ b) = String.length a + String.length b.
Proof. induction a as [|c a IH]; simpl; [done|]. by rewrite IH. Qed.
Lemma length_substring0 n s : String.length (String.substring 0 n s) = n `min` String.length s.
Proof. revert n. induction s as [|c s IH]; intros [|n]; simpl; try done. by rewrite IH. Qed.
Lemma floor_boundary_le s cut : floor_boundary s cut ≤ cut.
Proof. induction cut as [|k IH]; simpl; [done|]. destruct (is_char_boundary s (S k)); lia. Qed.
Lemma floor_boundary_is s cut : is_char_boundary s (floor_boundary s cut) = true.
Proof.
  induction cut as [|k IH]; simpl; [unfold is_char_boundary; by rewrite bool_decide_true|].
  destruct (is_char_boundary s (S k)) eqn:H; [exact H|exact IH].
Qed.
Lemma clip_length t n : String.length (clip_evidence_field t n) ≤ n `max` 3.
Proof.
  unfold clip_evidence_field. case_bool_decide as H; [lia|].
  rewrite length_sapp, length_substring0. change (String.length ELLIPSIS) with 3.
  pose proof (floor_boundary_le t (n - 3)). lia.
Qed.
Lemma clip_fits t n : 3 ≤ n → String.length (clip_evidence_field t n) ≤ n.
Proof. intros. pose proof (clip_length t n). lia. Qed.

(** ** Shrinking a log *)

Definition marked (l : GateRunLog) : Prop :=
  rl_truncated l = true ∧ ∃ t, rl_tail l = GATE_LOG_TRUNCATION_MARKER :: t.
(** Of the tail and of the summary of [l] the beginning is left, and the counts
    are as in [l]. *)
Definition shrunk (l l' : GateRunLog) : Prop :=
  rl_tail l' `prefix_of` rl_tail l ∧ rl_summary l' `prefix_of` rl_summary l ∧
  rl_attempts l' = rl_attempts l ∧ rl_captured_lines l' = rl_captured_lines l.
Lemma shrunk_tail l l' n : shrunk l l' → shrunk l (with_tail (take n (rl_tail l')) l').
Proof. intros (H1 & H2 & H3 & H4). split_and!; try done. simpl. etrans; [apply prefix_take|done]. Qed.
Lemma shrunk_summary l l' n : shrunk l l' → shrunk l (with_summary (take n (rl_summary l')) l').
Proof. intros (H1 & H2 & H3 & H4). split_and!; try done. simpl. etrans; [apply prefix_take|done]. Qed.
Lemma marked_bounded l : marked (bounded_log l).
Proof. split; [done|]. by eexists. Qed.

Section shrink.
Context (encode : GateRunLog → result string LogError).
(** What a loop hands over: a marked log that shrank from [l0], with its
    encoding. *)
Record encoded (l0 : GateRunLog) (lb : GateRunLog * string) : Prop := {
  enc_marked : marked lb.1;
  enc_shrunk : shrunk l0 lb.1;
  enc_bytes : encode lb.1 = Ok lb.2;
}.

Lemma halve_tail_encoded l0 n l bytes lb :
  encoded l0 (l, bytes) → halve_tail encode n l bytes = Ok lb → encoded l0 lb.
Proof.
  revert l bytes. induction n as [|n IH]; intros l bytes [Hm Hs He]; simpl; [by intros [= <-]|].
  destruct (_ && _); [|by intros [= <-]]. destruct (encode (with_tail _ l)) as [b|] eqn:Hb; [|done].
  simpl. apply IH. split; [|by apply shrunk_tail|done]. destruct Hm as [Ht (t & Hl)]. simpl in Hl. split; [done|].
  cbn [fst rl_tail with_tail]. destruct (_ `max` 1) as [|k] eqn:Hk; [lia|]. rewrite Hl. by exists (take k t).
Qed.
Lemma halve_summary_encoded l0 n l bytes lb :
  encoded l0 (l, bytes) → halve_summary encode n l bytes = Ok lb → encoded l0 lb.
Proof.
  revert l bytes. induction n as [|n IH]; intros l bytes [Hm Hs He]; simpl; [by intros [= <-]|].
  destruct (_ && _); [|by intros [= <-]]. destruct (encode (with_summary _ l)) as [b|] eqn:Hb; [|done].
  simpl. apply IH. split; [done|by apply shrunk_summary|done].
Qed.
(** What is still too long then has lost its summary and its tail. *)
Lemma trim_headline_encoded l0 l bytes lb :
  encoded l0 (l, bytes) → trim_headline encode l bytes = Ok lb →
  encoded l0 lb ∧ (over lb.2 = true → rl_summary lb.1 = [] ∧ rl_tail lb.1 = [GATE_LOG_TRUNCATION_MARKER]).
Proof.
  intros [[Ht (t & Hl)] Hs He]. simpl in *. unfold trim_headline. destruct (over bytes) eqn:Ho.
  2: { intros [= <-]. simpl. rewrite Ho. split; [|done]. split; [|done|done]. split; [done|by eexists]. }
  set (l' := with_summary [] _).
  assert (shrunk l0 l') as Hs' by exact (shrunk_summary _ _ 0 (shrunk_tail _ _ 1 Hs)).
  assert (rl_tail l' = [GATE_LOG_TRUNCATION_MARKER]) as Htail by (subst l'; simpl; by rewrite Hl).
  destruct (encode l') as [b|] eqn:Hb; [|done]. cbn [result_bind]. destruct (over b) eqn:Hob.
  - destruct (encode (with_headline _ l')) as [b'|] eqn:Hb'; [|done]. intros [= <-].
    split; [|done]. split; [|done|done]. split; [done|by eexists].
  - intros [= <-]. split; [|done]. split; [|done|done]. split; [done|by eexists].
Qed.

(** *** The loops end

    Each iteration leaves fewer lines, so fuel for every line is enough: more of
    it changes nothing. *)
Lemma halve_tail_fuel l bytes n n' :
  length (rl_tail l) ≤ n → n ≤ n' → halve_tail encode n' l bytes = halve_tail encode n l bytes.
Proof.
  revert l bytes n'. induction n as [|n IH]; intros l bytes n' Hn Hn'.
  - destruct n' as [|n']; [done|]. simpl. rewrite (bool_decide_false (1 < _)) by lia. by rewrite andb_false_r.
  - destruct n' as [|n']; [lia|]. cbn [halve_tail]. destruct (over bytes); [|done]. cbn [andb].
    case_bool_decide as Hlen; [|done]. cbn zeta. set (l' := with_tail _ l).
    destruct (encode l') as [b|]; [|done]. cbn [result_bind]. apply IH; [|lia].
    subst l'. cbn [rl_tail with_tail]. rewrite length_take.
    pose proof (Nat.div_lt (length (rl_tail l)) 2 ltac:(lia) ltac:(lia)). lia.
Qed.
Lemma halve_summary_fuel l bytes n n' :
  length (rl_summary l) ≤ n → n ≤ n' → halve_summary encode n' l bytes = halve_summary encode n l bytes.
Proof.
  revert l bytes n'. induction n as [|n IH]; intros l bytes n' Hn Hn'.
  - destruct n' as [|n']; [done|]. simpl. rewrite (bool_decide_true (rl_summary l = []))
      by (apply nil_length_inv; lia). by rewrite andb_false_r.
  - destruct n' as [|n']; [lia|]. cbn [halve_summary]. destruct (over bytes); [|done]. cbn [andb].
    case_bool_decide as Hlen; [done|]. cbn [negb]. cbn zeta. set (l' := with_summary _ l).
    destruct (encode l') as [b|]; [|done]. cbn [result_bind]. apply IH; [|lia].
    assert (length (rl_summary l) ≠ 0) by (by intros ?%nil_length_inv).
    subst l'. cbn [rl_summary with_summary]. rewrite length_take.
    pose proof (Nat.div_lt (length (rl_summary l)) 2 ltac:(lia) ltac:(lia)). lia.
Qed.
End shrink.

(** ** Serialisation *)

Definition text_size (l : list string) : nat := sum_list_with (λ s, 6 * String.length s + 3) l.
(** What [serde_json::to_vec] promises: it succeeds, and writes at most six
    bytes for a byte of text, three more for an element of a list and a frame of
    at most 300 bytes around the fields (a [u32], a [usize] and a flag). *)
Class EncoderLaws (encode : GateRunLog → result string LogError) : Prop := {
  encode_size l : (Z.of_nat (rl_captured_lines l) ≤ u64_max)%Z → ∃ b, encode l = Ok b ∧
    String.length b ≤ 300 + 6 * (String.length (rl_step l) + String.length (rl_kind l) +
      String.length (rl_headline l)) + text_size (rl_summary l) + text_size (rl_tail l);
}.

Section total.
Context (encode : GateRunLog → result string LogError) `{!EncoderLaws encode}.

Lemma encode_total l : (Z.of_nat (rl_captured_lines l) ≤ u64_max)%Z → ∃ b, encode l = Ok b.
Proof. intros H. destruct (encode_size l H) as (b & Hb & _). by exists b. Qed.
Lemma halve_tail_total n l bytes :
  (Z.of_nat (rl_captured_lines l) ≤ u64_max)%Z → ∃ lb, halve_tail encode n l bytes = Ok lb.
Proof.
  revert l bytes. induction n as [|n IH]; intros l bytes Hc; cbn [halve_tail]; [by eexists|].
  destruct (_ && _); [|by eexists]. cbn zeta. destruct (encode_total (with_tail (take
    ((length (rl_tail l) / 2) `max` 1) (rl_tail l)) l) Hc) as [b ->]. by apply IH.
Qed.
Lemma halve_summary_total n l bytes :
  (Z.of_nat (rl_captured_lines l) ≤ u64_max)%Z → ∃ lb, halve_summary encode n l bytes = Ok lb.
Proof.
  revert l bytes. induction n as [|n IH]; intros l bytes Hc; cbn [halve_summary]; [by eexists|].
  destruct (_ && _); [|by eexists]. cbn zeta. destruct (encode_total (with_summary (take
    (length (rl_summary l) / 2) (rl_summary l)) l) Hc) as [b ->]. by apply IH.
Qed.
Lemma trim_headline_total l bytes :
  (Z.of_nat (rl_captured_lines l) ≤ u64_max)%Z → ∃ lb, trim_headline encode l bytes = Ok lb.
Proof.
  intros Hc. unfold trim_headline. destruct (over bytes); [|by eexists].
  set (l' := with_summary [] _). cbn zeta. destruct (encode_total l' Hc) as [b ->]. cbn [result_bind].
  destruct (over b); [|by eexists]. set (l2 := with_headline _ l').
  destruct (encode_total l2 Hc) as [b' ->]. by eexists.
Qed.
End total.

(** The two loops have fuel for every iteration: more of it changes nothing. *)
Definition loops_end (encode : GateRunLog → result string LogError) : Prop :=
  ∀ l bytes n,
    (length (rl_tail l) ≤ n → halve_tail encode n l bytes = halve_tail encode (length (rl_tail l)) l bytes) ∧
    (S (length (rl_summary l)) ≤ n →
       halve_summary encode n l bytes = halve_summary encode (S (length (rl_summary l))) l bytes).


(** An encoder that joins the texts, and one log. *)
Definition join (l : list string) : string := foldr String.app "" l.
Definition plain_encode (l : GateRunLog) : result string LogError :=
  Ok (rl_step l +:+ (rl_kind l +:+ (rl_headline l +:+ (join (rl_summary l) +:+ join (rl_tail l))))).
Lemma join_size l : String.length (join l) ≤ text_size l.
Proof.
  induction l as [|s l IH]; [done|]. unfold text_size in *. change (join (s :: l)) with (s +:+ join l). rewrite length_sapp.
  cbn [sum_list_with]. lia.
Qed.
#[export] Instance plain_laws : EncoderLaws plain_encode.
Proof.
  split. intros l _. eexists. split; [reflexivity|]. rewrite !length_sapp.
  pose proof (join_size (rl_summary l)). pose proof (join_size (rl_tail l)). lia.
Qed.
Definition sample_log : GateRunLog := mkRunLog "cargo-test" "failed" 1 "1 test failed" [] ["boom"] 1 false.
(** A log of half a million lines, past the cap. *)
Definition long_log (n : nat) : GateRunLog :=
  mkRunLog "cargo-test" "failed" 1 "1 test failed" [] (replicate n "boom") 1 false.
Definition big_log : GateRunLog := long_log GATE_LOG_MAX_BYTES.
Lemma long_log_size n b : plain_encode (long_log n) = Ok b → n < String.length b.
Proof.
  assert (String.length (join (replicate n "boom")) = 4 * n) as Hj.
  { induction n as [|n IH]; [done|]. change (join (replicate (S n) "boom"))
      with ("boom" +:+ join (replicate n "boom")). rewrite length_sapp, IH. change (String.length "boom") with 4. lia. }
  unfold plain_encode. intros [= <-]. rewrite !length_sapp. cbn [rl_step rl_tail long_log].
  change (String.length "cargo-test") with 10. lia.
Qed.
Lemma long_log_lines n : length (rl_tail (long_log n)) = n.
Proof. apply length_replicate. Qed.
Lemma sample_lines : (Z.of_nat (length (rl_tail big_log)) ≤ u64_max)%Z.
Proof. unfold big_log. rewrite long_log_lines. unfold GATE_LOG_MAX_BYTES, u64_max. lia. Qed.
