(* ===== verification/GateQueue.v ===== *)
(** * The Hub's gate queue

    [remuda-hub/src/gatequeue.rs]: jobs that verify a branch on a lane and,
    when asked to, land it on main.  A row of [gate_jobs] is its document and the
    columns only the Hub sees; a writer job of the database is one atomic step on
    a row, and between the steps of a handler any other step may run, so a
    handler that reads first is split into what it read and what its writer does
    with the live row.  The columns that repeat the state and the lane of the
    document are written together with it and left out.  Timestamps are
    milliseconds, and what a Node, the fence tables or the remote answer is an
    argument of the step. *)
From stdpp Require Import base list gmap strings numbers pretty sorting.
From S2P Require Import Prelude GateLog.
Local Open Scope Z_scope.

(** ** Jobs *)

(** [enum GateMode], [enum GateJobState]. *)
Inductive GateMode : Type := Verify | Land.
Inductive GateJobState : Type :=
  Queued | Running | Landing | Passed | Failed | Landed | Canceling | Canceled.
#[export] Instance GateMode_eq_dec : EqDecision GateMode.
Proof. solve_decision. Defined.
#[export] Instance GateJobState_eq_dec : EqDecision GateJobState.
Proof. solve_decision. Defined.
(** [GateJobState::is_terminal], [as_str]. *)
Definition is_terminal (s : GateJobState) : bool :=
  match s with Passed | Failed | Landed | Canceled => true | _ => false end.
Definition state_str (s : GateJobState) : string :=
  match s with
  | Queued => "queued" | Running => "running" | Landing => "landing" | Passed => "passed"
  | Failed => "failed" | Landed => "landed" | Canceling => "canceling" | Canceled => "canceled"
  end.

(** [struct GateEvidenceUncertain]. *)
Record GateEvidenceUncertain : Type := mkUncertain {
  eu_generation : Z;
  eu_epoch : option string;
  eu_merge_sha : option string;
  eu_status : string;
  eu_supplied_digest : string;
  eu_deliveries_deferred : Z;
  eu_first_at : Z;
  eu_updated_at : Z;
}.

(** [struct GateJob]; the fields no queue operation reads are left out. *)
Record GateJob : Type := mkJob {
  j_project : string;
  j_mode : GateMode;
  j_lane_id : option string;
  j_state : GateJobState;
  j_steps : list GateStep;
  j_host_id : option string;
  j_queued_at : Z;
  j_started_at : option Z;
  j_node_started_at : option Z;
  j_finished_at : option Z;
  j_cancel_requested_at : option Z;
  j_home_land_in_flight : bool;
  j_landing_session_epoch : option string;
  j_landing_outcome_unknown : bool;
  j_evidence_uncertain : option GateEvidenceUncertain;
  j_base_sha : option string;
  j_head_sha : option string;
  j_merge_sha : option string;
  j_merge_ref : option string;
  j_current_main_sha : option string;
  j_error : option string;
  j_failed_step : option string;
  j_reason : option string;
  j_log_object_id : option string;
  j_attempts : Z;
  j_then_output : option string;
}.
(** One field changed. *)
Definition set_lane_id (x : option string) (j : GateJob) : GateJob :=
  mkJob (j_project j) (j_mode j) x (j_state j) (j_steps j) (j_host_id j) (j_queued_at j) (j_started_at j)
    (j_node_started_at j) (j_finished_at j) (j_cancel_requested_at j) (j_home_land_in_flight j)
    (j_landing_session_epoch j) (j_landing_outcome_unknown j) (j_evidence_uncertain j) (j_base_sha j)
    (j_head_sha j) (j_merge_sha j) (j_merge_ref j) (j_current_main_sha j) (j_error j) (j_failed_step j)
    (j_reason j) (j_log_object_id j) (j_attempts j) (j_then_output j).
Definition set_state (x : GateJobState) (j : GateJob) : GateJob :=
  mkJob (j_project j) (j_mode j) (j_lane_id j) x (j_steps j) (j_host_id j) (j_queued_at j) (j_started_at j)
    (j_node_started_at j) (j_finished_at j) (j_cancel_requested_at j) (j_home_land_in_flight j)
    (j_landing_session_epoch j) (j_landing_outcome_unknown j) (j_evidence_uncertain j) (j_base_sha j)
    (j_head_sha j) (j_merge_sha j) (j_merge_ref j) (j_current_main_sha j) (j_error j) (j_failed_step j)
    (j_reason j) (j_log_object_id j) (j_attempts j) (j_then_output j).
Definition set_steps (x : list GateStep) (j : GateJob) : GateJob :=
  mkJob (j_project j) (j_mode j) (j_lane_id j) (j_state j) x (j_host_id j) (j_queued_at j) (j_started_at j)
    (j_node_started_at j) (j_finished_at j) (j_cancel_requested_at j) (j_home_land_in_flight j)
    (j_landing_session_epoch j) (j_landing_outcome_unknown j) (j_evidence_uncertain j) (j_base_sha j)
    (j_head_sha j) (j_merge_sha j) (j_merge_ref j) (j_current_main_sha j) (j_error j) (j_failed_step j)
    (j_reason j) (j_log_object_id j) (j_attempts j) (j_then_output j).
Definition set_host_id (x : option string) (j : GateJob) : GateJob :=
  mkJob (j_project j) (j_mode j) (j_lane_id j) (j_state j) (j_steps j) x (j_queued_at j) (j_started_at j)
    (j_node_started_at j) (j_finished_at j) (j_cancel_requested_at j) (j_home_land_in_flight j)
    (j_landing_session_epoch j) (j_landing_outcome_unknown j) (j_evidence_uncertain j) (j_base_sha j)
    (j_head_sha j) (j_merge_sha j) (j_merge_ref j) (j_current_main_sha j) (j_error j) (j_failed_step j)
    (j_reason j) (j_log_object_id j) (j_attempts j) (j_then_output j).
Definition set_started_at (x : option Z) (j : GateJob) : GateJob :=
  mkJob (j_project j) (j_mode j) (j_lane_id j) (j_state j) (j_steps j) (j_host_id j) (j_queued_at j) x
    (j_node_started_at j) (j_finished_at j) (j_cancel_requested_at j) (j_home_land_in_flight j)
    (j_landing_session_epoch j) (j_landing_outcome_unknown j) (j_evidence_uncertain j) (j_base_sha j)
    (j_head_sha j) (j_merge_sha j) (j_merge_ref j) (j_current_main_sha j) (j_error j) (j_failed_step j)
    (j_reason j) (j_log_object_id j) (j_attempts j) (j_then_output j).
Definition set_node_started_at (x : option Z) (j : GateJob) : GateJob :=
  mkJob (j_project j) (j_mode j) (j_lane_id j) (j_state j) (j_steps j) (j_host_id j) (j_queued_at j)
    (j_started_at j) x (j_finished_at j) (j_cancel_requested_at j) (j_home_land_in_flight j)
    (j_landing_session_epoch j) (j_landing_outcome_unknown j) (j_evidence_uncertain j) (j_base_sha j)
    (j_head_sha j) (j_merge_sha j) (j_merge_ref j) (j_current_main_sha j) (j_error j) (j_failed_step j)
    (j_reason j) (j_log_object_id j) (j_attempts j) (j_then_output j).
Definition set_finished_at (x : option Z) (j : GateJob) : GateJob :=
  mkJob (j_project j) (j_mode j) (j_lane_id j) (j_state j) (j_steps j) (j_host_id j) (j_queued_at j)
    (j_started_at j) (j_node_started_at j) x (j_cancel_requested_at j) (j_home_land_in_flight j)
    (j_landing_session_epoch j) (j_landing_outcome_unknown j) (j_evidence_uncertain j) (j_base_sha j)
    (j_head_sha j) (j_merge_sha j) (j_merge_ref j) (j_current_main_sha j) (j_error j) (j_failed_step j)
    (j_reason j) (j_log_object_id j) (j_attempts j) (j_then_output j).
Definition set_cancel_requested_at (x : option Z) (j : GateJob) : GateJob :=
  mkJob (j_project j) (j_mode j) (j_lane_id j) (j_state j) (j_steps j) (j_host_id j) (j_queued_at j)
    (j_started_at j) (j_node_started_at j) (j_finished_at j) x (j_home_land_in_flight j)
    (j_landing_session_epoch j) (j_landing_outcome_unknown j) (j_evidence_uncertain j) (j_base_sha j)
    (j_head_sha j) (j_merge_sha j) (j_merge_ref j) (j_current_main_sha j) (j_error j) (j_failed_step j)
    (j_reason j) (j_log_object_id j) (j_attempts j) (j_then_output j).
Definition set_home_land_in_flight (x : bool) (j : GateJob) : GateJob :=
  mkJob (j_project j) (j_mode j) (j_lane_id j) (j_state j) (j_steps j) (j_host_id j) (j_queued_at j)
    (j_started_at j) (j_node_started_at j) (j_finished_at j) (j_cancel_requested_at j) x
    (j_landing_session_epoch j) (j_landing_outcome_unknown j) (j_evidence_uncertain j) (j_base_sha j)
    (j_head_sha j) (j_merge_sha j) (j_merge_ref j) (j_current_main_sha j) (j_error j) (j_failed_step j)
    (j_reason j) (j_log_object_id j) (j_attempts j) (j_then_output j).
Definition set_landing_session_epoch (x : option string) (j : GateJob) : GateJob :=
  mkJob (j_project j) (j_mode j) (j_lane_id j) (j_state j) (j_steps j) (j_host_id j) (j_queued_at j)
    (j_started_at j) (j_node_started_at j) (j_finished_at j) (j_cancel_requested_at j)
    (j_home_land_in_flight j) x (j_landing_outcome_unknown j) (j_evidence_uncertain j) (j_base_sha j)
    (j_head_sha j) (j_merge_sha j) (j_merge_ref j) (j_current_main_sha j) (j_error j) (j_failed_step j)
    (j_reason j) (j_log_object_id j) (j_attempts j) (j_then_output j).
Definition set_landing_outcome_unknown (x : bool) (j : GateJob) : GateJob :=
  mkJob (j_project j) (j_mode j) (j_lane_id j) (j_state j) (j_steps j) (j_host_id j) (j_queued_at j)
    (j_started_at j) (j_node_started_at j) (j_finished_at j) (j_cancel_requested_at j)
    (j_home_land_in_flight j) (j_landing_session_epoch j) x (j_evidence_uncertain j) (j_base_sha j)
    (j_head_sha j) (j_merge_sha j) (j_merge_ref j) (j_current_main_sha j) (j_error j) (j_failed_step j)
    (j_reason j) (j_log_object_id j) (j_attempts j) (j_then_output j).
Definition set_evidence_uncertain (x : option GateEvidenceUncertain) (j : GateJob) : GateJob :=
  mkJob (j_project j) (j_mode j) (j_lane_id j) (j_state j) (j_steps j) (j_host_id j) (j_queued_at j)
    (j_started_at j) (j_node_started_at j) (j_finished_at j) (j_cancel_requested_at j)
    (j_home_land_in_flight j) (j_landing_session_epoch j) (j_landing_outcome_unknown j) x (j_base_sha j)
    (j_head_sha j) (j_merge_sha j) (j_merge_ref j) (j_current_main_sha j) (j_error j) (j_failed_step j)
    (j_reason j) (j_log_object_id j) (j_attempts j) (j_then_output j).
Definition set_base_sha (x : option string) (j : GateJob) : GateJob :=
  mkJob (j_project j) (j_mode j) (j_lane_id j) (j_state j) (j_steps j) (j_host_id j) (j_queued_at j)
    (j_started_at j) (j_node_started_at j) (j_finished_at j) (j_cancel_requested_at j)
    (j_home_land_in_flight j) (j_landing_session_epoch j) (j_landing_outcome_unknown j)
    (j_evidence_uncertain j) x (j_head_sha j) (j_merge_sha j) (j_merge_ref j) (j_current_main_sha j)
    (j_error j) (j_failed_step j) (j_reason j) (j_log_object_id j) (j_attempts j) (j_then_output j).
Definition set_head_sha (x : option string) (j : GateJob) : GateJob :=
  mkJob (j_project j) (j_mode j) (j_lane_id j) (j_state j) (j_steps j) (j_host_id j) (j_queued_at j)
    (j_started_at j) (j_node_started_at j) (j_finished_at j) (j_cancel_requested_at j)
    (j_home_land_in_flight j) (j_landing_session_epoch j) (j_landing_outcome_unknown j)
    (j_evidence_uncertain j) (j_base_sha j) x (j_merge_sha j) (j_merge_ref j) (j_current_main_sha j)
    (j_error j) (j_failed_step j) (j_reason j) (j_log_object_id j) (j_attempts j) (j_then_output j).
Definition set_merge_sha (x : option string) (j : GateJob) : GateJob :=
  mkJob (j_project j) (j_mode j) (j_lane_id j) (j_state j) (j_steps j) (j_host_id j) (j_queued_at j)
    (j_started_at j) (j_node_started_at j) (j_finished_at j) (j_cancel_requested_at j)
    (j_home_land_in_flight j) (j_landing_session_epoch j) (j_landing_outcome_unknown j)
    (j_evidence_uncertain j) (j_base_sha j) (j_head_sha j) x (j_merge_ref j) (j_current_main_sha j)
    (j_error j) (j_failed_step j) (j_reason j) (j_log_object_id j) (j_attempts j) (j_then_output j).
Definition set_merge_ref (x : option string) (j : GateJob) : GateJob :=
  mkJob (j_project j) (j_mode j) (j_lane_id j) (j_state j) (j_steps j) (j_host_id j) (j_queued_at j)
    (j_started_at j) (j_node_started_at j) (j_finished_at j) (j_cancel_requested_at j)
    (j_home_land_in_flight j) (j_landing_session_epoch j) (j_landing_outcome_unknown j)
    (j_evidence_uncertain j) (j_base_sha j) (j_head_sha j) (j_merge_sha j) x (j_current_main_sha j)
    (j_error j) (j_failed_step j) (j_reason j) (j_log_object_id j) (j_attempts j) (j_then_output j).
Definition set_current_main_sha (x : option string) (j : GateJob) : GateJob :=
  mkJob (j_project j) (j_mode j) (j_lane_id j) (j_state j) (j_steps j) (j_host_id j) (j_queued_at j)
    (j_started_at j) (j_node_started_at j) (j_finished_at j) (j_cancel_requested_at j)
    (j_home_land_in_flight j) (j_landing_session_epoch j) (j_landing_outcome_unknown j)
    (j_evidence_uncertain j) (j_base_sha j) (j_head_sha j) (j_merge_sha j) (j_merge_ref j) x (j_error j)
    (j_failed_step j) (j_reason j) (j_log_object_id j) (j_attempts j) (j_then_output j).
Definition set_error (x : option string) (j : GateJob) : GateJob :=
  mkJob (j_project j) (j_mode j) (j_lane_id j) (j_state j) (j_steps j) (j_host_id j) (j_queued_at j)
    (j_started_at j) (j_node_started_at j) (j_finished_at j) (j_cancel_requested_at j)
    (j_home_land_in_flight j) (j_landing_session_epoch j) (j_landing_outcome_unknown j)
    (j_evidence_uncertain j) (j_base_sha j) (j_head_sha j) (j_merge_sha j) (j_merge_ref j)
    (j_current_main_sha j) x (j_failed_step j) (j_reason j) (j_log_object_id j) (j_attempts j)
    (j_then_output j).
Definition set_failed_step (x : option string) (j : GateJob) : GateJob :=
  mkJob (j_project j) (j_mode j) (j_lane_id j) (j_state j) (j_steps j) (j_host_id j) (j_queued_at j)
    (j_started_at j) (j_node_started_at j) (j_finished_at j) (j_cancel_requested_at j)
    (j_home_land_in_flight j) (j_landing_session_epoch j) (j_landing_outcome_unknown j)
    (j_evidence_uncertain j) (j_base_sha j) (j_head_sha j) (j_merge_sha j) (j_merge_ref j)
    (j_current_main_sha j) (j_error j) x (j_reason j) (j_log_object_id j) (j_attempts j) (j_then_output j).
Definition set_reason (x : option string) (j : GateJob) : GateJob :=
  mkJob (j_project j) (j_mode j) (j_lane_id j) (j_state j) (j_steps j) (j_host_id j) (j_queued_at j)
    (j_started_at j) (j_node_started_at j) (j_finished_at j) (j_cancel_requested_at j)
    (j_home_land_in_flight j) (j_landing_session_epoch j) (j_landing_outcome_unknown j)
    (j_evidence_uncertain j) (j_base_sha j) (j_head_sha j) (j_merge_sha j) (j_merge_ref j)
    (j_current_main_sha j) (j_error j) (j_failed_step j) x (j_log_object_id j) (j_attempts j)
    (j_then_output j).
Definition set_log_object_id (x : option string) (j : GateJob) : GateJob :=
  mkJob (j_project j) (j_mode j) (j_lane_id j) (j_state j) (j_steps j) (j_host_id j) (j_queued_at j)
    (j_started_at j) (j_node_started_at j) (j_finished_at j) (j_cancel_requested_at j)
    (j_home_land_in_flight j) (j_landing_session_epoch j) (j_landing_outcome_unknown j)
    (j_evidence_uncertain j) (j_base_sha j) (j_head_sha j) (j_merge_sha j) (j_merge_ref j)
    (j_current_main_sha j) (j_error j) (j_failed_step j) (j_reason j) x (j_attempts j) (j_then_output j).
Definition set_attempts (x : Z) (j : GateJob) : GateJob :=
  mkJob (j_project j) (j_mode j) (j_lane_id j) (j_state j) (j_steps j) (j_host_id j) (j_queued_at j)
    (j_started_at j) (j_node_started_at j) (j_finished_at j) (j_cancel_requested_at j)
    (j_home_land_in_flight j) (j_landing_session_epoch j) (j_landing_outcome_unknown j)
    (j_evidence_uncertain j) (j_base_sha j) (j_head_sha j) (j_merge_sha j) (j_merge_ref j)
    (j_current_main_sha j) (j_error j) (j_failed_step j) (j_reason j) (j_log_object_id j) x
    (j_then_output j).
Definition set_then_output (x : option string) (j : GateJob) : GateJob :=
  mkJob (j_project j) (j_mode j) (j_lane_id j) (j_state j) (j_steps j) (j_host_id j) (j_queued_at j)
    (j_started_at j) (j_node_started_at j) (j_finished_at j) (j_cancel_requested_at j)
    (j_home_land_in_flight j) (j_landing_session_epoch j) (j_landing_outcome_unknown j)
    (j_evidence_uncertain j) (j_base_sha j) (j_head_sha j) (j_merge_sha j) (j_merge_ref j)
    (j_current_main_sha j) (j_error j) (j_failed_step j) (j_reason j) (j_log_object_id j) (j_attempts j) x.

(** A row: the document and the Hub-only columns. *)
Record GateRow : Type := mkRow {
  row_job : GateJob;
  dispatch_session : option Z;
  landing_at : option Z;
  landing_probed_at : option Z;
  row_id : Z;
}.
Definition with_job (j : GateJob) (r : GateRow) : GateRow :=
  mkRow j (dispatch_session r) (landing_at r) (landing_probed_at r) (row_id r).
Definition row_state (r : GateRow) : GateJobState := j_state (row_job r).
Definition row_attempts (r : GateRow) : Z := j_attempts (row_job r).

(** The tables: jobs, log objects by id with their digest, the boot epoch. *)
Record Hub : Type := mkHub {
  h_jobs : gmap string GateRow;
  h_objects : gmap string string;
  h_boot_epoch : option Z;
}.
Definition with_jobs (m : gmap string GateRow) (h : Hub) : Hub := mkHub m (h_objects h) (h_boot_epoch h).
Definition put_row (id : string) (r : GateRow) (h : Hub) : Hub := with_jobs (<[id := r]> (h_jobs h)) h.

Definition MAX_LAND_ATTEMPTS : Z := 3.

(** [str::lines().next()], or the text itself. *)
Fixpoint until_newline (s : string) : string :=
  match s with
  | EmptyString => EmptyString
  | String c r => if Ascii.eqb c (Ascii.ascii_of_nat 10) then EmptyString else String c (until_newline r)
  end.
Definition first_line (s : string) : string :=
  let l := until_newline s in
  let n := String.length l in
  match String.get (n - 1) l with
  | Some c => if Ascii.eqb c (Ascii.ascii_of_nat 13) && negb (bool_decide (l = s))
              then String.substring 0 (n - 1) l else l
  | None => l
  end.

(** ** Enqueue *)

(** [enqueue_job]: what a new row holds, and [insert_gate_job]. *)
Definition new_job (project : string) (mode : GateMode) (lane : option string) (now : Z) : GateJob :=
  mkJob project mode lane Queued [] None now None None None None false None false None None None None None
    None None None None None 0 None.
Definition next_row_id (h : Hub) : Z := 1 + map_fold (λ _ r m, Z.max (row_id r) m) 0 (h_jobs h).
Definition insert_gate_job (id project : string) (mode : GateMode) (lane : option string) (now : Z)
    (authorized : bool) (h : Hub) : Hub :=
  if authorized && bool_decide (h_jobs h !! id = None)
  then put_row id (mkRow (new_job project mode lane now) None None None (next_row_id h)) h else h.

(** ** [mutate_gate_job] *)

(** Load, change, store; a refusal changes nothing. *)
Definition mutate_gate_job (id : string) (f : GateJob → option GateJob) (h : Hub) : Hub * option GateJob :=
  match h_jobs h !! id with
  | Some r =>
      match f (row_job r) with
      | Some j => (put_row id (with_job j r) h, Some j)
      | None => (h, None)
      end
  | None => (h, None)
  end.

(** ** Cancelling *)

Inductive GateJobCancelOutcome : Type :=
  QueuedCanceled | CancelRequested | LandingInProgress | Terminal | Missing.
(** [request_gate_job_cancel], once the caller's authority is checked. *)
Definition cancel_job (now : Z) (j : GateJob) : option (GateJob * GateJobCancelOutcome) :=
  match j_state j with
  | Queued =>
      if bool_decide (j_evidence_uncertain j ≠ None) then None
      else Some (set_error (Some "canceled while queued") (set_finished_at (Some now)
                   (set_state Canceled j)), QueuedCanceled)
  | Running | Canceling =>
      let j := set_state Canceling j in
      Some (if bool_decide (j_cancel_requested_at j = None) then set_cancel_requested_at (Some now) j else j,
            CancelRequested)
  | Landing => Some (j, LandingInProgress)
  | _ => Some (j, Terminal)
  end.
Definition request_gate_job_cancel (id : string) (now : Z) (authorized : bool) (h : Hub)
    : Hub * option GateJobCancelOutcome :=
  if negb authorized then (h, None)
  else
    match h_jobs h !! id with
    | None => (h, Some Missing)
    | Some r =>
        match cancel_job now (row_job r) with
        | None => (h, Some Missing)
        | Some (j, o) =>
            (match o with QueuedCanceled | CancelRequested => put_row id (with_job j r) h | _ => h end, Some o)
        end
    end.

(** [finish_expired_cancels] on one job: what it read, then its writer. *)
Definition age_ms (now earlier : Z) : option Z := if now <? earlier then None else Some (now - earlier).
Definition cancel_expired (grace now : Z) (j : GateJob) : bool :=
  bool_decide (j_state j = Canceling) && negb (j_home_land_in_flight j) &&
  bool_decide (j_evidence_uncertain j = None) &&
  match j_cancel_requested_at j with
  | Some at_ => match age_ms now at_ with Some age => grace <=? age | None => false end
  | None => false
  end.
Definition finish_cancel (now : Z) (j : GateJob) : option GateJob :=
  if negb (bool_decide (j_state j = Canceling)) || j_home_land_in_flight j ||
     bool_decide (j_evidence_uncertain j ≠ None) then None
  else Some (set_reason (Some "canceled; run did not stop in time")
         (set_error (Some "canceled; the lane did not answer within the cancel grace")
         (set_finished_at (Some now) (set_state Canceled j)))).

(** ** [claim_gate_job] *)

Inductive Authority : Type := AuthOk | AuthFenced | AuthFailed.
Inductive GateJobClaim : Type := Claimed (j : GateJob) | FencedCanceled (j : GateJob) | NotReady.
Definition claim_job (lane host : string) (now : Z) (refused : bool) (auth : Authority) (j : GateJob)
    : result GateJobClaim unit :=
  if negb (bool_decide (j_state j = Queued)) then Ok NotReady
  else if refused then Ok NotReady
  else if bool_decide (j_evidence_uncertain j ≠ None) then Ok NotReady
  else
    match auth with
    | AuthFailed => Err tt
    | AuthFenced =>
        Ok (FencedCanceled (set_reason (Some "fenced") (set_finished_at (Some now)
              (set_state Canceled (set_evidence_uncertain None j)))))
    | AuthOk =>
        Ok (Claimed (set_attempts (Z.min (j_attempts j + 1) u32_max) (set_node_started_at None
              (set_started_at (Some now) (set_host_id (Some host) (set_lane_id (Some lane)
              (set_state Running j)))))))
    end.
Definition claim_gate_job (id lane host : string) (now : Z) (refused : bool) (auth : Authority) (h : Hub)
    : Hub * option GateJobClaim :=
  match h_jobs h !! id with
  | None => (h, Some NotReady)
  | Some r =>
      match claim_job lane host now refused auth (row_job r) with
      | Ok (Claimed j) => (put_row id (with_job j r) h, Some (Claimed j))
      | Ok (FencedCanceled j) => (put_row id (with_job j r) h, Some (FencedCanceled j))
      | Ok NotReady => (h, Some NotReady)
      | Err _ => (h, None)
      end
  end.

(** [set_gate_dispatch_session]: the carrier session a dispatch rides. *)
Definition as_i64 (session : Z) : Z := if session <=? i64_max then session else 0.
Definition set_session (s : option Z) (r : GateRow) : GateRow :=
  mkRow (row_job r) s (landing_at r) (landing_probed_at r) (row_id r).
Definition set_gate_dispatch_session (id : string) (session : Z) (h : Hub) : Hub :=
  match h_jobs h !! id with
  | Some r => put_row id (set_session (Some (as_i64 session)) r) h
  | None => h
  end.

(** ** What a Node reports before the verdict *)

(** [cancel_fenced_attempt]: a claimed attempt that never reached its lane. *)
Definition cancel_fenced (generation now : Z) (recorded : bool) (j : GateJob) : option GateJob :=
  if negb (bool_decide (j_state j = Running)) || negb (bool_decide (j_attempts j = generation)) ||
     bool_decide (j_node_started_at j ≠ None) then None
  else if recorded then
    Some (set_reason (Some "fenced") (set_finished_at (Some now) (set_state Canceled j)))
  else None.

(** [fail_rpc_inner]: the [gate.run] call was lost; the writer. *)
Definition fail_rpc (generation now : Z) (message : string) (j : GateJob) : option GateJob :=
  if bool_decide (j_state j = Landing) then None
  else if negb (bool_decide (j_state j = Running)) && negb (bool_decide (j_state j = Canceling)) then None
  else if negb (bool_decide (j_attempts j = generation)) then None
  else if j_home_land_in_flight j then None
  else if bool_decide (j_evidence_uncertain j ≠ None) then None
  else Some (set_error (Some message) (set_reason (Some (first_line message))
         (set_finished_at (Some now) (set_state Failed j)))).

(** [on_event]: only the host the job was dispatched to may report; then the
    first phase of an attempt, or a finished step. *)
Definition event_allowed (from_host : string) (j : GateJob) : bool :=
  match j_host_id j with Some host => bool_decide (host = from_host) | None => true end.
Definition on_phase (generation now : Z) (recorded : bool) (j : GateJob) : option GateJob :=
  if negb (bool_decide (j_state j = Running) || bool_decide (j_state j = Landing) ||
           bool_decide (j_state j = Canceling)) ||
     negb (bool_decide (j_attempts j = generation)) || bool_decide (j_node_started_at j ≠ None) then None
  else if recorded then Some (set_node_started_at (Some now) j) else None.
Fixpoint put_step (s : GateStep) (l : list GateStep) : list GateStep :=
  match l with
  | [] => [s]
  | x :: r => if bool_decide (gs_name x = gs_name s) then s :: r else x :: put_step s r
  end.
Definition on_step (generation : Z) (s : GateStep) (j : GateJob) : option GateJob :=
  if negb (bool_decide (j_state j = Running)) && negb (bool_decide (j_state j = Canceling)) then None
  else if negb (bool_decide (j_attempts j = generation)) then None
  else Some (set_steps (put_step s (j_steps j)) j).

(** ** Authority of a dispatch *)

(** [gate_dispatch_authorized]. *)
Definition gate_dispatch_authorized (id host : string) (generation session : Z) (h : Hub)
    : bool * option GateJobState :=
  match h_jobs h !! id with
  | None => (false, None)
  | Some r =>
      (bool_decide (row_state r = Running) && bool_decide (row_attempts r = generation) &&
       bool_decide (j_host_id (row_job r) = Some host) &&
       bool_decide (dispatch_session r = Some (as_i64 session)),
       Some (row_state r))
  end.

(** [gate_land_grant]: Running to Landing for one attempt, host, session and
    merge. *)
Record GateLandGrant : Type := mkGrant {
  granted : bool;
  grant_state : option string;
  landing_in_progress : bool;
}.
Definition grant_tuple (host : string) (generation session : Z) (r : GateRow) : bool :=
  bool_decide (row_attempts r = generation) && bool_decide (j_host_id (row_job r) = Some host) &&
  bool_decide (dispatch_session r = Some session).
Definition land_row (epoch merge : string) (now : Z) (r : GateRow) : GateRow :=
  mkRow (set_merge_sha (Some merge) (set_landing_session_epoch (Some epoch)
           (set_state Landing (row_job r))))
    (dispatch_session r) (Some now) None (row_id r).
Definition gate_land_grant (id host : string) (generation : Z) (epoch merge : string) (session now : Z)
    (h : Hub) : Hub * option GateLandGrant :=
  if i64_max <? session then (h, None)
  else
    match h_jobs h !! id with
    | None => (h, Some (mkGrant false (Some "missing") false))
    | Some r =>
        if bool_decide (row_state r = Landing) then
          let same := grant_tuple host generation session r &&
                      bool_decide (j_merge_sha (row_job r) = Some merge) in
          (h, Some (mkGrant same (if same then None else Some "landing") same))
        else if bool_decide (row_state r = Running) && grant_tuple host generation session r then
          (put_row id (land_row epoch merge now r) h, Some (mkGrant true None false))
        else (h, Some (mkGrant false (Some (state_str (row_state r))) false))
    end.

(** ** A carrier session ends, or comes back *)

(** [recover_ended_gate_jobs] on one row. *)
Definition recover_row (host : string) (session now : Z) (r : GateRow) : GateRow :=
  let j := row_job r in
  if bool_decide (j_host_id j = Some host) &&
     (bool_decide (j_state j = Running) || bool_decide (j_state j = Canceling)) &&
     bool_decide (dispatch_session r = Some (as_i64 session)) &&
     bool_decide (j_evidence_uncertain j = None)
  then
    mkRow
      (if bool_decide (j_state j = Canceling) then
         set_reason (Some "canceled; carrier session changed")
           (set_error (Some (default "carrier changed before the run registered; finished canceled" (j_error j)))
           (set_finished_at (Some now) (set_state Canceled j)))
       else
         set_error (Some "carrier session changed while running; re-queued")
           (set_lane_id None (set_host_id None (set_started_at None (set_state Queued j)))))
      None (landing_at r) (landing_probed_at r) (row_id r)
  else r.
(** [recover_ended_session]. *)
Definition recover_ended_session (host : string) (session now : Z) (h : Hub) : Hub :=
  if session =? 0 then h else with_jobs (recover_row host session now <$> h_jobs h) h.

(** [rebind_same_boot_landing_sessions] on one row. *)
Definition rebind_row (host : string) (new_session boot_epoch : Z) (r : GateRow) : GateRow :=
  match dispatch_session r with
  | Some s =>
      if bool_decide (row_state r = Landing) && bool_decide (j_host_id (row_job r) = Some host) &&
         negb (s =? as_i64 new_session) && (Z.shiftr s 32 =? as_i64 boot_epoch)
      then set_session (Some (as_i64 new_session)) r else r
  | None => r
  end.
Definition rebind_same_boot_landing_sessions (host : string) (new_session boot_epoch : Z) (h : Hub) : Hub :=
  with_jobs (rebind_row host new_session boot_epoch <$> h_jobs h) h.

(** ** Landings and the remote *)

(** [settle_landing_probe]: the requeued and the failed row. *)
Definition clear_landing (j : GateJob) : GateJob :=
  set_evidence_uncertain None (set_landing_outcome_unknown false (set_landing_session_epoch None
    (set_home_land_in_flight false j))).
Definition requeue_landing (error : string) (j : GateJob) : GateJob :=
  set_error (Some error) (set_log_object_id None (set_reason None (set_failed_step None
    (set_merge_sha None (set_merge_ref None (set_current_main_sha None (set_finished_at None
    (set_lane_id None (set_host_id None (set_started_at None (set_state Queued j))))))))))).
Definition probe_landed (now : Z) (j : GateJob) : GateJob :=
  let j := set_error None (set_state Landed (set_finished_at (Some now) (clear_landing j))) in
  set_reason (Some (default "landed; confirmed on remote main by reconciliation" (j_reason j))) j.
Definition probe_absent (now : Z) (j : GateJob) : GateJob :=
  if j_attempts j <? MAX_LAND_ATTEMPTS then
    requeue_landing "landing provably absent on the remote and the land process group is verified dead; re-queued for a fresh attempt"
      (clear_landing j)
  else
    set_reason (Some "failed; landing provably absent and the land group is dead")
      (set_error (Some "landing provably absent on the remote with the land process group verified dead; the attempt cap is reached, so the job is not re-run automatically")
      (set_finished_at (Some now) (set_state Failed (clear_landing j)))).
Definition probe_matches (attempts : Z) (merge : string) (session : option Z) (host : string) (r : GateRow)
    : bool :=
  bool_decide (row_state r = Landing) && bool_decide (row_attempts r = attempts) &&
  bool_decide (j_merge_sha (row_job r) = Some merge) &&
  bool_decide (j_host_id (row_job r) = Some host) && bool_decide (dispatch_session r = session).
Definition settle_landing_probe (id : string) (attempts : Z) (merge : string) (session : option Z)
    (host : string) (landed : bool) (now : Z) (h : Hub) : Hub * option GateJob :=
  match h_jobs h !! id with
  | Some r =>
      if probe_matches attempts merge session host r then
        let j := if landed then probe_landed now (row_job r) else probe_absent now (row_job r) in
        (put_row id (mkRow j None None (landing_probed_at r) (row_id r)) h, Some j)
      else (h, None)
  | None => (h, None)
  end.

(** [probe_expected_session]. *)
Definition probe_expected_session (boot_epoch : Z) (grant_session : option Z) (responder : Z) : option Z :=
  match grant_session with
  | Some g => if Z.shiftr (Z.max g 0) 32 =? boot_epoch then Some (as_i64 responder) else grant_session
  | None => None
  end.

(** [mark_landing_probed], [mark_landing_unknown]. *)
Definition mark_landing_probed (id : string) (at_ : Z) (h : Hub) : Hub :=
  match h_jobs h !! id with
  | Some r => if bool_decide (row_state r = Landing)
              then put_row id (mkRow (row_job r) (dispatch_session r) (landing_at r) (Some at_) (row_id r)) h else h
  | None => h
  end.
Definition mark_unknown (attempts : Z) (note : string) (j : GateJob) : option GateJob :=
  if negb (bool_decide (j_state j = Landing)) || negb (bool_decide (j_attempts j = attempts)) then None
  else if j_landing_outcome_unknown j then Some j
  else Some (set_reason (Some ("landing outcome unknown after the bounded recovery window: " +:+ note +:+
              "; the job keeps its landing occupancy until the remote outcome is established or an operator resolves it"))
              (set_landing_outcome_unknown true j)).

(** ** Landing from the home host *)

(** [land_from_home]: the claim before the push. *)
Definition home_claim (j : GateJob) : option GateJob :=
  if negb (bool_decide (j_state j = Running)) then None else Some (set_home_land_in_flight true j).
(** [struct GateLandResult], and whether the push outcome is known at all. *)
Record GateLandResult : Type := mkLandResult {
  gl_status : string;
  gl_current_main_sha : option string;
  gl_merge_sha : option string;
  gl_error : option string;
}.
Definition opt_or {A} (a b : option A) : option A := match a with Some _ => a | None => b end.
(** [land_from_home]: the row after the push. *)
Definition home_requeue (main : option string) (j : GateJob) : GateJob :=
  set_log_object_id None (set_reason None (set_failed_step None (set_merge_sha None (set_merge_ref None
    (set_current_main_sha main (set_lane_id None (set_host_id None (set_started_at None
    (set_state Queued j))))))))).
Definition home_done (landed : GateLandResult) (unknown : bool) (now : Z) (j : GateJob) : option GateJob :=
  if negb (bool_decide (j_state j = Running)) && negb (bool_decide (j_state j = Canceling)) then None
  else
    let canceling := bool_decide (j_state j = Canceling) in
    let j := set_evidence_uncertain None (set_home_land_in_flight false j) in
    let ended := "home-host land ended: " +:+ gl_status landed in
    if canceling then
      if bool_decide (gl_status landed = "landed") then
        Some (set_reason (Some "cancel arrived after the home host pushed main") (set_error None
          (set_merge_sha (opt_or (gl_merge_sha landed) (j_merge_sha j)) (set_finished_at (Some now)
          (set_state Landed j)))))
      else
        let base := default ended (gl_error landed) in
        let j := set_current_main_sha (opt_or (gl_current_main_sha landed) (j_current_main_sha j))
                   (set_finished_at (Some now) (set_state Canceled j)) in
        Some (if unknown then set_reason (Some "canceled; push outcome unknown")
                                (set_error (Some ("canceled; push outcome unknown: " +:+ base)) j)
              else set_reason (Some "canceled; the home host did not push main")
                     (set_error (Some ("canceled; not landed: " +:+ base)) j))
    else if bool_decide (gl_status landed = "landed") then
      Some (set_reason None (set_error None (set_merge_sha (opt_or (gl_merge_sha landed) (j_merge_sha j))
        (set_finished_at (Some now) (set_state Landed j)))))
    else if bool_decide (gl_status landed = "base-moved") && (j_attempts j <? MAX_LAND_ATTEMPTS) then
      Some (home_requeue (gl_current_main_sha landed) j)
    else
      let error := default (if bool_decide (gl_status landed = "base-moved")
                            then "main moved and the land attempt cap (3) is spent" else ended) (gl_error landed) in
      Some (set_error (Some error) (set_reason (Some (first_line error))
        (set_current_main_sha (gl_current_main_sha landed) (set_finished_at (Some now) (set_state Failed j))))).

(** [run_then_hook]. *)
Definition then_done (output : string) (j : GateJob) : option GateJob := Some (set_then_output (Some output) j).
(** [drop_job_refs]: the row after the lane dropped the refs of the job. *)
Definition drop_job_refs (j : GateJob) : option GateJob := Some (set_merge_ref None j).
(** The fence transaction of the Hub ([fence.rs]): a queued job is canceled. *)
Definition fence_job (now : Z) (j : GateJob) : option GateJob :=
  if bool_decide (j_state j = Queued)
  then Some (set_reason (Some "fenced") (set_finished_at (Some now) (set_state Canceled j))) else None.

(** ** The Hub restarts *)

(** [reconcile] on one row: the filter it reads with, and its writer. *)
Definition restart_job (now : Z) (j : GateJob) : GateJob :=
  let canceling := bool_decide (j_state j = Canceling) in
  let j := set_home_land_in_flight false j in
  if canceling then
    set_reason (Some "canceled; hub restarted mid-cancel")
      (set_error (Some "hub restarted while the job was canceling; finished canceled")
      (set_finished_at (Some now) (set_state Canceled j)))
  else
    set_error (Some "hub restarted while the job was running; re-queued")
      (set_lane_id None (set_host_id None (set_started_at None (set_state Queued j)))).
Definition restart_row (now : Z) (r : GateRow) : GateRow :=
  let j := row_job r in
  if (bool_decide (j_state j = Running) || bool_decide (j_state j = Canceling)) &&
     bool_decide (j_evidence_uncertain j = None)
  then with_job (restart_job now j) r else r.
Definition reconcile (now : Z) (h : Hub) : Hub := with_jobs (restart_row now <$> h_jobs h) h.

(** [next_gate_session_boot_epoch]. *)
Definition MAX_GATE_SESSION_BOOT_EPOCH : Z := 2147483648.
Definition retained_session (h : Hub) : option Z :=
  map_fold (λ _ r m, match dispatch_session r, m with
                     | Some s, Some t => Some (Z.max s t)
                     | Some s, None => Some s
                     | None, _ => m
                     end) None (h_jobs h).
(** [(session >> 32) as u64]: a negative session sign-extends. *)
Definition session_epoch (session : Z) : Z :=
  let e := Z.shiftr session 32 in if e <? 0 then e + 18446744073709551616 else e.
Inductive EpochError : Type := EpochRegressed.
Definition next_gate_session_boot_epoch (h : Hub) : result (Hub * Z) EpochError :=
  let retained := match retained_session h with Some s => session_epoch s | None => 0 end in
  let claim n := Ok (mkHub (h_jobs h) (h_objects h) (Some n), n) in
  if MAX_GATE_SESSION_BOOT_EPOCH <=? retained then Err EpochRegressed
  else
    match h_boot_epoch h with
    | None => if retained =? 0 then claim 1 else Err EpochRegressed
    | Some value =>
        let stored := Z.max value 0 in
        if stored <? retained then Err EpochRegressed
        else if MAX_GATE_SESSION_BOOT_EPOCH <=? stored then Err EpochRegressed
        else
          let next := Z.max stored retained + 1 in
          if MAX_GATE_SESSION_BOOT_EPOCH <=? next then Err EpochRegressed else claim next
    end.
(** [insert_locked]: the session of a hello. *)
Definition pack_session (boot_epoch counter : Z) : Z := Z.lor (Z.shiftl boot_epoch 32) counter.

(** ** Operator resolutions *)

(** [resolve_project_job]: the writer. *)
Definition resolve_landing (attempts : Z) (epoch merge : string) (requeue : bool) (by_ rationale : string)
    (now : Z) (j : GateJob) : option GateJob :=
  if negb (bool_decide (j_state j = Landing)) || negb (j_landing_outcome_unknown j) then None
  else if bool_decide (j_evidence_uncertain j ≠ None) then None
  else if negb (bool_decide (j_attempts j = attempts)) ||
          negb (bool_decide (j_landing_session_epoch j = Some epoch)) ||
          negb (bool_decide (j_merge_sha j = Some merge)) then None
  else
    let j := clear_landing j in
    Some (if requeue then
            requeue_landing ("landing outcome unknown; re-queued by explicit operator resolution (" +:+ by_ +:+ "): " +:+ rationale) j
          else
            set_reason (Some ("failed; landing outcome unknown, resolved by operator: " +:+ rationale))
              (set_error (Some ("landing outcome unknown after the bounded recovery window; settled failed by explicit operator resolution (" +:+ by_ +:+ "): " +:+ rationale))
              (set_finished_at (Some now) (set_state Failed j)))).

(** [evidence_resolution_mismatch] and the writer of
    [resolve_evidence_project_job]. *)
Definition evidence_resolvable_state (s : GateJobState) : bool :=
  match s with Running | Canceling | Landing => true | _ => false end.
Definition evidence_resolution_mismatch (j : GateJob) (attempts : Z) (epoch merge : option string) : bool :=
  match j_evidence_uncertain j with
  | Some c =>
      negb (evidence_resolvable_state (j_state j)) ||
      negb (bool_decide (eu_generation c = j_attempts j)) ||
      negb (bool_decide (eu_epoch c = j_landing_session_epoch j)) ||
      negb (bool_decide (eu_merge_sha c = j_merge_sha j)) ||
      negb (bool_decide (j_attempts j = attempts)) ||
      negb (bool_decide (j_landing_session_epoch j = epoch)) || negb (bool_decide (j_merge_sha j = merge))
  | None => true
  end.
Definition resolve_evidence (attempts : Z) (epoch merge : option string) (requeue : bool)
    (by_ rationale : string) (now : Z) (j : GateJob) : option GateJob :=
  if evidence_resolution_mismatch j attempts epoch merge then None
  else
    let j := clear_landing j in
    Some (if requeue then
            requeue_landing ("evidence could not be persisted for a definitive verdict; re-queued by explicit operator resolution (" +:+ by_ +:+ "): " +:+ rationale) j
          else
            set_reason (Some ("failed; evidence unavailable, resolved by operator: " +:+ rationale))
              (set_error (Some ("a definitive verdict's run log could not be persisted and no redelivery remains; settled failed by explicit operator resolution (" +:+ by_ +:+ "): " +:+ rationale))
              (set_finished_at (Some now) (set_state Failed j)))).

(** ** Evidence *)

Section evidence.
(** [serde_json::to_vec] of a run log and [sha256_hex]. *)
Context (encode : GateRunLog → result string LogError) (sha256_hex : string → string).

Definition supplied_digest (l : GateRunLog) : string :=
  sha256_hex (match encode l with Ok b => b | Err _ => "" end).

(** [str::trim().is_empty()] on UTF-8 bytes: the white space of Unicode. *)
Fixpoint blank (s : list nat) : bool :=
  match s with
  | [] => true
  | 194%nat :: b :: r => ((b =? 133) || (b =? 160))%nat && blank r
  | 225%nat :: 154%nat :: 128%nat :: r => blank r
  | 226%nat :: 128%nat :: b :: r =>
      (((128 <=? b) && (b <=? 138)) || (b =? 168) || (b =? 169) || (b =? 175))%nat && blank r
  | 226%nat :: 129%nat :: 159%nat :: r => blank r
  | 227%nat :: 128%nat :: 128%nat :: r => blank r
  | b :: r => (((9 <=? b) && (b <=? 13)) || (b =? 32))%nat && blank r
  end.
Definition non_blank (s : option string) : option string :=
  s ≫= λ t, if blank (Ascii.nat_of_ascii <$> String.list_ascii_of_string t) then None else Some t.

(** [gate_log_object_id]. *)
Definition gate_log_object_id (id digest : string) : string :=
  let cs := String.list_ascii_of_string id in
  "obj_" +:+ String.string_of_list_ascii (default cs (strip_prefix (String.list_ascii_of_string "gjb_") cs)) +:+
  "_" +:+ digest.

(** [insert_gate_log]: whose evidence may be stored for this row. *)
Definition other_host (host : option string) (j : GateJob) : bool :=
  match host, j_host_id j with Some x, Some y => negb (bool_decide (x = y)) | _, _ => false end.
Definition log_refused (generation : Z) (session : option Z) (merge host : option string) (r : GateRow) : bool :=
  let j := row_job r in
  let merge := non_blank merge in
  negb (bool_decide (j_attempts j = generation)) ||
  match j_state j with
  | Landing =>
      negb (bool_decide (dispatch_session r = Some (match session with Some s => as_i64 s | None => -1 end))) ||
      other_host host j || bool_decide (j_merge_sha j = None) || bool_decide (merge = None) ||
      negb (bool_decide (j_merge_sha j = merge))
  | Landed | Failed =>
      bool_decide (j_merge_sha j ≠ None) &&
      (other_host host j || bool_decide (merge = None) || negb (bool_decide (j_merge_sha j = merge)))
  | _ => false
  end.
Definition insert_gate_log (id bytes digest : string) (generation : Z) (session : option Z)
    (merge host : option string) (h : Hub) : Hub * option string :=
  if over bytes then (h, None)
  else if match h_jobs h !! id with Some r => log_refused generation session merge host r | None => false end
  then (h, None)
  else
    let object := gate_log_object_id id digest in
    match h_objects h !! object with
    | Some d => if bool_decide (d = digest) then (h, Some object) else (h, None)
    | None => (mkHub (h_jobs h) (<[object := digest]> (h_objects h)) (h_boot_epoch h), Some object)
    end.
(** [persist_run_log]; a failed insert leaves nothing. *)
Definition persist_run_log (id : string) (l : GateRunLog) (generation : Z) (session : option Z)
    (merge host : option string) (healthy : bool) (h : Hub) : Hub * option (string * string) :=
  match persisted_run_log_bytes encode l with
  | Err _ => (h, None)
  | Ok (bytes, _) =>
      if healthy then
        let digest := sha256_hex bytes in
        let '(h, object) := insert_gate_log id bytes digest generation session merge host h in
        (h, (λ o, (o, digest)) <$> object)
      else (h, None)
  end.

(** ** The verdict of a run: [apply_result] *)

(** What the handler read before its writer runs. *)
Record Captured : Type := mkCaptured {
  cap_existing : GateJob;
  cap_grant_session : option Z;
  cap_source : option Z;
  cap_object : option string;
  cap_digest : option string;
  cap_home_land : bool;
}.
(** The checks on the row it read; [current] says that the granted session is
    still the host's live one. *)
Definition verdict_admitted (c : Captured) (current : bool) (r : GateRunResult) : bool :=
  let j := cap_existing c in
  let landing := bool_decide (j_state j = Landing) in
  bool_decide (gr_generation r = j_attempts j) && evidence_resolvable_state (j_state j) &&
  (negb landing ||
   (bool_decide (j_landing_session_epoch j ≠ None) && bool_decide (cap_source c ≠ None) &&
    bool_decide (cap_source c = cap_grant_session c) && (current || bool_decide (j_host_id j = None)) &&
    negb (bool_decide (gr_status r = "uncertain")))).

Definition merge_steps (new old : list GateStep) : list GateStep := foldl (λ l s, put_step s l) old new.
Definition take_shas (r : GateRunResult) (j : GateJob) : GateJob :=
  set_current_main_sha (gr_current_main_sha r) (set_merge_ref (opt_or (gr_merge_ref r) (j_merge_ref j))
    (set_merge_sha (opt_or (gr_merge_sha r) (j_merge_sha j)) (set_head_sha (opt_or (gr_head_sha r) (j_head_sha j))
    (set_base_sha (opt_or (gr_base_sha r) (j_base_sha j)) j)))).
Definition take_steps (r : GateRunResult) (j : GateJob) : GateJob :=
  set_steps (merge_steps (gr_steps r) (j_steps j)) j.
Definition take_object (c : Captured) (j : GateJob) : GateJob :=
  match cap_object c with Some o => set_log_object_id (Some o) j | None => j end.

(** [evidence_is_own]: this verdict's log is the one the row refers to. *)
Definition evidence_is_own (objects : gmap string string) (c : Captured) (r : GateRunResult)
    (row_object : option string) : bool :=
  match gr_run_log r with
  | None => true
  | Some l =>
      let own := default (supplied_digest l) (cap_digest c) in
      match cap_object c with
      | Some o => bool_decide (objects !! o = Some own)
      | None => bool_decide ((row_object ≫= (objects !!.)) = Some own)
      end
  end.
(** [record_evidence_deferral]. *)
Definition record_evidence_deferral (r : GateRunResult) (now : Z) (j : GateJob) : GateJob :=
  match gr_run_log r with
  | None => j
  | Some l =>
      let d := supplied_digest l in
      let fresh := mkUncertain (gr_generation r) (j_landing_session_epoch j) (j_merge_sha j) (gr_status r) d 1 now now in
      set_evidence_uncertain
        (Some match j_evidence_uncertain j with
              | Some u =>
                  if bool_decide (eu_generation u = gr_generation r) && bool_decide (eu_supplied_digest u = d)
                  then mkUncertain (eu_generation u) (eu_epoch u) (eu_merge_sha u) (eu_status u)
                         (eu_supplied_digest u) (Z.min (eu_deliveries_deferred u + 1) u32_max) (eu_first_at u) now
                  else fresh
              | None => fresh
              end) j
  end.
(** Settle when the evidence is the verdict's own, else park the row. *)
Definition settle_or_defer (objects : gmap string string) (c : Captured) (r : GateRunResult) (now : Z)
    (settle : GateJob → GateJob) (j : GateJob) : option GateJob :=
  Some (if evidence_is_own objects c r (j_log_object_id j) then settle (set_evidence_uncertain None j)
        else record_evidence_deferral r now j).

(** The writer on a row that is Landing. *)
Definition landing_requeue (r : GateRunResult) (j : GateJob) : GateJob :=
  set_log_object_id None (set_reason None (set_failed_step None (set_merge_sha None (set_merge_ref None
    (set_current_main_sha (gr_current_main_sha r) (set_finished_at None (set_landing_session_epoch None
    (set_lane_id None (set_host_id None (set_started_at None (set_state Queued
    (set_evidence_uncertain None j)))))))))))).
Definition non_empty (s : option string) : option string :=
  s ≫= λ t, if bool_decide (t = "") then None else Some t.
(** An accepted report: landed, or main had moved. *)
Definition landing_outcome (objects : gmap string string) (c : Captured) (r : GateRunResult) (now : Z)
    (j : GateJob) : option GateJob :=
  let j := set_finished_at (Some now) (take_object c (set_reason (gr_reason r)
             (set_failed_step (gr_failed_step r) (take_shas r (take_steps r j))))) in
  if bool_decide (gr_status r = "landed") then
    settle_or_defer objects c r now (λ j, set_error None (set_state Landed j)) j
  else if j_attempts j <? MAX_LAND_ATTEMPTS then Some (landing_requeue r j)
  else
    settle_or_defer objects c r now (λ j,
      let error := default ("land ended after grant: " +:+ gr_status r) (gr_error r) in
      set_error (Some error) (set_reason (Some (first_line error)) (set_state Failed j))) j.
Definition landing_verdict (objects : gmap string string) (c : Captured) (r : GateRunResult) (now : Z)
    (j : GateJob) : option GateJob :=
  if bool_decide (cap_source c = None) || negb (bool_decide (cap_source c = cap_grant_session c)) then None
  else if negb (bool_decide (j_host_id j = Some (default "" (j_host_id (cap_existing c))))) then None
  else if negb (bool_decide (gr_status r = "uncertain")) &&
          match j_merge_sha j with
          | Some m => negb (bool_decide (non_empty (gr_merge_sha r) = Some m))
          | None => false
          end then None
  else if bool_decide (gr_status r = "uncertain") then None
  else if negb (bool_decide (gr_status r = "landed")) && negb (bool_decide (gr_status r = "base-moved")) then None
  else landing_outcome objects c r now j.

(** The writer on a row that is Canceling. *)
Definition canceling_verdict (objects : gmap string string) (c : Captured) (r : GateRunResult) (now : Z)
    (j : GateJob) : option GateJob :=
  if j_home_land_in_flight j then None
  else
    let j := set_finished_at (Some now) (take_object c (take_shas r (take_steps r j))) in
    if bool_decide (gr_status r = "landed") then
      settle_or_defer objects c r now (λ j,
        set_reason (Some "cancel arrived after the lane had pushed main")
          (set_error None (set_state Landed j))) j
    else
      settle_or_defer objects c r now (λ j,
        let j := set_state Canceled j in
        if bool_decide (gr_status r = "passed") then
          set_reason (Some "canceled; verified but not landed")
            (set_error (Some (default "canceled after the run verified but was not landed" (gr_error r))) j)
        else
          let ended := "canceled; run ended " +:+ gr_status r in
          set_reason (opt_or (gr_reason r) (Some ended)) (set_error (opt_or (gr_error r) (Some ended))
            (set_failed_step (opt_or (gr_failed_step r) (j_failed_step j)) j))) j.

(** The writer on a row that is Running. *)
Definition running_verdict (objects : gmap string string) (c : Captured) (r : GateRunResult) (now : Z)
    (j : GateJob) : option GateJob :=
  if bool_decide (gr_status r = "canceled") then
    if evidence_is_own objects c r (j_log_object_id j) then
      Some (set_reason (opt_or (gr_reason r) (Some "canceled")) (set_error (gr_error r)
        (set_finished_at (Some now) (set_state Canceled (set_failed_step (gr_failed_step r)
        (set_evidence_uncertain None (take_object c j)))))))
    else Some (record_evidence_deferral r now j)
  else
    let j := take_steps r j in
    if cap_home_land c && bool_decide (j_merge_ref j ≠ None) && bool_decide (j_merge_ref j = gr_merge_ref r)
    then None
    else
      let j := take_object c (set_reason (gr_reason r) (set_failed_step (gr_failed_step r) (take_shas r j))) in
      if cap_home_land c then Some j
      else if bool_decide (gr_status r = "passed") && bool_decide (j_mode j = Verify) then
        settle_or_defer objects c r now (λ j, set_finished_at (Some now) (set_state Passed j)) j
      else if bool_decide (gr_status r = "landed") then
        settle_or_defer objects c r now (λ j, set_error None (set_finished_at (Some now) (set_state Landed j))) j
      else if bool_decide (gr_status r = "base-moved") && bool_decide (j_mode j = Land) &&
              (j_attempts j <? MAX_LAND_ATTEMPTS) then
        Some (set_log_object_id None (set_reason None (set_failed_step None (set_lane_id None
          (set_host_id None (set_started_at None (set_state Queued (set_evidence_uncertain None j))))))))
      else
        settle_or_defer objects c r now (λ j,
          let error := default ("gate ended: " +:+ gr_status r) (gr_error r) in
          let j := set_error (Some error) (set_finished_at (Some now) (set_state Failed j)) in
          match j_reason j with Some _ => j | None => set_reason (Some (first_line error)) j end) j.

Definition verdict_writer (objects : gmap string string) (c : Captured) (r : GateRunResult) (now : Z)
    (j : GateJob) : option GateJob :=
  let r := bound_gate_result_row_fields r in
  if negb (evidence_resolvable_state (j_state j)) then None
  else if negb (bool_decide (j_attempts j = gr_generation r)) then None
  else
    match j_state j with
    | Landing => landing_verdict objects c r now j
    | Canceling => canceling_verdict objects c r now j
    | _ => running_verdict objects c r now j
    end.
End evidence.

(** ** Projects and lanes *)

(** [enum GatePushFrom]; what the queue reads of [ProjectGateLane] and of
    [Project]. *)
Inductive GatePushFrom : Type := FromLane | FromHome.
#[export] Instance GatePushFrom_eq_dec : EqDecision GatePushFrom.
Proof. solve_decision. Defined.
Record GateLane : Type := mkLane {
  lane_id : string;
  lane_host : string;
  lane_push_from : option GatePushFrom;
  lane_fetch_remote : option string;
}.
Record Project : Type := mkProject {
  p_lanes : list GateLane;
  p_repo_remote : option string;
  p_home_host : option string;
}.
(** [resolve_push_from]. *)
Definition resolve_push_from (lane : GateLane) (p : Project) : GatePushFrom :=
  match lane_push_from lane with
  | Some x => x
  | None =>
      if bool_decide (p_repo_remote p = None) then FromLane
      else if bool_decide (lane_fetch_remote lane ≠ None) then FromHome else FromLane
  end.
(** [home_land_plan]: whether everything a push from the home host needs is
    there. *)
Definition home_land_plan (p : option Project) (j : GateJob) (r : GateRunResult) : bool :=
  match p with
  | None => false
  | Some p =>
      match List.find (λ l, bool_decide (Some (lane_id l) = j_lane_id j)) (p_lanes p), p_home_host p with
      | Some lane, Some home =>
          bool_decide (resolve_push_from lane p = FromHome) &&
          bool_decide (opt_or (gr_merge_ref r) (j_merge_ref j) ≠ None) &&
          bool_decide (opt_or (gr_merge_sha r) (j_merge_sha j) ≠ None) &&
          bool_decide (opt_or (gr_base_sha r) (j_base_sha j) ≠ None) &&
          bool_decide (lane_fetch_remote lane ≠ None) &&
          existsb (λ l, bool_decide (lane_host l = home)) (p_lanes p)
      | _, _ => false
      end
  end.

(** [apply_result] run without interruption: the reads, the evidence, the
    writer.  [current] and [healthy] are what the node registry and the disk
    answer. *)
Definition apply_result (encode : GateRunLog → result string LogError) (sha256_hex : string → string)
    (projects : gmap string Project) (id : string) (r : GateRunResult) (source : option Z)
    (current healthy : bool) (now : Z) (h : Hub) : Hub * option GateJob :=
  match h_jobs h !! id with
  | None => (h, None)
  | Some row =>
      let j := row_job row in
      let grant := dispatch_session row ≫= λ s, if s <? 0 then None else Some s in
      if negb (verdict_admitted (mkCaptured j grant source None None false) current r) then (h, None)
      else
        let '(h, stored) :=
          match gr_run_log r with
          | Some l => persist_run_log encode sha256_hex id l (gr_generation r) source (gr_merge_sha r)
                        (j_host_id j) healthy h
          | None => (h, None)
          end in
        let home := negb (bool_decide (j_state j = Canceling)) && bool_decide (j_mode j = Land) &&
                    bool_decide (gr_status r = "passed") && home_land_plan (projects !! j_project j) j r in
        let c := mkCaptured j grant source (fst <$> stored) (snd <$> stored) home in
        mutate_gate_job id (verdict_writer encode sha256_hex (h_objects h) c r now) h
  end.

(** ** The scheduler *)

(** What [schedule] counts as busy. *)
Definition lane_key (project lane : string) : string := project +:+ ":" +:+ lane.
Definition holds_slot (j : GateJob) : bool :=
  bool_decide (j_state j = Running) || bool_decide (j_state j = Landing) ||
  (bool_decide (j_state j = Canceling) && bool_decide (j_evidence_uncertain j ≠ None)).
Definition busy_lanes (jobs : list (string * GateJob)) : list string :=
  omap (λ ij, if holds_slot ij.2 then lane_key (j_project ij.2) <$> j_lane_id ij.2 else None) jobs.
Definition land_active (jobs : list (string * GateJob)) : list string :=
  omap (λ ij, if holds_slot ij.2 && bool_decide (j_mode ij.2 = Land) then Some (j_project ij.2) else None) jobs.
(** [pick_lane]. *)
Definition pick_lane (lanes : list GateLane) (explicit : option string) (project : string)
    (busy : list string) (connected : string → bool) : option GateLane :=
  List.find (λ l, match explicit with Some w => bool_decide (w = lane_id l) | None => true end &&
                  negb (bool_decide (lane_key project (lane_id l) ∈ busy)) && connected (lane_host l)) lanes.

(** [list_gate_jobs]: by the time of enqueue, then by row id. *)
Definition listed_before (a b : string * GateRow) : Prop :=
  j_queued_at (row_job a.2) < j_queued_at (row_job b.2) ∨
  (j_queued_at (row_job a.2) = j_queued_at (row_job b.2) ∧ row_id a.2 ≤ row_id b.2).
#[export] Instance listed_before_dec : RelDecision listed_before.
Proof. intros a b. unfold listed_before. apply _. Defined.
Definition list_gate_jobs (h : Hub) : list (string * GateJob) :=
  (λ ir, (ir.1, row_job ir.2)) <$> merge_sort listed_before (map_to_list (h_jobs h)).
Definition queued_before (a b : string * GateJob) : Prop := j_queued_at a.2 ≤ j_queued_at b.2.
#[export] Instance queued_before_dec : RelDecision queued_before.
Proof. intros a b. unfold queued_before. apply _. Defined.
Definition pending_of (project : string) (jobs : list (string * GateJob)) : list (string * GateJob) :=
  merge_sort queued_before
    (filter (λ ij, j_state ij.2 = Queued ∧ j_project ij.2 = project) jobs).

(** [dispatch]: the claim, the send gate and the session it is bound to. *)
Record DispatchAnswers : Type := mkAnswers {
  da_refused : bool;
  da_authority : Authority;
  da_fenced : bool;
  da_recorded : bool;
  da_session : option Z;
  da_now : Z;
}.
Definition dispatch (a : DispatchAnswers) (id : string) (lane : GateLane) (h : Hub) : Hub :=
  let '(h, c) := claim_gate_job id (lane_id lane) (lane_host lane) (da_now a) (da_refused a) (da_authority a) h in
  match c with
  | Some (Claimed j) =>
      if da_fenced a then (mutate_gate_job id (cancel_fenced (j_attempts j) (da_now a) (da_recorded a)) h).1
      else match da_session a with Some s => set_gate_dispatch_session id s h | None => h end
  | _ => h
  end.
(** The keys of the [BTreeMap] of queued jobs. *)
Definition queued_projects (jobs : list (string * GateJob)) : list string :=
  sort_strings (remove_dups (j_project ∘ snd <$> filter (λ ij, j_state ij.2 = Queued) jobs)).
(** A pass of [schedule] under way: what it counts as taken, and the projects
    with the jobs it listed and has not come to yet. *)
Record Pass : Type := mkPass {
  pass_busy : list string;
  pass_lands : list string;
  pass_todo : list (string * list (string * GateJob));
}.
Definition begin_pass (h : Hub) : Pass :=
  let jobs := list_gate_jobs h in
  mkPass (busy_lanes jobs) (land_active jobs)
    ((λ project, (project, pending_of project jobs)) <$> queued_projects jobs).
(** One round of its loops: the project as it is read for this job, and the
    job's dispatch when a lane is free.  A job that cannot start holds back
    those behind it. *)
Definition pass_job (project : option Project) (connected : string → bool) (p : Pass)
    : Pass * option (string * GateLane) :=
  let next todo := mkPass (pass_busy p) (pass_lands p) todo in
  match pass_todo p with
  | [] => (p, None)
  | (_, []) :: rest => (next rest, None)
  | (project_id, (id, j) :: more) :: rest =>
      match project with
      | None => (next ((project_id, more) :: rest), None)
      | Some q =>
          if bool_decide (p_lanes q = []) then (next ((project_id, more) :: rest), None)
          else if bool_decide (j_mode j = Land) && bool_decide (project_id ∈ pass_lands p) then (next rest, None)
          else
            match pick_lane (p_lanes q) (j_lane_id j) project_id (pass_busy p) connected with
            | None => (next rest, None)
            | Some lane =>
                (mkPass (lane_key project_id (lane_id lane) :: pass_busy p)
                   (if bool_decide (j_mode j = Land) then project_id :: pass_lands p else pass_lands p)
                   ((project_id, more) :: rest), Some (id, lane))
            end
      end
  end.

(** ** Every step of the queue *)

(** The handlers' writers, with whatever they had read before. *)
Inductive GateOp : Type :=
| OpInsert (id project : string) (mode : GateMode) (lane : option string) (now : Z) (authorized : bool)
| OpDispatch (a : DispatchAnswers) (id : string) (lane : GateLane)
| OpSession (id : string) (session : Z)
| OpCancel (id : string) (now : Z) (authorized : bool)
| OpFinishCancel (id : string) (now : Z)
| OpCancelFenced (id : string) (generation now : Z) (recorded : bool)
| OpFailRpc (id : string) (generation now : Z) (message : string)
| OpPhase (id : string) (generation now : Z) (recorded : bool)
| OpStep (id : string) (generation : Z) (step : GateStep)
| OpPersist (id : string) (l : GateRunLog) (generation : Z) (session : option Z) (merge host : option string)
    (healthy : bool)
| OpVerdict (id : string) (c : Captured) (r : GateRunResult) (now : Z)
| OpGrant (id host : string) (generation : Z) (epoch merge : string) (session now : Z)
| OpEnded (host : string) (session now : Z)
| OpRebind (host : string) (session boot_epoch : Z)
| OpProbe (id : string) (attempts : Z) (merge : string) (session : option Z) (host : string) (landed : bool)
    (now : Z)
| OpProbed (id : string) (now : Z)
| OpUnknown (id : string) (attempts : Z) (note : string)
| OpHomeClaim (id : string)
| OpHomeDone (id : string) (landed : GateLandResult) (unknown : bool) (now : Z)
| OpThen (id output : string)
| OpDropRefs (id : string)
| OpFence (id : string) (now : Z)
| OpRestart (now : Z)
| OpResolve (id : string) (attempts : Z) (epoch merge : string) (requeue : bool) (by_ rationale : string)
    (now : Z)
| OpResolveEvidence (id : string) (attempts : Z) (epoch merge : option string) (requeue : bool)
    (by_ rationale : string) (now : Z).

Section steps.
Context (encode : GateRunLog → result string LogError) (sha256_hex : string → string).
Definition gate_step (op : GateOp) (h : Hub) : Hub :=
  match op with
  | OpInsert id project mode lane now ok => insert_gate_job id project mode lane now ok h
  | OpDispatch a id lane => dispatch a id lane h
  | OpSession id s => set_gate_dispatch_session id s h
  | OpCancel id now ok => (request_gate_job_cancel id now ok h).1
  | OpFinishCancel id now => (mutate_gate_job id (finish_cancel now) h).1
  | OpCancelFenced id g now ok => (mutate_gate_job id (cancel_fenced g now ok) h).1
  | OpFailRpc id g now m => (mutate_gate_job id (fail_rpc g now m) h).1
  | OpPhase id g now ok => (mutate_gate_job id (on_phase g now ok) h).1
  | OpStep id g s => (mutate_gate_job id (on_step g s) h).1
  | OpPersist id l g s m host ok => (persist_run_log encode sha256_hex id l g s m host ok h).1
  | OpVerdict id c r now => (mutate_gate_job id (verdict_writer encode sha256_hex (h_objects h) c r now) h).1
  | OpGrant id host g e m s now => (gate_land_grant id host g e m s now h).1
  | OpEnded host s now => recover_ended_session host s now h
  | OpRebind host s b => rebind_same_boot_landing_sessions host s b h
  | OpProbe id a m s host landed now => (settle_landing_probe id a m s host landed now h).1
  | OpProbed id now => mark_landing_probed id now h
  | OpUnknown id a note => (mutate_gate_job id (mark_unknown a note) h).1
  | OpHomeClaim id => (mutate_gate_job id home_claim h).1
  | OpHomeDone id landed unknown now => (mutate_gate_job id (home_done landed unknown now) h).1
  | OpThen id out => (mutate_gate_job id (then_done out) h).1
  | OpDropRefs id => (mutate_gate_job id drop_job_refs h).1
  | OpFence id now => (mutate_gate_job id (fence_job now) h).1
  | OpRestart now => reconcile now h
  | OpResolve id a e m q by_ why now => (mutate_gate_job id (resolve_landing a e m q by_ why now) h).1
  | OpResolveEvidence id a e m q by_ why now => (mutate_gate_job id (resolve_evidence a e m q by_ why now) h).1
  end.
Definition gate_run (ops : list GateOp) (h : Hub) : Hub := foldl (λ h op, gate_step op h) h ops.

(** The queue with its scheduling passes: [schedule_once] spawns one at many
    places, so that several may be under way. *)
Record Scheduler : Type := mkScheduler { sc_hub : Hub; sc_passes : list Pass }.
Inductive SchedOp : Type :=
| SQueue (op : GateOp)
| SBegin
| SAdvance (n : nat) (project : option Project) (connected : string → bool) (a : DispatchAnswers).
Definition unfinished (p : Pass) : list Pass := if bool_decide (pass_todo p = []) then [] else [p].
Definition sched_step (o : SchedOp) (s : Scheduler) : Scheduler :=
  match o with
  | SQueue op => mkScheduler (gate_step op (sc_hub s)) (sc_passes s)
  | SBegin => mkScheduler (sc_hub s) (sc_passes s ++ unfinished (begin_pass (sc_hub s)))
  | SAdvance n project connected a =>
      match sc_passes s !! n with
      | None => s
      | Some p =>
          let '(p, start) := pass_job project connected p in
          mkScheduler (match start with Some (id, lane) => dispatch a id lane (sc_hub s) | None => sc_hub s end)
            (take n (sc_passes s) ++ unfinished p ++ drop (S n) (sc_passes s))
      end
  end.
Definition sched_run (ops : list SchedOp) (s : Scheduler) : Scheduler := foldl (λ s o, sched_step o s) s ops.
End steps.
