(* ===== verification/GateSafety.v ===== *)
(** * What the gate queue guarantees

    Every step of [GateQueue] changes a row by the elementary changes of
    [row_step]; the theorems about single jobs follow by induction over them,
    for every interleaving of the handlers. *)
From stdpp Require Import base list gmap strings numbers pretty sorting relations.
From S2P Require Import Prelude GateLog GateQueue.
Local Open Scope Z_scope.

(** Case analysis on the outermost guard of a computation. *)
Ltac guard_case H :=
  lazymatch goal with |- (if ?b then _ else _) = _ → _ => destruct b eqn:H end.

(** ** Elementary changes of a row *)

Section rows.
Context (encode : GateRunLog → result string LogError) (sha256_hex : string → string).

(** Attempts, project and mode are the claim's and the enqueue's alone, and only
    a claim lets a job hold a lane: what holds one now held the same before.  A
    lane is occupied by the jobs under way.  The scheduler's [holds_slot] also
    counts a job being cancelled whose evidence is uncertain, which no claim
    made so. *)
Definition occupies (j : GateJob) : bool :=
  bool_decide (j_state j = Running) || bool_decide (j_state j = Landing).
Definition keeps (j j' : GateJob) : Prop :=
  (j_attempts j' = j_attempts j ∧ j_project j' = j_project j ∧ j_mode j' = j_mode j) ∧
  (occupies j' = true → occupies j = true ∧ j_lane_id j' = j_lane_id j).
Lemma keeps_refl j : keeps j j.
Proof. by split. Qed.
Lemma keeps_trans j1 j2 j3 : keeps j1 j2 → keeps j2 j3 → keeps j1 j3.
Proof. unfold keeps. intros [H1 H2] [H3 H4]. split; [naive_solver congruence|]. naive_solver congruence. Qed.
Lemma keeps_take_object c j : keeps j (take_object c j).
Proof. unfold take_object. by destruct (cap_object c). Qed.
Lemma keeps_defer r now j : keeps j (record_evidence_deferral encode sha256_hex r now j).
Proof. unfold record_evidence_deferral. by destruct (gr_run_log r). Qed.
Lemma keeps_settle objects c r now settle j j' :
  (∀ x, keeps x (settle x)) → settle_or_defer encode sha256_hex objects c r now settle j = Some j' →
  keeps j j'.
Proof.
  intros Hs. unfold settle_or_defer. intros [= <-]. case_match; [|apply keeps_defer].
  eapply keeps_trans; [|apply Hs]. by split.
Qed.
Lemma keeps_take r j : keeps j (take_shas r (take_steps r j)).
Proof. done. Qed.
Lemma keeps_report c r j :
  keeps j (take_object c (set_reason (gr_reason r) (set_failed_step (gr_failed_step r)
    (take_shas r (take_steps r j))))).
Proof.
  eapply keeps_trans; [apply (keeps_take r)|]. generalize (take_shas r (take_steps r j)). intros j1.
  eapply keeps_trans; [|apply keeps_take_object]. done.
Qed.
Lemma keeps_finished now j : keeps j (set_finished_at now j).
Proof. done. Qed.
Lemma keeps_evidence c r now j :
  keeps j (set_finished_at now (take_object c (take_shas r (take_steps r j)))).
Proof.
  eapply keeps_trans; [apply (keeps_take r)|]. eapply keeps_trans; [apply (keeps_take_object c)|].
  by split.
Qed.
(** What a report on a landing row must carry to change it. *)
Definition landing_report_binds (c : Captured) (r : GateRunResult) (j : GateJob) : Prop :=
  cap_source c ≠ None ∧ cap_source c = cap_grant_session c ∧
  j_host_id j = Some (default "" (j_host_id (cap_existing c))) ∧
  (∀ m, j_merge_sha j = Some m → gr_merge_sha r = Some m) ∧
  (gr_status r = "landed" ∨ gr_status r = "base-moved").
Lemma non_empty_Some s m : non_empty s = Some m → s = Some m.
Proof. destruct s as [t|]; [|done]. unfold non_empty. simpl. by case_bool_decide. Qed.
Lemma landing_verdict_inv objects c r now j j' :
  landing_verdict encode sha256_hex objects c r now j = Some j' →
  landing_report_binds c r j ∧ landing_outcome encode sha256_hex objects c r now j = Some j'.
Proof.
  unfold landing_verdict.
  guard_case Hsrc; [done|]. guard_case Hhost; [done|]. guard_case Hm; [done|].
  guard_case Hu; [done|]. guard_case Hst; [done|]. intros Ho. split; [|done].
  apply orb_false_iff in Hsrc as [H1%bool_decide_eq_false H2%negb_false_iff%bool_decide_eq_true].
  apply negb_false_iff, bool_decide_eq_true in Hhost. split_and!; [done..| |].
  - intros m Hj. rewrite Hj in Hm. by apply negb_false_iff, bool_decide_eq_true, non_empty_Some in Hm.
  - apply andb_false_iff in Hst as [Hst|Hst]; apply negb_false_iff, bool_decide_eq_true in Hst; auto.
Qed.
Lemma keeps_landing_verdict objects c r now j j' :
  landing_verdict encode sha256_hex objects c r now j = Some j' → keeps j j'.
Proof.
  intros [_ Ho]%landing_verdict_inv. revert Ho. unfold landing_outcome. cbn zeta.
  set (j1 := set_finished_at _ _).
  assert (keeps j j1) as Hk1.
  { unfold j1. eapply keeps_trans; [apply (keeps_report c r)|apply keeps_finished]. }
  clearbody j1.
  intros Ho. eapply keeps_trans; [exact Hk1|]. revert Ho.
  case_match; [|case_match; [by intros [= <-]|]]; apply keeps_settle; done.
Qed.
Lemma keeps_canceling_verdict objects c r now j j' :
  canceling_verdict encode sha256_hex objects c r now j = Some j' → keeps j j'.
Proof.
  unfold canceling_verdict. cbn zeta. case_match; [done|].
  case_match; intros Hs; (eapply keeps_trans; [apply (keeps_evidence c r (Some now))|]);
    (eapply keeps_settle; [|exact Hs]); [done|]. intros x. by case_match.
Qed.
Lemma keeps_running_verdict objects c r now j j' :
  running_verdict encode sha256_hex objects c r now j = Some j' → keeps j j'.
Proof.
  unfold running_verdict. cbn zeta. guard_case Hc.
  { guard_case He; intros [= <-]; [|apply keeps_defer]. eapply keeps_trans; [apply (keeps_take_object c)|]. done. }
  guard_case Hdup; [done|]. set (j1 := take_object c _).
  assert (keeps j j1) as Hk1.
  { apply (keeps_report c r). }
  clearbody j1.
  intros Ho. eapply keeps_trans; [exact Hk1|]. revert Ho. guard_case Hh; [by intros [= <-]|].
  guard_case Hp; [by apply keeps_settle|]. guard_case Hl; [by apply keeps_settle|].
  guard_case Hb; [by intros [= <-]|]. apply keeps_settle. intros x. by case_match.
Qed.
Lemma keeps_verdict objects c r now j j' :
  verdict_writer encode sha256_hex objects c r now j = Some j' → keeps j j'.
Proof.
  unfold verdict_writer. cbn zeta. do 2 (case_match; [done|]).
  destruct (j_state j); eauto using keeps_landing_verdict, keeps_canceling_verdict, keeps_running_verdict.
Qed.

(** The writers that go through [mutate_gate_job]. *)
Inductive writer : (GateJob → option GateJob) → Prop :=
| w_finish_cancel now : writer (finish_cancel now)
| w_cancel_fenced g now ok : writer (cancel_fenced g now ok)
| w_fail_rpc g now m : writer (fail_rpc g now m)
| w_on_phase g now ok : writer (on_phase g now ok)
| w_on_step g s : writer (on_step g s)
| w_verdict objects c r now : writer (verdict_writer encode sha256_hex objects c r now)
| w_mark_unknown a note : writer (mark_unknown a note)
| w_home_claim : writer home_claim
| w_home_done landed unknown now : writer (home_done landed unknown now)
| w_then_done out : writer (then_done out)
| w_drop_refs : writer drop_job_refs
| w_fence now : writer (fence_job now)
| w_resolve a e m q by_ why now : writer (resolve_landing a e m q by_ why now)
| w_resolve_evidence a e m q by_ why now : writer (resolve_evidence a e m q by_ why now).

(** Changes of one row; claims only when [claims] allows them. *)
Context (claims : bool).
Inductive row_step : GateRow → GateRow → Prop :=
| rs_claim lane host now refused auth r j :
    claims = true → claim_job lane host now refused auth (row_job r) = Ok (Claimed j) → row_step r (with_job j r)
| rs_fenced lane host now refused auth r j :
    claim_job lane host now refused auth (row_job r) = Ok (FencedCanceled j) → row_step r (with_job j r)
| rs_session s r : row_step r (set_session s r)
| rs_cancel now r j :
    cancel_job now (row_job r) = Some (j, QueuedCanceled) ∨
    cancel_job now (row_job r) = Some (j, CancelRequested) → row_step r (with_job j r)
| rs_mutate f r j : writer f → f (row_job r) = Some j → row_step r (with_job j r)
| rs_grant host g session epoch merge now r :
    row_state r = Running → grant_tuple host g session r = true → row_step r (land_row epoch merge now r)
| rs_recover host session now r : row_step r (recover_row host session now r)
| rs_probe attempts merge session host landed now r :
    probe_matches attempts merge session host r = true →
    row_step r (mkRow (if landed : bool then probe_landed now (row_job r) else probe_absent now (row_job r))
                  None None (landing_probed_at r) (row_id r))
| rs_probed at_ r : row_step r (mkRow (row_job r) (dispatch_session r) (landing_at r) at_ (row_id r))
| rs_restart now r : row_step r (restart_row now r).

Lemma row_step_same r : row_step r r.
Proof. pose proof (rs_session (dispatch_session r) r) as H. by destruct r. Qed.

(** A table of jobs reached from another: rows change by steps, and new ones
    are fresh. *)
Definition fresh_row (r : GateRow) : Prop :=
  row_state r = Queued ∧ row_attempts r = 0 ∧ j_evidence_uncertain (row_job r) = None.
Definition rows_step (h h' : Hub) : Prop := ∀ id,
  match h_jobs h !! id, h_jobs h' !! id with
  | Some r, Some r' => rtc row_step r r'
  | Some _, None => False
  | None, Some r' => ∃ r, fresh_row r ∧ rtc row_step r r'
  | None, None => True
  end.

Lemma rows_refl h : rows_step h h.
Proof. intros id. destruct (h_jobs h !! id); [done|done]. Qed.
Lemma rows_same h h' : h_jobs h' = h_jobs h → rows_step h h'.
Proof. intros Hj id. rewrite Hj. by destruct (h_jobs h !! id). Qed.
Lemma rows_trans h1 h2 h3 : rows_step h1 h2 → rows_step h2 h3 → rows_step h1 h3.
Proof.
  intros H1 H2 id. specialize (H1 id). specialize (H2 id).
  destruct (h_jobs h1 !! id) as [r1|], (h_jobs h2 !! id) as [r2|], (h_jobs h3 !! id) as [r3|]; try done.
  - by etrans.
  - destruct H1 as (r & Hr & Hs). exists r. split; [done|by etrans].
Qed.
Lemma rows_put h id r r' :
  h_jobs h !! id = Some r → row_step r r' → rows_step h (put_row id r' h).
Proof.
  intros Hr Hs id'. simpl. destruct (decide (id = id')) as [<-|Hne].
  - rewrite Hr, lookup_insert_eq. by apply rtc_once.
  - rewrite lookup_insert_ne by done. by destruct (h_jobs h !! id').
Qed.
Lemma rows_mutate h id f : writer f → rows_step h (mutate_gate_job id f h).1.
Proof.
  intros Hf. unfold mutate_gate_job. destruct (h_jobs h !! id) as [r|] eqn:Hr; [|apply rows_refl].
  destruct (f (row_job r)) as [j|] eqn:Hj; [|apply rows_refl]. eapply rows_put; [done|].
  by eapply rs_mutate.
Qed.
Lemma rows_fmap h (f : GateRow → GateRow) :
  (∀ r, row_step r (f r)) → rows_step h (with_jobs (f <$> h_jobs h) h).
Proof.
  intros Hf id. simpl. rewrite lookup_fmap. destruct (h_jobs h !! id) as [r|]; simpl; [|done].
  by apply rtc_once.
Qed.

Lemma rows_claim id lane host now refused auth h :
  claims = true → rows_step h (claim_gate_job id lane host now refused auth h).1.
Proof.
  intros Hcl. unfold claim_gate_job. destruct (h_jobs h !! id) as [r|] eqn:Hr; [|apply rows_refl].
  destruct (claim_job _ _ _ _ _ _) as [[j|j|]|] eqn:Hc; try apply rows_refl;
    (eapply rows_put; [done|]); [by eapply rs_claim|by eapply rs_fenced].
Qed.
Lemma rows_set_session id s h : rows_step h (set_gate_dispatch_session id s h).
Proof.
  unfold set_gate_dispatch_session. destruct (h_jobs h !! id) as [r|] eqn:Hr; [|apply rows_refl].
  eapply rows_put; [done|]. apply rs_session.
Qed.
Lemma rows_dispatch a id lane h : claims = true → rows_step h (dispatch a id lane h).
Proof.
  intros Hcl. unfold dispatch. pose proof (rows_claim id (lane_id lane) (lane_host lane) (da_now a) (da_refused a)
    (da_authority a) h Hcl) as Hc.
  destruct (claim_gate_job _ _ _ _ _ _ h) as [h1 [[j| |]|]]; simpl in Hc; try done.
  destruct (da_fenced a).
  - eapply rows_trans; [exact Hc|]. apply rows_mutate. constructor.
  - destruct (da_session a); [|done]. eapply rows_trans; [exact Hc|]. apply rows_set_session.
Qed.
Lemma rows_foldl {A} (f : Hub → A → Hub) l h : (∀ h x, rows_step h (f h x)) → rows_step h (foldl f h l).
Proof.
  intros Hf. revert h. induction l as [|x l IH]; intros h; [apply rows_refl|].
  eapply rows_trans; [apply Hf|apply IH].
Qed.
Lemma rows_insert id project mode lane now ok h :
  rows_step h (insert_gate_job id project mode lane now ok h).
Proof.
  unfold insert_gate_job. destruct (ok && _) eqn:Hb; [|apply rows_refl].
  apply andb_true_iff in Hb as [_ Hn%bool_decide_eq_true]. intros id'. simpl.
  destruct (decide (id = id')) as [<-|Hne].
  - rewrite Hn, lookup_insert_eq. eexists. split; [|done]. done.
  - rewrite lookup_insert_ne by done. by destruct (h_jobs h !! id').
Qed.
Lemma rows_persist id l g s m host ok h : rows_step h (persist_run_log encode sha256_hex id l g s m host ok h).1.
Proof.
  apply rows_same. unfold persist_run_log, insert_gate_log.
  destruct (persisted_run_log_bytes encode l) as [[bytes t]|]; [|done]. destruct ok; [|done].
  repeat case_match; simplify_eq/=; done.
Qed.

Definition is_dispatch (op : GateOp) : bool := match op with OpDispatch _ _ _ => true | _ => false end.
Lemma gate_step_rows op h :
  (is_dispatch op = true → claims = true) → rows_step h (gate_step encode sha256_hex op h).
Proof.
  intros Hcl. destruct op; cbn [gate_step]; try (apply rows_mutate; constructor).
  - apply rows_insert.
  - by apply rows_dispatch, Hcl.
  - apply rows_set_session.
  - unfold request_gate_job_cancel. destruct (negb authorized); [apply rows_refl|].
    destruct (h_jobs h !! id) as [r|] eqn:Hr; [|apply rows_refl].
    destruct (cancel_job now (row_job r)) as [[j o]|] eqn:Hc; [|apply rows_refl].
    destruct o; try apply rows_refl; (eapply rows_put; [done|]); eapply rs_cancel; eauto.
  - apply rows_persist.
  - unfold gate_land_grant. destruct (_ <? session); [apply rows_refl|].
    destruct (h_jobs h !! id) as [r|] eqn:Hr; [|apply rows_refl].
    case_bool_decide; [apply rows_refl|]. destruct (_ && _) eqn:Hb; [|apply rows_refl].
    apply andb_true_iff in Hb as [Hs%bool_decide_eq_true Ht]. eapply rows_put; [done|]. by eapply rs_grant.
  - unfold recover_ended_session. destruct (session =? 0); [apply rows_refl|].
    apply rows_fmap. intros r. apply rs_recover.
  - apply rows_fmap. intros r. unfold rebind_row. destruct (dispatch_session r) eqn:Hd.
    + destruct (_ && _); [apply rs_session|apply row_step_same].
    + apply row_step_same.
  - unfold settle_landing_probe. destruct (h_jobs h !! id) as [r|] eqn:Hr; [|apply rows_refl].
    destruct (probe_matches _ _ _ _ r) eqn:Hm; [|apply rows_refl]. eapply rows_put; [done|].
    by eapply rs_probe.
  - unfold mark_landing_probed. destruct (h_jobs h !! id) as [r|] eqn:Hr; [|apply rows_refl].
    case_bool_decide; [|apply rows_refl]. eapply rows_put; [done|]. apply rs_probed.
  - apply rows_fmap. intros r. apply rs_restart.
Qed.
Lemma gate_run_rows ops h : claims = true → rows_step h (gate_run encode sha256_hex ops h).
Proof. intros Hcl. apply rows_foldl. intros h' op. by apply gate_step_rows. Qed.
Lemma gate_run_row ops h id r :
  claims = true → h_jobs h !! id = Some r →
  ∃ r', h_jobs (gate_run encode sha256_hex ops h) !! id = Some r' ∧ rtc row_step r r'.
Proof.
  intros Hcl Hr. pose proof (gate_run_rows ops h Hcl id) as Hs. rewrite Hr in Hs.
  destruct (h_jobs (gate_run encode sha256_hex ops h) !! id) as [r'|]; [by exists r'|done].
Qed.

(** ** Finished jobs *)

(** The document of a job without the output of its post-land command and the
    name of the ref its lane keeps. *)
Definition settled_job (j : GateJob) : GateJob := set_merge_ref None (set_then_output None j).
Definition settled_doc (r : GateRow) : GateJob := settled_job (row_job r).
Lemma writer_terminal f j j' :
  writer f → is_terminal (j_state j) = true → f j = Some j' →
  settled_job j' = settled_job j.
Proof.
  intros Hf Ht Hj. destruct Hf; revert Hj.
  - unfold finish_cancel. by destruct (j_state j).
  - unfold cancel_fenced. by destruct (j_state j).
  - unfold fail_rpc. by destruct (j_state j).
  - unfold on_phase. by destruct (j_state j).
  - unfold on_step. by destruct (j_state j).
  - unfold verdict_writer. by destruct (j_state j).
  - unfold mark_unknown. by destruct (j_state j).
  - unfold home_claim. by destruct (j_state j).
  - unfold home_done. by destruct (j_state j).
  - unfold then_done. by intros [= <-].
  - unfold drop_job_refs. by intros [= <-].
  - unfold fence_job. by destruct (j_state j).
  - unfold resolve_landing. by destruct (j_state j).
  - unfold resolve_evidence, evidence_resolution_mismatch.
    destruct (j_evidence_uncertain j); [|done]. by destruct (j_state j).
Qed.
Lemma row_step_terminal r r' :
  row_step r r' → is_terminal (row_state r) = true → settled_doc r' = settled_doc r.
Proof.
  unfold row_state. intros Hs Ht. destruct Hs; try done.
  - revert H0. unfold claim_job. by destruct (j_state (row_job r)).
  - revert H. unfold claim_job. by destruct (j_state (row_job r)).
  - revert H. unfold cancel_job. destruct (j_state (row_job r)); naive_solver.
  - unfold settled_doc. simpl. by eapply writer_terminal.
  - unfold row_state in H. by rewrite H in Ht.
  - unfold recover_row. destruct (j_state (row_job r)); try done;
      by rewrite !(bool_decide_false (_ = _ :> GateJobState)), !andb_false_r by done.
  - revert H. unfold probe_matches, row_state. by destruct (j_state (row_job r)).
  - unfold restart_row. by destruct (j_state (row_job r)).
Qed.
Lemma settled_state r r' : settled_doc r' = settled_doc r → row_state r' = row_state r.
Proof. intros H%(f_equal j_state). done. Qed.
Lemma rtc_terminal r r' :
  rtc row_step r r' → is_terminal (row_state r) = true → settled_doc r' = settled_doc r.
Proof.
  induction 1 as [|r1 r2 r3 H12 _ IH]; [done|]. intros Ht. pose proof (row_step_terminal _ _ H12 Ht) as He.
  rewrite IH; [done|]. by rewrite (settled_state _ _ He).
Qed.

(** ** Attempts and lanes *)

Lemma keeps_writer f j j' : writer f → f j = Some j' → keeps j j'.
Proof.
  intros Hf Hj. destruct Hf; revert Hj.
  - unfold finish_cancel. case_match; [done|]. by intros [= <-].
  - unfold cancel_fenced. repeat case_match; try done. by intros [= <-].
  - unfold fail_rpc. repeat case_match; try done. by intros [= <-].
  - unfold on_phase. repeat case_match; try done. by intros [= <-].
  - unfold on_step. repeat case_match; try done. by intros [= <-].
  - apply keeps_verdict.
  - unfold mark_unknown. repeat case_match; try done; by intros [= <-].
  - unfold home_claim. repeat case_match; try done. by intros [= <-].
  - unfold home_done. cbn zeta. repeat case_match; try done; by intros [= <-].
  - by intros [= <-].
  - by intros [= <-].
  - unfold fence_job. case_match; [|done]. by intros [= <-].
  - unfold resolve_landing. repeat case_match; try done; by intros [= <-].
  - unfold resolve_evidence. repeat case_match; try done; by intros [= <-].
Qed.
(** A step is a claim of a queued job, or keeps these. *)
Definition claimed (j j' : GateJob) : Prop :=
  j_state j = Queued ∧ j_evidence_uncertain j = None ∧ j_state j' = Running ∧
  j_attempts j' = Z.min (j_attempts j + 1) u32_max ∧ j_project j' = j_project j ∧ j_mode j' = j_mode j.
Lemma claim_claimed lane host now refused auth j j' :
  claim_job lane host now refused auth j = Ok (Claimed j') →
  claimed j j' ∧ j_lane_id j' = Some lane ∧ j_host_id j' = Some host.
Proof.
  unfold claim_job. case_match eqn:Hs; [done|]. case_match; [done|]. case_match eqn:Hu; [done|].
  apply negb_false_iff, bool_decide_eq_true in Hs. apply bool_decide_eq_false in Hu.
  destruct auth; intros [= <-]. split; [|done]. split_and!; try done. by apply dec_stable.
Qed.
Lemma row_step_keeps r r' :
  row_step r r' → keeps (row_job r) (row_job r') ∨ (claims = true ∧ claimed (row_job r) (row_job r')).
Proof.
  intros Hs. destruct Hs; try (left; done).
  - right. by apply claim_claimed in H0 as [? _].
  - left. revert H. unfold claim_job. repeat case_match; try done. by intros [= <-].
  - left. revert H. unfold cancel_job. destruct (j_state (row_job r)) eqn:Hst; repeat case_match;
      intros [?|?]; simplify_eq/=; done.
  - left. by eapply keeps_writer.
  - left. split; [done|]. intros _. split; [|done]. unfold occupies. unfold row_state in H. by rewrite H.
  - left. unfold recover_row. repeat case_match; simpl; done.
  - left. destruct landed; [done|]. unfold probe_absent. by case_match.
  - left. unfold restart_row, restart_job. repeat case_match; simpl; done.
Qed.

(** Attempts never go down, and an attempt that left its lane never comes back
    to it: only a later attempt does. *)
Lemma row_step_attempts r r' : row_step r r' → row_attempts r ≤ u32_max →
  row_attempts r ≤ row_attempts r' ≤ u32_max.
Proof.
  unfold row_attempts. intros [[(-> & _) _]|(_ & _ & _ & _ & -> & _)]%row_step_keeps; lia.
Qed.
Definition left_lane (g : Z) (r : GateRow) : Prop :=
  row_attempts r ≤ u32_max ∧
  (g < row_attempts r ∨ (row_attempts r = g ∧ occupies (row_job r) = false)).
Lemma row_step_left g r r' : g < u32_max → row_step r r' → left_lane g r → left_lane g r'.
Proof.
  intros Hg Hs [Hu Hl]. pose proof (row_step_attempts _ _ Hs Hu) as Ha. split; [lia|].
  destruct Hl as [Hl|[Hl Ho]]; [left; lia|]. apply row_step_keeps in Hs as [[(He & _) Hk]|Hc].
  - right. split; [unfold row_attempts in *; congruence|]. apply not_true_is_false. intros Hx.
    destruct (Hk Hx). congruence.
  - destruct Hc as (_ & _ & _ & _ & He & _). left. unfold row_attempts in *. rewrite He. lia.
Qed.
Lemma rtc_left g r r' : g < u32_max → rtc row_step r r' → left_lane g r → left_lane g r'.
Proof. intros Hg. induction 1 as [|r1 r2 r3 H12 _ IH]; [done|]. intros Hl. by apply IH, (row_step_left g r1). Qed.
End rows.

(** ** Operations bound to an attempt *)

(** The attempt an operation was made for. *)
Definition op_attempt (op : GateOp) : option (string * Z) :=
  match op with
  | OpCancelFenced id g _ _ | OpFailRpc id g _ _ | OpPhase id g _ _ | OpStep id g _
  | OpGrant id _ g _ _ _ _ | OpProbe id g _ _ _ _ _ | OpUnknown id g _
  | OpResolve id g _ _ _ _ _ _ | OpResolveEvidence id g _ _ _ _ _ _ => Some (id, g)
  | OpVerdict id _ r _ => Some (id, gr_generation r)
  | _ => None
  end.
Lemma mutate_none id f h r : h_jobs h !! id = Some r → f (row_job r) = None → mutate_gate_job id f h = (h, None).
Proof. intros Hr Hf. unfold mutate_gate_job. by rewrite Hr, Hf. Qed.
Lemma mutate_some id f h r j :
  h_jobs h !! id = Some r → f (row_job r) = Some j →
  h_jobs (mutate_gate_job id f h).1 !! id = Some (with_job j r).
Proof. intros Hr Hf. unfold mutate_gate_job. rewrite Hr, Hf. simpl. by rewrite lookup_insert_eq. Qed.

Section theorems.
Context (encode : GateRunLog → result string LogError) (sha256_hex : string → string).
Local Abbreviation gate_step := (gate_step encode sha256_hex).
Local Abbreviation gate_run := (gate_run encode sha256_hex).

(** C31.  A job that reached passed, failed, landed or canceled keeps its
    document for good: no later report, probe, cancel, dispatch, session event,
    fence, restart or operator resolution, in any order, changes a field of it
    but the output of its post-land command and the name of the ref pinned on
    the lane, which is cleared when the ref is dropped. *)
Theorem finished_job_never_changes ops h id r :
  h_jobs h !! id = Some r → is_terminal (row_state r) = true →
  ∃ r', h_jobs (gate_run ops h) !! id = Some r' ∧ settled_doc r' = settled_doc r.
Proof.
  intros Hr Ht. destruct (gate_run_row encode sha256_hex true ops h id r eq_refl Hr) as (r' & Hr' & Hs).
  exists r'. split; [done|]. by eapply rtc_terminal.
Qed.

(**  Whatever carries the attempt it was made for (a verdict, a step, a
    phase, a lost call, a fenced dispatch, a land grant, a probe of the remote, a
    resolution) changes nothing when the job has moved to another attempt. *)
Theorem stale_attempt_changes_nothing op h id g r :
  op_attempt op = Some (id, g) → h_jobs h !! id = Some r → row_attempts r ≠ g → gate_step op h = h.
Proof.
  unfold row_attempts. intros Ho Hr Hg. assert (bool_decide (j_attempts (row_job r) = g) = false) as Hb
    by by apply bool_decide_eq_false.
  destruct op; simplify_eq/=; try (erewrite mutate_none; [done..|]).
  - unfold cancel_fenced. by rewrite Hb, orb_true_r.
  - unfold fail_rpc. rewrite Hb. by repeat case_match.
  - unfold on_phase. by rewrite Hb, orb_true_r.
  - unfold on_step. rewrite Hb. by case_match.
  - unfold verdict_writer. cbn zeta.
    change (gr_generation (bound_gate_result_row_fields r0)) with (gr_generation r0). rewrite Hb. by case_match.
  - unfold gate_land_grant. case_match; [done|]. rewrite Hr. unfold grant_tuple, row_attempts.
    rewrite Hb. destruct (bool_decide (row_state r = Landing)); [done|]. by rewrite andb_false_r.
  - unfold settle_landing_probe. rewrite Hr. unfold probe_matches, row_attempts. by rewrite Hb, andb_false_r.
  - unfold mark_unknown. by rewrite Hb, orb_true_r.
  - unfold resolve_landing. rewrite Hb. by repeat case_match.
  - unfold resolve_evidence, evidence_resolution_mismatch.
    destruct (j_evidence_uncertain (row_job r)); [|done]. by rewrite Hb, orb_true_r.
Qed.

(** C30.  Once a cancel was accepted for a running job, no land of that attempt is
    ever granted again, whatever happens afterwards; a later attempt of the job
    has its own grants. *)
Theorem accepted_cancel_bars_the_land_grant h h' id now r ops host epoch merge session at_ answer :
  request_gate_job_cancel id now true h = (h', Some CancelRequested) →
  h_jobs h !! id = Some r → row_attempts r < u32_max →
  (gate_land_grant id host (row_attempts r) epoch merge session at_ (gate_run ops h')).2 = Some answer →
  granted answer = false.
Proof.
  intros Hc Hr Hg. set (g := row_attempts r) in *.
  assert (∃ r1, h_jobs h' !! id = Some r1 ∧ left_lane g r1) as (r1 & Hr1 & Hl1).
  { revert Hc. unfold request_gate_job_cancel, cancel_job. simpl. rewrite Hr.
    repeat case_match; intros; simplify_eq/=; rewrite lookup_insert_eq; eexists; (split; [done|]);
      (split; [simpl; unfold g, row_attempts in *; simpl; lia|right; done]). }
  destruct (gate_run_row encode sha256_hex true ops h' id r1 eq_refl Hr1) as (r2 & Hr2 & Hs).
  pose proof (rtc_left encode sha256_hex true g r1 r2 Hg Hs Hl1) as [_ Hl2].
  unfold gate_land_grant. case_match; [done|]. rewrite Hr2. unfold grant_tuple.
  destruct Hl2 as [Hlt|[_ Ho]].
  - rewrite (bool_decide_false (row_attempts r2 = g)) by lia.
    destruct (bool_decide (row_state r2 = Landing)); [by intros [= <-]|]. rewrite andb_false_r. by intros [= <-].
  - apply orb_false_iff in Ho as [H1 H2]. unfold row_state. rewrite H1, H2. by intros [= <-].
Qed.

(** ** What one operation does to one row *)

Lemma mutate_row id' f h id r r' :
  h_jobs h !! id = Some r → h_jobs (mutate_gate_job id' f h).1 !! id = Some r' →
  r' = r ∨ (id' = id ∧ ∃ j, f (row_job r) = Some j ∧ r' = with_job j r).
Proof.
  intros Hr. unfold mutate_gate_job. destruct (h_jobs h !! id') as [x|] eqn:Hx; simpl; [|intros; left; congruence].
  destruct (f (row_job x)) as [j|] eqn:Hj; simpl; [|intros; left; congruence].
  destruct (decide (id' = id)) as [->|Hne].
  - rewrite lookup_insert_eq. intros [= <-]. right. split; [done|]. exists j. split; congruence.
  - rewrite lookup_insert_ne by done. intros. left. congruence.
Qed.
Lemma put_row_lookup id' x h id r r' :
  h_jobs h !! id = Some r → h_jobs (put_row id' x h) !! id = Some r' → r' = r ∨ (id' = id ∧ r' = x).
Proof.
  intros Hr. simpl. destruct (decide (id' = id)) as [->|Hne].
  - rewrite lookup_insert_eq. intros [= <-]. auto.
  - rewrite lookup_insert_ne by done. intros. left. congruence.
Qed.
Lemma fmap_row (f : GateRow → GateRow) h id r r' :
  h_jobs h !! id = Some r → h_jobs (with_jobs (f <$> h_jobs h) h) !! id = Some r' → r' = f r.
Proof. simpl. intros Hr. rewrite lookup_fmap, Hr. by intros [= <-]. Qed.
Lemma persist_rows id' l g s m host ok h : h_jobs (persist_run_log encode sha256_hex id' l g s m host ok h).1 = h_jobs h.
Proof.
  unfold persist_run_log, insert_gate_log. destruct (persisted_run_log_bytes encode l) as [[bytes t]|]; [|done].
  destruct ok; [|done]. repeat case_match; simplify_eq/=; done.
Qed.
(** A dispatch touches only the row it is for, and only when that is queued. *)
Definition dispatched (lane : GateLane) (x y : GateRow) : Prop :=
  row_state x = Queued ∧ j_evidence_uncertain (row_job x) = None ∧
  (row_state y = Running ∨ row_state y = Canceled) ∧ j_project (row_job y) = j_project (row_job x) ∧
  j_mode (row_job y) = j_mode (row_job x) ∧ j_lane_id (row_job y) ∈ [Some (lane_id lane); j_lane_id (row_job x)] ∧
  (row_state y = Running → j_lane_id (row_job y) = Some (lane_id lane)).
Lemma dispatch_jobs a id lane h :
  h_jobs (dispatch a id lane h) = h_jobs h ∨
  ∃ x y, h_jobs h !! id = Some x ∧ h_jobs (dispatch a id lane h) = <[id := y]> (h_jobs h) ∧ dispatched lane x y.
Proof.
  clear encode sha256_hex. unfold dispatch, claim_gate_job. destruct (h_jobs h !! id) as [x|] eqn:Hx; [|by left].
  destruct (claim_job _ _ _ _ _ _) as [[j|j|]|] eqn:Hc; try by left.
  - right. apply claim_claimed in Hc as [(H1 & H2 & H3 & _ & H4 & H5) [H6 _]]. exists x.
    assert (∀ y, row_state y = Running ∨ row_state y = Canceled → j_project (row_job y) = j_project j →
      j_mode (row_job y) = j_mode j → j_lane_id (row_job y) = j_lane_id j → dispatched lane x y) as Hd.
    { intros y Hy Hp Hm He. unfold dispatched. rewrite Hp, Hm, He, H6. split_and!; try done. set_solver. }
    destruct (da_fenced a); [|destruct (da_session a)].
    + unfold mutate_gate_job. cbn [h_jobs put_row with_jobs]. rewrite lookup_insert_eq.
      destruct (cancel_fenced _ _ _ _) as [j'|] eqn:Hf; cbn [fst h_jobs put_row with_jobs].
      * rewrite insert_insert_eq. eexists. split; [done|]. split; [done|]. revert Hf. unfold cancel_fenced.
        repeat case_match; intros; simplify_eq/=. apply Hd; auto.
      * eexists. split; [done|]. split; [done|]. apply Hd; auto.
    + unfold set_gate_dispatch_session. cbn [h_jobs put_row with_jobs]. rewrite lookup_insert_eq.
      cbn [h_jobs put_row with_jobs]. rewrite insert_insert_eq. eexists. split; [done|]. split; [done|]. apply Hd; auto.
    + eexists. split; [done|]. split; [done|]. apply Hd; auto.
  - right. revert Hc. unfold claim_job. guard_case Hq; [done|]. guard_case Hrf; [done|]. guard_case Hu; [done|].
    destruct (da_authority a); [done| |done]. intros [= <-]. eexists _, _. split; [done|]. split; [done|].
    apply negb_false_iff, bool_decide_eq_true in Hq. apply bool_decide_eq_false, dec_stable in Hu.
    unfold dispatched. split_and!; simpl; auto; [set_solver|done].
Qed.
Lemma dispatch_row a id' lane h id r r' :
  h_jobs h !! id = Some r → h_jobs (dispatch a id' lane h) !! id = Some r' →
  r' = r ∨ (id' = id ∧ dispatched lane r r').
Proof.
  intros Hr. destruct (dispatch_jobs a id' lane h) as [->|(x & y & Hx & -> & Hd)]; [left; congruence|].
  destruct (decide (id' = id)) as [->|Hne].
  - rewrite lookup_insert_eq. intros [= <-]. right. by assert (x = r) as -> by congruence.
  - rewrite lookup_insert_ne by done. left. congruence.
Qed.

(** ** Landing *)

(** What settles a row that is landing. *)
Definition landing_authority (op : GateOp) (id : string) (r : GateRow) : Prop :=
  let j := row_job r in
  match op with
  | OpVerdict id' c res _ => id' = id ∧ gr_generation res = j_attempts j ∧ landing_report_binds c res j
  | OpProbe id' attempts merge session host _ _ =>
      id' = id ∧ probe_matches attempts merge session host r = true
  | OpResolve id' attempts epoch merge _ _ _ _ =>
      id' = id ∧ j_landing_outcome_unknown j = true ∧ j_evidence_uncertain j = None ∧ attempts = j_attempts j ∧
      j_landing_session_epoch j = Some epoch ∧ j_merge_sha j = Some merge
  | OpResolveEvidence id' attempts epoch merge _ _ _ _ =>
      id' = id ∧ j_evidence_uncertain j ≠ None ∧ attempts = j_attempts j ∧
      j_landing_session_epoch j = epoch ∧ j_merge_sha j = merge
  | _ => False
  end.
(** Rows that no operation on another job, and no pass over all of them, moves. *)
Lemma insert_row id' project mode lane now ok h id r :
  h_jobs h !! id = Some r → h_jobs (insert_gate_job id' project mode lane now ok h) !! id = Some r.
Proof.
  intros Hr. unfold insert_gate_job. destruct (ok && _) eqn:Hb; [|done].
  apply andb_true_iff in Hb as [_ Hn%bool_decide_eq_true]. simpl. rewrite lookup_insert_ne; congruence.
Qed.
Lemma cancel_row id' now ok h id r r' :
  h_jobs h !! id = Some r → h_jobs (request_gate_job_cancel id' now ok h).1 !! id = Some r' →
  r' = r ∨ (id' = id ∧ ∃ j o, cancel_job now (row_job r) = Some (j, o) ∧ o ∈ [QueuedCanceled; CancelRequested] ∧
                     r' = with_job j r).
Proof.
  intros Hr. unfold request_gate_job_cancel. destruct (negb ok); [intros; left; simpl in *; congruence|].
  destruct (h_jobs h !! id') as [x|] eqn:Hx; [|intros; left; simpl in *; congruence].
  destruct (cancel_job now (row_job x)) as [[j o]|] eqn:Hc; [|intros; left; simpl in *; congruence].
  destruct o; simpl; try (intros; left; congruence);
    (intros [->|[-> ->]]%(put_row_lookup _ _ _ _ r); [by left| |done]); right; (split; [done|]);
    assert (x = r) as -> by congruence; eexists _, _; (split; [done|]); (split; [|done]); set_solver.
Qed.
Lemma session_row id' session h id r r' :
  h_jobs h !! id = Some r → h_jobs (set_gate_dispatch_session id' session h) !! id = Some r' →
  row_job r' = row_job r.
Proof.
  intros Hr. unfold set_gate_dispatch_session. destruct (h_jobs h !! id') as [x|] eqn:Hx; [|intros; congruence].
  intros [->|[-> ->]]%(put_row_lookup _ _ _ _ r); [done| |done]. simpl. congruence.
Qed.
Lemma grant_row id' host g epoch merge session now h id r r' :
  h_jobs h !! id = Some r → h_jobs (gate_land_grant id' host g epoch merge session now h).1 !! id = Some r' →
  r' = r ∨ (id' = id ∧ row_state r = Running ∧ grant_tuple host g session r = true ∧ r' = land_row epoch merge now r).
Proof.
  intros Hr. unfold gate_land_grant. destruct (_ <? _); [intros; left; simpl in *; congruence|].
  destruct (h_jobs h !! id') as [x|] eqn:Hx; [|intros; left; simpl in *; congruence].
  destruct (bool_decide (row_state x = Landing)); [intros; left; simpl in *; congruence|].
  destruct (_ && _) eqn:Hb; [|intros; left; simpl in *; congruence].
  intros [->|[-> ->]]%(put_row_lookup _ _ _ _ r); [by left| |done]. right. assert (x = r) as -> by congruence.
  apply andb_true_iff in Hb as [Hb%bool_decide_eq_true ?]. done.
Qed.
Lemma probe_row id' attempts merge session host landed now h id r r' :
  h_jobs h !! id = Some r →
  h_jobs (settle_landing_probe id' attempts merge session host landed now h).1 !! id = Some r' →
  r' = r ∨ (id' = id ∧ probe_matches attempts merge session host r = true ∧
            row_job r' = if landed then probe_landed now (row_job r) else probe_absent now (row_job r)).
Proof.
  intros Hr. unfold settle_landing_probe.
  destruct (h_jobs h !! id') as [x|] eqn:Hx; [|intros; left; simpl in *; congruence].
  destruct (probe_matches _ _ _ _ x) eqn:Hb; [|intros; left; simpl in *; congruence].
  intros [->|[-> ->]]%(put_row_lookup _ _ _ _ r); [by left| |done]. right. by assert (x = r) as -> by congruence.
Qed.
Lemma probed_row id' at_ h id r r' :
  h_jobs h !! id = Some r → h_jobs (mark_landing_probed id' at_ h) !! id = Some r' → row_job r' = row_job r.
Proof.
  intros Hr. unfold mark_landing_probed. destruct (h_jobs h !! id') as [x|] eqn:Hx; [|intros; congruence].
  case_bool_decide; [|intros; congruence].
  intros [->|[-> ->]]%(put_row_lookup _ _ _ _ r); [done| |done]. simpl. congruence.
Qed.
Lemma resolve_landing_inv a e m q by_ why now j j' :
  resolve_landing a e m q by_ why now j = Some j' →
  j_state j = Landing ∧ j_landing_outcome_unknown j = true ∧ j_evidence_uncertain j = None ∧ a = j_attempts j ∧
  j_landing_session_epoch j = Some e ∧ j_merge_sha j = Some m.
Proof.
  unfold resolve_landing. guard_case H1; [done|]. guard_case H2; [done|]. guard_case H3; [done|]. intros _.
  apply orb_false_iff in H1 as [H1 H1'], H3 as [H3 H3'']. apply orb_false_iff in H3 as [H3 H3'].
  apply negb_false_iff in H1, H1', H3, H3', H3''. apply bool_decide_eq_true in H1, H3, H3', H3''.
  apply bool_decide_eq_false in H2. split_and!; try done. by apply dec_stable.
Qed.
Lemma resolve_evidence_inv a e m q by_ why now j j' :
  resolve_evidence a e m q by_ why now j = Some j' →
  j_evidence_uncertain j ≠ None ∧ a = j_attempts j ∧ j_landing_session_epoch j = e ∧ j_merge_sha j = m.
Proof.
  unfold resolve_evidence, evidence_resolution_mismatch. destruct (j_evidence_uncertain j) as [u|]; [|done].
  guard_case H; [done|]. intros _. rewrite !orb_false_iff in H. destruct H as (((_ & H1) & H2) & H3).
  apply negb_false_iff, bool_decide_eq_true in H1, H2, H3. done.
Qed.
Lemma verdict_inv objects c r now j j' :
  verdict_writer encode sha256_hex objects c r now j = Some j' →
  gr_generation r = j_attempts j ∧ evidence_resolvable_state (j_state j) = true.
Proof.
  unfold verdict_writer. cbn zeta. guard_case H1; [done|]. guard_case H2; [done|]. intros _.
  apply negb_false_iff in H1, H2. by apply bool_decide_eq_true in H2.
Qed.
(** What an operation makes of the row of job [id]. *)
Definition mutated (id' : string) (f : GateJob → option GateJob) (id : string) (r r' : GateRow) : Prop :=
  id' = id ∧ ∃ j, f (row_job r) = Some j ∧ r' = with_job j r.
Definition row_change (objects : gmap string string) (op : GateOp) (id : string) (r r' : GateRow) : Prop :=
  match op with
  | OpInsert _ _ _ _ _ _ | OpPersist _ _ _ _ _ _ _ => False
  | OpDispatch _ id' lane => id' = id ∧ dispatched lane r r'
  | OpSession _ _ | OpProbed _ _ | OpRebind _ _ _ => row_job r' = row_job r
  | OpCancel id' now _ => id' = id ∧ ∃ j o, cancel_job now (row_job r) = Some (j, o) ∧
      o ∈ [QueuedCanceled; CancelRequested] ∧ r' = with_job j r
  | OpFinishCancel id' now => mutated id' (finish_cancel now) id r r'
  | OpCancelFenced id' g now ok => mutated id' (cancel_fenced g now ok) id r r'
  | OpFailRpc id' g now m => mutated id' (fail_rpc g now m) id r r'
  | OpPhase id' g now ok => mutated id' (on_phase g now ok) id r r'
  | OpStep id' g s => mutated id' (on_step g s) id r r'
  | OpVerdict id' c res now => mutated id' (verdict_writer encode sha256_hex objects c res now) id r r'
  | OpGrant id' host g epoch merge session now =>
      id' = id ∧ row_state r = Running ∧ grant_tuple host g session r = true ∧ r' = land_row epoch merge now r
  | OpEnded host session now => r' = recover_row host session now r
  | OpProbe id' attempts merge session host landed now =>
      id' = id ∧ probe_matches attempts merge session host r = true ∧
      row_job r' = if landed then probe_landed now (row_job r) else probe_absent now (row_job r)
  | OpUnknown id' attempts note => mutated id' (mark_unknown attempts note) id r r'
  | OpHomeClaim id' => mutated id' home_claim id r r'
  | OpHomeDone id' landed unknown now => mutated id' (home_done landed unknown now) id r r'
  | OpThen id' out => mutated id' (then_done out) id r r'
  | OpDropRefs id' => mutated id' drop_job_refs id r r'
  | OpFence id' now => mutated id' (fence_job now) id r r'
  | OpRestart now => r' = restart_row now r
  | OpResolve id' a e m q by_ why now => mutated id' (resolve_landing a e m q by_ why now) id r r'
  | OpResolveEvidence id' a e m q by_ why now => mutated id' (resolve_evidence a e m q by_ why now) id r r'
  end.
Lemma gate_step_row op h id r r' :
  h_jobs h !! id = Some r → h_jobs (gate_step op h) !! id = Some r' →
  r' = r ∨ row_change (h_objects h) op id r r'.
Proof.
  intros Hr Hr'. destruct op; cbn [GateQueue.gate_step row_change] in *; try by eapply mutate_row.
  - rewrite (insert_row _ _ _ _ _ _ _ _ _ Hr) in Hr'. left. congruence.
  - by eapply dispatch_row.
  - right. by eapply session_row.
  - by eapply cancel_row.
  - rewrite persist_rows in Hr'. left. congruence.
  - by eapply grant_row.
  - revert Hr'. unfold recover_ended_session. destruct (_ =? _); [left; congruence|]. right. by eapply fmap_row.
  - right. apply (fmap_row _ _ _ r) in Hr' as ->; [|done]. unfold rebind_row. by repeat case_match.
  - by eapply probe_row.
  - right. by eapply probed_row.
  - right. by eapply fmap_row.
Qed.

(** The cases of [row_change]: the writers with their results. *)
Ltac change_cases op Hc :=
  destruct op; cbn [row_change] in Hc; try (exfalso; exact Hc);
    try (lazymatch type of Hc with mutated _ _ _ _ _ => destruct Hc as (-> & ? & Hc & ->); revert Hc end).

(** C29.  A job whose land was granted leaves that state only on an established
    fact: a verdict of the same attempt, sent by the session that holds the
    grant, from the host of the job, that says landed or base-moved of the very
    merge that was granted; a probe of the remote bound to the attempt, merge,
    host and session; or an operator naming the exact attempt, epoch and merge.
    No timeout, restart, lost call, ended session, cancel or other report moves
    it. *)
Theorem landing_moves_only_on_established_facts op h id r r' :
  h_jobs h !! id = Some r → row_state r = Landing →
  h_jobs (gate_step op h) !! id = Some r' → row_state r' ≠ Landing →
  landing_authority op id r.
Proof.
  unfold row_state. intros Hr Hs Hr' Hne. apply (gate_step_row op h id r r' Hr) in Hr' as [->|Hc]; [done|].
  change_cases op Hc; cbn [landing_authority]; simpl in Hne; try congruence.
  - destruct Hc as (_ & Hq & _). unfold row_state in Hq. congruence.
  - destruct Hc as (-> & j & o & Hc & Ho & ->). revert Hc. unfold cancel_job. rewrite Hs. intros [= <- <-]. set_solver.
  - unfold finish_cancel. by rewrite Hs.
  - unfold cancel_fenced. by rewrite Hs.
  - unfold fail_rpc. by rewrite Hs.
  - unfold on_phase. repeat case_match; intros; simplify_eq/=; congruence.
  - unfold on_step. by rewrite Hs.
  - intros Hv. pose proof (verdict_inv _ _ _ _ _ _ Hv) as [Hg _]. split; [done|]. split; [done|].
    revert Hv. unfold verdict_writer. cbn zeta. do 2 (guard_case Hx; [done|]; clear Hx). rewrite Hs.
    by intros [Hb _]%landing_verdict_inv.
  - destruct Hc as (_ & Hrun & _). unfold row_state in Hrun. congruence.
  - subst r'. revert Hne. unfold recover_row. rewrite Hs, andb_false_r. simpl. congruence.
  - by destruct Hc as (-> & Hm & _).
  - unfold mark_unknown. repeat case_match; intros; simplify_eq/=; congruence.
  - unfold home_claim. by rewrite Hs.
  - unfold home_done. by rewrite Hs.
  - intros [= <-]. by simpl in Hne.
  - intros [= <-]. by simpl in Hne.
  - unfold fence_job. by rewrite Hs.
  - subst r'. revert Hne. unfold restart_row. by rewrite Hs.
  - intros (_ & Hi)%resolve_landing_inv. done.
  - intros Hi%resolve_evidence_inv. done.
Qed.
(** ** Landed *)

Definition says_landed (op : GateOp) (id : string) (r : GateRow) : Prop :=
  match op with
  | OpVerdict id' _ res _ => id' = id ∧ gr_generation res = row_attempts r ∧ gr_status res = "landed"
  | OpProbe id' attempts merge session host landed _ =>
      id' = id ∧ probe_matches attempts merge session host r = true ∧ landed = true
  | OpHomeDone id' landed _ _ => id' = id ∧ gl_status landed = "landed"
  | _ => False
  end.
Lemma settle_state objects c r now settle j j' :
  settle_or_defer encode sha256_hex objects c r now settle j = Some j' →
  j_state j' = j_state (settle (set_evidence_uncertain None j)) ∨ j_state j' = j_state j.
Proof.
  unfold settle_or_defer. case_match; intros [= <-]; [by left|right].
  unfold record_evidence_deferral. by case_match.
Qed.
Lemma take_object_state c j : j_state (take_object c j) = j_state j.
Proof. unfold take_object. by case_match. Qed.
Lemma verdict_landed objects c r now j j' :
  verdict_writer encode sha256_hex objects c r now j = Some j' → j_state j' = Landed → gr_status r = "landed".
Proof.
  intros Hv Hl. destruct (decide (gr_status r = "landed")) as [|Hn]; [done|exfalso].
  pose proof (verdict_inv _ _ _ _ _ _ Hv) as [_ He]. revert Hv. unfold verdict_writer. cbn zeta.
  do 2 (guard_case Hx; [done|]; clear Hx).
  set (b := bound_gate_result_row_fields r). assert (bool_decide (gr_status b = "landed") = false) as Hb
    by by apply bool_decide_eq_false.
  destruct (j_state j) eqn:Hs; try done.
  - unfold running_verdict. cbn zeta. rewrite Hb.
    guard_case H1; [guard_case H2; intros [= <-]; [done|]; revert Hl;
      unfold record_evidence_deferral; case_match; simpl; congruence|].
    guard_case H2; [done|]. set (j1 := take_object c _).
    assert (j_state j1 = Running) as Hj1 by (unfold j1; by rewrite take_object_state). clearbody j1.
    guard_case H3; [intros [= <-]; congruence|].
    guard_case H4; [intros [Hf|Hf]%settle_state; simpl in Hf; congruence|].
    guard_case H5; [intros [= <-]; simpl in Hl; congruence|].
    intros [Hf|Hf]%settle_state; [|congruence]. rewrite Hl in Hf. cbn zeta in Hf. by repeat case_match.
  - intros [_ Ho]%landing_verdict_inv. revert Ho. unfold landing_outcome. cbn zeta. rewrite Hb.
    set (j1 := set_finished_at _ _).
    assert (j_state j1 = Landing) as Hj1 by (unfold j1; simpl; by rewrite take_object_state). clearbody j1.
    guard_case H3; [intros [= <-]; simpl in Hl; congruence|].
    intros [Hf|Hf]%settle_state; simpl in Hf; congruence.
  - unfold canceling_verdict. cbn zeta. guard_case H1; [done|]. rewrite Hb. set (j1 := set_finished_at _ _).
    assert (j_state j1 = Canceling) as Hj1 by (unfold j1; simpl; by rewrite take_object_state). clearbody j1.
    intros [Hf|Hf]%settle_state; [|congruence]. rewrite Hl in Hf. cbn zeta in Hf. by repeat case_match.
Qed.
(**  A job becomes landed only on the word of whoever pushed main: a verdict
    of the current attempt with status landed, a probe that found the granted
    merge on the remote, or the home host's answer to the push it was sent. *)
Theorem landed_only_when_reported op h id r r' :
  h_jobs h !! id = Some r → row_state r ≠ Landed →
  h_jobs (gate_step op h) !! id = Some r' → row_state r' = Landed → says_landed op id r.
Proof.
  unfold row_state. intros Hr Hs Hr' Hl. apply (gate_step_row op h id r r' Hr) in Hr' as [->|Hc]; [done|].
  change_cases op Hc; cbn [says_landed]; simpl in Hl; try congruence.
  - destruct Hc as (_ & _ & _ & [H|H] & _); unfold row_state in H; congruence.
  - destruct Hc as (_ & j & o & Hc & Ho & ->). revert Hc. unfold cancel_job.
    destruct (j_state (row_job r)) eqn:Hst; repeat case_match; intros; simplify_eq/=; set_solver.
  - unfold finish_cancel. case_match; [done|]. intros; simplify_eq/=.
  - unfold cancel_fenced. repeat case_match; intros; simplify_eq/=.
  - unfold fail_rpc. repeat case_match; intros; simplify_eq/=.
  - unfold on_phase. repeat case_match; intros; simplify_eq/=; congruence.
  - unfold on_step. repeat case_match; intros; simplify_eq/=; congruence.
  - intros Hv. pose proof (verdict_inv _ _ _ _ _ _ Hv) as [Hg _]. eauto using verdict_landed.
  - destruct Hc as (_ & _ & _ & ->). done.
  - subst r'. revert Hl. unfold recover_row. repeat case_match; simpl; congruence.
  - destruct Hc as (-> & Hm & Hj). split; [done|]. split; [done|]. destruct landed; [done|].
    revert Hl. rewrite Hj. unfold probe_absent. by case_match.
  - unfold mark_unknown. repeat case_match; intros; simplify_eq/=; congruence.
  - unfold home_claim. case_match; [done|]. intros; simplify_eq/=; congruence.
  - intros Hd. split; [done|]. revert Hd. unfold home_done. case_match; [done|]. cbn zeta.
    repeat case_match; intros; simplify_eq/=; by eapply bool_decide_eq_true_1.
  - intros [= <-]. by simpl in Hl.
  - intros [= <-]. by simpl in Hl.
  - unfold fence_job. case_match; intros; simplify_eq/=.
  - subst r'. revert Hl. unfold restart_row, restart_job. repeat case_match; simpl; congruence.
  - unfold resolve_landing. repeat case_match; intros; simplify_eq/=.
  - unfold resolve_evidence. repeat case_match; intros; simplify_eq/=.
Qed.
(** ** Evidence *)

(** What a verdict's log is known by once it is stored. *)
Definition own_digest (c : Captured) (l : GateRunLog) : string :=
  default (supplied_digest encode sha256_hex l) (cap_digest c).
Definition has_log (objects : gmap string string) (d : string) (j : GateJob) : Prop :=
  ∃ o, j_log_object_id j = Some o ∧ objects !! o = Some d.
Lemma own_evidence_stored objects c r l j :
  gr_run_log r = Some l → (∀ o, cap_object c = Some o → j_log_object_id j = Some o) →
  evidence_is_own encode sha256_hex objects c r (j_log_object_id j) = true →
  has_log objects (own_digest c l) j.
Proof.
  intros Hl Ho. unfold evidence_is_own. rewrite Hl.
  destruct (cap_object c) as [o|]; simpl; intros He%bool_decide_eq_true; [exists o; eauto|].
  destruct (j_log_object_id j) as [o|] eqn:Hj; [|done]. by exists o.
Qed.
Lemma settle_has_log objects c r now settle j j' l :
  gr_run_log r = Some l → (∀ o, cap_object c = Some o → j_log_object_id j = Some o) →
  is_terminal (j_state j) = false → (∀ x, j_log_object_id (settle x) = j_log_object_id x) →
  settle_or_defer encode sha256_hex objects c r now settle j = Some j' → is_terminal (j_state j') = true →
  has_log objects (own_digest c l) j'.
Proof.
  intros Hl Ho Hj Hs. unfold settle_or_defer. case_match eqn:He; intros [= <-].
  - intros _. destruct (own_evidence_stored objects c r l j) as (o & H1 & H2); [done..|]. exists o. by rewrite Hs.
  - unfold record_evidence_deferral. case_match; simpl; congruence.
Qed.
Lemma take_object_taken c j o : cap_object c = Some o → j_log_object_id (take_object c j) = Some o.
Proof. unfold take_object. by intros ->. Qed.
Lemma verdict_has_log objects c r now j j' l :
  verdict_writer encode sha256_hex objects c r now j = Some j' → gr_run_log r = Some l →
  is_terminal (j_state j') = true → has_log objects (own_digest c l) j'.
Proof.
  intros Hv Hl. pose proof (verdict_inv _ _ _ _ _ _ Hv) as [_ He]. revert Hv. unfold verdict_writer. cbn zeta.
  do 2 (guard_case Hx; [done|]; clear Hx). set (b := bound_gate_result_row_fields r).
  assert (gr_run_log b = Some l) as Hb by done. clearbody b.
  destruct (j_state j) eqn:Hs; try done.
  - unfold running_verdict. cbn zeta. guard_case H1.
    { guard_case H2; intros [= <-]; [intros _|unfold record_evidence_deferral; rewrite Hb; simpl; by rewrite Hs].
      revert H2. unfold evidence_is_own, take_object, has_log, own_digest. rewrite Hb.
      destruct (cap_object c) as [o|]; simpl; intros Ho%bool_decide_eq_true; [by exists o|].
      destruct (j_log_object_id j) as [o|] eqn:Hj; [|done]. by exists o. }
    guard_case H2; [done|]. set (j1 := take_object c _).
    assert (∀ o, cap_object c = Some o → j_log_object_id j1 = Some o) as Ho by apply take_object_taken.
    assert (j_state j1 = Running) as Hj1 by (unfold j1; by rewrite take_object_state). clearbody j1.
    guard_case H3; [intros [= <-]; by rewrite Hj1|].
    guard_case H4; [apply settle_has_log; [done..|by rewrite Hj1|done]|].
    guard_case H5; [apply settle_has_log; [done..|by rewrite Hj1|done]|].
    guard_case H6; [intros [= <-]; done|].
    apply settle_has_log; [done..|by rewrite Hj1|]. intros x. by case_match.
  - intros [_ Ho]%landing_verdict_inv. revert Ho. unfold landing_outcome. cbn zeta. set (j1 := set_finished_at _ _).
    assert (∀ o, cap_object c = Some o → j_log_object_id j1 = Some o) as Ho by apply take_object_taken.
    assert (j_state j1 = Landing) as Hj1 by (unfold j1; simpl; by rewrite take_object_state). clearbody j1.
    guard_case H3; [apply settle_has_log; [done..|by rewrite Hj1|done]|].
    guard_case H4; [intros [= <-]; done|]. apply settle_has_log; [done..|by rewrite Hj1|done].
  - unfold canceling_verdict. cbn zeta. guard_case H1; [done|]. set (j1 := set_finished_at _ _).
    assert (∀ o, cap_object c = Some o → j_log_object_id j1 = Some o) as Ho by apply take_object_taken.
    assert (j_state j1 = Canceling) as Hj1 by (unfold j1; simpl; by rewrite take_object_state). clearbody j1.
    guard_case H3; apply settle_has_log; [done..|by rewrite Hj1|done|done|done|by rewrite Hj1|].
    intros x. by case_match.
Qed.
Lemma persist_stored id l g s m host ok h h' o d :
  persist_run_log encode sha256_hex id l g s m host ok h = (h', Some (o, d)) →
  ∃ bytes t, persisted_run_log_bytes encode l = Ok (bytes, t) ∧ d = sha256_hex bytes.
Proof.
  unfold persist_run_log. destruct (persisted_run_log_bytes encode l) as [[bytes t]|]; [|done].
  destruct ok; [|done]. destruct (insert_gate_log _ _ _ _ _ _ _ _) as [h1 [x|]]; intros; simplify_eq/=. eauto.
Qed.
(**  A verdict that brings its run log ends the job only together with it:
    the ended row refers to a stored log object whose digest is that of this
    verdict's log, as it was stored now or, when storing it failed, of the very
    bytes it was sent with. *)
Theorem verdict_settles_only_with_its_log projects id r source current healthy now h h' j' l :
  apply_result encode sha256_hex projects id r source current healthy now h = (h', Some j') →
  gr_run_log r = Some l → is_terminal (j_state j') = true →
  ∃ o d, j_log_object_id j' = Some o ∧ h_objects h' !! o = Some d ∧
    (d = supplied_digest encode sha256_hex l ∨
     ∃ bytes t, persisted_run_log_bytes encode l = Ok (bytes, t) ∧ d = sha256_hex bytes).
Proof.
  intros Ha Hl Ht. revert Ha. unfold apply_result. destruct (h_jobs h !! id) as [row|] eqn:Hr; [|done].
  case_match; [done|]. rewrite Hl.
  destruct (persist_run_log _ _ _ _ _ _ _ _ _ h) as [h1 stored] eqn:Hp. cbn zeta.
  unfold mutate_gate_job. destruct (h_jobs h1 !! id) as [row'|]; [|done].
  destruct (verdict_writer _ _ _ _ _ _ _) as [j|] eqn:Hv; [|done]. intros [= <- <-].
  destruct (verdict_has_log _ _ _ _ _ _ _ Hv Hl Ht) as (o & Ho & Hd). exists o. eexists. split; [done|].
  split; [exact Hd|]. unfold own_digest. simpl. destruct stored as [[x d]|]; simpl; [|by left]. right.
  by eapply persist_stored.
Qed.

(** What ends or requeues a row that is parked on a verdict whose log could not
    be stored. *)
Definition parked_authority (op : GateOp) (id : string) (r : GateRow) : Prop :=
  let j := row_job r in
  match op with
  | OpVerdict id' _ res _ => id' = id ∧ gr_generation res = j_attempts j
  | OpProbe id' attempts merge session host _ _ => id' = id ∧ probe_matches attempts merge session host r = true
  | OpResolveEvidence id' attempts epoch merge _ _ _ _ =>
      id' = id ∧ attempts = j_attempts j ∧ j_landing_session_epoch j = epoch ∧ j_merge_sha j = merge
  | OpHomeDone id' _ _ _ => id' = id
  | OpCancelFenced id' g _ _ => id' = id ∧ g = j_attempts j ∧ j_node_started_at j = None
  | _ => False
  end.
(**  A row parked on a definitive verdict whose log could not be stored is
    not ended or requeued by the cancel grace, a restart, an ended session, a
    lost call, a dispatch or the resolution of an unknown landing: only a
    verdict of the same attempt, a matching probe, the answer of the home push,
    a fence that kept the run from starting or an operator naming the exact
    attempt does. *)
Theorem parked_job_waits_for_its_evidence op h id r r' :
  h_jobs h !! id = Some r → j_evidence_uncertain (row_job r) ≠ None →
  evidence_resolvable_state (row_state r) = true →
  h_jobs (gate_step op h) !! id = Some r' → evidence_resolvable_state (row_state r') = false →
  parked_authority op id r.
Proof.
  unfold row_state. intros Hr Hu Hs Hr' Hl.
  apply (gate_step_row op h id r r' Hr) in Hr' as [->|Hc]; [congruence|].
  assert (bool_decide (j_evidence_uncertain (row_job r) = None) = false) as Hn by by apply bool_decide_eq_false.
  assert (bool_decide (j_evidence_uncertain (row_job r) ≠ None) = true) as Hp by by apply bool_decide_eq_true.
  change_cases op Hc; cbn [parked_authority]; simpl in Hl; try congruence.
  - destruct Hc as (_ & _ & Hc & _). congruence.
  - destruct Hc as (_ & j & o & Hc & Ho & ->). revert Hc. unfold cancel_job.
    destruct (j_state (row_job r)) eqn:Hst; repeat case_match; intros; simplify_eq/=; set_solver.
  - unfold finish_cancel. by rewrite Hp, orb_true_r.
  - unfold cancel_fenced. case_match eqn:Hb; [done|]. intros _. apply orb_false_iff in Hb as [Hb Hb3].
    apply orb_false_iff in Hb as [_ Hb%negb_false_iff%bool_decide_eq_true].
    apply bool_decide_eq_false, dec_stable in Hb3. done.
  - unfold fail_rpc. rewrite Hp. by repeat case_match.
  - unfold on_phase. repeat case_match; intros; simplify_eq/=; congruence.
  - unfold on_step. repeat case_match; intros; simplify_eq/=; congruence.
  - intros Hv. by pose proof (verdict_inv _ _ _ _ _ _ Hv) as [Hg _].
  - destruct Hc as (_ & _ & _ & ->). done.
  - subst r'. revert Hl. unfold recover_row. rewrite Hn, andb_false_r. congruence.
  - by destruct Hc as (-> & Hm & _).
  - unfold mark_unknown. repeat case_match; intros; simplify_eq/=; congruence.
  - unfold home_claim. case_match; [done|]. intros; simplify_eq/=; congruence.
  - intros [= <-]. simpl in Hl. congruence.
  - intros [= <-]. simpl in Hl. congruence.
  - unfold fence_job. by destruct (j_state (row_job r)).
  - subst r'. revert Hl. unfold restart_row. rewrite Hn, andb_false_r. congruence.
  - intros (_ & _ & ? & _)%resolve_landing_inv. done.
  - intros (_ & ?)%resolve_evidence_inv. done.
Qed.
End theorems.
