(* ===== verification/GateSchedule.v ===== *)
(** * Lanes, land slots and carrier sessions of the gate queue

    The scheduling passes of [GateQueue] against the queue's other steps: one
    job to a lane and one land to a project while one pass runs at a time, and
    what two passes do to each other; the sessions that dispatches are bound to
    across boots of the Hub; and what a requeued job remembers. *)
From stdpp Require Import base list gmap strings numbers pretty sorting relations.
From S2P Require Import Prelude GateLog GateQueue GateSafety.
Local Open Scope Z_scope.

(** ** Lanes and land slots *)

(** Two jobs that may not be under way together. *)
Definition clash (j1 j2 : GateJob) : Prop :=
  j_project j1 = j_project j2 ∧
  ((∃ l, j_lane_id j1 = Some l ∧ j_lane_id j2 = Some l) ∨ (j_mode j1 = Land ∧ j_mode j2 = Land)).
Definition exclusive (h : Hub) : Prop := ∀ id1 id2 r1 r2,
  h_jobs h !! id1 = Some r1 → h_jobs h !! id2 = Some r2 →
  occupies (row_job r1) = true → occupies (row_job r2) = true → clash (row_job r1) (row_job r2) → id1 = id2.

(** What a pass counts as taken covers the jobs under way, and what it has left
    to do was listed from rows of the table. *)
Definition covers (p : Pass) (h : Hub) : Prop := ∀ id r,
  h_jobs h !! id = Some r → occupies (row_job r) = true →
  (∀ l, j_lane_id (row_job r) = Some l → lane_key (j_project (row_job r)) l ∈ pass_busy p) ∧
  (j_mode (row_job r) = Land → j_project (row_job r) ∈ pass_lands p).
Definition listed (p : Pass) (h : Hub) : Prop := ∀ project pending id j,
  (project, pending) ∈ pass_todo p → (id, j) ∈ pending →
  ∃ r, h_jobs h !! id = Some r ∧ j_project (row_job r) = project ∧ j_mode (row_job r) = j_mode j.

(** Steps that claim nothing only give lanes back. *)
Definition releases (h h' : Hub) : Prop :=
  (∀ id r', h_jobs h' !! id = Some r' → occupies (row_job r') = true →
     ∃ r, h_jobs h !! id = Some r ∧ keeps (row_job r) (row_job r') ∧ occupies (row_job r) = true) ∧
  (∀ id r, h_jobs h !! id = Some r → ∃ r', h_jobs h' !! id = Some r' ∧
     j_project (row_job r') = j_project (row_job r) ∧ j_mode (row_job r') = j_mode (row_job r)).

Section lanes.
Context (encode : GateRunLog → result string LogError) (sha256_hex : string → string).

Lemma rtc_keeps r r' : rtc (row_step encode sha256_hex false) r r' → keeps (row_job r) (row_job r').
Proof.
  induction 1 as [|r1 r2 r3 H12 _ IH]; [apply keeps_refl|]. eapply keeps_trans; [|exact IH].
  by apply row_step_keeps in H12 as [?|[? _]].
Qed.
Lemma step_releases op h : is_dispatch op = false → releases h (gate_step encode sha256_hex op h).
Proof.
  intros Hd. pose proof (gate_step_rows encode sha256_hex false op h ltac:(congruence)) as Hs. split.
  - intros id r' Hr' Ho. specialize (Hs id). rewrite Hr' in Hs. destruct (h_jobs h !! id) as [r|].
    + exists r. split; [done|]. pose proof (rtc_keeps _ _ Hs) as Hk. split; [done|]. by apply Hk.
    + destruct Hs as (r & (Hq & _) & Hs). apply rtc_keeps in Hs as [_ Hs]. destruct (Hs Ho) as [Hx _].
      unfold row_state in Hq. unfold occupies in Hx. by rewrite Hq in Hx.
  - intros id r Hr. specialize (Hs id). rewrite Hr in Hs.
    destruct (h_jobs (gate_step encode sha256_hex op h) !! id) as [r'|]; [|done].
    exists r'. split; [done|]. by apply rtc_keeps in Hs as [(_ & -> & ->) _].
Qed.
Lemma releases_exclusive h h' : releases h h' → exclusive h → exclusive h'.
Proof.
  intros [Hr _] He id1 id2 r1 r2 H1 H2 O1 O2 [Hp Hc].
  destruct (Hr _ _ H1 O1) as (x1 & X1 & [(_ & P1 & M1) K1] & Y1), (Hr _ _ H2 O2) as (x2 & X2 & [(_ & P2 & M2) K2] & Y2).
  destruct (K1 O1) as [_ L1], (K2 O2) as [_ L2]. apply (He id1 id2 x1 x2); [done..|]. split; [congruence|].
  rewrite <- L1, <- L2, <- M1, <- M2. done.
Qed.
Lemma releases_covers p h h' : releases h h' → covers p h → covers p h'.
Proof.
  intros [Hr _] Hc id r Hi Ho. destruct (Hr _ _ Hi Ho) as (x & X & [(_ & P & M) K] & Y).
  destruct (K Ho) as [_ L]. destruct (Hc id x X Y) as [C1 C2]. rewrite P, M, L. done.
Qed.
Lemma releases_listed p h h' : releases h h' → listed p h → listed p h'.
Proof.
  intros [_ Hr] Hl project pending id j H1 H2. destruct (Hl _ _ _ _ H1 H2) as (r & Hi & <- & <-).
  destruct (Hr id r Hi) as (r' & Hi' & HP & HM). eauto.
Qed.

(** A pass begins with everything under way counted. *)
Lemma elem_of_list_gate_jobs h id j :
  (id, j) ∈ list_gate_jobs h ↔ ∃ r, h_jobs h !! id = Some r ∧ row_job r = j.
Proof.
  unfold list_gate_jobs. rewrite list_elem_of_fmap. setoid_rewrite merge_sort_Permutation. split.
  - intros ([id' r] & [= -> ->] & Hr). apply elem_of_map_to_list in Hr. eauto.
  - intros (r & Hr & <-). exists (id, r). split; [done|]. by apply elem_of_map_to_list.
Qed.
Lemma occupies_holds j : occupies j = true → holds_slot j = true.
Proof. unfold holds_slot, occupies. by intros ->. Qed.
Lemma begin_covers h : covers (begin_pass h) h.
Proof.
  intros id r Hr Ho. assert ((id, row_job r) ∈ list_gate_jobs h) as Hin by (apply elem_of_list_gate_jobs; eauto).
  apply occupies_holds in Ho. split.
  - intros l Hl. apply list_elem_of_omap. exists (id, row_job r). split; [done|]. simpl. by rewrite Ho, Hl.
  - intros Hm. apply list_elem_of_omap. exists (id, row_job r). split; [done|]. simpl. by rewrite Ho, Hm.
Qed.
Lemma begin_listed h : listed (begin_pass h) h.
Proof.
  intros project pending id j (x & [= <- ->] & _)%list_elem_of_fmap Hin. revert Hin. unfold pending_of.
  rewrite merge_sort_Permutation. intros [[_ <-] (r & Hr & <-)%elem_of_list_gate_jobs]%list_elem_of_filter. eauto.
Qed.

(** One round of a pass: it takes a lane that is free and, for a land, the slot
    of the project, or takes nothing. *)
Definition takes (p p' : Pass) (id : string) (lane : GateLane) : Prop := ∃ project pending j,
  (project, pending) ∈ pass_todo p ∧ (id, j) ∈ pending ∧
  lane_key project (lane_id lane) ∉ pass_busy p ∧ (j_mode j = Land → project ∉ pass_lands p) ∧
  pass_busy p' = lane_key project (lane_id lane) :: pass_busy p ∧
  pass_lands p' = if bool_decide (j_mode j = Land) then project :: pass_lands p else pass_lands p.
Lemma pick_lane_free lanes explicit project busy connected lane :
  pick_lane lanes explicit project busy connected = Some lane → lane_key project (lane_id lane) ∉ busy.
Proof.
  intros [_ Hb]%List.find_some. apply andb_true_iff in Hb as [Hb _]. apply andb_true_iff in Hb as [_ Hb].
  by apply negb_true_iff, bool_decide_eq_false in Hb.
Qed.
Lemma pass_job_does project connected p p' start :
  pass_job project connected p = (p', start) →
  (∀ h, listed p h → listed p' h) ∧
  match start with
  | None => pass_busy p' = pass_busy p ∧ pass_lands p' = pass_lands p
  | Some (id, lane) => takes p p' id lane
  end.
Proof.
  unfold pass_job. cbn zeta. destruct (pass_todo p) as [|[q [|[id j] more]] rest] eqn:Ht; [by intros [= <- <-]| |].
  { intros [= <- <-]. split; [|done]. intros h Hl project' pending id j Hin. apply (Hl project'). rewrite Ht. set_solver. }
  assert (∀ b l h, listed p h → listed (mkPass b l rest) h) as Hrest.
  { intros b l h Hl project' pending id' j' Hin. apply (Hl project'). rewrite Ht. simpl in Hin. set_solver. }
  assert (∀ b l h, listed p h → listed (mkPass b l ((q, more) :: rest)) h) as Hmore.
  { intros b l h Hl project' pending id' j' [[= -> ->]|Hin]%elem_of_cons Hj; [|by eapply (Hrest [] [])].
    apply (Hl q ((id, j) :: more)); [rewrite Ht; set_solver|set_solver]. }
  destruct project as [pr|]; [|intros [= <- <-]; eauto].
  destruct (bool_decide (p_lanes pr = [])); [intros [= <- <-]; eauto|].
  destruct (_ && _) eqn:Hland; [intros [= <- <-]; eauto|].
  destruct (pick_lane _ _ _ _ _) as [lane|] eqn:Hp; intros [= <- <-]; [|eauto]. split; [eauto|].
  exists q, ((id, j) :: more), j. rewrite Ht. split_and!; [set_solver..|by eapply pick_lane_free| |done|done].
  intros Hm Hin. by rewrite !bool_decide_true in Hland by done.
Qed.

(** The dispatch that follows it. *)
Lemma dispatch_exclusive a id lane p p' h :
  listed p h → covers p h → exclusive h → takes p p' id lane →
  exclusive (dispatch a id lane h) ∧ covers p' (dispatch a id lane h).
Proof.
  intros Hl Hc He (project & pending & j & H1 & H2 & Hb & Hm & Hb' & Hm').
  assert (covers p' h) as Hc'.
  { intros id' r Hr Ho. destruct (Hc _ _ Hr Ho) as [C1 C2]. rewrite Hb', Hm'. split; [set_solver|].
    intros Hx. case_bool_decide; set_solver. }
  destruct (Hl _ _ _ _ H1 H2) as (x & Hx & Hp & Hmode).
  destruct (dispatch_jobs a id lane h) as [Heq|(x' & y & Hx' & Heq & Hd)].
  { unfold exclusive, covers. by rewrite Heq. }
  assert (x' = x) as -> by congruence. destruct Hd as (_ & _ & Hst & Py & My & _ & Hrun).
  rewrite Hp in Py. rewrite Hmode in My.
  assert (occupies (row_job y) = true → j_lane_id (row_job y) = Some (lane_id lane)) as Hlane.
  { intros Ho. apply Hrun. destruct Hst as [?|Hst]; [done|]. unfold row_state in Hst. unfold occupies in Ho.
    by rewrite Hst in Ho. }
  assert (∀ id2 r2, h_jobs h !! id2 = Some r2 → occupies (row_job r2) = true → occupies (row_job y) = true →
    ¬ clash (row_job y) (row_job r2)) as Hfree.
  { intros id2 r2 Hr2 Ho2 Hoy [Hq Hcl]. destruct (Hc _ _ Hr2 Ho2) as [C1 C2]. rewrite Py in Hq. destruct Hcl as [(l & L1 & L2)|[L1 L2]].
    - rewrite Hlane in L1 by done. simplify_eq. apply Hb. rewrite Hq. by apply C1.
    - apply Hm; [congruence|]. rewrite Hq. by apply C2. }
  split.
  - intros id1 id2 r1 r2. rewrite Heq, !lookup_insert_Some. intros [[<- <-]|[N1 R1]] [[<- <-]|[N2 R2]] O1 O2 Hcl; try done.
    + by destruct (Hfree id2 r2).
    + destruct (Hfree id1 r1); [done..|]. destruct Hcl as [? Hcl]. split; [done|]. naive_solver.
    + by apply (He id1 id2 r1 r2).
  - intros id' r'. rewrite Heq, lookup_insert_Some. intros [[<- <-]|[N R]] Ho; [|by apply (Hc' id' r')].
    rewrite Py, My, Hb', Hm'. split.
    + intros l Hy. rewrite Hlane in Hy by done. simplify_eq. set_solver.
    + intros ->. rewrite bool_decide_true by done. set_solver.
Qed.

(** Runs whose passes do not overlap, and that dispatch through them only. *)
Local Abbreviation sched_step := (sched_step encode sha256_hex).
Local Abbreviation sched_run := (sched_run encode sha256_hex).
Fixpoint serial (ops : list SchedOp) (s : Scheduler) : Prop :=
  match ops with
  | [] => True
  | o :: rest =>
      match o with SBegin => sc_passes s = [] | SQueue op => is_dispatch op = false | SAdvance _ _ _ _ => True end ∧
      serial rest (sched_step o s)
  end.
Definition sched_ok (s : Scheduler) : Prop :=
  exclusive (sc_hub s) ∧
  (sc_passes s = [] ∨ ∃ p, sc_passes s = [p] ∧ covers p (sc_hub s) ∧ listed p (sc_hub s)).
Lemma unfinished_ok h p : exclusive h → covers p h → listed p h → sched_ok (mkScheduler h (unfinished p)).
Proof. intros He Hc Hl. split; [done|]. simpl. unfold unfinished. case_bool_decide; eauto. Qed.
Lemma dispatch_listed a id lane p h : listed p h → listed p (dispatch a id lane h).
Proof.
  intros Hl project pending id' j H1 H2. destruct (Hl _ _ _ _ H1 H2) as (r & Hr & Hp & Hm).
  destruct (dispatch_jobs a id lane h) as [->|(x & y & Hx & -> & (_ & _ & _ & Py & My & _))]; [eauto|].
  destruct (decide (id = id')) as [<-|Hne]; [|rewrite lookup_insert_ne by done; eauto].
  rewrite lookup_insert_eq. exists y. assert (x = r) as -> by congruence. split; [done|]. split; congruence.
Qed.
Lemma advance_ok n project connected a s : sched_ok s → sched_ok (sched_step (SAdvance n project connected a) s).
Proof.
  intros [He Hp]. simpl. destruct Hp as [Hp|(p & Hp & Hc & Hl)]; rewrite Hp; [by split; [|left]|].
  destruct n as [|n]; [|simpl; split; eauto]. simpl.
  destruct (pass_job project connected p) as [p' start] eqn:Hj. apply pass_job_does in Hj as [Hl' Hs].
  rewrite app_nil_r. destruct start as [[id lane]|].
  - destruct (dispatch_exclusive a id lane p p' (sc_hub s)) as [He' Hc']; [done..|].
    apply unfinished_ok; [done..|]. by apply dispatch_listed, Hl'.
  - destruct Hs as [Hb Hm]. apply unfinished_ok; [done| |by apply Hl'].
    unfold covers. rewrite Hb, Hm. done.
Qed.
Lemma serial_ok ops s : sched_ok s → serial ops s → sched_ok (sched_run ops s).
Proof.
  revert s. induction ops as [|o ops IH]; intros s Hs; [done|]. intros [Ho Hser]. apply IH; [|done]. clear IH Hser.
  destruct o as [op| |n project connected a]; [| |by apply advance_ok].
  - pose proof (step_releases op (sc_hub s) Ho) as Hr. destruct Hs as [He Hp]. split; [by eapply releases_exclusive|].
    destruct Hp as [?|(p & Hp & Hc & Hl)]; [by left|]. right. exists p.
    eauto using releases_covers, releases_listed.
  - destruct Hs as [He _]. simpl. rewrite Ho. apply unfinished_ok; [done|apply begin_covers|apply begin_listed].
Qed.
(** C32.  While scheduling passes do not overlap, a lane runs or lands at most one
    job at a time and a project lands at most one branch at a time: from any
    such table, through any interleaving of one pass after another with reports,
    grants, cancels, probes, restarts and resolutions. *)
Theorem lanes_and_lands_are_exclusive ops s :
  exclusive (sc_hub s) → sc_passes s = [] → serial ops s → exclusive (sc_hub (sched_run ops s)).
Proof. intros He Hp Hs. apply (serial_ok ops s); [split; auto|done]. Qed.
End lanes.

(** ** Sessions across boots *)

Lemma retained_ge h id r s :
  h_jobs h !! id = Some r → dispatch_session r = Some s → ∃ m, retained_session h = Some m ∧ s ≤ m.
Proof.
  revert id r s. unfold retained_session.
  apply (map_fold_weak_ind (λ o m, ∀ id r s, m !! id = Some r → dispatch_session r = Some s →
    ∃ t, o = Some t ∧ s ≤ t)); [intros id r s; by rewrite lookup_empty|].
  intros i x m o Hi IH id r s [[<- <-]|[_ Hr]]%lookup_insert_Some Hs.
  - rewrite Hs. destruct o as [t|]; eexists; split; [done|lia|done|lia].
  - destruct (IH _ _ _ Hr Hs) as (t & -> & Ht). destruct (dispatch_session x); eexists; (split; [done|lia]).
Qed.
Lemma pack_session_add boot counter :
  0 ≤ counter < 2 ^ 32 → pack_session boot counter = boot * 2 ^ 32 + counter.
Proof.
  intros Hc. unfold pack_session. rewrite Z.shiftl_mul_pow2 by lia. rewrite <- Z.add_lor_land.
  assert (Z.land (boot * 2 ^ 32) counter = 0) as Hl; [|lia].
  apply Z.bits_inj'. intros n Hn. rewrite Z.land_spec, Z.bits_0. destruct (decide (n < 32)).
  - by rewrite Z.mul_pow2_bits_low.
  - rewrite <- (Z.mod_small counter (2 ^ 32)) by lia. by rewrite Z.mod_pow2_bits_high, andb_false_r by lia.
Qed.
(**  The epoch a starting Hub takes for its carrier sessions is above every
    earlier one it stored and fits: every session it will hand out, for any
    counter of 32 bits, is above every session a row of the queue still holds
    and is a non-negative 64-bit integer, so a session of an earlier boot is never
    taken for one of this boot. *)
Theorem new_boot_outranks_every_retained_session h h' n counter :
  next_gate_session_boot_epoch h = Ok (h', n) → 0 ≤ counter < 2 ^ 32 →
  h_boot_epoch h' = Some n ∧ (∀ v, h_boot_epoch h = Some v → v < n) ∧ h_jobs h' = h_jobs h ∧
  0 ≤ pack_session n counter ≤ i64_max ∧ Z.shiftr (pack_session n counter) 32 = n ∧
  ∀ id r s, h_jobs h !! id = Some r → dispatch_session r = Some s → s < pack_session n counter.
Proof.
  intros Hn Hc.
  assert (h' = mkHub (h_jobs h) (h_objects h) (Some n) ∧ 1 ≤ n < 2 ^ 31 ∧
          (∀ v, h_boot_epoch h = Some v → v < n) ∧
          match retained_session h with Some s => session_epoch s < n | None => True end) as (-> & Hb & Hv & Hr).
  { revert Hn. unfold next_gate_session_boot_epoch, MAX_GATE_SESSION_BOOT_EPOCH. cbn zeta.
    destruct (retained_session h) as [s|]; destruct (h_boot_epoch h) as [v|];
      repeat case_match; intros; zhyps; simplify_eq; split_and!; try done; try lia; intros; simplify_eq; lia. }
  rewrite pack_session_add by done. split_and!; try done; try (unfold i64_max; lia).
  - rewrite Z.shiftr_div_pow2 by lia. rewrite Z.div_add_l by lia. rewrite Z.div_small by lia. lia.
  - intros id r s Hi Hs. destruct (retained_ge h id r s Hi Hs) as (m & Hm & Hle). rewrite Hm in Hr.
    destruct (decide (m < 0)); [lia|]. revert Hr. unfold session_epoch.
    rewrite Z.shiftr_div_pow2 by lia. case_match; zhyps; [pose proof (Z.div_pos m (2 ^ 32)); lia|].
    intros Hlt. pose proof (Z.div_mod m (2 ^ 32)). pose proof (Z.mod_pos_bound m (2 ^ 32)). lia.
Qed.
