(* ===== verification/GateExamples.v ===== *)
(** * Runs of the gate queue

    Concrete runs: the hypotheses of the theorems on the queue met at inputs
    where they hold, and the runs that show what overlapping passes, a restart
    and an ended session do to a job. *)
From stdpp Require Import base list gmap strings numbers pretty sorting relations.
From S2P Require Import Prelude GateLog GateQueue GateSafety GateSchedule.
Local Open Scope Z_scope.

(** The text stands for its own digest. *)
Definition ex_digest (s : string) : string := s.
Definition ex_hub : Hub := mkHub ∅ ∅ None.
Local Abbreviation run ops := (gate_run plain_encode ex_digest ops ex_hub).
Definition row_of (id : string) (h : Hub) : GateRow :=
  default (mkRow (new_job "" Verify None 0) None None None 0) (h_jobs h !! id).
Definition ex_lane (n : string) : GateLane := mkLane n "host" None (Some "lane-remote").
Definition ex_session : Z := 4294967297.
Definition ex_answers : DispatchAnswers := mkAnswers false AuthOk false true (Some ex_session) 1.
(** A land of branch [x] that runs on lane [L1], and one whose land is granted. *)
Definition ex_started : list GateOp :=
  [OpInsert "x" "p" Land None 0 true; OpDispatch ex_answers "x" (ex_lane "L1")].
Definition ex_granted : list GateOp := ex_started ++ [OpGrant "x" "host" 1 "epoch" "m1" ex_session 2].
Definition ex_result (generation : Z) (status : string) (l : option GateRunLog) : GateRunResult :=
  mkResult generation status [] (Some "b1") (Some "h1") (Some "m1") (Some "refs/remuda/gate/x") None None None None l.

Lemma ex_granted_state : row_state (row_of "x" (run ex_granted)) = Landing.
Proof. by vm_compute. Qed.

(** ** Witnesses *)

Lemma finished_witness : ∃ r', h_jobs (gate_run plain_encode ex_digest [OpRestart 9; OpDispatch ex_answers "x" (ex_lane "L1")]
    (run (ex_started ++ [OpFailRpc "x" 1 5 "lost"]))) !! "x" = Some r' ∧
  settled_doc r' = settled_doc (row_of "x" (run (ex_started ++ [OpFailRpc "x" 1 5 "lost"]))).
Proof. apply finished_job_never_changes; by vm_compute. Defined.

Lemma stale_witness : gate_step plain_encode ex_digest (OpFailRpc "x" 0 5 "lost") (run ex_started) = run ex_started.
Proof. apply (stale_attempt_changes_nothing _ _ _ _ "x" 0 (row_of "x" (run ex_started))); by vm_compute. Defined.

Lemma cancel_answer : request_gate_job_cancel "x" 3 true (run ex_started) =
  ((request_gate_job_cancel "x" 3 true (run ex_started)).1, Some CancelRequested).
Proof. by vm_compute. Qed.
Lemma started_row : h_jobs (run ex_started) !! "x" = Some (row_of "x" (run ex_started)).
Proof. by vm_compute. Qed.
Lemma cancel_witness :
  (gate_land_grant "x" "host" 1 "epoch" "m1" ex_session 4
     (gate_run plain_encode ex_digest [OpStep "x" 1 (mkStep "merge" "ok" None None)]
        (request_gate_job_cancel "x" 3 true (run ex_started)).1)).2 = Some (mkGrant false (Some "canceling") false) ∧
  granted (mkGrant false (Some "canceling") false) = false.
Proof.
  split; [by vm_compute|].
  apply (accepted_cancel_bars_the_land_grant plain_encode ex_digest (run ex_started)
    (request_gate_job_cancel "x" 3 true (run ex_started)).1 "x" 3 (row_of "x" (run ex_started))
    [OpStep "x" 1 (mkStep "merge" "ok" None None)] "host" "epoch" "m1" ex_session 4);
    [apply cancel_answer|apply started_row|by vm_compute|by vm_compute].
Defined.

Definition ex_captured : Captured :=
  mkCaptured (row_job (row_of "x" (run ex_granted))) (Some ex_session) (Some ex_session) None None false.
Definition ex_landed : GateOp := OpVerdict "x" ex_captured (ex_result 1 "landed" None) 7.
Lemma landing_witness : landing_authority ex_landed "x" (row_of "x" (run ex_granted)).
Proof.
  apply (landing_moves_only_on_established_facts plain_encode ex_digest ex_landed (run ex_granted) "x" (row_of "x" (run ex_granted))
    (row_of "x" (gate_step plain_encode ex_digest ex_landed (run ex_granted)))); by vm_compute.
Defined.
Lemma landed_witness : says_landed ex_landed "x" (row_of "x" (run ex_granted)).
Proof.
  apply (landed_only_when_reported plain_encode ex_digest ex_landed (run ex_granted) "x" (row_of "x" (run ex_granted))
    (row_of "x" (gate_step plain_encode ex_digest ex_landed (run ex_granted)))); by vm_compute.
Defined.

(** A verdict with its log, stored; and one whose log could not be stored. *)
Lemma log_witness : ∃ o d,
  j_log_object_id (row_job (row_of "x" (apply_result plain_encode ex_digest ∅ "x"
    (ex_result 1 "failed" (Some sample_log)) (Some ex_session) true true 8 (run ex_started)).1)) = Some o ∧
  h_objects (apply_result plain_encode ex_digest ∅ "x"
    (ex_result 1 "failed" (Some sample_log)) (Some ex_session) true true 8 (run ex_started)).1 !! o = Some d ∧
  (d = supplied_digest plain_encode ex_digest sample_log ∨
   ∃ bytes t, persisted_run_log_bytes plain_encode sample_log = Ok (bytes, t) ∧ d = ex_digest bytes).
Proof.
  apply (verdict_settles_only_with_its_log plain_encode ex_digest ∅ "x" (ex_result 1 "failed" (Some sample_log))
    (Some ex_session) true true 8 (run ex_started)); by vm_compute.
Defined.
Definition ex_parked : Hub :=
  (apply_result plain_encode ex_digest ∅ "x" (ex_result 1 "failed" (Some sample_log)) (Some ex_session) true false 8
     (run ex_started)).1.
Definition ex_resolution : GateOp := OpResolveEvidence "x" 1 None (Some "m1") false "op" "disk was full" 20.
Lemma parked_witness : parked_authority ex_resolution "x" (row_of "x" ex_parked).
Proof.
  apply (parked_job_waits_for_its_evidence plain_encode ex_digest ex_resolution ex_parked "x" (row_of "x" ex_parked)
    (row_of "x" (gate_step plain_encode ex_digest ex_resolution ex_parked))); by vm_compute.
Defined.

Lemma boot_epoch_answer : next_gate_session_boot_epoch (mkHub (h_jobs (run ex_started)) ∅ (Some 1)) =
  Ok (mkHub (h_jobs (run ex_started)) ∅ (Some 2), 2).
Proof. by vm_compute. Qed.
Lemma boot_witness : ex_session < pack_session 2 0.
Proof.
  apply (new_boot_outranks_every_retained_session (mkHub (h_jobs (run ex_started)) ∅ (Some 1))
    (mkHub (h_jobs (run ex_started)) ∅ (Some 2)) 2 0 boot_epoch_answer ltac:(lia)) with (id := "x")
    (r := row_of "x" (run ex_started)); [exact started_row|by vm_compute].
Defined.

(** ** Passes *)

Definition ex_project : option Project :=
  Some (mkProject [ex_lane "L1"; ex_lane "L2"] (Some "origin") (Some "host")).
Definition advance (n : nat) : SchedOp := SAdvance n ex_project (λ _, true) ex_answers.
Definition enqueue (id : string) (mode : GateMode) (at_ : Z) : SchedOp :=
  SQueue (OpInsert id "p" mode None at_ true).
Local Abbreviation passes ops := (sched_run plain_encode ex_digest ops (mkScheduler ex_hub [])).

(** Two lands and a verify: the second land waits, and holds the verify back. *)
Definition ex_serial : list SchedOp :=
  [enqueue "a" Land 0; enqueue "b" Land 1; enqueue "c" Verify 2; SBegin; advance 0;
   SQueue (OpGrant "a" "host" 1 "epoch" "m1" ex_session 3); advance 0; SBegin; advance 0].
Lemma ex_serial_ok : serial plain_encode ex_digest ex_serial (mkScheduler ex_hub []).
Proof. vm_compute. repeat split. Qed.
Lemma lanes_witness : exclusive (sc_hub (passes ex_serial)).
Proof.
  apply (lanes_and_lands_are_exclusive plain_encode ex_digest ex_serial (mkScheduler ex_hub []));
    [|reflexivity|apply ex_serial_ok].
  intros id1 id2 r1 r2 H. discriminate H.
Defined.
Lemma ex_serial_states :
  row_state (row_of "a" (sc_hub (passes ex_serial))) = Landing ∧
  row_state (row_of "b" (sc_hub (passes ex_serial))) = Queued ∧
  row_state (row_of "c" (sc_hub (passes ex_serial))) = Queued.
Proof. by vm_compute. Qed.

(** A pass lists the queue while [x] runs on the first lane; [x] ends, and the
    pass that this starts lists it too.  The first then gives [a] the second lane,
    the other finds [a] taken, and gives [b] that same lane. *)
Definition ex_overlap : list SchedOp :=
  [enqueue "x" Verify 0; SBegin; advance 0; advance 0; enqueue "a" Verify 1; enqueue "b" Verify 2;
   SBegin; SQueue (OpFailRpc "x" 1 3 "lost"); SBegin; advance 0; advance 1; advance 1].
Definition on_lane (id lane : string) (h : Hub) : bool :=
  match h_jobs h !! id with
  | Some r => occupies (row_job r) && bool_decide (j_project (row_job r) = "p") &&
              bool_decide (j_lane_id (row_job r) = Some lane)
  | None => false
  end.
Lemma on_lane_inv id lane h : on_lane id lane h = true →
  ∃ r, h_jobs h !! id = Some r ∧ occupies (row_job r) = true ∧ j_project (row_job r) = "p" ∧
       j_lane_id (row_job r) = Some lane.
Proof.
  unfold on_lane. destruct (h_jobs h !! id) as [r|]; [|done]. intros H. exists r.
  apply andb_true_iff in H as [H H3%bool_decide_eq_true]. by apply andb_true_iff in H as [H1 H2%bool_decide_eq_true].
Qed.
Lemma on_lane_exclusive id1 id2 lane h :
  on_lane id1 lane h = true → on_lane id2 lane h = true → id1 ≠ id2 → ¬ exclusive h.
Proof.
  intros (r1 & H1 & O1 & P1 & L1)%on_lane_inv (r2 & H2 & O2 & P2 & L2)%on_lane_inv Hne He.
  apply Hne, (He id1 id2 r1 r2 H1 H2 O1 O2). split; [congruence|]. left. eauto.
Qed.
Theorem overlapping_passes_share_a_lane : ¬ exclusive (sc_hub (passes ex_overlap)).
Proof. apply (on_lane_exclusive "a" "b" "L2"); [by vm_compute|by vm_compute|done]. Qed.

(** ** A push from the home host that is interrupted *)

(** The lane passed, and the home host was sent the merge to push. *)
Definition ex_projects : gmap string Project := {[ "p" := mkProject [ex_lane "L1"] (Some "origin") (Some "host") ]}.
Definition verdict (generation : Z) (h : Hub) : Hub * option GateJob :=
  apply_result plain_encode ex_digest ex_projects "x" (ex_result generation "passed" None) (Some ex_session) true true 5 h.
Definition ex_pushing : Hub := (mutate_gate_job "x" home_claim (verdict 1 (run ex_started)).1).1.
Lemma ex_pushing_state : row_state (row_of "x" ex_pushing) = Running ∧ j_home_land_in_flight (row_job (row_of "x" ex_pushing)) = true.
Proof. by vm_compute. Qed.

(** The Hub restarts during the push, and the job is requeued with the ref of
    its first attempt.  The verdict of the second attempt is then taken for the
    copy of one that was already handed over: the job stays running and nothing
    is sent to the home host. *)
Definition ex_second : Hub :=
  gate_run plain_encode ex_digest [OpDispatch ex_answers "x" (ex_lane "L1")] (reconcile 9 ex_pushing).
Theorem verdict_after_a_restart_is_taken_for_a_copy :
  row_attempts (row_of "x" ex_second) = 2 ∧ (verdict 2 ex_second).2 = None ∧
  row_state (row_of "x" (verdict 2 ex_second).1) = Running ∧
  j_home_land_in_flight (row_job (row_of "x" (verdict 2 ex_second).1)) = false.
Proof. by vm_compute. Qed.

(** The lane's session ends during the push: the job is requeued, and the home
    host's answer that main moved is dropped. *)
Theorem landed_answer_is_dropped_after_a_session_end :
  let h := recover_ended_session "host" ex_session 6 ex_pushing in
  let answer := mutate_gate_job "x" (home_done (mkLandResult "landed" None (Some "m1") None) false 7) h in
  answer.2 = None ∧ row_state (row_of "x" answer.1) = Queued.
Proof. by vm_compute. Qed.
