(* ===== verification/HubCommands.v ===== *)
(** * The Hub's command ledger and queue

    [remuda-hub/src/cmd_queue.rs], the command writers of [store.rs] and the
    forward of [http.rs]: a command is queued, forwarded to its Node at most
    once, and can be edited or withdrawn by its caller as long as it provably
    was not delivered.  A writer job of the database is one atomic step; a
    forward is split into its steps, and any other step may run between them.
    What the authority check, the fence tables and the Node answer is an
    argument of a step.  Payloads are JSON values ([Json.Value]), objects sorted
    by key as a [BTreeMap] keeps them. *)
From stdpp Require Import base list gmap strings numbers sorting.
From S2P Require Import Prelude Json.
Local Open Scope Z_scope.

(** ** Payloads *)

Abbreviation Fields := (list (string * Value)) (only parsing).
(** [Map::insert], [Map::remove]. *)
Fixpoint obj_insert (k : string) (v : Value) (l : Fields) : Fields :=
  match l with
  | [] => [(k, v)]
  | (k', v') :: r =>
      if decide (k' = k) then (k, v) :: r
      else if decide (String.le k k') then (k, v) :: l else (k', v') :: obj_insert k v r
  end.
Definition obj_remove (k : string) (l : Fields) : Fields := filter (λ p, p.1 ≠ k) l.
Definition get_str (v : Value) (k : string) : option string := json_get v k ≫= json_str.
Definition pointer2 (v : Value) (a b : string) : option Value := json_get v a ≫= λ x, json_get x b.
Definition is_string (v : option Value) : bool := match v with Some (VString _) => true | _ => false end.

(** [hub_written] of the queue, and [hub_written_send] of the forward. *)
Definition hub_written (payload : Value) : bool :=
  bool_decide (get_str payload "origin" = Some "hub"%string) ||
  bool_decide ((pointer2 payload "input" "origin" ≫= json_str) = Some "hub"%string).

(** [replace_send_text]. *)
Definition is_text_block (b : Value) : bool := bool_decide (get_str b "type" = Some "text"%string).
Definition text_block (t : string) : Value :=
  VObject [("text"%string, VString t); ("type"%string, VString "text")].
Fixpoint kept_blocks (index first : nat) (t : string) (bs : list Value) : list Value :=
  match bs with
  | [] => []
  | b :: r =>
      if bool_decide (index = first) then text_block t :: kept_blocks (S index) first t r
      else if is_text_block b then kept_blocks (S index) first t r
      else b :: kept_blocks (S index) first t r
  end.
Definition replace_key (k t : string) (o : Fields) : Fields * bool :=
  if is_string (assoc k o) then (obj_insert k (VString t) o, true) else (o, false).
Definition replace_blocks (t : string) (i : Fields) : Fields * bool :=
  match assoc "blocks" i with
  | Some (VArray bs) =>
      match position is_text_block bs with
      | Some first => (obj_insert "blocks" (VArray (kept_blocks 0 first t bs)) i, true)
      | None => (i, false)
      end
  | _ => (i, false)
  end.
Definition replace_input (t : string) (o : Fields) : Fields * bool :=
  match assoc "input" o with
  | Some (VString _) => (obj_insert "input" (VString t) o, true)
  | Some (VObject i) =>
      let '(i, f1) := replace_key "text" t i in
      let '(i, f2) := replace_blocks t i in
      (obj_insert "input" (VObject i) o, f1 || f2)
  | _ => (o, false)
  end.
Definition replace_send_text (payload : Value) (t : string) : Value * bool :=
  match payload with
  | VObject o =>
      let '(o, f1) := replace_key "text" t o in
      let '(o, f2) := replace_key "prompt" t o in
      let '(o, f3) := replace_input t o in
      (VObject o, f1 || f2 || f3)
  | _ => (payload, false)
  end.
(** [edit_queued]: the payload an edit stores. *)
Definition edit_text (payload : Value) (t : string) : Value :=
  let '(payload, found) := replace_send_text payload t in
  match payload with
  | VObject o => if found then payload else VObject (obj_insert "text" (VString t) o)
  | _ => payload
  end.
Definition edit_attachments (payload attachments : Value) : Value :=
  match payload with
  | VObject o =>
      match attachments with
      | VArray [] => VObject (obj_remove "attachments" o)
      | _ => VObject (obj_insert "attachments" attachments o)
      end
  | _ => payload
  end.
Definition edit_payload (payload : Value) (t : option string) (attachments : option Value) : Value :=
  let payload := match t with Some t => edit_text payload t | None => payload end in
  match attachments with Some a => edit_attachments payload a | None => payload end.

(** How the Node reads a send: [InstanceSendParams::prompt_text] of the
    protocol, then [prompt_of] of the WebSocket transport. *)
Fixpoint join_texts (out : string) (bs : list Value) : string :=
  match bs with
  | [] => out
  | b :: r =>
      match get_str b "text" with
      | Some t => join_texts (if bool_decide (out = "")%string then t
                              else out +:+ String (Ascii.ascii_of_nat 10) t)%string r
      | None => join_texts out r
      end
  end.
Definition join_text_blocks (blocks : option Value) : option string :=
  match blocks with
  | Some (VArray bs) =>
      let out := join_texts "" bs in if bool_decide (out = "")%string then None else Some out
  | _ => None
  end.
Definition prompt_text (params : Value) : option string :=
  let prompt := get_str params "prompt" in
  match json_get params "input" with
  | None | Some VNull => prompt
  | Some input =>
      match get_str input "text" with
      | Some t => Some t
      | None =>
          match json_str input with
          | Some t => Some t
          | None =>
              match join_text_blocks (json_get input "blocks") with Some t => Some t | None => prompt end
          end
      end
  end.
Definition or_else {A} (a b : option A) : option A := match a with Some _ => a | None => b end.
Definition prompt_of (params : Value) : option string :=
  match or_else (pointer2 params "initialInput" "text") (or_else (json_get params "prompt")
          (or_else (pointer2 params "spec" "prompt") (or_else (pointer2 params "input" "text")
          (json_get params "text")))) ≫= json_str with
  | Some t => Some t
  | None => join_text_blocks (pointer2 params "input" "blocks")
  end.
(** [send_from_params], when the parameters deserialise. *)
Definition node_prompt (params : Value) : string :=
  default ""%string (or_else (prompt_text params) (prompt_of params)).

(** ** Rows *)

(** The three states of a command, and how sure the Hub is of it. *)
Inductive CmdState : Type := CmdQueued | CmdAccepted | CmdSettled.
Inductive Resolution : Type := Clear | Unresolved | Reconciling.
#[export] Instance CmdState_eq_dec : EqDecision CmdState.
Proof. solve_decision. Defined.
#[export] Instance Resolution_eq_dec : EqDecision Resolution.
Proof. solve_decision. Defined.
Record HubInitiator : Type := mkHubInitiator {
  hi_instance : string;
  hi_lineage : string;
  hi_generation : Z;
}.
(** The columns of [commands]: what the row is, how far it went, what it says,
    and what a configure did. *)
Record CmdIdent : Type := mkIdent {
  id_instance : option string;
  id_host : string;
  id_operation : string;
  id_key : option string;
  id_initiator : option HubInitiator;
  id_queued_by : option string;
  id_created : Z;
}.
Record CmdProgress : Type := mkProgress {
  p_state : CmdState;
  p_resolution : Resolution;
  p_forwarded : bool;
  p_outcome : option string;
  p_reason : option string;
  p_withdrawn_by : option string;
  p_intent : option string;
  p_attempts : Z;
}.
Record CmdContent : Type := mkContent {
  t_payload : Value;
  t_original : option Value;
  t_revision : Z;
  t_memory_rev : option Z;
}.
Record CmdConfig : Type := mkConfig {
  g_prior : option (Fields * Fields);
  g_deferred : option string;
  g_resolved : bool;
}.
Record Cmd : Type := mkCmd {
  c_ident : CmdIdent;
  c_progress : CmdProgress;
  c_content : CmdContent;
  c_config : CmdConfig;
}.
Definition c_state (c : Cmd) : CmdState := p_state (c_progress c).
Definition c_forwarded (c : Cmd) : bool := p_forwarded (c_progress c).
Definition c_outcome (c : Cmd) : option string := p_outcome (c_progress c).
Definition c_payload (c : Cmd) : Value := t_payload (c_content c).
Definition c_revision (c : Cmd) : Z := t_revision (c_content c).
Definition with_progress (p : CmdProgress) (c : Cmd) : Cmd := mkCmd (c_ident c) p (c_content c) (c_config c).
Definition with_content (t : CmdContent) (c : Cmd) : Cmd := mkCmd (c_ident c) (c_progress c) t (c_config c).
Definition with_config (g : CmdConfig) (c : Cmd) : Cmd := mkCmd (c_ident c) (c_progress c) (c_content c) g.
(** [state = 'queued' AND forwarded = 0]. *)
Definition waiting (c : Cmd) : bool := bool_decide (c_state c = CmdQueued) && negb (c_forwarded c).
(** [state = 'settled', resolution = 'clear'] with an outcome. *)
Definition settle (outcome : string) (reason : option string) (c : Cmd) : Cmd :=
  let p := c_progress c in
  with_progress (mkProgress CmdSettled Clear (p_forwarded p) (Some outcome) reason (p_withdrawn_by p) (p_intent p)
                   (p_attempts p)) c.
Definition set_withdrawn_by (by_ : option string) (c : Cmd) : Cmd :=
  let p := c_progress c in
  with_progress (mkProgress (p_state p) (p_resolution p) (p_forwarded p) (p_outcome p) (p_reason p) by_ (p_intent p)
                   (p_attempts p)) c.
Definition set_intent (i : option string) (c : Cmd) : Cmd :=
  let p := c_progress c in
  with_progress (mkProgress (p_state p) (p_resolution p) (p_forwarded p) (p_outcome p) (p_reason p)
                   (p_withdrawn_by p) i (p_attempts p)) c.
Definition set_forwarded (b : bool) (r : Resolution) (c : Cmd) : Cmd :=
  let p := c_progress c in
  with_progress (mkProgress (p_state p) r b (p_outcome p) (p_reason p) (p_withdrawn_by p) (p_intent p)
                   (p_attempts p)) c.
Definition accept (c : Cmd) : Cmd :=
  let p := c_progress c in
  with_progress (mkProgress CmdAccepted Clear (p_forwarded p) None None (p_withdrawn_by p) (p_intent p)
                   (p_attempts p)) c.
Definition set_resolution (r : Resolution) (c : Cmd) : Cmd := set_forwarded (c_forwarded c) r c.
Definition set_memory_rev (r : option Z) (c : Cmd) : Cmd :=
  let t := c_content c in with_content (mkContent (t_payload t) (t_original t) (t_revision t) r) c.
(** [SET payload_json, revision, original_payload_json = COALESCE(...)]. *)
Definition set_payload (payload : Value) (revision : Z) (c : Cmd) : Cmd :=
  let t := c_content c in
  with_content (mkContent payload (Some (default (t_payload t) (t_original t))) revision (t_memory_rev t)) c.
Definition set_deferred (d : option string) (c : Cmd) : Cmd :=
  let g := c_config c in with_config (mkConfig (g_prior g) d (g_resolved g)) c.
Definition set_resolved (c : Cmd) : Cmd :=
  let g := c_config c in with_config (mkConfig (g_prior g) (g_deferred g) true) c.

(** The columns of [instances] the queue reads, with the memory revision of
    the lineage. *)
Record Inst : Type := mkInst {
  i_spec : option Fields;
  i_seq : Z;
  i_memory_seen : option Z;
  i_memory_rev : Z;
  i_driver : string;
  i_activity : string;
  i_held_input : bool;
}.
Record Ledger : Type := mkLedger {
  l_commands : gmap string Cmd;
  l_instances : gmap string Inst;
}.
Definition put_cmd (id : string) (c : Cmd) (l : Ledger) : Ledger :=
  mkLedger (<[id := c]> (l_commands l)) (l_instances l).
Definition put_inst (i : string) (x : Inst) (l : Ledger) : Ledger :=
  mkLedger (l_commands l) (<[i := x]> (l_instances l)).
(** [UPDATE commands SET ... WHERE id = ? AND ...]. *)
Definition update (id : string) (p : Cmd → bool) (f : Cmd → Cmd) (l : Ledger) : Ledger :=
  match l_commands l !! id with
  | Some c => if p c then put_cmd id (f c) l else l
  | None => l
  end.
Definition always (c : Cmd) : bool := true.

(** ** Queueing *)

Inductive StoreErr : Type :=
| SFenced | SReused | SUnknown | SOtherHost | SNotQueued | SConflict (revision : Z) | SGeneration (generation : Z).

(** [same_command_payload]: an edited row still answers to the payload it was
    first queued with. *)
Definition same_command_payload (c : Cmd) (payload : Value) : bool :=
  bool_decide (c_payload c = payload) || bool_decide (t_original (c_content c) = Some payload).
(** [load_command_by_key]. *)
Definition by_key (k : string) (l : Ledger) : option (string * Cmd) :=
  head (filter (λ ic, id_key (c_ident ic.2) = Some k) (map_to_list (l_commands l))).

(** [claim_change_line]: the first input queued after the lineage memory moved
    carries the line. *)
Definition claim_change_line (i id : string) (l : Ledger) : Ledger :=
  match l_instances l !! i with
  | Some x =>
      match i_memory_seen x with
      | Some seen =>
          if i_memory_rev x <=? seen then l
          else update id always (set_memory_rev (Some (i_memory_rev x)))
                 (put_inst i (mkInst (i_spec x) (i_seq x) (Some (i_memory_rev x)) (i_memory_rev x) (i_driver x)
                                (i_activity x) (i_held_input x)) l)
      | None => l
      end
  | None => l
  end.
(** [queue_command_by]; [authorized] is what [check_initiator] answers. *)
Definition new_cmd (ident : CmdIdent) (payload : Value) : Cmd :=
  mkCmd ident (mkProgress CmdQueued Clear false None None None None 0) (mkContent payload None 0 None)
    (mkConfig None None false).
Definition insert_cmd (id : string) (ident : CmdIdent) (payload : Value) (l : Ledger) : Ledger :=
  let l := put_cmd id (new_cmd ident payload) l in
  match id_instance ident with
  | Some i => if bool_decide (id_operation ident = "instance.send"%string) then claim_change_line i id l else l
  | None => l
  end.
Definition queue_command (authorized : bool) (given : option string) (fresh : string) (ident : CmdIdent)
    (payload : Value) (l : Ledger) : Ledger * result (string * bool) StoreErr :=
  let same c := same_command_payload c payload && bool_decide (id_operation (c_ident c) = id_operation ident) in
  if negb authorized then (l, Err SFenced)
  else
    match id_key ident ≫= λ k, by_key k l with
    | Some (id, c) =>
        if negb (same c) then (l, Err SReused)
        else if match given with Some g => negb (bool_decide (g = id)) | None => false end then (l, Err SReused)
        else (l, Ok (id, false))
    | None =>
        let id := default fresh given in
        match l_commands l !! id with
        | Some c =>
            if bool_decide (given = None) then (l, Err SReused)
            else if negb (same c) then (l, Err SReused)
            else
              match id_key ident with
              | None => (l, Ok (id, false))
              | Some k => if bool_decide (id_key (c_ident c) = Some k) then (l, Ok (id, false)) else (l, Err SReused)
              end
        | None => (insert_cmd id ident payload l, Ok (id, true))
        end
    end.

(** ** Forwarding *)

(** [mark_forward_intent_gated]; [Gate] is what [forward_waits], [host_gated]
    and the fence support of the host answer. *)
Record Gate : Type := mkGate { gate_waits : bool; gate_fence : bool; gate_lacks_fence : bool }.
Inductive ForwardMark : Type := Marked | AlreadyForwarded | HeldForFence | NodeLacksFence | HeldBehindInput.
Definition mark_forward_intent_gated (authorized : bool) (gate : Gate) (id : string) (l : Ledger)
    : Ledger * result ForwardMark StoreErr :=
  match l_commands l !! id with
  | None => (l, Err SUnknown)
  | Some c =>
      if negb authorized then (l, Err SFenced)
      else if c_forwarded c || negb (bool_decide (c_state c = CmdQueued)) then (l, Ok AlreadyForwarded)
      else if gate_waits gate then (l, Ok HeldBehindInput)
      else if gate_fence gate then (l, Ok HeldForFence)
      else if gate_lacks_fence gate then (l, Ok NodeLacksFence)
      else (put_cmd id (set_forwarded true Unresolved c) l, Ok Marked)
  end.
(** [release_intent]: the frame never reached the Node. *)
Definition in_flight (c : Cmd) : bool := bool_decide (c_state c = CmdQueued) && c_forwarded c.
Definition release_intent (fenced : bool) (id : string) (l : Ledger) : Ledger :=
  if fenced then update id in_flight (λ c, settle "rejected" (Some "fenced"%string) (set_forwarded false Clear c)) l
  else update id in_flight (set_forwarded false Clear) l.
(** [settle_not_delivered], [count_attempt], [release_hub_written]. *)
Definition RETRY_ATTEMPTS : Z := 10.
Definition settle_not_delivered (id : string) : Ledger → Ledger :=
  update id waiting (settle "rejected" (Some "not-delivered"%string)).
Definition add_attempt (c : Cmd) : Cmd :=
  let p := c_progress c in
  with_progress (mkProgress (p_state p) (p_resolution p) (p_forwarded p) (p_outcome p) (p_reason p)
                   (p_withdrawn_by p) (p_intent p) (p_attempts p + 1)) c.
Definition count_attempt (id : string) (l : Ledger) : Ledger :=
  match l_commands l !! id with
  | Some c =>
      if waiting c then
        let l := put_cmd id (add_attempt c) l in
        if RETRY_ATTEMPTS <=? p_attempts (c_progress c) + 1 then settle_not_delivered id l else l
      else l
  | None => l
  end.
Definition release_hub_written (fenced : bool) (id : string) (l : Ledger) : Ledger :=
  count_attempt id (release_intent fenced id l).

(** What an answer does: [mark_accepted], [reject_command_outcome],
    [mark_reconciling], [withhold_command]. *)
Definition queued (c : Cmd) : bool := bool_decide (c_state c = CmdQueued).
Definition mark_accepted (id : string) : Ledger → Ledger := update id queued accept.
Definition reject_command (id reason : string) : Ledger → Ledger :=
  update id queued (settle "rejected" (Some reason)).
Definition mark_reconciling (id : string) : Ledger → Ledger :=
  update id (λ c, queued c && bool_decide (p_resolution (c_progress c) = Unresolved)) (set_resolution Reconciling).
Definition withhold_command (id : string) : Ledger → Ledger :=
  update id queued (settle "withheld" (Some "fenced"%string)).
(** [mark_settled], [mark_settlement_timed_out],
    [settle_workspace_command_aborted]. *)
Definition unsettled (c : Cmd) : bool := negb (bool_decide (c_state c = CmdSettled)).
Definition mark_settled (id host : string) : Ledger → Ledger :=
  update id (λ c, bool_decide (id_host (c_ident c) = host) && unsettled c) (settle "completed" None).
Definition mark_settlement_timed_out (id : string) : Ledger → Ledger :=
  update id (λ c, bool_decide (c_state c = CmdAccepted) && bool_decide (p_resolution (c_progress c) = Clear))
    (set_resolution Unresolved).
Definition settle_aborted (id reason : string) : Ledger → Ledger := update id unsettled (settle "rejected" (Some reason)).
(** Step 4 of a fence: the held commands of the fenced generation. *)
Definition fenced_held (lineage : string) (g : Z) (c : Cmd) : bool :=
  waiting c && match id_initiator (c_ident c) with
               | Some i => bool_decide (hi_lineage i = lineage) && (hi_generation i <=? g)
               | None => false
               end.
Definition fence_held (lineage : string) (g : Z) (l : Ledger) : Ledger :=
  mkLedger ((λ c, if fenced_held lineage g c then settle "rejected" (Some "fenced"%string) c else c) <$> l_commands l)
    (l_instances l).

(** ** Withdrawing *)

(** [release_memory_line]. *)
Definition release_memory_line (i id : string) (l : Ledger) : Ledger :=
  match l_commands l !! id ≫= λ c, t_memory_rev (c_content c) with
  | Some rev =>
      let l := match l_instances l !! i with
               | Some x => if bool_decide (i_memory_seen x = Some rev)
                           then put_inst i (mkInst (i_spec x) (i_seq x) (Some (rev - 1)) (i_memory_rev x) (i_driver x)
                                              (i_activity x) (i_held_input x)) l
                           else l
               | None => l
               end in
      update id always (set_memory_rev None) l
  | None => l
  end.
(** [restore_configure]. *)
Fixpoint restore_fields (before set_ : Fields) (spec : Fields) : Fields * bool :=
  match set_ with
  | [] => (spec, false)
  | (k, v) :: r =>
      if bool_decide (assoc k spec = Some v) then
        let spec := match assoc k before with
                    | Some VNull | None => obj_remove k spec
                    | Some previous => obj_insert k previous spec
                    end in
        ((restore_fields before r spec).1, true)
      else restore_fields before r spec
  end.
Definition restore_configure (i id : string) (l : Ledger) : Ledger :=
  match l_commands l !! id ≫= λ c, g_prior (c_config c), l_instances l !! i with
  | Some (before, set_), Some x =>
      match i_spec x with
      | Some spec =>
          let '(spec, restored) := restore_fields before set_ spec in
          if restored then put_inst i (mkInst (Some spec) (i_seq x + 1) (i_memory_seen x) (i_memory_rev x) (i_driver x)
                                         (i_activity x) (i_held_input x)) l
          else l
      | None => l
      end
  | _, _ => l
  end.
(** [withdraw_queued]. *)
Definition withdraw_queued (id : string) (expected : option Z) (by_ : string) (l : Ledger)
    : Ledger * result Cmd StoreErr :=
  match l_commands l !! id with
  | None => (l, Err SNotQueued)
  | Some c =>
      if bool_decide (c_outcome c = Some "withdrawn"%string) then (l, Ok c)
      else if negb (waiting c) then (l, Err SNotQueued)
      else if match expected with Some e => negb (e =? c_revision c) | None => false end
      then (l, Err (SConflict (c_revision c)))
      else
        let l := put_cmd id (set_withdrawn_by (Some by_) (settle "withdrawn" None c)) l in
        let l := match id_instance (c_ident c) with
                 | Some i =>
                     let l := release_memory_line i id l in
                     if bool_decide (id_operation (c_ident c) = "instance.configure"%string)
                     then restore_configure i id l else l
                 | None => l
                 end in
        (l, match l_commands l !! id with Some c => Ok c | None => Err SNotQueued end)
  end.

(** A prompt the Node holds: [withdraw_on_node] before and after the call. *)
Definition mark_withdraw_intent (id by_ : string) (l : Ledger) : Ledger * bool :=
  (update id unsettled (set_intent (Some by_)) l,
   match l_commands l !! id with Some c => bool_decide (p_intent (c_progress c) ≠ None) | None => false end).
Definition clear_withdraw_intent (id : string) : Ledger → Ledger := update id unsettled (set_intent None).
Definition record_node_withdraw (id i by_ : string) (l : Ledger) : Ledger :=
  match l_commands l !! id with
  | Some c =>
      if unsettled c ||
         (bool_decide (c_outcome c = Some "cancelled"%string) &&
          bool_decide (default "withdrawn"%string (p_reason (c_progress c)) = "withdrawn"%string))
      then release_memory_line i id (put_cmd id (set_withdrawn_by (Some by_) (settle "withdrawn" None c)) l)
      else l
  | None => l
  end.

(** ** Editing *)

(** [edit_queued]. *)
Definition edit_queued (id : string) (expected : Z) (t : option string) (attachments : option Value) (l : Ledger)
    : Ledger * result Cmd StoreErr :=
  match l_commands l !! id with
  | None => (l, Err SNotQueued)
  | Some c =>
      if negb (waiting c) then (l, Err SNotQueued)
      else if negb (c_revision c =? expected) then (l, Err (SConflict (c_revision c)))
      else
        let c := set_payload (edit_payload (c_payload c) t attachments) (c_revision c + 1) c in
        (put_cmd id c l, Ok c)
  end.
(** [edit_on_node]: what the Hub records once the Node said [edited]; [row] is
    what it read before the call. *)
Definition record_node_edit (id i : string) (row : Cmd) (expected : Z) (t : string) (l : Ledger) : Ledger :=
  release_memory_line i id (update id always (set_payload (edit_text (c_payload row) t) (expected + 1)) l).

(** ** What the Node journals: [apply_command_projection] *)

Inductive NodeReport : Type :=
| ReportAccepted
| ReportSettled (outcome : option string) (message : option string) (not_dispatched : bool).
Definition OUTCOMES : list string :=
  ["completed"; "rejected"; "cancelled"; "expired"; "withheld"; "withdrawn"]%string.
Definition apply_command_projection (host i : string) (id : string) (r : NodeReport) (l : Ledger)
    : result Ledger StoreErr :=
  match l_commands l !! id with
  | None => Ok l
  | Some c =>
      if negb (bool_decide (id_host (c_ident c) = host)) || negb (bool_decide (id_instance (c_ident c) = Some i))
      then Err SOtherHost
      else
        match r with
        | ReportAccepted => Ok (mark_accepted id l)
        | ReportSettled outcome message not_dispatched =>
            let outcome := match outcome with
                           | Some o => if bool_decide (o ∈ OUTCOMES) then o else "completed"%string
                           | None => "completed"%string
                           end in
            let reason := if bool_decide (outcome = "rejected"%string) then message else None in
            let intent := if bool_decide (outcome = "cancelled"%string) && not_dispatched && unsettled c
                          then p_intent (c_progress c) else None in
            let l := if bool_decide (intent ≠ None) then release_memory_line i id l else l in
            let outcome := match intent with Some _ => "withdrawn"%string | None => outcome end in
            Ok (update id unsettled (λ c, set_withdrawn_by (or_else intent (p_withdrawn_by (c_progress c)))
                                            (settle outcome reason c)) l)
        end
  end.

(** ** Configures *)

(** [patch_instance_configure_for]; [expected] is the payload's
    [expectedGeneration] read as an integer, [effort] its effort normalised. *)
Definition CONFIG_KEYS : list string := ["model"; "effort"; "permissionMode"]%string.
Definition merge_configure (payload : Value) (effort : option Value) (spec : Fields) : Fields :=
  let spec := match or_else (json_get payload "model") (json_get payload "modelId") ≫= json_str with
              | Some m => if bool_decide (m = "")%string then spec else obj_insert "model" (VString m) spec
              | None => spec
              end in
  let spec := match effort with Some e => obj_insert "effort" e spec | None => spec end in
  match get_str payload "permissionMode" with
  | Some m => obj_insert "permissionMode" (VString m) spec
  | None => spec
  end.
Fixpoint configure_prior (keys : list string) (before after : Fields) : Fields * Fields :=
  match keys with
  | [] => ([], [])
  | k :: r =>
      let '(prior, set_) := configure_prior r before after in
      if bool_decide (assoc k before = assoc k after) then (prior, set_)
      else match assoc k after with
           | Some v => (obj_insert k (default VNull (assoc k before)) prior, obj_insert k v set_)
           | None => (prior, set_)
           end
  end.
Definition record_configure_prior (prior : Fields * Fields) (c : Cmd) : Cmd :=
  let g := c_config c in with_config (mkConfig (Some prior) (g_deferred g) (g_resolved g)) c.
Definition patch_instance_configure (i : string) (id : option string) (payload : Value) (effort : option Value)
    (expected : option Z) (l : Ledger) : Ledger * result Z StoreErr :=
  match l_instances l !! i with
  | None => (l, Err SUnknown)
  | Some x =>
      if match expected with Some e => negb (e =? i_seq x) | None => false end then (l, Err (SGeneration (i_seq x)))
      else
        match i_spec x with
        | None => (l, Ok (i_seq x))
        | Some before =>
            let after := merge_configure payload effort before in
            let l := match id with
                     | Some id => update id always (record_configure_prior (configure_prior CONFIG_KEYS before after)) l
                     | None => l
                     end in
            (put_inst i (mkInst (Some after) (i_seq x + 1) (i_memory_seen x) (i_memory_rev x) (i_driver x)
                           (i_activity x) (i_held_input x)) l, Ok (i_seq x + 1))
        end
  end.

(** [changes_effort], [changes_model], [changes_permission]. *)
Definition changes_effort (payload : Value) : bool :=
  existsb (λ k, match json_get payload k with Some VNull | None => false | Some _ => true end)
    ["effort"; "effortName"]%string.
Definition changes_model (payload : Value) : bool :=
  match or_else (json_get payload "model") (json_get payload "modelId") ≫= json_str with
  | Some m => negb (bool_decide (m = "")%string)
  | None => false
  end.
(** [defer_to_next_chapter], [defer_to_next_turn]. *)
Definition NEXT_TURN : string := "next-turn".
Definition NEXT_CHAPTER : string := "next-chapter".
Definition defer_to_next_chapter (id : string) (settle_ : bool) : Ledger → Ledger :=
  if settle_ then update id waiting (λ c, set_deferred (Some NEXT_CHAPTER) (settle "completed" None c))
  else update id always (set_deferred (Some NEXT_CHAPTER)).
Definition defer_to_next_turn (id : string) : Ledger → Ledger :=
  update id (λ c, bool_decide (g_deferred (c_config c) = None) && negb (g_resolved (c_config c)))
    (set_deferred (Some NEXT_TURN)).

(** [fold_effort_edge]: the configure whose request the edge names. *)
Definition effort_request (c : Cmd) : option string :=
  json_get (c_payload c) "effort" ≫= λ e, get_str e "requestId".
Definition effort_edge (i request : string) (c : Cmd) : bool :=
  bool_decide (id_instance (c_ident c) = Some i) &&
  bool_decide (id_operation (c_ident c) = "instance.configure"%string) &&
  bool_decide (effort_request c = Some request) && negb (g_resolved (c_config c)) &&
  bool_decide (default NEXT_TURN (g_deferred (c_config c)) = NEXT_TURN).
Definition fold_effort_edge (i request : string) (queued_ : bool) (l : Ledger) : Ledger :=
  mkLedger ((λ c, if effort_edge i request c
                  then (if queued_ then set_deferred (Some NEXT_TURN) c else set_resolved c) else c) <$> l_commands l)
    (l_instances l).
(** [fold_axis_edge]: the newest fifty unresolved configures of the instance
    that change the axis, newest first; [asks] reads what one asks of it. *)
Definition newer (a b : string * Cmd) : Prop :=
  id_created (c_ident b.2) < id_created (c_ident a.2) ∨
  (id_created (c_ident b.2) = id_created (c_ident a.2) ∧ String.le b.1 a.1).
#[export] Instance newer_dec : RelDecision newer.
Proof. intros a b. unfold newer. apply _. Defined.
Definition newest_first (l : Ledger) : list (string * Cmd) := merge_sort newer (map_to_list (l_commands l)).
Definition axis_open (i : string) (c : Cmd) : bool :=
  bool_decide (id_instance (c_ident c) = Some i) &&
  bool_decide (id_operation (c_ident c) = "instance.configure"%string) && negb (g_resolved (c_config c)) &&
  bool_decide (default "completed"%string (c_outcome c) = "completed"%string).
Definition axis_rows (i : string) (asks : Value → option string) (l : Ledger) : list (string * string * option string) :=
  omap (λ ic, (λ v, (ic.1, v, g_deferred (c_config ic.2))) <$> asks (c_payload ic.2))
    (take 50 (retain (λ ic, axis_open i ic.2) (newest_first l))).
Definition unresolved (c : Cmd) : bool := negb (g_resolved (c_config c)).
Definition fold_axis_edge (i : string) (asks : Value → option string) (value : string) (queued_ : bool) (l : Ledger)
    : Ledger :=
  let rows := axis_rows i asks l in
  if queued_ then
    match rows with
    | (id, v, d) :: _ =>
        if bool_decide (v = value) && bool_decide (default NEXT_TURN d = NEXT_TURN)
        then update id unresolved (set_deferred (Some NEXT_TURN)) l else l
    | [] => l
    end
  else
    let deferred := retain (λ r, bool_decide (r.2 = Some NEXT_TURN)) rows in
    let from := if bool_decide (value = "")%string then 0%nat
                else default 0%nat (position (λ r, bool_decide (r.1.2 = value)) deferred) in
    foldl (λ l r, update r.1.1 unresolved set_resolved l) l (drop from deferred).

(** ** Who sees what *)

Inductive Viewer : Type := ViewOwner | ViewDevice (device : string) | ViewAgent (instance lineage : string).
(** [visible], [held], [list_queued]. *)
Definition visible (v : Viewer) (c : Cmd) : bool :=
  negb (hub_written (c_payload c)) &&
  (bool_decide (id_operation (c_ident c) = "instance.send"%string) ||
   bool_decide (id_operation (c_ident c) = "instance.configure"%string)) &&
  match v with
  | ViewOwner => true
  | ViewDevice d => bool_decide (id_initiator (c_ident c) = None) && bool_decide (id_queued_by (c_ident c) = Some d)
  | ViewAgent i li =>
      match id_initiator (c_ident c) with
      | Some a => bool_decide (hi_instance a = i) || bool_decide (hi_lineage a = li)
      | None => false
      end
  end.
Inductive HeldAt : Type := HeldHub | HeldNode.
Definition held (c : Cmd) (node_holds : bool) : option HeldAt :=
  if waiting c then Some HeldHub
  else if bool_decide (c_state c = CmdAccepted) && bool_decide (id_operation (c_ident c) = "instance.send"%string) &&
          node_holds then Some HeldNode
  else None.
Definition HELD_INPUT_DRIVERS : list string := ["claude-pty"; "generic-pty"; "shell-pty"; "herdr-claimed"]%string.
Definition node_holds_input (l : Ledger) (c : Cmd) : bool :=
  match id_instance (c_ident c) ≫= λ i, l_instances l !! i with
  | Some x => bool_decide (i_driver x ∈ HELD_INPUT_DRIVERS) && i_held_input x
  | None => false
  end.
(** The rows of the query, before its limit. *)
Definition list_filter (v : Viewer) (instance : option string) (l : Ledger) (c : Cmd) : bool :=
  (bool_decide (id_operation (c_ident c) = "instance.send"%string) ||
   bool_decide (id_operation (c_ident c) = "instance.configure"%string)) &&
  (waiting c || (bool_decide (c_state c = CmdAccepted) &&
                 bool_decide (id_operation (c_ident c) = "instance.send"%string) && node_holds_input l c)) &&
  match instance with Some i => bool_decide (id_instance (c_ident c) = Some i) | None => true end &&
  match v with
  | ViewOwner => true
  | ViewDevice d => bool_decide (id_queued_by (c_ident c) = Some d)
  | ViewAgent i li => match id_initiator (c_ident c) with
                      | Some a => bool_decide (hi_instance a = i) || bool_decide (hi_lineage a = li)
                      | None => false
                      end
  end.
Definition list_queued (v : Viewer) (instance : option string) (limit : nat) (l : Ledger) : list (string * HeldAt) :=
  omap (λ ic, if visible v ic.2 then (λ h, (ic.1, h)) <$> held ic.2 (node_holds_input l ic.2) else None)
    (take limit (retain (λ ic, list_filter v instance l ic.2) (newest_first l))).

(** ** The forward and every other step *)

(** [hub_written_send]. *)
Definition hub_written_send (c : Cmd) : bool :=
  bool_decide (id_operation (c_ident c) = "instance.send"%string) &&
  bool_decide (get_str (c_payload c) "origin" = Some "hub"%string).

(** [forward_if_online] of one command: marked, then with the row it read again,
    then with its frame on the wire.  The leader slot lets one attempt of a
    command run at a time; [h_frames] records, for each frame that left, the
    stored payload it was made of (the Hub adds the command id, the initiator
    and the context of the chapter to it). *)
Inductive Phase : Type := AtMark | AtSend (payload : Value) | AtReply.
Record Hub : Type := mkHub {
  h_ledger : Ledger;
  h_attempts : gmap string Phase;
  h_frames : list (string * Value);
}.
Definition on_ledger (f : Ledger → Ledger) (h : Hub) : Hub := mkHub (f (h_ledger h)) (h_attempts h) (h_frames h).
Definition set_attempt (id : string) (p : option Phase) (h : Hub) : Hub :=
  mkHub (h_ledger h) (match p with Some p => <[id := p]> (h_attempts h) | None => delete id (h_attempts h) end)
    (h_frames h).
Inductive SendResult : Type := SendOut | SendNoLink | SendBusy.
Inductive Reply : Type := ReplyAccepted | ReplyRefused (reason : string) (fenced unknown : bool) | ReplyUnreadable
| ReplyLost.

Inductive HubOp : Type :=
| HumanOnly (id : string)
| Queue (authorized : bool) (given : option string) (fresh : string) (ident : CmdIdent) (payload : Value)
| Mark (id : string) (authorized : bool) (gate : Gate)
| ReadBack (id : string)
| Withhold (id : string)
| Send (id : string) (fenced : bool) (r : SendResult)
| Answer (id : string) (fenced : bool) (r : Reply)
| GiveUp (id : string)
| HubRestart
| Edit (id : string) (expected : Z) (t : option string) (attachments : option Value)
| Withdraw (id : string) (expected : option Z) (by_ : string)
| WithdrawIntent (id by_ : string)
| ClearIntent (id : string)
| NodeWithdrew (id i by_ : string)
| NodeEdited (id i : string) (row : Cmd) (expected : Z) (t : string)
| Project (host i id : string) (r : NodeReport)
| Settled (id host : string)
| TimedOut (id : string)
| Aborted (id reason : string)
| FenceHeld (lineage : string) (g : Z)
| CancelWaiting (id reason : string)
| RefreshNotice (id : string) (payload : Value)
| Configure (i : string) (id : option string) (payload : Value) (effort : option Value) (expected : option Z)
| DeferChapter (id : string) (settle_ : bool)
| DeferTurn (id : string)
| EffortEdge (i request : string) (queued_ : bool)
| AxisEdge (i : string) (asks : Value → option string) (value : string) (queued_ : bool).

(** [mark_forward_intent_gated] with what [forward_if_online] does with its
    answer. *)
Definition start_forward (id : string) (authorized : bool) (gate : Gate) (h : Hub) : Hub :=
  match h_attempts h !! id with
  | Some _ => h
  | None =>
      let '(l, r) := mark_forward_intent_gated authorized gate id (h_ledger h) in
      let h := mkHub l (h_attempts h) (h_frames h) in
      match r with
      | Ok Marked => set_attempt id (Some AtMark) h
      | Ok NodeLacksFence => on_ledger (reject_command id "node-lacks-fence") h
      | _ => h
      end
  end.
Definition row_hub_written (id : string) (l : Ledger) : bool :=
  match l_commands l !! id with Some c => hub_written_send c | None => false end.
(** The row is one of [operations] on an instance. *)
Definition row_is (operations : list string) (id : string) (l : Ledger) : bool :=
  match l_commands l !! id with
  | Some c => bool_decide (id_operation (c_ident c) ∈ operations) && bool_decide (id_instance (c_ident c) ≠ None)
  | None => false
  end.
Definition row_host (id : string) (l : Ledger) : string :=
  match l_commands l !! id with Some c => id_host (c_ident c) | None => ""%string end.
Definition end_send (id : string) (fenced : bool) (r : SendResult) (payload : Value) (h : Hub) : Hub :=
  match r with
  | SendOut => mkHub (h_ledger h) (<[id := AtReply]> (h_attempts h)) (h_frames h ++ [(id, payload)])
  | SendNoLink =>
      set_attempt id None (on_ledger (if row_hub_written id (h_ledger h) then release_hub_written fenced id
                                      else release_intent fenced id) h)
  | SendBusy =>
      set_attempt id None
        (if row_hub_written id (h_ledger h) then on_ledger (release_hub_written fenced id) h
         else if row_is ["instance.create"; "instance.resume"]%string id (h_ledger h) then h
         else on_ledger (reject_command id "node busy") h)
  end.
(** A refused create fails its instance and leaves its row. *)
Definition answer_effect (id : string) (fenced : bool) (r : Reply) (l : Ledger) : Ledger :=
  match r with
  | ReplyAccepted => mark_accepted id l
  | ReplyRefused reason owner_fenced unknown =>
      if unknown && row_is ["instance.close"; "instance.cancel"]%string id l then mark_settled id (row_host id l) l
      else if owner_fenced then
        if row_is ["instance.create"]%string id l then l else reject_command id "fenced" l
      else if row_hub_written id l then
        if unknown then reject_command id "instance-not-found" l else release_hub_written fenced id l
      else if row_is ["instance.create"]%string id l then l
      else reject_command id reason l
  | ReplyUnreadable => l
  | ReplyLost => mark_reconciling id l
  end.
(** A notice still in the queue is rendered again ([refresh_notice]). *)
Definition refresh_notice (id : string) (payload : Value) : Ledger → Ledger :=
  update id waiting (λ c, with_content (mkContent payload (t_original (c_content c)) (c_revision c)
                                          (t_memory_rev (c_content c))) c).

Definition hub_step (op : HubOp) (h : Hub) : Hub :=
  match op with
  | HumanOnly id => on_ledger (reject_command id "human-only") h
  | Queue ok given fresh ident payload => on_ledger (λ l, (queue_command ok given fresh ident payload l).1) h
  | Mark id ok gate => start_forward id ok gate h
  | ReadBack id =>
      match h_attempts h !! id, l_commands (h_ledger h) !! id with
      | Some AtMark, Some c => set_attempt id (Some (AtSend (c_payload c))) h
      | _, _ => h
      end
  | Withhold id =>
      match h_attempts h !! id with
      | Some (AtSend _) => set_attempt id None (on_ledger (withhold_command id) h)
      | _ => h
      end
  | Send id fenced r =>
      match h_attempts h !! id with Some (AtSend p) => end_send id fenced r p h | _ => h end
  | Answer id fenced r =>
      match h_attempts h !! id with
      | Some AtReply => set_attempt id None (on_ledger (answer_effect id fenced r) h)
      | _ => h
      end
  | GiveUp id => set_attempt id None h
  | HubRestart => mkHub (h_ledger h) ∅ (h_frames h)
  | Edit id e t a => on_ledger (λ l, (edit_queued id e t a l).1) h
  | Withdraw id e by_ => on_ledger (λ l, (withdraw_queued id e by_ l).1) h
  | WithdrawIntent id by_ => on_ledger (λ l, (mark_withdraw_intent id by_ l).1) h
  | ClearIntent id => on_ledger (clear_withdraw_intent id) h
  | NodeWithdrew id i by_ => on_ledger (record_node_withdraw id i by_) h
  | NodeEdited id i row e t =>
      match l_commands (h_ledger h) !! id with
      | Some c => if queued c then h else on_ledger (record_node_edit id i row e t) h
      | None => h
      end
  | Project host i id r =>
      match apply_command_projection host i id r (h_ledger h) with
      | Ok l => on_ledger (λ _, l) h
      | Err _ => h
      end
  | Settled id host => on_ledger (mark_settled id host) h
  | TimedOut id => on_ledger (mark_settlement_timed_out id) h
  | Aborted id reason => on_ledger (settle_aborted id reason) h
  | FenceHeld lineage g => on_ledger (fence_held lineage g) h
  | CancelWaiting id reason => on_ledger (update id waiting (settle "cancelled" (Some reason))) h
  | RefreshNotice id payload =>
      if row_hub_written id (h_ledger h) && bool_decide (get_str payload "origin" = Some "hub"%string)
      then on_ledger (refresh_notice id payload) h else h
  | Configure i id payload effort e => on_ledger (λ l, (patch_instance_configure i id payload effort e l).1) h
  | DeferChapter id s => on_ledger (defer_to_next_chapter id s) h
  | DeferTurn id => on_ledger (defer_to_next_turn id) h
  | EffortEdge i request q => on_ledger (fold_effort_edge i request q) h
  | AxisEdge i asks value q => on_ledger (fold_axis_edge i asks value q) h
  end.
Definition hub_run (ops : list HubOp) (h : Hub) : Hub := foldl (λ h op, hub_step op h) h ops.
