(* ===== verification/HubEdit.v ===== *)
(** * What an edit of a queued prompt says to the Node

    [replace_send_text] of [remuda-hub/src/cmd_queue.rs] against the reader of
    the Node ([node_prompt]): the fields of a payload an edit leaves alone, and
    the prompt the Node runs once the edited payload reaches it. *)
From stdpp Require Import base list gmap strings numbers.
From S2P Require Import Prelude Json HubCommands.
Local Open Scope Z_scope.

(** ** Objects *)

Lemma assoc_insert k v (o : list (string * Value)) k' :
  assoc k' (obj_insert k v o) = if decide (k = k') then Some v else assoc k' o.
Proof. induction o as [|[k1 v1] o IH]; simpl; repeat (case_decide; simpl); congruence. Qed.
Lemma assoc_insert_eq k v (o : list (string * Value)) : assoc k (obj_insert k v o) = Some v.
Proof. by rewrite assoc_insert, decide_True. Qed.
Lemma assoc_insert_ne k v (o : list (string * Value)) k' : k ≠ k' → assoc k' (obj_insert k v o) = assoc k' o.
Proof. intros H. by rewrite assoc_insert, decide_False. Qed.
Lemma assoc_remove k (o : list (string * Value)) k' :
  assoc k' (obj_remove k o) = if decide (k = k') then None else assoc k' o.
Proof.
  unfold obj_remove. induction o as [|[k1 v1] o IH]; [by case_decide|]. rewrite filter_cons. simpl.
  repeat (case_decide; simpl); simplify_eq; congruence.
Qed.

(** ** What an edit cannot change *)

(** Fields other than the ones the prompt is read from. *)
Definition prompt_key (k : string) : bool := bool_decide (k ∈ ["text"; "prompt"; "input"; "attachments"]%string).
Lemma replace_key_other k t o k' : k ≠ k' → assoc k' (replace_key k t o).1 = assoc k' o.
Proof. intros H. unfold replace_key. case_match; simpl; [by apply assoc_insert_ne|done]. Qed.
Lemma replace_input_other t o k' : k' ≠ "input"%string → assoc k' (replace_input t o).1 = assoc k' o.
Proof.
  intros H. unfold replace_input. destruct (assoc "input" o) as [[]|]; try done; [by apply assoc_insert_ne|].
  destruct (replace_key _ _ _) as [i f]. destruct (replace_blocks _ _) as [j f']. by apply assoc_insert_ne.
Qed.
Lemma edit_text_other p t k : prompt_key k = false → json_get (edit_text p t) k = json_get p k.
Proof.
  unfold prompt_key. intros Hk%bool_decide_eq_false. unfold edit_text, replace_send_text.
  destruct p as [| | | | |o]; try done. cbn [json_get].
  assert (assoc k (replace_input t (replace_key "prompt" t (replace_key "text" t o).1).1).1 = assoc k o) as H.
  { rewrite replace_input_other, !replace_key_other by set_solver. done. }
  destruct (replace_key "text" t o) as [o1 f1]. simpl in H. destruct (replace_key "prompt" t o1) as [o2 f2]. simpl in H.
  destruct (replace_input t o2) as [o3 f3]. simpl in *. destruct (_ || _); [done|].
  by rewrite assoc_insert_ne by set_solver.
Qed.
Lemma attachments_get p a k : k ≠ "attachments"%string → json_get (edit_attachments p a) k = json_get p k.
Proof.
  intros Hk. destruct p as [| | | | |o]; try done.
  destruct a as [| | | |[]|]; simpl; rewrite ?assoc_insert_ne, ?assoc_remove by done; by rewrite ?decide_False.
Qed.
Lemma edit_payload_other p t a k : prompt_key k = false → json_get (edit_payload p t a) k = json_get p k.
Proof.
  intros Hk. assert (k ≠ "attachments"%string) by (by intros ->).
  unfold edit_payload. destruct t, a; by rewrite ?attachments_get, ?edit_text_other.
Qed.
(** Who wrote a payload. *)
Definition origin (v : Value) : option string := get_str v "origin".
Lemma edit_origin p t a : origin (edit_payload p t a) = origin p.
Proof. unfold origin, get_str. by rewrite edit_payload_other. Qed.

(** ** What the Node reads *)

(** A send of the shapes the callers build: a prompt is text wherever it
    stands, and a block that says something is a text block. *)
Definition opt_string (v : option Value) : bool := match v with None | Some (VString _) => true | _ => false end.
Definition plain_block (b : Value) : bool := bool_decide (get_str b "text" = None) || is_text_block b.
Definition plain_blocks (v : option Value) : bool :=
  match v with None => true | Some (VArray bs) => forallb plain_block bs | _ => false end.
Definition plain_input (v : option Value) : bool :=
  match v with
  | None | Some VNull | Some (VString _) => true
  | Some (VObject i) => opt_string (assoc "text" i) && plain_blocks (assoc "blocks" i)
  | _ => false
  end.
Definition plain_send (p : Value) : bool :=
  match p with
  | VObject o =>
      bool_decide (assoc "initialInput" o = None) && bool_decide (assoc "spec" o = None) &&
      opt_string (assoc "text" o) && opt_string (assoc "prompt" o) && plain_input (assoc "input" o)
  | _ => false
  end.

Lemma kept_blocks_join t bs : ∀ first index out, forallb plain_block bs = true →
  join_texts out (kept_blocks index first t bs) =
  if decide (index ≤ first < index + length bs)%nat
  then join_texts out [text_block t] else out.
Proof.
  induction bs as [|b bs IH]; intros first index out H; [by rewrite decide_False by (simpl; lia)|].
  simpl in H. apply andb_true_iff in H as [Hb Hbs]. cbn [kept_blocks length].
  destruct (bool_decide (index = first)) eqn:Hi.
  - apply bool_decide_eq_true in Hi as ->. rewrite (decide_True (P := (_ ≤ _ < _)%nat)) by lia.
    cbn [join_texts]. replace (get_str (text_block t) "text") with (Some t) by done.
    by rewrite IH, decide_False by (done || lia).
  - apply bool_decide_eq_false in Hi. destruct (is_text_block b) eqn:Ht.
    + rewrite IH by done. apply decide_ext. lia.
    + unfold plain_block in Hb. rewrite Ht, orb_false_r in Hb. apply bool_decide_eq_true in Hb.
      cbn [join_texts]. rewrite Hb, IH by done. apply decide_ext. lia.
Qed.
Lemma no_text_join bs : ∀ out, forallb plain_block bs = true → position is_text_block bs = None → join_texts out bs = out.
Proof.
  induction bs as [|b bs IH]; intros out H Hp; [done|]. simpl in H, Hp. apply andb_true_iff in H as [Hb Hbs].
  destruct (is_text_block b) eqn:Ht; [done|]. unfold plain_block in Hb. rewrite Ht, orb_false_r in Hb.
  apply bool_decide_eq_true in Hb. simpl. rewrite Hb. apply IH; [done|]. by destruct (position is_text_block bs).
Qed.
(** The edited blocks: the new text, or none of the old one. *)
Lemma blocks_read t i : plain_blocks (assoc "blocks" i) = true →
  let '(i', found) := replace_blocks t i in
  assoc "text" i' = assoc "text" i ∧
  join_text_blocks (assoc "blocks" i') = if found && negb (bool_decide (t = ""%string)) then Some t else None.
Proof.
  unfold replace_blocks. destruct (assoc "blocks" i) as [[| | | |bs|]|] eqn:Hb; try done; [|by rewrite Hb].
  cbn [plain_blocks]. intros Hp. destruct (position is_text_block bs) as [first|] eqn:Hf.
  - rewrite assoc_insert_ne, assoc_insert_eq by done. split; [done|]. simpl.
    apply position_Some in Hf as (b & Hb' & _ & _). apply lookup_lt_Some in Hb'.
    rewrite kept_blocks_join, decide_True by (done || lia). simpl. by destruct (bool_decide (t = ""%string)) eqn:E.
  - rewrite Hb. simpl. rewrite no_text_join by done. by rewrite bool_decide_true.
Qed.
Lemma key_read k t o : opt_string (assoc k o) = true →
  let '(o', found) := replace_key k t o in
  assoc k o' = (if found then Some (VString t) else None) ∧ ∀ k', k' ≠ k → assoc k' o' = assoc k' o.
Proof.
  unfold replace_key. destruct (assoc k o) as [[]|] eqn:Hk; try done; intros _; simpl.
  rewrite assoc_insert_eq. split; [done|]. intros k' Hne. by apply assoc_insert_ne.
Qed.
(** Where an edited payload says the text [t]. *)
Definition says (t : string) (found : bool) : option Value := if found then Some (VString t) else None.
Definition input_says (t : string) (v : option Value) (found : bool) : Prop :=
  match v with
  | None | Some VNull => found = false
  | Some (VString s) => s = t ∧ found = true
  | Some (VObject i) => ∃ a b, assoc "text" i = says t a ∧ found = a || b ∧
      join_text_blocks (assoc "blocks" i) = if b && negb (bool_decide (t = ""%string)) then Some t else None
  | _ => False
  end.
Lemma input_read t o : plain_input (assoc "input" o) = true →
  input_says t (assoc "input" (replace_input t o).1) (replace_input t o).2.
Proof.
  unfold replace_input. destruct (assoc "input" o) as [[| | | | |i]|] eqn:Hi; try done; simpl.
  - intros _. by rewrite Hi.
  - intros _. by rewrite assoc_insert_eq.
  - intros [Ht Hb]%andb_true_iff. pose proof (key_read "text" t i Ht) as K. destruct (replace_key "text" t i) as [i1 a].
    destruct K as [K K']. rewrite <- K' in Hb by done. pose proof (blocks_read t i1 Hb) as B.
    destruct (replace_blocks t i1) as [i2 b]. destruct B as [B B']. simpl. rewrite assoc_insert_eq. exists a, b.
    split_and!; [by rewrite B, K|done|done].
  - intros _. by rewrite Hi.
Qed.
Lemma node_reads t o a b f :
  assoc "initialInput" o = None → assoc "spec" o = None → assoc "text" o = says t a → assoc "prompt" o = says t b →
  input_says t (assoc "input" o) f → a || b || f = true → node_prompt (VObject o) = t.
Proof.
  intros Hi Hs Ht Hp Hin Hf. unfold node_prompt, prompt_text, prompt_of, get_str, pointer2. cbn [json_get Value_json].
  rewrite Hi, Hs, Ht, Hp. cbn [mbind option_bind or_else].
  destruct (assoc "input" o) as [[| | |s| |i]|]; try done; simpl in Hin.
  - subst f. by destruct b, a.
  - destruct Hin as [-> _]. by destruct b, a.
  - destruct Hin as (x & y & Hx & -> & Hj). unfold get_str. cbn [json_get Value_json mbind option_bind]. rewrite Hx, Hj.
    destruct (bool_decide (t = ""%string)) eqn:E; [apply bool_decide_eq_true in E as ->|]; by destruct a, b, x, y.
  - subst f. by destruct b, a.
Qed.

(** Of a plain send the Node reads exactly the new text. *)
Lemma edit_text_reads p t : plain_send p = true → node_prompt (edit_text p t) = t.
Proof.
  destruct p as [| | | | |o]; try done. unfold plain_send, edit_text, replace_send_text.
  intros [[[[Hi%bool_decide_eq_true Hs%bool_decide_eq_true]%andb_true_iff Ht]%andb_true_iff Hp]%andb_true_iff
    Hin]%andb_true_iff.
  pose proof (key_read "text" t o Ht) as K1. destruct (replace_key "text" t o) as [o1 f1]. destruct K1 as [K1 K1'].
  rewrite <- (K1' "prompt"%string) in Hp by done.
  pose proof (key_read "prompt" t o1 Hp) as K2. destruct (replace_key "prompt" t o1) as [o2 f2]. destruct K2 as [K2 K2'].
  rewrite <- (K1' "input"%string), <- (K2' "input"%string) in Hin by done.
  pose proof (input_read t o2 Hin) as K3. pose proof (replace_input_other t o2) as K3'.
  destruct (replace_input t o2) as [o3 f3]. cbn [fst snd] in *.
  rewrite <- K2', <- K3' in K1 by done. rewrite <- K3' in K2 by done.
  rewrite <- K1', <- K2', <- K3' in Hi, Hs by done.
  destruct (f1 || f2 || f3) eqn:Hf; [by apply (node_reads t o3 f1 f2 f3)|].
  apply (node_reads t _ true f2 f3); rewrite ?assoc_insert_eq, ?assoc_insert_ne by done; done.
Qed.
(** Attachments are no part of the prompt. *)
Lemma attachments_reads p a : node_prompt (edit_attachments p a) = node_prompt p.
Proof. unfold node_prompt, prompt_text, prompt_of, get_str, pointer2. by rewrite !attachments_get. Qed.

(** C19. An edit is what the Node runs: of a plain send, whatever shape its
    prompt had, the Node reads exactly the new text once the edited payload
    reaches it, with the attachments replaced or not. *)
Theorem edit_is_what_the_node_reads p t a : plain_send p = true → node_prompt (edit_payload p (Some t) a) = t.
Proof.
  intros Hp. unfold edit_payload. destruct a; [rewrite attachments_reads|]; by apply edit_text_reads.
Qed.
Definition block_send : Value :=
  VObject [("input"%string, VObject [("blocks"%string, VArray
    [VObject [("kind"%string, VString "image")]; text_block "old"; text_block "more"])])].
Lemma edit_is_what_the_node_reads_witness :
  plain_send block_send = true ∧ node_prompt (edit_payload block_send (Some "new"%string) (Some (VArray []))) = "new"%string.
Proof. split; [vm_compute; reflexivity|]. apply edit_is_what_the_node_reads. vm_compute. reflexivity. Defined.

(** A block without a type is read by the Node and not replaced by the edit, so
    an edit that was acknowledged still delivers the old text. *)
Definition untyped_send : Value :=
  VObject [("input"%string, VObject [("blocks"%string, VArray [VObject [("text"%string, VString "old")]])])].
Theorem untyped_block_keeps_the_old_text : node_prompt (edit_text untyped_send "new") = "old"%string.
Proof. vm_compute. reflexivity. Qed.
