(* ===== verification/HubLedger.v ===== *)
(** * What the Hub's command queue guarantees

    Every step of [HubCommands] changes what there is of one command, its row,
    its forward attempt and its frames, by a step of [vstep]; the theorems
    follow by induction over them, for every interleaving of callers, forwards,
    Nodes and restarts. *)
From stdpp Require Import base list gmap strings numbers sorting relations.
From S2P Require Import Prelude Json HubCommands HubEdit.
Local Open Scope Z_scope.

(** ** Rows *)

Definition rank (s : CmdState) : nat := match s with CmdQueued => 0 | CmdAccepted => 1 | CmdSettled => 2 end.
(** A settlement that stands; a cancelled prompt may still turn out withdrawn. *)
Definition stands (p p' : CmdProgress) : Prop :=
  p_state p = CmdSettled →
  p_outcome p' = p_outcome p ∨ (p_outcome p = Some "cancelled"%string ∧ p_outcome p' = Some "withdrawn"%string).
(** The payload a row was queued with. *)
Definition first_payload (c : Cmd) : Value := default (c_payload c) (t_original (c_content c)).
(** Changes that leave the forward alone: the row goes forward only, and keeps
    what it says. *)
Record quiet (c c' : Cmd) : Prop := {
  q_ident : c_ident c' = c_ident c;
  q_forwarded : c_forwarded c' = c_forwarded c;
  q_rank : (rank (c_state c) ≤ rank (c_state c'))%nat;
  q_stands : stands (c_progress c) (c_progress c');
  q_outcome : c_state c' = CmdQueued → c_outcome c' = c_outcome c;
  q_payload : c_payload c' = c_payload c;
  q_first : first_payload c' = first_payload c;
}.
Lemma quiet_refl c : quiet c c.
Proof. split; try done. by left. Qed.
Lemma rank_settled c c' : (rank (c_state c) ≤ rank (c_state c'))%nat → c_state c = CmdSettled → c_state c' = CmdSettled.
Proof. intros H Hs. rewrite Hs in H. destruct (c_state c'); simpl in H; [lia..|done]. Qed.
Lemma rank_queued c c' : (rank (c_state c) ≤ rank (c_state c'))%nat → c_state c' = CmdQueued → c_state c = CmdQueued.
Proof. intros H Hs. rewrite Hs in H. destruct (c_state c); simpl in H; [done|lia..]. Qed.
Lemma stands_trans c1 c2 c3 :
  (rank (c_state c1) ≤ rank (c_state c2))%nat →
  stands (c_progress c1) (c_progress c2) → stands (c_progress c2) (c_progress c3) →
  stands (c_progress c1) (c_progress c3).
Proof.
  intros Hr H1 H2 Hs. pose proof (rank_settled _ _ Hr Hs) as Hs2. destruct (H1 Hs) as [E1|[E1 E1']], (H2 Hs2) as [E2|[E2 E2']];
    [left; congruence|right; split; congruence|right; split; congruence|congruence].
Qed.
Lemma quiet_trans c1 c2 c3 : quiet c1 c2 → quiet c2 c3 → quiet c1 c3.
Proof.
  intros [A1 A2 A3 A4 A5 A6 A7] [B1 B2 B3 B4 B5 B6 B7]. split; try congruence; [lia|by eapply stands_trans|].
  intros Hq. rewrite B5 by done. apply A5. by eapply rank_queued.
Qed.

(** ** Ledgers *)

Definition quiet_ledger (l l' : Ledger) : Prop := ∀ id,
  match l_commands l !! id, l_commands l' !! id with
  | Some c, Some c' => quiet c c'
  | None, None => True
  | _, _ => False
  end.
Lemma quiet_row l l' id c : quiet_ledger l l' → l_commands l !! id = Some c → ∃ d, l_commands l' !! id = Some d ∧ quiet c d.
Proof. intros H Hc. specialize (H id). rewrite Hc in H. destruct (l_commands l' !! id) as [d|]; [eauto|done]. Qed.
Lemma ledger_refl l : quiet_ledger l l.
Proof. intros id. destruct (l_commands l !! id); [apply quiet_refl|done]. Qed.
Lemma ledger_same l l' : l_commands l' = l_commands l → quiet_ledger l l'.
Proof. intros H id. rewrite H. apply ledger_refl. Qed.
Lemma ledger_trans l1 l2 l3 : quiet_ledger l1 l2 → quiet_ledger l2 l3 → quiet_ledger l1 l3.
Proof.
  intros H1 H2 id. specialize (H1 id). specialize (H2 id).
  destruct (l_commands l1 !! id), (l_commands l2 !! id), (l_commands l3 !! id); try done. by eapply quiet_trans.
Qed.
Lemma ledger_put_inst l l' i x : quiet_ledger l l' → quiet_ledger l (put_inst i x l').
Proof. intros H. exact H. Qed.
Lemma ledger_fmap l f : (∀ c, quiet c (f c)) → quiet_ledger l (mkLedger (f <$> l_commands l) (l_instances l)).
Proof. intros Hf id. simpl. rewrite lookup_fmap. destruct (l_commands l !! id); simpl; [apply Hf|done]. Qed.
Lemma update_lookup id p f l id' :
  l_commands (update id p f l) !! id' =
  if decide (id = id') then (λ c, if p c : bool then f c else c) <$> l_commands l !! id' else l_commands l !! id'.
Proof.
  unfold update. destruct (decide (id = id')) as [<-|Hne].
  - destruct (l_commands l !! id) as [c|] eqn:Hc; simpl; [|by rewrite Hc]. destruct (p c); simpl; [|by rewrite Hc].
    by rewrite lookup_insert_eq.
  - destruct (l_commands l !! id) as [c|]; [|done]. destruct (p c); [|done]. simpl. by rewrite lookup_insert_ne.
Qed.
Lemma ledger_update id p f l : (∀ c, p c = true → quiet c (f c)) → quiet_ledger l (update id p f l).
Proof.
  intros Hf id'. rewrite update_lookup. destruct (decide (id = id')) as [<-|]; [|apply ledger_refl].
  destruct (l_commands l !! id) as [c|]; [|done]. simpl. destruct (p c) eqn:Hp; [by apply Hf|apply quiet_refl].
Qed.
Lemma ledger_put id c c' l : l_commands l !! id = Some c → quiet c c' → quiet_ledger l (put_cmd id c' l).
Proof.
  intros Hc Hq id'. simpl. destruct (decide (id = id')) as [<-|Hne].
  - by rewrite Hc, lookup_insert_eq.
  - rewrite lookup_insert_ne by done. apply ledger_refl.
Qed.
Lemma ledger_foldl {A} (f : Ledger → A → Ledger) k l : (∀ l x, quiet_ledger l (f l x)) → quiet_ledger l (foldl f l k).
Proof.
  intros Hf. revert l. induction k as [|x k IH]; intros l; [apply ledger_refl|].
  eapply ledger_trans; [apply Hf|apply IH].
Qed.

(** The elementary changes. *)
Lemma waiting_queued c : waiting c = true → c_state c = CmdQueued ∧ c_forwarded c = false.
Proof.
  unfold waiting. intros H. apply andb_true_iff in H as [H%bool_decide_eq_true H'%negb_true_iff]. done.
Qed.
Lemma quiet_settle c o r : c_state c ≠ CmdSettled → quiet c (settle o r c).
Proof. intros Hs. split; try done; [destruct (c_state c); simpl; lia|]. intros H. by destruct Hs. Qed.
Lemma quiet_withdrawn_by c b : quiet c (set_withdrawn_by b c).
Proof. split; try done. by left. Qed.
Lemma quiet_intent c b : quiet c (set_intent b c).
Proof. split; try done. by left. Qed.
Lemma quiet_accept c : c_state c = CmdQueued → quiet c (accept c).
Proof. intros Hs. split; try done; [rewrite Hs; simpl; lia|]. intros H. unfold c_state in Hs. congruence. Qed.
Lemma quiet_resolution c r : quiet c (set_resolution r c).
Proof. split; try done. by left. Qed.
Lemma quiet_memory_rev c r : quiet c (set_memory_rev r c).
Proof. split; try done. by left. Qed.
Lemma quiet_deferred c d : quiet c (set_deferred d c).
Proof. split; try done. by left. Qed.
Lemma quiet_resolved c : quiet c (set_resolved c).
Proof. split; try done. by left. Qed.
Lemma quiet_prior c p : quiet c (record_configure_prior p c).
Proof. split; try done. by left. Qed.
Lemma settled_dec c : unsettled c = true ↔ c_state c ≠ CmdSettled.
Proof. unfold unsettled. by rewrite negb_true_iff, bool_decide_eq_false. Qed.
Lemma queued_dec c : queued c = true ↔ c_state c = CmdQueued.
Proof. unfold queued. by rewrite bool_decide_eq_true. Qed.
Create HintDb hubq.
#[local] Hint Resolve quiet_refl quiet_settle quiet_withdrawn_by quiet_intent quiet_accept quiet_resolution
  quiet_memory_rev quiet_deferred quiet_resolved quiet_prior : hubq.
(** A guarded update whose guard rules out settled rows, or is not needed. *)
Ltac quiet_update :=
  apply ledger_update; let c := fresh "c" in let Hp := fresh "Hp" in intros c Hp;
  first [ apply settled_dec in Hp | apply queued_dec in Hp | apply waiting_queued in Hp as [Hp _]
        | apply andb_true_iff in Hp as [_ Hp%settled_dec] | idtac ];
  eauto with hubq; try (apply quiet_settle; congruence).

Lemma quiet_release_memory i id l : quiet_ledger l (release_memory_line i id l).
Proof.
  unfold release_memory_line. case_match; [|apply ledger_refl].
  eapply ledger_trans; [|by quiet_update]. apply ledger_same. by repeat case_match.
Qed.
Lemma restore_commands i id l : l_commands (restore_configure i id l) = l_commands l.
Proof. unfold restore_configure. by repeat case_match. Qed.
(** What a withdrawal gives back: the memory line and the configuration. *)
Lemma quiet_unwind (c : Cmd) id l :
  quiet_ledger l (match id_instance (c_ident c) with
                  | Some i => let l := release_memory_line i id l in
                      if bool_decide (id_operation (c_ident c) = "instance.configure"%string)
                      then restore_configure i id l else l
                  | None => l
                  end).
Proof.
  destruct (id_instance (c_ident c)); [|apply ledger_refl]. cbn zeta. destruct (bool_decide _); [|apply quiet_release_memory].
  eapply ledger_trans; [apply quiet_release_memory|]. apply ledger_same, restore_commands.
Qed.
Lemma quiet_withdraw id e by_ l : quiet_ledger l (withdraw_queued id e by_ l).1.
Proof.
  unfold withdraw_queued. destruct (l_commands l !! id) as [c|] eqn:Hc; [|apply ledger_refl].
  destruct (bool_decide _); [apply ledger_refl|]. destruct (waiting c) eqn:Hw; [|apply ledger_refl]. cbn [negb].
  destruct (match e with Some e => _ | None => _ end); [apply ledger_refl|].
  apply waiting_queued in Hw as [Hw _]. cbn [fst].
  eapply ledger_trans; [eapply (ledger_put id c); [done|]|].
  { eapply quiet_trans; [apply quiet_settle; congruence|apply quiet_withdrawn_by]. }
  apply quiet_unwind.
Qed.
Lemma quiet_node_withdraw id i by_ l : quiet_ledger l (record_node_withdraw id i by_ l).
Proof.
  unfold record_node_withdraw. destruct (l_commands l !! id) as [c|] eqn:Hc; [|apply ledger_refl].
  destruct (_ || _) eqn:Hg; [|apply ledger_refl].
  eapply ledger_trans; [|apply quiet_release_memory]. eapply ledger_put; [done|].
  eapply quiet_trans; [|apply quiet_withdrawn_by]. apply orb_true_iff in Hg as [Hg%settled_dec|Hg].
  - by apply quiet_settle.
  - apply andb_true_iff in Hg as [Hg%bool_decide_eq_true _]. split; try done.
    + simpl. destruct (c_state c); simpl; lia.
    + intros _. right. done.
Qed.
Lemma quiet_project host i id r l l' : apply_command_projection host i id r l = Ok l' → quiet_ledger l l'.
Proof.
  unfold apply_command_projection. destruct (l_commands l !! id) as [c|] eqn:Hc; [|intros [= <-]; apply ledger_refl].
  case_match; [done|]. destruct r; intros [= <-]; [quiet_update|].
  eapply ledger_trans; [|apply ledger_update; intros c' Hc'%settled_dec;
    eapply quiet_trans; [by apply quiet_settle|apply quiet_withdrawn_by]]. case_match; [apply quiet_release_memory|apply ledger_refl].
Qed.
Lemma quiet_configure i id payload effort e l : quiet_ledger l (patch_instance_configure i id payload effort e l).1.
Proof.
  unfold patch_instance_configure. destruct (l_instances l !! i) as [x|]; [|apply ledger_refl].
  destruct (match e with Some e => _ | None => _ end); [apply ledger_refl|].
  destruct (i_spec x) as [before|]; [|apply ledger_refl]. cbn [fst].
  apply ledger_put_inst. destruct id as [id|]; [quiet_update|apply ledger_refl].
Qed.
Lemma quiet_axis_edge i asks value q l : quiet_ledger l (fold_axis_edge i asks value q l).
Proof.
  unfold fold_axis_edge. cbn zeta. destruct q.
  - repeat case_match; try apply ledger_refl; quiet_update.
  - apply ledger_foldl. intros l' r. quiet_update.
Qed.
Lemma quiet_count_attempt id l : quiet_ledger l (count_attempt id l).
Proof.
  unfold count_attempt. destruct (l_commands l !! id) as [c|] eqn:Hc; [|apply ledger_refl].
  destruct (waiting c); [|apply ledger_refl]. cbn zeta.
  assert (quiet_ledger l (put_cmd id (add_attempt c) l)) as H.
  { eapply ledger_put; [done|]. split; try done. by left. }
  destruct (_ <=? _); [|done]. eapply ledger_trans; [done|]. unfold settle_not_delivered. quiet_update.
Qed.
Lemma quiet_claim i id l : quiet_ledger l (claim_change_line i id l).
Proof.
  unfold claim_change_line. destruct (l_instances l !! i) as [x|]; [|apply ledger_refl].
  destruct (i_memory_seen x) as [seen|]; [|apply ledger_refl]. destruct (_ <=? _); [apply ledger_refl|].
  eapply ledger_trans; [by apply ledger_put_inst, ledger_refl|]. quiet_update.
Qed.
Lemma quiet_insert id ident payload l :
  quiet_ledger (put_cmd id (new_cmd ident payload) l) (insert_cmd id ident payload l).
Proof.
  unfold insert_cmd. destruct (id_instance ident); [|apply ledger_refl]. destruct (bool_decide _); [|apply ledger_refl].
  apply quiet_claim.
Qed.

(** ** One command *)

Definition frames_of (id : string) (h : Hub) : list Value := (filter (λ f, f.1 = id) (h_frames h)).*2.
Record View : Type := mkView { v_row : option Cmd; v_phase : option Phase; v_frames : list Value }.
Definition view (id : string) (h : Hub) : View :=
  mkView (l_commands (h_ledger h) !! id) (h_attempts h !! id) (frames_of id h).
(** What a step may do to a command; an edit only where [e] says so, a new row
    only where [n] does. *)
Inductive vstep (e : bool) (n : option CmdIdent) : View → View → Prop :=
| v_quiet c c' ph fr : quiet c c' → vstep e n (mkView (Some c) ph fr) (mkView (Some c') ph fr)
| v_new ident p fr : n = Some ident → vstep e n (mkView None None fr) (mkView (Some (new_cmd ident p)) None fr)
| v_orphan ident p ph fr : n = Some ident → vstep e n (mkView None (Some ph) fr) (mkView (Some (new_cmd ident p)) (Some ph) fr)
| v_mark c fr : waiting c = true →
    vstep e n (mkView (Some c) None fr) (mkView (Some (set_forwarded true Unresolved c)) (Some AtMark) fr)
| v_read c fr : vstep e n (mkView (Some c) (Some AtMark) fr) (mkView (Some c) (Some (AtSend (c_payload c))) fr)
| v_out r p fr : vstep e n (mkView r (Some (AtSend p)) fr) (mkView r (Some AtReply) (fr ++ [p]))
| v_drop r ph fr : vstep e n (mkView r ph fr) (mkView r None fr)
| v_unsent c p fr : in_flight c = true →
    vstep e n (mkView (Some c) (Some (AtSend p)) fr) (mkView (Some (set_forwarded false Clear c)) None fr)
| v_refused c fr : in_flight c = true → hub_written_send c = true →
    vstep e n (mkView (Some c) (Some AtReply) fr) (mkView (Some (set_forwarded false Clear c)) None fr)
| v_edit c t a ph fr : e = true → waiting c = true →
    vstep e n (mkView (Some c) ph fr)
      (mkView (Some (set_payload (edit_payload (c_payload c) t a) (c_revision c + 1) c)) ph fr)
| v_node_edit c q r ph fr : e = true → queued c = false →
    vstep e n (mkView (Some c) ph fr) (mkView (Some (set_payload q r c)) ph fr)
| v_refresh c p ph fr : waiting c = true → hub_written_send c = true → origin p = Some "hub"%string →
    vstep e n (mkView (Some c) ph fr)
      (mkView (Some (with_content (mkContent p (t_original (c_content c)) (c_revision c) (t_memory_rev (c_content c))) c))
         ph fr).
Definition edits (id : string) (op : HubOp) : bool :=
  match op with Edit id' _ _ _ | NodeEdited id' _ _ _ _ => bool_decide (id' = id) | _ => false end.

Definition creates (id : string) (op : HubOp) (h : Hub) : option CmdIdent :=
  match op with
  | Queue _ given fresh ident _ =>
      match id_key ident ≫= λ k, by_key k (h_ledger h) with
      | None => if bool_decide (default fresh given = id) then Some ident else None
      | Some _ => None
      end
  | _ => None
  end.

Section views.
Context (e : bool) (n : option CmdIdent) (id : string).
Lemma view_quiet h l : quiet_ledger (h_ledger h) l →
  rtc (vstep e n) (view id h) (view id (mkHub l (h_attempts h) (h_frames h))).
Proof.
  intros H. specialize (H id). unfold view, frames_of. simpl.
  destruct (l_commands (h_ledger h) !! id), (l_commands l !! id); try done. by apply rtc_once, v_quiet.
Qed.
Lemma view_drop id' h : rtc (vstep e n) (view id h) (view id (set_attempt id' None h)).
Proof.
  unfold view, set_attempt. simpl. destruct (decide (id' = id)) as [->|].
  - rewrite lookup_delete_eq. apply rtc_once, v_drop.
  - by rewrite lookup_delete_ne.
Qed.
Lemma view_quiet_drop id' h l : quiet_ledger (h_ledger h) l →
  rtc (vstep e n) (view id h) (view id (set_attempt id' None (mkHub l (h_attempts h) (h_frames h)))).
Proof. intros H. etrans; [by apply view_quiet|apply view_drop]. Qed.
Lemma view_update_drop id' p f h : id' ≠ id →
  rtc (vstep e n) (view id h) (view id (set_attempt id' None (on_ledger (update id' p f) h))).
Proof.
  intros H. etrans; [|apply view_drop]. unfold view. simpl. rewrite update_lookup. by rewrite decide_False.
Qed.
(** The release of an attempt whose frame did not leave, or was refused. *)
Definition may_release (h : Hub) : Prop :=
  match h_attempts h !! id with
  | Some (AtSend _) => True
  | Some AtReply => row_hub_written id (h_ledger h) = true
  | _ => False
  end.
Lemma view_unflagged c h : l_commands (h_ledger h) !! id = Some c → in_flight c = true → may_release h →
  vstep e n (view id h) (mkView (Some (set_forwarded false Clear c)) None (frames_of id h)).
Proof.
  unfold may_release, view, row_hub_written. intros -> Hi Hr.
  destruct (h_attempts h !! id) as [[| |]|]; try done; [by apply v_unsent|by apply v_refused].
Qed.
Lemma quiet_unflagged c o r :
  in_flight c = true → quiet (set_forwarded false Clear c) (settle o r (set_forwarded false Clear c)).
Proof.
  unfold in_flight. intros [H%bool_decide_eq_true _]%andb_true_iff. apply quiet_settle. cbv [c_state] in *. simpl. congruence.
Qed.
Lemma view_release id' f h : (id' = id → may_release h) →
  rtc (vstep e n) (view id h) (view id (set_attempt id' None (on_ledger (release_intent f id') h))).
Proof.
  intros Hr. destruct (decide (id' = id)) as [->|Hne]; [|by destruct f; apply view_update_drop].
  specialize (Hr eq_refl). destruct (l_commands (h_ledger h) !! id) as [c|] eqn:Hc; cycle 1.
  { etrans; [apply view_drop|]. by destruct f; unfold view, release_intent, update; simpl; rewrite Hc; simpl; rewrite Hc. }
  destruct (in_flight c) eqn:Hi; cycle 1.
  { etrans; [apply view_drop|]. by destruct f; unfold view, release_intent, update; simpl; rewrite Hc, Hi; simpl; rewrite Hc. }
  eapply rtc_l; [by apply (view_unflagged c)|]. unfold view, release_intent, frames_of. simpl.
  rewrite lookup_delete_eq. destruct f; rewrite update_lookup, decide_True, Hc by done; simpl; rewrite Hi; [|done].
  by apply rtc_once, v_quiet, quiet_unflagged.
Qed.
Lemma view_release_hub id' f h : (id' = id → may_release h) →
  rtc (vstep e n) (view id h) (view id (set_attempt id' None (on_ledger (release_hub_written f id') h))).
Proof.
  intros Hr. etrans; [by apply (view_release id' f)|].
  apply (view_quiet (set_attempt id' None (on_ledger (release_intent f id') h))), quiet_count_attempt.
Qed.
End views.
Lemma quiet_reject id r l : quiet_ledger l (reject_command id r l).
Proof. unfold reject_command. quiet_update. Qed.
Lemma quiet_fence lineage g l : quiet_ledger l (fence_held lineage g l).
Proof.
  apply ledger_fmap. intros c. destruct (fenced_held lineage g c) eqn:H; [|apply quiet_refl].
  apply andb_true_iff in H as [H%waiting_queued _]. apply quiet_settle. destruct H. congruence.
Qed.
Lemma quiet_effort i request q l : quiet_ledger l (fold_effort_edge i request q l).
Proof. apply ledger_fmap. intros c. destruct (effort_edge i request c); [destruct q|]; auto with hubq. Qed.
Lemma quiet_chapter id s l : quiet_ledger l (defer_to_next_chapter id s l).
Proof.
  unfold defer_to_next_chapter. destruct s; [|quiet_update]. apply ledger_update. intros c [H _]%waiting_queued.
  eapply quiet_trans; [apply quiet_settle; congruence|apply quiet_deferred].
Qed.
Lemma quiet_reconciling id l : quiet_ledger l (mark_reconciling id l).
Proof. unfold mark_reconciling. quiet_update. Qed.
#[local] Hint Resolve quiet_reject quiet_fence quiet_effort quiet_chapter quiet_reconciling quiet_axis_edge
  quiet_configure quiet_withdraw quiet_node_withdraw ledger_refl : hubq.

(** ** Every step is a step of the view *)

Section steps.
Context (id : string).
Lemma view_queue e ok given fresh ident payload h :
  rtc (vstep e (creates id (Queue ok given fresh ident payload) h)) (view id h) (view id (hub_step (Queue ok given fresh ident payload) h)).
Proof.
  simpl hub_step. unfold queue_command, on_ledger, creates. cbn zeta.
  destruct (negb ok); [apply view_quiet; auto with hubq|].
  destruct (id_key ident ≫= _) as [[id' c]|].
  { destruct (negb _); [apply view_quiet; auto with hubq|].
    destruct (match given with Some g => _ | None => _ end); apply view_quiet; auto with hubq. }
  destruct (l_commands (h_ledger h) !! _) as [c|] eqn:Hid.
  { destruct (bool_decide (given = None)); [apply view_quiet; auto with hubq|]. destruct (negb _); [apply view_quiet; auto with hubq|].
    destruct (id_key ident); [destruct (bool_decide (id_key (c_ident c) = _))|]; apply view_quiet; auto with hubq. }
  cbn [fst]. set (id' := default fresh given) in *.
  etrans; [|apply (view_quiet e _ id (mkHub (put_cmd id' (new_cmd ident payload) (h_ledger h)) (h_attempts h) (h_frames h))),
              quiet_insert].
  unfold view, frames_of. simpl. destruct (decide (id' = id)) as [E|].
  - rewrite (bool_decide_true _ E), <- E, Hid, lookup_insert_eq. destruct (h_attempts h !! id'); by apply rtc_once; constructor.
  - by rewrite lookup_insert_ne.
Qed.
Lemma view_mark e n id' ok gate h : rtc (vstep e n) (view id h) (view id (hub_step (Mark id' ok gate) h)).
Proof.
  simpl. unfold start_forward. destruct (h_attempts h !! id') eqn:Ha; [done|].
  unfold mark_forward_intent_gated.
  destruct (l_commands (h_ledger h) !! id') as [c|] eqn:Hc; [|apply view_quiet; auto with hubq].
  destruct (negb ok); [apply view_quiet; auto with hubq|].
  destruct (c_forwarded c || negb (bool_decide (c_state c = CmdQueued))) eqn:Hw; [apply view_quiet; auto with hubq|].
  destruct (gate_waits gate); [apply view_quiet; auto with hubq|].
  destruct (gate_fence gate); [apply view_quiet; auto with hubq|].
  destruct (gate_lacks_fence gate); cbn [on_ledger h_ledger h_attempts h_frames]; [apply (view_quiet e _ id h); auto with hubq|].
  apply orb_false_iff in Hw as [Hf Hs%negb_false_iff]. unfold view, frames_of, set_attempt. simpl.
  destruct (decide (id' = id)) as [->|]; [|by rewrite !lookup_insert_ne].
  rewrite Hc, Ha, !lookup_insert_eq. apply rtc_once, v_mark. unfold waiting. by rewrite Hs, Hf.
Qed.
Lemma view_read e n id' h : rtc (vstep e n) (view id h) (view id (hub_step (ReadBack id') h)).
Proof.
  simpl. destruct (h_attempts h !! id') as [[| |]|] eqn:Ha; try done.
  destruct (l_commands (h_ledger h) !! id') as [c|] eqn:Hc; [|done]. unfold view, frames_of, set_attempt. simpl.
  destruct (decide (id' = id)) as [->|]; [|by rewrite lookup_insert_ne].
  rewrite Hc, Ha, lookup_insert_eq. apply rtc_once, v_read.
Qed.
Lemma view_send e n id' fenced r h : rtc (vstep e n) (view id h) (view id (hub_step (Send id' fenced r) h)).
Proof.
  simpl. destruct (h_attempts h !! id') as [[|p|]|] eqn:Ha; try done. unfold end_send.
  assert (id' = id → may_release id h) as Hr. { intros ->. unfold may_release. by rewrite Ha. }
  destruct r.
  - unfold view, frames_of. simpl. rewrite filter_app, fmap_app. destruct (decide (id' = id)) as [->|].
    + rewrite Ha, lookup_insert_eq. rewrite filter_cons_True by done. apply rtc_once, v_out.
    + by rewrite lookup_insert_ne, filter_cons_False, app_nil_r by done.
  - destruct (row_hub_written id' (h_ledger h)); [by apply view_release_hub|by apply view_release].
  - destruct (row_hub_written id' (h_ledger h)); [by apply view_release_hub|].
    destruct (row_is _ _ _); [apply view_drop|]. apply view_quiet_drop. auto with hubq.
Qed.
Lemma view_answer e n id' fenced r h : rtc (vstep e n) (view id h) (view id (hub_step (Answer id' fenced r) h)).
Proof.
  simpl. destruct (h_attempts h !! id') as [[|p|]|] eqn:Ha; try done.
  assert (quiet_ledger (h_ledger h) (answer_effect id' fenced r (h_ledger h)) ∨
          (answer_effect id' fenced r (h_ledger h) = release_hub_written fenced id' (h_ledger h) ∧
           row_hub_written id' (h_ledger h) = true)) as [Hq|[Hq Hh]].
  - destruct r as [|reason owner unknown| |]; simpl; [left; unfold mark_accepted; quiet_update| |auto with hubq..].
    destruct (unknown && _); [left; unfold mark_settled; quiet_update|].
    destruct owner; [destruct (row_is _ _ _); auto with hubq|].
    destruct (row_hub_written id' (h_ledger h)); [|destruct (row_is _ _ _); auto with hubq].
    destruct unknown; [auto with hubq|]. by right.
  - by apply view_quiet_drop.
  - unfold on_ledger. rewrite Hq. apply (view_release_hub e n id id' fenced h). intros ->. unfold may_release.
    by rewrite Ha.
Qed.
Lemma view_edit n id' x t a h : rtc (vstep (bool_decide (id' = id)) n) (view id h) (view id (hub_step (Edit id' x t a) h)).
Proof.
  simpl. unfold edit_queued, on_ledger.
  destruct (l_commands (h_ledger h) !! id') as [c|] eqn:Hc; [|apply view_quiet; auto with hubq].
  destruct (waiting c) eqn:Hw; simpl; [|apply view_quiet; auto with hubq].
  destruct (negb (_ =? _)); simpl; [apply view_quiet; auto with hubq|]. unfold view, frames_of. simpl.
  destruct (decide (id' = id)) as [->|]; [|by rewrite lookup_insert_ne].
  rewrite bool_decide_true, Hc, lookup_insert_eq by done. by apply rtc_once, v_edit.
Qed.
Lemma view_node_edit n id' i row x t h :
  rtc (vstep (bool_decide (id' = id)) n) (view id h) (view id (hub_step (NodeEdited id' i row x t) h)).
Proof.
  simpl. destruct (l_commands (h_ledger h) !! id') as [c|] eqn:Hc; [|done]. destruct (queued c) eqn:Hq; [done|].
  unfold on_ledger, record_node_edit. set (l := update id' _ _ _).
  etrans; [|apply (view_quiet _ n id (mkHub l (h_attempts h) (h_frames h))), quiet_release_memory].
  unfold view, frames_of, l. simpl. rewrite update_lookup. destruct (decide (id' = id)) as [->|]; [|done].
  rewrite bool_decide_true, Hc by done. by apply rtc_once, v_node_edit.
Qed.
Lemma view_refresh e n id' p h : rtc (vstep e n) (view id h) (view id (hub_step (RefreshNotice id' p) h)).
Proof.
  simpl. unfold row_hub_written. destruct (l_commands (h_ledger h) !! id') as [c|] eqn:Hc; [|done].
  destruct (hub_written_send c) eqn:Hh, (bool_decide _) eqn:Ho; try done.
  unfold on_ledger, refresh_notice, view, frames_of. simpl. rewrite update_lookup.
  destruct (decide (id' = id)) as [->|]; [|done]. rewrite Hc. simpl. destruct (waiting c) eqn:Hw; [|done].
  apply rtc_once, v_refresh; [done..|]. by apply bool_decide_eq_true in Ho.
Qed.
(** The view theorem: whatever happens, a command only moves along [vstep]. *)
Lemma view_step op h : rtc (vstep (edits id op) (creates id op h)) (view id h) (view id (hub_step op h)).
Proof.
  destruct op; try (by apply view_quiet; auto with hubq);
    first [ apply view_queue | apply view_mark | apply view_read | apply view_send | apply view_answer
          | apply view_edit | apply view_node_edit | apply view_refresh | apply view_drop | idtac ].
  - simpl. destruct (h_attempts h !! _) as [[| |]|]; try done. apply view_quiet_drop.
    unfold withhold_command. quiet_update.
  - unfold view, frames_of. simpl. rewrite lookup_empty. apply rtc_once, v_drop.
  - apply view_quiet. unfold mark_withdraw_intent. quiet_update.
  - apply view_quiet. unfold clear_withdraw_intent. quiet_update.
  - simpl. destruct (apply_command_projection _ _ _ _ _) eqn:Hp; [|done].
    by eapply view_quiet, quiet_project.
  - apply view_quiet. unfold mark_settled. quiet_update.
  - apply view_quiet. unfold mark_settlement_timed_out. quiet_update.
  - apply view_quiet. unfold settle_aborted. quiet_update.
  - apply view_quiet. quiet_update.
  - apply view_quiet. unfold defer_to_next_turn. quiet_update.
Qed.
End steps.

(** ** The invariant *)

(** Written by a caller, not by the Hub itself. *)
Definition callers (c : Cmd) : Prop := origin (first_payload c) ≠ Some "hub"%string.
Definition sent_once (ph : option Phase) (forwarded : bool) (fr : list Value) : Prop :=
  match ph with
  | Some AtReply => (length fr ≤ 1)%nat
  | Some _ => fr = []
  | None => (length fr ≤ 1)%nat ∧ (fr = [] ∨ forwarded = true)
  end.
Record good (v : View) : Prop := {
  good_none : v_row v = None → v_phase v = None ∧ v_frames v = [];
  good_flag : ∀ c, v_row v = Some c → v_phase v ≠ None → c_forwarded c = true;
  good_queued : ∀ c, v_row v = Some c → c_state c = CmdQueued →
    origin (c_payload c) = origin (first_payload c) ∧ c_outcome c = None;
  good_once : ∀ c, v_row v = Some c → callers c → sent_once (v_phase v) (c_forwarded c) (v_frames v);
}.
Lemma waiting_iff c : waiting c = true ↔ c_state c = CmdQueued ∧ c_forwarded c = false.
Proof. unfold waiting. by rewrite andb_true_iff, bool_decide_eq_true, negb_true_iff. Qed.
Lemma in_flight_queued c : in_flight c = true → c_state c = CmdQueued.
Proof. unfold in_flight. by intros [H%bool_decide_eq_true _]%andb_true_iff. Qed.
Lemma hub_written_origin c : hub_written_send c = true → origin (c_payload c) = Some "hub"%string.
Proof. unfold hub_written_send. by intros [_ H%bool_decide_eq_true]%andb_true_iff. Qed.
Lemma good_quiet c c' ph fr : quiet c c' → good (mkView (Some c) ph fr) → good (mkView (Some c') ph fr).
Proof.
  intros Q [_ G1 G2 G3]. split; simpl in *; [done|..]; intros d [= <-].
  - rewrite (q_forwarded _ _ Q). by apply G1.
  - intros Hq. rewrite (q_payload _ _ Q), (q_first _ _ Q), (q_outcome _ _ Q Hq). apply G2; [done|].
    by eapply rank_queued, Hq; apply Q.
  - unfold callers. rewrite (q_forwarded _ _ Q), (q_first _ _ Q). by apply G3.
Qed.
Lemma good_released c fr : good (mkView (Some c) (Some AtMark) fr) → c_state c = CmdQueued →
  good (mkView (Some (set_forwarded false Clear c)) None fr).
Proof.
  intros [_ G1 G2 G3] Hq. split; simpl in *; [done|..]; intros d [= <-]; [done|exact (G2 c eq_refl)|].
  intros Hc. rewrite (G3 c) by done. split; [simpl; lia|by left].
Qed.
Lemma good_refresh c p ph fr :
  waiting c = true → hub_written_send c = true → origin p = Some "hub"%string → good (mkView (Some c) ph fr) →
  good (mkView (Some (with_content (mkContent p (t_original (c_content c)) (c_revision c)
                                      (t_memory_rev (c_content c))) c)) ph fr).
Proof.
  intros [Hs Hf]%waiting_iff Hh%hub_written_origin Ho [_ G1 G2 G3]. destruct (G2 c eq_refl Hs) as [G2' G2n].
  rewrite Hh in G2'.
  assert (first_payload (with_content (mkContent p (t_original (c_content c)) (c_revision c)
    (t_memory_rev (c_content c))) c) = default p (t_original (c_content c))) as Hp by done.
  assert (origin (default p (t_original (c_content c))) = Some "hub"%string) as Hd.
  { unfold first_payload in G2'. by destruct (t_original (c_content c)). }
  split; simpl in *; [done|..]; intros d [= <-]; [exact (G1 c eq_refl)| |].
  - intros _. by rewrite Hp, Hd.
  - unfold callers. by rewrite Hp, Hd.
Qed.
Lemma good_step e n v v' : vstep e n v v' → good v → good v'.
Proof.
  intros [c c' ph fr Q|ident p fr _|ident p ph fr _|c fr Hw|c fr|r p fr|r ph fr|c p fr Hi|c fr Hi Hh|c t a ph fr _ Hw
    |c q r ph fr _ Hq|c p ph fr Hw Hh Ho] G.
  - by eapply good_quiet.
  - destruct (good_none _ G eq_refl) as [_ E]. simpl in E. subst fr.
    split; simpl; [done|..]; intros c [= <-]; [done..|]. intros _. split; [simpl; lia|by left].
  - by destruct (good_none _ G eq_refl).
  - apply waiting_iff in Hw as [Hs Hf]. destruct G as [_ G1 G2 G3].
    split; simpl in *; [done|..]; intros d [= <-]; [done|exact (G2 c eq_refl)|].
    intros Hc. destruct (G3 c eq_refl Hc) as [_ [?|?]]; congruence.
  - destruct G as [_ G1 G2 G3]. split; simpl in *; [done|..]; intros d [= <-]; [intros _; by apply (G1 c)|exact (G2 c eq_refl)|by apply G3].
  - destruct G as [G0 G1 G2 G3]. destruct r as [c|]; [|by destruct (G0 eq_refl)].
    split; simpl in *; [done|..]; intros d [= <-]; [intros _; by apply (G1 c)|exact (G2 c eq_refl)|].
    intros Hc. rewrite (G3 c) by done. simpl. lia.
  - destruct G as [G0 G1 G2 G3]. split; simpl in *; [by intros ->; destruct (G0 eq_refl)|done|done|].
    intros c Hr Hc. destruct ph as [p|]; [|by apply G3]. specialize (G1 c Hr). specialize (G3 c Hr Hc).
    split; [destruct p; simpl in G3; subst; simpl; lia|right; by apply G1].
  - apply good_released; [|by apply in_flight_queued]. destruct G as [_ G1 G2 G3].
    split; simpl in *; [done|..]; intros d [= <-]; [intros _; by apply (G1 c)|exact (G2 c eq_refl)|by apply G3].
  - destruct G as [_ G1 G2 G3]. apply in_flight_queued in Hi. apply hub_written_origin in Hh.
    assert (¬ callers c) as Hn. { unfold callers. destruct (G2 c eq_refl Hi) as [<- _]. rewrite Hh. by intros []. }
    split; simpl in *; [done|..]; intros d [= <-]; [done|exact (G2 c eq_refl)|by intros ?%Hn].
  - apply waiting_iff in Hw as [Hs Hf]. destruct G as [_ G1 G2 G3].
    split; simpl in *; [done|..]; intros d [= <-]; [exact (G1 c eq_refl)| |exact (G3 c eq_refl)].
    intros _. destruct (G2 c eq_refl Hs) as [H2 H2']. split; [|done]. by etrans; [apply edit_origin|].
  - destruct G as [_ G1 G2 G3]. split; simpl in *; [done|..]; intros d [= <-];
      [exact (G1 c eq_refl)| |exact (G3 c eq_refl)]. intros Hs. apply (queued_dec c) in Hs. congruence.
  - by eapply good_refresh.
Qed.

(** ** Runs *)

Definition empty_hub (insts : gmap string Inst) : Hub := mkHub (mkLedger ∅ insts) ∅ [].
Lemma hub_run_app ops1 ops2 h : hub_run (ops1 ++ ops2) h = hub_run ops2 (hub_run ops1 h).
Proof. apply foldl_app. Qed.
(** A property of the view of one command that its steps keep holds after
    every run; the steps are those of the operations of the run. *)
Lemma run_keeps (P : View → Prop) (E : bool → Prop) id ops h :
  (∀ e n v v', E e → vstep e n v v' → P v → P v') → Forall (λ op, E (edits id op)) ops →
  P (view id h) → P (view id (hub_run ops h)).
Proof.
  intros Hstep Hops. revert h. induction Hops as [|op ops Hop _ IH]; intros h H; [done|]. apply IH.
  pose proof (view_step id op h) as Hs. induction Hs as [|x y z Hxy _ IHs]; [done|]. eauto.
Qed.
Lemma run_keeps_all (P : View → Prop) id ops h :
  (∀ e n v v', vstep e n v v' → P v → P v') → P (view id h) → P (view id (hub_run ops h)).
Proof. intros H. apply (run_keeps P (λ _, True)); [eauto|]. by apply Forall_true. Qed.
Lemma hub_good insts id ops : good (view id (hub_run ops (empty_hub insts))).
Proof. apply run_keeps_all; [intros *; apply good_step|]. by split. Qed.
