(* ===== verification/HubQueue.v ===== *)
(** * What a caller of the Hub's command queue can rely on

    Theorems on every run of [HubCommands.hub_step]: callers, forwards, Nodes,
    fences and restarts interleave in any order, and each theorem follows one
    command through its view ([HubLedger]). *)
From stdpp Require Import base list gmap strings numbers sorting relations.
From S2P Require Import Prelude Json HubCommands HubEdit HubLedger.
Local Open Scope Z_scope.

Section queue.
Context (insts : gmap string Inst) (id : string).

(** C17. However the forwards, the retries, the offline queue and the restarts
    of the Hub interleave, a command a caller queued leaves for its Node at most
    once. *)
Theorem command_is_sent_at_most_once ops c :
  l_commands (h_ledger (hub_run ops (empty_hub insts))) !! id = Some c → callers c →
  (length (frames_of id (hub_run ops (empty_hub insts))) ≤ 1)%nat.
Proof.
  intros Hc Hcl. change (length (v_frames (view id (hub_run ops (empty_hub insts)))) ≤ 1)%nat.
  pose proof (good_once _ (hub_good insts id ops) c Hc Hcl) as H. unfold sent_once in H.
  destruct (v_phase _) as [[]|]; [by rewrite H; simpl; lia..|done|by destruct H].
Qed.

(** A command that waits has no forward under way, and none has sent it. *)
Lemma waiting_unsent ops c :
  let h := hub_run ops (empty_hub insts) in
  l_commands (h_ledger h) !! id = Some c → waiting c = true →
  h_attempts h !! id = None ∧ (callers c → frames_of id h = []) ∧
  origin (c_payload c) = origin (first_payload c) ∧ c_outcome c = None.
Proof.
  intros h Hc [Hs Hf]%waiting_iff. pose proof (hub_good insts id ops) as G. fold h in G.
  assert (h_attempts h !! id = None) as Ha.
  { destruct (h_attempts h !! id) eqn:E; [|done]. rewrite (good_flag _ G c) in Hf; [done|done|]. simpl. by rewrite E. }
  split_and!; [done| |by apply (good_queued _ G)..]. intros Hcl.
  pose proof (good_once _ G c Hc Hcl) as Hone. simpl in Hone. rewrite Ha in Hone. destruct Hone as [_ [?|?]]; congruence.
Qed.

(** ** Withdrawing *)

Lemma withdraw_row e by_ l c c' : l_commands l !! id = Some c → waiting c = true → c_outcome c = None →
  (withdraw_queued id e by_ l).2 = Ok c' →
  ∃ d, l_commands (withdraw_queued id e by_ l).1 !! id = Some d ∧ c_state d = CmdSettled ∧
       c_outcome d = Some "withdrawn"%string.
Proof.
  intros Hc Hw Ho. unfold withdraw_queued. rewrite Hc, Hw, Ho, bool_decide_false by done. cbn [negb].
  destruct (match e with Some e => _ | None => _ end); [done|]. cbn [fst snd]. intros _.
  set (d0 := set_withdrawn_by (Some by_) (settle "withdrawn" None c)).
  assert (l_commands (put_cmd id d0 l) !! id = Some d0) as H0 by (simpl; by rewrite lookup_insert_eq).
  destruct (quiet_row _ _ id d0 (quiet_unwind c id (put_cmd id d0 l)) H0) as (d & Hd & Hq). exists d. split; [exact Hd|].
  split; [by eapply rank_settled; [apply Hq|]|]. destruct (q_stands _ _ Hq eq_refl) as [E|[E _]]; [exact E|discriminate E].
Qed.
(** A row settled with [o], with no attempt: its frames are what they were. *)
Definition over (o : string) (fr : list Value) (v : View) : Prop :=
  ∃ c, v_row v = Some c ∧ c_state c = CmdSettled ∧ c_outcome c = Some o ∧ v_phase v = None ∧ v_frames v = fr.
Lemma not_waiting c : c_state c = CmdSettled → waiting c = true → False.
Proof. intros H [H' _]%waiting_iff. congruence. Qed.
Lemma over_step o fr e n v v' : o ≠ "cancelled"%string → vstep e n v v' → over o fr v → over o fr v'.
Proof.
  intros Hne [] (d & Hr & Hs & Ho & Hp & Hf); simpl in *; simplify_eq; try (by eexists; split_and!);
    try (by edestruct not_waiting).
  - eexists. split_and!; [done|by eapply rank_settled; [apply H|]| |done..].
    destruct (q_stands _ _ H Hs) as [E|[E _]]; unfold c_outcome in *; congruence.
Qed.
(** C16. Withdrawing a command that waits at the Hub: once the withdrawal is
    acknowledged the command has not been sent and never will be, whatever the
    forwards, the Node and the restarts do, and it stays withdrawn. *)
Theorem withdrawn_command_is_never_sent ops e by_ c c' later :
  let h := hub_run ops (empty_hub insts) in
  l_commands (h_ledger h) !! id = Some c → waiting c = true → (withdraw_queued id e by_ (h_ledger h)).2 = Ok c' →
  let h' := hub_run later (hub_step (Withdraw id e by_) h) in
  frames_of id h' = frames_of id h ∧ (callers c → frames_of id h' = []) ∧
  (∃ d, l_commands (h_ledger h') !! id = Some d ∧ c_outcome d = Some "withdrawn"%string).
Proof.
  intros h Hc Hw Hok h'. destruct (waiting_unsent ops c Hc Hw) as (Ha & Hfr & _ & Ho).
  destruct (withdraw_row e by_ _ c c' Hc Hw Ho Hok) as (d & Hd & Hds & Hdo).
  assert (over "withdrawn" (frames_of id h) (view id h')) as (d' & Hd' & _ & Hdo' & _ & Hfr').
  { apply run_keeps_all; [by intros *; apply over_step|]. by exists d. }
  simpl in Hfr'. split_and!; [done| |by exists d']. intros Hcl. rewrite Hfr'. by apply Hfr.
Qed.

(** ** Editing *)

(** Whatever leaves says [q]. *)
Definition carries (q : Value) (v : View) : Prop :=
  ∃ c, v_row v = Some c ∧ c_payload c = q ∧ (∀ p, v_phase v = Some (AtSend p) → p = q) ∧
       Forall (λ p, p = q) (v_frames v).
Lemma carries_step q n v v' : origin q ≠ Some "hub"%string → vstep false n v v' → carries q v → carries q v'.
Proof.
  intros Ho [] (d & Hr & Hq & Hp & Hf); simpl in *; simplify_eq; try (by eexists; split_and!).
  - eexists. split_and!; [done|apply H|done..].
  - eexists. split_and!; [done..| |done]. by intros p [= <-].
  - eexists. split_and!; [done..|]. apply Forall_app. split; [done|]. constructor; [by apply Hp|done].
  - destruct Ho. by apply hub_written_origin.
Qed.
Lemma edit_inv x t a l c c' : l_commands l !! id = Some c → (edit_queued id x t a l).2 = Ok c' →
  waiting c = true ∧ c' = set_payload (edit_payload (c_payload c) t a) (c_revision c + 1) c ∧
  (edit_queued id x t a l).1 = put_cmd id c' l.
Proof.
  unfold edit_queued. intros ->. destruct (waiting c); [|done]. cbn [negb]. destruct (negb (_ =? _)); [done|].
  by intros [= <-].
Qed.
(** C18. Editing a command that waits at the Hub: until it is edited again,
    every frame that leaves for the Node, then or later, carries the edited
    payload and none the old one. *)
Theorem edited_payload_is_what_leaves ops x t a c c' later :
  let h := hub_run ops (empty_hub insts) in
  l_commands (h_ledger h) !! id = Some c → callers c → (edit_queued id x t a (h_ledger h)).2 = Ok c' →
  Forall (λ op, edits id op = false) later →
  c_payload c' = edit_payload (c_payload c) t a ∧
  Forall (λ p, p = c_payload c') (frames_of id (hub_run later (hub_step (Edit id x t a) h))).
Proof.
  intros h Hc Hcl Hok Hl. destruct (edit_inv x t a _ c c' Hc Hok) as (Hw & Hc' & Hl').
  destruct (waiting_unsent ops c Hc Hw) as (Ha & Hfr & Ho & _). specialize (Hfr Hcl). fold h in Ha, Hfr.
  assert (c_payload c' = edit_payload (c_payload c) t a) as Hp by by rewrite Hc'. split; [done|].
  assert (origin (c_payload c') ≠ Some "hub"%string) as Hq by (by rewrite Hp, edit_origin, Ho).
  edestruct (run_keeps (carries (c_payload c')) (λ e, e = false) id later) as (d & _ & _ & _ & Hd); [|done| |exact Hd].
  - intros e n v v' ->. by apply carries_step.
  - exists c'. cbn [hub_step]. unfold on_ledger, view. cbn [v_row v_phase v_frames h_ledger h_attempts]. rewrite Hl', Ha.
    split_and!; [simpl; by rewrite lookup_insert_eq|done..|].
    change (Forall (λ p, p = c_payload c') (frames_of id h)). by rewrite Hfr.
Qed.

(** ** Settling *)

Definition final (o : option string) (v : View) : Prop :=
  ∃ c, v_row v = Some c ∧ c_state c = CmdSettled ∧
       (c_outcome c = o ∨ (o = Some "cancelled"%string ∧ c_outcome c = Some "withdrawn"%string)).
Lemma final_step o e n v v' : vstep e n v v' → final o v → final o v'.
Proof.
  intros [] (d & Hr & Hs & Ho); simpl in *; simplify_eq; try (by eexists; split_and!);
    try (by edestruct not_waiting); try (apply in_flight_queued in H; congruence).
  eexists. split_and!; [done|by eapply rank_settled; [apply H|]|].
  destruct (q_stands _ _ H Hs) as [E|[E E']]; unfold c_outcome in *; rewrite ?E'; naive_solver congruence.
Qed.
(** C22. A settlement is final: no later answer, retry, projection, fence, edit
    or restart changes the outcome of a settled command, except that a prompt
    reported cancelled may turn out to be withdrawn. *)
Theorem settlement_is_final h c ops :
  l_commands (h_ledger h) !! id = Some c → c_state c = CmdSettled →
  ∃ d, l_commands (h_ledger (hub_run ops h)) !! id = Some d ∧ c_state d = CmdSettled ∧
    (c_outcome d = c_outcome c ∨ (c_outcome c = Some "cancelled"%string ∧ c_outcome d = Some "withdrawn"%string)).
Proof.
  intros Hc Hs. apply (run_keeps_all (final (c_outcome c)) id ops h); [intros *; apply final_step|].
  exists c. auto.
Qed.

(** ** Replaying *)

(** The row that answers to a payload and an identity. *)
Definition answers (ident : CmdIdent) (payload : Value) (v : View) : Prop :=
  good v ∧ ∃ c, v_row v = Some c ∧ c_ident c = ident ∧ first_payload c = payload.
Lemma answers_step ident payload e n v v' :
  origin payload ≠ Some "hub"%string → vstep e n v v' → answers ident payload v → answers ident payload v'.
Proof.
  intros Ho Hv [G (d & Hr & Hi & Hf)]. split; [by eapply good_step|].
  destruct Hv; simpl in *; simplify_eq; try (by eexists; split_and!).
  - eexists. split_and!; [done|apply H|apply H].
  - apply waiting_iff in H as [H _]. destruct (good_queued _ G d eq_refl H) as [E _]. destruct Ho.
    rewrite <- E. by apply hub_written_origin.
Qed.
End queue.

Definition keyed (l : Ledger) : Prop := ∀ id1 id2 c1 c2 k,
  l_commands l !! id1 = Some c1 → l_commands l !! id2 = Some c2 →
  id_key (c_ident c1) = Some k → id_key (c_ident c2) = Some k → id1 = id2.
Lemma by_key_elem k l id c :
  l_commands l !! id = Some c → id_key (c_ident c) = Some k →
  (id, c) ∈ filter (λ ic : string * Cmd, id_key (c_ident ic.2) = Some k) (map_to_list (l_commands l)).
Proof. intros Hc Hk. apply list_elem_of_filter. split; [done|]. by apply elem_of_map_to_list. Qed.
Lemma by_key_none k l id c :
  by_key k l = None → l_commands l !! id = Some c → id_key (c_ident c) = Some k → False.
Proof.
  unfold by_key. intros Hn Hc Hk. pose proof (by_key_elem k l id c Hc Hk) as H.
  destruct (filter _ _) as [|x xs]; [by apply not_elem_of_nil in H|done].
Qed.
Lemma by_key_row k l id c : keyed l → l_commands l !! id = Some c → id_key (c_ident c) = Some k → by_key k l = Some (id, c).
Proof.
  intros Hu Hc Hk. unfold by_key. pose proof (by_key_elem k l id c Hc Hk) as H.
  destruct (filter _ _) as [|[id' c'] xs] eqn:E; [by apply not_elem_of_nil in H|].
  assert ((id', c') ∈ filter (λ ic : string * Cmd, id_key (c_ident ic.2) = Some k) (map_to_list (l_commands l))) as H'.
  { rewrite E. left. }
  apply list_elem_of_filter in H' as [Hk' H'%elem_of_map_to_list]. simpl in *.
  pose proof (Hu _ _ _ _ _ H' Hc Hk' Hk) as ->. simpl. congruence.
Qed.
(** Where the row of a command comes from. *)
Lemma row_comes_from id op h c' : l_commands (h_ledger (hub_step op h)) !! id = Some c' →
  (∃ c, l_commands (h_ledger h) !! id = Some c ∧ c_ident c = c_ident c') ∨ creates id op h = Some (c_ident c').
Proof.
  set (n := creates id op h).
  assert (∀ v v', rtc (vstep (edits id op) n) v v' → ∀ c', v_row v' = Some c' →
    (∃ c, v_row v = Some c ∧ c_ident c = c_ident c') ∨ n = Some (c_ident c')) as H.
  { intros v v' H. induction H as [|x y z Hxy _ IH]; [eauto|]. intros c Hc. destruct (IH c Hc) as [(d & Hd & Hi)|]; [|by right].
    destruct Hxy; simpl in *; simplify_eq; rewrite <- ?Hi; eauto. left. eexists. split; [done|]. symmetry. apply H. }
  intros Hc. by apply (H _ _ (view_step id op h)).
Qed.
Lemma keyed_step op h : keyed (h_ledger h) → keyed (h_ledger (hub_step op h)).
Proof.
  intros Hu id1 id2 c1 c2 k H1 H2 K1 K2.
  assert (∀ id c id' c', creates id op h = Some (c_ident c) → id_key (c_ident c) = Some k →
    l_commands (h_ledger h) !! id' = Some c' → id_key (c_ident c') = Some k → False) as Hnew.
  { intros id c id' c' Hn Hk Hr Hk'. destruct op; try done. simpl in Hn.
    destruct (id_key ident ≫= _) eqn:Hb; [done|]. case_bool_decide; [|done]. injection Hn as ->. rewrite Hk in Hb.
    by eapply by_key_none. }
  destruct (row_comes_from id1 op h c1 H1) as [(d1 & R1 & I1)|N1], (row_comes_from id2 op h c2 H2) as [(d2 & R2 & I2)|N2].
  - rewrite <- I1 in K1. rewrite <- I2 in K2. by apply (Hu _ _ _ _ _ R1 R2 K1 K2).
  - destruct (Hnew id2 c2 id1 d1); rewrite ?I1; done.
  - destruct (Hnew id1 c1 id2 d2); rewrite ?I2; done.
  - destruct op; try done. simpl in *. destruct (id_key ident ≫= _); [done|].
    repeat case_bool_decide; congruence.
Qed.
Lemma hub_keyed insts ops : keyed (h_ledger (hub_run ops (empty_hub insts))).
Proof.
  induction ops as [|op ops IH] using rev_ind; [by intros ???? ? []|]. rewrite hub_run_app. by apply keyed_step.
Qed.

Lemma queue_inv given fresh ident payload l id : (queue_command true given fresh ident payload l).2 = Ok (id, true) →
  l_commands l !! id = None ∧ (queue_command true given fresh ident payload l).1 = insert_cmd id ident payload l.
Proof.
  unfold queue_command. cbn [negb]. destruct (id_key ident ≫= _) as [[id' c]|].
  { destruct (negb _); [done|]. by destruct (match given with Some g => _ | None => _ end). }
  destruct (l_commands l !! _) as [c|] eqn:Hc; [|by intros [= <-]].
  destruct (bool_decide (given = None)); [done|]. destruct (negb _); [done|].
  destruct (id_key ident); [|done]. by destruct (bool_decide _).
Qed.
(** A row answers to the payload it was queued with, edited or not. *)
Lemma same_first c : same_command_payload c (first_payload c) = true.
Proof.
  unfold same_command_payload, first_payload. apply orb_true_iff. rewrite !bool_decide_eq_true.
  destruct (t_original (c_content c)); auto.
Qed.
(** Replaying the request that queued a command answers with that command
    and changes nothing, however often the command was edited, forwarded or
    settled meanwhile. *)
Theorem replay_finds_the_command insts ops given fresh ident payload id k later given' fresh' :
  let h := hub_run ops (empty_hub insts) in
  id_key ident = Some k → origin payload ≠ Some "hub"%string →
  (queue_command true given fresh ident payload (h_ledger h)).2 = Ok (id, true) → (given' = None ∨ given' = Some id) →
  let l := h_ledger (hub_run later (hub_step (Queue true given fresh ident payload) h)) in
  queue_command true given' fresh' ident payload l = (l, Ok (id, false)).
Proof.
  intros h Hk Ho Hq Hg l. destruct (queue_inv _ _ _ _ _ _ Hq) as [Hn Hl].
  assert (answers ident payload (view id (hub_run later (hub_step (Queue true given fresh ident payload) h))))
    as [_ (c & Hc & Hi & Hf)].
  { apply run_keeps_all; [by intros *; apply answers_step|]. split.
    - unfold h. change (hub_step ?op (hub_run ops ?h)) with (hub_run [op] (hub_run ops h)). rewrite <- hub_run_app.
      apply hub_good.
    - simpl. rewrite Hl. destruct (quiet_row _ _ id (new_cmd ident payload) (quiet_insert id ident payload (h_ledger h)))
        as (d & Hd & Q); [simpl; by rewrite lookup_insert_eq|]. exists d. by rewrite (q_ident _ _ Q), (q_first _ _ Q). }
  assert (keyed l) as Hu.
  { unfold l, h. change (hub_step ?op (hub_run ops ?h)) with (hub_run [op] (hub_run ops h)). rewrite <- !hub_run_app.
    apply hub_keyed. }
  simpl in Hc. fold l in Hc. unfold queue_command. rewrite Hk. simpl. rewrite (by_key_row k l id c) by (done || by rewrite Hi).
  rewrite <- Hf, same_first, Hi, bool_decide_true by done. simpl. destruct Hg as [->| ->]; [done|].
  by rewrite bool_decide_true.
Qed.
