(* ===== verification/HubHeld.v ===== *)
(** * Prompts the Node holds, changed through the Hub

    [edit_on_node] and [withdraw_on_node] of [remuda-hub/src/cmd_queue.rs]
    against the registry of the Node ([HeldInput]): the Hub's ledger and the
    Node's registry are changed by one call, whose frame or answer may be
    lost.  [wire] is what the Node decodes the JSON text to. *)
From stdpp Require Import base list gmap strings numbers.
From S2P Require Import Prelude Json Text HeldInput HubCommands HubEdit HubLedger HubQueue.
Local Open Scope Z_scope.

(** How a call of the Node went: answered, its frame never left, or no answer
    came back ([reached] says whether the Node ran it). *)
Inductive Call : Type := Answered | Unsent | Unanswered (reached : bool).
Inductive QueueErr : Type := NotQueuedErr | ConflictErr (revision : Z).
Record Pair : Type := mkPair { pr_hub : Ledger; pr_node : gmap string Held }.

Section held.
Context (wire : string → text).

(** [edit_on_node]; [row] is what the caller's row was when it was read. *)
Definition edit_on_node (id i : string) (row : Cmd) (expected : Z) (t : string) (call : Call) (p : Pair)
    : Pair * result Cmd QueueErr :=
  if negb (expected =? c_revision row) then (p, Err (ConflictErr (c_revision row)))
  else
    let '(node, (outcome, revision)) := edit id expected (wire t) (pr_node p) in
    match call with
    | Unsent | Unanswered false => (p, Err NotQueuedErr)
    | Unanswered true => (mkPair (pr_hub p) node, Err NotQueuedErr)
    | Answered =>
        if bool_decide (outcome = "edited"%string) then
          let l := record_node_edit id i row expected t (pr_hub p) in
          (mkPair l node, match l_commands l !! id with Some c => Ok c | None => Err NotQueuedErr end)
        else if bool_decide (outcome = "revision-conflict"%string) then (mkPair (pr_hub p) node, Err (ConflictErr revision))
        else (mkPair (pr_hub p) node, Err NotQueuedErr)
    end.
(** [withdraw_on_node], one attempt at a time: the mark, the call and what is
    recorded of its answer are one step, so two attempts at one command do not
    overlap here. *)
Definition withdraw_on_node (id i : string) (row : Cmd) (expected : option Z) (by_ : string) (call : Call) (p : Pair)
    : Pair * result Cmd QueueErr :=
  if match expected with Some e => negb (e =? c_revision row) | None => false end
  then (p, Err (ConflictErr (c_revision row)))
  else
    let '(l, earlier) := mark_withdraw_intent id by_ (pr_hub p) in
    let '(node, outcome) := withdraw id (pr_node p) in
    let refused := if earlier then l else clear_withdraw_intent id l in
    match call with
    | Unsent => (mkPair refused (pr_node p), Err NotQueuedErr)
    | Unanswered reached => (mkPair l (if reached then node else pr_node p), Err NotQueuedErr)
    | Answered =>
        if bool_decide (outcome = "withdrawn"%string) then
          let l := record_node_withdraw id i by_ l in
          (mkPair l node, match l_commands l !! id with Some c => Ok c | None => Err NotQueuedErr end)
        else (mkPair refused node, Err NotQueuedErr)
    end.

(** ** Editing *)

(** The Node has seen no edit of the prompt, or the Hub's last one. *)
Definition in_step (c : Cmd) (e : Held) : Prop :=
  match held_revision e with None => True | Some r => r = c_revision c end.
Lemma release_row i id' l id c : l_commands l !! id = Some c →
  ∃ d, l_commands (release_memory_line i id' l) !! id = Some d ∧ c_payload d = c_payload c ∧
    c_revision d = c_revision c ∧ c_progress d = c_progress c.
Proof.
  intros Hc. unfold release_memory_line. case_match; [|eauto].
  assert (∀ l', l_commands l' = l_commands l → ∃ d,
    l_commands (update id' always (set_memory_rev None) l') !! id = Some d ∧ c_payload d = c_payload c ∧
    c_revision d = c_revision c ∧ c_progress d = c_progress c) as H'.
  { intros l' El. rewrite update_lookup, El, Hc. case_decide; eexists; by split_and!. }
  apply H'. by repeat case_match.
Qed.
Lemma edit_answer id x t m e : m !! id = Some e → held_state e = Waiting → default x (held_revision e) = x →
  edit id x t m = (<[id := mkHeld Waiting (Some (wrap64 (x + 1))) (Some t)]> m, ("edited"%string, wrap64 (x + 1))).
Proof. intros He Hw Hx. unfold edit. by rewrite He, decide_True, Hx, Z.eqb_refl. Qed.
Lemma in_step_default c e : in_step c e → default (c_revision c) (held_revision e) = c_revision c.
Proof. unfold in_step. by destruct (held_revision e). Qed.

(** C20. Editing a prompt the Node still holds: while no answer is lost the
    Hub's row and the Node's registry stay at one revision, the edit is
    accepted, and what the Hub then shows is what the Node will run. *)
Theorem node_edit_keeps_hub_and_node_together id i l m c e t :
  l_commands l !! id = Some c → m !! id = Some e → held_state e = Waiting → in_step c e →
  0 ≤ c_revision c < u64_max → plain_send (c_payload c) = true →
  let '(p, r) := edit_on_node id i c (c_revision c) t Answered (mkPair l m) in
  ∃ d e', r = Ok d ∧ l_commands (pr_hub p) !! id = Some d ∧ pr_node p !! id = Some e' ∧
    c_revision d = c_revision c + 1 ∧ in_step d e' ∧ held_text e' = Some (wire t) ∧ node_prompt (c_payload d) = t.
Proof.
  intros Hc He Hw Hs Hr Hp. unfold edit_on_node. rewrite Z.eqb_refl. cbn [negb pr_node pr_hub].
  rewrite (edit_answer id _ _ m e) by (done || by apply in_step_default). rewrite bool_decide_true by done.
  set (c1 := set_payload (edit_text (c_payload c) t) (c_revision c + 1) c).
  assert (l_commands (record_node_edit id i c (c_revision c) t l) !! id = l_commands (release_memory_line i id
    (update id always (set_payload (edit_text (c_payload c) t) (c_revision c + 1)) l)) !! id) as -> by done.
  destruct (release_row i id (update id always (set_payload (edit_text (c_payload c) t) (c_revision c + 1)) l) id c1)
    as (d & Hd & Hdp & Hdr & _).
  { rewrite update_lookup, decide_True, Hc by done. done. }
  rewrite Hd. eexists d, _. split_and!; [done|exact Hd|simpl; by rewrite lookup_insert_eq|done| |done|].
  - unfold in_step. cbn [held_revision]. rewrite Hdr. unfold wrap64.
    etrans; [apply Z.mod_small; unfold u64_max in Hr; lia|done].
  - rewrite Hdp. by apply edit_text_reads.
Qed.

(** The answer of an edit is lost: the Node went on by one revision and the Hub
    did not, and no later edit, whatever revision it names, gets past both. *)
Theorem lost_edit_answer_blocks_every_edit id i l m c e t x t' call :
  l_commands l !! id = Some c → m !! id = Some e → held_state e = Waiting → in_step c e → 0 ≤ c_revision c < u64_max →
  let p := (edit_on_node id i c (c_revision c) t (Unanswered true) (mkPair l m)).1 in
  l_commands (pr_hub p) !! id = Some c ∧ ∃ err, edit_on_node id i c x t' call p = (p, Err err).
Proof.
  intros Hc He Hw Hs Hr. unfold edit_on_node. rewrite Z.eqb_refl. cbn [negb pr_node pr_hub].
  rewrite (edit_answer id _ _ m e) by (done || by apply in_step_default). cbn [fst pr_node pr_hub]. split; [done|].
  destruct (Z.eqb_spec x (c_revision c)) as [->|]; cbn [negb]; [|by eexists].
  unfold edit. rewrite lookup_insert_eq. cbn [held_state held_revision]. rewrite decide_True by done.
  change (default (c_revision c) (Some (wrap64 (c_revision c + 1)))) with (wrap64 (c_revision c + 1)).
  assert (wrap64 (c_revision c + 1) =? c_revision c = false) as ->.
  { apply Z.eqb_neq. unfold wrap64, u64_max in *. rewrite Z.mod_small by lia. lia. }
  destruct call as [| |[]]; eexists; reflexivity.
Qed.

End held.

(** ** Withdrawing *)

(** The row is withdrawn, or a withdrawal of it is under way. *)
Definition withdrawing (id : string) (ident : CmdIdent) (l : Ledger) : Prop :=
  ∃ c, l_commands l !! id = Some c ∧ c_ident c = ident ∧
    ((c_state c ≠ CmdSettled ∧ p_intent (c_progress c) ≠ None) ∨
     (c_state c = CmdSettled ∧ c_outcome c = Some "withdrawn"%string)).
Lemma withdrawing_quiet_settled id l l' c : quiet_ledger l l' → l_commands l !! id = Some c →
  c_state c = CmdSettled → c_outcome c = Some "withdrawn"%string → withdrawing id (c_ident c) l'.
Proof.
  intros Hq Hc Hs Ho. destruct (quiet_row _ _ _ _ Hq Hc) as (d & Hd & Q). exists d.
  split_and!; [done|apply Q|]. right. split; [by eapply rank_settled; [apply Q|]|].
  destruct (q_stands _ _ Q Hs) as [E|[E _]]; unfold c_outcome in *; congruence.
Qed.
Lemma withdrawing_mark id by_ ident l : withdrawing id ident l → withdrawing id ident (mark_withdraw_intent id by_ l).1.
Proof.
  intros (c & Hc & Hi & Hw). unfold withdrawing, mark_withdraw_intent. cbn [fst].
  rewrite update_lookup, decide_True, Hc by done. simpl. eexists. split; [done|].
  destruct Hw as [[Hs Hp]|[Hs Ho]].
  - rewrite (proj2 (settled_dec c) Hs). split; [done|]. by left.
  - assert (unsettled c = false) as -> by (apply not_true_iff_false; rewrite settled_dec; tauto).
    split; [done|]. by right.
Qed.
Lemma withdrawing_record id i by_ ident l :
  withdrawing id ident l → withdrawing id ident (record_node_withdraw id i by_ l).
Proof.
  intros (c & Hc & <- & Hw). destruct Hw as [[Hs Hp]|[Hs Ho]].
  - unfold record_node_withdraw. rewrite Hc, (proj2 (settled_dec c) Hs). cbn [orb].
    set (d := set_withdrawn_by (Some by_) (settle "withdrawn" None c)).
    apply (withdrawing_quiet_settled id (put_cmd id d l) _ d); [apply quiet_release_memory| |done..].
    simpl. by rewrite lookup_insert_eq.
  - by eapply withdrawing_quiet_settled; [apply quiet_node_withdraw|..].
Qed.
(** What is left of the intent when the Node says no. *)
Lemma withdrawing_refused id by_ ident l : withdrawing id ident l →
  let '(l', earlier) := mark_withdraw_intent id by_ l in
  withdrawing id ident (if earlier then l' else clear_withdraw_intent id l').
Proof.
  intros H. pose proof (withdrawing_mark id by_ ident l H) as Hm. unfold mark_withdraw_intent in *. cbn [fst] in Hm.
  destruct H as (c & Hc & Hi & Hw). rewrite Hc. case_bool_decide as He; [done|].
  destruct Hw as [[_ Hp]|[Hs Ho]]; [done|].
  assert (unsettled c = false) as Hu by (apply not_true_iff_false; rewrite settled_dec; tauto).
  exists c. unfold clear_withdraw_intent. rewrite !update_lookup, !decide_True, Hc by done. simpl.
  rewrite Hu. simpl. rewrite Hu. auto.
Qed.
Lemma withdrawing_call id i row x by_ call ident l m :
  withdrawing id ident l → withdrawing id ident (pr_hub (withdraw_on_node id i row x by_ call (mkPair l m)).1).
Proof.
  intros H. unfold withdraw_on_node. destruct (match x with Some e => _ | None => _ end); [done|].
  pose proof (withdrawing_mark id by_ ident l H) as Hm. pose proof (withdrawing_refused id by_ ident l H) as Hr.
  cbn [pr_hub pr_node]. destruct (mark_withdraw_intent id by_ l) as [l' earlier]. cbn [fst snd] in *.
  destruct (withdraw id m) as [node outcome].
  destruct call; [destruct (bool_decide _)| |]; cbn [fst pr_hub]; [by apply withdrawing_record|done..].
Qed.
Lemma withdrawing_retries id i ident retries l : withdrawing id ident l →
  withdrawing id ident
    (foldl (λ l '(row, x, by_, call, m), pr_hub (withdraw_on_node id i row x by_ call (mkPair l m)).1) l retries).
Proof.
  revert l. induction retries as [|[[[[row x] by_] call] m] rs IH]; [done|]. intros l H. apply IH.
  by apply withdrawing_call.
Qed.
Lemma withdrawing_first id i l m c x by_ reached :
  l_commands l !! id = Some c → c_state c ≠ CmdSettled →
  match x with Some e => e = c_revision c | None => True end →
  withdrawing id (c_ident c) (pr_hub (withdraw_on_node id i c x by_ (Unanswered reached) (mkPair l m)).1).
Proof.
  intros Hc Hs Hx. unfold withdraw_on_node.
  replace (match x with Some e => negb (e =? c_revision c) | None => false end) with false
    by (destruct x; [by rewrite Hx, Z.eqb_refl|done]).
  cbn [pr_hub pr_node]. unfold mark_withdraw_intent. destruct (withdraw id m). cbn [fst pr_hub].
  eexists. rewrite update_lookup, decide_True, Hc by done. simpl. rewrite (proj2 (settled_dec c) Hs).
  split_and!; [done..|]. by left.
Qed.
(** The report of a prompt dropped before its dispatch. *)
Lemma withdrawing_reported id i host ident l message :
  withdrawing id ident l → id_host ident = host → id_instance ident = Some i →
  ∃ l' d, apply_command_projection host i id (ReportSettled (Some "cancelled"%string) message true) l = Ok l' ∧
    l_commands l' !! id = Some d ∧ c_state d = CmdSettled ∧ c_outcome d = Some "withdrawn"%string.
Proof.
  intros (c & Hc & Hi & Hw) Hh Hii. unfold apply_command_projection.
  rewrite Hc, Hi, Hh, Hii, !bool_decide_true by done. cbn [negb orb].
  rewrite (bool_decide_true ("cancelled"%string ∈ OUTCOMES)) by (vm_compute; set_solver).
  cbn [andb]. destruct Hw as [[Hs Hp]|[Hs Ho]].
  - rewrite (proj2 (settled_dec c) Hs). destruct (p_intent (c_progress c)) as [by_|]; [|done].
    rewrite (bool_decide_true (Some by_ ≠ None)) by done.
    destruct (release_row i id l id c Hc) as (d & Hd & _ & _ & Hdp).
    eexists _, _. split; [done|]. rewrite update_lookup, decide_True, Hd by done. simpl.
    assert (unsettled d = true) as -> by (unfold unsettled, c_state; rewrite Hdp; by apply settled_dec). done.
  - assert (unsettled c = false) as Hu by (apply not_true_iff_false; rewrite settled_dec; tauto).
    rewrite Hu. cbn [andb]. rewrite (bool_decide_false (@None string ≠ None)) by (by intros []). cbn [or_else]. eexists _, c. split; [done|].
    rewrite update_lookup, decide_True, Hc by done. simpl. by rewrite Hu.
Qed.
(** C21. A withdrawal whose answer is lost: whatever the later attempts meet,
    once the Node reports the prompt cancelled before its dispatch, the command
    ends withdrawn and not cancelled. *)
Theorem lost_withdraw_answer_still_ends_withdrawn id i host l m c x by_ reached retries message :
  l_commands l !! id = Some c → c_state c ≠ CmdSettled → id_host (c_ident c) = host → id_instance (c_ident c) = Some i →
  match x with Some e => e = c_revision c | None => True end →
  let l1 := pr_hub (withdraw_on_node id i c x by_ (Unanswered reached) (mkPair l m)).1 in
  let l2 := foldl (λ l '(row, x, by_, call, m), pr_hub (withdraw_on_node id i row x by_ call (mkPair l m)).1) l1 retries in
  ∃ l3 d, apply_command_projection host i id (ReportSettled (Some "cancelled"%string) message true) l2 = Ok l3 ∧
    l_commands l3 !! id = Some d ∧ c_state d = CmdSettled ∧ c_outcome d = Some "withdrawn"%string.
Proof.
  intros Hc Hs Hh Hi Hx l1 l2. apply (withdrawing_reported id i host (c_ident c)); [|done..].
  apply withdrawing_retries. by apply withdrawing_first.
Qed.
