(* ===== verification/HubExamples.v ===== *)
(** * The Hub's command queue on concrete commands

    Runs that meet the hypotheses of the theorems of [HubQueue] and [HubHeld],
    and runs that show where the queue does not do what its comments say. *)
From stdpp Require Import base list gmap strings numbers.
From S2P Require Import Prelude Json Text HeldInput HubCommands HubEdit HubLedger HubQueue HubHeld.
Local Open Scope Z_scope.

Definition ex_insts : gmap string Inst :=
  {[ "ins"%string := mkInst (Some [("model"%string, VString "m0")]) 0 None 0 "claude-pty" "idle" true ]}.
Definition ex_ident (operation key : string) (at_ : Z) : CmdIdent :=
  mkIdent (Some "ins"%string) "host" operation (Some key) None (Some "dev"%string) at_.
Definition ex_payload : Value := VObject [("text"%string, VString "hi")].
Definition open_gate : Gate := mkGate false false false.
Definition row_at (id : string) (h : Hub) : Cmd :=
  default (new_cmd (ex_ident "none" "none" 0) VNull) (l_commands (h_ledger h) !! id).
Definition ex_queue : HubOp := Queue true None "c1" (ex_ident "instance.send" "k1" 1) ex_payload.
Definition ex_forward (r : SendResult) : list HubOp := [Mark "c1" true open_gate; ReadBack "c1"; Send "c1" false r].
Definition ex_edit : HubOp := Edit "c1" 0 (Some "bye"%string) None.

(** ** Sending once *)

Definition once_ops : list HubOp :=
  [ex_queue] ++ ex_forward SendNoLink ++ [HubRestart] ++ ex_forward SendOut ++ ex_forward SendOut ++
  [Answer "c1" false ReplyLost; HubRestart] ++ ex_forward SendOut.
Definition once_end : Hub := hub_run once_ops (empty_hub ex_insts).
Lemma once_row : l_commands (h_ledger once_end) !! "c1"%string = Some (row_at "c1" once_end).
Proof. vm_compute. reflexivity. Qed.
Lemma once_callers : callers (row_at "c1" once_end).
Proof. vm_compute. discriminate. Qed.
Lemma command_is_sent_at_most_once_witness :
  l_commands (h_ledger once_end) !! "c1"%string = Some (row_at "c1" once_end) ∧
  (length (frames_of "c1" (hub_run once_ops (empty_hub ex_insts))) ≤ 1)%nat.
Proof. split; [exact once_row|]. exact (command_is_sent_at_most_once ex_insts "c1" once_ops _ once_row once_callers). Defined.
Lemma once_was_sent : frames_of "c1" once_end = [ex_payload].
Proof. vm_compute. reflexivity. Qed.

(** ** Withdrawing and editing at the Hub *)

Definition wait_ops : list HubOp := [ex_queue] ++ ex_forward SendNoLink.
Definition wait_hub : Hub := hub_run wait_ops (empty_hub ex_insts).
Definition result_row (r : result Cmd StoreErr) : Cmd :=
  match r with Ok c => c | Err _ => new_cmd (ex_ident "none" "none" 0) VNull end.
Definition wait_withdrawn : Cmd := result_row (withdraw_queued "c1" (Some 0) "dev" (h_ledger wait_hub)).2.
Definition wait_edited : Cmd := result_row (edit_queued "c1" 0 (Some "bye"%string) None (h_ledger wait_hub)).2.
Definition later_ops : list HubOp := ex_forward SendOut ++ [HubRestart; Project "host" "ins" "c1" ReportAccepted].
Lemma wait_row : l_commands (h_ledger wait_hub) !! "c1"%string = Some (row_at "c1" wait_hub).
Proof. vm_compute. reflexivity. Qed.
Lemma wait_waiting : waiting (row_at "c1" wait_hub) = true.
Proof. vm_compute. reflexivity. Qed.
Lemma wait_callers : callers (row_at "c1" wait_hub).
Proof. vm_compute. discriminate. Qed.
Lemma wait_withdraw_ok : (withdraw_queued "c1" (Some 0) "dev" (h_ledger wait_hub)).2 = Ok wait_withdrawn.
Proof. vm_compute. reflexivity. Qed.
Lemma wait_edit_ok : (edit_queued "c1" 0 (Some "bye"%string) None (h_ledger wait_hub)).2 = Ok wait_edited.
Proof. vm_compute. reflexivity. Qed.
Lemma later_edits_nothing : Forall (λ op, edits "c1" op = false) later_ops.
Proof. repeat constructor. Qed.
Lemma withdrawn_command_is_never_sent_witness :
  frames_of "c1" (hub_run later_ops (hub_step (Withdraw "c1" (Some 0) "dev") wait_hub)) = [].
Proof.
  exact (proj1 (proj2 (withdrawn_command_is_never_sent ex_insts "c1" wait_ops (Some 0) "dev" _ _ later_ops
    wait_row wait_waiting wait_withdraw_ok)) wait_callers).
Defined.
Lemma edited_payload_is_what_leaves_witness :
  Forall (λ p, p = c_payload wait_edited) (frames_of "c1" (hub_run later_ops (hub_step ex_edit wait_hub))).
Proof.
  exact (proj2 (edited_payload_is_what_leaves ex_insts "c1" wait_ops 0 (Some "bye"%string) None _ _ later_ops
    wait_row wait_callers wait_edit_ok later_edits_nothing)).
Defined.
Lemma edited_payload_left :
  frames_of "c1" (hub_run later_ops (hub_step ex_edit wait_hub)) = [VObject [("text"%string, VString "bye")]].
Proof. vm_compute. reflexivity. Qed.

(** ** Settling and replaying *)

Definition done_hub : Hub := hub_step (Withdraw "c1" None "dev") wait_hub.
Lemma done_row : l_commands (h_ledger done_hub) !! "c1"%string = Some (row_at "c1" done_hub).
Proof. vm_compute. reflexivity. Qed.
Lemma done_settled : c_state (row_at "c1" done_hub) = CmdSettled.
Proof. vm_compute. reflexivity. Qed.
Lemma settlement_is_final_witness :
  ∃ d, l_commands (h_ledger (hub_run (Aborted "c1" "gone" :: later_ops) done_hub)) !! "c1"%string = Some d ∧
    c_state d = CmdSettled ∧
    (c_outcome d = c_outcome (row_at "c1" done_hub) ∨
     (c_outcome (row_at "c1" done_hub) = Some "cancelled"%string ∧ c_outcome d = Some "withdrawn"%string)).
Proof. exact (settlement_is_final "c1" done_hub _ (Aborted "c1" "gone" :: later_ops) done_row done_settled). Defined.
Lemma replay_origin : origin ex_payload ≠ Some "hub"%string.
Proof. vm_compute. discriminate. Qed.
Lemma replay_first :
  (queue_command true None "c1" (ex_ident "instance.send" "k1" 1) ex_payload
     (h_ledger (hub_run [] (empty_hub ex_insts)))).2 = Ok ("c1"%string, true).
Proof. vm_compute. reflexivity. Qed.
Definition replay_ledger : Ledger :=
  h_ledger (hub_run (ex_edit :: later_ops) (hub_step ex_queue (hub_run [] (empty_hub ex_insts)))).
Lemma replay_finds_the_command_witness :
  queue_command true None "c2" (ex_ident "instance.send" "k1" 1) ex_payload replay_ledger =
  (replay_ledger, Ok ("c1"%string, false)).
Proof.
  exact (replay_finds_the_command ex_insts [] None "c1" (ex_ident "instance.send" "k1" 1) ex_payload "c1" "k1"
    (ex_edit :: later_ops) None "c2" eq_refl replay_origin replay_first (or_introl eq_refl)).
Defined.

(** ** Prompts the Node holds *)

Definition held_hub : Ledger :=
  h_ledger (hub_run (ex_forward SendOut ++ [Answer "c1" false ReplyAccepted]) (hub_step ex_queue (empty_hub ex_insts))).
Definition held_row : Cmd := row_at "c1" (mkHub held_hub ∅ []).
Definition held_node : gmap string Held := hold "c1" ∅.
Definition held_entry : Held := mkHeld Waiting None None.
Definition ascii_wire (s : string) : text := (λ a, Z.of_nat (Ascii.nat_of_ascii a)) <$> String.list_ascii_of_string s.
Lemma held_row_at : l_commands held_hub !! "c1"%string = Some held_row.
Proof. vm_compute. reflexivity. Qed.
Lemma held_entry_at : held_node !! "c1"%string = Some held_entry.
Proof. vm_compute. reflexivity. Qed.
Lemma held_revision_bound : 0 ≤ c_revision held_row < u64_max.
Proof. vm_compute. split; [discriminate|reflexivity]. Qed.
Lemma held_plain : plain_send (c_payload held_row) = true.
Proof. vm_compute. reflexivity. Qed.
Lemma held_unsettled : c_state held_row ≠ CmdSettled.
Proof. vm_compute. discriminate. Qed.
Lemma held_host : id_host (c_ident held_row) = "host"%string.
Proof. vm_compute. reflexivity. Qed.
Lemma held_instance : id_instance (c_ident held_row) = Some "ins"%string.
Proof. vm_compute. reflexivity. Qed.
Lemma node_edit_keeps_hub_and_node_together_witness :
  let '(p, r) := edit_on_node ascii_wire "c1" "ins" held_row (c_revision held_row) "bye" Answered (mkPair held_hub held_node) in
  ∃ d e', r = Ok d ∧ l_commands (pr_hub p) !! "c1"%string = Some d ∧ pr_node p !! "c1"%string = Some e' ∧
    c_revision d = c_revision held_row + 1 ∧ in_step d e' ∧ held_text e' = Some (ascii_wire "bye") ∧
    node_prompt (c_payload d) = "bye"%string.
Proof.
  exact (node_edit_keeps_hub_and_node_together ascii_wire "c1" "ins" held_hub held_node held_row held_entry "bye"
    held_row_at held_entry_at eq_refl I held_revision_bound held_plain).
Defined.
(** The Hub still shows revision 0 and the old text; an edit that names
    revision 0 is refused by the Node, one that names 1 by the Hub. *)
Lemma lost_edit_answer_blocks_every_edit_witness :
  let p := (edit_on_node ascii_wire "c1" "ins" held_row (c_revision held_row) "bye" (Unanswered true)
              (mkPair held_hub held_node)).1 in
  l_commands (pr_hub p) !! "c1"%string = Some held_row ∧
  ∃ err, edit_on_node ascii_wire "c1" "ins" held_row 1 "again" Answered p = (p, Err err).
Proof.
  exact (lost_edit_answer_blocks_every_edit ascii_wire "c1" "ins" held_hub held_node held_row held_entry "bye" 1 "again"
    Answered held_row_at held_entry_at eq_refl I held_revision_bound).
Defined.
Definition ex_retries : list (Cmd * option Z * string * Call * gmap string Held) :=
  [(held_row, None, "dev"%string, Unsent, held_node); (held_row, None, "dev"%string, Answered, ∅)].
Lemma lost_withdraw_answer_still_ends_withdrawn_witness :
  ∃ l3 d, apply_command_projection "host" "ins" "c1" (ReportSettled (Some "cancelled"%string) None true)
      (foldl (λ l '(row, x, by_, call, m), pr_hub (withdraw_on_node "c1" "ins" row x by_ call (mkPair l m)).1)
         (pr_hub (withdraw_on_node "c1" "ins" held_row None "dev" (Unanswered true) (mkPair held_hub held_node)).1)
         ex_retries) = Ok l3 ∧
    l_commands l3 !! "c1"%string = Some d ∧ c_state d = CmdSettled ∧ c_outcome d = Some "withdrawn"%string.
Proof.
  exact (lost_withdraw_answer_still_ends_withdrawn "c1" "ins" "host" held_hub held_node held_row None "dev" true ex_retries
    None held_row_at held_unsettled held_host held_instance I).
Defined.

(** ** Where the queue does not do what it says *)

Definition set_model (m : string) : Value := VObject [("model"%string, VString m)].
Definition ex_configure (id : string) (m : string) (at_ : Z) : list HubOp :=
  [Queue true (Some id) id (ex_ident "instance.configure" id at_) (set_model m);
   Configure "ins" (Some id) (set_model m) None None].
Definition model_of (h : Hub) : option Value :=
  match l_instances (h_ledger h) !! "ins"%string with
  | Some x => match i_spec x with Some spec => assoc "model" spec | None => None end
  | None => None
  end.
(** Two queued configures are withdrawn, the older one first: the instance is
    left with the model of the older one, which nobody asks for any more. *)
Theorem withdrawing_two_configures_leaves_the_first :
  let h := hub_run (ex_configure "a" "m1" 1 ++ ex_configure "b" "m2" 2 ++
                    [Withdraw "a" None "dev"; Withdraw "b" None "dev"]) (empty_hub ex_insts) in
  model_of h = Some (VString "m1") ∧ c_outcome (row_at "a" h) = Some "withdrawn"%string ∧
  c_outcome (row_at "b" h) = Some "withdrawn"%string.
Proof. vm_compute. auto. Qed.
(** Two queued configures ask for the same model: withdrawing the older one
    drops the model the other one still asks for. *)
Theorem withdrawing_one_of_two_equal_configures_drops_both :
  let h := hub_run (ex_configure "a" "m1" 1 ++ ex_configure "b" "m1" 2 ++ [Withdraw "a" None "dev"]) (empty_hub ex_insts) in
  model_of h = Some (VString "m0") ∧ waiting (row_at "b" h) = true ∧ c_payload (row_at "b" h) = set_model "m1".
Proof. vm_compute. auto. Qed.
(** The limit of the list counts the Hub's own notices, which the list then
    leaves out: with enough of them a caller's queued command is not listed. *)
Definition ex_notice (id : string) (at_ : Z) : HubOp :=
  Queue true (Some id) id (ex_ident "instance.send" id at_)
    (VObject [("origin"%string, VString "hub"); ("text"%string, VString "notice")]).
Theorem listed_commands_are_hidden_by_notices :
  let h := hub_run [ex_queue; ex_notice "n1" 2; ex_notice "n2" 3] (empty_hub ex_insts) in
  list_queued ViewOwner None 2 (h_ledger h) = [] ∧ waiting (row_at "c1" h) = true ∧
  visible ViewOwner (row_at "c1" h) = true ∧
  list_queued ViewOwner None 3 (h_ledger h) = [("c1"%string, HeldHub)].
Proof. vm_compute. auto. Qed.
(** A create the Node was too busy for: the frame never left, yet its row is
    neither rejected nor released, and no later attempt sends it. *)
Definition ex_create : HubOp := Queue true None "c1" (ex_ident "instance.create" "k1" 1) (VObject []).
Theorem busy_create_is_left_in_flight :
  let h := hub_run (ex_create :: ex_forward SendBusy ++ [HubRestart] ++ ex_forward SendOut) (empty_hub ex_insts) in
  c_state (row_at "c1" h) = CmdQueued ∧ c_forwarded (row_at "c1" h) = true ∧ c_outcome (row_at "c1" h) = None ∧
  frames_of "c1" h = [].
Proof. vm_compute. auto. Qed.
