(* ===== verification/FenceHub.v ===== *)
(** * The fence transaction of the Hub

    [remuda-hub/src/fence.rs] with the authority check of [store.rs]: F moves
    the authority over a lineage to a new generation in one writer transaction.
    It fences the chapter, deletes its credentials, cancels what was admitted
    but not sent, records what may have run, supersedes the chapter's pending
    interactions and leaves one delivery per host, which the host acknowledges
    later.  This file holds the tables, F in its two modes, the resume of a
    paused lineage, the successor's transaction, the acknowledgement and the
    checks that read the tables.  The command table is the ledger of
    [HubCommands], a gate job's document that of [GateQueue].  Timestamps, the
    audit log, push records and settlement events are not kept. *)
From stdpp Require Import base list gmap strings numbers sorting.
From S2P Require Import Prelude Json GateQueue HubCommands.
Local Open Scope Z_scope.
Local Open Scope remuda_scope.

Definition FENCED : string := "fenced".

(** ** The tables *)

(** [lineages], with its three stored states. *)
Inductive LinState : Type := LStarting | LRunning | LPaused.
#[export] Instance LinState_eq_dec : EqDecision LinState.
Proof. solve_decision. Defined.
Record Lineage : Type := mkLineage {
  ln_current : string;
  ln_generation : Z;
  ln_state : LinState;
  ln_paused_by : option Value;
}.
(** A row of [instances]: a chapter of a lineage. *)
Record Chapter : Type := mkChapter {
  ch_host : string;
  ch_lineage : string;
  ch_generation : Z;
  ch_fenced : bool;
}.
(** What authority is read from; a device is bound to an instance or not, a
    host advertised [lineageFence] or not. *)
Record Auth : Type := mkAuth {
  a_lineages : gmap string Lineage;
  a_chapters : gmap string Chapter;
  a_devices : gmap string (option string);
  a_hosts : gmap string bool;
}.

(** A row of [fences], in rowid order. *)
Record Fence : Type := mkFence {
  fe_id : string;
  fe_lineage : string;
  fe_fenced : Z;
  fe_live : Z;
  fe_predecessor : string;
  fe_successor : option string;
  fe_close : option string;
  fe_successor_command : option string;
}.
(** [fence_ops]: the kinds of operation, [mod outcome], a row. *)
Inductive OpKind : Type := KCommand | KGateJob | KNodeOp.
#[export] Instance OpKind_eq_dec : EqDecision OpKind.
Proof. solve_decision. Defined.
Inductive Outcome : Type :=
| OCancelledAtHub | OWithheld | OUnknown | ORunning | ORan | OCancelledByNode | ORefusedByNode.
#[export] Instance Outcome_eq_dec : EqDecision Outcome.
Proof. solve_decision. Defined.
Record FenceOp : Type := mkFenceOp {
  fop_fence : string;
  fop_kind : OpKind;
  fop_op : string;
  fop_host : option string;
  fop_lineage : string;
  fop_generation : Z;
  fop_operation : option string;
  fop_outcome : Outcome;
}.
(** [fences], [fence_deliveries] ([true] once acknowledged), [fence_ops]. *)
Record FenceTables : Type := mkFenceTables {
  f_fences : list Fence;
  f_deliveries : gmap (string * string) bool;
  f_ops : list FenceOp;
}.

(** [node_ops] by (op, host), with the values its statements write to [state]. *)
Inductive NodeOpState : Type := OpAdmitted | OpSent | OpSettled | OpCanceled | OpWithheld.
#[export] Instance NodeOpState_eq_dec : EqDecision NodeOpState.
Proof. solve_decision. Defined.
Record NodeOp : Type := mkNodeOp {
  no_method : string;
  no_initiator : option HubInitiator;
  no_state : NodeOpState;
}.
Definition set_op_state (x : NodeOpState) (o : NodeOp) : NodeOp := mkNodeOp (no_method o) (no_initiator o) x.
(** [interactions]. *)
Inductive InteractionState : Type := IPending | ISuperseded | ISettled.
#[export] Instance InteractionState_eq_dec : EqDecision InteractionState.
Proof. solve_decision. Defined.
Record Interaction : Type := mkInteraction {
  ix_instance : string;
  ix_state : InteractionState;
  ix_superseded_by : option string;
  ix_blocking : bool;
}.
Record Work : Type := mkWork {
  w_node_ops : gmap (string * string) NodeOp;
  w_jobs : gmap string (option HubInitiator * GateJob);
  w_interactions : gmap string Interaction;
  w_device : gmap string string;
}.

(** The database: [w_device] is the column [initiator_device_id] of [commands],
    [b_hub] the ledger with the forwards that run on it. *)
Record HubDb : Type := mkHubDb {
  b_auth : Auth;
  b_fences : FenceTables;
  b_work : Work;
  b_hub : Hub;
}.
Definition ledger (b : HubDb) : gmap string Cmd := l_commands (h_ledger (b_hub b)).
Definition set_auth (a : Auth) (b : HubDb) : HubDb := mkHubDb a (b_fences b) (b_work b) (b_hub b).
Definition set_fences (f : FenceTables) (b : HubDb) : HubDb := mkHubDb (b_auth b) f (b_work b) (b_hub b).
Definition set_work (w : Work) (b : HubDb) : HubDb := mkHubDb (b_auth b) (b_fences b) w (b_hub b).
Definition set_hub (h : Hub) (b : HubDb) : HubDb := mkHubDb (b_auth b) (b_fences b) (b_work b) h.
Definition set_lineages (m : gmap string Lineage) (a : Auth) : Auth :=
  mkAuth m (a_chapters a) (a_devices a) (a_hosts a).
Definition set_chapters (m : gmap string Chapter) (a : Auth) : Auth :=
  mkAuth (a_lineages a) m (a_devices a) (a_hosts a).
Definition set_devices (m : gmap string (option string)) (a : Auth) : Auth :=
  mkAuth (a_lineages a) (a_chapters a) m (a_hosts a).
Definition set_hosts (m : gmap string bool) (a : Auth) : Auth :=
  mkAuth (a_lineages a) (a_chapters a) (a_devices a) m.
Definition set_ops (x : list FenceOp) (b : HubDb) : HubDb :=
  set_fences (mkFenceTables (f_fences (b_fences b)) (f_deliveries (b_fences b)) x) b.
Definition set_node_ops (m : gmap (string * string) NodeOp) (w : Work) : Work :=
  mkWork m (w_jobs w) (w_interactions w) (w_device w).
Definition set_jobs (m : gmap string (option HubInitiator * GateJob)) (w : Work) : Work :=
  mkWork (w_node_ops w) m (w_interactions w) (w_device w).
Definition set_interactions (m : gmap string Interaction) (w : Work) : Work :=
  mkWork (w_node_ops w) (w_jobs w) m (w_device w).
Definition set_device_column (m : gmap string string) (w : Work) : Work :=
  mkWork (w_node_ops w) (w_jobs w) (w_interactions w) m.

(** ** Authority *)

(** [check_initiator]: [true] where the code returns [Ok]. *)
Definition device_ok (a : Auth) (i : HubInitiator) (device : option string) : bool :=
  match device with
  | None => true
  | Some d =>
      match a_devices a !! d with
      | Some (Some bound) => bool_decide (bound = hi_instance i)
      | Some None => true
      | None => false
      end
  end.
Definition check_initiator (a : Auth) (ini : option HubInitiator) (device : option string) : bool :=
  match ini with
  | None => true
  | Some i =>
      match a_chapters a !! hi_instance i with
      | None => false
      | Some ch =>
          let lin := a_lineages a !! ch_lineage ch in
          let live := match lin with Some l => ln_generation l | None => ch_generation ch end in
          let paused := match lin with Some l => bool_decide (ln_state l = LPaused) | None => false end in
          negb (ch_fenced ch) && (live =? hi_generation i) && negb paused && device_ok a i device
      end
  end.
(** [initiator_for]: the stamp of a chapter. *)
Definition stamp_of (a : Auth) (inst : string) : option HubInitiator :=
  (λ ch, mkHubInitiator inst (ch_lineage ch) (ch_generation ch)) <$> a_chapters a !! inst.

(** [host_capable], [host_gated], [initiator_is_continuity], [host_refusal]. *)
Definition host_capable (a : Auth) (host : string) : bool := default false (a_hosts a !! host).
Definition undelivered (f : FenceTables) (host : string) : bool :=
  existsb (λ p, bool_decide (p.1.2 = host) && negb p.2) (map_to_list (f_deliveries f)).
Definition host_gated (b : HubDb) (host : string) : bool :=
  host_capable (b_auth b) host && undelivered (b_fences b) host.
Definition initiator_is_continuity (a : Auth) (ini : option HubInitiator) : bool :=
  match ini with Some i => bool_decide (is_Some (a_lineages a !! hi_lineage i)) | None => false end.
Inductive HostRefusal : Type := Gated | LacksFence.
Definition host_refusal (b : HubDb) (host : string) (ini : option HubInitiator) : option HostRefusal :=
  if host_gated b host then Some Gated
  else if initiator_is_continuity (b_auth b) ini && negb (host_capable (b_auth b) host) then Some LacksFence
  else None.

(** ** The fence record of an operation *)

Definition set_outcome (x : Outcome) (o : FenceOp) : FenceOp :=
  mkFenceOp (fop_fence o) (fop_kind o) (fop_op o) (fop_host o) (fop_lineage o) (fop_generation o)
    (fop_operation o) x.
Definition same_op (kind : OpKind) (op : string) (x : FenceOp) : bool :=
  bool_decide (fop_kind x = kind) && bool_decide (fop_op x = op).
(** [record_op]: [INSERT OR IGNORE] on (fence, kind, op). *)
Definition same_key (x y : FenceOp) : bool :=
  bool_decide (fop_fence y = fop_fence x) && same_op (fop_kind x) (fop_op x) y.
Definition record_op (ops : list FenceOp) (x : FenceOp) : list FenceOp :=
  if existsb (same_key x) ops then ops else ops ++ [x].
Definition record_all (xs ops : list FenceOp) : list FenceOp := foldl record_op ops xs.
(** [UPDATE fence_ops SET outcome = ? WHERE ... AND outcome = 'unknown'], and
    [resolve_op_outcome]. *)
Definition resolve (p : FenceOp → bool) (to : Outcome) (ops : list FenceOp) : list FenceOp :=
  (λ x, if p x && bool_decide (fop_outcome x = OUnknown) then set_outcome to x else x) <$> ops.
Definition resolve_op_outcome (kind : OpKind) (op : string) : Outcome → list FenceOp → list FenceOp :=
  resolve (same_op kind op).
Definition on_host (host : string) (x : FenceOp) : bool := bool_decide (fop_host x = Some host).
Definition resolve_op (kind : OpKind) (op : string) (to : Outcome) (b : HubDb) : HubDb :=
  set_ops (resolve_op_outcome kind op to (f_ops (b_fences b))) b.
Definition resolve_node_op (op host : string) (to : Outcome) (b : HubDb) : HubDb :=
  set_ops (resolve (λ x, same_op KNodeOp op x && on_host host x) to (f_ops (b_fences b))) b.

(** ** The steps of F *)

Definition initiated_below (lin : string) (g : Z) (i : option HubInitiator) : bool :=
  match i with Some i => bool_decide (hi_lineage i = lin) && (hi_generation i <=? g) | None => false end.
Definition generation_of (g : Z) (i : option HubInitiator) : Z :=
  match i with Some i => hi_generation i | None => g end.

(** Steps 1 to 3: the generation, the predecessor, the credentials. *)
Definition fence_chapter (inst : string) (a : Auth) : Auth :=
  set_chapters (alter (λ ch, mkChapter (ch_host ch) (ch_lineage ch) (ch_generation ch) true) inst (a_chapters a)) a.
Definition credential_of (lin : string) (live : Z) (predecessor : string) (a : Auth) (d : option string) : bool :=
  match d with
  | Some i =>
      bool_decide (i = predecessor) ||
      match a_chapters a !! i with
      | Some ch => bool_decide (ch_lineage ch = lin) && (ch_generation ch <? live)
      | None => false
      end
  | None => false
  end.
Definition delete_credentials (lin : string) (live : Z) (predecessor : string) (a : Auth) : Auth :=
  set_devices (filter (λ p, credential_of lin live predecessor a p.2 = false) (a_devices a)) a.

(** Step 4: the held commands, rejected in the ledger. *)
Definition command_op (fid lin : string) (g : Z) (x : Outcome) (ic : string * Cmd) : FenceOp :=
  let id := c_ident ic.2 in
  mkFenceOp fid KCommand ic.1 (Some (id_host id)) lin (generation_of g (id_initiator id))
    (Some (id_operation id)) x.
Definition fence_commands (fid lin : string) (g : Z) (b : HubDb) : HubDb :=
  let held := retain (λ ic, fenced_held lin g ic.2) (map_to_list (ledger b)) in
  set_ops (record_all (command_op fid lin g OCancelledAtHub <$> held) (f_ops (b_fences b)))
    (set_hub (on_ledger (fence_held lin g) (b_hub b)) b).
(** Step 5: forwarded and unsettled, recorded under no fence yet. *)
Definition recorded (kind : OpKind) (op : string) (b : HubDb) : bool :=
  existsb (same_op kind op) (f_ops (b_fences b)).
Definition maybe_ran (lin : string) (g : Z) (b : HubDb) (ic : string * Cmd) : bool :=
  initiated_below lin g (id_initiator (c_ident ic.2)) && c_forwarded ic.2 && unsettled ic.2 &&
  negb (recorded KCommand ic.1 b).
Definition fence_in_flight (fid lin : string) (g : Z) (b : HubDb) : HubDb :=
  set_ops (record_all (command_op fid lin g OUnknown <$> retain (maybe_ran lin g b) (map_to_list (ledger b)))
             (f_ops (b_fences b))) b.
(** Step 6: gate jobs. *)
Definition job_open (j : GateJob) : bool :=
  match j_state j with Queued | Running | Landing | Canceling => true | _ => false end.
Definition job_fenced (lin : string) (g : Z) (b : HubDb) (ij : string * (option HubInitiator * GateJob)) : bool :=
  initiated_below lin g ij.2.1 && job_open ij.2.2 && negb (recorded KGateJob ij.1 b).
Definition job_outcome (j : GateJob) : Outcome :=
  if bool_decide (j_state j = Queued) then OCancelledAtHub
  else if bool_decide (j_node_started_at j = None) then OUnknown else ORunning.
Definition job_op (fid lin : string) (g : Z) (ij : string * (option HubInitiator * GateJob)) : FenceOp :=
  mkFenceOp fid KGateJob ij.1 (j_host_id ij.2.2) lin (generation_of g ij.2.1) (Some "gate.run"%string)
    (job_outcome ij.2.2).
Definition cancel_job (now : Z) (j : GateJob) : GateJob :=
  if bool_decide (j_state j = Queued)
  then set_reason (Some FENCED) (set_finished_at (Some now) (set_state Canceled j)) else j.
Definition fence_jobs (now : Z) (fid lin : string) (g : Z) (b : HubDb) : HubDb :=
  let jobs := retain (job_fenced lin g b) (map_to_list (w_jobs (b_work b))) in
  set_ops (record_all (job_op fid lin g <$> jobs) (f_ops (b_fences b)))
    (set_work (set_jobs (map_imap (λ id ij, Some (if job_fenced lin g b (id, ij) then (ij.1, cancel_job now ij.2) else ij))
                           (w_jobs (b_work b))) (b_work b)) b).
(** Step 7: direct operations. *)
Definition node_op_open (o : NodeOp) : bool :=
  match no_state o with OpAdmitted | OpSent => true | _ => false end.
Definition node_op_fenced (lin : string) (g : Z) (b : HubDb) (io : string * string * NodeOp) : bool :=
  initiated_below lin g (no_initiator io.2) && node_op_open io.2 &&
  negb (existsb (λ x, same_op KNodeOp io.1.1 x && on_host io.1.2 x) (f_ops (b_fences b))).
Definition node_op_row (fid lin : string) (g : Z) (io : string * string * NodeOp) : FenceOp :=
  mkFenceOp fid KNodeOp io.1.1 (Some io.1.2) lin (generation_of g (no_initiator io.2)) (Some (no_method io.2))
    (if bool_decide (no_state io.2 = OpAdmitted) then OCancelledAtHub else OUnknown).
Definition cancel_node_op (o : NodeOp) : NodeOp :=
  if bool_decide (no_state o = OpAdmitted) then set_op_state OpCanceled o else o.
Definition fence_node_ops (fid lin : string) (g : Z) (b : HubDb) : HubDb :=
  let ops := retain (node_op_fenced lin g b) (map_to_list (w_node_ops (b_work b))) in
  set_ops (record_all (node_op_row fid lin g <$> ops) (f_ops (b_fences b)))
    (set_work (set_node_ops (map_imap (λ k o, Some (if node_op_fenced lin g b (k, o) then cancel_node_op o else o))
                               (w_node_ops (b_work b))) (b_work b)) b).
(** Step 8: the predecessor's pending interactions. *)
Definition supersede (predecessor by_ : string) (x : Interaction) : Interaction :=
  if bool_decide (ix_instance x = predecessor) && bool_decide (ix_state x = IPending)
  then mkInteraction (ix_instance x) ISuperseded (Some by_) false else x.
Definition supersede_interactions (predecessor by_ : string) (b : HubDb) : HubDb :=
  set_work (set_interactions (supersede predecessor by_ <$> w_interactions (b_work b)) (b_work b)) b.
(** Step 9: the durable fence, and a pending delivery for every known host. *)
Definition deliver_to (fid : string) (hosts : list string) (m : gmap (string * string) bool)
    : gmap (string * string) bool :=
  foldl (λ m host, match m !! (fid, host) with Some _ => m | None => <[(fid, host) := false]> m end) m hosts.
Definition known_hosts (a : Auth) : list string := sort_strings (map_to_list (a_hosts a)).*1.
Definition insert_fence (fe : Fence) (b : HubDb) : HubDb :=
  let f := b_fences b in
  set_fences (mkFenceTables (f_fences f ++ [fe]) (deliver_to (fe_id fe) (known_hosts (b_auth b)) (f_deliveries f))
                (f_ops f)) b.
Definition fence_taken (fe : Fence) (f : FenceTables) : bool :=
  existsb (λ x, bool_decide (fe_id x = fe_id fe) ||
                (bool_decide (fe_lineage x = fe_lineage fe) && (fe_live x =? fe_live fe))) (f_fences f).

(** ** F *)

(** [struct PauseClose], [enum FenceMode], [struct FenceSpec]. *)
Record PauseClose : Type := mkPauseClose {
  pc_command : string;
  pc_payload : Value;
  pc_key : option string;
}.
Inductive FenceMode : Type :=
| Pause (paused_by : Value) (close : option PauseClose)
| Successor (successor : string).
Record FenceSpec : Type := mkFenceSpec {
  fs_lineage : string;
  fs_expected : Z;
  fs_from : list LinState;
  fs_mode : FenceMode;
  fs_authority : option (HubInitiator * option string);
  fs_guard : bool;
}.
(** [struct FenceCore], [enum FenceTx], and the errors that roll back. *)
Record FenceCore : Type := mkFenceCore {
  fc_fence : string;
  fc_lineage : string;
  fc_fenced : Z;
  fc_live : Z;
  fc_predecessor : string;
  fc_predecessor_host : string;
  fc_hosts : list string;
}.
Inductive FenceTx : Type := Committed (core : FenceCore) | CasLost | StateRefused | Guarded | CloseExists.
Inductive FenceErr : Type := EFenced | EUnknownLineage | EChapterMissing | EConstraint | EUnknownHost | EGrants.

(** The command a pause queues for the chapter it fences. *)
Definition close_ident (close : PauseClose) (predecessor host : string) (now : Z) : CmdIdent :=
  mkIdent (Some predecessor) host "instance.close" (pc_key close) None None now.
Definition queue_close (close : option PauseClose) (predecessor host : string) (now : Z) (b : HubDb) : HubDb :=
  match close with
  | Some c =>
      set_hub (on_ledger (put_cmd (pc_command c) (new_cmd (close_ident c predecessor host now) (pc_payload c)))
                 (b_hub b)) b
  | None => b
  end.
Definition close_exists (m : FenceMode) (b : HubDb) : bool :=
  match m with
  | Pause _ (Some c) =>
      bool_decide (is_Some (ledger b !! pc_command c)) ||
      match pc_key c with Some k => bool_decide (is_Some (by_key k (h_ledger (b_hub b)))) | None => false end
  | _ => false
  end.
Definition pending_interaction (inst : string) (b : HubDb) : bool :=
  existsb (λ p, bool_decide (ix_instance p.2 = inst) && bool_decide (ix_state p.2 = IPending))
    (map_to_list (w_interactions (b_work b))).
Definition authority_ok (spec : FenceSpec) (a : Auth) : bool :=
  match fs_authority spec with Some (i, d) => check_initiator a (Some i) d | None => true end.

(** [resume_paused]: nothing new is fenced. *)
Definition resume_auth (lin : string) (l : Lineage) (successor : string) (a : Auth) : Auth :=
  let a := set_lineages (<[lin := mkLineage successor (ln_generation l) LStarting None]> (a_lineages a)) a in
  let a := fence_chapter (ln_current l) a in
  set_devices (filter (λ p, p.2 ≠ Some (ln_current l)) (a_devices a)) a.
Definition fence_at (lin : string) (g : Z) (f : FenceTables) : option Fence :=
  find_first (λ x, bool_decide (fe_lineage x = lin) && (fe_live x =? g)) (f_fences f).
Definition resume_paused (lin : string) (l : Lineage) (successor : string) (b : HubDb)
    : result (HubDb * FenceTx) FenceErr :=
  let g := ln_generation l in
  match a_chapters (b_auth b) !! ln_current l with
  | None => Err EChapterMissing
  | Some ch =>
      let pause_fence := match fence_at lin g (b_fences b) with Some x => fe_id x | None => ""%string end in
      Ok (set_auth (resume_auth lin l successor (b_auth b)) b,
          Committed (mkFenceCore pause_fence lin (g - 1) g (ln_current l) (ch_host ch) []))
  end.
(** Steps 1 to 9, once the guards have passed. *)
Definition next_lineage (m : FenceMode) (l : Lineage) : Lineage :=
  match m with
  | Pause by_ _ => mkLineage (ln_current l) (ln_generation l + 1) LPaused (Some by_)
  | Successor s => mkLineage s (ln_generation l + 1) LStarting None
  end.
Definition fence_auth (lin : string) (l : Lineage) (m : FenceMode) (a : Auth) : Auth :=
  delete_credentials lin (ln_generation l + 1) (ln_current l)
    (fence_chapter (ln_current l) (set_lineages (<[lin := next_lineage m l]> (a_lineages a)) a)).
Definition new_fence (fid lin : string) (l : Lineage) (m : FenceMode) : Fence :=
  let g := ln_generation l in
  match m with
  | Pause _ close => mkFence fid lin g (g + 1) (ln_current l) None (pc_command <$> close) None
  | Successor s => mkFence fid lin g (g + 1) (ln_current l) (Some s) None None
  end.
Definition fence_work (now : Z) (fid lin : string) (l : Lineage) (m : FenceMode) (b : HubDb) : HubDb :=
  let g := ln_generation l in
  let by_ := match m with Pause _ _ => lin | Successor s => s end in
  supersede_interactions (ln_current l) by_
    (fence_node_ops fid lin g (fence_jobs now fid lin g (fence_in_flight fid lin g (fence_commands fid lin g b)))).
Definition pause_close (m : FenceMode) : option PauseClose :=
  match m with Pause _ close => close | Successor _ => None end.
Definition fenced_db (now : Z) (fid lin : string) (l : Lineage) (m : FenceMode) (host : string) (b : HubDb) : HubDb :=
  let b := set_auth (fence_auth lin l m (b_auth b)) b in
  let b := insert_fence (new_fence fid lin l m) (fence_work now fid lin l m b) in
  queue_close (pause_close m) (ln_current l) host now b.
Definition fence_now (now : Z) (fid lin : string) (l : Lineage) (m : FenceMode) (b : HubDb)
    : result (HubDb * FenceTx) FenceErr :=
  match a_chapters (b_auth b) !! ln_current l with
  | None => Err EChapterMissing
  | Some ch =>
      if fence_taken (new_fence fid lin l m) (b_fences b) then Err EConstraint
      else Ok (fenced_db now fid lin l m (ch_host ch) b,
               Committed (mkFenceCore fid lin (ln_generation l) (ln_generation l + 1) (ln_current l) (ch_host ch)
                            (known_hosts (b_auth b))))
  end.
(** [fence_core]. *)
Definition fence_core (now : Z) (fid : string) (spec : FenceSpec) (b : HubDb) : result (HubDb * FenceTx) FenceErr :=
  let lin := fs_lineage spec in
  if negb (authority_ok spec (b_auth b)) then Err EFenced
  else
    match a_lineages (b_auth b) !! lin with
    | None => Err EUnknownLineage
    | Some l =>
        if negb (ln_generation l =? fs_expected spec) then Ok (b, CasLost)
        else if negb (bool_decide (ln_state l ∈ fs_from spec)) then Ok (b, StateRefused)
        else if close_exists (fs_mode spec) b then Ok (b, CloseExists)
        else if fs_guard spec && pending_interaction (ln_current l) b then Ok (b, Guarded)
        else
          match fs_mode spec, ln_state l with
          | Successor s, LPaused => resume_paused lin l s b
          | m, _ => fence_now now fid lin l m b
          end
    end.
(** [fence_lineage]: only a committed F is kept. *)
Definition fence_lineage (now : Z) (fid : string) (spec : FenceSpec) (b : HubDb) : HubDb * result FenceTx FenceErr :=
  match fence_core now fid spec b with
  | Ok (b', Committed core) => (b', Ok (Committed core))
  | Ok (_, tx) => (b, Ok tx)
  | Err e => (b, Err e)
  end.

(** ** The successor *)

(** [set_successor_command]. *)
Definition with_successor_command (cmd : string) (x : Fence) : Fence :=
  mkFence (fe_id x) (fe_lineage x) (fe_fenced x) (fe_live x) (fe_predecessor x) (fe_successor x) (fe_close x) (Some cmd).
Definition set_successor_command (fid cmd : string) (b : HubDb) : HubDb :=
  let f := b_fences b in
  set_fences (mkFenceTables ((λ x, if bool_decide (fe_id x = fid) then with_successor_command cmd x else x) <$> f_fences f)
                (f_deliveries f) (f_ops f)) b.
(** [continuation_resume_tx] without a restart decision; the ids are those it
    draws, [grants_ok] is what [enforce_grant_uniqueness] answers. *)
Inductive ResumeOperation : Type := ByCreate | ByResume.
Definition operation_str (o : ResumeOperation) : string :=
  match o with ByCreate => "instance.create" | ByResume => "instance.resume" end.
Record ResumeRequest : Type := mkResume {
  rq_addressed : string;
  rq_expected : Z;
  rq_from : list LinState;
  rq_host : string;
  rq_operation : ResumeOperation;
  rq_payload : Value;
  rq_successor : string;
  rq_command : string;
}.
Inductive ResumeResult : Type := Resumed (core : FenceCore) | Superseded (current : string).
Definition successor_ident (rq : ResumeRequest) (core : FenceCore) (host : string) (now : Z) : CmdIdent :=
  mkIdent (Some (rq_successor rq)) host (operation_str (rq_operation rq)) None
    (Some (mkHubInitiator (rq_successor rq) (fc_lineage core) (fc_live core))) None now.
Definition insert_successor (now : Z) (rq : ResumeRequest) (core : FenceCore) (ch : Chapter) (b : HubDb) : HubDb :=
  let a := b_auth b in
  let a := set_chapters (<[rq_successor rq := mkChapter (ch_host ch) (fc_lineage core) (fc_live core) false]>
                           (a_chapters a)) a in
  set_hub (on_ledger (put_cmd (rq_command rq)
             (new_cmd (successor_ident rq core (ch_host ch) now) (rq_payload rq))) (b_hub b)) (set_auth a b).
Definition resume_spec (rq : ResumeRequest) (lin : string) : FenceSpec :=
  mkFenceSpec lin (rq_expected rq) (rq_from rq) (Successor (rq_successor rq)) None false.
Definition resume_commit (now : Z) (grants_ok : bool) (rq : ResumeRequest) (current : string) (core : FenceCore)
    (b : HubDb) : result HubDb FenceErr :=
  match a_chapters (b_auth b) !! current with
  | None => Err EChapterMissing
  | Some ch =>
      if negb (bool_decide (is_Some (a_hosts (b_auth b) !! rq_host rq))) then Err EUnknownHost
      else if negb grants_ok then Err EGrants
      else if bool_decide (is_Some (a_chapters (b_auth b) !! rq_successor rq)) ||
              bool_decide (is_Some (ledger b !! rq_command rq)) then Err EConstraint
      else Ok (set_successor_command (fc_fence core) (rq_command rq) (insert_successor now rq core ch b))
  end.
Definition continuation_resume_tx (now : Z) (fid : string) (grants_ok : bool) (rq : ResumeRequest) (b : HubDb)
    : HubDb * result ResumeResult FenceErr :=
  match a_chapters (b_auth b) !! rq_addressed rq with
  | None => (b, Err EChapterMissing)
  | Some addressed =>
      let lin := ch_lineage addressed in
      match a_lineages (b_auth b) !! lin with
      | None => (b, Err EUnknownLineage)
      | Some l =>
          let current := ln_current l in
          if negb (bool_decide (rq_addressed rq = current)) then
            (b, if bool_decide (is_Some (a_chapters (b_auth b) !! current)) then Ok (Superseded current)
                else Err EChapterMissing)
          else
            match fence_core now fid (resume_spec rq lin) b with
            | Err e => (b, Err e)
            | Ok (b', Committed core) =>
                match resume_commit now grants_ok rq current core b' with
                | Ok b' => (b', Ok (Resumed core))
                | Err e => (b, Err e)
                end
            | Ok (_, _) => (b, Ok (Superseded current))
            end
      end
  end.

(** ** Acknowledgement *)

(** [enum FenceOutcome] of the protocol, [ack_fence]. *)
Inductive AckOutcome : Type := AckCancelled | AckRan | AckRefused | AckUnknown.
Definition ack_to (o : AckOutcome) : option Outcome :=
  match o with
  | AckCancelled => Some OCancelledByNode
  | AckRan => Some ORan
  | AckRefused => Some ORefusedByNode
  | AckUnknown => None
  end.
Definition ack_row (fid host op : string) (x : FenceOp) : bool :=
  bool_decide (fop_fence x = fid) && bool_decide (fop_op x = op) &&
  (bool_decide (fop_host x = None) || on_host host x).
Definition ack_one (fid host : string) (ops : list FenceOp) (r : string * AckOutcome) : list FenceOp :=
  match ack_to r.2 with Some to => resolve (ack_row fid host r.1) to ops | None => ops end.
(** The follow-on commands of the fence that target the host, still held. *)
Definition is_follow_on (fe : Fence) (id : string) : bool :=
  bool_decide (fe_close fe = Some id) || bool_decide (fe_successor_command fe = Some id).
Definition follow_ons (fid host : string) (b : HubDb) : list string :=
  (retain (λ ic, waiting ic.2 && bool_decide (id_host (c_ident ic.2) = host) &&
                 existsb (λ fe, bool_decide (fe_id fe = fid) && is_follow_on fe ic.1) (f_fences (b_fences b)))
     (map_to_list (ledger b))).*1.
Definition ack_fence (fid host : string) (outcomes : list (string * AckOutcome)) (b : HubDb) : HubDb * list string :=
  let f := b_fences b in
  let b := set_fences (mkFenceTables (f_fences f) (alter (λ _, true) (fid, host) (f_deliveries f))
                         (foldl (ack_one fid host) (f_ops f) outcomes)) b in
  (b, follow_ons fid host b).
(** [pending_fences], in creation order. *)
Definition pending_fences (host : string) (b : HubDb) : list Fence :=
  retain (λ fe, bool_decide (f_deliveries (b_fences b) !! (fe_id fe, host) = Some false)) (f_fences (b_fences b)).

(** ** The read model *)

(** [command_outcome]: the record refined by the command's own settlement. *)
Definition command_outcome (recorded_ : Outcome) (c : option Cmd) : Outcome :=
  match c with
  | Some c =>
      if bool_decide (recorded_ = OUnknown) && bool_decide (c_state c = CmdSettled) then
        if bool_decide (c_outcome c = Some "completed"%string) then ORan
        else if bool_decide (c_outcome c = Some "withheld"%string) then OWithheld
        else if bool_decide (c_outcome c = Some "rejected"%string) &&
                bool_decide (p_reason (c_progress c) = Some FENCED) then OCancelledByNode
        else recorded_
      else recorded_
  | None => recorded_
  end.
(** [lineage_fences]: each fence with its unacknowledged hosts and its
    operations, by kind (as its name sorts) and id. *)
Definition pending_hosts (fid : string) (b : HubDb) : list string :=
  retain (λ host, bool_decide (f_deliveries (b_fences b) !! (fid, host) = Some false)) (known_hosts (b_auth b)).
Definition op_view (b : HubDb) (x : FenceOp) : FenceOp :=
  match fop_kind x with
  | KCommand => set_outcome (command_outcome (fop_outcome x) (ledger b !! fop_op x)) x
  | _ => x
  end.
Definition of_kind (fid : string) (b : HubDb) (kind : OpKind) : list FenceOp :=
  snd <$> merge_sort key_le
    ((λ x, (fop_op x, x)) <$> retain (λ x, bool_decide (fop_fence x = fid) && bool_decide (fop_kind x = kind)) (f_ops (b_fences b))).
Definition fence_operations (fid : string) (b : HubDb) : list FenceOp :=
  of_kind fid b KCommand ++ of_kind fid b KGateJob ++ of_kind fid b KNodeOp.
Definition lineage_fences (lin : string) (b : HubDb) : list (Fence * list string * list FenceOp) :=
  (λ fe, (fe, pending_hosts (fe_id fe) b, op_view b <$> fence_operations (fe_id fe) b))
    <$> retain (λ fe, bool_decide (fe_lineage fe = lin)) (f_fences (b_fences b)).
