(* ===== verification/FenceSteps.v ===== *)
(** * The Hub around its fences

    What runs between two fences, on the tables of [FenceHub]: the forward of a
    command with its authority check, its host gate and its send gate
    ([http.rs]), the admission of a direct operation ([node_ops.rs]), the
    in-memory fence map, the delivery of fences to a host and the commands it
    held ([fence.rs]).  A writer job is one step; what the process does between
    two of them is the volatile part of the state, lost by a restart. *)
From stdpp Require Import base list gmap strings numbers sorting.
From S2P Require Import Prelude Json GateQueue HubCommands FenceHub.
Local Open Scope Z_scope.

(** ** The volatile state *)

(** [call_admitted_frame] of one direct operation, up to its next await. *)
Inductive CallPhase : Type := CAdmit | CIntent | CGate | CWire | CReply | COffline.
Record Call : Type := mkCall {
  cl_op : string;
  cl_host : string;
  cl_method : string;
  cl_initiator : option HubInitiator;
  cl_device : option string;
  cl_phase : CallPhase;
}.
Definition set_phase (p : CallPhase) (c : Call) : Call :=
  mkCall (cl_op c) (cl_host c) (cl_method c) (cl_initiator c) (cl_device c) p.
(** [deliver_host]: the fences still to deliver with the follow-on commands so
    far, then the commands to forward. *)
Inductive Delivery : Type := DelFences (todo : list Fence) (follow : list string) | DelForward (todo : list string).
(** [y_live] and [y_held] are [FenceState]; [y_noting] are the forwards told to
    wait for a fence that have not noted it yet, [y_passed] those past the send
    gate, [y_committed] the fences whose [after_commit] is due.  [y_op_frames]
    records the direct operations whose frame left. *)
Record Sys : Type := mkSys {
  y_db : HubDb;
  y_live : gmap string Z;
  y_held : gmap string (gset string);
  y_noting : gset string;
  y_passed : gset string;
  y_calls : gmap nat Call;
  y_committed : list (string * Z);
  y_delivering : gmap string Delivery;
  y_op_frames : list (string * string * option HubInitiator);
}.
Definition set_db (b : HubDb) (y : Sys) : Sys :=
  mkSys b (y_live y) (y_held y) (y_noting y) (y_passed y) (y_calls y) (y_committed y) (y_delivering y) (y_op_frames y).
Definition set_live (m : gmap string Z) (y : Sys) : Sys :=
  mkSys (y_db y) m (y_held y) (y_noting y) (y_passed y) (y_calls y) (y_committed y) (y_delivering y) (y_op_frames y).
Definition set_held (m : gmap string (gset string)) (n : gset string) (y : Sys) : Sys :=
  mkSys (y_db y) (y_live y) m n (y_passed y) (y_calls y) (y_committed y) (y_delivering y) (y_op_frames y).
Definition set_passed (p : gset string) (y : Sys) : Sys :=
  mkSys (y_db y) (y_live y) (y_held y) (y_noting y) p (y_calls y) (y_committed y) (y_delivering y) (y_op_frames y).
Definition set_calls (m : gmap nat Call) (y : Sys) : Sys :=
  mkSys (y_db y) (y_live y) (y_held y) (y_noting y) (y_passed y) m (y_committed y) (y_delivering y) (y_op_frames y).
Definition set_committed (l : list (string * Z)) (y : Sys) : Sys :=
  mkSys (y_db y) (y_live y) (y_held y) (y_noting y) (y_passed y) (y_calls y) l (y_delivering y) (y_op_frames y).
Definition set_delivering (m : gmap string Delivery) (y : Sys) : Sys :=
  mkSys (y_db y) (y_live y) (y_held y) (y_noting y) (y_passed y) (y_calls y) (y_committed y) m (y_op_frames y).
Definition add_op_frame (f : string * string * option HubInitiator) (y : Sys) : Sys :=
  mkSys (y_db y) (y_live y) (y_held y) (y_noting y) (y_passed y) (y_calls y) (y_committed y) (y_delivering y)
    (y_op_frames y ++ [f]).
Definition y_auth (y : Sys) : Auth := b_auth (y_db y).
Definition y_hub (y : Sys) : Hub := b_hub (y_db y).
Definition y_ops (y : Sys) : list FenceOp := f_ops (b_fences (y_db y)).
Definition put_hub (h : Hub) (y : Sys) : Sys := set_db (set_hub h (y_db y)) y.

(** [FenceState]: [is_fenced], [raise], [note_held], [take_held]; [load_map]. *)
Definition is_fenced (m : gmap string Z) (i : HubInitiator) : bool :=
  match m !! hi_lineage i with Some live => hi_generation i <? live | None => false end.
Definition raise (lin : string) (g : Z) (m : gmap string Z) : gmap string Z :=
  <[lin := match m !! lin with Some e => if e <? g then g else e | None => g end]> m.
Definition note_held (host id : string) (m : gmap string (gset string)) : gmap string (gset string) :=
  <[host := {[id]} ∪ default ∅ (m !! host)]> m.
Definition take_held (host : string) (m : gmap string (gset string)) : list string :=
  sort_strings (elements (default ∅ (m !! host))).
Definition load_map (a : Auth) : gmap string Z :=
  foldl (λ m p, raise p.1 (ln_generation p.2) m) ∅ (map_to_list (a_lineages a)).

(** ** The forward of a command *)

Definition cmd_authorized (b : HubDb) (id : string) (c : Cmd) : bool :=
  check_initiator (b_auth b) (id_initiator (c_ident c)) (w_device (b_work b) !! id).
Definition cmd_gate (b : HubDb) (waits : bool) (c : Cmd) : Gate :=
  let host := id_host (c_ident c) in
  mkGate waits (host_gated b host)
    (initiator_is_continuity (b_auth b) (id_initiator (c_ident c)) && negb (host_capable (b_auth b) host)).
(** [mark_forward_intent_gated] of one command; [waits] is what
    [forward_waits] answers. *)
Definition mark_answer (b : HubDb) (id : string) (waits : bool) (c : Cmd) : result ForwardMark StoreErr :=
  (mark_forward_intent_gated (cmd_authorized b id c) (cmd_gate b waits c) id (h_ledger (b_hub b))).2.
Definition is_held_answer (r : result ForwardMark StoreErr) : bool :=
  match r with Ok HeldForFence => true | _ => false end.
Definition mark (id : string) (waits : bool) (y : Sys) : Sys :=
  let b := y_db y in
  match ledger b !! id with
  | None => y
  | Some c =>
      match h_attempts (b_hub b) !! id with
      | Some _ => y
      | None =>
          let y := put_hub (start_forward id (cmd_authorized b id c) (cmd_gate b waits c) (b_hub b)) y in
          if is_held_answer (mark_answer b id waits c) then set_held (y_held y) ({[id]} ∪ y_noting y) y else y
      end
  end.
(** [release_intent] reads whether the initiator of the row is fenced. *)
Definition fenced_now (b : HubDb) (id : string) : bool :=
  match ledger b !! id with Some c => negb (cmd_authorized b id c) | None => false end.
Definition resolve_if (p : bool) (kind : OpKind) (op : string) (to : Outcome) (b : HubDb) : HubDb :=
  if p then resolve_op kind op to b else b.
(** The send gate, just before the frame. *)
Definition row_initiator (b : HubDb) (id : string) : option HubInitiator :=
  ledger b !! id ≫= λ c, id_initiator (c_ident c).
Definition fenced_in_map (y : Sys) (i : option HubInitiator) : bool :=
  match i with Some i => is_fenced (y_live y) i | None => false end.
Definition send_gate (id : string) (y : Sys) : Sys :=
  match h_attempts (y_hub y) !! id with
  | Some (AtSend _) =>
      if fenced_in_map y (row_initiator (y_db y) id)
      then set_db (resolve_op KCommand id OWithheld (set_hub (hub_step (Withhold id) (y_hub y)) (y_db y))) y
      else set_passed ({[id]} ∪ y_passed y) y
  | _ => y
  end.
(** The call, and its answer. *)
Definition releases (id : string) (r : SendResult) (h : Hub) : bool :=
  match r with SendOut => false | SendNoLink => true | SendBusy => row_hub_written id (h_ledger h) end.
Definition send (id : string) (r : SendResult) (y : Sys) : Sys :=
  if bool_decide (id ∈ y_passed y) then
    let b := y_db y in
    let fenced := fenced_now b id in
    set_passed (y_passed y ∖ {[id]})
      (set_db (resolve_if (fenced && releases id r (b_hub b)) KCommand id OCancelledAtHub
                 (set_hub (hub_step (Send id fenced r) (b_hub b)) b)) y)
  else y.
Definition answer_resolves (b : HubDb) (id : string) (r : Reply) : option Outcome :=
  let l := h_ledger (b_hub b) in
  match r with
  | ReplyRefused _ owner_fenced unknown =>
      if unknown && row_is ["instance.close"; "instance.cancel"]%string id l then None
      else if owner_fenced then Some ORefusedByNode
      else if row_hub_written id l && negb unknown && fenced_now b id then Some OCancelledAtHub
      else None
  | _ => None
  end.
Definition answer (id : string) (r : Reply) (y : Sys) : Sys :=
  let b := y_db y in
  match h_attempts (b_hub b) !! id with
  | Some AtReply =>
      let b' := set_hub (hub_step (Answer id (fenced_now b id) r) (b_hub b)) b in
      set_db (match answer_resolves b id r with Some to => resolve_op KCommand id to b' | None => b' end) y
  | _ => y
  end.
(** [queue_command_by] of a caller: the stamp of its chapter and its device. *)
Definition with_initiator (i : option HubInitiator) (d : CmdIdent) : CmdIdent :=
  mkIdent (id_instance d) (id_host d) (id_operation d) (id_key d) i (id_queued_by d) (id_created d).
Definition caller_stamp (a : Auth) (caller : option string) : option (option HubInitiator) :=
  match caller with None => Some None | Some i => Some <$> stamp_of a i end.
Definition queue (caller device given : option string) (fresh : string) (ident : CmdIdent) (payload : Value)
    (y : Sys) : Sys :=
  let b := y_db y in
  match caller_stamp (b_auth b) caller with
  | None => y
  | Some ini =>
      let device := if ini then device else None in
      let '(l, r) := queue_command (check_initiator (b_auth b) ini device) given fresh (with_initiator ini ident)
                       payload (h_ledger (b_hub b)) in
      let w := match r, device with
               | Ok (id, true), Some d => set_device_column (<[id := d]> (w_device (b_work b))) (b_work b)
               | _, _ => b_work b
               end in
      set_db (set_work w (set_hub (on_ledger (λ _, l) (b_hub b)) b)) y
  end.

(** ** Direct operations *)

(** [admit_node_op], [mark_node_op_sent], [withhold_node_op],
    [mark_node_op_not_sent], [settle_node_op]. *)
Definition put_node_ops (m : gmap (string * string) NodeOp) (b : HubDb) : HubDb :=
  set_work (set_node_ops m (b_work b)) b.
Definition node_ops (b : HubDb) : gmap (string * string) NodeOp := w_node_ops (b_work b).
Definition admit_node_op (c : Call) (b : HubDb) : option HubDb :=
  if check_initiator (b_auth b) (cl_initiator c) (cl_device c) then
    Some (match node_ops b !! (cl_op c, cl_host c) with
          | Some _ => b
          | None => put_node_ops (<[(cl_op c, cl_host c) := mkNodeOp (cl_method c) (cl_initiator c) OpAdmitted]>
                                    (node_ops b)) b
          end)
  else None.
Definition mark_node_op_sent (c : Call) (b : HubDb) : option HubDb :=
  if check_initiator (b_auth b) (cl_initiator c) (cl_device c) then
    match node_ops b !! (cl_op c, cl_host c) with
    | Some o =>
        if bool_decide (no_state o = OpCanceled) || bool_decide (no_state o = OpWithheld) then None
        else Some (put_node_ops (<[(cl_op c, cl_host c) := set_op_state OpSent o]> (node_ops b)) b)
    | None => None
    end
  else None.
Definition alter_node_op (f : NodeOp → NodeOp) (op host : string) (b : HubDb) : HubDb :=
  put_node_ops (alter f (op, host) (node_ops b)) b.
Definition withhold_node_op (op host : string) (b : HubDb) : HubDb :=
  resolve_node_op op host OWithheld
    (alter_node_op (λ o, if bool_decide (no_state o = OpSent) then set_op_state OpWithheld o else o) op host b).
Definition mark_node_op_not_sent (op host : string) : HubDb → HubDb := alter_node_op (set_op_state OpAdmitted) op host.
Definition settle_node_op (op host : string) (to : Outcome) (b : HubDb) : HubDb :=
  resolve_node_op op host to (alter_node_op (set_op_state OpSettled) op host b).

(** [call_admitted_frame]: the host check, then each await. *)
Definition end_call (n : nat) (y : Sys) : Sys := set_calls (delete n (y_calls y)) y.
Definition move_call (n : nat) (p : CallPhase) (c : Call) (y : Sys) : Sys :=
  set_calls (<[n := set_phase p c]> (y_calls y)) y.
Definition start_call (n : nat) (op host method : string) (caller device : option string) (y : Sys) : Sys :=
  match y_calls y !! n, caller_stamp (y_auth y) caller with
  | None, Some ini =>
      match host_refusal (y_db y) host ini with
      | Some _ => y
      | None =>
          set_calls (<[n := mkCall op host method ini (if ini then device else None)
                              (if ini then CAdmit else CWire)]> (y_calls y)) y
      end
  | _, _ => y
  end.
(** What the link gives: a frame that left and its answer, no link, or an
    error before or after the frame. *)
Inductive CallStep : Type := CNext | CNoLink | CError (left_ : bool) | CAnswer (refused_fenced : bool) | CLost.
Definition or_end (n : nat) (p : CallPhase) (c : Call) (r : option HubDb) (y : Sys) : Sys :=
  match r with Some b => move_call n p c (set_db b y) | None => end_call n y end.
Definition frame_of (c : Call) : string * string * option HubInitiator := (cl_op c, cl_host c, cl_initiator c).
Definition on_wire (n : nat) (s : CallStep) (c : Call) (y : Sys) : Sys :=
  match s with
  | CNext => move_call n CReply c (add_op_frame (frame_of c) y)
  | CNoLink => if cl_initiator c then move_call n COffline c y else end_call n y
  | CError true => end_call n (add_op_frame (frame_of c) y)
  | CError false => end_call n y
  | _ => y
  end.
Definition call_step (n : nat) (s : CallStep) (y : Sys) : Sys :=
  match y_calls y !! n with
  | None => y
  | Some c =>
      match cl_phase c, s with
      | CAdmit, CNext => or_end n CIntent c (admit_node_op c (y_db y)) y
      | CIntent, CNext => or_end n CGate c (mark_node_op_sent c (y_db y)) y
      | CGate, CNext =>
          if fenced_in_map y (cl_initiator c)
          then end_call n (set_db (withhold_node_op (cl_op c) (cl_host c) (y_db y)) y)
          else move_call n CWire c y
      | CWire, _ => on_wire n s c y
      | COffline, CNext => end_call n (set_db (mark_node_op_not_sent (cl_op c) (cl_host c) (y_db y)) y)
      | CReply, CAnswer refused =>
          end_call n (if cl_initiator c then
                        set_db (settle_node_op (cl_op c) (cl_host c) (if refused then ORefusedByNode else ORan)
                                  (y_db y)) y
                      else y)
      | CReply, CLost => end_call n y
      | _, _ => y
      end
  end.

(** ** Gate jobs *)

Definition jobs (b : HubDb) : gmap string (option HubInitiator * GateJob) := w_jobs (b_work b).
Definition put_job (id : string) (ij : option HubInitiator * GateJob) (b : HubDb) : HubDb :=
  set_work (set_jobs (<[id := ij]> (jobs b)) (b_work b)) b.
(** [insert_gate_job] of a caller; [cancel_fenced_attempt]; the first phase of
    an attempt. *)
Definition new_gate_job (id : string) (caller device : option string) (j : GateJob) (y : Sys) : Sys :=
  match caller_stamp (y_auth y) caller, jobs (y_db y) !! id with
  | Some ini, None =>
      if check_initiator (y_auth y) ini (if ini then device else None) then set_db (put_job id (ini, j) (y_db y)) y else y
  | _, _ => y
  end.
Definition cancel_fenced_attempt (now : Z) (id : string) (attempts : Z) (to : Outcome) (b : HubDb) : HubDb :=
  match jobs b !! id with
  | Some (ini, j) =>
      if bool_decide (j_state j = Running) && (j_attempts j =? attempts) && bool_decide (j_node_started_at j = None)
      then resolve_op KGateJob id to
             (put_job id (ini, set_reason (Some FENCED) (set_finished_at (Some now) (set_state Canceled j))) b)
      else b
  | None => b
  end.
Definition job_phase (now : Z) (id : string) (attempts : Z) (b : HubDb) : HubDb :=
  match jobs b !! id with
  | Some (ini, j) =>
      if bool_decide (j_state j ∈ [Running; Landing; Canceling]) && (j_attempts j =? attempts) &&
         bool_decide (j_node_started_at j = None)
      then resolve_op KGateJob id ORan (put_job id (ini, set_node_started_at (Some now) j) b)
      else b
  | None => b
  end.

(** ** Delivery *)

Definition begin_delivery (host : string) (y : Sys) : Sys :=
  match y_delivering y !! host with
  | Some _ => y
  | None =>
      if host_capable (y_auth y) host
      then set_delivering (<[host := DelFences (pending_fences host (y_db y)) []]> (y_delivering y)) y else y
  end.
(** One round trip: an acknowledgement, or the end of this delivery. *)
Definition deliver_one (host : string) (r : option (list (string * AckOutcome))) (y : Sys) : Sys :=
  match y_delivering y !! host with
  | Some (DelFences (fe :: todo) follow) =>
      match r with
      | Some outcomes =>
          let '(b, ids) := ack_fence (fe_id fe) host outcomes (y_db y) in
          set_delivering (<[host := DelFences todo (follow ++ ids)]> (y_delivering y)) (set_db b y)
      | None => set_delivering (delete host (y_delivering y)) y
      end
  | _ => y
  end.
Definition drain (host : string) (y : Sys) : Sys :=
  match y_delivering y !! host with
  | Some (DelFences [] follow) =>
      set_delivering (<[host := DelForward (follow ++ take_held host (y_held y))]> (y_delivering y))
        (set_held (delete host (y_held y)) (y_noting y) y)
  | _ => y
  end.
Definition forward_next (host : string) (waits : bool) (y : Sys) : Sys :=
  match y_delivering y !! host with
  | Some (DelForward (id :: todo)) => set_delivering (<[host := DelForward todo]> (y_delivering y)) (mark id waits y)
  | Some (DelForward []) => set_delivering (delete host (y_delivering y)) y
  | _ => y
  end.

(** ** The other writers *)

(** [create_instance]: a continuity instance starts a lineage at generation 1. *)
Definition create_instance (caller device : option string) (id host : string) (continuity : bool) (y : Sys) : Sys :=
  let a := y_auth y in
  match caller_stamp a caller, a_hosts a !! host, a_chapters a !! id, a_lineages a !! id with
  | Some ini, Some _, None, None =>
      if check_initiator a ini (if ini then device else None) then
        let a := set_chapters (<[id := mkChapter host id 1 false]> (a_chapters a)) a in
        let a := if continuity then set_lineages (<[id := mkLineage id 1 LStarting None]> (a_lineages a)) a else a in
        set_db (set_auth a (y_db y)) y
      else y
  | _, _, _, _ => y
  end.
(** [note_chapter_running]; [up] is whether the lifecycle says so. *)
Definition start_running (a : Auth) (inst : string) (up : bool) (l : Lineage) : Lineage :=
  if bool_decide (ln_current l = inst) && bool_decide (ln_state l = LStarting) && up &&
     match a_chapters a !! inst with
     | Some ch => (ch_generation ch =? ln_generation l) && negb (ch_fenced ch)
     | None => false
     end
  then mkLineage (ln_current l) (ln_generation l) LRunning (ln_paused_by l) else l.
Definition note_chapter_running (inst : string) (up : bool) (a : Auth) : Auth :=
  set_lineages (start_running a inst up <$> a_lineages a) a.

(** ** Every step *)

(** The steps of [HubCommands] that read nothing of the fences. *)
Definition plain (op : HubOp) : bool :=
  match op with
  | Queue _ _ _ _ _ | Mark _ _ _ | Withhold _ | Send _ _ _ | Answer _ _ _ | GiveUp _ | HubRestart
  | FenceHeld _ _ => false
  | _ => true
  end.
(** [AFence] is a pause, [AResume] an F with its successor; [AJobWrite] is
    whatever the gate queue itself writes to a job. *)
Inductive Act : Type :=
| ACommands (op : HubOp)
| AQueue (caller device given : option string) (fresh : string) (ident : CmdIdent) (payload : Value)
| AMark (id : string) (waits : bool)
| ANoteHeld (id : string)
| AGate (id : string)
| ASend (id : string) (r : SendResult)
| AAnswer (id : string) (r : Reply)
| AGiveUp (id : string)
| AFence (now : Z) (fid : string) (spec : FenceSpec)
| AResume (now : Z) (fid : string) (grants_ok : bool) (rq : ResumeRequest)
| ARaise (lin : string) (g : Z)
| ACall (n : nat) (op host method : string) (caller device : option string)
| ACallStep (n : nat) (s : CallStep)
| AJobNew (id : string) (caller device : option string) (j : GateJob)
| AJobWrite (id : string) (j : GateJob)
| AJobWithheld (now : Z) (id : string) (attempts : Z)
| AJobRefused (now : Z) (id : string) (attempts : Z)
| AJobPhase (now : Z) (id : string) (attempts : Z)
| ADeliver (host : string)
| AAck (host : string) (r : option (list (string * AckOutcome)))
| ADrain (host : string)
| AForward (host : string) (waits : bool)
| ACreate (caller device : option string) (id host : string) (continuity : bool)
| ARunning (inst : string) (up : bool)
| ADevice (id : string) (bound : option string)
| ARevoke (id : string)
| AHost (host : string) (capable : bool)
| AInteraction (id inst : string)
| AInteractionDone (id : string)
| ARestart (loaded : bool).

Definition commit (b : HubDb) (core : FenceCore) (y : Sys) : Sys :=
  set_committed (y_committed y ++ [(fc_lineage core, fc_live core)]) (set_db b y).
Definition restart (loaded : bool) (y : Sys) : Sys :=
  mkSys (set_hub (hub_step HubRestart (y_hub y)) (y_db y)) (if loaded then load_map (y_auth y) else ∅) ∅ ∅ ∅ ∅ [] ∅
    (y_op_frames y).
Definition note (id : string) (y : Sys) : Sys :=
  if bool_decide (id ∈ y_noting y) then
    match ledger (y_db y) !! id with
    | Some c => set_held (note_held (id_host (c_ident c)) id (y_held y)) (y_noting y ∖ {[id]}) y
    | None => y
    end
  else y.
Definition put_auth (a : Auth) (y : Sys) : Sys := set_db (set_auth a (y_db y)) y.
Definition put_interactions (m : gmap string Interaction) (y : Sys) : Sys :=
  set_db (set_work (set_interactions m (b_work (y_db y))) (y_db y)) y.
Definition act_step (x : Act) (y : Sys) : Sys :=
  match x with
  | ACommands op => if plain op then put_hub (hub_step op (y_hub y)) y else y
  | AQueue caller device given fresh ident payload => queue caller device given fresh ident payload y
  | AMark id waits => mark id waits y
  | ANoteHeld id => note id y
  | AGate id => send_gate id y
  | ASend id r => send id r y
  | AAnswer id r => answer id r y
  | AGiveUp id => set_passed (y_passed y ∖ {[id]}) (put_hub (hub_step (GiveUp id) (y_hub y)) y)
  | AFence now fid spec =>
      match fs_mode spec, fence_lineage now fid spec (y_db y) with
      | Pause _ _, (b, Ok (Committed core)) => commit b core y
      | _, _ => y
      end
  | AResume now fid grants_ok rq =>
      match continuation_resume_tx now fid grants_ok rq (y_db y) with
      | (b, Ok (Resumed core)) => commit b core y
      | _ => y
      end
  | ARaise lin g =>
      if bool_decide ((lin, g) ∈ y_committed y) then set_live (raise lin g (y_live y)) y else y
  | ACall n op host method caller device => start_call n op host method caller device y
  | ACallStep n s => call_step n s y
  | AJobNew id caller device j => new_gate_job id caller device j y
  | AJobWrite id j =>
      match jobs (y_db y) !! id with Some (ini, _) => set_db (put_job id (ini, j) (y_db y)) y | None => y end
  | AJobWithheld now id attempts =>
      match jobs (y_db y) !! id with
      | Some (ini, _) =>
          if fenced_in_map y ini then set_db (cancel_fenced_attempt now id attempts OWithheld (y_db y)) y else y
      | None => y
      end
  | AJobRefused now id attempts => set_db (cancel_fenced_attempt now id attempts ORefusedByNode (y_db y)) y
  | AJobPhase now id attempts => set_db (job_phase now id attempts (y_db y)) y
  | ADeliver host => begin_delivery host y
  | AAck host r => deliver_one host r y
  | ADrain host => drain host y
  | AForward host waits => forward_next host waits y
  | ACreate caller device id host continuity => create_instance caller device id host continuity y
  | ARunning inst up => put_auth (note_chapter_running inst up (y_auth y)) y
  | ADevice id bound =>
      match a_devices (y_auth y) !! id with
      | None => put_auth (set_devices (<[id := bound]> (a_devices (y_auth y))) (y_auth y)) y
      | Some _ => y
      end
  | ARevoke id => put_auth (set_devices (delete id (a_devices (y_auth y))) (y_auth y)) y
  | AHost host capable => put_auth (set_hosts (<[host := capable]> (a_hosts (y_auth y))) (y_auth y)) y
  | AInteraction id inst =>
      match w_interactions (b_work (y_db y)) !! id with
      | None => put_interactions (<[id := mkInteraction inst IPending None true]> (w_interactions (b_work (y_db y)))) y
      | Some _ => y
      end
  | AInteractionDone id =>
      put_interactions (alter (λ x, if bool_decide (ix_state x = IPending)
                                    then mkInteraction (ix_instance x) ISettled (ix_superseded_by x) false else x) id
                          (w_interactions (b_work (y_db y)))) y
  | ARestart loaded => restart loaded y
  end.
Definition act_run (xs : list Act) (y : Sys) : Sys := foldl (λ y x, act_step x y) y xs.

(** An empty database and a process that has just started. *)
Definition start_db (insts : gmap string Inst) : HubDb :=
  mkHubDb (mkAuth ∅ ∅ ∅ ∅) (mkFenceTables [] ∅ []) (mkWork ∅ ∅ ∅ ∅) (mkHub (mkLedger ∅ insts) ∅ []).
Definition start (insts : gmap string Inst) : Sys := mkSys (start_db insts) ∅ ∅ ∅ ∅ ∅ [] ∅ [].
