(* ===== verification/FenceLedger.v ===== *)
(** * The fences drive the command ledger

    What a step of [FenceSteps] does to the command table is a sequence of
    steps of [HubCommands], with the arguments that file leaves open, the
    authority check, the fence gate and whether a release finds its initiator
    fenced, computed from the tables.  So every run of the Hub with its fences
    is a run of the command queue, and what [HubLedger] and [HubQueue] prove of
    the queue holds here. *)
From stdpp Require Import base list gmap strings numbers sorting relations.
From S2P Require Import Prelude Json GateQueue HubCommands HubEdit HubLedger HubQueue FenceHub FenceSteps.
Local Open Scope Z_scope.

(** ** The queue steps of one step *)

Definition mark_ops (id : string) (waits : bool) (b : HubDb) : list HubOp :=
  match ledger b !! id with
  | Some c => [Mark id (cmd_authorized b id c) (cmd_gate b waits c)]
  | None => []
  end.
Definition close_ops (close : option PauseClose) (predecessor host : string) (now : Z) : list HubOp :=
  match close with
  | Some c => [Queue true (Some (pc_command c)) (pc_command c) (close_ident c predecessor host now) (pc_payload c)]
  | None => []
  end.
Definition pause_ops (now : Z) (lin : string) (b : HubDb) (spec : FenceSpec) : list HubOp :=
  match a_lineages (b_auth b) !! lin with
  | Some l =>
      match a_chapters (b_auth b) !! ln_current l with
      | Some ch => close_ops (pause_close (fs_mode spec)) (ln_current l) (ch_host ch) now ++ [FenceHeld lin (ln_generation l)]
      | None => []
      end
  | None => []
  end.
Definition create_op (now : Z) (rq : ResumeRequest) (core : FenceCore) (host : string) : HubOp :=
  Queue true (Some (rq_command rq)) (rq_command rq) (successor_ident rq core host now) (rq_payload rq).
Definition resume_ops (now : Z) (b : HubDb) (rq : ResumeRequest) (core : FenceCore) : list HubOp :=
  let lin := fc_lineage core in
  match a_lineages (b_auth b) !! lin with
  | Some l =>
      match a_chapters (b_auth b) !! ln_current l with
      | Some ch =>
          create_op now rq core (ch_host ch) ::
          (if bool_decide (ln_state l = LPaused) then [] else [FenceHeld lin (ln_generation l)])
      | None => []
      end
  | None => []
  end.
Definition queue_ops (caller device given : option string) (fresh : string) (ident : CmdIdent) (payload : Value)
    (b : HubDb) : list HubOp :=
  match caller_stamp (b_auth b) caller with
  | None => []
  | Some ini =>
      [Queue (check_initiator (b_auth b) ini (if ini then device else None)) given fresh (with_initiator ini ident) payload]
  end.
Definition hub_ops (x : Act) (y : Sys) : list HubOp :=
  let b := y_db y in
  match x with
  | ACommands op => if plain op then [op] else []
  | AQueue caller device given fresh ident payload => queue_ops caller device given fresh ident payload b
  | AMark id waits => mark_ops id waits b
  | AGate id => if fenced_in_map y (row_initiator b id) then [Withhold id] else []
  | ASend id r => if bool_decide (id ∈ y_passed y) then [Send id (fenced_now b id) r] else []
  | AAnswer id r => [Answer id (fenced_now b id) r]
  | AGiveUp id => [GiveUp id]
  | AFence now fid spec =>
      match fs_mode spec, fence_core now fid spec b with
      | Pause _ _, Ok (_, Committed _) => pause_ops now (fs_lineage spec) b spec
      | _, _ => []
      end
  | AResume now fid grants_ok rq =>
      match continuation_resume_tx now fid grants_ok rq b with
      | (_, Ok (Resumed core)) => resume_ops now b rq core
      | _ => []
      end
  | AForward host waits =>
      match y_delivering y !! host with Some (DelForward (id :: _)) => mark_ops id waits b | _ => [] end
  | ARestart _ => [HubRestart]
  | _ => []
  end.

(** ** What a committed F did *)

(** Everything a committed F passed, and the two things it can have done. *)
Record committed_f (now : Z) (fid : string) (spec : FenceSpec) (b b' : HubDb) (core : FenceCore) (l : Lineage)
    (ch : Chapter) : Prop := {
  cf_lineage : a_lineages (b_auth b) !! fs_lineage spec = Some l;
  cf_chapter : a_chapters (b_auth b) !! ln_current l = Some ch;
  cf_expected : ln_generation l = fs_expected spec;
  cf_state : ln_state l ∈ fs_from spec;
  cf_close : close_exists (fs_mode spec) b = false;
  cf_core_lineage : fc_lineage core = fs_lineage spec;
  cf_predecessor : fc_predecessor core = ln_current l;
  cf_what :
    (∃ s, fs_mode spec = Successor s ∧ ln_state l = LPaused ∧
       b' = set_auth (resume_auth (fs_lineage spec) l s (b_auth b)) b ∧
       fc_fenced core = ln_generation l - 1 ∧ fc_live core = ln_generation l ∧
       fc_fence core = match fence_at (fs_lineage spec) (ln_generation l) (b_fences b) with
                       | Some x => fe_id x | None => ""%string end) ∨
    ((∀ s, fs_mode spec = Successor s → ln_state l ≠ LPaused) ∧
       fence_taken (new_fence fid (fs_lineage spec) l (fs_mode spec)) (b_fences b) = false ∧
       b' = fenced_db now fid (fs_lineage spec) l (fs_mode spec) (ch_host ch) b ∧
       fc_fenced core = ln_generation l ∧ fc_live core = ln_generation l + 1 ∧ fc_fence core = fid);
}.
Lemma fence_core_inv now fid spec b b' core :
  fence_core now fid spec b = Ok (b', Committed core) → ∃ l ch, committed_f now fid spec b b' core l ch.
Proof.
  unfold fence_core. cbn zeta. destruct (authority_ok _ _); [|done]. cbn [negb].
  destruct (a_lineages (b_auth b) !! fs_lineage spec) as [l|] eqn:Hl; [|done].
  destruct (ln_generation l =? fs_expected spec) eqn:Hg; [|done]. cbn [negb].
  destruct (bool_decide (ln_state l ∈ fs_from spec)) eqn:Hs; [|done]. cbn [negb].
  destruct (close_exists (fs_mode spec) b) eqn:Hc; [done|]. destruct (_ && _); [done|].
  apply bool_decide_eq_true in Hs. apply Z.eqb_eq in Hg.
  assert (∀ m, fs_mode spec = m → (∀ s, m = Successor s → ln_state l ≠ LPaused) →
    fence_now now fid (fs_lineage spec) l m b = Ok (b', Committed core) →
    ∃ l ch, committed_f now fid spec b b' core l ch) as Hnow.
  { intros m Hm Hp. unfold fence_now. destruct (a_chapters _ !! _) as [ch|] eqn:Hch; [|done].
    destruct (fence_taken _ _) eqn:Ht; [done|]. intros [= <- <-]. exists l, ch.
    split; try done. right. by rewrite Hm. }
  destruct (fs_mode spec) as [by_ close|s] eqn:Hm; [by apply Hnow|].
  destruct (ln_state l) eqn:Hst; [by apply Hnow; [done|intros ? _; congruence]..|].
  unfold resume_paused. destruct (a_chapters _ !! _) as [ch|] eqn:Hch; [|done]. intros [= <- <-].
  exists l, ch. split; rewrite ?Hst, ?Hm; try done. left. exists s. done.
Qed.
(** A committed resume: the F, then the successor. *)
Record resumed (now : Z) (fid : string) (rq : ResumeRequest) (b b' : HubDb) (core : FenceCore) (l : Lineage)
    (ch : Chapter) (b1 : HubDb) : Prop := {
  rs_f : committed_f now fid (resume_spec rq (fc_lineage core)) b b1 core l ch;
  rs_current : rq_addressed rq = ln_current l;
  rs_fresh_chapter : a_chapters (b_auth b) !! rq_successor rq = None;
  rs_fresh_command : ledger b1 !! rq_command rq = None;
  rs_host : is_Some (a_hosts (b_auth b) !! rq_host rq);
  rs_lineage : ch_lineage ch = fc_lineage core;
  rs_db : b' = set_successor_command (fc_fence core) (rq_command rq) (insert_successor now rq core
            (mkChapter (ch_host ch) (ch_lineage ch) (ch_generation ch) true) b1);
}.
Lemma fence_chapter_lookup i a j : a_chapters (fence_chapter i a) !! j =
  (λ ch, if decide (i = j) then mkChapter (ch_host ch) (ch_lineage ch) (ch_generation ch) true else ch)
    <$> a_chapters a !! j.
Proof.
  unfold fence_chapter. simpl. destruct (decide (i = j)) as [->|Hne].
  - rewrite lookup_alter_eq. by destruct (a_chapters a !! j).
  - rewrite lookup_alter_ne by done. by destruct (a_chapters a !! j).
Qed.
(** F leaves the chapters as they were, but for the predecessor's fence. *)
Lemma queue_close_auth close p host now b : b_auth (queue_close close p host now b) = b_auth b.
Proof. by destruct close. Qed.
Lemma committed_auth now fid spec b b' core l ch : committed_f now fid spec b b' core l ch →
  b_auth b' = match fs_mode spec, ln_state l with
              | Successor s, LPaused => resume_auth (fs_lineage spec) l s (b_auth b)
              | m, _ => fence_auth (fs_lineage spec) l m (b_auth b)
              end.
Proof.
  intros C. destruct (cf_what _ _ _ _ _ _ _ _ C) as [(s & -> & -> & -> & _)|(Hp & _ & -> & _)]; [done|].
  unfold fenced_db. rewrite queue_close_auth.
  destruct (fs_mode spec) as [|s]; [done|]. destruct (ln_state l) eqn:E; [done..|]. by destruct (Hp s).
Qed.
Lemma committed_chapters now fid spec b b' core l ch j : committed_f now fid spec b b' core l ch →
  a_chapters (b_auth b') !! j = a_chapters (fence_chapter (ln_current l) (b_auth b)) !! j.
Proof. intros C. rewrite (committed_auth _ _ _ _ _ _ _ _ C). by repeat case_match. Qed.
Lemma committed_hosts now fid spec b b' core l ch : committed_f now fid spec b b' core l ch →
  a_hosts (b_auth b') = a_hosts (b_auth b).
Proof. intros C. rewrite (committed_auth _ _ _ _ _ _ _ _ C). by repeat case_match. Qed.
Lemma resume_inv now fid grants_ok rq b b' core :
  continuation_resume_tx now fid grants_ok rq b = (b', Ok (Resumed core)) →
  ∃ l ch b1, resumed now fid rq b b' core l ch b1.
Proof.
  unfold continuation_resume_tx. destruct (a_chapters (b_auth b) !! rq_addressed rq) as [ad|] eqn:Ha; [|done].
  destruct (a_lineages (b_auth b) !! ch_lineage ad) as [l|] eqn:Hl; [|done].
  destruct (bool_decide (rq_addressed rq = ln_current l)) eqn:Hc; cbn [negb]; [|by destruct (bool_decide (is_Some _)); intros [=]].
  apply bool_decide_eq_true in Hc.
  destruct (fence_core _ _ _ _) as [[b1 [core1| | | |]]|] eqn:Hf; try done.
  destruct (fence_core_inv _ _ _ _ _ _ Hf) as (l' & ch & C). pose proof (cf_lineage _ _ _ _ _ _ _ _ C) as Hl'.
  pose proof (cf_core_lineage _ _ _ _ _ _ _ _ C) as Hcl. cbn in Hl', Hcl. rewrite Hl in Hl'. injection Hl' as <-.
  pose proof (cf_chapter _ _ _ _ _ _ _ _ C) as Hch. unfold resume_commit.
  rewrite (committed_chapters _ _ _ _ _ _ _ _ (ln_current l) C), fence_chapter_lookup, Hch. cbn [fmap option_fmap option_map].
  rewrite decide_True by done.
  destruct (bool_decide (is_Some _)) eqn:Hh; [|done]. cbn [negb]. destruct grants_ok; [|done]. cbn [negb].
  destruct (_ || _) eqn:Hf2; [done|]. intros [= <- <-]. rewrite Hc in Ha. rewrite Hch in Ha. injection Ha as <-.
  exists l, ch, b1. apply orb_false_iff in Hf2 as [Hn1%bool_decide_eq_false Hn2%bool_decide_eq_false].
  apply bool_decide_eq_true in Hh. split.
  - rewrite Hcl. done.
  - done.
  - rewrite (committed_chapters _ _ _ _ _ _ _ _ (rq_successor rq) C), fence_chapter_lookup in Hn1.
    destruct (a_chapters (b_auth b) !! rq_successor rq); [|done]. by destruct Hn1.
  - destruct (ledger b1 !! rq_command rq); [|done]. by destruct Hn2.
  - by rewrite <- (committed_hosts _ _ _ _ _ _ _ _ C).
  - done.
  - done.
Qed.

(** ** Steps of the queue *)

Lemma put_is_queue id ident payload h :
  l_commands (h_ledger h) !! id = None → (id_key ident ≫= λ k, by_key k (h_ledger h)) = None →
  id_operation ident ≠ "instance.send"%string →
  hub_step (Queue true (Some id) id ident payload) h = on_ledger (put_cmd id (new_cmd ident payload)) h.
Proof.
  intros Hn Hk Ho. simpl. unfold queue_command, on_ledger. cbn [negb]. rewrite Hk. cbn. rewrite Hn.
  unfold insert_cmd. cbn [fst]. destruct (id_instance ident); [|done]. by rewrite bool_decide_false.
Qed.
Lemma fence_keeps_new id ident payload lin g l :
  initiated_below lin g (id_initiator ident) = false →
  fence_held lin g (put_cmd id (new_cmd ident payload) l) = put_cmd id (new_cmd ident payload) (fence_held lin g l).
Proof.
  intros H. unfold fence_held, put_cmd. simpl. f_equal. rewrite fmap_insert. f_equal.
  assert (fenced_held lin g (new_cmd ident payload) = false) as ->; [|done].
  unfold fenced_held, initiated_below in *. cbn [c_ident new_cmd]. rewrite H. apply andb_false_r.
Qed.
Lemma work_hub now fid lin l m b :
  b_hub (fence_work now fid lin l m b) = on_ledger (fence_held lin (ln_generation l)) (b_hub b).
Proof. done. Qed.
Lemma close_is_queue by_ close p host now lin g b : close_exists (Pause by_ close) b = false →
  b_hub (queue_close close p host now (set_hub (on_ledger (fence_held lin g) (b_hub b)) b)) =
  hub_run (close_ops close p host now ++ [FenceHeld lin g]) (b_hub b).
Proof.
  destruct close as [c|]; [|done]. intros [Hn Hk]%orb_false_iff. apply bool_decide_eq_false in Hn.
  unfold hub_run, close_ops. cbn [foldl app]. rewrite put_is_queue.
  - cbn [hub_step queue_close b_hub set_hub]. unfold on_ledger. cbn. by rewrite fence_keeps_new.
  - unfold ledger in Hn. by destruct (l_commands _ !! _); [destruct Hn|].
  - cbn [close_ident id_key]. destruct (pc_key c) as [k|]; [|done]. simpl. apply bool_decide_eq_false in Hk.
    by destruct (by_key _ _); [destruct Hk|].
  - done.
Qed.
Lemma mark_hub id waits y : y_hub (mark id waits y) = hub_run (mark_ops id waits (y_db y)) (y_hub y).
Proof.
  unfold mark, mark_ops. destruct (ledger (y_db y) !! id) as [c|]; [|done]. unfold hub_run. cbn [foldl hub_step].
  destruct (h_attempts (b_hub (y_db y)) !! id) eqn:Ha.
  - unfold start_forward. fold (y_hub y). unfold y_hub. by rewrite Ha.
  - by destruct (is_held_answer _).
Qed.

Lemma resume_hub now fid rq b b' core l ch b1 : resumed now fid rq b b' core l ch b1 →
  b_hub b' = hub_run (resume_ops now b rq core) (b_hub b).
Proof.
  intros R. pose proof (rs_f _ _ _ _ _ _ _ _ _ R) as C. unfold resume_ops.
  pose proof (cf_lineage _ _ _ _ _ _ _ _ C) as Hl. cbn [resume_spec fs_lineage] in Hl. rewrite Hl.
  rewrite (cf_chapter _ _ _ _ _ _ _ _ C). rewrite (rs_db _ _ _ _ _ _ _ _ _ R).
  pose proof (rs_fresh_command _ _ _ _ _ _ _ _ _ R) as Hn.
  destruct (cf_what _ _ _ _ _ _ _ _ C) as [(s & _ & -> & -> & _)|(Hp & _ & -> & _ & Hlive & _)].
  - rewrite bool_decide_true by done. unfold hub_run. cbn [foldl]. unfold create_op. rewrite put_is_queue; [done|exact Hn|done|simpl; by destruct (rq_operation rq)].
  - rewrite bool_decide_false by by eapply Hp. unfold hub_run. cbn [foldl]. unfold create_op.
    assert (l_commands (h_ledger (b_hub b)) !! rq_command rq = None) as Hn'.
    { unfold ledger in Hn. cbn in Hn. rewrite lookup_fmap in Hn. by destruct (l_commands _ !! _). }
    rewrite put_is_queue; [|done|done|simpl; by destruct (rq_operation rq)].
    cbn [hub_step]. unfold on_ledger. cbn. rewrite fence_keeps_new; [done|].
    cbn [successor_ident id_initiator initiated_below hi_lineage hi_generation]. rewrite Hlive.
    apply andb_false_iff. right. apply Z.leb_gt. lia.
Qed.

(** Admitting and marking a direct operation write its row only. *)
Lemma admit_work c b b' : admit_node_op c b = Some b' → b' = put_node_ops (node_ops b') b ∧ node_ops b ⊆ node_ops b'.
Proof.
  unfold admit_node_op. destruct (check_initiator _ _ _); [|done]. intros [= <-].
  destruct (node_ops b !! _) eqn:E; [by destruct b as [? ? [? ? ? ?] ?]|]. split; [done|]. by apply insert_subseteq.
Qed.
Lemma sent_work c b b' : mark_node_op_sent c b = Some b' →
  check_initiator (b_auth b) (cl_initiator c) (cl_device c) = true ∧
  ∃ o, node_ops b !! (cl_op c, cl_host c) = Some o ∧
    b' = put_node_ops (<[(cl_op c, cl_host c) := set_op_state OpSent o]> (node_ops b)) b.
Proof.
  unfold mark_node_op_sent. destruct (check_initiator _ _ _); [|done]. destruct (node_ops b !! _) as [o|]; [|done].
  destruct (_ || _); [done|]. intros [= <-]. eauto.
Qed.
Lemma call_hub n s y : b_hub (y_db (call_step n s y)) = b_hub (y_db y).
Proof.
  unfold call_step. destruct (y_calls y !! n) as [c|]; [|done].
  destruct (cl_phase c), s; try done; cbn [on_wire].
  - destruct (admit_node_op c (y_db y)) as [b|] eqn:E; [|done]. by destruct (admit_work _ _ _ E) as [-> _].
  - destruct (mark_node_op_sent c (y_db y)) as [b|] eqn:E; [|done]. by destruct (sent_work _ _ _ E) as (_ & o & _ & ->).
  - by destruct (fenced_in_map _ _).
  - by destruct (cl_initiator c).
  - by destruct left_.
  - by destruct (cl_initiator c).
Qed.

(** ** The projection *)

(** A step of the Hub with its fences runs these steps of the command queue. *)
Lemma hub_step_of x y : y_hub (act_step x y) = hub_run (hub_ops x y) (y_hub y).
Proof.
  destruct x; try done; cbn [act_step hub_ops].
  - by destruct (plain op).
  - unfold queue, queue_ops. destruct (caller_stamp _ _) as [ini|]; [|done].
    unfold hub_run, y_hub. cbn [foldl hub_step]. unfold on_ledger. by destruct (queue_command _ _ _ _ _ _) as [l r].
  - apply mark_hub.
  - unfold note. destruct (bool_decide _); [|done]. by destruct (ledger _ !! _).
  - unfold send_gate. destruct (fenced_in_map _ _); unfold hub_run; cbn [foldl hub_step];
      destruct (h_attempts (y_hub y) !! id) as [[| |]|] eqn:Ha; try done.
  - unfold send. destruct (bool_decide _); [|done]. by destruct (_ && _).
  - unfold answer, hub_run. cbn [foldl hub_step]. fold (y_hub y).
    destruct (h_attempts (y_hub y) !! id) as [[| |]|] eqn:Ha; try done. unfold y_hub.
    by destruct (answer_resolves _ _ _); cbn; unfold y_hub in *; rewrite ?Ha.
  - unfold fence_lineage. destruct (fs_mode spec) as [by_ close|] eqn:Hm; [|done].
    destruct (fence_core now fid spec (y_db y)) as [[b [core| | | |]]|] eqn:Hf; try done.
    destruct (fence_core_inv _ _ _ _ _ _ Hf) as (l & ch & C).
    unfold pause_ops. rewrite (cf_lineage _ _ _ _ _ _ _ _ C), (cf_chapter _ _ _ _ _ _ _ _ C), Hm.
    destruct (cf_what _ _ _ _ _ _ _ _ C) as [(s & ? & _)|(_ & _ & -> & _)]; [congruence|].
    rewrite Hm. unfold y_hub. cbn [pause_close]. rewrite <- (close_is_queue by_); [by destruct close|].
    rewrite <- Hm. apply C.
  - destruct (continuation_resume_tx _ _ _ _ _) as [b [[core|]|]] eqn:Hf; try done.
    destruct (resume_inv _ _ _ _ _ _ _ Hf) as (l & ch & b1 & R). by apply (resume_hub _ _ _ _ _ _ _ _ _ R).
  - by destruct (bool_decide _).
  - unfold start_call. repeat case_match; done.
  - apply call_hub.
  - unfold new_gate_job. repeat case_match; done.
  - repeat case_match; done.
  - unfold cancel_fenced_attempt. repeat case_match; done.
  - unfold cancel_fenced_attempt. repeat case_match; done.
  - unfold job_phase. repeat case_match; done.
  - unfold begin_delivery. repeat case_match; done.
  - unfold deliver_one, ack_fence. repeat case_match; done.
  - unfold drain. repeat case_match; done.
  - unfold forward_next. destruct (y_delivering y !! host) as [[|[|id todo]]|]; try done. apply mark_hub.
  - unfold create_instance. repeat case_match; done.
  - repeat case_match; done.
  - repeat case_match; done.
Qed.
Lemma hub_steps_of xs y : ∃ ops, y_hub (act_run xs y) = hub_run ops (y_hub y).
Proof.
  revert y. induction xs as [|x xs IH]; intros y; [by exists []|]. cbn [act_run foldl].
  destruct (IH (act_step x y)) as [ops Hops]. exists (hub_ops x y ++ ops). rewrite hub_run_app, <- hub_step_of. apply Hops.
Qed.
Lemma fences_refine insts xs : ∃ ops, y_hub (act_run xs (start insts)) = hub_run ops (empty_hub insts).
Proof. apply hub_steps_of. Qed.
(** The Hub with its fences refines the command queue: whatever callers,
    fences, deliveries, direct operations and restarts do, the command table,
    the forwards and the frames that left are those of a run of the queue
    alone, so what holds of every run of the queue holds of the whole Hub. *)
Theorem fences_refine_the_queue insts xs :
  ∃ ops, y_hub (act_run xs (start insts)) = hub_run ops (empty_hub insts).
Proof. apply fences_refine. Qed.
