(* ===== verification/FenceAuth.v ===== *)
(** * Who may act: lineages and chapters over time

    The authority tables change in six ways.  Over all of them the generation
    of a lineage only grows, a chapter keeps its lineage and generation and
    stays fenced once it is, a lineage has at most one chapter that is not, and
    an initiator stamped below the live generation is refused for good. *)
From stdpp Require Import base list gmap strings numbers sorting relations.
From S2P Require Import Prelude Json GateQueue HubCommands FenceHub FenceSteps FenceLedger.
Local Open Scope Z_scope.

(** ** The changes *)

Definition add_chapter (s : string) (ch : Chapter) (a : Auth) : Auth := set_chapters (<[s := ch]> (a_chapters a)) a.
Inductive auth_move (a : Auth) : Auth → Prop :=
| am_create (id host : string) (continuity : bool) : is_Some (a_hosts a !! host) → a_chapters a !! id = None → a_lineages a !! id = None →
    auth_move a (let a := add_chapter id (mkChapter host id 1 false) a in
                 if continuity then set_lineages (<[id := mkLineage id 1 LStarting None]> (a_lineages a)) a else a)
| am_running (inst : string) (up : bool) : auth_move a (note_chapter_running inst up a)
| am_devices m : auth_move a (set_devices m a)
| am_host (host : string) (capable : bool) : auth_move a (set_hosts (<[host := capable]> (a_hosts a)) a)
| am_pause (lin : string) l ch by_ close : a_lineages a !! lin = Some l → a_chapters a !! ln_current l = Some ch →
    auth_move a (fence_auth lin l (Pause by_ close) a)
| am_successor (lin : string) l ch (s : string) : a_lineages a !! lin = Some l → a_chapters a !! ln_current l = Some ch →
    ln_state l ≠ LPaused → a_chapters a !! s = None → ch_lineage ch = lin →
    auth_move a (add_chapter s (mkChapter (ch_host ch) lin (ln_generation l + 1) false)
                   (fence_auth lin l (Successor s) a))
| am_resume (lin : string) l ch (s : string) : a_lineages a !! lin = Some l → a_chapters a !! ln_current l = Some ch →
    ln_state l = LPaused → a_chapters a !! s = None → ch_lineage ch = lin →
    auth_move a (add_chapter s (mkChapter (ch_host ch) lin (ln_generation l) false) (resume_auth lin l s a)).

Lemma call_auth n s y : y_auth (call_step n s y) = y_auth y.
Proof.
  unfold y_auth, call_step. destruct (y_calls y !! n) as [c|]; [|done].
  destruct (cl_phase c), s; try done; cbn [on_wire].
  - destruct (admit_node_op c (y_db y)) as [b|] eqn:E; [|done]. by destruct (admit_work _ _ _ E) as [-> _].
  - destruct (mark_node_op_sent c (y_db y)) as [b|] eqn:E; [|done]. by destruct (sent_work _ _ _ E) as (_ & o & _ & ->).
  - by destruct (fenced_in_map _ _).
  - by destruct (cl_initiator c).
  - by destruct left_.
  - by destruct (cl_initiator c).
Qed.
Lemma mark_auth id waits y : y_auth (mark id waits y) = y_auth y.
Proof. unfold mark. repeat case_match; done. Qed.
Lemma resumed_auth now fid rq b b' core l ch b1 : resumed now fid rq b b' core l ch b1 →
  auth_move (b_auth b) (b_auth b').
Proof.
  intros [C Hc Hn _ _ Hl ->]. pose proof (committed_auth _ _ _ _ _ _ _ _ C) as Ha. cbn [resume_spec fs_mode fs_lineage] in Ha.
  pose proof (cf_lineage _ _ _ _ _ _ _ _ C) as H1. pose proof (cf_chapter _ _ _ _ _ _ _ _ C) as H2. cbn in H1.
  unfold set_successor_command, insert_successor. cbn [b_auth set_fences set_hub set_auth].
  destruct (cf_what _ _ _ _ _ _ _ _ C) as [(s & _ & Hs & _ & _ & Hlive & _)|(Hp & _ & _ & _ & Hlive & _)].
  - rewrite Hs in Ha. rewrite Ha, Hlive. by apply (am_resume _ _ l ch).
  - rewrite Hlive. assert (ln_state l ≠ LPaused) as Hs by by eapply Hp.
    assert (b_auth b1 = fence_auth (fc_lineage core) l (Successor (rq_successor rq)) (b_auth b)) as -> by by destruct (ln_state l).
    by apply (am_successor _ _ l ch).
Qed.
(** Every step changes the tables in one of these ways, or not at all. *)
Lemma act_auth x y : y_auth (act_step x y) = y_auth y ∨ auth_move (y_auth y) (y_auth (act_step x y)).
Proof.
  destruct x; try (by left); cbn [act_step].
  - left. by destruct (plain op).
  - left. unfold queue. destruct (caller_stamp _ _) as [ini|]; [|done]. by destruct (queue_command _ _ _ _ _ _) as [l r].
  - left. apply mark_auth.
  - left. unfold note. repeat case_match; done.
  - left. unfold send_gate. repeat case_match; done.
  - left. unfold send. destruct (bool_decide _); [|done]. by destruct (_ && _).
  - left. unfold answer. destruct (h_attempts _ !! id) as [[| |]|]; try done. by destruct (answer_resolves _ _ _).
  - unfold fence_lineage. destruct (fs_mode spec) as [by_ close|] eqn:Hm; [|by left].
    destruct (fence_core _ _ _ _) as [[b [core| | | |]]|] eqn:Hf; try (by left). right.
    destruct (fence_core_inv _ _ _ _ _ _ Hf) as (l & ch & C). unfold y_auth. cbn.
    rewrite (committed_auth _ _ _ _ _ _ _ _ C), Hm. eapply am_pause; apply C.
  - destruct (continuation_resume_tx _ _ _ _ _) as [b [[core|]|]] eqn:Hf; try (by left).
    destruct (resume_inv _ _ _ _ _ _ _ Hf) as (l & ch & b1 & R). right. by eapply resumed_auth.
  - left. by destruct (bool_decide _).
  - left. unfold start_call. repeat case_match; done.
  - left. apply call_auth.
  - left. unfold new_gate_job. repeat case_match; done.
  - left. repeat case_match; done.
  - left. unfold cancel_fenced_attempt. repeat case_match; done.
  - left. unfold cancel_fenced_attempt. repeat case_match; done.
  - left. unfold job_phase. repeat case_match; done.
  - left. unfold begin_delivery. repeat case_match; done.
  - left. unfold deliver_one, ack_fence. repeat case_match; done.
  - left. unfold drain. repeat case_match; done.
  - left. unfold forward_next. destruct (y_delivering y !! host) as [[|[|id todo]]|]; try done. apply mark_auth.
  - unfold create_instance. destruct (caller_stamp _ _) as [ini|]; [|by left].
    destruct (a_hosts _ !! host) eqn:Hh; [|by left]. destruct (a_chapters _ !! id) eqn:Hc; [by left|].
    destruct (a_lineages _ !! id) eqn:Hl; [by left|]. destruct (check_initiator _ _ _); [|by left]. right.
    by apply (am_create _ id host continuity).
  - right. apply am_running.
  - destruct (a_devices _ !! id); [by left|]. right. apply am_devices.
  - right. apply am_devices.
  - right. apply am_host.
  - left. by destruct (w_interactions _ !! id).
Qed.

(** ** What they keep *)

Record auth_le (a a' : Auth) : Prop := {
  le_chapter : ∀ i ch, a_chapters a !! i = Some ch → ∃ ch', a_chapters a' !! i = Some ch' ∧
    ch_host ch' = ch_host ch ∧ ch_lineage ch' = ch_lineage ch ∧ ch_generation ch' = ch_generation ch ∧
    (ch_fenced ch = true → ch_fenced ch' = true);
  le_lineage : ∀ lin l, a_lineages a !! lin = Some l → ∃ l', a_lineages a' !! lin = Some l' ∧
    ln_generation l ≤ ln_generation l';
  le_host : ∀ h, is_Some (a_hosts a !! h) → is_Some (a_hosts a' !! h);
}.
Lemma auth_le_refl a : auth_le a a.
Proof. split; [eauto 7|eauto with lia|done]. Qed.
Lemma auth_le_trans a b c : auth_le a b → auth_le b c → auth_le a c.
Proof.
  intros [A1 A2 A3] [B1 B2 B3]. split.
  - intros i ch H. destruct (A1 _ _ H) as (d & Hd & E1 & E2 & E3 & E4). destruct (B1 _ _ Hd) as (e & He & F1 & F2 & F3 & F4).
    exists e. split_and!; try congruence. auto.
  - intros lin l H. destruct (A2 _ _ H) as (d & Hd & ?). destruct (B2 _ _ Hd) as (e & He & ?). eauto with lia.
  - auto.
Qed.
Lemma fence_chapter_le i a : auth_le a (fence_chapter i a).
Proof.
  split; [|eauto with lia|done]. intros j ch H. rewrite fence_chapter_lookup, H. simpl.
  case_decide; eauto 7.
Qed.
Lemma lineages_le m a : (∀ lin l, a_lineages a !! lin = Some l → ∃ l', m !! lin = Some l' ∧ ln_generation l ≤ ln_generation l') →
  auth_le a (set_lineages m a).
Proof. intros H. split; [eauto 7|done|done]. Qed.
Lemma insert_lineage_le lin l l' a : a_lineages a !! lin = Some l → ln_generation l ≤ ln_generation l' →
  auth_le a (set_lineages (<[lin := l']> (a_lineages a)) a).
Proof.
  intros H Hg. apply lineages_le. intros k x Hk. destruct (decide (lin = k)) as [->|].
  - rewrite lookup_insert_eq. simplify_eq. eauto.
  - rewrite lookup_insert_ne by done. eauto with lia.
Qed.
Lemma devices_le m a : auth_le a (set_devices m a).
Proof. split; [eauto 7|eauto with lia|done]. Qed.
Lemma add_chapter_le s ch a : a_chapters a !! s = None → auth_le a (add_chapter s ch a).
Proof.
  intros Hn. split; [|eauto with lia|done]. intros i x Hx. cbn. rewrite lookup_insert_ne by congruence. eauto 7.
Qed.
Lemma fence_auth_le lin l m a : a_lineages a !! lin = Some l → auth_le a (fence_auth lin l m a).
Proof.
  intros Hl. unfold fence_auth, delete_credentials. eapply auth_le_trans; [|apply devices_le].
  eapply auth_le_trans; [|apply fence_chapter_le]. eapply insert_lineage_le; [done|]. destruct m; cbn; lia.
Qed.
Lemma resume_auth_le lin l s a : a_lineages a !! lin = Some l → auth_le a (resume_auth lin l s a).
Proof.
  intros Hl. unfold resume_auth. eapply auth_le_trans; [|apply devices_le].
  eapply auth_le_trans; [|apply fence_chapter_le]. eapply insert_lineage_le; [done|]. cbn; lia.
Qed.
Lemma running_generation a inst up l : ln_generation (start_running a inst up l) = ln_generation l.
Proof. unfold start_running. by destruct (_ && _). Qed.
Lemma auth_move_le a a' : auth_move a a' → auth_le a a'.
Proof.
  intros [id host continuity Hh Hc Hl|inst up|m|host capable|lin l ch by_ close Hl Hc|lin l ch s Hl Hc Hs Hn Hcl
    |lin l ch s Hl Hc Hs Hn Hcl].
  - cbn zeta. eapply auth_le_trans; [by apply (add_chapter_le id (mkChapter host id 1 false))|]. destruct continuity; [|apply auth_le_refl].
    apply lineages_le. intros k x Hk. cbn in *. rewrite lookup_insert_ne by congruence. eauto with lia.
  - apply lineages_le. intros k x Hk. rewrite lookup_fmap, Hk. cbn. eexists. split; [done|]. by rewrite running_generation.
  - apply devices_le.
  - split; [eauto 7|eauto with lia|]. intros h Hh. cbn. destruct (decide (host = h)) as [->|].
    + rewrite lookup_insert_eq. eauto.
    + by rewrite lookup_insert_ne.
  - by apply fence_auth_le.
  - eapply auth_le_trans; [by apply fence_auth_le|]. apply add_chapter_le.
    assert (a_chapters (fence_auth lin l (Successor s) a) !! s = a_chapters (fence_chapter (ln_current l) a) !! s) as -> by done.
    by rewrite fence_chapter_lookup, Hn.
  - eapply auth_le_trans; [by apply resume_auth_le|]. apply add_chapter_le.
    assert (a_chapters (resume_auth lin l s a) !! s = a_chapters (fence_chapter (ln_current l) a) !! s) as -> by done.
    by rewrite fence_chapter_lookup, Hn.
Qed.
Lemma step_le x y : auth_le (y_auth y) (y_auth (act_step x y)).
Proof. destruct (act_auth x y) as [->|H]; [apply auth_le_refl|by apply auth_move_le]. Qed.
Lemma run_le xs y : auth_le (y_auth y) (y_auth (act_run xs y)).
Proof.
  revert y. induction xs as [|x xs IH]; intros y; [apply auth_le_refl|].
  eapply auth_le_trans; [apply step_le|apply IH].
Qed.

(** ** Stamps *)

(** An initiator is the stamp of a chapter; a chapter is past a generation once
    its lineage is live above it. *)
Definition stamped (a : Auth) (ini : option HubInitiator) : Prop :=
  match ini with Some i => stamp_of a (hi_instance i) = Some i | None => True end.
Definition past (a : Auth) (lin : string) (g : Z) : Prop :=
  ∃ l, a_lineages a !! lin = Some l ∧ g < ln_generation l.
Lemma stamp_le a a' i : auth_le a a' → stamped a i → stamped a' i.
Proof.
  intros [H _ _]. destruct i as [i|]; [|done]. unfold stamped, stamp_of. intros (ch & Hch & E)%fmap_Some_1.
  destruct (H _ _ Hch) as (ch' & -> & _ & E1 & E2 & _). cbn. by rewrite E1, E2, <- E.
Qed.
Lemma past_le a a' lin g : auth_le a a' → past a lin g → past a' lin g.
Proof. intros [_ H _] (l & Hl & Hg). destruct (H _ _ Hl) as (l' & Hl' & ?). exists l'. split; [done|lia]. Qed.
Lemma past_below a lin g g' : past a lin g → g' ≤ g → past a lin g'.
Proof. intros (l & Hl & Hg) H. exists l. split; [done|lia]. Qed.
Lemma caller_stamped a caller ini : caller_stamp a caller = Some ini → stamped a ini.
Proof.
  destruct caller as [i|]; simpl; [|by intros [= <-]]. unfold stamped, stamp_of.
  destruct (a_chapters a !! i) as [ch|] eqn:Hch; [|done]. intros [= <-]. cbn. by rewrite Hch.
Qed.
Lemma below_inv lin g i : initiated_below lin g i = true → ∃ j, i = Some j ∧ hi_lineage j = lin ∧ hi_generation j ≤ g.
Proof.
  destruct i as [j|]; [|done]. intros [H%bool_decide_eq_true Hg%Z.leb_le]%andb_true_iff. eauto.
Qed.
(** The authority check refuses a stamp its lineage has moved past. *)
Lemma fenced_is_refused a lin g i d :
  past a lin g → stamped a i → initiated_below lin g i = true → check_initiator a i d = false.
Proof.
  intros (l & Hl & Hg) Hs (j & -> & <- & Hj)%below_inv. cbn in Hs |- *. unfold stamp_of in Hs.
  destruct (a_chapters a !! hi_instance j) as [ch|]; [|done]. injection Hs as Hs.
  assert (ch_lineage ch = hi_lineage j) as -> by by rewrite <- Hs. rewrite Hl.
  assert ((ln_generation l =? hi_generation j) = false) as -> by (apply Z.eqb_neq; lia). by rewrite andb_false_r.
Qed.
(** What passing the check means for a stamped initiator. *)
Lemma check_inv a i d : check_initiator a (Some i) d = true → stamped a (Some i) →
  ∃ ch, a_chapters a !! hi_instance i = Some ch ∧ ch_lineage ch = hi_lineage i ∧ ch_generation ch = hi_generation i ∧
    ch_fenced ch = false ∧ ∀ l, a_lineages a !! hi_lineage i = Some l → ln_generation l = hi_generation i ∧ ln_state l ≠ LPaused.
Proof.
  intros Hc Hs. cbn in Hs, Hc. unfold stamp_of in Hs. destruct (a_chapters a !! hi_instance i) as [ch|] eqn:Hch; [|done].
  injection Hs as Hs. assert (ch_lineage ch = hi_lineage i) as El by by rewrite <- Hs.
  assert (ch_generation ch = hi_generation i) as Eg by by rewrite <- Hs. exists ch. rewrite El in Hc.
  rewrite !andb_true_iff, !negb_true_iff in Hc. destruct Hc as [[[Hf Hg%Z.eqb_eq] Hp] _].
  split_and!; try done. intros l Hl. rewrite Hl in Hg, Hp. by apply bool_decide_eq_false in Hp.
Qed.

(** ** The live chapter *)

Record auth_ok (a : Auth) : Prop := {
  ok_host : ∀ i ch, a_chapters a !! i = Some ch → is_Some (a_hosts a !! ch_host ch);
  ok_root : ∀ i ch, a_chapters a !! i = Some ch → ∃ r, a_chapters a !! ch_lineage ch = Some r ∧ ch_host r = ch_host ch;
  ok_current : ∀ lin l, a_lineages a !! lin = Some l → 1 ≤ ln_generation l ∧
    ∃ ch, a_chapters a !! ln_current l = Some ch ∧ ch_lineage ch = lin;
  ok_chapter : ∀ i ch l, a_chapters a !! i = Some ch → a_lineages a !! ch_lineage ch = Some l →
    ch_generation ch ≤ ln_generation l ∧
    (ch_fenced ch = false → i = ln_current l ∧ ch_generation ch = ln_generation l ∧ ln_state l ≠ LPaused);
}.
(** Adding a chapter to tables where no chapter of its lineage is live. *)
Lemma ok_chapters_from a m : auth_ok a →
  (∀ i ch, m !! i = Some ch → ∃ c0, a_chapters a !! i = Some c0 ∧ ch_host ch = ch_host c0 ∧ ch_lineage ch = ch_lineage c0 ∧
     ch_generation ch = ch_generation c0 ∧ (ch_fenced ch = false → ch_fenced c0 = false)) →
  (∀ i c0, a_chapters a !! i = Some c0 → ∃ ch, m !! i = Some ch ∧ ch_host ch = ch_host c0 ∧ ch_lineage ch = ch_lineage c0) →
  auth_ok (set_chapters m a).
Proof.
  intros [O1 O2 O3 O4] Hb Hf. split; cbn.
  - intros i ch H. destruct (Hb _ _ H) as (c0 & H0 & -> & _). eauto.
  - intros i ch H. destruct (Hb _ _ H) as (c0 & H0 & Eh & El & _). destruct (O2 _ _ H0) as (r & Hr & Er).
    destruct (Hf _ _ Hr) as (r' & Hr' & Eh' & _). exists r'. rewrite El, Eh. split; [done|congruence].
  - intros lin l Hl. destruct (O3 _ _ Hl) as (Hg & ch & Hch & E). split; [done|].
    destruct (Hf _ _ Hch) as (ch' & ? & _ & ?). exists ch'. split; [done|congruence].
  - intros i ch l H Hl. destruct (Hb _ _ H) as (c0 & H0 & _ & El & Eg & Ef). rewrite El in Hl.
    destruct (O4 _ _ _ H0 Hl) as [P1 P2]. rewrite Eg. auto.
Qed.
Lemma ok_fence_chapter i a : auth_ok a → auth_ok (fence_chapter i a).
Proof.
  intros O. apply (ok_chapters_from a); [done|..].
  - intros j ch H. fold (fence_chapter i a) in H. change (a_chapters (fence_chapter i a) !! j = Some ch) in H.
    rewrite fence_chapter_lookup in H. apply fmap_Some in H as (c0 & H0 & ->). exists c0. by case_decide.
  - intros j c0 H. change (∃ ch, a_chapters (fence_chapter i a) !! j = Some ch ∧ ch_host ch = ch_host c0 ∧ ch_lineage ch = ch_lineage c0).
    rewrite fence_chapter_lookup, H. cbn. eexists. split; [done|]. by case_decide.
Qed.
Lemma ok_devices m a : auth_ok a → auth_ok (set_devices m a).
Proof. by intros [? ? ? ?]. Qed.
(** A new row for a lineage none of whose chapters is live. *)
Lemma ok_lineage lin l ch a : auth_ok a → (∀ i c, a_chapters a !! i = Some c → ch_lineage c = lin → ch_fenced c = true) →
  (∀ i c, a_chapters a !! i = Some c → ch_lineage c = lin → ch_generation c ≤ ln_generation l) →
  a_chapters a !! ln_current l = Some ch → ch_lineage ch = lin → 1 ≤ ln_generation l →
  auth_ok (set_lineages (<[lin := l]> (a_lineages a)) a).
Proof.
  intros [O1 O2 O3 O4] Hf Hg Hc Hcl H1. split; cbn; [done..| |].
  - intros k x. destruct (decide (lin = k)) as [<-|]; [rewrite lookup_insert_eq; intros [= <-]; eauto|].
    rewrite lookup_insert_ne by done. apply O3.
  - intros i c x Hi. destruct (decide (lin = ch_lineage c)) as [E|]; [rewrite E, lookup_insert_eq; intros [= <-]|].
    + split; [by eapply Hg|]. rewrite (Hf i c); done.
    + rewrite lookup_insert_ne by done. by apply O4.
Qed.
(** No chapter of the lineage is live once its current chapter is fenced. *)
Lemma fenced_all a lin l i c : auth_ok a → a_lineages a !! lin = Some l →
  a_chapters (fence_chapter (ln_current l) a) !! i = Some c → ch_lineage c = lin → ch_fenced c = true.
Proof.
  intros [_ _ _ O] Hl. rewrite fence_chapter_lookup. intros (c0 & H0 & ->)%fmap_Some. case_decide as Hd; [done|].
  intros E. destruct (ch_fenced c0) eqn:Hf; [done|]. destruct (O i c0 l H0) as [_ P]; [by rewrite E|].
  destruct (P Hf) as [-> _]. done.
Qed.
Lemma gen_all a lin l i c j : auth_ok a → a_lineages a !! lin = Some l →
  a_chapters (fence_chapter j a) !! i = Some c → ch_lineage c = lin → ch_generation c ≤ ln_generation l.
Proof.
  intros [_ _ _ O] Hl. rewrite fence_chapter_lookup. intros (c0 & H0 & ->)%fmap_Some E.
  destruct (O i c0 l H0) as [P _]; [case_decide; by rewrite <- Hl, <- E|]. by case_decide.
Qed.
(** The successor takes a lineage none of whose chapters is live. *)
Lemma ok_successor lin s g host by_ a : auth_ok a → a_chapters a !! s = None →
  (∀ i c, a_chapters a !! i = Some c → ch_lineage c = lin → ch_fenced c = true) →
  (∀ i c, a_chapters a !! i = Some c → ch_lineage c = lin → ch_generation c ≤ g) →
  (∃ i c, a_chapters a !! i = Some c ∧ ch_lineage c = lin ∧ ch_host c = host) → 1 ≤ g →
  auth_ok (add_chapter s (mkChapter host lin g false)
             (set_lineages (<[lin := mkLineage s g LStarting by_]> (a_lineages a)) a)).
Proof.
  intros [O1 O2 O3 O4] Hn Hf Hg (j & ch & Hj & Hcl & <-) H1. destruct (O2 _ _ Hj) as (r & Hr & Er). rewrite Hcl in Hr.
  assert (∀ i c, a_chapters a !! i = Some c → <[s := mkChapter (ch_host ch) lin g false]> (a_chapters a) !! i = Some c) as Hi.
  { intros i c H. by rewrite lookup_insert_ne by congruence. }
  split; cbn.
  - intros i c. destruct (decide (s = i)) as [<-|]; [rewrite lookup_insert_eq; intros [= <-]|rewrite lookup_insert_ne by done; apply O1].
    by apply (O1 _ _ Hj).
  - intros i c. destruct (decide (s = i)) as [<-|]; [rewrite lookup_insert_eq; intros [= <-]; cbn; eauto|].
    rewrite lookup_insert_ne by done. intros H. destruct (O2 _ _ H) as (x & Hx & E). eauto.
  - intros k x. destruct (decide (lin = k)) as [<-|].
    + rewrite lookup_insert_eq. intros [= <-]. cbn. split; [done|]. rewrite lookup_insert_eq. eauto.
    + rewrite lookup_insert_ne by done. intros H. destruct (O3 _ _ H) as (? & c & Hc & ?). eauto.
  - intros i c x. destruct (decide (s = i)) as [<-|].
    + rewrite lookup_insert_eq. intros [= <-]. cbn. rewrite lookup_insert_eq. intros [= <-]. cbn. split; [lia|]. done.
    + rewrite (lookup_insert_ne (a_chapters a)) by done. intros H. destruct (decide (lin = ch_lineage c)) as [E|].
      * rewrite <- E, lookup_insert_eq. intros [= <-]. cbn. split; [by apply (Hg i c)|]. by rewrite (Hf i c).
      * rewrite lookup_insert_ne by done. by apply O4.
Qed.
Lemma ok_create id host (continuity : bool) a : auth_ok a → is_Some (a_hosts a !! host) → a_chapters a !! id = None →
  auth_ok (let a := add_chapter id (mkChapter host id 1 false) a in
           if continuity then set_lineages (<[id := mkLineage id 1 LStarting None]> (a_lineages a)) a else a).
Proof.
  intros [O1 O2 O3 O4] Hh Hc.
  assert (∀ i c, a_chapters a !! i = Some c → <[id := mkChapter host id 1 false]> (a_chapters a) !! i = Some c) as Hi.
  { intros i c H. by rewrite lookup_insert_ne by congruence. }
  assert (∀ i c, a_chapters a !! i = Some c → ch_lineage c ≠ id) as Hne.
  { intros i c H E. destruct (O2 _ _ H) as (r & Hr & _). congruence. }
  assert (∀ i c, <[id := mkChapter host id 1 false]> (a_chapters a) !! i = Some c →
    (i = id ∧ c = mkChapter host id 1 false) ∨ a_chapters a !! i = Some c) as Hb.
  { intros i c. destruct (decide (id = i)) as [<-|]; [rewrite lookup_insert_eq; intros [= <-]; auto|].
    rewrite lookup_insert_ne by done. auto. }
  cbn zeta. split; destruct continuity; cbn.
  1,2: intros i c [[-> ->]|H]%Hb; [done|by apply (O1 i)].
  1,2: intros i c [[-> ->]|H]%Hb; [cbn; rewrite lookup_insert_eq; eauto|]; destruct (O2 _ _ H) as (x & Hx & ?); eauto.
  - intros k x. destruct (decide (id = k)) as [<-|]; [rewrite lookup_insert_eq; intros [= <-]|].
    + cbn. split; [lia|]. rewrite lookup_insert_eq. eauto.
    + rewrite lookup_insert_ne by done. intros H. destruct (O3 _ _ H) as (? & c & Hx & ?). eauto.
  - intros k x H. destruct (O3 _ _ H) as (? & c & Hx & ?). eauto.
  - intros i c x [[-> ->]|H]%Hb; cbn.
    + rewrite lookup_insert_eq. intros [= <-]. cbn. split; [lia|done].
    + rewrite lookup_insert_ne by (intros E; by apply (Hne _ _ H)). by apply O4.
  - intros i c x [[-> ->]|H]%Hb; cbn; [|by apply O4]. intros Hl. destruct (O3 _ _ Hl) as (_ & d & Hd & E).
    by destruct (Hne _ _ Hd).
Qed.
Lemma running_current a inst up l : ln_current (start_running a inst up l) = ln_current l.
Proof. unfold start_running. by destruct (_ && _). Qed.
Lemma running_paused a inst up l : ln_state l ≠ LPaused → ln_state (start_running a inst up l) ≠ LPaused.
Proof. unfold start_running. by destruct (_ && _). Qed.
Lemma ok_running inst up a : auth_ok a → auth_ok (note_chapter_running inst up a).
Proof.
  intros [O1 O2 O3 O4]. split; cbn; [done..| |].
  - intros k x. rewrite lookup_fmap. intros (l & Hl & ->)%fmap_Some. rewrite running_current, running_generation. by apply O3.
  - intros i c x Hi. rewrite lookup_fmap. intros (l & Hl & ->)%fmap_Some. rewrite running_current, running_generation.
    destruct (O4 _ _ _ Hi Hl) as [P Q]. split; [done|]. intros Hf. destruct (Q Hf) as (? & ? & ?). split_and!; try done.
    by apply running_paused.
Qed.
Lemma ok_succeed lin l ch s g by_ devices a : auth_ok a → a_lineages a !! lin = Some l → a_chapters a !! ln_current l = Some ch →
  a_chapters a !! s = None → ch_lineage ch = lin → ln_generation l ≤ g →
  auth_ok (set_devices devices (add_chapter s (mkChapter (ch_host ch) lin g false)
             (set_lineages (<[lin := mkLineage s g LStarting by_]> (a_lineages a)) (fence_chapter (ln_current l) a)))).
Proof.
  intros O Hl Hc Hn Hcl Hg. pose proof (ok_current _ O _ _ Hl) as (H1 & _).
  apply ok_devices, (ok_successor lin s g (ch_host ch) by_ (fence_chapter (ln_current l) a)).
  - by apply ok_fence_chapter.
  - by rewrite fence_chapter_lookup, Hn.
  - intros i c. by apply (fenced_all a lin l).
  - intros i c Hi E. pose proof (gen_all a lin l i c _ O Hl Hi E). lia.
  - exists (ln_current l), (mkChapter (ch_host ch) (ch_lineage ch) (ch_generation ch) true).
    rewrite fence_chapter_lookup, Hc. cbn. by rewrite decide_True.
  - lia.
Qed.
Lemma auth_move_ok a a' : auth_move a a' → auth_ok a → auth_ok a'.
Proof.
  intros [id host continuity Hh Hc Hl|inst up|m|host capable|lin l ch by_ close Hl Hc|lin l ch s Hl Hc Hs Hn Hcl
    |lin l ch s Hl Hc Hs Hn Hcl] O.
  - by apply ok_create.
  - by apply ok_running.
  - by apply ok_devices.
  - destruct O as [O1 O2 O3 O4]. split; cbn; [|done..]. intros i c H. destruct (decide (host = ch_host c)) as [->|].
    + rewrite lookup_insert_eq. eauto.
    + rewrite lookup_insert_ne by done. eauto.
  - pose proof (ok_current _ O _ _ Hl) as (H1 & ch' & Hch & Ecl). unfold fence_auth, delete_credentials. apply ok_devices.
    apply (ok_lineage lin _ (mkChapter (ch_host ch') (ch_lineage ch') (ch_generation ch') true) (fence_chapter (ln_current l) a)).
    + by apply ok_fence_chapter.
    + intros i c. by apply (fenced_all a lin l).
    + intros i c Hi E. cbn. pose proof (gen_all a lin l i c _ O Hl Hi E). lia.
    + rewrite fence_chapter_lookup. cbn. rewrite Hch. cbn. by rewrite decide_True.
    + done.
    + cbn. lia.
  - by apply (ok_succeed lin l ch s (ln_generation l + 1) _ (a_devices (fence_auth lin l (Successor s) a))); [..|lia].
  - by apply (ok_succeed lin l ch s (ln_generation l) _ (a_devices (resume_auth lin l s a))); [..|lia].
Qed.
Lemma run_ok xs y : auth_ok (y_auth y) → auth_ok (y_auth (act_run xs y)).
Proof.
  revert y. induction xs as [|x xs IH]; intros y O; [done|]. apply IH.
  destruct (act_auth x y) as [->|H]; [done|by eapply auth_move_ok].
Qed.
Lemma reachable_ok insts xs : auth_ok (y_auth (act_run xs (start insts))).
Proof. apply run_ok. by split. Qed.

(** ** The theorems *)

(** C3. Whatever happened, two stamps of one continuity lineage that both pass
    the authority check are the same: they name its current chapter at its live
    generation, so a predecessor never acts beside its successor. *)
Theorem one_chapter_acts insts xs lin l i j d e :
  let a := y_auth (act_run xs (start insts)) in
  a_lineages a !! lin = Some l → stamped a (Some i) → stamped a (Some j) → hi_lineage i = lin → hi_lineage j = lin →
  check_initiator a (Some i) d = true → check_initiator a (Some j) e = true →
  i = j ∧ hi_instance i = ln_current l ∧ hi_generation i = ln_generation l.
Proof.
  intros a Hl Hi Hj <- Ej Ci Cj. pose proof (reachable_ok insts xs) as O. fold a in O.
  destruct (check_inv _ _ _ Ci Hi) as (ci & H1 & L1 & G1 & F1 & P1).
  destruct (check_inv _ _ _ Cj Hj) as (cj & H2 & L2 & G2 & F2 & P2).
  rewrite Ej in P2, L2. destruct (P1 _ Hl) as [E1 _], (P2 _ Hl) as [E2 _].
  destruct (ok_chapter _ O _ _ l H1) as [_ Q1]; [by rewrite L1|]. destruct (ok_chapter _ O _ _ l H2) as [_ Q2]; [by rewrite L2|].
  destruct (Q1 F1) as [I1 _], (Q2 F2) as [I2 _]. split; [|done].
  destruct i as [i1 i2 i3], j as [j1 j2 j3]. simpl in *. congruence.
Qed.
(** The generation of a lineage never goes back, a chapter keeps its host,
    its lineage and its generation, and a fenced chapter stays fenced. *)
Theorem authority_only_advances xs y : auth_le (y_auth y) (y_auth (act_run xs y)).
Proof. apply run_le. Qed.
