(* ===== verification/FenceSafety.v ===== *)
(** * What a fence stops

    After F commits, nothing of the fenced generations that was not already on
    its way leaves the Hub: commands and direct operations that had not passed
    their intent are refused by the authority check for good, whatever the
    in-memory map says, whatever is replayed and however often the Hub
    restarts. *)
From stdpp Require Import base list gmap strings numbers sorting relations.
From S2P Require Import Prelude Json GateQueue HubCommands HubEdit HubLedger HubQueue FenceHub FenceSteps FenceLedger FenceAuth.
Local Open Scope Z_scope.

(** ** One command over steps of the queue *)

Definition marks (id : string) (op : HubOp) : Prop := ∃ ok gate, op = Mark id ok gate.
#[export] Instance marks_dec id op : Decision (marks id op).
Proof.
  destruct op as [|?|id' ok gate| | | | | | | | | | | | | | | | | | | | | | | |]; try (right; by intros (? & ? & [=])).
  destruct (decide (id' = id)) as [->|]; [left; by eexists _, _|right; by intros (? & ? & [= ? _ _])].
Defined.
Lemma frames_other id p h id' : id' ≠ id → filter (λ f : string * Value, f.1 = id) (h_frames h ++ [(id', p)]) = filter (λ f, f.1 = id) (h_frames h).
Proof. intros H. by rewrite filter_app, filter_cons_False, app_nil_r. Qed.
(** Only a mark starts an attempt, and a frame leaves in an attempt. *)
Lemma op_untouched id op h : ¬ marks id op → h_attempts h !! id = None →
  h_attempts (hub_step op h) !! id = None ∧ frames_of id (hub_step op h) = frames_of id h.
Proof.
  intros Hm Ha. destruct op; try done; simpl.
  - unfold start_forward. destruct (h_attempts h !! id0) eqn:E; [done|].
    destruct (mark_forward_intent_gated _ _ _ _) as [l [[| | | |]|]]; try done. split; [|done]. cbn.
    rewrite lookup_insert_ne; [done|]. intros ->. apply Hm. by eexists _, _.
  - destruct (h_attempts h !! id0) as [[| |]|] eqn:E; try done. destruct (l_commands _ !! _); [|done]. split; [|done]. cbn.
    rewrite lookup_insert_ne; [done|congruence].
  - destruct (h_attempts h !! id0) as [[| |]|] eqn:E; try done. split; [|done]. cbn. by rewrite lookup_delete_None; right.
  - destruct (h_attempts h !! id0) as [[|p|]|] eqn:E; try done. assert (id0 ≠ id) as Hne by congruence.
    unfold end_send. destruct r; cbn.
    + rewrite lookup_insert_ne by done. split; [done|]. unfold frames_of. cbn. by rewrite frames_other.
    + split; [|done]. by rewrite lookup_delete_ne.
    + destruct (row_hub_written _ _); [|destruct (row_is _ _ _)]; split; try done; cbn; by rewrite lookup_delete_ne.
  - destruct (h_attempts h !! id0) as [[| |]|] eqn:E; try done. split; [|done]. cbn. by rewrite lookup_delete_ne by congruence.
  - split; [|done]. cbn. by rewrite lookup_delete_None; right.
  - destruct (l_commands _ !! _) as [c|]; [|done]. by destruct (HubCommands.queued c).
  - by destruct (apply_command_projection _ _ _ _ _).
  - by destruct (_ && _).
Qed.
Definition closed_mark (ok : bool) (gate : Gate) : bool := negb ok || gate_fence gate || gate_lacks_fence gate.
Lemma mark_refused id ok gate h : closed_mark ok gate = true → h_attempts h !! id = None →
  h_attempts (hub_step (Mark id ok gate) h) !! id = None ∧ frames_of id (hub_step (Mark id ok gate) h) = frames_of id h.
Proof.
  intros Hm Ha. cbn [hub_step]. unfold start_forward. rewrite Ha. unfold mark_forward_intent_gated.
  destruct (l_commands _ !! _) as [c|]; [|done]. destruct ok; [|done]. cbn in Hm |- *. destruct (c_forwarded c || _); [done|].
  destruct (gate_waits gate); [done|]. destruct (gate_fence gate) eqn:E1; [done|]. destruct (gate_lacks_fence gate) eqn:E2; [done|]. unfold closed_mark in Hm. by rewrite E1, E2 in Hm.
Qed.
(** A row stays, with its identity. *)
Lemma row_stays id op h c : l_commands (h_ledger h) !! id = Some c →
  ∃ d, l_commands (h_ledger (hub_step op h)) !! id = Some d ∧ c_ident d = c_ident c.
Proof.
  intros Hc. pose proof (view_step id op h) as Hs.
  assert (∀ v v', rtc (vstep (edits id op) (creates id op h)) v v' → (∃ d, v_row v = Some d ∧ c_ident d = c_ident c) →
    ∃ d, v_row v' = Some d ∧ c_ident d = c_ident c) as H.
  { intros v v' R. induction R as [|v1 v2 v3 S _ IH]; [done|]. intros Hd. apply IH. clear IH.
    destruct Hd as (d & Hd & E). destruct S; cbn in *; simplify_eq; eauto. eexists. split; [done|].
    rewrite <- E. by apply q_ident. }
  apply (H _ _ Hs). by exists c.
Qed.
Lemma rows_from ops h id d : l_commands (h_ledger (hub_run ops h)) !! id = Some d →
  (∃ c, l_commands (h_ledger h) !! id = Some c ∧ c_ident c = c_ident d) ∨
  ∃ given fresh payload, Queue true given fresh (c_ident d) payload ∈ ops.
Proof.
  revert d. induction ops as [|op ops IH] using rev_ind; intros d; [eauto|]. rewrite hub_run_app. intros Hd.
  destruct (row_comes_from id op _ d Hd) as [(c & Hc & E)|Hn].
  - destruct (IH c Hc) as [(c' & ? & ?)|(given & fresh & payload & H)].
    + left. exists c'. split; [done|congruence].
    + right. rewrite E in H. eexists _, _, _. apply elem_of_app. left. exact H.
  - destruct op; try done. destruct authorized.
    + right. simpl in Hn. destruct (id_key ident ≫= _); [done|]. case_bool_decide; [|done].
      injection Hn as ->. eexists _, _, _. apply elem_of_app. right. by apply list_elem_of_singleton.
    + destruct (IH d Hd) as [?|(g & f & p & H)]; [by left|]. right. eexists _, _, _. apply elem_of_app. left. exact H.
Qed.
Lemma row_stays_run id ops h c : l_commands (h_ledger h) !! id = Some c →
  ∃ d, l_commands (h_ledger (hub_run ops h)) !! id = Some d ∧ c_ident d = c_ident c.
Proof.
  revert h c. induction ops as [|op ops IH]; intros h c Hc; [eauto|].
  destruct (row_stays id op h c Hc) as (d & Hd & E). destruct (IH _ _ Hd) as (e & He & E'). exists e. split; [done|congruence].
Qed.

(** ** Which steps a step of the Hub runs *)

(** Marks come with the answer of the authority check and the gate. *)
Lemma mark_ops_in id waits b id' ok gate : Mark id' ok gate ∈ mark_ops id waits b →
  ∃ c, ledger b !! id' = Some c ∧ ok = cmd_authorized b id' c ∧ gate = cmd_gate b waits c.
Proof.
  unfold mark_ops. destruct (ledger b !! id) as [c|] eqn:Hc; [|by intros ?%not_elem_of_nil].
  intros [= -> -> ->]%list_elem_of_singleton. eauto.
Qed.
Lemma mark_ops_not_queue id waits b ok given fresh ident payload :
  Queue ok given fresh ident payload ∈ mark_ops id waits b → False.
Proof. unfold mark_ops. destruct (ledger b !! id); [by intros ?%list_elem_of_singleton|by intros ?%not_elem_of_nil]. Qed.
Lemma close_ops_in close p host now lin g op : op ∈ close_ops close p host now ++ [FenceHeld lin g] →
  op = FenceHeld lin g ∨ ∃ c, close = Some c ∧
    op = Queue true (Some (pc_command c)) (pc_command c) (close_ident c p host now) (pc_payload c).
Proof.
  intros [H|H%list_elem_of_singleton]%elem_of_app; [|by left]. destruct close as [c|]; [|by apply not_elem_of_nil in H].
  apply list_elem_of_singleton in H. eauto.
Qed.
Lemma pause_ops_in now lin b spec op : op ∈ pause_ops now lin b spec →
  (∃ g, op = FenceHeld lin g) ∨ ∃ c p host, op = Queue true (Some (pc_command c)) (pc_command c) (close_ident c p host now) (pc_payload c).
Proof.
  unfold pause_ops. destruct (a_lineages _ !! lin); [|by intros ?%not_elem_of_nil].
  destruct (a_chapters _ !! _); [|by intros ?%not_elem_of_nil]. intros [->|(close & _ & ->)]%close_ops_in; eauto 6.
Qed.
Lemma resume_ops_in now b rq core op : op ∈ resume_ops now b rq core →
  (∃ g, op = FenceHeld (fc_lineage core) g) ∨ ∃ host, op = create_op now rq core host.
Proof.
  unfold resume_ops. destruct (a_lineages _ !! _); [|by intros ?%not_elem_of_nil].
  destruct (a_chapters _ !! _); [|by intros ?%not_elem_of_nil].
  intros [->|H]%elem_of_cons; [eauto|]. destruct (bool_decide _); [by apply not_elem_of_nil in H|].
  apply list_elem_of_singleton in H. eauto.
Qed.
Lemma hub_ops_marks x y id ok gate : Mark id ok gate ∈ hub_ops x y →
  ∃ c waits, ledger (y_db y) !! id = Some c ∧ ok = cmd_authorized (y_db y) id c ∧ gate = cmd_gate (y_db y) waits c.
Proof.
  destruct x; cbn [hub_ops]; try by intros ?%not_elem_of_nil.
  - destruct (plain op) eqn:Hp; [|by intros ?%not_elem_of_nil]. by intros <-%list_elem_of_singleton.
  - unfold queue_ops. destruct (caller_stamp _ _); [|by intros ?%not_elem_of_nil]. by intros ?%list_elem_of_singleton.
  - intros (c & ? & ? & ?)%mark_ops_in. eauto.
  - destruct (fenced_in_map _ _); [|by intros ?%not_elem_of_nil]. by intros ?%list_elem_of_singleton.
  - destruct (bool_decide _); [|by intros ?%not_elem_of_nil]. by intros ?%list_elem_of_singleton.
  - by intros ?%list_elem_of_singleton.
  - by intros ?%list_elem_of_singleton.
  - repeat case_match; try by intros ?%not_elem_of_nil. by intros [[g ?]|(c & p & host & ?)]%pause_ops_in.
  - repeat case_match; try by intros ?%not_elem_of_nil. by intros [[g ?]|(host & ?)]%resume_ops_in.
  - repeat case_match; try by intros ?%not_elem_of_nil. intros (c & ? & ? & ?)%mark_ops_in. eauto.
  - by intros ?%list_elem_of_singleton.
Qed.
(** What is queued carries the stamp of a chapter. *)
Lemma hub_ops_queues x y ok given fresh ident payload : Queue ok given fresh ident payload ∈ hub_ops x y →
  stamped (y_auth (act_step x y)) (id_initiator ident).
Proof.
  destruct x; cbn [hub_ops]; try by intros ?%not_elem_of_nil.
  - destruct (plain op) eqn:Hp; [|by intros ?%not_elem_of_nil]. by intros <-%list_elem_of_singleton.
  - unfold queue_ops. destruct (caller_stamp _ _) as [ini|] eqn:Hs; [|by intros ?%not_elem_of_nil].
    intros [= -> -> -> -> ->]%list_elem_of_singleton. eapply stamp_le; [apply step_le|]. by eapply caller_stamped.
  - by intros ?%mark_ops_not_queue.
  - destruct (fenced_in_map _ _); [|by intros ?%not_elem_of_nil]. by intros ?%list_elem_of_singleton.
  - destruct (bool_decide _); [|by intros ?%not_elem_of_nil]. by intros ?%list_elem_of_singleton.
  - by intros ?%list_elem_of_singleton.
  - by intros ?%list_elem_of_singleton.
  - repeat case_match; try by intros ?%not_elem_of_nil. intros [[g ?]|(c & p & host & [= -> -> -> -> ->])]%pause_ops_in; done.
  - destruct (continuation_resume_tx _ _ _ _ _) as [b [[core|]|]] eqn:Hf; try by intros ?%not_elem_of_nil.
    intros [[g ?]|(host & [= -> -> -> -> ->])]%resume_ops_in; [done|].
    destruct (resume_inv _ _ _ _ _ _ _ Hf) as (l & ch & b1 & R). cbn [act_step]. rewrite Hf. cbn.
    unfold stamp_of, y_auth. rewrite (rs_db _ _ _ _ _ _ _ _ _ R). cbn. by rewrite lookup_insert_eq.
  - repeat case_match; try by intros ?%not_elem_of_nil. by intros ?%mark_ops_not_queue.
  - by intros ?%list_elem_of_singleton.
Qed.

(** ** Everything is stamped *)

Record all_stamped (y : Sys) : Prop := {
  as_rows : ∀ id c, ledger (y_db y) !! id = Some c → stamped (y_auth y) (id_initiator (c_ident c));
  as_calls : ∀ n c, y_calls y !! n = Some c → stamped (y_auth y) (cl_initiator c);
  as_node_ops : ∀ k o, node_ops (y_db y) !! k = Some o → stamped (y_auth y) (no_initiator o);
  as_jobs : ∀ id ij, jobs (y_db y) !! id = Some ij → stamped (y_auth y) ij.1;
}.
Lemma rows_stamped_step x y : (∀ id c, ledger (y_db y) !! id = Some c → stamped (y_auth y) (id_initiator (c_ident c))) →
  ∀ id c, ledger (y_db (act_step x y)) !! id = Some c → stamped (y_auth (act_step x y)) (id_initiator (c_ident c)).
Proof.
  intros H id d Hd. unfold ledger in Hd. fold (y_hub (act_step x y)) in Hd. rewrite hub_step_of in Hd.
  apply rows_from in Hd as [(c & Hc & E)|(given & fresh & payload & Hq)]; [|by eapply hub_ops_queues].
  rewrite <- E. eapply stamp_le; [apply step_le|]. by eapply H.
Qed.
(** What a step does to the calls, the direct operations and the jobs. *)
Definition from_before {K A} `{Countable K} (P : A → Prop) (f : A → option HubInitiator) (m m' : gmap K A) : Prop :=
  ∀ k x', m' !! k = Some x' → (∃ x, m !! k = Some x ∧ f x = f x') ∨ P x'.
Lemma from_refl {K A} `{Countable K} P (f : A → option HubInitiator) (m : gmap K A) : from_before P f m m.
Proof. unfold from_before. eauto. Qed.
Lemma from_delete {K A} `{Countable K} P (f : A → option HubInitiator) (m : gmap K A) k : from_before P f m (delete k m).
Proof. intros j x [_ Hx]%lookup_delete_Some. eauto. Qed.
Lemma from_insert {K A} `{Countable K} (P : A → Prop) (f : A → option HubInitiator) (m : gmap K A) k x :
  P x → from_before P f m (<[k := x]> m).
Proof. intros HP. intros j x' [[<- <-]|[_ Hx]]%lookup_insert_Some; eauto. Qed.
Lemma from_replace {K A} `{Countable K} (P : A → Prop) (f : A → option HubInitiator) (m : gmap K A) k x x' :
  m !! k = Some x → f x = f x' → from_before P f m (<[k := x']> m).
Proof. intros Hk E. intros j z [[<- <-]|[_ Hz]]%lookup_insert_Some; eauto. Qed.
Lemma from_alter {K A} `{Countable K} (P : A → Prop) (f : A → option HubInitiator) (m : gmap K A) k g :
  (∀ x, f (g x) = f x) → from_before P f m (alter g k m).
Proof. intros E. intros j z [(-> & x & Hx & ->)|[_ Hz]]%lookup_alter_Some; left; eauto. Qed.
Lemma from_imap {K A} `{Countable K} (P : A → Prop) (f : A → option HubInitiator) (m : gmap K A) (g : K → A → A) :
  (∀ k x, f (g k x) = f x) → from_before P f m (map_imap (λ k x, Some (g k x)) m).
Proof.
  intros E. intros j z. rewrite map_lookup_imap. destruct (m !! j) as [x|] eqn:Hx; [|done]. intros [= <-]. left. eauto.
Qed.
Lemma from_empty {K A} `{Countable K} (P : A → Prop) (f : A → option HubInitiator) (m : gmap K A) : from_before P f m ∅.
Proof. intros j z. by rewrite lookup_empty. Qed.

Ltac act_split x :=
  destruct x; cbn [act_step];
  unfold forward_next, queue, mark, note, send_gate, send, answer, start_call, new_gate_job, begin_delivery,
    deliver_one, drain, create_instance, resolve_if;
  repeat case_match.
Lemma calls_from x y : from_before (λ c, stamped (y_auth y) (cl_initiator c)) cl_initiator (y_calls y) (y_calls (act_step x y)).
Proof.
  act_split x; first [apply from_refl | apply from_insert; by eapply caller_stamped | apply from_empty | idtac].
  unfold call_step. destruct (y_calls y !! n) as [c|] eqn:Hc; [|apply from_refl].
  assert (∀ p, from_before (λ c, stamped (y_auth y) (cl_initiator c)) cl_initiator (y_calls y) (<[n := set_phase p c]> (y_calls y))) as Hm.
  { intros p. by apply (from_replace _ _ _ n c). }
  destruct (cl_phase c), s; unfold on_wire, or_end, end_call; repeat case_match;
    first [apply from_refl|apply Hm|apply from_delete].
Qed.
(** What F does to the direct operations and the jobs. *)
Lemma fenced_node_ops now fid lin l m host b P : from_before P no_initiator (node_ops b) (node_ops (fenced_db now fid lin l m host b)).
Proof.
  assert (node_ops (fenced_db now fid lin l m host b) =
    map_imap (λ k o, Some (if node_op_fenced lin (ln_generation l) (fence_jobs now fid lin (ln_generation l)
       (fence_in_flight fid lin (ln_generation l) (fence_commands fid lin (ln_generation l)
          (set_auth (fence_auth lin l m (b_auth b)) b)))) (k, o) then cancel_node_op o else o)) (node_ops b)) as ->.
  { unfold fenced_db. by destruct (pause_close m). }
  apply from_imap. intros k x. case_match; [|done]. unfold cancel_node_op. by destruct (bool_decide _).
Qed.
Lemma fenced_jobs now fid lin l m host b P : from_before P fst (jobs b) (jobs (fenced_db now fid lin l m host b)).
Proof.
  assert (jobs (fenced_db now fid lin l m host b) =
    map_imap (λ id ij, Some (if job_fenced lin (ln_generation l) (fence_in_flight fid lin (ln_generation l)
       (fence_commands fid lin (ln_generation l) (set_auth (fence_auth lin l m (b_auth b)) b))) (id, ij)
       then (ij.1, cancel_job now ij.2) else ij)) (jobs b)) as ->.
  { unfold fenced_db. by destruct (pause_close m). }
  apply from_imap. intros k x. by case_match.
Qed.
Lemma resumed_work now fid rq b b' core l ch b1 : resumed now fid rq b b' core l ch b1 → b_work b' = b_work b1.
Proof. intros R. by rewrite (rs_db _ _ _ _ _ _ _ _ _ R). Qed.
Lemma committed_work now fid spec b b' core l ch P Q : committed_f now fid spec b b' core l ch →
  from_before P no_initiator (node_ops b) (node_ops b') ∧ from_before Q fst (jobs b) (jobs b').
Proof.
  intros C. destruct (cf_what _ _ _ _ _ _ _ _ C) as [(s & _ & _ & -> & _)|(_ & _ & -> & _)].
  - split; apply from_refl.
  - split; [apply fenced_node_ops|apply fenced_jobs].
Qed.
Lemma admit_ops c b b' : admit_node_op c b = Some b' → b' = put_node_ops (node_ops b') b ∧
  (node_ops b' = node_ops b ∨ node_ops b !! (cl_op c, cl_host c) = None ∧
   node_ops b' = <[(cl_op c, cl_host c) := mkNodeOp (cl_method c) (cl_initiator c) OpAdmitted]> (node_ops b)).
Proof.
  intros H. destruct (admit_work _ _ _ H) as [E _]. split; [done|]. clear E. unfold admit_node_op in H.
  destruct (check_initiator _ _ _); [|done]. injection H as <-. destruct (node_ops b !! _) eqn:E; [by left|]. by right.
Qed.
Definition admitted_by (y : Sys) (o : NodeOp) : Prop := ∃ n c, y_calls y !! n = Some c ∧ cl_initiator c = no_initiator o ∧
  check_initiator (y_auth y) (no_initiator o) (cl_device c) = true.
Definition enqueued_by (y : Sys) (ij : option HubInitiator * GateJob) : Prop :=
  stamped (y_auth y) ij.1 ∧ ∃ d, check_initiator (y_auth y) ij.1 d = true.
Lemma call_work_from n s y :
  from_before (admitted_by y) no_initiator
    (node_ops (y_db y)) (node_ops (y_db (call_step n s y))) ∧
  from_before (enqueued_by y) fst (jobs (y_db y)) (jobs (y_db (call_step n s y))).
Proof.
  unfold call_step. destruct (y_calls y !! n) as [c|] eqn:Hc; [|split; apply from_refl].
  destruct (cl_phase c), s; unfold on_wire; try (split; apply from_refl).
  - destruct (admit_node_op c (y_db y)) as [b|] eqn:Ha; [|split; apply from_refl]. cbn.
    destruct (admit_ops _ _ _ Ha) as [E H]. split; [|rewrite E; apply from_refl].
    destruct H as [->|[_ ->]]; [apply from_refl|]. apply from_insert. exists n, c. split_and!; [done|done|].
    unfold admit_node_op in Ha. cbn [no_initiator]. unfold y_auth. by destruct (check_initiator _ _ _).
  - destruct (mark_node_op_sent c (y_db y)) as [b|] eqn:Ha; [|split; apply from_refl]. cbn.
    destruct (sent_work _ _ _ Ha) as (_ & o & Ho & ->). split; [|apply from_refl]. by eapply from_replace.
  - destruct (fenced_in_map _ _); [|split; apply from_refl]. split; [|apply from_refl]. apply from_alter.
    intros o. by destruct (bool_decide _).
  - destruct (cl_initiator c); split; apply from_refl.
  - destruct left_; split; apply from_refl.
  - destruct (cl_initiator c); [|split; apply from_refl]. split; [|apply from_refl]. by apply from_alter.
  - split; [|apply from_refl]. by apply from_alter.
Qed.
Lemma act_work_from x y :
  from_before (admitted_by y) no_initiator
    (node_ops (y_db y)) (node_ops (y_db (act_step x y))) ∧
  from_before (enqueued_by y) fst (jobs (y_db y)) (jobs (y_db (act_step x y))).
Proof.
  act_split x; try (split; apply from_refl).
  - unfold fence_lineage in *. repeat case_match; simplify_eq.
    destruct (fence_core_inv _ _ _ _ _ _ ltac:(eassumption)) as (l & ch & C). by eapply committed_work.
  - destruct (resume_inv _ _ _ _ _ _ _ ltac:(eassumption)) as (l & ch & b1 & R).
    pose proof (resumed_work _ _ _ _ _ _ _ _ _ R) as E. unfold node_ops, jobs. cbn. rewrite E.
    by eapply committed_work, R.
  - apply call_work_from.
  - split; [apply from_refl|]. apply from_insert. split; [by eapply caller_stamped|eauto].
  - split; [apply from_refl|]. apply from_insert. split; [by eapply caller_stamped|eauto].
  - split; [apply from_refl|]. by eapply from_replace.
  - unfold cancel_fenced_attempt. repeat case_match; split; try apply from_refl; by eapply from_replace.
  - unfold cancel_fenced_attempt. repeat case_match; split; try apply from_refl; by eapply from_replace.
  - unfold job_phase. repeat case_match; split; try apply from_refl; by eapply from_replace.
  - unfold ack_fence in *. simplify_eq. split; apply from_refl.
Qed.
Lemma stamped_step x y : all_stamped y → all_stamped (act_step x y).
Proof.
  intros [S1 S2 S3 S4]. destruct (act_work_from x y) as [Ho Hj].
  assert (∀ i, stamped (y_auth y) i → stamped (y_auth (act_step x y)) i) as Hle.
  { intros i. apply stamp_le, step_le. }
  split.
  - by apply rows_stamped_step.
  - intros n c H. apply Hle. destruct (calls_from x y n c H) as [(c' & Hc & <-)|Hc]; eauto.
  - intros k o H. apply Hle. destruct (Ho k o H) as [(o' & Hk & <-)|(n & c & Hc & <- & _)]; eauto.
  - intros k ij H. apply Hle. destruct (Hj k ij H) as [(ij' & Hk & <-)|[Hs _]]; eauto.
Qed.
Lemma stamped_run xs y : all_stamped y → all_stamped (act_run xs y).
Proof. revert y. induction xs as [|x xs IH]; intros y S; [done|]. by apply IH, stamped_step. Qed.
Lemma reachable_stamped insts xs : all_stamped (act_run xs (start insts)).
Proof. apply stamped_run. split; intros ??; cbn; by rewrite lookup_empty. Qed.

(** ** What F leaves behind *)

Lemma committed_past now fid spec b b' core l ch : committed_f now fid spec b b' core l ch →
  past (b_auth b') (fc_lineage core) (fc_fenced core).
Proof.
  intros C. unfold past. rewrite (committed_auth _ _ _ _ _ _ _ _ C), (cf_core_lineage _ _ _ _ _ _ _ _ C).
  destruct (cf_what _ _ _ _ _ _ _ _ C) as [(s & -> & -> & _ & -> & _)|(Hp & _ & _ & -> & _)].
  - exists (mkLineage s (ln_generation l) LStarting None). cbn. rewrite lookup_insert_eq. split; [done|lia].
  - exists (next_lineage (fs_mode spec) l). assert (ln_generation l < ln_generation (next_lineage (fs_mode spec) l)) as Hlt.
    { destruct (fs_mode spec); cbn; lia. }
    split; [|done]. destruct (fs_mode spec) as [|s]; [|destruct (ln_state l) eqn:E; [..|by destruct (Hp s)]];
      cbn; by rewrite lookup_insert_eq.
Qed.
(** A step that commits an F, with what it committed. *)
Definition commits (x : Act) (y : Sys) : option FenceCore :=
  match x with
  | AFence now fid spec =>
      match fs_mode spec, fence_lineage now fid spec (y_db y) with
      | Pause _ _, (_, Ok (Committed core)) => Some core
      | _, _ => None
      end
  | AResume now fid grants_ok rq =>
      match continuation_resume_tx now fid grants_ok rq (y_db y) with
      | (_, Ok (Resumed core)) => Some core
      | _ => None
      end
  | _ => None
  end.
Lemma commits_inv x y core : commits x y = Some core → ∃ now fid spec b l ch,
  committed_f now fid spec (y_db y) b core l ch ∧
  ((∃ by_ close, x = AFence now fid spec ∧ fs_mode spec = Pause by_ close ∧ act_step x y = commit b core y) ∨
   (∃ grants rq b', x = AResume now fid grants rq ∧ spec = resume_spec rq (fc_lineage core) ∧
      act_step x y = commit b' core y ∧ resumed now fid rq (y_db y) b' core l ch b)).
Proof.
  destruct x; try done; cbn [commits].
  - destruct (fs_mode spec) as [by_ close|] eqn:Hm; [|done].
    destruct (fence_lineage now fid spec (y_db y)) as [b [[core'| | | |]|]] eqn:Hf; try done. intros [= ->].
    assert (fence_core now fid spec (y_db y) = Ok (b, Committed core)) as Hc.
    { unfold fence_lineage in Hf. repeat case_match; by simplify_eq. }
    destruct (fence_core_inv _ _ _ _ _ _ Hc) as (l & ch & C). eexists _, _, _, _, _, _. split; [exact C|]. left.
    eexists _, _. split_and!; [done|done|]. cbn [act_step]. by rewrite Hm, Hf.
  - destruct (continuation_resume_tx _ _ _ _ _) as [b [[core'|]|]] eqn:Hf; try done. intros [= ->].
    destruct (resume_inv _ _ _ _ _ _ _ Hf) as (l & ch & b1 & R). eexists _, _, _, _, _, _. split; [apply R|]. right.
    eexists _, _, _. split_and!; [done|done| |done]. cbn [act_step]. by rewrite Hf.
Qed.
Lemma commits_past x y core : commits x y = Some core → past (y_auth (act_step x y)) (fc_lineage core) (fc_fenced core).
Proof.
  intros H. destruct (commits_inv _ _ _ H) as (now & fid & spec & b & l & ch & C & [(by_ & close & _ & _ & ->)|(gr & rq & b' & _ & _ & -> & R)]).
  - apply (committed_past _ _ _ _ _ _ _ _ C).
  - pose proof (committed_past _ _ _ _ _ _ _ _ C) as P. unfold y_auth. cbn. rewrite (rs_db _ _ _ _ _ _ _ _ _ R). apply P.
Qed.

(** ** Commands *)

(** A command of a fenced generation with no forward on its way. *)
Record quenched (lin : string) (g : Z) (id : string) (fr : list Value) (y : Sys) : Prop := {
  qn_past : past (y_auth y) lin g;
  qn_stamped : all_stamped y;
  qn_row : ∃ c, ledger (y_db y) !! id = Some c ∧ initiated_below lin g (id_initiator (c_ident c)) = true;
  qn_attempt : h_attempts (y_hub y) !! id = None;
  qn_frames : frames_of id (y_hub y) = fr;
}.
Lemma run_untouched id ops h : h_attempts h !! id = None →
  (∀ ok gate, Mark id ok gate ∈ ops → closed_mark ok gate = true) →
  h_attempts (hub_run ops h) !! id = None ∧ frames_of id (hub_run ops h) = frames_of id h.
Proof.
  revert h. induction ops as [|op ops IH]; intros h Ha Hm; [done|].
  assert (h_attempts (hub_step op h) !! id = None ∧ frames_of id (hub_step op h) = frames_of id h) as [Ha' Hf'].
  { destruct (decide (marks id op)) as [(ok & gate & ->)|Hn].
    - apply mark_refused; [|done]. apply Hm. by left.
    - by apply op_untouched. }
  destruct (IH _ Ha') as [H1 H2]; [intros ok gate H; by apply (Hm ok gate), elem_of_cons; right|].
  split; [done|]. cbn [hub_run foldl] in *. by rewrite <- Hf'.
Qed.
Lemma quenched_step lin g id fr x y : quenched lin g id fr y → quenched lin g id fr (act_step x y).
Proof.
  intros [P S (c & Hc & Hb) Ha Hf]. destruct (run_untouched id (hub_ops x y) (y_hub y) Ha) as [Ha' Hf'].
  { intros ok gate (c' & waits & Hc' & -> & _)%hub_ops_marks. simplify_eq. unfold cmd_authorized.
    by rewrite (fenced_is_refused _ lin g); [|done|by apply (as_rows _ S id)|]. }
  rewrite <- hub_step_of in Ha', Hf'. split.
  - by eapply past_le, P; apply step_le.
  - by apply stamped_step.
  - unfold ledger. fold (y_hub (act_step x y)). rewrite hub_step_of.
    destruct (row_stays_run id (hub_ops x y) (y_hub y) c Hc) as (d & Hd & E). exists d. by rewrite E.
  - done.
  - by rewrite Hf'.
Qed.
Lemma quenched_run lin g id fr xs y : quenched lin g id fr y → quenched lin g id fr (act_run xs y).
Proof. revert y. induction xs as [|x xs IH]; intros y Q; [done|]. by apply IH, quenched_step. Qed.
Lemma commits_marks x y core id ok gate : commits x y = Some core → Mark id ok gate ∈ hub_ops x y → closed_mark ok gate = true.
Proof.
  destruct x; try done; intros _; cbn [hub_ops].
  - repeat case_match; try by intros ?%not_elem_of_nil. by intros [[g ?]|(c & p & host & ?)]%pause_ops_in.
  - repeat case_match; try by intros ?%not_elem_of_nil. by intros [[g ?]|(host & ?)]%resume_ops_in.
Qed.
(** C2. Once F has committed, a command of the fenced generations whose forward
    had not begun never leaves the Hub: no frame of it is written by any later
    step, whoever replays it, whatever the in-memory map holds and however
    often the Hub restarts. *)
Theorem fenced_command_never_leaves insts xs x core id c later :
  let y := act_run xs (start insts) in
  commits x y = Some core → ledger (y_db y) !! id = Some c →
  initiated_below (fc_lineage core) (fc_fenced core) (id_initiator (c_ident c)) = true →
  h_attempts (y_hub y) !! id = None →
  frames_of id (y_hub (act_run later (act_step x y))) = frames_of id (y_hub y).
Proof.
  intros y Hx Hc Hb Ha. apply (qn_frames (fc_lineage core) (fc_fenced core)), quenched_run.
  destruct (run_untouched id (hub_ops x y) (y_hub y) Ha) as [Ha' Hf']; [intros ok gate; by apply (commits_marks x y core)|].
  rewrite <- hub_step_of in Ha', Hf'. split; [by apply commits_past|apply stamped_step, reachable_stamped| |done|done].
  unfold ledger. fold (y_hub (act_step x y)). rewrite hub_step_of.
  destruct (row_stays_run id (hub_ops x y) (y_hub y) c Hc) as (d & Hd & E). exists d. by rewrite E.
Qed.

(** ** Direct operations *)

(** A call that is past its send intent, its frame not yet written. *)
Definition on_its_way (lin : string) (g : Z) (c : Call) : bool :=
  initiated_below lin g (cl_initiator c) && match cl_phase c with CGate | CWire => true | _ => false end.
Definition frames_below (lin : string) (g : Z) (y : Sys) : nat :=
  length (retain (λ f, initiated_below lin g f.2) (y_op_frames y)).
Definition ways (lin : string) (g : Z) (m : gmap nat Call) : nat :=
  length (retain (λ p, on_its_way lin g p.2) (map_to_list m)).
Definition could_leave (lin : string) (g : Z) (y : Sys) : nat := (ways lin g (y_calls y) + frames_below lin g y)%nat.
Definition weight (lin : string) (g : Z) (c : option Call) : nat :=
  match c with Some c => if on_its_way lin g c then 1%nat else 0%nat | None => 0%nat end.

Section ways.
Context (lin : string) (g : Z).
Lemma retain_perm {A} (p : A → bool) l l' : l ≡ₚ l' → length (retain p l) = length (retain p l').
Proof.
  induction 1 as [|x l l' _ IH|x z l|l1 l2 l3 _ IH1 _ IH2]; simpl; [done|by destruct (p x); simpl; rewrite ?IH|
    by destruct (p x), (p z)|congruence].
Qed.
Lemma ways_insert n c m : m !! n = None → ways lin g (<[n := c]> m) = (weight lin g (Some c) + ways lin g m)%nat.
Proof.
  intros Hn. unfold ways. rewrite (retain_perm _ _ _ (map_to_list_insert m n c Hn)). simpl. by destruct (on_its_way lin g c).
Qed.
Lemma ways_delete n m : ways lin g m = (weight lin g (m !! n) + ways lin g (delete n m))%nat.
Proof.
  destruct (m !! n) as [c|] eqn:Hn; [|by rewrite delete_id]. rewrite <- (insert_delete_id m n c Hn) at 1.
  apply ways_insert, lookup_delete_eq.
Qed.
Lemma ways_move n c c' m : m !! n = Some c →
  (ways lin g (<[n := c']> m) + weight lin g (Some c) = ways lin g m + weight lin g (Some c'))%nat.
Proof.
  intros Hn. rewrite (ways_delete n m), Hn, (ways_delete n (<[n := c']> m)), lookup_insert_eq, delete_insert_eq. lia.
Qed.
Lemma ways_frames c fs : length (retain (λ f, initiated_below lin g f.2) (fs ++ [frame_of c])) =
  (length (retain (λ f, initiated_below lin g f.2) fs) + (if initiated_below lin g (cl_initiator c) then 1 else 0))%nat.
Proof.
  rewrite retain_app, length_app. f_equal. simpl. by destruct (initiated_below _ _ _).
Qed.
End ways.
Lemma leave_move lin g n c p y : y_calls y !! n = Some c →
  (weight lin g (Some (set_phase p c)) ≤ weight lin g (Some c))%nat →
  (could_leave lin g (move_call n p c y) ≤ could_leave lin g y)%nat.
Proof.
  intros Hn Hw. unfold could_leave, move_call, frames_below. cbn [y_calls set_calls y_op_frames].
  pose proof (ways_move lin g n c (set_phase p c) _ Hn). lia.
Qed.
Lemma leave_end lin g n y : (could_leave lin g (end_call n y) ≤ could_leave lin g y)%nat.
Proof. unfold could_leave, end_call, frames_below. cbn [y_calls set_calls y_op_frames]. pose proof (ways_delete lin g n (y_calls y)). lia. Qed.
Lemma leave_out lin g n c y : y_calls y !! n = Some c → cl_phase c = CWire →
  (could_leave lin g (end_call n (add_op_frame (frame_of c) y)) ≤ could_leave lin g y)%nat ∧
  (could_leave lin g (move_call n CReply c (add_op_frame (frame_of c) y)) ≤ could_leave lin g y)%nat.
Proof.
  intros Hn Hp. unfold could_leave, end_call, move_call, frames_below. cbn [y_calls set_calls add_op_frame y_op_frames].
  rewrite ways_frames. pose proof (ways_move lin g n c (set_phase CReply c) _ Hn) as H1.
  pose proof (ways_delete lin g n (y_calls y)) as H2. rewrite Hn in H2. unfold weight, on_its_way in *. cbn in *. rewrite Hp in *.
  rewrite ?andb_true_r, ?andb_false_r in *. destruct (initiated_below lin g (cl_initiator c)); lia.
Qed.
Lemma leave_call lin g n s y : past (y_auth y) lin g → all_stamped y →
  (could_leave lin g (call_step n s y) ≤ could_leave lin g y)%nat.
Proof.
  intros P S. unfold call_step. destruct (y_calls y !! n) as [c|] eqn:Hc; [|done].
  assert (∀ p q b, cl_phase c = p → (weight lin g (Some (set_phase q c)) ≤ weight lin g (Some c))%nat →
    (could_leave lin g (move_call n q c (set_db b y)) ≤ could_leave lin g y)%nat) as Hm.
  { intros p q b _ Hw. by apply (leave_move lin g n c q (set_db b y)). }
  assert (∀ b, (could_leave lin g (end_call n (set_db b y)) ≤ could_leave lin g y)%nat) as He.
  { intros b. apply (leave_end lin g n (set_db b y)). }
  pose proof (leave_end lin g n y) as He'.
  destruct (cl_phase c) eqn:Hp, s; try done; cbn [on_wire or_end].
  - destruct (admit_node_op _ _) as [b|]; [|done]. apply (Hm CAdmit); [done|]. unfold weight, on_its_way. cbn.
    by rewrite andb_false_r; lia.
  - destruct (mark_node_op_sent c (y_db y)) as [b|] eqn:E; [|done]. apply (Hm CIntent); [done|]. unfold weight, on_its_way. cbn.
    destruct (sent_work _ _ _ E) as [Ck _]. destruct (initiated_below lin g (cl_initiator c)) eqn:Hb; [|done].
    exfalso. rewrite (fenced_is_refused _ lin g) in Ck; [done|done|by apply (as_calls _ S n)|done].
  - destruct (fenced_in_map _ _); [done|]. apply leave_move; [done|]. unfold weight, on_its_way. cbn. by rewrite Hp.
  - by apply leave_out.
  - destruct (cl_initiator c); [|done]. apply leave_move; [done|]. unfold weight, on_its_way. cbn. rewrite andb_false_r. lia.
  - destruct left_; [by apply leave_out|done].
  - by destruct (cl_initiator c).
Qed.
Lemma leave_step lin g x y : past (y_auth y) lin g → all_stamped y →
  (could_leave lin g (act_step x y) ≤ could_leave lin g y)%nat.
Proof.
  intros P S. act_split x; try done.
  - unfold could_leave. cbn [y_calls set_calls]. rewrite ways_insert by done. unfold frames_below. cbn. unfold weight, on_its_way. cbn. by rewrite andb_false_r.
  - unfold could_leave. cbn [y_calls set_calls]. rewrite ways_insert by done. done.
  - by apply leave_call.
  - change (ways lin g ∅ + frames_below lin g y ≤ ways lin g (y_calls y) + frames_below lin g y)%nat. by assert (ways lin g ∅ = 0%nat) as -> by done; lia.
Qed.
Lemma leave_run lin g xs y : past (y_auth y) lin g → all_stamped y →
  (could_leave lin g (act_run xs y) ≤ could_leave lin g y)%nat.
Proof.
  revert y. induction xs as [|x xs IH]; intros y P S; [done|]. cbn [act_run foldl]. etrans; [apply IH|by apply leave_step].
  - by eapply past_le, P; apply step_le.
  - by apply stamped_step.
Qed.
Lemma commits_calls x y core : commits x y = Some core → y_calls (act_step x y) = y_calls y ∧ y_op_frames (act_step x y) = y_op_frames y.
Proof.
  intros H. by destruct (commits_inv _ _ _ H) as (now & fid & spec & b & l & ch & C & [(by_ & close & _ & _ & ->)|(gr & rq & b' & _ & _ & -> & R)]).
Qed.
(** C25. Once F has committed, the direct operations of the fenced generations
    that still reach a Node are at most those already past their send intent,
    one frame each; with none of them nothing leaves at all. *)
Theorem fenced_operations_run_dry insts xs x core later :
  let y := act_run xs (start insts) in
  let lin := fc_lineage core in let g := fc_fenced core in
  commits x y = Some core →
  (frames_below lin g (act_run later (act_step x y)) ≤ frames_below lin g y + ways lin g (y_calls y))%nat.
Proof.
  intros y lin g Hx. destruct (commits_calls _ _ _ Hx) as [Ec Ef].
  assert (could_leave lin g (act_run later (act_step x y)) ≤ could_leave lin g (act_step x y))%nat as H.
  { apply leave_run; [by apply commits_past|apply stamped_step, reachable_stamped]. }
  unfold could_leave in H. unfold frames_below in *. rewrite Ec, Ef in H. lia.
Qed.

(** ** Admission *)

(** Nothing of the fenced generations is in [y'] that was not in [y]. *)
Record admits_none (lin : string) (g : Z) (y y' : Sys) : Prop := {
  an_rows : ∀ id c, ledger (y_db y') !! id = Some c → initiated_below lin g (id_initiator (c_ident c)) = true →
    is_Some (ledger (y_db y) !! id);
  an_node_ops : ∀ k o, node_ops (y_db y') !! k = Some o → initiated_below lin g (no_initiator o) = true →
    ∃ o0, node_ops (y_db y) !! k = Some o0 ∧ no_initiator o0 = no_initiator o;
  an_jobs : ∀ id ij, jobs (y_db y') !! id = Some ij → initiated_below lin g ij.1 = true →
    ∃ ij0, jobs (y_db y) !! id = Some ij0 ∧ ij0.1 = ij.1;
}.
Lemma admits_none_refl lin g y : admits_none lin g y y.
Proof. split; eauto. Qed.
(** What is queued with authority is not below a generation already past. *)
Lemma queued_is_live x y lin g given fresh ident payload :
  past (y_auth y) lin g → Queue true given fresh ident payload ∈ hub_ops x y → initiated_below lin g (id_initiator ident) = false.
Proof.
  intros P. destruct x; cbn [hub_ops]; try by intros ?%not_elem_of_nil.
  - destruct (plain op) eqn:Hp; [|by intros ?%not_elem_of_nil]. by intros <-%list_elem_of_singleton.
  - unfold queue_ops. destruct (caller_stamp _ _) as [ini|] eqn:Hs; [|by intros ?%not_elem_of_nil].
    intros [= Hck -> -> -> ->]%list_elem_of_singleton. cbn. apply not_true_is_false. intros Hb.
    by rewrite (fenced_is_refused _ lin g) in Hck; [|done|by eapply caller_stamped|].
  - by intros ?%mark_ops_not_queue.
  - destruct (fenced_in_map _ _); [|by intros ?%not_elem_of_nil]. by intros ?%list_elem_of_singleton.
  - destruct (bool_decide _); [|by intros ?%not_elem_of_nil]. by intros ?%list_elem_of_singleton.
  - by intros ?%list_elem_of_singleton.
  - by intros ?%list_elem_of_singleton.
  - repeat case_match; try by intros ?%not_elem_of_nil. intros [[g' ?]|(c & p & host & [= -> -> -> ->])]%pause_ops_in; done.
  - destruct (continuation_resume_tx _ _ _ _ _) as [b [[core|]|]] eqn:Hf; try by intros ?%not_elem_of_nil.
    intros [[g' ?]|(host & [= -> -> -> ->])]%resume_ops_in; [done|]. cbn.
    destruct (resume_inv _ _ _ _ _ _ _ Hf) as (l & ch & b1 & R). pose proof (rs_f _ _ _ _ _ _ _ _ _ R) as C.
    case_bool_decide as E; [|done]. cbn. apply Z.leb_gt. destruct P as (l' & Hl' & Hg). subst lin.
    pose proof (cf_lineage _ _ _ _ _ _ _ _ C) as Hl. cbn in Hl. unfold y_auth in Hl'. rewrite Hl in Hl'. injection Hl' as ->.
    destruct (cf_what _ _ _ _ _ _ _ _ C) as [(s & _ & _ & _ & _ & -> & _)|(_ & _ & _ & _ & -> & _)]; lia.
  - repeat case_match; try by intros ?%not_elem_of_nil. by intros ?%mark_ops_not_queue.
  - by intros ?%list_elem_of_singleton.
Qed.
Lemma admits_none_step lin g x y y0 : past (y_auth y) lin g → all_stamped y → admits_none lin g y0 y →
  admits_none lin g y0 (act_step x y).
Proof.
  intros P S [A1 A2 A3]. destruct (act_work_from x y) as [Ho Hj]. split.
  - intros id d Hd Hb. unfold ledger in Hd. fold (y_hub (act_step x y)) in Hd. rewrite hub_step_of in Hd.
    apply rows_from in Hd as [(c & Hc & E)|(given & fresh & payload & Hq)].
    + apply (A1 id c Hc). by rewrite E.
    + by rewrite (queued_is_live x y lin g given fresh (c_ident d) payload) in Hb.
  - intros k o H Hb. destruct (Ho k o H) as [(o' & Hk & E)|(n & c & Hc & E & Ck)].
    + rewrite <- E in Hb |- *. by apply A2.
    + rewrite (fenced_is_refused _ lin g) in Ck; [done|done|rewrite <- E; by apply (as_calls _ S n)|done].
  - intros k ij H Hb. destruct (Hj k ij H) as [(ij' & Hk & E)|(St & d & Ck)].
    + rewrite <- E in Hb |- *. by apply (A3 k).
    + by rewrite (fenced_is_refused _ lin g) in Ck.
Qed.
Lemma admits_none_run lin g xs y y0 : past (y_auth y) lin g → all_stamped y → admits_none lin g y0 y →
  admits_none lin g y0 (act_run xs y).
Proof.
  revert y. induction xs as [|x xs IH]; intros y P S A; [done|]. apply IH.
  - by eapply past_le, P; apply step_le.
  - by apply stamped_step.
  - by apply admits_none_step.
Qed.
Lemma commits_live x y core given fresh ident payload : commits x y = Some core →
  Queue true given fresh ident payload ∈ hub_ops x y → initiated_below (fc_lineage core) (fc_fenced core) (id_initiator ident) = false.
Proof.
  intros Hx. destruct (commits_inv _ _ _ Hx) as (now & fid & spec & b & l & ch & C & [(by_ & close & -> & _ & _)|(gr & rq & b' & -> & _ & _ & R)]);
    cbn [hub_ops].
  - repeat case_match; try by intros ?%not_elem_of_nil. intros [[g' ?]|(c & p & host & [= -> -> -> ->])]%pause_ops_in; done.
  - cbn [commits] in Hx. destruct (continuation_resume_tx _ _ _ _ _) as [b2 [[core'|]|]]; try done. injection Hx as ->.
    intros [[g' ?]|(host & [= -> -> -> ->])]%resume_ops_in; [done|]. cbn. apply andb_false_iff. right. apply Z.leb_gt.
    destruct (cf_what _ _ _ _ _ _ _ _ C) as [(s & _ & _ & _ & -> & -> & _)|(_ & _ & _ & -> & -> & _)]; lia.
Qed.
Lemma commits_admits_none x y core : commits x y = Some core → admits_none (fc_lineage core) (fc_fenced core) y (act_step x y).
Proof.
  intros Hx. split.
  - intros id d Hd Hb. unfold ledger in Hd. fold (y_hub (act_step x y)) in Hd. rewrite hub_step_of in Hd.
    apply rows_from in Hd as [(c & Hc & E)|(given & fresh & payload & Hq)]; [by exists c|].
    by rewrite (commits_live x y core given fresh (c_ident d) payload) in Hb.
  - destruct (commits_inv _ _ _ Hx) as (now & fid & spec & b & l & ch & C & [(by_ & close & _ & _ & ->)|(gr & rq & b' & _ & _ & -> & R)]).
    all: destruct (committed_work _ _ _ _ _ _ _ _ (λ _, False) (λ _, False) C) as [Ho _]; intros k o H _.
    2: unfold node_ops in H; cbn in H; rewrite (resumed_work _ _ _ _ _ _ _ _ _ R) in H.
    all: by destruct (Ho k o H) as [?|[]].
  - destruct (commits_inv _ _ _ Hx) as (now & fid & spec & b & l & ch & C & [(by_ & close & _ & _ & ->)|(gr & rq & b' & _ & _ & -> & R)]).
    all: destruct (committed_work _ _ _ _ _ _ _ _ (λ _, False) (λ _, False) C) as [_ Hj]; intros k o H _.
    2: unfold jobs in H; cbn in H; rewrite (resumed_work _ _ _ _ _ _ _ _ _ R) in H.
    all: by destruct (Hj k o H) as [?|[]].
Qed.
(** After F nothing new is admitted for the fenced generations: every
    command, direct operation and gate job that carries one of their stamps was
    there when F committed. *)
Theorem nothing_is_admitted_after insts xs x core later :
  let y := act_run xs (start insts) in
  commits x y = Some core →
  admits_none (fc_lineage core) (fc_fenced core) y (act_run later (act_step x y)).
Proof.
  intros y Hx. apply admits_none_run; [by apply commits_past|apply stamped_step, reachable_stamped|by apply commits_admits_none].
Qed.
