(* ===== verification/FenceRecords.v ===== *)
(** * What a fence records

    Every operation of the fenced generations that was unfinished when F
    committed has one record, under the first fence that covered it; a record
    leaves [unknown] once and is then final, and a host's acknowledgement
    settles records of the fence it names only. *)
From stdpp Require Import base list gmap strings numbers sorting relations.
From S2P Require Import Prelude Json GateQueue HubCommands HubEdit HubLedger HubQueue FenceHub FenceSteps FenceLedger FenceAuth FenceSafety.
Local Open Scope Z_scope.

(** ** Records only become definite *)

Definition op_le (x x' : FenceOp) : Prop := x' = x ∨ (fop_outcome x = OUnknown ∧ x' = set_outcome (fop_outcome x') x).
Definition ops_le (ops ops' : list FenceOp) : Prop := ∃ pre ext, ops' = pre ++ ext ∧ Forall2 op_le ops pre.
Lemma op_le_refl x : op_le x x.
Proof. by left. Qed.
Lemma op_le_trans x y z : op_le x y → op_le y z → op_le x z.
Proof. intros [->|[H ->]] [->|[H' ->]]; [by left|by right|by right|by right]. Qed.
Lemma ops_le_refl ops : ops_le ops ops.
Proof. exists ops, []. rewrite app_nil_r. split; [done|]. induction ops; constructor; [apply op_le_refl|done]. Qed.
Lemma ops_le_trans a b c : ops_le a b → ops_le b c → ops_le a c.
Proof.
  intros (p & e & -> & F1) (p' & e' & -> & F2). apply Forall2_app_inv_l in F2 as (q & e2 & F2 & F3 & ->).
  exists q, (e2 ++ e'). rewrite (assoc_L (++)). split; [done|]. eapply Forall2_trans; [|done..]. apply op_le_trans.
Qed.
Lemma ops_le_app ops ext : ops_le ops (ops ++ ext).
Proof. destruct (ops_le_refl ops) as (p & e & E & F). exists p, (e ++ ext). rewrite (assoc_L (++)), <- E. done. Qed.
Lemma record_op_le ops x : ops_le ops (record_op ops x).
Proof. unfold record_op. destruct (existsb _ _); [apply ops_le_refl|apply ops_le_app]. Qed.
Lemma record_all_le xs ops : ops_le ops (record_all xs ops).
Proof.
  revert ops. induction xs as [|x xs IH]; intros ops; [apply ops_le_refl|].
  eapply ops_le_trans; [apply record_op_le|apply IH].
Qed.
Lemma resolve_le p to ops : ops_le ops (resolve p to ops).
Proof.
  exists (resolve p to ops), []. rewrite app_nil_r. split; [done|]. unfold resolve. apply Forall2_fmap_r.
  induction ops as [|z ops IH]; constructor; [|done]. unfold compose. cbv beta.
  destruct (p z && bool_decide (fop_outcome z = OUnknown)) eqn:E; [|by left].
  apply andb_true_iff in E as [_ E%bool_decide_eq_true]. by right.
Qed.
Lemma ack_le fid host outcomes ops : ops_le ops (foldl (ack_one fid host) ops outcomes).
Proof.
  revert ops. induction outcomes as [|r rs IH]; intros ops; [apply ops_le_refl|].
  eapply ops_le_trans; [|apply IH]. unfold ack_one. destruct (ack_to r.2); [apply resolve_le|apply ops_le_refl].
Qed.
Lemma fenced_ops now fid lin l m host b : let g := ln_generation l in
  let b1 := fence_commands fid lin g (set_auth (fence_auth lin l m (b_auth b)) b) in
  let b2 := fence_in_flight fid lin g b1 in let b3 := fence_jobs now fid lin g b2 in
  f_ops (b_fences (fenced_db now fid lin l m host b)) = f_ops (b_fences (fence_node_ops fid lin g b3)).
Proof. cbn zeta. unfold fenced_db. by destruct (pause_close m). Qed.
Lemma fenced_ops_le now fid lin l m host b : ops_le (f_ops (b_fences b)) (f_ops (b_fences (fenced_db now fid lin l m host b))).
Proof.
  rewrite fenced_ops. cbn zeta. repeat (eapply ops_le_trans; [|apply record_all_le]). apply ops_le_refl.
Qed.
Lemma committed_ops_le now fid spec b b' core l ch : committed_f now fid spec b b' core l ch →
  ops_le (f_ops (b_fences b)) (f_ops (b_fences b')).
Proof.
  intros C. destruct (cf_what _ _ _ _ _ _ _ _ C) as [(s & _ & _ & -> & _)|(_ & _ & -> & _)]; [apply ops_le_refl|apply fenced_ops_le].
Qed.
Lemma resumed_ops now fid rq b b' core l ch b1 : resumed now fid rq b b' core l ch b1 → f_ops (b_fences b') = f_ops (b_fences b1).
Proof. intros R. by rewrite (rs_db _ _ _ _ _ _ _ _ _ R). Qed.
Lemma call_ops_le n s y : ops_le (y_ops y) (y_ops (call_step n s y)).
Proof.
  unfold call_step. destruct (y_calls y !! n) as [c|]; [|apply ops_le_refl].
  destruct (cl_phase c), s; unfold on_wire; try apply ops_le_refl.
  - destruct (admit_node_op c (y_db y)) as [b|] eqn:E; [|apply ops_le_refl]. destruct (admit_work _ _ _ E) as [-> _]. apply ops_le_refl.
  - destruct (mark_node_op_sent c (y_db y)) as [b|] eqn:E; [|apply ops_le_refl]. destruct (sent_work _ _ _ E) as (_ & o & _ & ->). apply ops_le_refl.
  - destruct (fenced_in_map _ _); [|apply ops_le_refl]. apply resolve_le.
  - destruct (cl_initiator c); apply ops_le_refl.
  - destruct left_; apply ops_le_refl.
  - destruct (cl_initiator c); [apply resolve_le|apply ops_le_refl].
Qed.
Lemma step_ops_le x y : ops_le (y_ops y) (y_ops (act_step x y)).
Proof.
  destruct (commits x y) as [core|] eqn:Hx.
  { destruct (commits_inv _ _ _ Hx) as (now & fid & spec & b & l & ch & C & [(by_ & close & _ & _ & ->)|(gr & rq & b' & _ & _ & -> & R)]).
    - by eapply committed_ops_le.
    - unfold y_ops. cbn. rewrite (resumed_ops _ _ _ _ _ _ _ _ _ R). by eapply committed_ops_le. }
  act_split x; try apply ops_le_refl; try apply resolve_le.
  - cbn [commits] in Hx. repeat case_match; simplify_eq.
  - cbn [commits] in Hx. repeat case_match; simplify_eq.
  - apply call_ops_le.
  - unfold cancel_fenced_attempt. repeat case_match; [apply resolve_le|apply ops_le_refl..].
  - unfold cancel_fenced_attempt. repeat case_match; [apply resolve_le|apply ops_le_refl..].
  - unfold job_phase. repeat case_match; [apply resolve_le|apply ops_le_refl..].
  - unfold ack_fence in *. simplify_eq. apply ack_le.
Qed.
Lemma run_ops_le xs y : ops_le (y_ops y) (y_ops (act_run xs y)).
Proof.
  revert y. induction xs as [|x xs IH]; intros y; [apply ops_le_refl|]. eapply ops_le_trans; [apply step_ops_le|apply IH].
Qed.
Lemma ops_le_elem a b x : ops_le a b → x ∈ a → ∃ x', x' ∈ b ∧ op_le x x'.
Proof.
  intros (p & e & -> & F) H. apply list_elem_of_lookup in H as [i Hi]. destruct (Forall2_lookup_l _ _ _ _ _ F Hi) as (x' & Hx & L).
  exists x'. split; [|done]. apply elem_of_app. left. by eapply list_elem_of_lookup_2.
Qed.
(** C26. The record of a fenced operation is never lost or rewritten: whatever
    happens later it is still there, and once its outcome is definite it stays
    exactly as it is. *)
Theorem fence_records_are_final xs y x : x ∈ y_ops y →
  ∃ x', x' ∈ y_ops (act_run xs y) ∧ op_le x x' ∧ (fop_outcome x ≠ OUnknown → x' = x).
Proof.
  intros H. destruct (ops_le_elem _ _ _ (run_ops_le xs y) H) as (x' & Hx & L). exists x'. split_and!; [done|done|].
  by destruct L as [->|[? _]].
Qed.

(** ** Acknowledgement *)

(** The outcome a host's answer gives a record: its first definite word on it. *)
Definition reported (op : string) (outcomes : list (string * AckOutcome)) : option Outcome :=
  head (omap (λ r, if bool_decide (r.1 = op) then ack_to r.2 else None) outcomes).
Definition acked_op (fid host : string) (outcomes : list (string * AckOutcome)) (x : FenceOp) : FenceOp :=
  if bool_decide (fop_fence x = fid) && (bool_decide (fop_host x = None) || on_host host x) &&
     bool_decide (fop_outcome x = OUnknown)
  then match reported (fop_op x) outcomes with Some to => set_outcome to x | None => x end else x.
Lemma acked_step fid host r rs x : acked_op fid host (r :: rs) x =
  acked_op fid host rs (match ack_to r.2 with
                        | Some to => if ack_row fid host r.1 x && bool_decide (fop_outcome x = OUnknown) then set_outcome to x else x
                        | None => x
                        end).
Proof.
  destruct r as [op o]. unfold acked_op, reported, ack_row, on_host. cbn [fst snd omap list_omap].
  destruct (ack_to o) as [to|] eqn:E; [|by destruct (bool_decide (op = fop_op x))].
  destruct (decide (op = fop_op x)) as [->|Hne].
  - rewrite !(bool_decide_true (fop_op x = fop_op x)) by done. rewrite andb_true_r.
    destruct (bool_decide (fop_fence x = fid) && _) eqn:G; [|cbn; by rewrite G].
    destruct (bool_decide (fop_outcome x = OUnknown)) eqn:U; cbn; [|by rewrite G, U].
    rewrite (bool_decide_false (to = OUnknown)); [by rewrite andb_false_r|]. by destruct o; simplify_eq/=.
  - rewrite (bool_decide_false (op = fop_op x)), (bool_decide_false (fop_op x = op)) by congruence.
    by rewrite andb_false_r, andb_false_l.
Qed.
(** What an acknowledgement does, row by row: the records of the fence it
    names that are still unknown and belong to the host or to none take the
    first definite outcome the host reports for them; every other record, of
    this fence or another, keeps its place and stays as it was.  The delivery is
    acknowledged, and the commands returned to forward are the fence's own
    follow-ons for this host that are still held. *)
Theorem ack_settles_its_own_fence fid host outcomes b :
  let r := ack_fence fid host outcomes b in
  f_ops (b_fences r.1) = acked_op fid host outcomes <$> f_ops (b_fences b) ∧
  f_deliveries (b_fences r.1) = alter (λ _, true) (fid, host) (f_deliveries (b_fences b)) ∧
  (∀ id, id ∈ r.2 → ∃ c fe, ledger b !! id = Some c ∧ waiting c = true ∧ id_host (c_ident c) = host ∧
     fe ∈ f_fences (b_fences b) ∧ fe_id fe = fid ∧ is_follow_on fe id = true).
Proof.
  split; [|split; [done|]].
  - cbn [fst]. change (foldl (ack_one fid host) (f_ops (b_fences b)) outcomes = acked_op fid host outcomes <$> f_ops (b_fences b)).
    generalize (f_ops (b_fences b)) as ops. induction outcomes as [|r rs IH]; intros ops.
    + cbn [foldl]. symmetry. rewrite <- (list_fmap_id ops) at 2. apply list_fmap_ext. intros i x _. unfold acked_op.
      by destruct (_ && _).
    + cbn [foldl]. rewrite IH. transitivity (acked_op fid host rs <$> ((λ x, match ack_to r.2 with
        | Some to => if ack_row fid host r.1 x && bool_decide (fop_outcome x = OUnknown) then set_outcome to x else x
        | None => x end) <$> ops)).
      * f_equal. unfold ack_one, resolve. destruct (ack_to r.2); [done|]. symmetry. apply list_fmap_id.
      * rewrite <- list_fmap_compose. apply list_fmap_ext. intros i x _. symmetry. apply acked_step.
  - intros id H. unfold ack_fence, follow_ons in H. cbn [snd] in H. apply list_elem_of_fmap in H as ([i c] & -> & H).
    unfold retain in H. apply list_elem_of_In, filter_In in H as [H1 H2]. apply list_elem_of_In, elem_of_map_to_list in H1.
    rewrite !andb_true_iff, bool_decide_eq_true, existsb_exists in H2.
    destruct H2 as [[Hw Hh] (fe & Hin & [Hid%bool_decide_eq_true Hf]%andb_true_iff)].
    exists c, fe. split_and!; try done. by apply list_elem_of_In.
Qed.

(** ** A recorded command does not wait again *)

Lemma quiet_waiting c d : quiet c d → waiting c = false → waiting d = false.
Proof.
  intros Q Hw. apply not_true_is_false. intros [Hs Hf]%waiting_iff. apply not_true_iff_false in Hw. apply Hw, waiting_iff.
  split; [by eapply rank_queued, Hs; apply Q|]. by rewrite <- (q_forwarded _ _ Q).
Qed.
Definition keeps_out (id : string) (l l' : Ledger) : Prop := ∀ c, l_commands l !! id = Some c → waiting c = false →
  ∃ d, l_commands l' !! id = Some d ∧ waiting d = false.
Lemma out_quiet id l l' : quiet_ledger l l' → keeps_out id l l'.
Proof. intros Q c Hc Hw. destruct (quiet_row _ _ _ _ Q Hc) as (d & Hd & Qd). exists d. split; [done|]. by eapply quiet_waiting. Qed.
Lemma out_same id l l' : l_commands l' !! id = l_commands l !! id → keeps_out id l l'.
Proof. intros E c Hc Hw. exists c. by rewrite E. Qed.
Lemma out_update id id' p f l : (∀ c, waiting c = false → waiting (f c) = false) → keeps_out id l (update id' p f l).
Proof.
  intros Hf c Hc Hw. rewrite update_lookup. destruct (decide (id' = id)) as [->|]; [|eauto]. rewrite Hc. cbn.
  eexists. split; [done|]. destruct (p c); [by apply Hf|done].
Qed.
Lemma out_update_ne id id' p f l : id' ≠ id → keeps_out id l (update id' p f l).
Proof. intros H. apply out_same. rewrite update_lookup. by rewrite decide_False. Qed.
Lemma out_trans id l1 l2 l3 : keeps_out id l1 l2 → keeps_out id l2 l3 → keeps_out id l1 l3.
Proof. intros H1 H2 c Hc Hw. destruct (H1 c Hc Hw) as (d & Hd & Hwd). eauto. Qed.
Lemma out_refl id l : keeps_out id l l.
Proof. by apply out_same. Qed.
(** A release that finds the initiator fenced settles the row. *)
Lemma settled_out c o r : waiting (settle o r c) = false.
Proof. done. Qed.
Lemma out_release id id' fenced l : (id' = id → fenced = true) → keeps_out id l (release_intent fenced id' l).
Proof.
  intros Hf. destruct (decide (id' = id)) as [E|]; [|by unfold release_intent; destruct fenced; apply out_update_ne].
  rewrite (Hf E). by apply out_update.
Qed.
Lemma out_release_hub id id' fenced l : (id' = id → fenced = true) → keeps_out id l (release_hub_written fenced id' l).
Proof. intros Hf. eapply out_trans; [by apply out_release|]. apply out_quiet, quiet_count_attempt. Qed.
Lemma out_queue id ok given fresh ident payload l : keeps_out id l (queue_command ok given fresh ident payload l).1.
Proof.
  unfold queue_command. cbn zeta. destruct (negb ok); [apply out_refl|]. destruct (id_key ident ≫= _) as [[id' c]|].
  { destruct (negb _); [apply out_refl|]. destruct (match given with Some g => _ | None => _ end); apply out_refl. }
  destruct (l_commands l !! _) as [c|] eqn:Hid.
  { destruct (bool_decide (given = None)); [apply out_refl|]. destruct (negb _); [apply out_refl|].
    destruct (id_key ident); [destruct (bool_decide (id_key (c_ident c) = _))|]; apply out_refl. }
  cbn [fst]. eapply out_trans; [|apply out_quiet, quiet_insert]. intros c Hc Hw. exists c. split; [|done]. cbn.
  rewrite lookup_insert_ne; [done|congruence].
Qed.
Lemma out_mark id id' ok gate h : keeps_out id (h_ledger h) (h_ledger (start_forward id' ok gate h)).
Proof.
  unfold start_forward. destruct (h_attempts h !! id'); [apply out_refl|]. unfold mark_forward_intent_gated.
  destruct (l_commands (h_ledger h) !! id') as [c|] eqn:Hc; [|apply out_refl].
  destruct (negb ok); [apply out_refl|]. destruct (c_forwarded c || _); [apply out_refl|].
  destruct (gate_waits gate); [apply out_refl|]. destruct (gate_fence gate); [apply out_refl|].
  destruct (gate_lacks_fence gate); [apply out_quiet, quiet_reject|]. cbn. intros c' Hc' Hw. cbn.
  destruct (decide (id' = id)) as [->|]; [|rewrite lookup_insert_ne by done; eauto].
  rewrite lookup_insert_eq. eexists. split; [done|]. unfold waiting. cbn. by rewrite andb_false_r.
Qed.
Lemma out_send id id' fenced r p h : (id' = id → fenced = true) →
  keeps_out id (h_ledger h) (h_ledger (end_send id' fenced r p h)).
Proof.
  intros Hf. unfold end_send. destruct r; cbn; [apply out_refl| |].
  - destruct (row_hub_written _ _); [by apply out_release_hub|by apply out_release].
  - destruct (row_hub_written _ _); [by apply out_release_hub|]. destruct (row_is _ _ _); [apply out_refl|].
    apply out_quiet, quiet_reject.
Qed.
Lemma out_answer id id' fenced r l : (id' = id → fenced = true) → keeps_out id l (answer_effect id' fenced r l).
Proof.
  intros Hf. destruct r as [|reason owner unknown| |]; cbn.
  - apply out_quiet. unfold mark_accepted. apply ledger_update. intros c Hc%queued_dec. by apply quiet_accept.
  - destruct (unknown && _).
    { apply out_quiet, ledger_update. intros c [_ Hc%settled_dec]%andb_true_iff. by apply quiet_settle. }
    destruct owner; [destruct (row_is _ _ _); [apply out_refl|apply out_quiet, quiet_reject]|].
    destruct (row_hub_written _ _); [|destruct (row_is _ _ _); [apply out_refl|apply out_quiet, quiet_reject]].
    destruct unknown; [apply out_quiet, quiet_reject|by apply out_release_hub].
  - apply out_refl.
  - apply out_quiet, quiet_reconciling.
Qed.
(** The other steps. *)
Lemma out_plain id op h : plain op = true → keeps_out id (h_ledger h) (h_ledger (hub_step op h)).
Proof.
  intros Hp. destruct op; try done; cbn [hub_step on_ledger h_ledger].
  - apply out_quiet, quiet_reject.
  - destruct (h_attempts h !! id0) as [[| |]|]; try apply out_refl. destruct (l_commands _ !! _); apply out_refl.
  - unfold edit_queued. destruct (l_commands _ !! id0) as [c|] eqn:Hc; [|apply out_refl].
    destruct (waiting c) eqn:Hw; cbn; [|apply out_refl]. destruct (negb (_ =? _)); cbn; [apply out_refl|].
    intros c' Hc' Hw'. exists c'. split; [|done]. unfold put_cmd. cbn [l_commands]. by rewrite lookup_insert_ne by congruence.
  - apply out_quiet, quiet_withdraw.
  - by apply out_update.
  - by apply out_update.
  - apply out_quiet, quiet_node_withdraw.
  - destruct (l_commands _ !! id0) as [c|]; [|apply out_refl]. destruct (HubCommands.queued c); [apply out_refl|].
    cbn. unfold record_node_edit. eapply out_trans; [|apply out_quiet, quiet_release_memory]. by apply out_update.
  - destruct (apply_command_projection _ _ _ _ _) as [l|] eqn:E; [|apply out_refl]. cbn. by eapply out_quiet, quiet_project.
  - apply out_quiet, ledger_update. intros c [_ Hc%settled_dec]%andb_true_iff. by apply quiet_settle.
  - by apply out_update.
  - by apply out_update.
  - by apply out_update.
  - destruct (_ && _); [|apply out_refl]. by apply out_update.
  - apply out_quiet, quiet_configure.
  - apply out_quiet, quiet_chapter.
  - by apply out_update.
  - apply out_quiet, quiet_effort.
  - apply out_quiet, quiet_axis_edge.
Qed.
(** A step of the queue on a row whose initiator is fenced. *)
Definition sees_fence (id : string) (op : HubOp) : Prop :=
  match op with Send id' fenced _ | Answer id' fenced _ => id' = id → fenced = true | _ => True end.
Lemma out_step id op h : sees_fence id op → keeps_out id (h_ledger h) (h_ledger (hub_step op h)).
Proof.
  intros Hs. destruct (plain op) eqn:Hp; [by apply out_plain|]. destruct op; try done; cbn [hub_step].
  - apply out_queue.
  - apply out_mark.
  - destruct (h_attempts h !! id0) as [[| |]|]; try apply out_refl. by apply out_update.
  - destruct (h_attempts h !! id0) as [[| |]|]; try apply out_refl. by apply out_send.
  - destruct (h_attempts h !! id0) as [[| |]|]; try apply out_refl. by apply out_answer.
  - apply out_refl.
  - apply out_refl.
  - apply out_quiet, quiet_fence.
Qed.
Lemma out_run id ops h : Forall (sees_fence id) ops → keeps_out id (h_ledger h) (h_ledger (hub_run ops h)).
Proof.
  intros F. revert h. induction F as [|op ops Hop _ IH]; intros h; [apply out_refl|].
  eapply out_trans; [by apply out_step|apply IH].
Qed.
Lemma sees_mark id id' waits b : Forall (sees_fence id) (mark_ops id' waits b).
Proof. unfold mark_ops. destruct (ledger b !! id'); by repeat constructor. Qed.
Lemma hub_ops_see x y id : fenced_now (y_db y) id = true → Forall (sees_fence id) (hub_ops x y).
Proof.
  intros Hf. destruct x; cbn [hub_ops]; try by constructor.
  - destruct (plain op) eqn:Hp; [|by constructor]. constructor; [|by constructor]. by destruct op.
  - unfold queue_ops. destruct (caller_stamp _ _); by repeat constructor.
  - apply sees_mark.
  - destruct (fenced_in_map _ _); by repeat constructor.
  - destruct (bool_decide _); [|by constructor]. constructor; [|by constructor]. by intros ->.
  - constructor; [|by constructor]. by intros ->.
  - repeat case_match; try by constructor. apply list.Forall_forall. by intros op [[g ->]|(c & p & host & ->)]%pause_ops_in.
  - repeat case_match; try by constructor. apply list.Forall_forall. by intros op [[g ->]|(host & ->)]%resume_ops_in.
  - repeat case_match; try by constructor. apply sees_mark.
Qed.

(** A command under a fence: its row is there, is not held, and its generation
    is past. *)
Definition covered (y : Sys) (id : string) : Prop := ∃ c lin g,
  ledger (y_db y) !! id = Some c ∧ waiting c = false ∧ past (y_auth y) lin g ∧
  initiated_below lin g (id_initiator (c_ident c)) = true.
Lemma covered_fenced y id : all_stamped y → covered y id → fenced_now (y_db y) id = true.
Proof.
  intros S (c & lin & g & Hc & _ & P & Hb). unfold fenced_now. rewrite Hc. apply negb_true_iff. unfold cmd_authorized.
  eapply fenced_is_refused; [exact P|by apply (as_rows _ S id)|done].
Qed.
Lemma covered_step x y id : all_stamped y → covered y id → covered (act_step x y) id.
Proof.
  intros S Hcov. pose proof (covered_fenced y id S Hcov) as Hf. destruct Hcov as (c & lin & g & Hc & Hw & P & Hb).
  destruct (out_run id (hub_ops x y) (y_hub y) (hub_ops_see x y id Hf) c Hc Hw) as (d & Hd & Hwd).
  destruct (row_stays_run id (hub_ops x y) (y_hub y) c Hc) as (d' & Hd' & E). simplify_eq.
  rewrite <- hub_step_of in Hd. exists d, lin, g. split_and!; [done|done| |by rewrite E].
  eapply past_le, P; apply step_le.
Qed.

(** ** One record for each operation *)

Definition okey (x : FenceOp) : OpKind * string * option string :=
  (fop_kind x, fop_op x, match fop_kind x with KNodeOp => fop_host x | _ => None end).
Lemma okey_le a b : ops_le a b → length a = length b → okey <$> b = okey <$> a.
Proof.
  intros (p & e & -> & F) Hl. rewrite length_app, (Forall2_length _ _ _ F) in Hl. destruct e; [|simpl in Hl; lia].
  rewrite app_nil_r. induction F as [|x x' l l' H _ IH]; [done|]. rewrite !fmap_cons. f_equal; [|apply IH; simpl; lia].
  by destruct H as [->|[_ ->]].
Qed.
Lemma resolve_length p to ops : length (resolve p to ops) = length ops.
Proof. apply length_fmap. Qed.
Lemma resolve_keys p to ops : okey <$> resolve p to ops = okey <$> ops.
Proof. apply okey_le; [apply resolve_le|]. by rewrite resolve_length. Qed.
Lemma ack_keys fid host outcomes ops : okey <$> foldl (ack_one fid host) ops outcomes = okey <$> ops.
Proof.
  revert ops. induction outcomes as [|r rs IH]; intros ops; [done|]. cbn [foldl]. rewrite IH. unfold ack_one.
  destruct (ack_to r.2); [apply resolve_keys|done].
Qed.
Lemma record_keys xs ops : NoDup (okey <$> ops) → NoDup (okey <$> xs) → (∀ x, x ∈ xs → okey x ∉ okey <$> ops) →
  NoDup (okey <$> record_all xs ops).
Proof.
  revert ops. induction xs as [|x xs IH]; intros ops N1 N2 Hd; [done|]. rewrite fmap_cons in N2. apply NoDup_cons in N2 as [Hx N2].
  cbn [record_all foldl]. apply IH; [|done|].
  - unfold record_op. destruct (existsb _ _); [done|]. rewrite fmap_app. apply list.NoDup_app. split_and!; [done| |apply NoDup_singleton].
    intros k Hk [= ->]%list_elem_of_singleton. by apply (Hd x); [left|].
  - intros z Hz. unfold record_op. destruct (existsb _ _); [by apply Hd; right|]. rewrite fmap_app, not_elem_of_app.
    split; [by apply Hd; right|]. intros E%list_elem_of_singleton. apply Hx. rewrite <- E. by apply list_elem_of_fmap_2.
Qed.
Lemma record_all_elem xs ops x : x ∈ record_all xs ops → x ∈ xs ∨ x ∈ ops.
Proof.
  revert ops. induction xs as [|z xs IH]; intros ops; [by right|]. cbn [record_all foldl].
  intros [H|H]%IH; [by left; right|]. unfold record_op in H. destruct (existsb _ _); [by right|].
  apply elem_of_app in H as [H| ->%list_elem_of_singleton]; [by right|by left; left].
Qed.
Lemma retain_elem {A} (p : A → bool) l x : x ∈ retain p l ↔ x ∈ l ∧ p x = true.
Proof. unfold retain. by rewrite !list_elem_of_In, filter_In. Qed.
Lemma retain_nodup {A B} (f : A → B) (p : A → bool) l : NoDup (f <$> l) → NoDup (f <$> retain p l).
Proof.
  induction l as [|x l IH]; [done|]. rewrite fmap_cons. intros [Hx N]%NoDup_cons. simpl. destruct (p x); [|by apply IH].
  rewrite fmap_cons. apply NoDup_cons. split; [|by apply IH]. intros (z & E & Hz)%list_elem_of_fmap. apply Hx. rewrite E.
  apply list_elem_of_fmap_2. by apply retain_elem in Hz as [Hz _].
Qed.
Lemma unrecorded_key kind op b x : recorded kind op b = false → fop_kind x = kind → fop_op x = op →
  okey x ∉ okey <$> f_ops (b_fences b).
Proof.
  intros H <- <- (z & E & Hz)%list_elem_of_fmap. apply not_true_iff_false in H. apply H. unfold recorded. apply existsb_exists.
  exists z. split; [by apply list_elem_of_In|]. unfold same_op. injection E as E1 E2 _. by rewrite E1, E2, !bool_decide_true.
Qed.
(** The keys of the records each step of F adds. *)
Lemma keys_fst {A} (f : A → FenceOp) kind (i : A → string) l : (∀ x, okey (f x) = (kind, i x, None)) → NoDup (i <$> l) →
  NoDup (okey <$> (f <$> l)).
Proof.
  intros E N. rewrite <- list_fmap_compose. rewrite (list_fmap_ext _ ((λ op, (kind, op, None)) ∘ i)); [|intros ? x _; apply E].
  rewrite list_fmap_compose. apply NoDup_fmap_2; [|done]. by intros ?? [= ->].
Qed.
Section fence.
Context (now : Z) (fid lin : string) (g : Z).
Lemma keys_commands b : NoDup (okey <$> f_ops (b_fences b)) →
  (∀ id c, ledger b !! id = Some c → fenced_held lin g c = true → recorded KCommand id b = false) →
  NoDup (okey <$> f_ops (b_fences (fence_commands fid lin g b))).
Proof.
  intros N H. apply record_keys; [done| |].
  - apply (keys_fst _ KCommand fst); [done|]. apply retain_nodup, NoDup_fst_map_to_list.
  - intros x ([id c] & -> & [Hin%elem_of_map_to_list Hp]%retain_elem)%list_elem_of_fmap. eapply unrecorded_key; [|done..].
    by eapply H.
Qed.
Lemma keys_in_flight b : NoDup (okey <$> f_ops (b_fences b)) → NoDup (okey <$> f_ops (b_fences (fence_in_flight fid lin g b))).
Proof.
  intros N. apply record_keys; [done| |].
  - apply (keys_fst _ KCommand fst); [done|]. apply retain_nodup, NoDup_fst_map_to_list.
  - intros x ([id c] & -> & [_ Hp]%retain_elem)%list_elem_of_fmap. eapply unrecorded_key; [|done..].
    apply andb_true_iff in Hp as [_ Hp]. by apply negb_true_iff in Hp.
Qed.
Lemma keys_jobs b : NoDup (okey <$> f_ops (b_fences b)) → NoDup (okey <$> f_ops (b_fences (fence_jobs now fid lin g b))).
Proof.
  intros N. apply record_keys; [done| |].
  - apply (keys_fst _ KGateJob fst); [done|]. apply retain_nodup, NoDup_fst_map_to_list.
  - intros x ([id c] & -> & [_ Hp]%retain_elem)%list_elem_of_fmap. eapply unrecorded_key; [|done..].
    apply andb_true_iff in Hp as [_ Hp]. by apply negb_true_iff in Hp.
Qed.
Lemma keys_node_ops b : NoDup (okey <$> f_ops (b_fences b)) → NoDup (okey <$> f_ops (b_fences (fence_node_ops fid lin g b))).
Proof.
  intros N. apply record_keys; [done| |].
  - rewrite <- list_fmap_compose.
    rewrite (list_fmap_ext _ ((λ k : string * string, (KNodeOp, k.1, Some k.2)) ∘ fst)); [|done].
    rewrite list_fmap_compose. apply NoDup_fmap_2; [by intros [??] [??] [= -> ->]|]. apply retain_nodup, NoDup_fst_map_to_list.
  - intros x ([[op host] o] & -> & [_ Hp]%retain_elem)%list_elem_of_fmap (z & E & Hz)%list_elem_of_fmap.
    apply andb_true_iff in Hp as [_ Hp%negb_true_iff]. apply not_true_iff_false in Hp. apply Hp, existsb_exists.
    exists z. split; [by apply list_elem_of_In|]. unfold okey in E. cbn in E. injection E as E1 E2 E3. unfold same_op, on_host. cbn.
    rewrite <- E1 in E3. by rewrite <- E1, <- E2, <- E3, !bool_decide_true.
Qed.
End fence.

(** ** The invariant *)

Record records_ok (y : Sys) : Prop := {
  ro_once : NoDup (okey <$> y_ops y);
  ro_covered : ∀ x, x ∈ y_ops y → fop_kind x = KCommand → covered y (fop_op x);
}.
Lemma keys_same x y : commits x y = None → okey <$> y_ops (act_step x y) = okey <$> y_ops y.
Proof.
  intros Hx. act_split x; try done; try apply resolve_keys.
  - cbn [commits] in Hx. repeat case_match; simplify_eq.
  - cbn [commits] in Hx. repeat case_match; simplify_eq.
  - unfold call_step. destruct (y_calls y !! n) as [c|]; [|done]. destruct (cl_phase c), s; unfold on_wire; try done.
    + destruct (admit_node_op c (y_db y)) as [b|] eqn:E; [|done]. by destruct (admit_work _ _ _ E) as [-> _].
    + destruct (mark_node_op_sent c (y_db y)) as [b|] eqn:E; [|done]. by destruct (sent_work _ _ _ E) as (_ & o & _ & ->).
    + destruct (fenced_in_map _ _); [|done]. apply resolve_keys.
    + by destruct (cl_initiator c).
    + by destruct left_.
    + destruct (cl_initiator c); [apply resolve_keys|done].
  - unfold cancel_fenced_attempt. repeat case_match; try done. apply resolve_keys.
  - unfold cancel_fenced_attempt. repeat case_match; try done. apply resolve_keys.
  - unfold job_phase. repeat case_match; try done. apply resolve_keys.
  - unfold ack_fence in *. simplify_eq. apply ack_keys.
Qed.
Lemma keys_elem (a b : list FenceOp) x : okey <$> a = okey <$> b → x ∈ a → ∃ z, z ∈ b ∧ okey z = okey x.
Proof.
  intros E H. assert (okey x ∈ okey <$> b) as (z & Ez & Hz)%list_elem_of_fmap by (rewrite <- E; by apply list_elem_of_fmap_2). eauto.
Qed.
Lemma held_is_out lin g l id d : l_commands (fence_held lin g l) !! id = Some d →
  initiated_below lin g (id_initiator (c_ident d)) = true → waiting d = false.
Proof.
  cbn. rewrite lookup_fmap. intros (c & _ & ->)%fmap_Some. destruct (fenced_held lin g c) eqn:E; [done|]. intros Hb.
  unfold fenced_held in E. fold (initiated_below lin g (id_initiator (c_ident c))) in E. by rewrite Hb, andb_true_r in E.
Qed.
(** A committed F that fences ends with the held commands. *)
Lemma commits_hub x y core now fid spec b l ch : commits x y = Some core →
  committed_f now fid spec (y_db y) b core l ch → fc_fenced core = ln_generation l →
  ((∃ by_ close, x = AFence now fid spec ∧ fs_mode spec = Pause by_ close) ∨
   ∃ grants rq, x = AResume now fid grants rq ∧ spec = resume_spec rq (fc_lineage core) ∧ ln_state l ≠ LPaused) →
  ∃ ops, y_hub (act_step x y) = on_ledger (fence_held (fc_lineage core) (fc_fenced core)) (hub_run ops (y_hub y)).
Proof.
  intros Hx C -> Hw. rewrite hub_step_of. pose proof (cf_lineage _ _ _ _ _ _ _ _ C) as Hl. pose proof (cf_chapter _ _ _ _ _ _ _ _ C) as Hch.
  rewrite (cf_core_lineage _ _ _ _ _ _ _ _ C). destruct Hw as [(by_ & close & -> & Hm)|(grants & rq & -> & Es & Hp)].
  - exists (close_ops close (ln_current l) (ch_host ch) now). cbn [hub_ops]. cbn [commits] in Hx. unfold fence_lineage in Hx.
    rewrite Hm in Hx |- *. destruct (fence_core _ _ _ _) as [[b2 [core'| | | |]]|]; try done.
    unfold pause_ops. rewrite Hl, Hch, Hm. cbn [pause_close]. by rewrite hub_run_app.
  - exists [create_op now rq core (ch_host ch)]. cbn [hub_ops]. cbn [commits] in Hx.
    destruct (continuation_resume_tx _ _ _ _ _) as [b2 [[core'|]|]]; try done. injection Hx as ->.
    unfold resume_ops. rewrite Es in Hl. cbn [resume_spec fs_lineage] in Hl. rewrite Hl, Hch, Es, bool_decide_false by done. done.
Qed.
Lemma command_op_in b fid lin g o p x : x ∈ command_op fid lin g o <$> retain p (map_to_list (ledger b)) →
  ∃ c, ledger b !! fop_op x = Some c ∧ p (fop_op x, c) = true.
Proof. intros ([id c] & -> & [H%elem_of_map_to_list Hp]%retain_elem)%list_elem_of_fmap. eauto. Qed.
(** Where a record of a command under a new fence comes from. *)
Lemma fenced_command now fid lin l m host b x : let g := ln_generation l in
  x ∈ f_ops (b_fences (fenced_db now fid lin l m host b)) → fop_kind x = KCommand →
  x ∈ f_ops (b_fences b) ∨ ∃ c, ledger b !! fop_op x = Some c ∧ initiated_below lin g (id_initiator (c_ident c)) = true.
Proof.
  intros g. rewrite fenced_ops. cbn zeta. fold g. intros H Hk.
  apply record_all_elem in H as [([? ?] & -> & _)%list_elem_of_fmap|H]; [done|].
  apply record_all_elem in H as [([? ?] & -> & _)%list_elem_of_fmap|H]; [done|].
  apply record_all_elem in H as [(c & Hc & Hp)%command_op_in|H].
  - right. unfold ledger in Hc. cbn in Hc. rewrite lookup_fmap in Hc. apply fmap_Some in Hc as (c0 & H0 & ->). exists c0.
    split; [done|]. unfold maybe_ran in Hp. rewrite !andb_true_iff in Hp. destruct Hp as [[[Hp _] _] _]. cbn [snd] in Hp.
    by destruct (fenced_held _ _ _).
  - apply record_all_elem in H as [(c & Hc & Hp)%command_op_in|H]; [|by left]. right. exists c. split; [done|].
    by apply andb_true_iff in Hp as [_ Hp].
Qed.
Lemma fenced_keys now fid lin l m host b : NoDup (okey <$> f_ops (b_fences b)) →
  (∀ id c, ledger b !! id = Some c → fenced_held lin (ln_generation l) c = true → recorded KCommand id b = false) →
  NoDup (okey <$> f_ops (b_fences (fenced_db now fid lin l m host b))).
Proof.
  intros N H. rewrite fenced_ops. cbn zeta. apply keys_node_ops, keys_jobs, keys_in_flight. by apply keys_commands.
Qed.
Lemma covered_unheld y id c lin g : all_stamped y → (∀ x, x ∈ y_ops y → fop_kind x = KCommand → covered y (fop_op x)) →
  ledger (y_db y) !! id = Some c → fenced_held lin g c = true → recorded KCommand id (y_db y) = false.
Proof.
  intros S H Hc [Hw _]%andb_true_iff. apply not_true_is_false. intros (x & Hx%list_elem_of_In & Hk)%existsb_exists.
  apply andb_true_iff in Hk as [Hk%bool_decide_eq_true Ho%bool_decide_eq_true].
  destruct (H x Hx Hk) as (c' & _ & _ & Hc' & Hw' & _). rewrite Ho in Hc'. congruence.
Qed.
Lemma records_commit x y core : all_stamped y → records_ok y → commits x y = Some core → records_ok (act_step x y).
Proof.
  intros S [R1 R2] Hx.
  destruct (commits_inv _ _ _ Hx) as (now & fid & spec & b & l & ch & C & Hw).
  assert (f_ops (b_fences (y_db (act_step x y))) = f_ops (b_fences b)) as Eo.
  { destruct Hw as [(by_ & close & _ & _ & ->)|(gr & rq & b' & _ & _ & -> & R)]; [done|]. cbn. by eapply resumed_ops. }
  destruct (cf_what _ _ _ _ _ _ _ _ C) as [(s & _ & _ & Eb & _)|(Hp & _ & Eb & Eg & _)].
  { assert (y_ops (act_step x y) = y_ops y) as E by by unfold y_ops; rewrite Eo, Eb.
    split; rewrite E; [done|]. intros z Hz Hk. apply covered_step; auto. }
  split; unfold y_ops; rewrite Eo, Eb.
  - apply fenced_keys; [done|]. intros id c Hc Hf. by eapply covered_unheld.
  - intros z Hz Hk. destruct (fenced_command _ _ _ _ _ _ _ _ Hz Hk) as [Hz'|(c & Hc & Hb)].
    + apply covered_step; [done|by apply R2].
    + destruct (commits_hub x y core now fid spec b l ch Hx C Eg) as [ops Hops].
      { destruct Hw as [(by_ & close & ? & ? & _)|(gr & rq & b' & ? & -> & _ & _)]; [left; eauto|right]. eexists _, _. split_and!; [done|done|].
        by eapply Hp. }
      destruct (row_stays_run (fop_op z) (hub_ops x y) (y_hub y) c Hc) as (d & Hd & Ed). rewrite <- hub_step_of in Hd.
      exists d, (fc_lineage core), (fc_fenced core). rewrite (cf_core_lineage _ _ _ _ _ _ _ _ C), Eg, Ed.
      split_and!; [done| | |done].
      * rewrite Hops in Hd. rewrite (cf_core_lineage _ _ _ _ _ _ _ _ C), Eg in Hd. eapply held_is_out; [exact Hd|]. by rewrite Ed.
      * rewrite <- Eg, <- (cf_core_lineage _ _ _ _ _ _ _ _ C). by apply commits_past.
Qed.
Lemma records_step x y : all_stamped y → records_ok y → records_ok (act_step x y).
Proof.
  intros S R. destruct (commits x y) as [core|] eqn:Hx; [by eapply records_commit|].
  pose proof (keys_same x y Hx) as E. destruct R as [R1 R2]. split; [by rewrite E|]. intros z Hz Hk.
  destruct (keys_elem _ _ _ E Hz) as (z0 & Hz0 & Ek). injection Ek as E1 E2 _. apply covered_step; [done|].
  rewrite <- E2. apply R2; [done|congruence].
Qed.
Lemma reachable_records insts xs : records_ok (act_run xs (start insts)).
Proof.
  induction xs as [|x xs IH] using rev_ind; [split; [constructor|by intros ? ?%not_elem_of_nil]|].
  unfold act_run. rewrite foldl_app. apply records_step; [apply reachable_stamped|apply IH].
Qed.
(** An operation is recorded under one fence only: whatever was fenced,
    replayed, released and acknowledged, no two records name the same command,
    the same gate job, or the same direct operation on the same host. *)
Theorem recorded_under_one_fence insts xs : NoDup (okey <$> y_ops (act_run xs (start insts))).
Proof. apply reachable_records. Qed.

(** ** What F leaves open *)

Lemma record_op_has ops x : existsb (same_op (fop_kind x) (fop_op x)) (record_op ops x) = true.
Proof.
  unfold record_op. destruct (existsb (same_key x) ops) eqn:E.
  - apply existsb_exists in E as (z & Hz & [_ Hk]%andb_true_iff). apply existsb_exists. eauto.
  - rewrite existsb_app. cbn. unfold same_op at 2. rewrite !bool_decide_true by done. by rewrite orb_true_r.
Qed.
Lemma record_op_keeps kind op ops x : existsb (same_op kind op) ops = true → existsb (same_op kind op) (record_op ops x) = true.
Proof. intros H. unfold record_op. destruct (existsb (same_key x) ops); [done|]. by rewrite existsb_app, H. Qed.
Lemma record_all_keeps kind op xs ops : existsb (same_op kind op) ops = true → existsb (same_op kind op) (record_all xs ops) = true.
Proof. revert ops. induction xs as [|x xs IH]; intros ops H; [done|]. by apply IH, record_op_keeps. Qed.
Lemma record_all_has xs ops x : x ∈ xs → existsb (same_op (fop_kind x) (fop_op x)) (record_all xs ops) = true.
Proof.
  revert ops. induction xs as [|z xs IH]; intros ops; [by intros ?%not_elem_of_nil|].
  intros [->|H]%elem_of_cons; [|by apply IH]. exact (record_all_keeps _ _ xs _ (record_op_has ops z)).
Qed.
Lemma record_all_other kind op xs ops : (∀ x, x ∈ xs → fop_kind x ≠ kind) →
  existsb (same_op kind op) (record_all xs ops) = existsb (same_op kind op) ops.
Proof.
  revert ops. induction xs as [|x xs IH]; intros ops H; [done|]. cbn [record_all foldl]. unfold record_all in IH.
  rewrite IH by (intros z Hz; apply H; by right). unfold record_op. destruct (existsb (same_key x) ops); [done|].
  rewrite existsb_app. cbn. unfold same_op at 2. rewrite (bool_decide_false (fop_kind x = kind)) by (apply H; by left).
  by rewrite orb_false_r.
Qed.

(** Nothing of the fenced generations is left to send. *)
Record closed_off (lin : string) (g : Z) (predecessor : string) (b b' : HubDb) : Prop := {
  co_commands : ∀ id c, ledger b' !! id = Some c → initiated_below lin g (id_initiator (c_ident c)) = true →
    waiting c = false ∧ (c_forwarded c = true → unsettled c = true → recorded KCommand id b' = true);
  co_jobs : ∀ id ij, jobs b' !! id = Some ij → initiated_below lin g ij.1 = true →
    (job_open ij.2 = true → recorded KGateJob id b' = true) ∧
    (j_state ij.2 = Queued → recorded KGateJob id b = true);
  co_node_ops : ∀ op host o, node_ops b' !! (op, host) = Some o → initiated_below lin g (no_initiator o) = true →
    (node_op_open o = true → recorded KNodeOp op b' = true) ∧
    (no_state o = OpAdmitted → recorded KNodeOp op b = true);
  co_interactions : ∀ id x, w_interactions (b_work b') !! id = Some x → ix_instance x = predecessor → ix_state x ≠ IPending;
  co_credentials : ∀ d i ch, a_devices (b_auth b') !! d = Some (Some i) → a_chapters (b_auth b') !! i = Some ch →
    i ≠ predecessor ∧ (ch_lineage ch = lin → g < ch_generation ch);
  co_chapter : ∃ ch, a_chapters (b_auth b') !! predecessor = Some ch ∧ ch_fenced ch = true;
}.
Section closed.
Context (now : Z) (fid lin : string) (l : Lineage) (m : FenceMode) (host : string) (b : HubDb).
Let g := ln_generation l.
Let b0 := set_auth (fence_auth lin l m (b_auth b)) b.
Let b1 := fence_commands fid lin g b0.
Let b2 := fence_in_flight fid lin g b1.
Let b3 := fence_jobs now fid lin g b2.
Let b4 := fence_node_ops fid lin g b3.
Let bf := fenced_db now fid lin l m host b.
Lemma closed_recorded kind op : recorded kind op bf = recorded kind op b4.
Proof. unfold recorded, bf. by rewrite fenced_ops. Qed.
Lemma closed_command id c : ledger b1 !! id = Some c → initiated_below lin g (id_initiator (c_ident c)) = true →
  waiting c = false ∧ (c_forwarded c = true → unsettled c = true → recorded KCommand id bf = true).
Proof.
  intros Hc Hb. split; [by apply (held_is_out lin g (h_ledger (b_hub b0)) id)|]. intros Hf Hu. rewrite closed_recorded.
  apply record_all_keeps, record_all_keeps. change (existsb (same_op KCommand id) (f_ops (b_fences b2)) = true).
  destruct (recorded KCommand id b1) eqn:E; [by apply record_all_keeps|].
  apply (record_all_has _ _ (command_op fid lin g OUnknown (id, c))), list_elem_of_fmap_2, retain_elem. split; [by apply elem_of_map_to_list|].
  unfold maybe_ran. cbn [fst snd]. by rewrite Hb, Hf, Hu, E.
Qed.
Lemma closed_job id ij : jobs bf !! id = Some ij → initiated_below lin g ij.1 = true →
  (job_open ij.2 = true → recorded KGateJob id bf = true) ∧ (j_state ij.2 = Queued → recorded KGateJob id b = true).
Proof.
  assert (jobs bf = jobs b3) as -> by (unfold bf, fenced_db; by destruct (pause_close m)). rewrite closed_recorded.
  unfold jobs, b3. cbn. rewrite map_lookup_imap. destruct (w_jobs (b_work b) !! id) as [ij0|] eqn:H0; [|done]. cbn. intros [= <-] Hb.
  assert (recorded KGateJob id b2 = recorded KGateJob id b) as E2.
  { transitivity (recorded KGateJob id b1); apply record_all_other; by intros x (ic & -> & _)%list_elem_of_fmap. }
  assert (recorded KGateJob id b2 = true → recorded KGateJob id b4 = true) as Hk.
  { intros H. by apply record_all_keeps, record_all_keeps. }
  destruct (job_fenced lin g b2 (id, ij0)) eqn:Hj.
  - split; [|cbn; unfold cancel_job; case_bool_decide; cbn; done]. intros _.
    apply record_all_keeps, (record_all_has _ _ (job_op fid lin g (id, ij0))), list_elem_of_fmap_2, retain_elem.
    split; [by apply elem_of_map_to_list|done].
  - unfold job_fenced in Hj. cbn in Hb. cbn in Hj. rewrite Hb in Hj. cbn in Hj.
    apply andb_false_iff in Hj as [Hj|Hj%negb_false_iff]; [|rewrite <- E2; auto].
    split; [congruence|]. intros Hq. unfold job_open in Hj. by rewrite Hq in Hj.
Qed.
Lemma closed_node_op op h o : node_ops bf !! (op, h) = Some o → initiated_below lin g (no_initiator o) = true →
  (node_op_open o = true → recorded KNodeOp op bf = true) ∧ (no_state o = OpAdmitted → recorded KNodeOp op b = true).
Proof.
  assert (node_ops bf = node_ops b4) as -> by (unfold bf, fenced_db; by destruct (pause_close m)). rewrite closed_recorded.
  unfold node_ops, b4. cbn. rewrite map_lookup_imap. destruct (w_node_ops (b_work b) !! (op, h)) as [o0|] eqn:H0; [|done]. cbn. intros [= <-] Hb.
  assert (recorded KNodeOp op b3 = recorded KNodeOp op b) as E3.
  { transitivity (recorded KNodeOp op b2); [apply record_all_other; by intros x (ic & -> & _)%list_elem_of_fmap|].
    transitivity (recorded KNodeOp op b1); apply record_all_other; by intros x (ic & -> & _)%list_elem_of_fmap. }
  assert (recorded KNodeOp op b3 = true → recorded KNodeOp op b4 = true) as Hk by apply record_all_keeps.
  destruct (node_op_fenced lin g b3 (op, h, o0)) eqn:Hj.
  - split; [|cbn; unfold cancel_node_op; case_bool_decide; cbn; done]. intros _.
    apply (record_all_has _ _ (node_op_row fid lin g (op, h, o0))), list_elem_of_fmap_2, retain_elem.
    split; [by apply elem_of_map_to_list|done].
  - unfold node_op_fenced in Hj. cbn in Hj. rewrite Hb in Hj. cbn in Hj.
    assert (node_op_open o0 = true → recorded KNodeOp op b3 = true) as Hr.
    { intros Ho. rewrite Ho in Hj. apply negb_false_iff, existsb_exists in Hj as (z & Hz & [Hs _]%andb_true_iff).
      apply existsb_exists. eauto. }
    split; [by intros ?%Hr%Hk|]. intros Hq. rewrite <- E3. apply Hr. unfold node_op_open. by rewrite Hq.
Qed.
End closed.
Lemma closed_ledger now fid lin l m host b id c g : ledger (fenced_db now fid lin l m host b) !! id = Some c →
  initiated_below lin g (id_initiator (c_ident c)) = true →
  ledger (fence_commands fid lin (ln_generation l) (set_auth (fence_auth lin l m (b_auth b)) b)) !! id = Some c.
Proof.
  unfold fenced_db. destruct (pause_close m) as [close|]; [|done]. unfold ledger. cbn [queue_close b_hub set_hub].
  unfold on_ledger. cbn [h_ledger]. unfold put_cmd. cbn [l_commands].
  destruct (decide (pc_command close = id)) as [->|]; [rewrite lookup_insert_eq; by intros [= <-]|].
  by rewrite lookup_insert_ne.
Qed.
Lemma closed_credentials lin l m a d i ch : a_devices (fence_auth lin l m a) !! d = Some (Some i) →
  a_chapters (fence_auth lin l m a) !! i = Some ch →
  i ≠ ln_current l ∧ (ch_lineage ch = lin → ln_generation l < ch_generation ch).
Proof.
  unfold fence_auth, delete_credentials. cbn [a_devices set_devices a_chapters]. intros [_ Hd]%map_lookup_filter_Some Hc.
  cbn in Hd. apply orb_false_iff in Hd as [Hp%bool_decide_eq_false Hd]. split; [done|]. intros El.
  change (a_chapters (fence_chapter (ln_current l) (set_lineages (<[lin:=next_lineage m l]> (a_lineages a)) a)) !! i = Some ch) in Hc.
  cbn in Hc, Hd. rewrite Hc in Hd. rewrite bool_decide_true in Hd by done. cbn in Hd. apply Z.ltb_ge in Hd. lia.
Qed.
(** C23. The transaction F leaves nothing of the fenced generations to send: no
    held command, queued job or admitted direct operation (but those an earlier
    fence had recorded), no credential, no pending interaction of the chapter,
    which is fenced; and whatever may have run is on record. *)
Theorem fence_closes_off now fid spec b b' core :
  fence_core now fid spec b = Ok (b', Committed core) → fc_fenced core = fs_expected spec →
  closed_off (fc_lineage core) (fc_fenced core) (fc_predecessor core) b b' ∧
  ∃ fe, f_fences (b_fences b') = f_fences (b_fences b) ++ [fe] ∧ fe_id fe = fc_fence core ∧
    fe_lineage fe = fc_lineage core ∧ fe_fenced fe = fc_fenced core ∧ fe_live fe = fc_live core ∧ fc_live core = fc_fenced core + 1.
Proof.
  intros Hf Hg. destruct (fence_core_inv _ _ _ _ _ _ Hf) as (l & ch & C).
  pose proof (cf_expected _ _ _ _ _ _ _ _ C) as He. rewrite (cf_core_lineage _ _ _ _ _ _ _ _ C), (cf_predecessor _ _ _ _ _ _ _ _ C).
  destruct (cf_what _ _ _ _ _ _ _ _ C) as [(s & _ & _ & _ & E & _)|(Hp & _ & -> & -> & -> & ->)]; [lia|].
  set (m := fs_mode spec). set (lin := fs_lineage spec). split.
  - split.
    + intros id c Hc Hb. by eapply closed_command, Hb; eapply closed_ledger, Hb.
    + intros id ij. apply closed_job.
    + intros op h o. apply closed_node_op.
    + assert (w_interactions (b_work (fenced_db now fid lin l m (ch_host ch) b)) =
        supersede (ln_current l) (match m with Pause _ _ => lin | Successor s => s end) <$> w_interactions (b_work b)) as ->.
      { unfold fenced_db. by destruct (pause_close m). }
      intros id x. rewrite lookup_fmap. intros (x0 & _ & ->)%fmap_Some. unfold supersede.
      destruct (bool_decide (ix_instance x0 = _) && bool_decide (ix_state x0 = IPending)) eqn:E; [done|].
      intros Hi Hpend. rewrite Hi, Hpend in E. by rewrite !bool_decide_true in E.
    + intros d i c. unfold fenced_db. rewrite queue_close_auth. apply closed_credentials.
    + unfold fenced_db. rewrite queue_close_auth. exists (mkChapter (ch_host ch) (ch_lineage ch) (ch_generation ch) true).
      split; [|done]. change (a_chapters (fence_chapter (ln_current l) (b_auth b)) !! ln_current l =
        Some (mkChapter (ch_host ch) (ch_lineage ch) (ch_generation ch) true)).
      rewrite fence_chapter_lookup, (cf_chapter _ _ _ _ _ _ _ _ C). cbn. by rewrite decide_True.
  - exists (new_fence fid lin l m). split; [unfold fenced_db; by destruct (pause_close m)|].
    unfold new_fence. by destruct m.
Qed.

(** ** The read model *)

(** The listing of a fence shows each of its records once. *)
Lemma listed_once fid b : fence_operations fid b ≡ₚ retain (λ x, bool_decide (fop_fence x = fid)) (f_ops (b_fences b)).
Proof.
  unfold fence_operations, of_kind. rewrite !merge_sort_Permutation, <- !list_fmap_compose, !list_fmap_id.
  generalize (f_ops (b_fences b)) as ops. induction ops as [|x ops IH]; [done|]. cbn [retain List.filter].
  fold (retain (A := FenceOp)). destruct (bool_decide (fop_fence x = fid)); [|exact IH]. cbn [andb]. rewrite <- IH.
  destruct (fop_kind x); cbn; solve_Permutation.
Qed.
