(* ===== verification/FenceDelivery.v ===== *)
(** * Fences and their deliveries

    The fences of a lineage are numbered without gaps, one for each generation
    it moved through; every host that has a chapter of the lineage owes an
    acknowledgement of each.  A frame of a chapter's generation leaves for a
    host only once the host owes none of the fences up to that generation, and
    the in-memory map never runs ahead of the tables. *)
From stdpp Require Import base list gmap strings numbers sorting relations.
From S2P Require Import Prelude Json GateQueue HubCommands HubEdit HubLedger HubQueue FenceHub FenceSteps FenceLedger FenceAuth FenceSafety FenceRecords.
Local Open Scope Z_scope.

Definition y_fences (y : Sys) : list Fence := f_fences (b_fences (y_db y)).
Definition y_deliveries (y : Sys) : gmap (string * string) bool := f_deliveries (b_fences (y_db y)).

(** ** What a step does to the fences *)

Lemma call_fences n s y : y_fences (call_step n s y) = y_fences y ∧ y_deliveries (call_step n s y) = y_deliveries y.
Proof.
  unfold call_step. destruct (y_calls y !! n) as [c|]; [|done]. destruct (cl_phase c), s; unfold on_wire; try done.
  - destruct (admit_node_op c (y_db y)) as [b|] eqn:E; [|done]. by destruct (admit_work _ _ _ E) as [-> _].
  - destruct (mark_node_op_sent c (y_db y)) as [b|] eqn:E; [|done]. by destruct (sent_work _ _ _ E) as (_ & o & _ & ->).
  - by destruct (fenced_in_map _ _).
  - by destruct (cl_initiator c).
  - by destruct left_.
  - by destruct (cl_initiator c).
Qed.
Lemma fences_same x y : commits x y = None → y_fences (act_step x y) = y_fences y ∧
  (∀ k, y_deliveries (act_step x y) !! k = y_deliveries y !! k ∨
        is_Some (y_deliveries y !! k) ∧ y_deliveries (act_step x y) !! k = Some true).
Proof.
  intros Hx. act_split x; try (split; [done|intros k; by left]).
  - cbn [commits] in Hx. repeat case_match; simplify_eq.
  - cbn [commits] in Hx. repeat case_match; simplify_eq.
  - destruct (call_fences n s y) as [-> ->]. split; [done|by left].
  - unfold cancel_fenced_attempt. repeat case_match; (split; [done|by left]).
  - unfold cancel_fenced_attempt. repeat case_match; (split; [done|by left]).
  - unfold job_phase. repeat case_match; (split; [done|by left]).
  - unfold ack_fence in *. simplify_eq. split; [done|]. intros k. unfold y_deliveries. cbn.
    destruct (decide ((fe_id f, host) = k)) as [<-|]; [|left; by rewrite lookup_alter_ne].
    rewrite lookup_alter_eq. destruct (f_deliveries _ !! _) eqn:E; [|by left]. right. eauto.
Qed.
(** A host's delivery of a new fence. *)
Lemma deliver_to_lookup fid hosts m k : deliver_to fid hosts m !! k =
  match m !! k with
  | Some v => Some v
  | None => if bool_decide (k.1 = fid) && bool_decide (k.2 ∈ hosts) then Some false else None
  end.
Proof.
  revert m. induction hosts as [|h hosts IH]; intros m; cbn [deliver_to foldl].
  - destruct (m !! k); [done|]. by rewrite (bool_decide_false (k.2 ∈ [])), andb_false_r by apply not_elem_of_nil.
  - fold (deliver_to fid hosts). unfold deliver_to in IH. rewrite IH. clear IH.
    assert (bool_decide (k.2 ∈ h :: hosts) = bool_decide (k.2 = h) || bool_decide (k.2 ∈ hosts)) as ->.
    { rewrite <- bool_decide_or. apply bool_decide_ext. apply elem_of_cons. }
    destruct (m !! (fid, h)) as [v|] eqn:E.
    + destruct (m !! k) eqn:Ek; [done|]. destruct (decide (k.1 = fid ∧ k.2 = h)) as [[H1 H2]|Hn].
      * destruct k; simpl in *. congruence.
      * destruct (decide (k.1 = fid)); [|by rewrite !(bool_decide_false (k.1 = fid))].
        rewrite (bool_decide_false (k.2 = h)) by naive_solver. done.
    + destruct (decide ((fid, h) = k)) as [<-|Hne].
      * rewrite lookup_insert_eq, E. cbn. by rewrite (bool_decide_true (fid = fid)), (bool_decide_true (h = h)).
      * rewrite lookup_insert_ne by done. destruct (m !! k); [done|].
        destruct (decide (k.1 = fid)) as [E1|]; [|by rewrite !(bool_decide_false (k.1 = fid))].
        rewrite (bool_decide_false (k.2 = h)); [done|]. intros E2. apply Hne. by destruct k; simpl in *; subst.
Qed.
Lemma known_hosts_elem a h : h ∈ known_hosts a ↔ is_Some (a_hosts a !! h).
Proof.
  unfold known_hosts, sort_strings. rewrite merge_sort_Permutation, list_elem_of_fmap. split.
  - intros ([h' v] & -> & H%elem_of_map_to_list). by exists v.
  - intros [v H]. exists (h, v). split; [done|]. by apply elem_of_map_to_list.
Qed.
(** What a committed F does to them. *)
Definition fence_ref (fe : Fence) : string * string * Z * Z := (fe_id fe, fe_lineage fe, fe_fenced fe, fe_live fe).
Lemma successor_refs fid cmd (l : list Fence) : fence_ref <$> ((λ x, if bool_decide (fe_id x = fid) then with_successor_command cmd x else x) <$> l) = fence_ref <$> l.
Proof. rewrite <- list_fmap_compose. apply list_fmap_ext. intros i x _. cbn. by destruct (bool_decide _). Qed.
Lemma commits_fences x y core : commits x y = Some core →
  (∃ l, a_lineages (y_auth y) !! fc_lineage core = Some l ∧ fc_live core = ln_generation l ∧
     fence_ref <$> y_fences (act_step x y) = fence_ref <$> y_fences y ∧ y_deliveries (act_step x y) = y_deliveries y) ∨
  (∃ l, a_lineages (y_auth y) !! fc_lineage core = Some l ∧ fc_live core = ln_generation l + 1 ∧
     (∀ fe, fe ∈ y_fences y → fe_id fe ≠ fc_fence core) ∧
     fence_ref <$> y_fences (act_step x y) =
       (fence_ref <$> y_fences y) ++ [(fc_fence core, fc_lineage core, ln_generation l, ln_generation l + 1)] ∧
     y_deliveries (act_step x y) = deliver_to (fc_fence core) (known_hosts (y_auth y)) (y_deliveries y)).
Proof.
  intros Hx. destruct (commits_inv _ _ _ Hx) as (now & fid & spec & b & l & ch & C & Hw).
  assert (fence_ref <$> y_fences (act_step x y) = fence_ref <$> f_fences (b_fences b) ∧ y_deliveries (act_step x y) = f_deliveries (b_fences b)) as [-> ->].
  { destruct Hw as [(by_ & close & _ & _ & ->)|(gr & rq & b' & _ & _ & -> & R)]; [done|]. unfold y_fences, y_deliveries. cbn.
    rewrite (rs_db _ _ _ _ _ _ _ _ _ R). cbn. split; [apply successor_refs|done]. }
  pose proof (cf_lineage _ _ _ _ _ _ _ _ C) as Hl. rewrite (cf_core_lineage _ _ _ _ _ _ _ _ C).
  destruct (cf_what _ _ _ _ _ _ _ _ C) as [(s & _ & _ & -> & _ & -> & _)|(Hp & Ht & -> & _ & -> & ->)]; [left|right]; exists l.
  - done.
  - split_and!; [done|done| | |].
    + intros fe Hfe E. apply not_true_iff_false in Ht. apply Ht. unfold fence_taken. apply existsb_exists. exists fe.
      split; [by apply list_elem_of_In|]. apply orb_true_iff. left. apply bool_decide_eq_true. rewrite E. unfold new_fence. by destruct (fs_mode spec).
    + transitivity (fence_ref <$> (y_fences y ++ [new_fence fid (fs_lineage spec) l (fs_mode spec)])).
      { f_equal. unfold fenced_db. by destruct (pause_close _). }
      rewrite fmap_app. f_equal. cbn. unfold new_fence. by destruct (fs_mode spec).
    + assert (fe_id (new_fence fid (fs_lineage spec) l (fs_mode spec)) = fid) as E by (unfold new_fence; by destruct (fs_mode spec)).
      transitivity (deliver_to (fe_id (new_fence fid (fs_lineage spec) l (fs_mode spec))) (known_hosts (y_auth y)) (y_deliveries y));
        [unfold fenced_db; by destruct (pause_close _)|by rewrite E].
Qed.

(** ** Generations and fences *)

(** Outside F a lineage keeps its generation, or is new at generation 1. *)
Lemma generations_same x y lin l' : commits x y = None → a_lineages (y_auth (act_step x y)) !! lin = Some l' →
  (∃ l, a_lineages (y_auth y) !! lin = Some l ∧ ln_generation l' = ln_generation l) ∨
  (a_lineages (y_auth y) !! lin = None ∧ a_chapters (y_auth y) !! lin = None ∧ ln_generation l' = 1).
Proof.
  intros Hx. act_split x; try (intros Hsame; left; by exists l');
    try (cbn; intros [[<- <-]|[_ Hsame]]%lookup_insert_Some; [by right|left; by exists l']).
  - cbn [commits] in Hx. repeat case_match; simplify_eq.
  - cbn [commits] in Hx. repeat case_match; simplify_eq.
  - rewrite call_auth. intros Hsame. left. by exists l'.
  - unfold cancel_fenced_attempt. repeat case_match; intros Hsame; left; by exists l'.
  - unfold cancel_fenced_attempt. repeat case_match; intros Hsame; left; by exists l'.
  - unfold job_phase. repeat case_match; intros Hsame; left; by exists l'.
  - unfold ack_fence in *. simplify_eq. intros Hsame. left. by exists l'.
  - cbn. rewrite lookup_fmap. intros (l & Hl & ->)%fmap_Some. left. exists l. by rewrite running_generation.
Qed.
Lemma commits_generation x y core lin l' : commits x y = Some core → a_lineages (y_auth (act_step x y)) !! lin = Some l' →
  ∃ l, a_lineages (y_auth y) !! lin = Some l ∧ ln_generation l' = if decide (lin = fc_lineage core) then fc_live core else ln_generation l.
Proof.
  intros Hx. destruct (commits_inv _ _ _ Hx) as (now & fid & spec & b & l & ch & C & Hw).
  assert (a_lineages (y_auth (act_step x y)) = a_lineages (b_auth b)) as ->.
  { destruct Hw as [(by_ & close & _ & _ & ->)|(gr & rq & b' & _ & _ & -> & R)]; [done|]. unfold y_auth. cbn.
    by rewrite (rs_db _ _ _ _ _ _ _ _ _ R). }
  pose proof (cf_lineage _ _ _ _ _ _ _ _ C) as Hl. rewrite (cf_core_lineage _ _ _ _ _ _ _ _ C), (committed_auth _ _ _ _ _ _ _ _ C).
  assert (∃ s by_, match fs_mode spec, ln_state l with
     | Successor s, LPaused => a_lineages (resume_auth (fs_lineage spec) l s (y_auth y))
     | m, _ => a_lineages (fence_auth (fs_lineage spec) l m (y_auth y)) end = <[fs_lineage spec := mkLineage s.1 (fc_live core) s.2 by_]> (a_lineages (y_auth y))) as (s & by_ & E).
  { destruct (cf_what _ _ _ _ _ _ _ _ C) as [(s & -> & -> & _ & _ & -> & _)|(Hp & _ & _ & _ & -> & _)]; [by exists (s, LStarting), None|].
    destruct (fs_mode spec) as [p c|s]; [by exists (ln_current l, LPaused), (Some p)|]. destruct (ln_state l) eqn:Es; [..|by destruct (Hp s)];
      by exists (s, LStarting), None. }
  assert (a_lineages (match fs_mode spec, ln_state l with
     | Successor s, LPaused => resume_auth (fs_lineage spec) l s (b_auth (y_db y))
     | m, _ => fence_auth (fs_lineage spec) l m (b_auth (y_db y)) end) = <[fs_lineage spec := mkLineage s.1 (fc_live core) s.2 by_]> (a_lineages (y_auth y))) as ->.
  { rewrite <- E. by destruct (fs_mode spec), (ln_state l). }
  intros [[<- <-]|[Hne H]]%lookup_insert_Some; [exists l; by rewrite decide_True|]. exists l'. by rewrite decide_False.
Qed.
Definition refs (y : Sys) : list (string * string * Z * Z) := fence_ref <$> y_fences y.
Definition lives (lin : string) (y : Sys) : list Z := snd <$> retain (λ r, bool_decide (r.1.1.2 = lin)) (refs y).
Record numbered (y : Sys) : Prop := {
  nb_lives : ∀ lin l, a_lineages (y_auth y) !! lin = Some l → lives lin y = seqZ 2 (ln_generation l - 1);
  nb_refs : ∀ r, r ∈ refs y → is_Some (a_lineages (y_auth y) !! r.1.1.2) ∧ r.1.2 + 1 = r.2;
  nb_ids : NoDup (fe_id <$> y_fences y);
}.
Lemma seqZ_next n : 0 ≤ n → seqZ 2 (n + 1) = seqZ 2 n ++ [n + 2].
Proof. intros H. rewrite seqZ_app by lia. f_equal. rewrite seqZ_cons by lia. rewrite Z.add_comm. by replace (Z.pred 1) with 0 by lia. Qed.
Lemma ids_refs (l l' : list Fence) : fence_ref <$> l = fence_ref <$> l' → fe_id <$> l = fe_id <$> l'.
Proof.
  intros E. assert (∀ k : list Fence, fe_id <$> k = (λ r : string * string * Z * Z, r.1.1.1) <$> (fence_ref <$> k)) as H.
  { intros k. rewrite <- list_fmap_compose. by apply list_fmap_ext. }
  by rewrite !H, E.
Qed.
Lemma numbered_step x y : auth_ok (y_auth y) → numbered y → numbered (act_step x y).
Proof.
  intros O [N1 N2 N3]. destruct (commits x y) as [core|] eqn:Hx; cycle 1.
  { destruct (fences_same x y Hx) as [E _]. assert (refs (act_step x y) = refs y) as Er' by (unfold refs; by rewrite E).
    split; [|rewrite Er'|by rewrite E].
    - intros lin l' Hl. unfold lives. rewrite Er'. fold (lives lin y). destruct (generations_same _ _ _ _ Hx Hl) as [(l & Hl0 & ->)|(Hl0 & _ & ->)]; [by apply N1|].
      assert (lives lin y = []) as ->; [|done]. unfold lives. destruct (retain _ _) as [|r rs] eqn:Er; [done|].
      assert (r ∈ retain (λ r, bool_decide (r.1.1.2 = lin)) (refs y)) as [Hr Hb%bool_decide_eq_true]%retain_elem by (rewrite Er; left).
      destruct (N2 r Hr) as [[? H] _]. congruence.
    - intros r Hr. destruct (N2 r Hr) as [[l Hl] H]. split; [|done]. destruct (le_lineage _ _ (step_le x y) _ _ Hl) as (l' & -> & _). eauto. }
  assert (∀ r, is_Some (a_lineages (y_auth y) !! r) → is_Some (a_lineages (y_auth (act_step x y)) !! r)) as Hle.
  { intros r [l Hl]. destruct (le_lineage _ _ (step_le x y) _ _ Hl) as (l' & -> & _). eauto. }
  destruct (commits_fences x y core Hx) as [(l & Hl & El & Ef & _)|(l & Hl & El & Hfresh & Ef & _)].
  - split; [|unfold refs; rewrite Ef|by rewrite (ids_refs _ _ Ef)].
    + intros lin l' Hl'. destruct (commits_generation _ _ _ _ _ Hx Hl') as (l0 & H0 & ->).
      unfold lives, refs. rewrite Ef. fold (refs y) (lives lin y). rewrite (N1 lin l0 H0).
      case_decide; [|done]. subst lin. rewrite El. congruence.
    + intros r Hr. destruct (N2 r Hr). auto.
  - split; [|unfold refs; rewrite Ef|].
    + intros lin l' Hl'. destruct (commits_generation _ _ _ _ _ Hx Hl') as (l0 & H0 & ->).
      unfold lives, refs. rewrite Ef, retain_app, fmap_app.
      fold (refs y) (lives lin y). rewrite (N1 lin l0 H0). cbn. case_decide as Hd; [subst lin|].
      * rewrite bool_decide_true by done. cbn. simplify_eq. destruct (ok_current _ O _ _ Hl) as [H1 _]. rewrite El.
        replace (ln_generation l + 1 - 1) with (ln_generation l - 1 + 1) by lia. rewrite seqZ_next by lia. do 2 f_equal. lia.
      * rewrite bool_decide_false by congruence. cbn. by rewrite app_nil_r.
    + intros r [Hr|Hr%list_elem_of_singleton]%elem_of_app; [destruct (N2 r Hr); auto|]. subst r. cbn. split; [|done].
      apply Hle. eauto.
    + assert (fe_id <$> y_fences (act_step x y) = (fe_id <$> y_fences y) ++ [fc_fence core]) as ->.
      { transitivity ((λ r : string * string * Z * Z, r.1.1.1) <$> (fence_ref <$> y_fences (act_step x y))).
        - rewrite <- list_fmap_compose. by apply list_fmap_ext.
        - rewrite Ef, fmap_app, <- list_fmap_compose. f_equal. }
      apply list.NoDup_app. split_and!; [done| |apply NoDup_singleton]. intros k (fe & -> & Hfe)%list_elem_of_fmap E%list_elem_of_singleton.
      by apply (Hfresh fe).
Qed.
Lemma reachable_numbered insts xs : numbered (act_run xs (start insts)).
Proof.
  induction xs as [|x xs IH] using rev_ind; [split; [done|by intros ? ?%not_elem_of_nil|constructor]|].
  unfold act_run. rewrite foldl_app. apply numbered_step; [apply reachable_ok|apply IH].
Qed.
(** The fences of a lineage number its generations: in creation order their
    live generations are 2, 3, ... up to the generation of the lineage, none
    missing and none twice, each fencing the generation before it. *)
Theorem fences_number_the_generations insts xs lin l :
  let y := act_run xs (start insts) in
  a_lineages (y_auth y) !! lin = Some l →
  lives lin y = seqZ 2 (ln_generation l - 1) ∧ NoDup (fe_id <$> y_fences y) ∧
  ∀ fe, fe ∈ y_fences y → fe_fenced fe + 1 = fe_live fe.
Proof.
  intros y Hl. pose proof (reachable_numbered insts xs) as [N1 N2 N3]. split_and!; [by apply N1|done|].
  intros fe Hfe. destruct (N2 (fence_ref fe)) as [_ E]; [by apply list_elem_of_fmap_2|]. exact E.
Qed.
Lemma lives_elem y fe : fe ∈ y_fences y → fe_live fe ∈ lives (fe_lineage fe) y.
Proof.
  intros H. unfold lives. apply (list_elem_of_fmap_2 snd _ (fence_ref fe)), retain_elem. split; [by apply list_elem_of_fmap_2|].
  by apply bool_decide_eq_true.
Qed.
Lemma fence_live_bound y fe : numbered y → fe ∈ y_fences y →
  ∃ l, a_lineages (y_auth y) !! fe_lineage fe = Some l ∧ 2 ≤ fe_live fe ≤ ln_generation l.
Proof.
  intros [N1 N2 _] H. destruct (N2 (fence_ref fe)) as [[l Hl] _]; [by apply list_elem_of_fmap_2|]. cbn in Hl. exists l. split; [done|].
  pose proof (lives_elem y fe H) as He. rewrite (N1 _ _ Hl) in He. apply elem_of_seqZ in He. lia.
Qed.
(** F fails only for want of authority or of the lineage: with a new fence
    id no run of the Hub makes it hit a missing chapter or a constraint of the
    fence table, so a request that is refused leaves by [CasLost],
    [StateRefused], [CloseExists] or [Guarded]. *)
Theorem fence_never_breaks insts xs now fid spec e :
  let y := act_run xs (start insts) in
  fid ∉ fe_id <$> y_fences y → fence_core now fid spec (y_db y) = Err e →
  (e = EFenced ∧ authority_ok spec (y_auth y) = false) ∨
  (e = EUnknownLineage ∧ a_lineages (y_auth y) !! fs_lineage spec = None).
Proof.
  intros y Hid. pose proof (reachable_ok insts xs) as O. pose proof (reachable_numbered insts xs) as N. fold y in O, N.
  unfold fence_core. fold (y_auth y). destruct (authority_ok spec (y_auth y)); [|intros [= <-]; by left]. cbn [negb].
  destruct (a_lineages (y_auth y) !! fs_lineage spec) as [l|] eqn:Hl; [|intros [= <-]; by right]. intros H. exfalso. revert H.
  destruct (ok_current _ O _ _ Hl) as (_ & ch & Hch & _).
  destruct (_ =? _); [|done]. cbn [negb]. destruct (bool_decide _); [|done]. cbn [negb].
  destruct (close_exists _ _); [done|]. destruct (_ && _); [done|].
  assert (∀ m, fence_now now fid (fs_lineage spec) l m (y_db y) ≠ Err e) as Hnow.
  { intros m. unfold fence_now. fold (y_auth y). rewrite Hch. destruct (fence_taken _ _) eqn:Ht; [|done]. exfalso.
    apply existsb_exists in Ht as (fe & Hfe%list_elem_of_In & [Hi%bool_decide_eq_true|Hd]%orb_true_iff).
    - apply Hid. assert (fe_id (new_fence fid (fs_lineage spec) l m) = fid) as E by by destruct m. rewrite <- E, <- Hi. by apply list_elem_of_fmap_2.
    - apply andb_true_iff in Hd as [E%bool_decide_eq_true Eg%Z.eqb_eq]. destruct (fence_live_bound y fe N Hfe) as (l' & Hl' & ?).
      assert (fe_lineage fe = fs_lineage spec) as E' by (rewrite E; by destruct m). rewrite E', Hl in Hl'. simplify_eq.
      assert (fe_live fe = ln_generation l' + 1) by (rewrite Eg; by destruct m). lia. }
  destruct (fs_mode spec) as [|s]; [by intros ?%Hnow|]. destruct (ln_state l); [by intros ?%Hnow..|].
  unfold resume_paused. fold (y_auth y). by rewrite Hch.
Qed.
(** The generation is compared and set: once an F has committed, no later F
    that expects the generation it fenced, or an older one, commits, so of two
    racing closes, restarts or resumes one wins and the other writes nothing. *)
Theorem one_fence_wins x y core later now fid spec b core' :
  commits x y = Some core → fs_lineage spec = fc_lineage core → fs_expected spec ≤ fc_fenced core →
  fence_core now fid spec (y_db (act_run later (act_step x y))) ≠ Ok (b, Committed core').
Proof.
  intros Hx El Hg Hf. destruct (fence_core_inv _ _ _ _ _ _ Hf) as (l & ch & C).
  destruct (past_le _ _ _ _ (run_le later _) (commits_past x y core Hx)) as (l' & Hl' & Hlt).
  pose proof (cf_lineage _ _ _ _ _ _ _ _ C) as Hl. rewrite El in Hl. unfold y_auth in Hl'. rewrite Hl in Hl'. simplify_eq.
  pose proof (cf_expected _ _ _ _ _ _ _ _ C). lia.
Qed.

(** ** The map *)

Definition known_live (a : Auth) (lin : string) (g : Z) : Prop := ∃ l, a_lineages a !! lin = Some l ∧ g ≤ ln_generation l.
Record map_ok (y : Sys) : Prop := {
  mo_live : ∀ lin g, y_live y !! lin = Some g → known_live (y_auth y) lin g;
  mo_committed : ∀ lin g, (lin, g) ∈ y_committed y → known_live (y_auth y) lin g;
}.
Lemma known_le a a' lin g : auth_le a a' → known_live a lin g → known_live a' lin g.
Proof. intros L (l & Hl & Hg). destruct (le_lineage _ _ L _ _ Hl) as (l' & Hl' & ?). exists l'. split; [done|lia]. Qed.
Lemma raised_lookup lin g m lin' g' : raise lin g m !! lin' = Some g' → m !! lin' = Some g' ∨ (lin' = lin ∧ g' = g).
Proof.
  unfold raise. intros [[<- <-]|[_ ?]]%lookup_insert_Some; [|by left]. destruct (m !! lin) as [e|]; [|by right].
  destruct (e <? g); [by right|by left].
Qed.
Lemma load_map_lookup a lin g : load_map a !! lin = Some g → known_live a lin g.
Proof.
  unfold load_map. assert (∀ rows m, (∀ p, p ∈ rows → a_lineages a !! p.1 = Some p.2) →
    (∀ lin g, m !! lin = Some g → known_live a lin g) →
    ∀ lin g, foldl (λ m p, raise p.1 (ln_generation p.2) m) m rows !! lin = Some g → known_live a lin g) as H.
  { intros rows. induction rows as [|p rows IH]; intros m Hr Hm; [done|]. cbn [foldl]. apply IH; [intros q Hq; apply Hr; by right|].
    intros k e [?|[-> ->]]%raised_lookup; [by apply Hm|]. exists p.2. split; [apply Hr; by left|done]. }
  apply H; [by intros [k l] ?%elem_of_map_to_list|]. by intros k e; rewrite lookup_empty.
Qed.
Lemma commits_known x y core : commits x y = Some core → known_live (y_auth (act_step x y)) (fc_lineage core) (fc_live core).
Proof.
  intros Hx. destruct (commits_past x y core Hx) as (l' & Hl' & _). exists l'. split; [done|].
  destruct (commits_generation _ _ _ _ _ Hx Hl') as (l0 & _ & E). rewrite decide_True in E by done. lia.
Qed.
Lemma live_step x y : y_live (act_step x y) = y_live y ∧ (y_committed (act_step x y) = y_committed y ∨
    ∃ core, commits x y = Some core ∧ y_committed (act_step x y) = y_committed y ++ [(fc_lineage core, fc_live core)]) ∨
  (∃ lin g, (lin, g) ∈ y_committed y ∧ y_live (act_step x y) = raise lin g (y_live y) ∧ y_committed (act_step x y) = y_committed y) ∨
  (y_committed (act_step x y) = [] ∧ (y_live (act_step x y) = ∅ ∨ y_live (act_step x y) = load_map (y_auth (act_step x y)))).
Proof.
  destruct (commits x y) as [core|] eqn:Hx.
  { left. by destruct (commits_inv _ _ _ Hx) as (now & fid & spec & b & l & ch & C & [(by_ & close & _ & _ & ->)|(gr & rq & b' & _ & _ & -> & R)]);
      (split; [done|right; eauto]). }
  act_split x; try (left; split; [done|by left]).
  - cbn [commits] in Hx. repeat case_match; simplify_eq.
  - cbn [commits] in Hx. repeat case_match; simplify_eq.
  - right. left. eexists _, _. split_and!; [|done..]. by eapply bool_decide_eq_true.
  - left. unfold call_step. destruct (y_calls y !! n) as [c|]; [|split; [done|by left]].
    destruct (cl_phase c), s; unfold on_wire, or_end; repeat case_match; (split; [done|by left]).
  - right. right. split; [done|]. cbn. destruct loaded; auto.
Qed.
Lemma map_step x y : map_ok y → map_ok (act_step x y).
Proof.
  intros [M1 M2]. pose proof (step_le x y) as L.
  assert (∀ lin g, known_live (y_auth y) lin g → known_live (y_auth (act_step x y)) lin g) as Hle.
  { intros lin g. by apply known_le. }
  destruct (live_step x y) as [[E [Ec|(core & Hx & Ec)]]|[(lin & g & Hg & E & Ec)|[Ec [E|E]]]]; split; rewrite ?E, ?Ec; eauto.
  - intros lin g [H|H%list_elem_of_singleton]%elem_of_app; [by apply Hle, M2|]. injection H as -> ->. by apply commits_known.
  - intros k e [?|[-> ->]]%raised_lookup; eauto.
  - intros k e. by rewrite lookup_empty.
  - by intros k e ?%not_elem_of_nil.
  - intros k e. apply load_map_lookup.
  - by intros k e ?%not_elem_of_nil.
Qed.
Lemma reachable_map insts xs : map_ok (act_run xs (start insts)).
Proof.
  induction xs as [|x xs IH] using rev_ind.
  { split; [intros ??; cbn; by rewrite lookup_empty|by intros ?? ?%not_elem_of_nil]. }
  unfold act_run. rewrite foldl_app. by apply map_step.
Qed.
(** The send gate never stops authorised work: an initiator that passes the
    authority check is not fenced in the in-memory map, however the map was
    raised, lost with the process or loaded again. *)
Theorem send_gate_spares_the_live insts xs i d :
  let y := act_run xs (start insts) in
  stamped (y_auth y) (Some i) → check_initiator (y_auth y) (Some i) d = true → is_fenced (y_live y) i = false.
Proof.
  intros y Hs Hc. pose proof (reachable_map insts xs) as [M _]. fold y in M.
  destruct (check_inv _ _ _ Hc Hs) as (ch & _ & _ & _ & _ & Hl). unfold is_fenced.
  destruct (y_live y !! hi_lineage i) as [g|] eqn:Hg; [|done]. destruct (M _ _ Hg) as (l & Hll & ?).
  destruct (Hl _ Hll) as [E _]. apply Z.ltb_ge. lia.
Qed.

(** ** Nothing leaves before the acknowledgement *)

(** The host owes none of the lineage's fences up to the initiator's
    generation. *)
Definition cleared (y : Sys) (i : HubInitiator) (host : string) : Prop := ∀ fe, fe ∈ y_fences y →
  fe_lineage fe = hi_lineage i → fe_live fe ≤ hi_generation i → y_deliveries y !! (fe_id fe, host) ≠ Some false.
Lemma not_undelivered f host fid : undelivered f host = false → f_deliveries f !! (fid, host) ≠ Some false.
Proof.
  intros H E. apply not_true_iff_false in H. apply H. unfold undelivered. apply existsb_exists. exists ((fid, host), false).
  split; [by apply list_elem_of_In, elem_of_map_to_list|]. cbn. by rewrite bool_decide_true.
Qed.
(** The gate of a host, of a command or of a direct operation, clears it. *)
Lemma gate_clears y i host : numbered y → host_gated (y_db y) host = false →
  initiator_is_continuity (y_auth y) (Some i) && negb (host_capable (y_auth y) host) = false → cleared y i host.
Proof.
  intros N Hg Hl fe Hfe El _. destruct (fence_live_bound y fe N Hfe) as (l & Hll & _). rewrite El in Hll.
  unfold initiator_is_continuity in Hl. rewrite bool_decide_true in Hl by eauto. cbn in Hl. apply negb_false_iff in Hl.
  unfold host_gated in Hg. fold (y_auth y) in Hg. rewrite Hl in Hg. by apply not_undelivered.
Qed.
(** A fence that commits later is above every stamped generation. *)
Lemma refs_elem y fe : fence_ref fe ∈ refs y → ∃ fe', fe' ∈ y_fences y ∧ fence_ref fe' = fence_ref fe.
Proof. intros (fe' & E & H)%list_elem_of_fmap. eauto. Qed.
Lemma cleared_step x y i host : auth_ok (y_auth y) → numbered y → stamped (y_auth y) (Some i) →
  cleared y i host → cleared (act_step x y) i host.
Proof.
  intros O N Hs Hc fe Hfe El Hg. destruct (commits x y) as [core|] eqn:Hx; cycle 1.
  { destruct (fences_same x y Hx) as [E Ed]. rewrite E in Hfe. destruct (Ed (fe_id fe, host)) as [->|[_ ->]]; [by apply Hc|done]. }
  destruct (commits_fences x y core Hx) as [(l & Hl & Elive & Ef & ->)|(l & Hl & Elive & Hfresh & Ef & ->)].
  - destruct (refs_elem y fe) as (fe' & H' & E); [unfold refs; rewrite <- Ef; by apply list_elem_of_fmap_2|]. injection E as E1 E2 _ E4.
    rewrite <- E1. apply Hc; congruence.
  - assert (fence_ref fe ∈ fence_ref <$> y_fences (act_step x y)) as Hr by by apply list_elem_of_fmap_2. rewrite Ef in Hr.
    apply elem_of_app in Hr as [Hr|Hr%list_elem_of_singleton].
    + destruct (refs_elem y fe Hr) as (fe' & H' & E). injection E as E1 E2 _ E4. rewrite <- E1.
      rewrite deliver_to_lookup. pose proof (Hc fe' H' ltac:(congruence) ltac:(congruence)) as Hd.
      destruct (y_deliveries y !! _) as [v|]; [done|]. cbn. by rewrite bool_decide_false by by apply Hfresh.
    + injection Hr as E1 E2 E3 E4. exfalso. unfold stamped, stamp_of in Hs.
      destruct (a_chapters (y_auth y) !! hi_instance i) as [ch|] eqn:Hch; [|done]. injection Hs as Hs.
      assert (ch_lineage ch = hi_lineage i) as F1 by by rewrite <- Hs. assert (ch_generation ch = hi_generation i) as F2 by by rewrite <- Hs.
      destruct (ok_chapter _ O _ _ l Hch) as [P _]; [by rewrite F1, <- El, E2|]. lia.
Qed.

(** Whether a command's forward has begun, ever. *)
Definition begun (id : string) (h : Hub) : Prop := is_Some (h_attempts h !! id) ∨ frames_of id h ≠ [].
Lemma not_begun id h : ¬ begun id h → h_attempts h !! id = None ∧ frames_of id h = [].
Proof.
  intros H. split; [|destruct (frames_of id h) eqn:E; [done|]; exfalso; apply H; right; by rewrite E].
  destruct (h_attempts h !! id) eqn:E; [|done]. exfalso. apply H. left. by rewrite E.
Qed.
#[export] Instance begun_dec id h : Decision (begun id h).
Proof. unfold begun. apply or_dec; [apply _|]. destruct (frames_of id h); [right; by intros []|by left]. Defined.
Record all_clear (y : Sys) : Prop := {
  ac_rows : ∀ id c i, ledger (y_db y) !! id = Some c → id_initiator (c_ident c) = Some i → begun id (y_hub y) →
    cleared y i (id_host (c_ident c));
  ac_calls : ∀ n c i, y_calls y !! n = Some c → cl_initiator c = Some i → cleared y i (cl_host c);
  ac_frames : ∀ op host i, (op, host, Some i) ∈ y_op_frames y → stamped (y_auth y) (Some i) ∧ cleared y i host;
}.
Definition same_call (c c' : Call) : Prop := cl_initiator c' = cl_initiator c ∧ cl_host c' = cl_host c.
Definition calls_come (y y' : Sys) : Prop :=
  (∀ n c', y_calls y' !! n = Some c' → (∃ c, y_calls y !! n = Some c ∧ same_call c c') ∨
     (host_refusal (y_db y) (cl_host c') (cl_initiator c') = None)) ∧
  (∀ f, f ∈ y_op_frames y' → f ∈ y_op_frames y ∨ ∃ n c, y_calls y !! n = Some c ∧ f = frame_of c).
Lemma calls_come_same y y' : y_calls y' = y_calls y → y_op_frames y' = y_op_frames y → calls_come y y'.
Proof. intros E1 E2. split; [rewrite E1; intros n c H; left; by exists c|rewrite E2; by left]. Qed.
Lemma calls_come_move n p c y b : y_calls y !! n = Some c → calls_come y (move_call n p c (set_db b y)).
Proof.
  intros Hn. split; [|by left]. cbn. intros k c' [[<- <-]|[_ H]]%lookup_insert_Some; left; [by exists c|by exists c'].
Qed.
Lemma calls_come_end n y b : calls_come y (end_call n (set_db b y)).
Proof. split; [|by left]. cbn. intros k c' [_ H]%lookup_delete_Some. left. by exists c'. Qed.
Lemma calls_come_out n c y : y_calls y !! n = Some c → calls_come y (end_call n (add_op_frame (frame_of c) y)) ∧
  calls_come y (move_call n CReply c (add_op_frame (frame_of c) y)).
Proof.
  intros Hn. assert (∀ f, f ∈ y_op_frames y ++ [frame_of c] → f ∈ y_op_frames y ∨ ∃ n c, y_calls y !! n = Some c ∧ f = frame_of c) as Hf.
  { intros f [H|H%list_elem_of_singleton]%elem_of_app; [by left|right; eauto]. }
  split; (split; [|done]).
  - apply (calls_come_end n y (y_db y)).
  - by apply (calls_come_move n CReply c y (y_db y)).
Qed.
Lemma calls_come_call n s y : calls_come y (call_step n s y).
Proof.
  unfold call_step. destruct (y_calls y !! n) as [c|] eqn:Hc; [|by apply calls_come_same].
  destruct (calls_come_out n c y Hc) as [Ho1 Ho2].
  destruct (cl_phase c), s; unfold on_wire, or_end; repeat case_match; try done;
    first [by apply calls_come_same | by apply calls_come_move | apply calls_come_end | by apply (calls_come_move n _ c y (y_db y))
          | apply (calls_come_end n y (y_db y))].
Qed.
Lemma calls_come_step x y : calls_come y (act_step x y).
Proof.
  act_split x; try by apply calls_come_same.
  - split; [|by left]. cbn. intros k c' [[<- <-]|[_ H']]%lookup_insert_Some; [by right|left; by exists c'].
  - split; [|by left]. cbn. intros k c' [[<- <-]|[_ H']]%lookup_insert_Some; [by right|left; by exists c'].
  - apply calls_come_call.
  - split; [|by left]. intros k c'. cbn. by rewrite lookup_empty.
Qed.
Section step.
Context (insts : gmap string Inst) (xs : list Act) (x : Act).
Let y := act_run xs (start insts).
Hypothesis A : all_clear y.
Let O := reachable_ok insts xs.
Let N := reachable_numbered insts xs.
Let S := reachable_stamped insts xs.
Lemma begins id c i : ledger (y_db y) !! id = Some c → id_initiator (c_ident c) = Some i → ¬ begun id (y_hub y) →
  begun id (y_hub (act_step x y)) → cleared y i (id_host (c_ident c)).
Proof.
  intros Hc Hi [Ha Hf]%not_begun Hb.
  destruct (decide (host_gated (y_db y) (id_host (c_ident c)) ||
    (initiator_is_continuity (y_auth y) (Some i) && negb (host_capable (y_auth y) (id_host (c_ident c)))) = true)) as [Hcl|Hop].
  - exfalso. destruct (run_untouched id (hub_ops x y) (y_hub y) Ha) as [Ha' Hf'].
    { intros ok gate (c' & waits & Hc' & -> & ->)%hub_ops_marks. simplify_eq. unfold closed_mark, cmd_gate. cbn [gate_fence gate_lacks_fence]. rewrite Hi. fold (y_auth y).
      by rewrite <- orb_assoc, Hcl, orb_true_r. }
    rewrite <- hub_step_of in Ha', Hf'. destruct Hb as [[p Hp]|Hn]; congruence.
  - apply not_true_is_false, orb_false_iff in Hop as [H1 H2]. by apply gate_clears.
Qed.
Lemma clear_rows id c i : ledger (y_db (act_step x y)) !! id = Some c → id_initiator (c_ident c) = Some i →
  begun id (y_hub (act_step x y)) → cleared (act_step x y) i (id_host (c_ident c)).
Proof.
  intros Hc Hi Hb. destruct (ledger (y_db y) !! id) as [c0|] eqn:H0.
  - destruct (row_stays_run id (hub_ops x y) (y_hub y) c0 H0) as (d & Hd & E). rewrite <- hub_step_of in Hd.
    unfold ledger in Hc. fold (y_hub (act_step x y)) in Hc. simplify_eq. rewrite E in Hi |- *.
    apply cleared_step; [done|done|rewrite <- Hi; by apply (as_rows _ S id)|].
    destruct (decide (begun id (y_hub y))) as [Hb0|Hb0]; [by eapply ac_rows|by apply (begins id)].
  - exfalso. destruct (fences_refine insts xs) as [ops Hops]. fold y in Hops.
    pose proof (good_none _ (hub_good insts id ops)) as G. rewrite <- Hops in G. destruct (G H0) as [Ha Hf]. cbn in Ha, Hf.
    destruct (run_untouched id (hub_ops x y) (y_hub y) Ha) as [Ha' Hf'].
    { intros ok gate (c' & waits & Hc' & _)%hub_ops_marks. congruence. }
    rewrite <- hub_step_of in Ha', Hf'. destruct Hb as [[p Hp]|Hn]; congruence.
Qed.
Lemma clear_calls n c i : y_calls (act_step x y) !! n = Some c → cl_initiator c = Some i → cleared (act_step x y) i (cl_host c).
Proof.
  intros Hc Hi. assert (stamped (y_auth y) (Some i)) as Hs.
  { destruct (calls_from x y n c Hc) as [(c0 & H0 & E)|H]; [|by rewrite <- Hi]. rewrite <- Hi, <- E. by apply (as_calls _ S n). }
  apply cleared_step; [done..|]. destruct (proj1 (calls_come_step x y) n c Hc) as [(c0 & H0 & E1 & E2)|Hr].
  - rewrite E2. apply (ac_calls _ A n c0); congruence.
  - rewrite Hi in Hr. unfold host_refusal in Hr. fold (y_auth y) in Hr. destruct (host_gated _ _) eqn:Hg; [done|].
    destruct (_ && _) eqn:Hl; [done|]. by apply gate_clears.
Qed.
Lemma clear_frames op host i : (op, host, Some i) ∈ y_op_frames (act_step x y) →
  stamped (y_auth (act_step x y)) (Some i) ∧ cleared (act_step x y) i host.
Proof.
  intros H. assert (stamped (y_auth y) (Some i) ∧ cleared y i host) as [Hs Hc].
  { destruct (proj2 (calls_come_step x y) _ H) as [H0|(n & c & Hn & E)]; [by eapply ac_frames|].
    injection E as _ -> Hi. split; [rewrite Hi; by apply (as_calls _ S n)|by apply (ac_calls _ A n c)]. }
  split; [eapply stamp_le, Hs; apply step_le|by apply cleared_step].
Qed.
End step.
Lemma reachable_clear insts xs : all_clear (act_run xs (start insts)).
Proof.
  induction xs as [|x xs IH] using rev_ind.
  { split; [intros ???; cbn; by rewrite lookup_empty|intros ???; cbn; by rewrite lookup_empty|by intros ??? ?%not_elem_of_nil]. }
  unfold act_run. rewrite foldl_app. split; [intros ???; by apply clear_rows|intros ???; by apply clear_calls|intros ???; by apply clear_frames].
Qed.

(** ** Every host of a lineage owes its fences *)

Lemma chapter_from_move a a' i ch' : auth_move a a' → a_chapters a' !! i = Some ch' →
  (∃ j ch, a_chapters a !! j = Some ch ∧ ch_lineage ch = ch_lineage ch' ∧ ch_host ch = ch_host ch') ∨
  a_chapters a !! ch_lineage ch' = None.
Proof.
  assert (∀ j, a_chapters (fence_chapter j a) !! i = Some ch' →
    ∃ k ch, a_chapters a !! k = Some ch ∧ ch_lineage ch = ch_lineage ch' ∧ ch_host ch = ch_host ch') as Hf.
  { intros j. rewrite fence_chapter_lookup. intros (c & Hc & ->)%fmap_Some. exists i, c. by case_decide. }
  intros [id host continuity Hh Hc Hl|inst up|m|host capable|lin l ch by_ close Hl Hc|lin l ch s Hl Hc Hs Hn Hcl
    |lin l ch s Hl Hc Hs Hn Hcl].
  - cbn zeta. assert (a_chapters (if continuity then set_lineages (<[id:=mkLineage id 1 LStarting None]> (a_lineages (add_chapter id (mkChapter host id 1 false) a)))
      (add_chapter id (mkChapter host id 1 false) a) else add_chapter id (mkChapter host id 1 false) a) = <[id := mkChapter host id 1 false]> (a_chapters a)) as -> by by destruct continuity.
    intros [[<- <-]|[_ H]]%lookup_insert_Some; [by right|]. left. by exists i, ch'.
  - intros H. left. by exists i, ch'.
  - intros H. left. by exists i, ch'.
  - intros H. left. by exists i, ch'.
  - intros H. left. by apply (Hf (ln_current l)).
  - unfold add_chapter. cbn [a_chapters set_chapters].
    intros [[<- <-]|[_ H]]%lookup_insert_Some; left; [by exists (ln_current l), ch|by apply (Hf (ln_current l))].
  - unfold add_chapter. cbn [a_chapters set_chapters].
    intros [[<- <-]|[_ H]]%lookup_insert_Some; left; [by exists (ln_current l), ch|by apply (Hf (ln_current l))].
Qed.
Definition owed (y : Sys) : Prop := ∀ fe i ch, fe ∈ y_fences y → a_chapters (y_auth y) !! i = Some ch →
  ch_lineage ch = fe_lineage fe → is_Some (y_deliveries y !! (fe_id fe, ch_host ch)).
Lemma lineage_has_root a lin l : auth_ok a → a_lineages a !! lin = Some l → is_Some (a_chapters a !! lin).
Proof.
  intros O Hl. destruct (ok_current _ O _ _ Hl) as (_ & ch & Hch & <-). destruct (ok_root _ O _ _ Hch) as (r & -> & _). eauto.
Qed.
Lemma owed_step x y : auth_ok (y_auth y) → numbered y → owed y → owed (act_step x y).
Proof.
  intros O N W fe i ch' Hfe Hch El.
  assert ((∃ j ch, a_chapters (y_auth y) !! j = Some ch ∧ ch_lineage ch = ch_lineage ch' ∧ ch_host ch = ch_host ch') ∨
    a_chapters (y_auth y) !! ch_lineage ch' = None) as Hfrom.
  { destruct (act_auth x y) as [E|M]; [left; exists i, ch'; by rewrite <- E|by eapply chapter_from_move]. }
  assert (∀ l, a_lineages (y_auth y) !! fe_lineage fe = Some l →
    ∃ j ch, a_chapters (y_auth y) !! j = Some ch ∧ ch_lineage ch = fe_lineage fe ∧ ch_host ch = ch_host ch') as Hold.
  { intros l Hl. destruct Hfrom as [(j & ch & ? & ? & ?)|Hn]; [exists j, ch; split_and!; congruence|].
    destruct (lineage_has_root _ _ _ O Hl). congruence. }
  assert (∀ fe', fe' ∈ y_fences y → fe_id fe' = fe_id fe → fe_lineage fe' = fe_lineage fe → is_Some (y_deliveries y !! (fe_id fe, ch_host ch'))) as Hprev.
  { intros fe' H' E1 E2. destruct (fence_live_bound y fe' N H') as (l & Hl & _). rewrite E2 in Hl.
    destruct (Hold l Hl) as (j & ch & Hj & Hjl & <-). rewrite <- E1. apply (W fe' j ch); congruence. }
  destruct (commits x y) as [core|] eqn:Hx; cycle 1.
  { destruct (fences_same x y Hx) as [E Ed]. rewrite E in Hfe. destruct (Ed (fe_id fe, ch_host ch')) as [->|[_ ->]]; [by apply (Hprev fe)|done]. }
  destruct (commits_fences x y core Hx) as [(l & Hl & Elive & Ef & ->)|(l & Hl & Elive & Hfresh & Ef & ->)].
  - destruct (refs_elem y fe) as (fe' & H' & E); [unfold refs; rewrite <- Ef; by apply list_elem_of_fmap_2|]. injection E as E1 E2 _ _.
    by apply (Hprev fe').
  - assert (fence_ref fe ∈ fence_ref <$> y_fences (act_step x y)) as Hr by by apply list_elem_of_fmap_2. rewrite Ef in Hr.
    rewrite deliver_to_lookup. apply elem_of_app in Hr as [Hr|Hr%list_elem_of_singleton].
    + destruct (refs_elem y fe Hr) as (fe' & H' & E). injection E as E1 E2 _ _. by destruct (Hprev fe' H' E1 E2) as [v ->].
    + injection Hr as E1 E2 _ _. destruct (y_deliveries y !! _); [done|]. cbn. rewrite E1, bool_decide_true by done.
      rewrite <- E2 in Hl. destruct (Hold l Hl) as (j & ch & Hj & _ & <-).
      rewrite bool_decide_true; [done|]. apply known_hosts_elem. by apply (ok_host _ O _ _ Hj).
Qed.
Lemma reachable_owed insts xs : owed (act_run xs (start insts)).
Proof.
  induction xs as [|x xs IH] using rev_ind; [by intros ??? ?%not_elem_of_nil|].
  unfold act_run. rewrite foldl_app. apply owed_step; [apply reachable_ok|apply reachable_numbered|apply IH].
Qed.
Lemma cleared_acked y fe i ch : owed y → cleared y i (ch_host ch) → fe ∈ y_fences y → fe_lineage fe = hi_lineage i → fe_live fe ≤ hi_generation i →
  a_chapters (y_auth y) !! hi_instance i = Some ch → stamped (y_auth y) (Some i) → y_deliveries y !! (fe_id fe, ch_host ch) = Some true.
Proof.
  intros W Hc Hfe El Hg Hch Hs. assert (ch_lineage ch = hi_lineage i) as E.
  { unfold stamped, stamp_of in Hs. rewrite Hch in Hs. injection Hs as Hs. by rewrite <- Hs. }
  destruct (W fe _ ch Hfe Hch) as [v Hv]; [congruence|]. pose proof (Hc fe Hfe El Hg). by destruct v.
Qed.
(** C4. No frame of a chapter leaves for its host before the host acknowledged
    every fence of the lineage up to the chapter's generation: when a command
    or a direct operation of the chapter has a frame, each of those fences is
    acknowledged there.  In particular a successor's create follows the
    acknowledgement of the fence that made it the successor. *)
Theorem frames_follow_the_acknowledgement insts xs i ch fe :
  let y := act_run xs (start insts) in
  stamped (y_auth y) (Some i) → a_chapters (y_auth y) !! hi_instance i = Some ch →
  fe ∈ y_fences y → fe_lineage fe = hi_lineage i → fe_live fe ≤ hi_generation i →
  (∃ id c, ledger (y_db y) !! id = Some c ∧ id_initiator (c_ident c) = Some i ∧ id_host (c_ident c) = ch_host ch ∧
     frames_of id (y_hub y) ≠ []) ∨
  (∃ op, (op, ch_host ch, Some i) ∈ y_op_frames y) →
  y_deliveries y !! (fe_id fe, ch_host ch) = Some true.
Proof.
  intros y Hs Hch Hfe El Hg Hf. pose proof (reachable_clear insts xs) as A. fold y in A.
  assert (cleared y i (ch_host ch)) as Hc.
  { destruct Hf as [(id & c & Hr & Hi & <- & Hn)|(op & Ho)]; [apply (ac_rows _ A id c i Hr Hi); by right|by eapply ac_frames]. }
  by eapply cleared_acked; [apply reachable_owed|..].
Qed.
