(* ===== verification/FenceWorld.v ===== *)
(** * The Hub and the Nodes it fences

    What the Hub relies on when a host acknowledges a fence, as an interface,
    and the two sides run together: a fence frame is applied by the Node of the
    host, its acknowledgement comes back or is lost, frames are repeated, Nodes
    and the Hub restart.  Nothing but the frames relates the two. *)
From stdpp Require Import base list gmap strings numbers sorting relations.
From S2P Require Import Prelude Json GateQueue HubCommands HubEdit HubLedger HubQueue FenceHub FenceSteps FenceLedger FenceAuth FenceSafety FenceRecords FenceDelivery.
Local Open Scope Z_scope.

(** ** The interface of a Node *)

(** A Node keeps a received fence, applies it and answers with the outcomes of
    the operations it fenced, does work of its own, and refuses initiators.
    [fn_good names] is its invariant where [names] says which lineage and
    generation each fence id stands for. *)
Class FencingNode (N : Type) : Type := {
  fn_event : Type;
  fn_fresh : N;
  fn_receive : string → string → Z → N → N;
  fn_apply : string → string → string → Z → N → N * option (list (string * AckOutcome));
  fn_step : fn_event → N → N;
  fn_refuses : N → string → Z → bool;
  fn_good : (string → string * Z) → N → Prop;
  fn_good_fresh : ∀ names, fn_good names fn_fresh;
  fn_good_receive : ∀ names fid lin live n, names fid = (lin, live) → 0 ≤ live → fn_good names n →
    fn_good names (fn_receive fid lin live n);
  fn_good_apply : ∀ names now fid lin live n, names fid = (lin, live) → 0 ≤ live → fn_good names n →
    fn_good names (fn_apply now fid lin live n).1;
  fn_good_step : ∀ names e n, fn_good names n → fn_good names (fn_step e n);
  fn_receive_keeps : ∀ names fid lin live n lin' g, names fid = (lin, live) → 0 ≤ live → fn_good names n →
    g < i64_max → fn_refuses n lin' g = true → fn_refuses (fn_receive fid lin live n) lin' g = true;
  fn_apply_keeps : ∀ names now fid lin live n lin' g, names fid = (lin, live) → 0 ≤ live → fn_good names n →
    g < i64_max → fn_refuses n lin' g = true → fn_refuses (fn_apply now fid lin live n).1 lin' g = true;
  fn_step_keeps : ∀ names e n lin g, fn_good names n → g < i64_max →
    fn_refuses n lin g = true → fn_refuses (fn_step e n) lin g = true;
  fn_apply_refuses : ∀ now fid lin live n g, is_Some (fn_apply now fid lin live n).2 → 0 ≤ g < live →
    fn_refuses (fn_apply now fid lin live n).1 lin g = true;
}.

(** ** The two sides together *)

Section World.
Context {N : Type} `{FN : FencingNode N}.

Record World : Type := mkWorld { wd_hub : Sys; wd_nodes : gmap string N }.
Definition node_of (host : string) (w : World) : N := default fn_fresh (wd_nodes w !! host).
Definition put_node (host : string) (n : N) (w : World) : World := mkWorld (wd_hub w) (<[host := n]> (wd_nodes w)).
Definition hub_does (x : Act) (w : World) : World := mkWorld (act_step x (wd_hub w)) (wd_nodes w).

(** [EHub] is any step of the Hub but the receipt of an acknowledgement, which
    only [EAnswer] brings; [EFrame] is a fence frame that a Node has kept, now or
    again; [EAnswer] is the fence a delivery is at, applied, its answer [heard]
    or lost. *)
Inductive Event : Type :=
| EHub (x : Act)
| EFrame (host fid : string)
| EAnswer (host now : string) (heard : bool)
| ENode (host : string) (e : fn_event).
Definition is_ack (x : Act) : bool := match x with AAck _ (Some _) => true | _ => false end.
Definition fence_named (fid : string) (y : Sys) : option Fence :=
  find_first (λ fe, bool_decide (fe_id fe = fid)) (y_fences y).
Definition at_fence (host : string) (y : Sys) : option Fence :=
  match y_delivering y !! host with Some (DelFences (fe :: _) _) => Some fe | _ => None end.
Definition world_step (e : Event) (w : World) : World :=
  match e with
  | EHub x => if is_ack x then w else hub_does x w
  | EFrame host fid =>
      match fence_named fid (wd_hub w) with
      | Some fe => put_node host (fn_receive fid (fe_lineage fe) (fe_live fe) (node_of host w)) w
      | None => w
      end
  | EAnswer host now heard =>
      match at_fence host (wd_hub w) with
      | Some fe =>
          let '(n, r) := fn_apply now (fe_id fe) (fe_lineage fe) (fe_live fe) (node_of host w) in
          let w := put_node host n w in
          if heard then hub_does (AAck host r) w else w
      | None => w
      end
  | ENode host e => put_node host (fn_step e (node_of host w)) w
  end.
Definition world_run (es : list Event) (w : World) : World := foldl (λ w e, world_step e w) w es.
Definition world_start (insts : gmap string Inst) : World := mkWorld (start insts) ∅.
End World.
Arguments World N : clear implicits.
Arguments Event N {FN} : rename.

(** ** What the Hub does to its deliveries *)

Lemma deliveries_same x y : commits x y = None → is_ack x = false → y_deliveries (act_step x y) = y_deliveries y.
Proof.
  intros Hx Ha. act_split x; try done.
  - cbn [commits] in Hx. repeat case_match; simplify_eq.
  - cbn [commits] in Hx. repeat case_match; simplify_eq.
  - apply call_fences.
  - unfold cancel_fenced_attempt. by repeat case_match.
  - unfold cancel_fenced_attempt. by repeat case_match.
  - unfold job_phase. by repeat case_match.
Qed.
Lemma ack_deliveries host outcomes y : y_deliveries (act_step (AAck host (Some outcomes)) y) =
  match at_fence host y with Some fe => alter (λ _, true) (fe_id fe, host) (y_deliveries y) | None => y_deliveries y end.
Proof.
  cbn [act_step]. unfold deliver_one, at_fence. destruct (y_delivering y !! host) as [[[|fe todo] follow|todo]|]; [done| |done|done].
  done.
Qed.
Lemma refs_grow x y r : r ∈ refs y → r ∈ refs (act_step x y).
Proof.
  intros H. unfold refs. destruct (commits x y) as [core|] eqn:Hx; [|by rewrite (proj1 (fences_same x y Hx))].
  destruct (commits_fences x y core Hx) as [(l & _ & _ & -> & _)|(l & _ & _ & _ & -> & _)]; [done|]. apply elem_of_app. by left.
Qed.
(** Every delivery is of a fence, and so is every fence still to deliver. *)
Record deliveries_ok (y : Sys) : Prop := {
  do_rows : ∀ k v, y_deliveries y !! k = Some v → k.1 ∈ fe_id <$> y_fences y;
  do_todo : ∀ host todo follow fe, y_delivering y !! host = Some (DelFences todo follow) → fe ∈ todo → fence_ref fe ∈ refs y;
}.
Lemma refs_id r y : r ∈ refs y → r.1.1.1 ∈ fe_id <$> y_fences y.
Proof. intros (fe & -> & H)%list_elem_of_fmap. cbn. by apply list_elem_of_fmap_2. Qed.
Lemma id_refs fid y : fid ∈ fe_id <$> y_fences y → ∃ r, r ∈ refs y ∧ r.1.1.1 = fid.
Proof. intros (fe & -> & H)%list_elem_of_fmap. exists (fence_ref fe). split; [by apply list_elem_of_fmap_2|done]. Qed.
Lemma rows_step x y k v : deliveries_ok y → y_deliveries (act_step x y) !! k = Some v → k.1 ∈ fe_id <$> y_fences (act_step x y).
Proof.
  intros [D _]. assert (k.1 ∈ fe_id <$> y_fences y → k.1 ∈ fe_id <$> y_fences (act_step x y)) as Hg.
  { intros (r & Hr & <-)%id_refs. by apply refs_id, refs_grow. }
  destruct (commits x y) as [core|] eqn:Hx.
  - destruct (commits_fences x y core Hx) as [(l & _ & _ & _ & ->)|(l & _ & _ & _ & Ef & ->)]; [by intros ?%D%Hg|].
    rewrite deliver_to_lookup. destruct (y_deliveries y !! k) eqn:E; [intros _; by eapply Hg, D|].
    destruct (bool_decide (k.1 = _)) eqn:Ek; [|done]. intros _. apply bool_decide_eq_true in Ek as ->.
    apply (refs_id (fc_fence core, fc_lineage core, ln_generation l, ln_generation l + 1)). unfold refs. rewrite Ef.
    apply elem_of_app. right. by apply list_elem_of_singleton.
  - destruct (fences_same x y Hx) as [_ Hs]. destruct (Hs k) as [->|[[v' H] _]]; [by intros ?%D%Hg|intros _; by eapply Hg, D].
Qed.
Lemma todo_step x y host todo follow fe : deliveries_ok y →
  y_delivering (act_step x y) !! host = Some (DelFences todo follow) → fe ∈ todo → fence_ref fe ∈ refs (act_step x y).
Proof.
  intros [_ D] Hd Hfe. apply refs_grow. revert Hd.
  assert (y_delivering y !! host = Some (DelFences todo follow) → fence_ref fe ∈ refs y) as Hold by (intros E; by eapply D).
  act_split x; try exact Hold; cbn [y_delivering set_delivering set_db set_held];
    try (intros [[<- Enew]|[_ E]]%lookup_insert_Some; [simplify_eq|by apply Hold]);
    try (intros [_ E]%lookup_delete_Some; by apply Hold).
  - unfold call_step, on_wire, or_end. repeat case_match; exact Hold.
  - apply list_elem_of_fmap_2. by apply retain_elem in Hfe as [? _].
  - eapply D; [eassumption|by right].
  - cbn. by rewrite lookup_empty.
Qed.
Lemma reachable_deliveries insts xs : deliveries_ok (act_run xs (start insts)).
Proof.
  induction xs as [|x xs IH] using rev_ind; [split; [intros ??|intros ????]; cbn; by rewrite lookup_empty|].
  unfold act_run. rewrite foldl_app. split; [intros ??; by apply rows_step|intros ????; by apply todo_step].
Qed.

(** ** What an acknowledgement is worth *)

(** [names] tells what the Hub's fence ids stand for. *)
Definition agrees (names : string → string * Z) (y : Sys) : Prop :=
  ∀ r, r ∈ refs y → names r.1.1.1 = (r.1.1.2, r.2).
Definition names_of (y : Sys) (fid : string) : string * Z :=
  match fence_named fid y with Some fe => (fe_lineage fe, fe_live fe) | None => (""%string, 0) end.
Lemma find_first_some {A} (p : A → bool) (l : list A) x : find_first p l = Some x → x ∈ l ∧ p x = true.
Proof.
  induction l as [|z l IH]; [done|]. cbn. destruct (p z) eqn:E; [intros [= <-]; split; [left|done]|].
  intros [H1 H2]%IH. split; [by right|done].
Qed.
Lemma find_first_id fid (l : list Fence) fe : NoDup (fe_id <$> l) → fe ∈ l → fe_id fe = fid →
  find_first (λ x, bool_decide (fe_id x = fid)) l = Some fe.
Proof.
  induction l as [|z l IH]; [by intros _ ?%not_elem_of_nil|]. rewrite fmap_cons. intros [Hz Hn]%list.NoDup_cons H <-. cbn.
  apply elem_of_cons in H as [->|H]; [by rewrite bool_decide_true|]. rewrite bool_decide_false; [by apply IH|].
  intros E. apply Hz. rewrite E. by apply list_elem_of_fmap_2.
Qed.
Lemma names_agree y : numbered y → agrees (names_of y) y.
Proof.
  intros N r (fe & -> & Hfe)%list_elem_of_fmap. cbn. unfold names_of, fence_named.
  by rewrite (find_first_id (fe_id fe) _ fe (nb_ids _ N) Hfe).
Qed.
Lemma agrees_back names x y : agrees names (act_step x y) → agrees names y.
Proof. intros A r Hr. by apply A, refs_grow. Qed.

Section Acknowledged.
Context {N : Type} `{FN : FencingNode N}.
Implicit Types w : World N.

(** The Nodes are sound, and a host that acknowledged a fence refuses what the
    fence fenced. *)
Definition acked (w : World N) : Prop := ∀ fe host g, fe ∈ y_fences (wd_hub w) →
  y_deliveries (wd_hub w) !! (fe_id fe, host) = Some true → 0 ≤ g < fe_live fe → g < i64_max →
  fn_refuses (node_of host w) (fe_lineage fe) g = true.
Definition sound (w : World N) : Prop := ∀ names, agrees names (wd_hub w) →
  (∀ host, fn_good names (node_of host w)) ∧ acked w.
Record world_ok (insts : gmap string Inst) (w : World N) : Prop := {
  wo_hub : ∃ xs, wd_hub w = act_run xs (start insts);
  wo_sound : sound w;
}.
Lemma node_put host n w host' : node_of host' (put_node host n w) = if decide (host = host') then n else node_of host' w.
Proof. unfold node_of, put_node. cbn. case_decide; subst; [by rewrite lookup_insert_eq|by rewrite lookup_insert_ne]. Qed.
(** A Node that keeps its invariant and its refusals keeps the world sound. *)
Lemma put_sound host n w : sound w →
  (∀ names, agrees names (wd_hub w) → fn_good names (node_of host w) → fn_good names n ∧
     ∀ lin g, g < i64_max → fn_refuses (node_of host w) lin g = true → fn_refuses n lin g = true) →
  (∃ names, agrees names (wd_hub w)) → sound (put_node host n w).
Proof.
  intros S Hn [names0 A0] names A. destruct (S names A) as [Hg Hk]. destruct (Hn names A (Hg host)) as [Hn1 Hn2]. split.
  - intros host'. rewrite node_put. by case_decide.
  - intros fe host' g Hfe Hd Hlt Hi. rewrite node_put. pose proof (Hk fe host' g Hfe Hd Hlt Hi). case_decide; subst; auto.
Qed.
(** A step of the Hub acknowledges nothing by itself. *)
Lemma hub_sound insts xs x w : wd_hub w = act_run xs (start insts) → is_ack x = false → sound w → sound (hub_does x w).
Proof.
  intros E Hx S names A. destruct (S names (agrees_back _ _ _ A)) as [Hg Hk]. split; [done|].
  pose proof (reachable_deliveries insts xs) as [D _]. rewrite <- E in D. set (y := wd_hub w) in *.
  intros fe host g Hfe Hd Hlt Hi. assert (y_deliveries y !! (fe_id fe, host) = Some true) as Hd0.
  { revert Hd. change (wd_hub (hub_does x w)) with (act_step x y). destruct (commits x y) as [core|] eqn:Hc; [|by rewrite deliveries_same].
    destruct (commits_fences x y core Hc) as [(l & _ & _ & _ & ->)|(l & _ & _ & _ & _ & ->)]; [done|].
    rewrite deliver_to_lookup. destruct (y_deliveries y !! _); [done|]. by destruct (_ && _). }
  destruct (id_refs _ _ (D _ _ Hd0)) as (r & Hr & Er). cbn in Er.
  pose proof (A r (refs_grow _ _ _ Hr)) as E1. pose proof (A (fence_ref fe) ltac:(by apply list_elem_of_fmap_2)) as E2.
  cbn in E2. rewrite Er, E2 in E1. injection E1 as E3 E4. apply list_elem_of_fmap in Hr as (fe0 & -> & H0). cbn in *.
  rewrite E3. apply (Hk fe0 host g H0); [by rewrite Er|lia|done].
Qed.
(** A heard acknowledgement is one the Node gave after it applied the fence. *)
Lemma ack_sound host outcomes fe w : sound w → at_fence host (wd_hub w) = Some fe → fence_ref fe ∈ refs (wd_hub w) →
  (∀ g, 0 ≤ g < fe_live fe → g < i64_max → fn_refuses (node_of host w) (fe_lineage fe) g = true) →
  sound (hub_does (AAck host (Some outcomes)) w).
Proof.
  intros S Ha Hr Hn names A. set (y := wd_hub w) in *. destruct (S names (agrees_back _ _ _ A)) as [Hg Hk]. split; [done|].
  destruct (fences_same (AAck host (Some outcomes)) y eq_refl) as [Ef _].
  intros fe' host' g. change (wd_hub (hub_does (AAck host (Some outcomes)) w)) with (act_step (AAck host (Some outcomes)) y).
  rewrite Ef, ack_deliveries, Ha. intros Hfe' Hd Hlt Hi.
  destruct (decide ((fe_id fe, host) = (fe_id fe', host'))) as [Eq|Hne].
  - injection Eq as Eid <-. pose proof (agrees_back _ _ _ A) as A0.
    pose proof (A0 _ Hr) as E1. pose proof (A0 (fence_ref fe') ltac:(by apply list_elem_of_fmap_2)) as E2. cbn in E1, E2.
    rewrite Eid, E2 in E1. injection E1 as E3 E4. rewrite E3. apply Hn; [|done]. by rewrite <- E4.
  - rewrite lookup_alter_ne in Hd by done. by apply Hk.
Qed.
Lemma world_step_ok insts e w : world_ok insts w → world_ok insts (world_step e w).
Proof.
  intros [[xs E] S]. assert (∃ names, agrees names (wd_hub w)) as Hex.
  { exists (names_of (wd_hub w)). rewrite E. apply names_agree, reachable_numbered. }
  pose proof (reachable_deliveries insts xs) as [_ T]. rewrite <- E in T.
  pose proof (reachable_numbered insts xs) as Nb. rewrite <- E in Nb.
  assert (∀ x, ∃ xs', act_step x (wd_hub w) = act_run xs' (start insts)) as Hrun.
  { intros x. exists (xs ++ [x]). unfold act_run. rewrite foldl_app. cbn [foldl]. by rewrite E. }
  assert (∀ fe, fence_ref fe ∈ refs (wd_hub w) → ∀ names, agrees names (wd_hub w) →
    names (fe_id fe) = (fe_lineage fe, fe_live fe) ∧ 0 ≤ fe_live fe) as Hname.
  { intros fe Hr names A. split; [exact (A _ Hr)|]. apply list_elem_of_fmap in Hr as (fe0 & E0 & H0).
    destruct (fence_live_bound _ fe0 Nb H0) as (l0 & Hl0 & ?). injection E0 as _ _ _ E0. lia. }
  destruct e as [x|host fid|host now heard|host e]; cbn [world_step].
  - destruct (is_ack x) eqn:Hx; [by split; [exists xs|]|]. split; [apply Hrun|by eapply hub_sound].
  - destruct (fence_named fid (wd_hub w)) as [fe|] eqn:Hf; [|by split; [exists xs|]].
    destruct (find_first_some _ _ _ Hf) as [Hfe <-%bool_decide_eq_true].
    split; [by exists xs|]. apply put_sound; [done| |done]. intros names A G.
    destruct (Hname fe (list_elem_of_fmap_2 fence_ref _ _ Hfe) names A) as [Hn H0].
    split; [by apply fn_good_receive|]. intros lin g. by apply (fn_receive_keeps names).
  - destruct (at_fence host (wd_hub w)) as [fe|] eqn:Hf; [|by split; [exists xs|]].
    assert (fence_ref fe ∈ refs (wd_hub w)) as Hr.
    { unfold at_fence in Hf. repeat case_match; simplify_eq. by eapply T; [eassumption|left]. }
    destruct (fn_apply now (fe_id fe) (fe_lineage fe) (fe_live fe) (node_of host w)) as [n r] eqn:Ha.
    assert (sound (put_node host n w)) as Sn.
    { apply put_sound; [done| |done]. intros names A G. destruct (Hname fe Hr names A) as [Hn H0].
      assert (n = (fn_apply now (fe_id fe) (fe_lineage fe) (fe_live fe) (node_of host w)).1) as -> by by rewrite Ha.
      split; [by apply fn_good_apply|]. intros lin g. by apply (fn_apply_keeps names). }
    destruct heard; [|by split; [exists xs|]]. split; [apply Hrun|]. destruct r as [outcomes|]; [|by eapply (hub_sound insts xs)].
    apply (ack_sound _ _ fe); [done..|]. intros g Hg _. rewrite node_put, decide_True by done.
    assert (n = (fn_apply now (fe_id fe) (fe_lineage fe) (fe_live fe) (node_of host w)).1) as -> by by rewrite Ha.
    apply fn_apply_refuses; [rewrite Ha; by eexists|done].
  - split; [by exists xs|]. apply put_sound; [done| |done]. intros names A G. split; [by apply fn_good_step|].
    intros lin g. by apply (fn_step_keeps names).
Qed.
Lemma world_run_ok insts es : world_ok insts (world_run es (world_start insts : World N)).
Proof.
  induction es as [|e es IH] using rev_ind.
  - split; [by exists []|]. intros names A. split; [|by intros ??? ?%not_elem_of_nil].
    intros host. unfold node_of. cbn. rewrite lookup_empty. apply fn_good_fresh.
  - unfold world_run. rewrite foldl_app. by apply world_step_ok.
Qed.
(** A chapter that has left a frame at its host. *)
Definition acts_there (y : Sys) (i : HubInitiator) (host : string) : Prop :=
  (∃ id c, ledger (y_db y) !! id = Some c ∧ id_initiator (c_ident c) = Some i ∧ id_host (c_ident c) = host ∧
     frames_of id (y_hub y) ≠ []) ∨
  (∃ op, (op, host, Some i) ∈ y_op_frames y).
(** The fence that made the generation live. *)
Lemma fence_of_generation y lin l g : numbered y → a_lineages (y_auth y) !! lin = Some l → 2 ≤ g ≤ ln_generation l →
  ∃ fe, fe ∈ y_fences y ∧ fe_lineage fe = lin ∧ fe_live fe = g.
Proof.
  intros Nb Hl Hg. assert (g ∈ lives lin y) as H by (rewrite (nb_lives _ Nb _ _ Hl); apply elem_of_seqZ; lia).
  apply list_elem_of_fmap in H as (r & -> & [Hr Eb%bool_decide_eq_true]%retain_elem).
  apply list_elem_of_fmap in Hr as (fe & -> & Hfe). by exists fe.
Qed.
(** Where a chapter of a continuity lineage has left a frame, the Node refuses
    every older generation of the lineage. *)
Lemma past_refused insts es i ch l g :
  let w : World N := world_run es (world_start insts) in let y := wd_hub w in
  stamped (y_auth y) (Some i) → a_chapters (y_auth y) !! hi_instance i = Some ch →
  a_lineages (y_auth y) !! hi_lineage i = Some l → acts_there y i (ch_host ch) →
  1 ≤ g < hi_generation i → g < i64_max →
  fn_refuses (node_of (ch_host ch) w) (hi_lineage i) g = true.
Proof.
  intros w y Hs Hch Hl Hf Hg Hi. destruct (world_run_ok insts es) as [[xs E] S]. fold w in E, S. fold y in E.
  pose proof (reachable_clear insts xs) as A. pose proof (reachable_numbered insts xs) as Nb.
  pose proof (reachable_owed insts xs) as W. pose proof (reachable_ok insts xs) as O. rewrite <- E in A, Nb, W, O.
  assert (cleared y i (ch_host ch)) as Hc.
  { destruct Hf as [(id & c & Hr & Hini & <- & Hn)|(op & Ho)]; [apply (ac_rows _ A id c i Hr Hini); by right|by eapply ac_frames]. }
  assert (ch_lineage ch = hi_lineage i ∧ ch_generation ch = hi_generation i) as [E1 E2].
  { unfold stamped, stamp_of in Hs. rewrite Hch in Hs. injection Hs as Hs. by rewrite <- Hs. }
  destruct (ok_chapter _ O _ _ l Hch) as [Hle _]; [by rewrite E1|].
  destruct (fence_of_generation y (hi_lineage i) l (hi_generation i) Nb Hl) as (fe & Hfe & El & Eg); [lia|].
  rewrite <- El. destruct (S _ (names_agree _ Nb)) as [_ K]. apply K; [done| |lia|done].
  by apply (cleared_acked y fe i ch); [..|lia| |].
Qed.
End Acknowledged.
