(* ===== verification/FenceNode.v ===== *)
(** * The Node as the Hub sees it

    The Node of [NodeFence] (its command ledger, its fence table and the
    database behind it) is an instance of the interface the Hub's fences rely
    on, so what holds of the Hub with any such Node holds of the Hub with this
    one. *)
From stdpp Require Import base list gmap strings numbers.
From S2P Require Import Prelude Json HubCommands HubEdit HubLedger HubQueue FenceHub FenceSteps FenceLedger FenceAuth FenceWorld NodeStore NodeFence.
Local Open Scope Z_scope.

(** The report of a Node, as the Hub reads it. *)
Definition ack_outcome (o : FenceOutcome) : AckOutcome :=
  match o with
  | FenceCancelled => AckCancelled
  | FenceRan => AckRan
  | FenceRefused => AckRefused
  | FenceUnknown => AckUnknown
  end.
Definition acknowledge (r : result (list FenceOpOutcome * list string) NodeError) : option (list (string * AckOutcome)) :=
  match r with Ok (os, _) => Some ((λ o, (fo_op_id o, ack_outcome (fo_outcome o))) <$> os) | Err _ => None end.

(** Whether the fence table refuses a generation of a lineage. *)
Definition stamp (lin : string) (g : Z) : Initiator := mkInitiator EmptyString lin g None.
Definition refuses (n : NodeState) (lin : string) (g : Z) : bool := table_is_fenced (table (n_fences n)) (stamp lin g).
Lemma refuses_fenced n ini : refuses n (ini_lineage_id ini) (ini_generation ini) = table_is_fenced (table (n_fences n)) ini.
Proof. done. Qed.

(** ** Fences are written by fences only *)

(** A computation of the Node that leaves the fence table alone. *)
Definition keeps_fences {A} (c : st NodeState NodeError A) : Prop := ∀ n, n_fences (c n).1 = n_fences n.
Lemma fences_ret {A} (a : A) : keeps_fences (mret a).
Proof. done. Qed.
Lemma fences_fail {A} e : keeps_fences (st_fail e : st NodeState NodeError A).
Proof. done. Qed.
Lemma fences_get : keeps_fences st_get.
Proof. done. Qed.
Lemma fences_bind {A B} (c : st NodeState NodeError A) (k : A → st NodeState NodeError B) :
  keeps_fences c → (∀ a, keeps_fences (k a)) → keeps_fences (c ≫= k).
Proof.
  intros Hc Hk n. rewrite st_bind_eq. specialize (Hc n). destruct (c n) as [n1 [a|e]]; cbn in *; [|done].
  by rewrite Hk.
Qed.
Lemma fences_store {A} (c : st MemoryState NodeError A) : keeps_fences (on_store c).
Proof. intros n. apply on_store_commands. Qed.
Create HintDb node_fences.
#[local] Hint Resolve fences_ret fences_fail fences_get fences_bind fences_store : node_fences.
Ltac keeps := repeat first [progress intros | case_match | done | apply fences_bind | progress eauto with node_fences].
Lemma fences_refuse ini : keeps_fences (on_fences (refuse_fenced ini)).
Proof.
  intros n. unfold on_fences, st_zoom, refuse_fenced, is_fenced. rewrite st_bind_eq.
  destruct ini as [i|]; [|by destruct n]. rewrite st_bind_eq. cbn. by destruct (table_is_fenced _ _), n.
Qed.
Lemma fences_fence_command now lin g c : keeps_fences (fence_command now lin g c).
Proof. unfold fence_command. keeps. Qed.
Lemma fences_fence_commands now lin g cs : keeps_fences (fence_commands now lin g cs).
Proof. induction cs; cbn [fence_commands]; [keeps|]. apply fences_bind; [apply fences_fence_command|]. keeps. Qed.
Lemma fences_fence_instances now lin g xs : keeps_fences (fence_instances now lin g xs).
Proof.
  induction xs; cbn [fence_instances]; [keeps|]. apply fences_bind; [keeps|]. intros cs.
  apply fences_bind; [apply fences_fence_commands|]. keeps.
Qed.
Lemma fences_claim now cid : keeps_fences (claim now cid).
Proof. unfold claim. keeps. Qed.
Lemma fences_submit i c : keeps_fences (submit i c).
Proof. unfold submit. apply fences_bind; [apply fences_refuse|]. keeps. Qed.
(** Applying a fence does to the table what persisting it does, and it is
    acknowledged only when it was persisted. *)
Lemma apply_is_persist now p n : n_fences (apply_fence_locked now p n).1 =
  (persist (fence_id p) (fence_lineage p) (live_generation p) (n_fences n)).1.
Proof.
  unfold apply_fence_locked. rewrite st_bind_eq. unfold on_fences, st_zoom.
  destruct (persist (fence_id p) (fence_lineage p) (live_generation p) (n_fences n)) as [f [[]|e]]; [|done]. cbn [fst].
  assert (∀ A (c : st NodeState NodeError A) m, keeps_fences c → n_fences m = f → n_fences (c m).1 = f) as H.
  { intros A c m Hc <-. apply Hc. }
  apply H; [|done]. apply fences_bind; [keeps|]. intros xs. apply fences_bind; [apply fences_fence_instances|]. keeps.
Qed.
Lemma acknowledged_is_persisted now p n : is_Some (acknowledge (apply_fence_locked now p n).2) →
  is_ok (persist (fence_id p) (fence_lineage p) (live_generation p) (n_fences n)).2 = true.
Proof.
  unfold apply_fence_locked. rewrite st_bind_eq. unfold on_fences, st_zoom.
  destruct (persist (fence_id p) (fence_lineage p) (live_generation p) (n_fences n)) as [f [[]|e]]; [done|]. by intros [].
Qed.
Lemma persist_refuses fid lin live n r g : persist fid lin live (n_fences n) = (r, Ok tt) → 0 ≤ g < live →
  refuses (mkNode (n_store n) r) lin g = true.
Proof.
  intros H Hg. destruct (persist_raises _ _ _ _ _ _ H) as [E _]. unfold refuses. cbn.
  eapply raise_fences; [exact E|]. unfold fenced_by. cbn. rewrite bool_decide_true by done. unfold u64_of_i64.
  zbool; [done|lia..].
Qed.

(** ** The instance *)

Section Instance.
Context {V : Type} `{Json V}.
Variable initiator_to_json : Initiator → string.
Variable initiator_from_json : string → option Initiator.
Variable decode_initiator : V → option Initiator.

(** What else the Node does: the steps of its ledger, and those of its fence
    table with restarts and database failures; a fence comes from the Hub. *)
Inductive NodeEvent : Type := OnLedger (o : node_op) | OnTable (o : @fence_op V).
Definition on_table (o : @fence_op V) (n : NodeState) : NodeState :=
  match o with
  | FPersist _ _ _ => n
  | _ => mkNode (n_store n) (fence_step initiator_to_json initiator_from_json decode_initiator o (n_fences n))
  end.
Definition node_event (e : NodeEvent) (n : NodeState) : NodeState :=
  match e with
  | OnLedger (NFence _ _) => n
  | OnLedger o => node_step o n
  | OnTable o => on_table o n
  end.
Definition apply_frame (now fid lin : string) (live : Z) (n : NodeState) : NodeState * option (list (string * AckOutcome)) :=
  let r := apply_fence_locked now (mkFenceParams fid lin live) n in (r.1, acknowledge r.2).
Definition receive_frame (fid lin : string) (live : Z) (n : NodeState) : NodeState :=
  (persist_fence_frame (mkFenceParams fid lin live) n).1.
Definition fresh_node : NodeState := mkNode empty_store fresh_fences.
Definition node_good (names : string → string * Z) (n : NodeState) : Prop := backed names (n_fences n).

Lemma fresh_good names : node_good names fresh_node.
Proof. eexists. split; [done|]. by split; intros ??; cbn; rewrite lookup_empty. Qed.
Lemma ledger_keeps o : match o with NFence _ _ => True | _ => ∀ n, n_fences (node_step o n) = n_fences n end.
Proof.
  destruct o; cbn [node_step]; try done; intros n0.
  - apply fences_submit.
  - unfold accept, save_journal. match goal with |- n_fences (?c n0).1 = _ => assert (keeps_fences c) as K by keeps; apply K end.
  - apply fences_claim.
  - unfold settle, save_journal. match goal with |- n_fences (?c n0).1 = _ => assert (keeps_fences c) as K by keeps; apply K end.
  - apply fences_store.
  - apply fences_store.
Qed.
(** A node event is a step of the table that names no fence, or none. *)
Lemma event_table e n names : node_good names n →
  node_good names (node_event e n) ∧ fences_kept (n_fences n) (n_fences (node_event e n)).
Proof.
  intros G. destruct e as [o|o].
  - assert (n_fences (node_event (OnLedger o) n) = n_fences n) as E.
    { pose proof (ledger_keeps o) as K. destruct o; cbn [node_event]; [apply K..|done|apply K|apply K|apply K]. }
    unfold node_good. rewrite E. split; [done|by intros ini].
  - unfold node_event, on_table, node_good. destruct o;
      try (apply fence_step_backed; [done|exact G]). split; [done|by intros ini].
Qed.
Lemma receive_table fid lin live n names : names fid = (lin, live) → 0 ≤ live → node_good names n →
  node_good names (receive_frame fid lin live n) ∧ fences_kept (n_fences n) (n_fences (receive_frame fid lin live n)).
Proof.
  intros Hn H0 G. destruct (persist_backed names fid lin live (n_fences n) Hn H0 G) as [P1 P2].
  unfold node_good, receive_frame, persist_fence_frame, on_fences, st_zoom. cbn [fence_id fence_lineage live_generation].
  by destruct (persist fid lin live (n_fences n)).
Qed.
Lemma apply_table now fid lin live n names : names fid = (lin, live) → 0 ≤ live → node_good names n →
  node_good names (apply_frame now fid lin live n).1 ∧ fences_kept (n_fences n) (n_fences (apply_frame now fid lin live n).1).
Proof.
  intros Hn H0 G. unfold node_good, apply_frame. cbn [fst]. rewrite apply_is_persist. by apply persist_backed.
Qed.
Lemma apply_refuses now fid lin live n g : is_Some (apply_frame now fid lin live n).2 → 0 ≤ g < live →
  refuses (apply_frame now fid lin live n).1 lin g = true.
Proof.
  intros Ha%acknowledged_is_persisted Hg. unfold refuses, apply_frame. cbn [fst]. rewrite apply_is_persist.
  cbn [fence_id fence_lineage live_generation] in *. destruct (persist fid lin live (n_fences n)) as [f [[]|e]] eqn:E; [|done].
  by apply (persist_refuses fid lin live n).
Qed.
#[export] Instance node_fencing : FencingNode NodeState := {
  fn_event := NodeEvent;
  fn_fresh := fresh_node;
  fn_receive := receive_frame;
  fn_apply := apply_frame;
  fn_step := node_event;
  fn_refuses := refuses;
  fn_good := node_good;
  fn_good_fresh := fresh_good;
  fn_good_receive := λ names fid lin live n Hn H0 G, proj1 (receive_table fid lin live n names Hn H0 G);
  fn_good_apply := λ names now fid lin live n Hn H0 G, proj1 (apply_table now fid lin live n names Hn H0 G);
  fn_good_step := λ names e n G, proj1 (event_table e n names G);
  fn_receive_keeps := λ names fid lin live n lin' g Hn H0 G Hg, proj2 (receive_table fid lin live n names Hn H0 G) (stamp lin' g) Hg;
  fn_apply_keeps := λ names now fid lin live n lin' g Hn H0 G Hg, proj2 (apply_table now fid lin live n names Hn H0 G) (stamp lin' g) Hg;
  fn_step_keeps := λ names e n lin g G Hg, proj2 (event_table e n names G) (stamp lin g) Hg;
  fn_apply_refuses := apply_refuses;
}.

(** C1. The predecessor is dead where its successor runs: in every run of the
    Hub with its Nodes, once a chapter of a continuity lineage has a frame at
    its host, the Node there turns away every command of an older generation of
    the lineage with [Fenced] and writes nothing, however frames were lost and
    repeated, whichever database failed and whoever restarted. *)
Theorem the_past_is_refused insts es i ch l inst c ini :
  let w : World NodeState := world_run es (world_start insts) in
  let y := wd_hub w in let n := node_of (ch_host ch) w in
  stamped (y_auth y) (Some i) → a_chapters (y_auth y) !! hi_instance i = Some ch →
  a_lineages (y_auth y) !! hi_lineage i = Some l → acts_there y i (ch_host ch) →
  initiator c = Some ini → ini_lineage_id ini = hi_lineage i → 1 ≤ ini_generation ini < hi_generation i →
  ini_generation ini < i64_max →
  submit inst c n = (n, Err Fenced).
Proof.
  intros w y n Hs Hch Hl Ha Hc El Hg Hi.
  assert (table_is_fenced (table (n_fences n)) ini = true) as F.
  { rewrite <- refuses_fenced, El. by apply (past_refused insts es i ch l). }
  unfold submit. rewrite st_bind_eq. unfold on_fences, st_zoom, refuse_fenced, is_fenced. rewrite Hc, st_bind_eq, st_bind_eq. cbn.
  rewrite F. by destruct n.
Qed.
End Instance.
