(* ===== verification/FenceLive.v ===== *)
(** * A delivery that goes through

    When a host acknowledges the fences it owes, one after another, it is open
    again, and everything that waited for it is forwarded: the follow-on
    commands of each fence and the commands held while it was closed. *)
From stdpp Require Import base list gmap strings numbers sorting relations.
From S2P Require Import Prelude Json GateQueue HubCommands HubEdit HubLedger HubQueue FenceHub FenceSteps FenceLedger FenceAuth FenceSafety FenceRecords FenceDelivery FenceWorld.
Local Open Scope Z_scope.

Definition acks (host : string) (answers : list (list (string * AckOutcome))) : list Act := (λ o, AAck host (Some o)) <$> answers.
(** The whole of [deliver_host] up to the forwards. *)
Definition delivery (host : string) (answers : list (list (string * AckOutcome))) : list Act :=
  ADeliver host :: acks host answers ++ [ADrain host].
Definition acked_rows (host : string) (fs : list Fence) (m : gmap (string * string) bool) : gmap (string * string) bool :=
  foldl (λ m fe, alter (λ _, true) (fe_id fe, host) m) m fs.

Lemma acks_run host fs answers follow y :
  y_delivering y !! host = Some (DelFences fs follow) → length answers = length fs →
  let y' := act_run (acks host answers) y in
  y_delivering y' !! host = Some (DelFences [] (follow ++ (fs ≫= λ fe, follow_ons (fe_id fe) host (y_db y)))) ∧
  y_deliveries y' = acked_rows host fs (y_deliveries y) ∧ y_fences y' = y_fences y ∧ y_held y' = y_held y ∧ y_auth y' = y_auth y.
Proof.
  revert answers follow y. induction fs as [|fe fs IH]; intros [|o answers] follow y Hd Hn; try done.
  { cbn. rewrite app_nil_r. done. }
  cbn [acks fmap list_fmap]. unfold act_run. cbn [foldl]. set (y1 := act_step (AAck host (Some o)) y).
  assert (y1 = set_delivering (<[host := DelFences fs (follow ++ follow_ons (fe_id fe) host (y_db y))]> (y_delivering y))
                 (set_db (ack_fence (fe_id fe) host o (y_db y)).1 y)) as E by (unfold y1; cbn [act_step]; unfold deliver_one; by rewrite Hd).
  destruct (IH answers (follow ++ follow_ons (fe_id fe) host (y_db y)) y1) as (H1 & H2 & H3 & H4 & H5).
  { rewrite E. apply lookup_insert_eq. }
  { cbn in Hn. by injection Hn. }
  split_and!.
  - etransitivity; [exact H1|]. rewrite bind_cons, app_assoc.
    assert ((fs ≫= λ z, follow_ons (fe_id z) host (y_db y1)) = (fs ≫= λ z, follow_ons (fe_id z) host (y_db y))) as ->; [|done].
    apply list_bind_ext; [|done]. intros z. by rewrite E.
  - etransitivity; [exact H2|]. by rewrite E.
  - etransitivity; [exact H3|]. by rewrite E.
  - etransitivity; [exact H4|]. by rewrite E.
  - etransitivity; [exact H5|]. by rewrite E.
Qed.
Lemma acked_rows_lookup host fs m k :
  acked_rows host fs m !! k = if bool_decide (k.2 = host ∧ k.1 ∈ fe_id <$> fs) then (λ _, true) <$> m !! k else m !! k.
Proof.
  revert m. induction fs as [|fe fs IH]; intros m; cbn [acked_rows foldl].
  - rewrite bool_decide_false; [done|]. intros [_ H]. by apply not_elem_of_nil in H.
  - fold (acked_rows host fs). unfold acked_rows in IH. rewrite IH. clear IH. destruct k as [fid h]. cbn [fst snd].
    destruct (decide ((fe_id fe, host) = (fid, h))) as [[= <- <-]|Hne].
    + rewrite lookup_alter_eq. rewrite (bool_decide_true (host = host ∧ fe_id fe ∈ fe_id <$> fe :: fs)) by (split; [done|left]).
      case_bool_decide; [|done]. by destruct (m !! _).
    + rewrite lookup_alter_ne by done.
      rewrite (bool_decide_ext (h = host ∧ fid ∈ fe_id <$> fe :: fs) (h = host ∧ fid ∈ fe_id <$> fs)); [done|].
      rewrite fmap_cons, elem_of_cons. naive_solver.
Qed.
(** C27. A delivery that goes through opens the host: when a host that advertises
    fences acknowledges every fence it owes, it owes none, the host gate is
    open, and the Hub goes on to forward exactly the held follow-on commands of
    each of those fences, in order, and then every command it had noted as
    waiting for the host. *)
Theorem delivery_opens_the_host insts xs host answers :
  let y := act_run xs (start insts) in
  let fs := pending_fences host (y_db y) in
  let y' := act_run (delivery host answers) y in
  y_delivering y !! host = None → host_capable (y_auth y) host = true → length answers = length fs →
  pending_fences host (y_db y') = [] ∧ host_gated (y_db y') host = false ∧ y_held y' !! host = None ∧
  y_delivering y' !! host =
    Some (DelForward ((fs ≫= λ fe, follow_ons (fe_id fe) host (y_db y)) ++ take_held host (y_held y))).
Proof.
  intros y fs y' Hd Hc Hn. pose proof (reachable_deliveries insts xs) as [D _]. fold y in D.
  set (y0 := set_delivering (<[host := DelFences fs []]> (y_delivering y)) y).
  assert (act_step (ADeliver host) y = y0) as E0 by (cbn [act_step]; unfold begin_delivery; by rewrite Hd, Hc).
  destruct (acks_run host fs answers [] y0) as (H1 & H2 & H3 & H4 & H5); [apply lookup_insert_eq|done|].
  set (y1 := act_run (acks host answers) y0) in *.
  assert (y' = drain host y1) as ->.
  { unfold y', delivery, act_run. cbn [foldl]. rewrite foldl_app, E0. done. }
  cbn [app] in H1. unfold drain. rewrite H1.
  assert (∀ fid, fid ∈ fe_id <$> y_fences y → y_deliveries y1 !! (fid, host) ≠ Some false) as Hopen.
  { intros fid (fe & -> & Hfe)%list_elem_of_fmap Hf. rewrite H2, acked_rows_lookup in Hf. cbn [fst snd] in Hf.
    case_bool_decide as Hb; [by destruct (y_deliveries y0 !! _)|]. apply Hb. split; [done|]. apply list_elem_of_fmap_2.
    apply retain_elem. split; [done|]. by apply bool_decide_eq_true. }
  split_and!.
  - change (pending_fences host (y_db y1) = []). unfold pending_fences. destruct (retain _ _) as [|fe l] eqn:Er; [done|].
    assert (fe ∈ fe :: l) as Hin by left. rewrite <- Er in Hin. apply retain_elem in Hin as [Hin Hb%bool_decide_eq_true].
    exfalso. apply (Hopen (fe_id fe)); [|exact Hb]. apply list_elem_of_fmap_2. change (y_fences y) with (y_fences y0). by rewrite <- H3.
  - change (host_gated (y_db y1) host = false). unfold host_gated. apply andb_false_iff. right. apply not_true_iff_false.
    intros (p & Hp%list_elem_of_In & [Hh%bool_decide_eq_true Hv%negb_true_iff]%andb_true_iff)%existsb_exists.
    destruct p as [[fid h] v]. cbn in Hh, Hv. subst h v. apply elem_of_map_to_list in Hp. change (y_deliveries y1 !! (fid, host) = Some false) in Hp.
    apply (Hopen fid); [|done]. rewrite H2, acked_rows_lookup in Hp. change (y_deliveries y0) with (y_deliveries y) in Hp.
    destruct (y_deliveries y !! (fid, host)) as [v|] eqn:Ev; [exact (D _ _ Ev)|by case_match].
  - cbn. apply lookup_delete_eq.
  - cbn. rewrite lookup_insert_eq, H4. done.
Qed.
