(* ===== verification/FencePause.v ===== *)
(** * Close becomes pause

    [pause_on_close] of [remuda-hub/src/fence.rs]: a close of any chapter of an
    unpaused continuity lineage fences the current chapter without a successor
    and queues its close in the same transaction.  It reads the lineage, builds
    the request and runs F as a compare-and-set; when another F won in between
    it reads again, four times at most.  Anything may happen between the read
    and F. *)
From stdpp Require Import base list gmap strings numbers.
From S2P Require Import Prelude Json GateQueue HubCommands HubEdit HubLedger HubQueue FenceHub FenceSteps FenceLedger FenceAuth FenceSafety FenceRecords FenceDelivery.
Local Open Scope Z_scope.

(** The request: the lineage, the device, whose instance it is, the command. *)
Record PauseRequest : Type := mkPauseRequest {
  pr_lineage : string;
  pr_device : string;
  pr_caller : option string;
  pr_command : string;
  pr_key : option string;
  pr_payload : Value;
}.
(** What one attempt meets: whether an approval of the chapter is in flight,
    what happens between the read and F, the time and the fence id. *)
Record Round : Type := mkRound {
  ro_approval : bool;
  ro_between : list Act;
  ro_now : Z;
  ro_fence : string;
}.
Inductive PauseErr : Type := PForbidden | PNotFound | PApproval | PPending | PRetry | PStore (e : FenceErr).

(** Who pauses, and whether the chapter closes itself. *)
Definition self_close (ini : option HubInitiator) (current : string) : bool :=
  match ini with Some i => bool_decide (hi_instance i = current) | None => false end.
Definition paused_by (pr : PauseRequest) (ini : option HubInitiator) (current : string) : Value :=
  match ini with
  | Some i =>
      if self_close ini current
      then VObject [("instanceId"%string, VString (hi_instance i)); ("kind"%string, VString "self")]
      else VObject [("deviceId"%string, VString (pr_device pr)); ("instanceId"%string, VString (hi_instance i));
                    ("kind"%string, VString "ancestor")]
  | None => VObject [("deviceId"%string, VString (pr_device pr)); ("kind"%string, VString "device")]
  end.
Definition close_payload (payload : Value) (current : string) : Value :=
  match payload with VObject o => VObject (obj_insert "instanceId" (VString current) o) | v => v end.
Definition pause_spec (pr : PauseRequest) (ini : option HubInitiator) (l : Lineage) : FenceSpec :=
  let current := ln_current l in
  mkFenceSpec (pr_lineage pr) (ln_generation l) [LStarting; LRunning]
    (Pause (paused_by pr ini current)
       (Some (mkPauseClose (pr_command pr) (close_payload (pr_payload pr) current) (pr_key pr))))
    ((λ i, (i, Some (pr_device pr))) <$> ini) (self_close ini current).

(** One attempt: an answer, or none when the compare-and-set was lost. *)
Definition pause_round (pr : PauseRequest) (ini : option HubInitiator) (r : Round) (y : Sys)
    : Sys * option (result (option string) PauseErr) :=
  match a_lineages (y_auth y) !! pr_lineage pr with
  | None => (y, Some (Err PNotFound))
  | Some l =>
      if bool_decide (ln_state l = LPaused) then (y, Some (Ok None))
      else if self_close ini (ln_current l) && ro_approval r then (y, Some (Err PApproval))
      else
        let y := act_run (ro_between r) y in
        let x := AFence (ro_now r) (ro_fence r) (pause_spec pr ini l) in
        match (fence_lineage (ro_now r) (ro_fence r) (pause_spec pr ini l) (y_db y)).2 with
        | Ok (Committed _) => (act_step x y, Some (Ok (Some (pr_command pr))))
        | Ok CasLost => (y, None)
        | Ok StateRefused | Ok CloseExists => (y, Some (Ok None))
        | Ok Guarded => (y, Some (Err PPending))
        | Err e => (y, Some (Err (PStore e)))
        end
  end.
Fixpoint pause_rounds (pr : PauseRequest) (ini : option HubInitiator) (rs : list Round) (y : Sys)
    : Sys * result (option string) PauseErr :=
  match rs with
  | [] => (y, Err PRetry)
  | r :: rs =>
      match pause_round pr ini r y with
      | (y, Some a) => (y, a)
      | (y, None) => pause_rounds pr ini rs y
      end
  end.
Definition PAUSE_ATTEMPTS : nat := 4.
Definition pause_on_close (pr : PauseRequest) (rs : list Round) (y : Sys) : Sys * result (option string) PauseErr :=
  match caller_stamp (y_auth y) (pr_caller pr) with
  | None => (y, Err PForbidden)
  | Some ini => pause_rounds pr ini (take PAUSE_ATTEMPTS rs) y
  end.

(** ** Every pause is a run of the Hub *)

Lemma round_runs pr ini r y : ∃ xs, (pause_round pr ini r y).1 = act_run xs y.
Proof.
  unfold pause_round. destruct (a_lineages _ !! _) as [l|]; [|by exists []].
  destruct (bool_decide _); [by exists []|]. destruct (_ && _); [by exists []|]. cbn zeta.
  destruct (fence_lineage _ _ _ _).2 as [[core| | | |]|e]; cbn [fst]; try (by eexists).
  exists (ro_between r ++ [AFence (ro_now r) (ro_fence r) (pause_spec pr ini l)]). unfold act_run. by rewrite foldl_app.
Qed.
Lemma act_run_app xs zs y : act_run (xs ++ zs) y = act_run zs (act_run xs y).
Proof. unfold act_run. apply foldl_app. Qed.
Lemma rounds_run pr ini rs y : ∃ xs, (pause_rounds pr ini rs y).1 = act_run xs y.
Proof.
  revert y. induction rs as [|r rs IH]; intros y; [by exists []|]. cbn [pause_rounds].
  destruct (round_runs pr ini r y) as [xs E]. destruct (pause_round pr ini r y) as [y1 [a|]]; cbn in E |- *; [by exists xs|].
  destruct (IH y1) as [zs ->]. exists (xs ++ zs). by rewrite act_run_app, E.
Qed.
(** A pause does nothing a caller could not have done in steps of its own, so
    what holds of every run of the Hub holds of it. *)
Theorem pause_is_a_run pr rs y : ∃ xs, (pause_on_close pr rs y).1 = act_run xs y.
Proof. unfold pause_on_close. destruct (caller_stamp _ _); [apply rounds_run|by exists []]. Qed.

(** ** What it answers *)

(** A lineage paused with the close of its current chapter queued, under a
    fence that names it. *)
Definition paused_with (lin cmd : string) (y : Sys) : Prop := ∃ l c fe,
  a_lineages (y_auth y) !! lin = Some l ∧ ln_state l = LPaused ∧
  ledger (y_db y) !! cmd = Some c ∧ waiting c = true ∧ id_instance (c_ident c) = Some (ln_current l) ∧
  id_initiator (c_ident c) = None ∧ id_operation (c_ident c) = "instance.close"%string ∧
  fe ∈ y_fences y ∧ fe_lineage fe = lin ∧ fe_live fe = ln_generation l ∧ fe_close fe = Some cmd.
Lemma committed_pause pr ini r l y core :
  (fence_lineage (ro_now r) (ro_fence r) (pause_spec pr ini l) (y_db y)).2 = Ok (Committed core) →
  paused_with (pr_lineage pr) (pr_command pr) (act_step (AFence (ro_now r) (ro_fence r) (pause_spec pr ini l)) y).
Proof.
  intros H. cbn [act_step pause_spec fs_mode]. unfold fence_lineage in *.
  destruct (fence_core _ _ _ _) as [[b [core'| | | |]]|e] eqn:Hf; try done. clear H.
  destruct (fence_core_inv _ _ _ _ _ _ Hf) as (l0 & ch & C). set (spec := pause_spec pr ini l) in *.
  destruct (cf_what _ _ _ _ _ _ _ _ C) as [(s & Hm & _)|(_ & _ & -> & _ & _ & _)]; [done|]. clear Hf.
  set (m := fs_mode spec). exists (next_lineage m l0).
  eexists _, (new_fence (ro_fence r) (fs_lineage spec) l0 m). split_and!.
  - unfold y_auth. cbn [commit set_db set_committed y_db]. unfold fenced_db. rewrite queue_close_auth. cbn. apply lookup_insert_eq.
  - done.
  - unfold ledger. cbn. apply lookup_insert_eq.
  - done.
  - done.
  - done.
  - done.
  - unfold y_fences. cbn. apply elem_of_app. right. by apply list_elem_of_singleton.
  - done.
  - done.
  - done.
Qed.
(** The command id or the key of the close names a stored command. *)
Definition close_stored (pr : PauseRequest) (y : Sys) : Prop :=
  is_Some (ledger (y_db y) !! pr_command pr) ∨ ∃ k, pr_key pr = Some k ∧ is_Some (by_key k (h_ledger (y_hub y))).
(** What an answer says of the state it leaves. *)
Definition answer_holds (pr : PauseRequest) (ini : option HubInitiator) (a : result (option string) PauseErr) (y : Sys) : Prop :=
  match a with
  | Ok (Some cmd) => cmd = pr_command pr ∧ paused_with (pr_lineage pr) cmd y
  | Ok None => (∃ l, a_lineages (y_auth y) !! pr_lineage pr = Some l ∧ ln_state l = LPaused) ∨ close_stored pr y
  | Err PNotFound => a_lineages (y_auth y) !! pr_lineage pr = None
  | Err PApproval => ∃ l, a_lineages (y_auth y) !! pr_lineage pr = Some l ∧ self_close ini (ln_current l) = true
  | Err PPending => ∃ l, a_lineages (y_auth y) !! pr_lineage pr = Some l ∧ pending_interaction (ln_current l) (y_db y) = true
  | Err (PStore EFenced) => ∃ i, ini = Some i ∧ check_initiator (y_auth y) (Some i) (Some (pr_device pr)) = false
  | Err _ => True
  end.
Lemma refused_f now fid spec b tx : (fence_lineage now fid spec b).2 = Ok tx → (∀ core, tx ≠ Committed core) →
  ∃ l, a_lineages (b_auth b) !! fs_lineage spec = Some l ∧
    match tx with
    | CasLost => ln_generation l ≠ fs_expected spec
    | StateRefused => ln_state l ∉ fs_from spec
    | CloseExists => close_exists (fs_mode spec) b = true
    | Guarded => pending_interaction (ln_current l) b = true
    | Committed _ => False
    end.
Proof.
  unfold fence_lineage, fence_core. destruct (authority_ok _ _); [|done]. cbn [negb].
  destruct (a_lineages (b_auth b) !! fs_lineage spec) as [l|]; [|done]. intros H Hn. exists l. split; [done|]. revert H.
  destruct (ln_generation l =? fs_expected spec) eqn:Hg; cbn [negb]; [|intros [= <-]; by apply Z.eqb_neq].
  destruct (bool_decide (ln_state l ∈ fs_from spec)) eqn:Hs; cbn [negb]; [|intros [= <-]; by apply bool_decide_eq_false in Hs].
  destruct (close_exists (fs_mode spec) b) eqn:Hc; [by intros [= <-]|].
  destruct (fs_guard spec && pending_interaction (ln_current l) b) eqn:Hp; [intros [= <-]; by apply andb_true_iff in Hp as [_ ?]|].
  assert (∀ r : result (HubDb * FenceTx) FenceErr, (∀ b' t, r = Ok (b', t) → ∃ core, t = Committed core) →
    (match r with Ok (b', Committed core) => (b', Ok (Committed core)) | Ok (_, t) => (b, Ok t) | Err e => (b, Err e) end).2 = Ok tx → False) as Hcl.
  { intros [[b' t]|e] Hr; [|done]. destruct (Hr _ _ eq_refl) as [core ->]. intros [= <-]. by apply (Hn core). }
  intros H. exfalso. revert H. apply Hcl. intros b' t.
  assert (∀ m, fence_now now fid (fs_lineage spec) l m b = Ok (b', t) → ∃ core, t = Committed core) as Hnow.
  { intros m. unfold fence_now. repeat case_match; intros [= _ <-]; eauto. }
  destruct (fs_mode spec) as [p c|s'], (ln_state l); try apply Hnow.
  unfold resume_paused. repeat case_match; intros [= _ <-]; eauto.
Qed.
Lemma fenced_f now fid spec b : (fence_lineage now fid spec b).2 = Err EFenced → authority_ok spec (b_auth b) = false.
Proof.
  unfold fence_lineage, fence_core, fence_now, resume_paused. destruct (authority_ok _ _); [|done]. repeat case_match; try done; by simplify_eq.
Qed.
Lemma round_answers pr ini r y y' a : pause_round pr ini r y = (y', Some a) → answer_holds pr ini a y' ∧ a ≠ Err PRetry.
Proof.
  unfold pause_round. destruct (a_lineages (y_auth y) !! pr_lineage pr) as [l|] eqn:Hl; [|by intros [= <- <-]].
  destruct (bool_decide (ln_state l = LPaused)) eqn:Hp; [intros [= <- <-]; split; [left; exists l; by apply bool_decide_eq_true in Hp|done]|].
  destruct (self_close ini (ln_current l) && ro_approval r) eqn:Ha.
  { intros [= <- <-]. apply andb_true_iff in Ha as [Ha _]. split; [by exists l|done]. }
  cbn zeta. set (y1 := act_run (ro_between r) y). pose proof (refused_f (ro_now r) (ro_fence r) (pause_spec pr ini l) (y_db y1)) as R.
  destruct (fence_lineage _ _ _ (y_db y1)).2 as [[core| | | |]|e] eqn:E; intros H; simplify_eq; try done; (split; [|done]).
  - split; [done|]. by eapply committed_pause.
  - destruct (R StateRefused eq_refl) as (l' & Hl' & Hs); [done|]. left. exists l'. split; [done|].
    destruct (ln_state l'); [..|done]; exfalso; apply Hs; cbn; set_solver.
  - destruct (R Guarded eq_refl) as (l' & Hl' & Hs); [done|]. by exists l'.
  - destruct (R CloseExists eq_refl) as (l' & Hl' & Hs); [done|]. right. unfold close_exists in Hs. cbn in Hs.
    apply orb_true_iff in Hs as [Hs%bool_decide_eq_true|Hs]; [by left|]. right.
    destruct (pr_key pr) as [k|]; [|done]. exists k. split; [done|]. by apply bool_decide_eq_true in Hs.
  - destruct e; try done. apply fenced_f in E. unfold authority_ok in E. cbn in E. destruct ini as [i|]; [|done]. by exists i.
Qed.
(** A lost compare-and-set was lost to another fence. *)
Lemma round_lost pr ini r y y' : pause_round pr ini r y = (y', None) → ∃ l l',
  a_lineages (y_auth y) !! pr_lineage pr = Some l ∧ a_lineages (y_auth y') !! pr_lineage pr = Some l' ∧
  ln_generation l < ln_generation l'.
Proof.
  unfold pause_round. destruct (a_lineages (y_auth y) !! pr_lineage pr) as [l|] eqn:Hl; [|done].
  destruct (bool_decide _); [done|]. destruct (_ && _); [done|]. cbn zeta.
  destruct (fence_lineage _ _ _ _).2 as [[core| | | |]|e] eqn:E; intros H; try done. injection H as <-.
  destruct (refused_f _ _ _ _ _ E) as (l' & Hl' & Hg); [done|]. cbn in Hl', Hg.
  destruct (le_lineage _ _ (run_le (ro_between r) y) _ _ Hl) as (l'' & Hl'' & Hle). unfold y_auth in Hl''.
  rewrite Hl' in Hl''. injection Hl'' as <-. exists l, l'. split_and!; [done|done|lia].
Qed.
(** The generation rose by one at least for every attempt that lost. *)
Definition rose_by (n : nat) (lin : string) (y y' : Sys) : Prop := ∀ l, a_lineages (y_auth y) !! lin = Some l →
  ∃ l', a_lineages (y_auth y') !! lin = Some l' ∧ ln_generation l + Z.of_nat n ≤ ln_generation l'.
Lemma rounds_answer pr ini rs y y' a : pause_rounds pr ini rs y = (y', a) →
  answer_holds pr ini a y' ∧ (a = Err PRetry → rose_by (length rs) (pr_lineage pr) y y').
Proof.
  revert y. induction rs as [|r rs IH]; intros y; cbn [pause_rounds].
  { intros [= <- <-]. split; [done|]. intros _ l Hl. exists l. split; [done|]. cbn. lia. }
  destruct (pause_round pr ini r y) as [y1 [a1|]] eqn:Hr.
  - intros [= <- <-]. destruct (round_answers _ _ _ _ _ _ Hr) as [H1 H2]. by split.
  - intros H. destruct (IH y1 H) as [H1 H2]. split; [done|]. intros Ha l Hl.
    destruct (round_lost _ _ _ _ _ Hr) as (l0 & l1 & Hl0 & Hl1 & Hlt). rewrite Hl in Hl0. injection Hl0 as <-.
    destruct (H2 Ha l1 Hl1) as (l' & Hl' & Hle). exists l'. split; [done|]. cbn [length]. lia.
Qed.
(** C28. A close of a continuity lineage tells the truth: when it answers with a
    command, the lineage is paused and that command, the close of its current
    chapter, is queued under the fence that paused it; when it declines, the
    lineage is paused already or the close is stored; each error names what
    holds; and it gives up only after four other fences of the lineage won,
    whatever else happened between its reads and its transactions. *)
Theorem close_answers_truthfully pr rs y y' a ini :
  caller_stamp (y_auth y) (pr_caller pr) = Some ini → pause_on_close pr rs y = (y', a) → (PAUSE_ATTEMPTS ≤ length rs)%nat →
  answer_holds pr ini a y' ∧ (a = Err PRetry → rose_by PAUSE_ATTEMPTS (pr_lineage pr) y y').
Proof.
  intros Hc H Hn. unfold pause_on_close in H. rewrite Hc in H. destruct (rounds_answer _ _ _ _ _ _ H) as [H1 H2].
  split; [done|]. rewrite length_take in H2. by replace (PAUSE_ATTEMPTS `min` length rs)%nat with PAUSE_ATTEMPTS in H2 by lia.
Qed.
