(* ===== verification/FenceExamples.v ===== *)
(** * The Hub's fences on concrete runs

    One chapter with work in every state is paused and resumed as a successor;
    its steps meet the hypotheses of the theorems about fences.  Further runs
    show where the code does not do what its comments say. *)
From stdpp Require Import base list gmap strings numbers.
From S2P Require Import Prelude Json GateQueue HubCommands HubEdit HubLedger HubQueue FenceHub FenceSteps FenceLedger FenceAuth FenceSafety FenceRecords FenceDelivery FenceWorld FenceLive FencePause NodeStore NodeFence FenceNode.
Local Open Scope Z_scope.

(** ** A chapter is paused and resumed *)

Definition fx_ident : CmdIdent := mkIdent (Some "peer"%string) "h" "instance.send" None None (Some "d"%string) 1.
Definition fx_payload : Value := VObject [("text"%string, VString "hi")].
Definition fx_queue (id : string) : Act := AQueue (Some "a"%string) (Some "d"%string) None id fx_ident fx_payload.
Definition fx_send (id : string) : list Act := [AMark id false; ACommands (ReadBack id); AGate id; ASend id SendOut].
Definition fx_call (n : nat) (op : string) : Act := ACall n op "h" "workspace.write" (Some "a"%string) (Some "d"%string).
(** The chapter "a" with a command held, one in flight, a direct operation past
    its send intent, one admitted, a queued job and a pending interaction. *)
Definition fx_work : list Act :=
  [AHost "h" true; ACreate None None "a" "h" true; ARunning "a" true; ADevice "d" (Some "a"%string);
   fx_queue "c1"; fx_queue "c2"] ++ fx_send "c2" ++
  [fx_call 0 "op1"; ACallStep 0 CNext; ACallStep 0 CNext; fx_call 1 "op2"; ACallStep 1 CNext;
   AJobNew "j" (Some "a"%string) (Some "d"%string) (new_job "p" Verify None 2); AInteraction "q" "a"].
Definition fx_before : Sys := act_run fx_work (start ∅).
Definition fx_spec : FenceSpec :=
  mkFenceSpec "a" 1 [LStarting; LRunning] (Pause VNull (Some (mkPauseClose "cl" VNull None))) None false.
Definition fx_pause : Act := AFence 5 "f1" fx_spec.
Definition fx_core : FenceCore := mkFenceCore "f1" "a" 1 2 "a" "h" ["h"%string].
Definition fx_resume : Act := AResume 6 "f2" true (mkResume "a" 2 [LPaused] "h" ByResume VNull "b" "c3").
(** Whatever the Hub does next: replays, the rest of the calls, a restart, the
    successor, the delivery and the successor's create. *)
Definition fx_replays : list Act :=
  fx_send "c1" ++ [fx_queue "c4"; ACallStep 0 CNext; ACallStep 0 CNext; ACallStep 1 CNext; ARaise "a" 2; fx_resume; ADeliver "h"].
Definition fx_rest : list Act :=
  [ADrain "h"; AForward "h" false; AForward "h" false; ACommands (ReadBack "c3"); AGate "c3"; ASend "c3" SendOut; ARestart true].
Definition fx_later : list Act := fx_replays ++ [AAck "h" (Some [("c2"%string, AckRan)])] ++ fx_rest.
Definition fx_all : list Act := fx_work ++ fx_pause :: fx_later.
Definition fx_end : Sys := act_run fx_all (start ∅).
Definition fx_row (id : string) (y : Sys) : Cmd := default (new_cmd fx_ident VNull) (ledger (y_db y) !! id).
Definition fx_heir : HubInitiator := mkHubInitiator "b" "a" 2.
Definition fx_chapter : Chapter := mkChapter "h" "a" 2 false.
Definition fx_fence : Fence := mkFence "f1" "a" 1 2 "a" None (Some "cl"%string) (Some "c3"%string).

Lemma fx_commits : commits fx_pause (act_run fx_work (start ∅)) = Some fx_core.
Proof. vm_compute. reflexivity. Qed.
Lemma fx_lineage : a_lineages (y_auth (act_run fx_all (start ∅))) !! "a"%string = Some (FenceHub.mkLineage "b" 2 LStarting None).
Proof. vm_compute. reflexivity. Qed.
Lemma fx_heir_stamped : stamped (y_auth (act_run fx_all (start ∅))) (Some fx_heir).
Proof. vm_compute. reflexivity. Qed.
Lemma fx_heir_acts : check_initiator (y_auth (act_run fx_all (start ∅))) (Some fx_heir) None = true.
Proof. vm_compute. reflexivity. Qed.
Lemma fx_heir_chapter : a_chapters (y_auth (act_run fx_all (start ∅))) !! "b"%string = Some fx_chapter.
Proof. vm_compute. reflexivity. Qed.
Lemma one_chapter_acts_witness : hi_instance fx_heir = "b"%string ∧ hi_generation fx_heir = 2.
Proof.
  exact (proj2 (one_chapter_acts ∅ fx_all "a" _ fx_heir fx_heir None None fx_lineage fx_heir_stamped fx_heir_stamped
    eq_refl eq_refl fx_heir_acts fx_heir_acts)).
Defined.

(** ** After the fence *)

Lemma fx_c1 : ledger (y_db (act_run fx_work (start ∅))) !! "c1"%string = Some (fx_row "c1" fx_before).
Proof. vm_compute. reflexivity. Qed.
Lemma fx_c1_below : initiated_below (fc_lineage fx_core) (fc_fenced fx_core) (id_initiator (c_ident (fx_row "c1" fx_before))) = true.
Proof. vm_compute. reflexivity. Qed.
Lemma fx_c1_untouched : h_attempts (y_hub (act_run fx_work (start ∅))) !! "c1"%string = None.
Proof. vm_compute. reflexivity. Qed.
Lemma fx_c1_unsent : frames_of "c1" (y_hub (act_run fx_work (start ∅))) = [].
Proof. vm_compute. reflexivity. Qed.
Lemma fenced_command_never_leaves_witness :
  frames_of "c1" (y_hub (act_run fx_later (act_step fx_pause (act_run fx_work (start ∅))))) = [].
Proof.
  rewrite <- fx_c1_unsent.
  exact (fenced_command_never_leaves ∅ fx_work fx_pause fx_core "c1" _ fx_later fx_commits fx_c1 fx_c1_below fx_c1_untouched).
Defined.
Lemma fenced_operations_run_dry_witness :
  (frames_below "a" 1 (act_run fx_later (act_step fx_pause (act_run fx_work (start ∅)))) ≤
   frames_below "a" 1 (act_run fx_work (start ∅)) + ways "a" 1 (y_calls (act_run fx_work (start ∅))))%nat.
Proof. exact (fenced_operations_run_dry ∅ fx_work fx_pause fx_core fx_later fx_commits). Defined.
(** The bound is met: one operation was past its intent and its frame left. *)
Lemma one_operation_left : ways "a" 1 (y_calls fx_before) = 1%nat ∧ frames_below "a" 1 fx_before = 0%nat ∧
  frames_below "a" 1 (act_run fx_later (act_step fx_pause fx_before)) = 1%nat.
Proof. vm_compute. auto. Qed.
Lemma nothing_is_admitted_after_witness :
  admits_none "a" 1 (act_run fx_work (start ∅)) (act_run fx_later (act_step fx_pause (act_run fx_work (start ∅)))).
Proof. exact (nothing_is_admitted_after ∅ fx_work fx_pause fx_core fx_later fx_commits). Defined.

(** ** Records *)

Definition fx_record (op : string) (x : Outcome) : FenceOp :=
  mkFenceOp "f1" KCommand op (Some "h"%string) "a" 1 (Some "instance.send"%string) x.
Lemma fx_recorded : fx_record "c1" OCancelledAtHub ∈ y_ops (act_step fx_pause fx_before).
Proof. vm_compute. left. Qed.
Lemma fence_records_are_final_witness :
  ∃ x, x ∈ y_ops (act_run fx_later (act_step fx_pause fx_before)) ∧ op_le (fx_record "c1" OCancelledAtHub) x ∧
    (OCancelledAtHub ≠ OUnknown → x = fx_record "c1" OCancelledAtHub).
Proof. exact (fence_records_are_final fx_later (act_step fx_pause fx_before) _ fx_recorded). Defined.
Definition fx_paused_db : HubDb := match fence_core 5 "f1" fx_spec (y_db fx_before) with Ok (b, _) => b | Err _ => y_db fx_before end.
Lemma fx_fenced : fence_core 5 "f1" fx_spec (y_db fx_before) = Ok (fx_paused_db, Committed fx_core).
Proof. vm_compute. reflexivity. Qed.
Lemma fence_closes_off_witness : closed_off "a" 1 "a" (y_db fx_before) fx_paused_db.
Proof. exact (proj1 (fence_closes_off 5 "f1" fx_spec _ _ _ fx_fenced eq_refl)). Defined.

(** ** Fences and deliveries *)

Lemma fences_number_the_generations_witness : lives "a" (act_run fx_all (start ∅)) = [2].
Proof. exact (proj1 (fences_number_the_generations ∅ fx_all "a" _ fx_lineage)). Defined.
Definition fx_stranger : FenceSpec := mkFenceSpec "zz" 1 [LRunning] (Pause VNull None) None false.
Lemma fx_new_id : "f9"%string ∉ fe_id <$> y_fences (act_run fx_all (start ∅)).
Proof. apply (bool_decide_unpack _). vm_compute. exact I. Qed.
Lemma fx_unknown : fence_core 9 "f9" fx_stranger (y_db (act_run fx_all (start ∅))) = Err EUnknownLineage.
Proof. vm_compute. reflexivity. Qed.
Lemma fence_never_breaks_witness :
  (EUnknownLineage = EFenced ∧ authority_ok fx_stranger (y_auth (act_run fx_all (start ∅))) = false) ∨
  (EUnknownLineage = EUnknownLineage ∧ a_lineages (y_auth (act_run fx_all (start ∅))) !! "zz"%string = None).
Proof. exact (fence_never_breaks ∅ fx_all 9 "f9" fx_stranger _ fx_new_id fx_unknown). Defined.
Lemma one_fence_wins_witness :
  fence_core 9 "f9" fx_spec (y_db (act_run fx_later (act_step fx_pause (act_run fx_work (start ∅))))) ≠
  Ok (fx_paused_db, Committed fx_core).
Proof. apply (one_fence_wins fx_pause _ fx_core fx_later 9 "f9" fx_spec _ _ fx_commits); [reflexivity|vm_compute; discriminate]. Defined.
Lemma send_gate_spares_the_live_witness : FenceSteps.is_fenced (y_live (act_run fx_all (start ∅))) fx_heir = false.
Proof. exact (send_gate_spares_the_live ∅ fx_all fx_heir None fx_heir_stamped fx_heir_acts). Defined.
Lemma fx_fence_there : fx_fence ∈ y_fences (act_run fx_all (start ∅)).
Proof. vm_compute. left. Qed.
Lemma fx_heir_frame : acts_there (act_run fx_all (start ∅)) fx_heir "h".
Proof. left. exists "c3"%string, (fx_row "c3" fx_end). split_and!; [vm_compute; reflexivity..|vm_compute; discriminate]. Qed.
Lemma fx_live_bound : fe_live fx_fence ≤ hi_generation fx_heir.
Proof. vm_compute. discriminate. Qed.
Lemma frames_follow_the_acknowledgement_witness :
  y_deliveries (act_run fx_all (start ∅)) !! ("f1"%string, "h"%string) = Some true.
Proof.
  exact (frames_follow_the_acknowledgement ∅ fx_all fx_heir fx_chapter fx_fence fx_heir_stamped fx_heir_chapter
    fx_fence_there eq_refl fx_live_bound fx_heir_frame).
Defined.
(** The host owes the fence of the pause when the delivery begins. *)
Definition fx_owing : list Act := fx_work ++ [fx_pause; fx_resume; AQueue None None None "c5" fx_ident fx_payload; AMark "c5" false; ANoteHeld "c5"].
Lemma fx_idle : y_delivering (act_run fx_owing (start ∅)) !! "h"%string = None.
Proof. vm_compute. reflexivity. Qed.
Lemma fx_capable : host_capable (y_auth (act_run fx_owing (start ∅))) "h" = true.
Proof. vm_compute. reflexivity. Qed.
Lemma fx_owes : length [[("c2"%string, AckRan)]] = length (pending_fences "h" (y_db (act_run fx_owing (start ∅)))).
Proof. vm_compute. reflexivity. Qed.
Lemma delivery_opens_the_host_witness :
  host_gated (y_db (act_run (delivery "h" [[("c2"%string, AckRan)]]) (act_run fx_owing (start ∅)))) "h" = false.
Proof. exact (proj1 (proj2 (delivery_opens_the_host ∅ fx_owing "h" [[("c2"%string, AckRan)]] fx_idle fx_capable fx_owes))). Defined.
Lemma delivery_forwards :
  host_gated (y_db (act_run fx_owing (start ∅))) "h" = true ∧
  y_delivering (act_run (delivery "h" [[("c2"%string, AckRan)]]) (act_run fx_owing (start ∅))) !! "h"%string =
    Some (DelForward ["c3"; "cl"; "c5"]%string).
Proof. vm_compute. auto. Qed.

(** ** A close that loses a race *)

(** Another F moves the lineage to a successor between the first read and F;
    the second attempt pauses the successor. *)
Definition fx_close : PauseRequest := mkPauseRequest "a" "web" None "cl" None (VObject []).
Definition fx_rival : Act := AResume 6 "f8" true (mkResume "a" 1 [LRunning] "h" ByCreate VNull "b" "c3").
Definition fx_rounds : list Round :=
  [mkRound false [fx_rival] 7 "f9"; mkRound false [] 8 "f10"; mkRound false [] 9 "f11"; mkRound false [] 10 "f12"].
Definition fx_closed : Sys := (pause_on_close fx_close fx_rounds fx_before).1.
Lemma fx_close_runs : pause_on_close fx_close fx_rounds fx_before = (fx_closed, Ok (Some "cl"%string)).
Proof. unfold fx_closed. assert ((pause_on_close fx_close fx_rounds fx_before).2 = Ok (Some "cl"%string)) as <- by (vm_compute; reflexivity). by destruct (pause_on_close _ _ _). Qed.
Lemma fx_four : (PAUSE_ATTEMPTS ≤ length fx_rounds)%nat.
Proof. vm_compute. repeat constructor. Qed.
Lemma close_answers_truthfully_witness : paused_with "a" "cl" fx_closed.
Proof. exact (proj2 (proj1 (close_answers_truthfully fx_close fx_rounds fx_before _ _ None eq_refl fx_close_runs fx_four))). Defined.

(** ** The Hub with its Node *)

Definition fx_to_json (_ : Initiator) : string := "ini"%string.
Definition fx_from_json (_ : string) : option Initiator := None.
Definition fx_decode (_ : Value) : option Initiator := None.
#[local] Instance fx_node : FencingNode NodeState := node_fencing fx_to_json fx_from_json fx_decode.
Definition fx_events : list (Event NodeState) :=
  (EHub <$> (fx_work ++ fx_pause :: fx_replays)) ++
  [EFrame "h" "f1"; ENode "h" (OnTable (FDatabase false)); EAnswer "h" "t1" true; ENode "h" (OnTable (FDatabase true));
   EHub (ADeliver "h"); EAnswer "h" "t2" false; EAnswer "h" "t3" true; ENode "h" (OnTable FRestart)] ++ (EHub <$> fx_rest).
Definition fx_world : World NodeState := world_run fx_events (world_start ∅).
Definition fx_ghost : Initiator := mkInitiator "a" "a" 1 None.
Definition fx_late : Command :=
  mkCommand "late" OriginMcp (Some fx_ghost) InstanceSend (Some "peer"%string) "sha256:aa" NodeStore.Queued NotDispatched ResClear
    (Unknown "not-accepted") (Unknown "not-settled") (Unknown "not-accepted") (Unknown "not-settled") 1 "t0".
Lemma fw_stamped : stamped (y_auth (wd_hub fx_world)) (Some fx_heir).
Proof. vm_compute. reflexivity. Qed.
Lemma fw_chapter : a_chapters (y_auth (wd_hub fx_world)) !! "b"%string = Some fx_chapter.
Proof. vm_compute. reflexivity. Qed.
Lemma fw_lineage : a_lineages (y_auth (wd_hub fx_world)) !! "a"%string = Some (FenceHub.mkLineage "b" 2 LStarting None).
Proof. vm_compute. reflexivity. Qed.
Lemma fw_acts : acts_there (wd_hub fx_world) fx_heir "h".
Proof. left. exists "c3"%string, (fx_row "c3" (wd_hub fx_world)). split_and!; [vm_compute; reflexivity..|vm_compute; discriminate]. Qed.
Lemma fw_older : 1 ≤ ini_generation fx_ghost < hi_generation fx_heir.
Proof. vm_compute. split; [discriminate|reflexivity]. Qed.
Lemma the_past_is_refused_witness :
  submit "peer" fx_late (node_of "h" fx_world) = (node_of "h" fx_world, Err Fenced).
Proof.
  exact (the_past_is_refused fx_to_json fx_from_json fx_decode ∅ fx_events fx_heir fx_chapter _ "peer" fx_late fx_ghost
    fw_stamped fw_chapter fw_lineage fw_acts eq_refl eq_refl fw_older eq_refl).
Defined.

(** ** Where the code and its comments part *)

Definition fx_pause_of (fid lin close : string) : Act :=
  AFence 5 fid (mkFenceSpec lin 1 [LStarting; LRunning] (Pause VNull (Some (mkPauseClose close VNull None))) None false).
(** A close queued by F can be lost.  Two lineages are paused while their host
    is away; the host acknowledges the first fence and not the second, and the
    delivery ends with the follow-on commands it had collected.  The second
    delivery succeeds: the host owes nothing, and the close of the first
    lineage is still queued, on no list to be forwarded. *)
Definition fx_two_pauses : list Act :=
  [AHost "h" true; ACreate None None "a" "h" true; ACreate None None "b" "h" true; fx_pause_of "f1" "a" "cl1"; fx_pause_of "f2" "b" "cl2";
   ADeliver "h"; AAck "h" (Some []); AAck "h" None].
Theorem a_failed_delivery_drops_the_close :
  let y := act_run (delivery "h" [[]]) (act_run fx_two_pauses (start ∅)) in
  host_gated (y_db y) "h" = false ∧ pending_fences "h" (y_db y) = [] ∧ waiting (fx_row "cl1" y) = true ∧
  y_held y !! "h"%string = None ∧ y_delivering y !! "h"%string = Some (DelForward ["cl2"%string]).
Proof. vm_compute. auto 10. Qed.
(** The same when the Hub restarts between the acknowledgement and the forward. *)
Theorem a_restart_drops_the_close :
  let y := act_run [fx_pause_of "f1" "a" "cl1"; ADeliver "h"; AAck "h" (Some []); ARestart true; ADeliver "h"; ADrain "h"]
             (act_run [AHost "h" true; ACreate None None "a" "h" true] (start ∅)) in
  host_gated (y_db y) "h" = false ∧ waiting (fx_row "cl1" y) = true ∧ y_delivering y !! "h"%string = Some (DelForward []).
Proof. vm_compute. auto. Qed.
(** A direct operation that ran is recorded as cancelled at the Hub: its frame
    was answered, the same id is replayed while the host is away, and the row
    goes back to admitted, where F finds it. *)
Definition fx_chapter_up : list Act :=
  [AHost "h" true; ACreate None None "a" "h" true; ARunning "a" true; ADevice "d" (Some "a"%string)].
Definition fx_ran : list Act :=
  [fx_call 0 "op"; ACallStep 0 CNext; ACallStep 0 CNext; ACallStep 0 CNext; ACallStep 0 CNext; ACallStep 0 (CAnswer false)].
Definition fx_replayed : list Act :=
  [fx_call 1 "op"; ACallStep 1 CNext; ACallStep 1 CNext; ACallStep 1 CNext; ACallStep 1 CNoLink; ACallStep 1 CNext].
Definition op_outcomes (y : Sys) : list (string * Outcome) := (λ x, (fop_op x, fop_outcome x)) <$> y_ops y.
Theorem an_operation_that_ran_reads_cancelled :
  let y := act_run (fx_chapter_up ++ fx_ran ++ fx_replayed ++ [fx_pause_of "f1" "a" "cl"]) (start ∅) in
  ((λ f : string * string * option HubInitiator, f.1.1) <$> y_op_frames y) = ["op"%string] ∧ op_outcomes y = [("op"%string, OCancelledAtHub)].
Proof. vm_compute. auto. Qed.
(** An operation that never left stays unknown: F lands after its send intent,
    the call then finds no link, and the record is not resolved. *)
Theorem an_operation_that_never_left_stays_unknown :
  let y := act_run (fx_chapter_up ++ [fx_call 0 "op"; ACallStep 0 CNext; ACallStep 0 CNext; ACallStep 0 CNext;
              fx_pause_of "f1" "a" "cl"; ACallStep 0 CNoLink; ACallStep 0 CNext]) (start ∅) in
  y_op_frames y = [] ∧ op_outcomes y = [("op"%string, OUnknown)] ∧ map_to_list (y_calls y) = [].
Proof. vm_compute. auto. Qed.
(** A command told to wait for a fence can miss its delivery: it is noted as
    held after the delivery took the held commands. *)
Theorem a_late_note_is_not_forwarded :
  let y := act_run (fx_chapter_up ++ [fx_pause_of "f1" "a" "cl"; AQueue None None None "c5" fx_ident fx_payload; AMark "c5" false] ++
              delivery "h" [[]] ++ [ANoteHeld "c5"]) (start ∅) in
  host_gated (y_db y) "h" = false ∧ pending_fences "h" (y_db y) = [] ∧ waiting (fx_row "c5" y) = true ∧
  y_delivering y !! "h"%string = Some (DelForward ["cl"%string]).
Proof. vm_compute. auto. Qed.
(** One operation id on two hosts leaves one record. *)
Theorem one_record_for_two_hosts :
  let call n host := [ACall n "op" host "workspace.write" (Some "a"%string) (Some "d"%string); ACallStep n CNext; ACallStep n CNext;
                      ACallStep n CNext; ACallStep n CNext] in
  let y := act_run (fx_chapter_up ++ [AHost "k" true] ++ call 0%nat "h"%string ++ call 1%nat "k"%string ++ [fx_pause_of "f1" "a" "cl"]) (start ∅) in
  length (y_op_frames y) = 2%nat ∧ length (y_ops y) = 1%nat.
Proof. vm_compute. auto. Qed.
