(* ===== verification/PathGuard.v ===== *)
(** * Containment of caller-supplied paths

    [remuda-protocol/src/path_guard.rs], which every route that takes a path
    uses, with two of its callers in [remuda-node/src/worktree.rs] (the working
    directory of an instance, the directory of a worktree).  A path is
    normalised textually, the part of it that exists is canonicalised, and the
    result must start with a root that went through the same.  The file system
    is a map from physical paths to directories, files and symbolic links, and
    [walk] is what the kernel does with a path. *)
From stdpp Require Import base list gmap strings numbers.
From S2P Require Import Prelude Text.
Local Open Scope nat_scope.

(** ** Paths *)

(** [std::path]: the components of a path on Unix. *)
Inductive Component : Type := CurDir | ParentDir | Normal (name : text).
#[export] Instance Component_eq_dec : EqDecision Component.
Proof. solve_decision. Defined.
Record Path : Type := mkPath { absolute : bool; comps : list Component }.
Definition slash : Z := 47%Z.
Definition is_slash (c : Z) : bool := bool_decide (c = slash).
Definition component (piece : text) : Component :=
  if bool_decide (piece = lit ".") then CurDir else if bool_decide (piece = lit "..") then ParentDir else Normal piece.
(** [Path::components]: empty pieces are dropped, and [.] unless it comes
    first in a relative path. *)
Definition drop_dots (l : list Component) : list Component := retain (λ c, negb (bool_decide (c = CurDir))) l.
Definition path_of (s : text) : Path :=
  let l := component <$> retain (λ p, negb (bool_decide (p = []))) (split_on is_slash s) in
  if bool_decide (head s = Some slash) then mkPath true (drop_dots l)
  else mkPath false (match l with CurDir :: r => CurDir :: drop_dots r | _ => drop_dots l end).
(** [Path::join]. *)
Definition join (base candidate : Path) : Path :=
  if absolute candidate then candidate
  else match comps base with
       | [] => mkPath (absolute base) (if absolute base then drop_dots (comps candidate) else comps candidate)
       | l => mkPath (absolute base) (l ++ drop_dots (comps candidate))
       end.
(** A physical path: its names from the root. *)
Abbreviation phys := (list text) (only parsing).
Definition of_phys (p : phys) : Path := mkPath true (Normal <$> p).

(** ** The file system *)

Inductive Entry : Type := Dir (searchable : bool) | File | Link (target : Path).
Abbreviation FS := (gmap phys Entry) (only parsing).
Inductive IoError : Type := NotFound | NotADirectory | Denied | TooManyLinks.
Definition searchable (fs : FS) (d : phys) : bool := match fs !! d with Some (Dir ok) => ok | _ => true end.
(** The kernel's walk from the directory [cur], at most [links] symbolic links
    long. *)
Fixpoint walk (fs : FS) (links : nat) : phys → list Component → result phys IoError :=
  fix go (cur : phys) (todo : list Component) : result phys IoError :=
    match todo with
    | [] => Ok cur
    | c :: rest =>
        if negb (searchable fs cur) then Err Denied
        else
          match c with
          | CurDir => go cur rest
          | ParentDir => go (removelast cur) rest
          | Normal s =>
              match fs !! (cur ++ [s]) with
              | None => Err NotFound
              | Some (Dir _) => go (cur ++ [s]) rest
              | Some File => match rest with [] => Ok (cur ++ [s]) | _ => Err NotADirectory end
              | Some (Link t) =>
                  match links with
                  | O => Err TooManyLinks
                  | S links => walk fs links (if absolute t then [] else cur) (comps t ++ rest)
                  end
              end
          end
    end.
Definition MAX_LINKS : nat := 40.
(** What opening a physical path reaches; [Path::canonicalize] is the same
    walk. *)
Definition access (fs : FS) (p : phys) : result phys IoError := walk fs MAX_LINKS [] (Normal <$> p).
Definition canonicalize (fs : FS) (p : phys) : result phys IoError := access fs p.
Definition is_dir (fs : FS) (p : phys) : bool :=
  match access fs p with Ok q => match fs !! q with Some (Dir _) => true | Some _ => false | None => bool_decide (q = []) end | Err _ => false end.

(** ** The guard *)

Inductive PathGuardError : Type := Shape | Escape | Unresolvable | NoParent.
Definition WORKTREE_DIR : text := lit "remuda-wt".
(** [normalize]: [..] is resolved textually. *)
Fixpoint normalize_comps (out : phys) (l : list Component) : result phys PathGuardError :=
  match l with
  | [] => Ok out
  | CurDir :: l => normalize_comps out l
  | ParentDir :: l => match out with [] => Err Shape | _ => normalize_comps (removelast out) l end
  | Normal s :: l => normalize_comps (out ++ [s]) l
  end.
Definition normalize (p : Path) : result phys PathGuardError :=
  if absolute p then normalize_comps [] (comps p) else Err Shape.
(** [real_path]: the probe, last name first, and the names taken off it. *)
Fixpoint real_loop (fs : FS) (probe tail : phys) : result phys PathGuardError :=
  match canonicalize fs (reverse probe) with
  | Ok real => Ok (real ++ tail)
  | Err NotFound => match probe with [] => Err Unresolvable | name :: probe => real_loop fs probe (name :: tail) end
  | Err _ => Err Unresolvable
  end.
Definition real_path (fs : FS) (p : Path) : result phys PathGuardError :=
  match normalize p with Ok n => real_loop fs (reverse n) [] | Err e => Err e end.
Definition worktree_root (fs : FS) (repo : Path) : result phys PathGuardError :=
  match real_path fs repo with
  | Ok [] => Err NoParent
  | Ok real => Ok (removelast real ++ [WORKTREE_DIR])
  | Err e => Err e
  end.
Definition absolutize (base candidate : Path) : Path := if absolute candidate then candidate else join base candidate.
(** [contain] and [contain_strict]. *)
Fixpoint in_some_root (fs : FS) (roots : list Path) (resolved : phys) : bool :=
  match roots with
  | [] => false
  | root :: roots =>
      match real_path fs root with
      | Ok real => if starts_with real resolved then true else in_some_root fs roots resolved
      | Err _ => in_some_root fs roots resolved
      end
  end.
Definition contain (fs : FS) (roots : list Path) (candidate : Path) : result phys PathGuardError :=
  match real_path fs candidate with
  | Ok resolved => if in_some_root fs roots resolved then Ok resolved else Err Escape
  | Err e => Err e
  end.
Definition is_root_of (fs : FS) (resolved : phys) (root : Path) : bool :=
  match real_path fs root with Ok real => bool_decide (real = resolved) | Err _ => false end.
Definition contain_strict (fs : FS) (roots : list Path) (candidate : Path) : result phys PathGuardError :=
  match contain fs roots candidate with
  | Ok resolved => if existsb (is_root_of fs resolved) roots then Err Escape else Ok resolved
  | Err e => Err e
  end.

(** ** Its callers on the Node *)

(** [resolve_path]: the directory of a worktree. *)
Definition resolve_path (fs : FS) (repo : Path) (name : text) (path : option Path) : result phys PathGuardError :=
  match worktree_root fs repo with
  | Err e => Err e
  | Ok root =>
      let raw := match path with Some p => absolutize repo p | None => join (of_phys root) (path_of name) end in
      contain_strict fs [of_phys root] raw
  end.
(** [expand_home] and [resolve_instance_cwd]; [here] is the directory of the
    process and [access_check] what [workspace_access_check] answers. *)
Inductive CwdError : Type := NoAccess | RootUnusable | NoHome | CwdEscape | NotADir.
Definition strip_to_slash (prefix raw : text) : option text :=
  match strip_prefix prefix raw with
  | Some [] => Some []
  | Some (c :: tail) => if is_slash c then Some (c :: tail) else None
  | None => None
  end.
Fixpoint trim_slashes (l : text) : text :=
  match l with c :: r => if is_slash c then trim_slashes r else l | [] => [] end.
Definition expand_home (raw : text) (home : option Path) : result Path CwdError :=
  let suffix := match strip_to_slash (lit "~") raw with Some s => Some s | None => strip_to_slash (lit "$HOME") raw end in
  match suffix with
  | None => Ok (path_of raw)
  | Some s =>
      match home with
      | Some h => if absolute h then Ok (join h (path_of (trim_slashes s))) else Err NoHome
      | None => Err NoHome
      end
  end.
Definition cwd_roots (fs : FS) (workspace : Path) : list Path :=
  workspace :: match worktree_root fs workspace with Ok w => [of_phys w] | Err _ => [] end.
Definition resolve_instance_cwd (fs : FS) (here : Path) (home : option Path) (access_check : Path → bool) (workspace : Path)
    (cwd : option text) : result phys CwdError :=
  if negb (access_check workspace) then Err NoAccess
  else
    let workspace := if absolute workspace then workspace else join here workspace in
    match trim <$> cwd with
    | None | Some [] => match real_path fs workspace with Ok p => Ok p | Err _ => Err RootUnusable end
    | Some raw =>
        match expand_home raw home with
        | Err e => Err e
        | Ok expanded =>
            let candidate := absolutize workspace expanded in
            if negb (access_check candidate) then Err NoAccess
            else
              match contain fs (cwd_roots fs workspace) candidate with
              | Err _ => Err CwdEscape
              | Ok resolved => if is_dir fs resolved then Ok resolved else Err NotADir
              end
        end
    end.

(** ** What a walk reaches *)

(** A directory reached by real names only, every one of its parents
    searchable; and a file in one. *)
Inductive at_dir (fs : FS) : phys → Prop :=
| at_root : at_dir fs []
| at_sub q s ok : at_dir fs q → searchable fs q = true → fs !! (q ++ [s]) = Some (Dir ok) → at_dir fs (q ++ [s]).
Inductive at_file (fs : FS) : phys → Prop :=
| at_leaf q s : at_dir fs q → searchable fs q = true → fs !! (q ++ [s]) = Some File → at_file fs (q ++ [s]).
Lemma at_dir_up fs q : at_dir fs q → at_dir fs (removelast q).
Proof. intros H. destruct H as [|q s ok H]; [constructor|]. by rewrite removelast_last. Qed.
Lemma walk_nil fs n cur : walk fs n cur [] = Ok cur.
Proof. by destruct n. Qed.
Lemma walk_cons fs n cur c rest : walk fs n cur (c :: rest) =
  if negb (searchable fs cur) then Err Denied
  else match c with
       | CurDir => walk fs n cur rest
       | ParentDir => walk fs n (removelast cur) rest
       | Normal s =>
           match fs !! (cur ++ [s]) with
           | None => Err NotFound
           | Some (Dir _) => walk fs n (cur ++ [s]) rest
           | Some File => match rest with [] => Ok (cur ++ [s]) | _ => Err NotADirectory end
           | Some (Link t) =>
               match n with O => Err TooManyLinks | S m => walk fs m (if absolute t then [] else cur) (comps t ++ rest) end
           end
       end.
Proof. by destruct n, c. Qed.
(** The induction of a walk: on the links left, then on what is left to walk. *)
Lemma walk_reaches fs n cur todo p : at_dir fs cur → walk fs n cur todo = Ok p → at_dir fs p ∨ at_file fs p.
Proof.
  revert cur todo. induction n as [n IHn] using lt_wf_ind. intros cur todo. revert cur.
  induction todo as [|c rest IH]; intros cur Hc; [rewrite walk_nil; intros [= <-]; by left|]. rewrite walk_cons.
  destruct (searchable fs cur) eqn:Hs; [|done]. cbn [negb]. destruct c as [| |s]; [by apply IH|by apply IH, at_dir_up|].
  destruct (fs !! (cur ++ [s])) as [[ok| |t]|] eqn:He; [by apply IH, (at_sub fs cur s ok)| | |done].
  - destruct rest; [|done]. intros [= <-]. right. by constructor.
  - destruct n as [|m]; [done|]. apply IHn; [lia|]. destruct (absolute t); [constructor|done].
Qed.
(** Real names are walked to themselves. *)
Lemma walk_dir fs n p rest : at_dir fs p → walk fs n [] ((Normal <$> p) ++ rest) = walk fs n p rest.
Proof.
  intros H. revert rest. induction H as [|q s ok H IH Hs He]; intros rest; [done|].
  rewrite fmap_app, <- app_assoc, IH. cbn [fmap list_fmap app]. rewrite walk_cons, Hs, He. done.
Qed.
Lemma walk_real fs n p : at_dir fs p ∨ at_file fs p → walk fs n [] (Normal <$> p) = Ok p.
Proof.
  intros [H|[q s H Hs He]].
  - rewrite <- (app_nil_r (Normal <$> p)), walk_dir by done. apply walk_nil.
  - rewrite fmap_app, walk_dir by done. cbn [fmap list_fmap]. by rewrite walk_cons, Hs, He.
Qed.
(** A canonical path is its own canonical path. *)
Theorem canonical_is_stable fs p q : canonicalize fs p = Ok q → canonicalize fs q = Ok q.
Proof. intros H. apply walk_real. eapply walk_reaches, H. constructor. Qed.
(** A walk goes through the end of its first half, with the links it left. *)
Lemma walk_app fs n cur a b q : at_dir fs cur → walk fs n cur a = Ok q → (at_dir fs q ∨ b = [] → ∃ m, m ≤ n ∧ walk fs n cur (a ++ b) = walk fs m q b) ∧
  (at_file fs q → b ≠ [] → walk fs n cur (a ++ b) = Err NotADirectory).
Proof.
  revert cur a. induction n as [n IHn] using lt_wf_ind. intros cur a. revert cur.
  induction a as [|c rest IH]; intros cur Hc.
  { rewrite walk_nil. intros [= <-]. split; [intros _; by exists n|]. intros Hf _. exfalso.
    destruct Hf as [q s H Hs He]. inversion Hc as [E|q' s' ok H' Hs' He' E]; [by destruct q|].
    apply app_inj_tail in E as [-> ->]. congruence. }
  cbn [app]. rewrite !walk_cons. destruct (searchable fs cur) eqn:Hs; [|done]. cbn [negb].
  destruct c as [| |s]; [by apply IH|by apply IH, at_dir_up|].
  destruct (fs !! (cur ++ [s])) as [[ok| |t]|] eqn:He; [by apply IH, (at_sub fs cur s ok)| | |done].
  - destruct rest as [|]; [|done]. intros [= <-]. split.
    + intros [Hd| ->]; [|exists n; by rewrite walk_nil]. exfalso. inversion Hd as [E|q' s' ok H' Hs' He' E]; [by destruct cur|].
      apply app_inj_tail in E as [-> ->]. congruence.
    + intros _ Hb. cbn [app]. by destruct b.
  - destruct n as [|m]; [done|]. rewrite app_assoc. intros H.
    destruct (IHn m ltac:(lia) (if absolute t then [] else cur) (comps t ++ rest) ltac:(destruct (absolute t); [constructor|done]) H) as [H1 H2].
    split; [|done]. intros Hq. destruct (H1 Hq) as (k & ? & E). exists k. split; [lia|done].
Qed.
(** More links do not find what is missing. *)
Lemma walk_missing fs n m cur todo : n ≤ m → walk fs n cur todo = Err NotFound → walk fs m cur todo = Err NotFound.
Proof.
  revert m cur todo. induction n as [n IHn] using lt_wf_ind. intros m cur todo Hm. revert cur.
  induction todo as [|c rest IH]; intros cur; [by rewrite walk_nil|]. rewrite !walk_cons.
  destruct (searchable fs cur); [|done]. cbn [negb]. destruct c as [| |s]; [apply IH|apply IH|].
  destruct (fs !! (cur ++ [s])) as [[ok| |t]|]; [apply IH|done| |done].
  destruct n as [|n']; [done|]. destruct m as [|m']; [lia|]. apply IHn; lia.
Qed.
Lemma walk_missing_app fs n cur a b : walk fs n cur a = Err NotFound → walk fs n cur (a ++ b) = Err NotFound.
Proof.
  revert cur a. induction n as [n IHn] using lt_wf_ind. intros cur a. revert cur.
  induction a as [|c rest IH]; intros cur; [by rewrite walk_nil|]. cbn [app]. rewrite !walk_cons.
  destruct (searchable fs cur); [|done]. cbn [negb]. destruct c as [| |s]; [apply IH|apply IH|].
  destruct (fs !! (cur ++ [s])) as [[ok| |t]|]; [apply IH|by destruct rest| |done].
  destruct n as [|n']; [done|]. rewrite app_assoc. apply IHn. lia.
Qed.

(** ** What the guard returns *)

(** The part of a resolved path that exists is real, and the kernel does not
    find the first name after it. *)
Definition resolved (fs : FS) (r : phys) : Prop := ∃ q t, r = q ++ t ∧ (at_dir fs q ∨ at_file fs q) ∧
  match t with [] => True | name :: _ => at_dir fs q ∧ walk fs MAX_LINKS q [Normal name] = Err NotFound end.
Lemma real_loop_resolved fs probe tail r : real_loop fs probe tail = Ok r →
  (∀ name t, tail = name :: t → canonicalize fs (reverse probe ++ [name]) = Err NotFound) → resolved fs r.
Proof.
  assert (∀ p real t, canonicalize fs p = Ok real →
    (∀ name t', t = name :: t' → canonicalize fs (p ++ [name]) = Err NotFound) → resolved fs (real ++ t)) as Hok.
  { intros p real t Hp Ht. exists real, t. assert (at_dir fs real ∨ at_file fs real) as Hr by (eapply walk_reaches, Hp; constructor).
    split_and!; [done|done|]. destruct t as [|name t]; [done|]. specialize (Ht _ _ eq_refl). unfold canonicalize, access in Hp, Ht.
    rewrite fmap_app in Ht. destruct (walk_app fs MAX_LINKS [] (Normal <$> p) (Normal <$> [name]) real (at_root fs) Hp) as [H1 H2].
    destruct Hr as [Hd|Hf]; [|rewrite H2 in Ht by done; done]. split; [done|].
    destruct (H1 (or_introl Hd)) as (m & Hm & E). rewrite E in Ht. by eapply walk_missing. }
  revert tail. induction probe as [|name probe IH]; intros tail; cbn [real_loop].
  - destruct (canonicalize fs (reverse [])) as [real|[]] eqn:E; try done. intros [= <-]. by apply (Hok (reverse [])).
  - destruct (canonicalize fs (reverse (name :: probe))) as [real|[]] eqn:E; try done.
    + intros [= <-]. by apply (Hok (reverse (name :: probe))).
    + intros Hr _. apply (IH (name :: tail) Hr). intros name' t [= <- <-]. by rewrite <- reverse_cons.
Qed.
Lemma real_path_resolved fs p r : real_path fs p = Ok r → resolved fs r.
Proof. unfold real_path. destruct (normalize p); [|done]. intros H. by eapply real_loop_resolved. Qed.
Lemma resolved_access fs r : resolved fs r → access fs r = Ok r ∨ access fs r = Err NotFound.
Proof.
  intros (q & t & -> & Hq & Ht). destruct t as [|name t].
  - rewrite app_nil_r. left. by apply walk_real.
  - right. destruct Ht as [Hd Hm]. unfold access. rewrite fmap_app, walk_dir by done.
    apply (walk_missing_app fs MAX_LINKS q [Normal name]), Hm.
Qed.
Lemma in_some_root_inv fs roots r : in_some_root fs roots r = true → ∃ root real, root ∈ roots ∧ real_path fs root = Ok real ∧ real `prefix_of` r.
Proof.
  induction roots as [|root roots IH]; [done|]. cbn [in_some_root]. intros H.
  assert (in_some_root fs roots r = true ∨ ∃ real, real_path fs root = Ok real ∧ starts_with real r = true) as [Hr|(real & Hr & Hs)].
  { destruct (real_path fs root) as [real|]; [|by left]. destruct (starts_with real r) eqn:E; [right; by exists real|by left]. }
  - destruct (IH Hr) as (root' & real & H1 & H2). exists root', real. split; [by right|done].
  - exists root, real. split_and!; [left|done|by apply starts_with_spec].
Qed.
Lemma contain_inv fs roots p r : contain fs roots p = Ok r → real_path fs p = Ok r ∧ in_some_root fs roots r = true.
Proof. unfold contain. destruct (real_path fs p) as [x|]; [|done]. destruct (in_some_root fs roots x) eqn:E; [|done]. by intros [= <-]. Qed.
(** The strict form leaves the roots themselves out. *)
Lemma contain_strict_inv fs roots p r : contain_strict fs roots p = Ok r → real_path fs p = Ok r ∧
  ∃ root real name t, root ∈ roots ∧ real_path fs root = Ok real ∧ r = real ++ name :: t.
Proof.
  unfold contain_strict. destruct (contain fs roots p) as [x|] eqn:E; [|done]. destruct (existsb _ roots) eqn:Ex; [done|].
  intros [= <-]. destruct (contain_inv _ _ _ _ E) as [Hr Hin]. split; [done|].
  destruct (in_some_root_inv _ _ _ Hin) as (root & real & Hroot & Hreal & [[|name t] ->]).
  - exfalso. apply not_true_iff_false in Ex. apply Ex. apply existsb_exists. exists root. split; [by apply list_elem_of_In|].
    unfold is_root_of. rewrite Hreal, app_nil_r. by apply bool_decide_eq_true.
  - by exists root, real, name, t.
Qed.

(** ** Creating what was resolved *)

(** Nothing is below what is not a directory. *)
Definition tree (fs : FS) : Prop := ∀ q s e, fs !! (q ++ [s]) = Some e → q = [] ∨ ∃ ok, fs !! q = Some (Dir ok).
(** [mkdir -p] from the directory [q]. *)
Fixpoint mkdirs (fs : FS) (q t : phys) : FS :=
  match t with
  | [] => fs
  | name :: t =>
      let q := q ++ [name] in
      mkdirs (match fs !! q with Some _ => fs | None => <[q := Dir true]> fs end) q t
  end.
Definition mkdir_all (fs : FS) (p : phys) : FS := mkdirs fs [] p.
(** [fs'] has what [fs] has. *)
Definition keeps (fs fs' : FS) : Prop := ∀ p e, fs !! p = Some e → fs' !! p = Some e.
Definition no_links (fs : FS) (r : phys) : Prop := ∀ q t, r = q ++ t → ∀ target, fs !! q ≠ Some (Link target).
Lemma at_dir_known fs q : at_dir fs q → q = [] ∨ ∃ ok, fs !! q = Some (Dir ok).
Proof. intros [|q' s ok]; [by left|right; by exists ok]. Qed.
Lemma searchable_keeps fs fs' q : keeps fs fs' → fs' !! [] = fs !! [] → at_dir fs q → searchable fs' q = searchable fs q.
Proof.
  intros Hk H0 [->|(ok & H)]%at_dir_known; unfold searchable; [by rewrite H0|]. by rewrite (Hk _ _ H), H.
Qed.
Lemma at_dir_keeps fs fs' q : keeps fs fs' → fs' !! [] = fs !! [] → at_dir fs q → at_dir fs' q.
Proof.
  intros Hk H0. induction 1 as [|q s ok H IH Hs He]; [constructor|].
  apply (at_sub fs' q s ok); [done|by rewrite (searchable_keeps fs)|by apply Hk].
Qed.
Lemma mkdirs_known fs q t : at_dir fs q → mkdirs fs [] (q ++ t) = mkdirs fs q t.
Proof.
  intros H. revert t. induction H as [|q s ok H IH Hs He]; intros t; [done|].
  rewrite <- app_assoc, IH. cbn [app mkdirs]. by rewrite He.
Qed.
(** Directories made where nothing was are reached. *)
Lemma mkdirs_fresh fs q t : at_dir fs q → searchable fs q = true →
  (∀ name u, head t = Some name → fs !! (q ++ name :: u) = None) → at_dir (mkdirs fs q t) (q ++ t).
Proof.
  revert fs q. induction t as [|name t IH]; intros fs q Hd Hs Hfresh; [by rewrite app_nil_r|]. cbn [mkdirs].
  assert (fs !! (q ++ [name]) = None) as Hn by by apply Hfresh. rewrite Hn.
  assert (keeps fs (<[q ++ [name] := Dir true]> fs)) as Hk.
  { intros p e He. rewrite lookup_insert_ne; [done|]. intros <-. congruence. }
  assert (<[q ++ [name] := Dir true]> fs !! [] = fs !! []) as H0 by (apply lookup_insert_ne; by destruct q).
  replace (q ++ name :: t) with ((q ++ [name]) ++ t) by by rewrite <- app_assoc. apply IH.
  - apply (at_sub _ q name true); [by apply (at_dir_keeps fs)|by rewrite (searchable_keeps fs)|by rewrite lookup_insert_eq].
  - unfold searchable. by rewrite lookup_insert_eq.
  - intros name' u _. rewrite <- app_assoc. cbn [app]. rewrite lookup_insert_ne by (intros [=]%app_inv_head). by apply Hfresh.
Qed.
Lemma tree_below fs q name u : tree fs → fs !! (q ++ [name]) = None → fs !! (q ++ name :: u) = None.
Proof.
  intros Ht Hn. induction u as [|s u IH] using rev_ind; [done|]. rewrite app_comm_cons, app_assoc.
  destruct (fs !! ((q ++ name :: u) ++ [s])) as [e|] eqn:E; [|done]. exfalso.
  destruct (Ht _ _ _ E) as [H|(ok & H)]; [by destruct q|congruence].
Qed.
Lemma resolved_created fs r : tree fs → no_links fs r → resolved fs r → access (mkdir_all fs r) r = Ok r.
Proof.
  intros Htree Hl (q & t & -> & Hq & Ht). unfold mkdir_all. destruct t as [|name t].
  { rewrite app_nil_r. replace (mkdirs fs [] q) with fs; [by apply walk_real|].
    destruct Hq as [Hd|[p s Hd Hs He]]; [rewrite <- (app_nil_r q); by rewrite mkdirs_known|].
    rewrite mkdirs_known by done. cbn [mkdirs]. by rewrite He. }
  destruct Ht as [Hd Hm]. rewrite mkdirs_known by done. apply walk_real. left.
  rewrite walk_cons in Hm. destruct (searchable fs q) eqn:Hs; [|done]. cbn [negb] in Hm.
  apply mkdirs_fresh; [done..|]. intros n u [= <-]. apply tree_below; [done|].
  destruct (fs !! (q ++ [name])) as [[ok| |target]|] eqn:E; [by rewrite walk_nil in Hm|done| |done].
  exfalso. eapply (Hl (q ++ [name]) t); [by rewrite <- app_assoc|exact E].
Qed.
(** C38. A path the guard accepts stays inside: it extends the real path of one
    of the roots; whatever symbolic links there are, opening it reaches that very
    path or nothing; and when no link is among its names, making the missing
    directories leads exactly there, so what is created is what was checked. *)
Theorem contained_path_stays_inside fs roots p r : contain fs roots p = Ok r →
  (∃ root real, root ∈ roots ∧ real_path fs root = Ok real ∧ real `prefix_of` r) ∧
  (access fs r = Ok r ∨ access fs r = Err NotFound) ∧
  (tree fs → no_links fs r → access (mkdir_all fs r) r = Ok r).
Proof.
  intros [Hr Hin]%contain_inv. apply real_path_resolved in Hr.
  split_and!; [by apply in_some_root_inv|by apply resolved_access|intros; by apply resolved_created].
Qed.
(** The directory of a worktree: what the Node accepts lies strictly below
    the real path of the [remuda-wt] beside the repository, and when no link is
    among its names, making the missing directories leads exactly there, so the
    directory created is the one that was checked. *)
Theorem worktree_is_created_inside fs repo name path r : resolve_path fs repo name path = Ok r →
  tree fs → no_links fs r →
  (∃ root real n t, worktree_root fs repo = Ok root ∧ real_path fs (of_phys root) = Ok real ∧ r = real ++ n :: t) ∧
  access (mkdir_all fs r) r = Ok r.
Proof.
  unfold resolve_path. destruct (worktree_root fs repo) as [root|] eqn:Er; [|done]. cbv zeta. intros H Htree Hl.
  destruct (contain_strict_inv _ _ _ _ H) as (Hr & root' & real & n & t & Hin & Hreal & ->).
  apply list_elem_of_singleton in Hin as ->. split; [by exists root, real, n, t|].
  by eapply resolved_created, real_path_resolved.
Qed.
(** The working directory of an instance: an accepted one is a directory that
    exists, reached by real names only, inside the workspace or its worktrees. *)
Lemma cwd_of_caller fs here home check ws raw r : trim raw ≠ [] → resolve_instance_cwd fs here home check ws (Some raw) = Ok r →
  ∃ candidate, check candidate = true ∧ is_dir fs r = true ∧
    contain fs (cwd_roots fs (if absolute ws then ws else join here ws)) candidate = Ok r.
Proof.
  intros Hne. unfold resolve_instance_cwd. destruct (check ws); [|done]. cbn [negb fmap option_fmap option_map].
  destruct (trim raw) as [|c l] eqn:Et; [done|]. destruct (expand_home (c :: l) home) as [ex|]; [|done].
  set (w := if absolute ws then ws else join here ws). intros H. exists (absolutize w ex). revert H.
  destruct (check (absolutize w ex)); [|done]. cbn [negb]. destruct (contain fs (cwd_roots fs w) (absolutize w ex)) as [x|] eqn:E; [|done].
  destruct (is_dir fs x) eqn:Ed; [|done]. by intros [= <-].
Qed.
Theorem instance_runs_inside fs here home check ws raw r : trim raw ≠ [] →
  resolve_instance_cwd fs here home check ws (Some raw) = Ok r →
  at_dir fs r ∧ ∃ root real, root ∈ cwd_roots fs (if absolute ws then ws else join here ws) ∧ real_path fs root = Ok real ∧ real `prefix_of` r.
Proof.
  intros Hne H. destruct (cwd_of_caller _ _ _ _ _ _ _ Hne H) as (p & _ & Hd & [Hr Hin]%contain_inv).
  split; [|by apply in_some_root_inv]. apply real_path_resolved, resolved_access in Hr. revert Hd. unfold is_dir.
  destruct Hr as [Hr|Hr]; rewrite Hr; [|done]. unfold access in Hr.
  destruct (walk_reaches fs MAX_LINKS [] _ r (at_root fs) Hr) as [?|[q s ? ? He]]; [done|]. by rewrite He.
Qed.

(** ** Two file systems *)

(** [/r/repo] with [/r/repo/out] a link to [/r/etc], [/r/repo/new] one to
    [/r/etc/later], which does not exist, and [/r/wt] a link to [/r/repo]. *)
Definition at_ (l : list string) : phys := lit <$> l.
Definition ex_fs : FS := list_to_map
  [ (at_ ["r"], Dir true); (at_ ["r"; "repo"], Dir true); (at_ ["r"; "etc"], Dir true);
    (at_ ["r"; "repo"; "out"], Link (path_of (lit "/r/etc")));
    (at_ ["r"; "repo"; "new"], Link (path_of (lit "../etc/later")));
    (at_ ["r"; "wt"], Link (path_of (lit "repo"))) ].
Definition ex_root : Path := path_of (lit "/r/repo").
(** A missing directory through a link and [..]; a link out; [..] out; and a
    link that leads nowhere. *)
Lemma ex_contain_runs :
  contain ex_fs [ex_root] (path_of (lit "/r/x/../wt/a/b")) = Ok (at_ ["r"; "repo"; "a"; "b"]) ∧
  contain ex_fs [ex_root] (path_of (lit "/r/repo/out/passwd")) = Err Escape ∧
  contain ex_fs [ex_root] (path_of (lit "/r/repo/../etc")) = Err Escape ∧
  contain ex_fs [ex_root] (path_of (lit "/..")) = Err Shape ∧
  contain_strict ex_fs [ex_root] ex_root = Err Escape ∧
  resolve_path ex_fs ex_root (lit "w1") None = Ok (at_ ["r"; "remuda-wt"; "w1"]).
Proof. vm_compute. done. Qed.
Lemma ex_tree : tree ex_fs.
Proof.
  intros q s e H. apply elem_of_list_to_map_2 in H. unfold at_ in H. cbn [fmap list_fmap] in H.
  repeat (apply elem_of_cons in H as [H|H]; [injection H as E _; apply (f_equal (@removelast _)) in E; rewrite removelast_last in E; subst q; vm_compute; eauto|]).
  by apply elem_of_nil in H.
Qed.
Lemma ex_no_links : no_links ex_fs (at_ ["r"; "repo"; "a"; "b"]).
Proof.
  intros q t E target. do 5 (destruct q as [|? q]; [vm_compute; done|try (injection E as <- E)]). done.
Qed.
Lemma contained_path_stays_inside_witness : access ex_fs (at_ ["r"; "repo"; "a"; "b"]) = Err NotFound ∧
  access (mkdir_all ex_fs (at_ ["r"; "repo"; "a"; "b"])) (at_ ["r"; "repo"; "a"; "b"]) = Ok (at_ ["r"; "repo"; "a"; "b"]).
Proof.
  destruct (contained_path_stays_inside ex_fs [ex_root] (path_of (lit "/r/x/../wt/a/b")) _ (proj1 ex_contain_runs)) as (_ & _ & H).
  split; [vm_compute; reflexivity|exact (H ex_tree ex_no_links)].
Defined.
(** A link that leads nowhere is not resolved: the guard takes it for a name
    that does not exist yet, and once its target is made the accepted path leads
    out of the root. *)
Theorem dangling_link_leaves_the_root :
  contain ex_fs [ex_root] (path_of (lit "/r/repo/new")) = Ok (at_ ["r"; "repo"; "new"]) ∧
  access (mkdir_all ex_fs (at_ ["r"; "etc"; "later"])) (at_ ["r"; "repo"; "new"]) = Ok (at_ ["r"; "etc"; "later"]).
Proof. vm_compute. done. Qed.
